(* ===== verification/_CoqProject ===== *)
-Q . S2P
Prelude.v
Errors.v
Io.v
Protocol.v
ProtocolFacts.v
Auth.v
Runtime.v
Timing.v
Text.v
TextFacts.v
Net.v
NetFacts.v
AddrFacts.v
Config.v
Cli.v
SettingsFacts.v
CliFacts.v
SettingsWitness.v
Registry.v
RegistryOps.v
RegistryInv.v
RegistrySafe.v
RegistrySpec.v
RegistryReplay.v
RegistryDemo.v
RegistryProps.v
RegistryWitness.v
RegistryOrigin.v
Handshake.v
HandshakeFacts.v
Sessions.v
SessionFacts.v
Client.v
Server.v
ClientFacts.v
ServerFacts.v
Process.v
ProcessFacts.v
ProcessWitness.v
Forwarding.v
ForwardingFacts.v
ClientSystem.v
ClientSystemFacts.v
Traces.v
System.v
SystemInv.v
SystemTypes.v
SystemProps.v
Witness.v
ForwardingWitness.v
ClientSystemWitness.v
SystemRun.v
