(* ===== verification/Prelude.v ===== *)
(** * Tunlet: a verification development

    Tunlet is an authenticated TCP tunnel.  A client behind a firewall keeps one
    control connection to a server; the server listens on a public port for it,
    announces every public connection with OPEN, and the client answers with a
    data connection that the server splices to the public one.  This library
    models the Rust sources under [src/src/] and proves what makes them correct.
    Definitions keep the names of the source, and read like it: a handler is a
    function of the state with the branches of the code, a protocol exchange is
    a program over a socket, an event loop is a function of what each turn finds
    ready.

    ** The program and the files

    - [Prelude] (this file): results, byte strings, machine integers, slices,
      generic lemmas, the tactics and hint databases.
    - [Errors] ([error.rs]): codes, errors, texts, exit codes.
    - [Io]: programs over a socket ([proc]), their runs in a [World] that
      answers reads, writes, entropy and requests, and runs cut by a timeout.
    - [Protocol] ([protocol.rs]): preamble, frames, message bodies;
      [ProtocolFacts] their exactness.
    - [Auth] ([auth.rs]): labels, transcripts, MACs.  [mac_input_injective]: the
      bytes under a MAC determine the statement.
    - [Runtime]: semaphores and bounded channels of the [tokio] crate, as classes
      of operations ([Semaphore], [Channel]) and of their documented laws
      ([SemaphoreLaws], [ChannelLaws]), with an instance of each.
    - [Timing] ([timing.rs]).
    - [Text], [TextFacts]: the string functions of the standard library that the
      parsers use, on UTF-8 bytes: splitting, trimming, numbers.
    - [Net], [NetFacts], [AddrFacts] ([net.rs]): addresses, their texts and parsers
      (with the standard library's parser and printer of IP literals), dialing,
      the system calls of a listener.
    - [Config] ([config.rs], [logging.rs]), [Cli] ([cli.rs], [main.rs]): settings
      from flags, environment and file, the help text, what the process starts and
      its exit code; [SettingsFacts], [CliFacts], [SettingsWitness].
    - [Registry] ([server/registry.rs]): the actor that owns port slots, sessions
      and pending requests, one function per handler, [handle_command] and
      [run_registry].  [RegistryOps] describes each handler by a specification
      lemma; [RegistryInv] has the transition system ([fires], [reachable]) and
      the [invariant]; [RegistrySafe] its preservation; [RegistrySpec] the
      abstract specification of public ports ([spec_step]) and the simulation;
      [RegistryOrigin] where the sessions, the forwarding tasks and the messages
      of a step come from; [RegistryReplay] runs event lists, [RegistryDemo] a
      small server; [RegistryProps], [RegistryWitness] the properties.
    - [Handshake] ([server/control.rs], [server/data.rs], [client/control.rs],
      [client/data.rs], and [RegistryHandle] of [server/registry.rs]): the four
      handshakes; [HandshakeFacts].
    - [Sessions] ([server/control.rs], [client/control.rs]): writer and reader,
      the server's [session_loop] with the rest of [serve] as the effects it has in
      order, the client's [run_session]; [SessionFacts].
    - [Client] ([client/mod.rs], [client/control.rs]): whole attempts (dial,
      registration under its timeout, session), reconnection, what is printed;
      [ClientFacts].
    - [Forwarding] ([client/data.rs], [forward.rs]): one request of the server on
      the client, from OPEN to the end of the forwarding; [ForwardingFacts],
      [ForwardingWitness].
    - [ClientSystem] ([client/control.rs], [client/data.rs]): a session of the
      client with the tasks of its requests and its writer side by side
      ([client_step_rel]); [ClientSystemFacts], [ClientSystemWitness].
    - [Server] ([server/mod.rs], [server/listener.rs]): [server_run] and its log
      lines, accept loops, dispatch, the task of one public connection;
      [ServerFacts], with the case of an OPEN in front of REGISTERED.
    - [Process] ([shutdown.rs], [main.rs]): the signal task and the process around
      the server and the client; [ProcessFacts], [ProcessWitness].
    - [Traces]: what the history of a connection proves about its peer.
    - [System]: the connections and the registry side by side, as one transition
      system ([sys_step]); [SystemInv] its invariant, [SystemTypes] the types of
      the messages in its queues, [SystemProps] the properties, [SystemRun] an
      executable scheduler ([moves], sound by [move_sound]) and a run.
    - [Witness]: the properties of wire, handshakes and sessions on concrete runs.

    ** How the parts interact

    The server's handshakes send requests to the registry through [World]; the
    theorems about one handshake speak of any world.  In [System] the same
    programs run side by side, and their requests go through the bounded command
    channel to the registry and the answers back: a step is one operation of one
    connection, one turn of the registry, one turn of a session loop, or an act
    of a task that is kept abstract (a listener, a forwarding task, a writer).
    [server_refines_registry] says that what happens in the registry there is a
    run of the registry's own transition system, so its theorems hold of the
    running server, that the commands of that run are taken from the front of the
    channel and those that are sent go to its end, and that the hypotheses those
    theorems have of a registration are met.

    The registry shares writer queues, semaphores, forwarding tasks and
    cancellation tokens with the other tasks; they are part of its state under
    handles, and the other tasks act on them by the events of [RegistryInv] (a
    writer that takes or closes its queue, a task that ends).  A session's
    semaphore is named by the generation of its registration.
    [started_config_valid] gives the hypothesis [wf_server_config] that the
    properties have.  [open_answered] follows a refusal of the client into the
    server's session loop; [control_stream] carries queued messages from one side
    to the other.

    ** What is shown

    - The server as a whole: a session belongs to a connection that proved the
      key on its own hello, and a public connection is forwarded only to a data
      connection that proved the key on its session and request; session
      identifiers are used once; every queued message is well typed and the
      client does not take it for a protocol violation.
    - Registry: the invariant in every reachable state; the refinement of the
      specification of ports; who can take a port, that a reservation is
      honoured, what a takeover, an end of session, a sweep and a shutdown do;
      that a request is claimed at most once, by a live session, in time; the
      connection limits; that a registration returns and is all or nothing.
    - Wire: decoders accept exactly the encodings; frames are read back exactly.
    - Authentication and handshakes: a proof binds its statement, short of a
      collision of the keyed hash; each side accepts only a peer that showed the
      MAC of this very exchange (with a fresh nonce of its own); two honest sides
      agree.  The hash is a parameter: nothing is assumed of it but, where frames
      are sent, the length of its output.
    - Sessions: frames arrive as queued; at most one ping is open; a missed PONG
      ends the session; GOODBYE is reported exactly when the loop has read the
      client's GOODBYE, before the data of the session is cancelled; which causes
      end the client's process and which lead to a new attempt, exactly; the
      client's capacity; that it keeps its port over its attempts.
    - One request: the client forwards it, abandons it or refuses it for exactly
      the reason that applies; what is forwarded is authenticated, and forwarding
      ends with the session.
    - A session of the client: every request it was asked for is in progress or
      over with the fate it deserves, permits and requests balance, and a
      cancelled session reads no further request and can always end the rest.
    - Settings and process: what starts is valid; a configuration file can hold
      every value; precedence; errors that show no value; the option parser
      accepts exactly a grammar; the help text names exactly the options, and the
      defaults read off it are the ones in effect; the texts of addresses are
      read back; how the process ends, with which code and which output.

    ** Parameters, fuel and bounds

    Instants and durations are numbers of nanoseconds; [Instant + Duration] is
    not bounded.  Integers of the program are [Z] with the wrap-around or the
    overflow check written where the code has one ([next_generation] panics,
    [next_listener_id] wraps, [sequence] wraps).  The loop that draws a request
    identifier has a number of draws of the environment; [Spins] is the run in
    which all collide, and [pick_request_id_terminates] shows that one draw more
    than there are pending requests is enough.  A timeout cuts a program after a
    number of steps of the environment's choice ([run_for]; in [System] the step
    [sys_drop] at any moment); [read_frames] runs for a number of frames.
    [forward] and [wait_for_signal] take the polls of their [select!] as a list
    and have no result when it is over.  HMAC-SHA-256, the system's entropy,
    binding, resolving and connecting, the copying of bytes, the texts of system
    errors and of a number of seconds are parameters.  In [System] the sixteen random bytes of a new
    session identifier differ from those drawn before; that is the only
    assumption made there, and [session_ids] and [registered_ids] are kept for
    the proofs alone.

    ** Not modelled

    The executor: which task runs when is any order in [System] and the answer of
    an environment elsewhere.  How long the waits for the end of a task take (the
    waits are effects in their places).  The log lines of spawned tasks: the
    output of [process] is that of the main task, and the registry and the
    connections write log lines of their own in between.
    The variants of the code for systems other than Unix, but for the second
    [select!] of the signal task, which is theirs too.  The helpers of the tests
    ([MapEnv]).

    ** Plan

    Next: [ClientSystem] joined to [System] by the two byte streams, so that a
    public connection is followed from the listener to the target; the run of the
    client over several sessions against one registry; and fairness, so that a
    request that can be answered is. *)

From stdpp Require Export base tactics list numbers gmap strings sorting.
From Stdlib Require Export ZArith Lia.
From Stdlib Require Import Strings.Byte.

(** ** Hint databases

    [tunlet] collects the facts [eauto with tunlet] uses, and the rewriting
    database of the same name the round trips [autorewrite with tunlet] uses. *)

Create HintDb tunlet discriminated.
Create Rewrite HintDb tunlet.

(** ** Results

    Rust's [Result<A, E>], with the error type first so that [result E] is a
    monad and the [?] operator is stdpp's [x ← m; k]. *)

Inductive result (E A : Type) : Type :=
| Ok (a : A)
| Err (e : E).
Arguments Ok {E A} _.
Arguments Err {E A} _.

#[export] Instance result_ret {E} : MRet (result E) := λ A a, Ok a.
#[export] Instance result_bind {E} : MBind (result E) := λ A B f r,
  match r with Ok a => f a | Err e => Err e end.
#[export] Instance result_fmap {E} : FMap (result E) := λ A B f r,
  match r with Ok a => Ok (f a) | Err e => Err e end.
#[export] Instance result_eq_dec {E A} `{EqDecision E, EqDecision A} :
  EqDecision (result E A).
Proof. solve_decision. Defined.

(** [Result::map_err], [Option::ok_or], [Result::ok] and [Result::is_err]. *)
Definition map_err {E F A} (f : E → F) (r : result E A) : result F A :=
  match r with Ok a => Ok a | Err e => Err (f e) end.

Definition ok_or {E A} (o : option A) (e : E) : result E A :=
  match o with Some a => Ok a | None => Err e end.

Definition result_ok {E A} (r : result E A) : option A :=
  match r with Ok a => Some a | Err _ => None end.

Definition is_err {E A} (r : result E A) : bool :=
  match r with Ok _ => false | Err _ => true end.

Lemma result_bind_Ok {E A B} (m : result E A) (f : A → result E B) b :
  m ≫= f = Ok b ↔ ∃ a, m = Ok a ∧ f a = Ok b.
Proof. split; [destruct m; simpl; eauto; done|by intros (? & -> & ?)]. Qed.

Lemma result_bind_Err {E A B} (m : result E A) (f : A → result E B) e :
  m ≫= f = Err e ↔ m = Err e ∨ ∃ a, m = Ok a ∧ f a = Err e.
Proof.
  split; [destruct m; simpl; intros; simplify_eq; eauto|].
  by intros [->|(? & -> & ?)].
Qed.

(** A call that may not come back: it returns, it hits an [expect] that aborts
    the process, or its loop is still running when the supply of environment
    answers is used up. *)
Inductive outcome (A : Type) : Type :=
| Returns (a : A)
| Panics
| Spins.
Arguments Returns {A} _.
Arguments Panics {A}.
Arguments Spins {A}.

#[export] Instance outcome_ret : MRet outcome := λ A a, Returns a.
#[export] Instance outcome_bind : MBind outcome := λ A B f o,
  match o with Returns a => f a | Panics => Panics | Spins => Spins end.

Lemma outcome_bind_Returns {A B} (m : outcome A) (f : A → outcome B) b :
  m ≫= f = Returns b ↔ ∃ a, m = Returns a ∧ f a = Returns b.
Proof. split; [destruct m; simpl; eauto; done|by intros (? & -> & ?)]. Qed.

(** Splits every [match] and every monadic bind of the context, closing the
    branches whose equations clash. *)
Ltac split_matches :=
  repeat first
    [ progress simplify_eq/=
    | match goal with
      | H : context [ match ?x with _ => _ end ] |- _ =>
          lazymatch x with context [ match _ with _ => _ end ] => fail | _ => idtac end;
          let E := fresh "E" in destruct x eqn:E
      | |- context [ match ?x with _ => _ end ] =>
          lazymatch x with context [ match _ with _ => _ end ] => fail | _ => idtac end;
          let E := fresh "E" in destruct x eqn:E
      end ].

(** ** Bytes and machine integers *)

Abbreviation byte := Byte.byte (only parsing).
Abbreviation bytes := (list Byte.byte).

#[export] Instance byte_eq_dec : EqDecision Byte.byte := Byte.byte_eq_dec.
#[export] Program Instance byte_countable : Countable Byte.byte :=
  inj_countable Byte.to_N Byte.of_N _.
Next Obligation. apply Byte.of_to_N. Qed.

Definition Z_of_byte (b : byte) : Z := Z.of_N (Byte.to_N b).
Definition byte_of_Z (z : Z) : byte :=
  default Byte.x00 (Byte.of_N (Z.to_N (z mod 256))).

Lemma Z_of_byte_range b : (0 ≤ Z_of_byte b < 256)%Z.
Proof. unfold Z_of_byte. pose proof (Byte.to_N_bounded b). lia. Qed.

Lemma byte_of_Z_of_byte b : byte_of_Z (Z_of_byte b) = b.
Proof.
  unfold byte_of_Z. rewrite Z.mod_small by apply Z_of_byte_range.
  unfold Z_of_byte. by rewrite N2Z.id, Byte.of_to_N.
Qed.

Lemma Z_of_byte_of_Z z : Z_of_byte (byte_of_Z z) = (z mod 256)%Z.
Proof.
  pose proof (Z.mod_pos_bound z 256 eq_refl) as Hb.
  unfold byte_of_Z, Z_of_byte.
  destruct (Byte.of_N (Z.to_N (z mod 256))) as [b|] eqn:E; simpl.
  - apply Byte.to_of_N in E. rewrite E. lia.
  - apply Byte.of_N_None_iff in E. lia.
Qed.

Lemma Z_of_byte_inj b c : Z_of_byte b = Z_of_byte c → b = c.
Proof. intros H. rewrite <-(byte_of_Z_of_byte b), H. apply byte_of_Z_of_byte. Qed.

(** The unsigned integer of [w] bits. *)
Definition in_bits (w : Z) (z : Z) : Prop := (0 ≤ z < 2 ^ w)%Z.
Abbreviation is_u16 := (in_bits 16).
Abbreviation is_u32 := (in_bits 32).
Abbreviation is_u64 := (in_bits 64).

Definition wrapping_add (w : Z) (x y : Z) : Z := ((x + y) mod 2 ^ w)%Z.
Definition checked_add (w : Z) (x y : Z) : option Z :=
  if decide (x + y < 2 ^ w)%Z then Some (x + y)%Z else None.

(** [to_be_bytes] and [from_be_bytes] of an integer of [n] bytes. *)
Fixpoint to_be (n : nat) (z : Z) : bytes :=
  match n with
  | O => []
  | S m => byte_of_Z (z / 256 ^ Z.of_nat m) :: to_be m z
  end.

Fixpoint from_be (bs : bytes) : Z :=
  match bs with
  | [] => 0
  | b :: bs => Z_of_byte b * 256 ^ Z.of_nat (length bs) + from_be bs
  end%Z.

Lemma length_to_be n z : length (to_be n z) = n.
Proof. induction n; simpl; congruence. Qed.

Lemma from_to_be n z : from_be (to_be n z) = (z mod 256 ^ Z.of_nat n)%Z.
Proof.
  induction n as [|n IH]; simpl; [by rewrite Z.mod_1_r|].
  rewrite length_to_be, IH, Z_of_byte_of_Z.
  replace (Z.of_nat (S n)) with (Z.of_nat n + 1)%Z by lia.
  rewrite Z.pow_add_r, Z.pow_1_r by lia.
  rewrite (Z.rem_mul_r z (256 ^ Z.of_nat n) 256) by lia. lia.
Qed.

Lemma to_be_add n k z : to_be n (k * 256 ^ Z.of_nat n + z) = to_be n z.
Proof.
  revert k. induction n as [|n IH]; intros k; simpl; [done|].
  replace (Z.of_nat (S n)) with (Z.succ (Z.of_nat n)) by lia.
  rewrite Z.pow_succ_r, Z.mul_assoc by lia. f_equal; [|apply IH].
  apply Z_of_byte_inj. rewrite !Z_of_byte_of_Z.
  by rewrite Z.div_add_l, Z.add_comm, Z.mod_add by lia.
Qed.

Lemma from_be_bound bs : (0 ≤ from_be bs < 256 ^ Z.of_nat (length bs))%Z.
Proof.
  induction bs as [|b bs IH]; simpl; [lia|].
  replace (Z.of_nat (S (length bs))) with (Z.succ (Z.of_nat (length bs))) by lia.
  rewrite Z.pow_succ_r by lia. pose proof (Z_of_byte_range b). nia.
Qed.

Lemma to_from_be n bs : length bs = n → to_be n (from_be bs) = bs.
Proof.
  intros <-. induction bs as [|b bs IH]; simpl; [done|].
  rewrite to_be_add, IH. f_equal.
  rewrite Z.div_add_l, Z.div_small by (try apply from_be_bound; lia).
  by rewrite Z.add_0_r, byte_of_Z_of_byte.
Qed.

Lemma from_to_be_id n z : in_bits (8 * Z.of_nat n) z → from_be (to_be n z) = z.
Proof.
  unfold in_bits. rewrite from_to_be, Z.pow_mul_r by lia. apply Z.mod_small.
Qed.

Lemma from_be_bits n bs : length bs = n → in_bits (8 * Z.of_nat n) (from_be bs).
Proof. intros <-. unfold in_bits. rewrite Z.pow_mul_r by lia. apply from_be_bound. Qed.

Lemma from_be_inj bs cs : length bs = length cs → from_be bs = from_be cs → bs = cs.
Proof.
  intros Hl H. by rewrite <-(to_from_be _ bs eq_refl), H, to_from_be by done.
Qed.

(** ** Slices

    [slice at n bs] is [&bs[at..at + n]] for a range inside [bs], and
    [byte_at i bs] is [bs[i]] for an index inside it. *)

Definition slice (at_ n : nat) (bs : bytes) : bytes := take n (drop at_ bs).
Definition byte_at (i : nat) (bs : bytes) : byte := nth i bs Byte.x00.

Lemma length_slice i n bs : i + n ≤ length bs → length (slice i n bs) = n.
Proof. intros. unfold slice. rewrite length_take, length_drop. lia. Qed.

Lemma slice_skip i n a b :
  length a ≤ i → slice i n (a ++ b) = slice (i - length a) n b.
Proof. intros. unfold slice. by rewrite drop_app_ge. Qed.

Lemma slice_here i n a b : i = 0 → length a = n → slice i n (a ++ b) = a.
Proof. intros -> <-. unfold slice. simpl. apply take_app_length. Qed.

Lemma slice_whole i n a : i = 0 → length a = n → slice i n a = a.
Proof. intros -> <-. unfold slice. simpl. apply firstn_all. Qed.

Lemma slice_cut i n k bs : slice i (n + k) bs = slice i n bs ++ slice (i + n) k bs.
Proof. unfold slice. by rewrite <-take_take_drop, drop_drop. Qed.

Lemma slice_byte i bs : i < length bs → slice i 1 bs = [byte_at i bs].
Proof.
  intros [x Hx]%lookup_lt_is_Some. unfold slice, byte_at.
  rewrite (drop_S _ _ _ Hx), firstn_cons, take_0.
  by rewrite (nth_lookup_Some _ _ _ _ Hx).
Qed.

Lemma slice_two i bs :
  i + 1 < length bs → slice i 2 bs = [byte_at i bs; byte_at (i + 1) bs].
Proof. intros. rewrite (slice_cut i 1 1), !slice_byte by lia. done. Qed.

Lemma byte_at_skip i a b :
  length a ≤ i → byte_at i (a ++ b) = byte_at (i - length a) b.
Proof. intros. unfold byte_at. by rewrite app_nth2. Qed.

Arguments to_be : simpl never.
Arguments from_be : simpl never.
Arguments slice : simpl never.
Arguments byte_at : simpl never.

(** Evaluates the slices of a concatenation whose parts have known lengths. *)
Ltac slice_lia := rewrite ?length_to_be; simpl; lia.
Ltac slice_step :=
  first
    [ rewrite slice_skip by slice_lia
    | rewrite byte_at_skip by slice_lia
    | rewrite slice_here by slice_lia
    | rewrite slice_whole by slice_lia ];
  rewrite ?length_to_be.
Ltac slice_eval := repeat slice_step.

#[export] Hint Rewrite length_to_be : tunlet.
#[export] Hint Resolve length_to_be : tunlet.

(** ** Finite maps *)

Lemma map_size_delete_le {K A} `{Countable K} (m : gmap K A) i :
  size (delete i m) ≤ size m.
Proof. rewrite map_size_delete. destruct (m !! i); simpl; lia. Qed.

Lemma map_size_delete_lt {K A} `{Countable K} (m : gmap K A) i x :
  m !! i = Some x → size (delete i m) < size m.
Proof.
  intros Hi. rewrite map_size_delete, Hi.
  assert (size m ≠ 0) by (intros ->%map_size_empty_inv; by rewrite lookup_empty in Hi).
  lia.
Qed.

Lemma alter_Some {K A} `{Countable K} (f : A → A) (m : gmap K A) i x :
  m !! i = Some x → alter f i m = <[i := f x]> (delete i m).
Proof.
  intros Hi. apply map_eq. intros j. destruct (decide (i = j)) as [<-|Hne].
  - by rewrite lookup_alter_eq, Hi, lookup_insert_eq.
  - by rewrite lookup_alter_ne, lookup_insert_ne, lookup_delete_ne by done.
Qed.

Lemma alter_None {K A} `{Countable K} (f : A → A) (m : gmap K A) i :
  m !! i = None → alter f i m = m.
Proof.
  intros Hi. apply map_eq. intros j. rewrite lookup_alter.
  case_decide; subst; [by rewrite Hi|done].
Qed.

Lemma map_size_alter {K A} `{Countable K} (f : A → A) (m : gmap K A) i :
  size (alter f i m) = size m.
Proof.
  destruct (m !! i) as [x|] eqn:Hi; [|by rewrite alter_None].
  rewrite (alter_Some _ _ _ _ Hi), map_size_insert_None by apply lookup_delete_eq.
  rewrite map_size_delete, Hi.
  assert (size m ≠ 0) by (intros ->%map_size_empty_inv; by rewrite lookup_empty in Hi).
  lia.
Qed.
