(* ===== verification/Errors.v ===== *)
(** * Errors: [src/error.rs]

    The wire error codes with their numbering, the protocol error and the
    process-level error with its exit codes. *)

From S2P Require Import Prelude.

Local Open Scope Z_scope.

(** ** Wire codes *)

Inductive ErrorCode :=
| AuthFailed
| ProtocolErr
| UnsupportedVersion
| InvalidPort
| PortUnavailable
| NoPortAvailable
| Replaced
| ServerBusy
| RequestUnavailable
| InternalError.

#[export] Instance ErrorCode_eq_dec : EqDecision ErrorCode.
Proof. solve_decision. Defined.

Definition as_u16 (c : ErrorCode) : Z :=
  match c with
  | AuthFailed => 1
  | ProtocolErr => 2
  | UnsupportedVersion => 3
  | InvalidPort => 4
  | PortUnavailable => 5
  | NoPortAvailable => 6
  | Replaced => 7
  | ServerBusy => 8
  | RequestUnavailable => 9
  | InternalError => 10
  end.

Definition from_u16 (value : Z) : option ErrorCode :=
  match value with
  | 1 => Some AuthFailed
  | 2 => Some ProtocolErr
  | 3 => Some UnsupportedVersion
  | 4 => Some InvalidPort
  | 5 => Some PortUnavailable
  | 6 => Some NoPortAvailable
  | 7 => Some Replaced
  | 8 => Some ServerBusy
  | 9 => Some RequestUnavailable
  | 10 => Some InternalError
  | _ => None
  end.

Definition message (c : ErrorCode) : string :=
  match c with
  | AuthFailed => "authentication failed"
  | ProtocolErr => "protocol error"
  | UnsupportedVersion => "unsupported protocol version"
  | InvalidPort => "requested port is invalid"
  | PortUnavailable => "requested port is unavailable or already occupied"
  | NoPortAvailable => "no automatic port available in the configured range"
  | Replaced => "another process owns this tunnel"
  | ServerBusy => "server is at capacity"
  | RequestUnavailable => "connection request is no longer available"
  | InternalError => "server internal error"
  end.

Definition is_fatal_for_client (c : ErrorCode) : bool :=
  match c with ServerBusy => false | _ => true end.

Lemma from_as_u16 c : from_u16 (as_u16 c) = Some c.
Proof. by destruct c. Qed.

Lemma as_from_u16 v c : from_u16 v = Some c → as_u16 c = v.
Proof. unfold from_u16. intros H. by repeat (case_match; simplify_eq/=). Qed.

Lemma as_u16_range c : is_u16 (as_u16 c).
Proof. by destruct c. Qed.

(** ** Protocol errors *)

Record ProtocolError := mkProtocolError {
  code : ErrorCode;
  detail : string
}.

#[export] Instance ProtocolError_eq_dec : EqDecision ProtocolError.
Proof. solve_decision. Defined.

(** [ProtocolError::new] and [ProtocolError::with_code]. *)
Definition protocol_error (detail : string) : ProtocolError :=
  mkProtocolError ProtocolErr detail.

Definition with_code (code : ErrorCode) (detail : string) : ProtocolError :=
  mkProtocolError code detail.

(** ** I/O errors

    The kinds of [std::io::ErrorKind] the program distinguishes; [OtherIo] is
    every other kind. *)
Inductive IoError :=
| UnexpectedEof
| NotFound
| AddrInUse
| PermissionDenied
| ConnectionAborted
| OtherIo.

#[export] Instance IoError_eq_dec : EqDecision IoError.
Proof. solve_decision. Defined.

(** ** Application errors *)

Inductive AppError :=
| AppCli (m : string)
| AppConfig (m : string)
| AppProtocol (e : ProtocolError)
| AppAuth
| AppRegistration (c : ErrorCode)
| AppRuntime (m : string)
| AppIo (e : IoError).

#[export] Instance AppError_eq_dec : EqDecision AppError.
Proof. solve_decision. Defined.

Definition app_protocol (detail : string) : AppError :=
  AppProtocol (protocol_error detail).

Definition exit_code (e : AppError) : Z :=
  match e with
  | AppCli _ | AppConfig _ => 2
  | AppProtocol _ | AppAuth | AppRegistration _ => 3
  | AppRuntime _ | AppIo _ => 1
  end.

(** [Display for AppError], with the text the standard library gives an I/O
    error. *)
Definition app_error_text (io_text : IoError → string) (e : AppError) : string :=
  match e with
  | AppCli m | AppConfig m | AppRuntime m => m
  | AppProtocol e => "protocol error: " +:+ detail e
  | AppAuth => "authentication failed"
  | AppRegistration c => "registration failed: " +:+ message c
  | AppIo e => "I/O error: " +:+ io_text e
  end.

Lemma exit_code_nonzero e : exit_code e ∈ [1; 2; 3].
Proof. destruct e; set_solver. Qed.

#[export] Hint Resolve from_as_u16 as_u16_range : tunlet.
#[export] Hint Rewrite from_as_u16 : tunlet.
