(* ===== verification/Io.v ===== *)
(** * Programs over a socket

    The asynchronous functions of the program that talk to one peer (the frame
    reader and writer, the four handshakes) are sequences of awaited calls.
    They are modelled as finite interaction trees: a [proc] is either finished
    or an operation together with what is done with its answer.  What answers
    the operations (the socket, the operating system's entropy, the registry)
    is not part of the program: [run] takes it as a [World].

    The tree keeps what the code fixes, namely which calls are made, in which
    order and with which arguments, and leaves every answer to the caller, so
    a theorem about all worlds covers every peer and every schedule. *)

From S2P Require Import Prelude Errors.

(** ** Operations

    [R X] is the type of the requests a program makes to the rest of the
    process (the registry), with answers in [X]. *)

Section ops.
Context {R : Type → Type}.

Inductive op : Type → Type :=
(** [AsyncReadExt::read_exact] into a buffer of [n] bytes. *)
| ReadExact (n : nat) : op (result IoError bytes)
(** [AsyncWriteExt::write_all]. *)
| WriteAll (bs : bytes) : op (result IoError unit)
(** [AsyncWriteExt::flush]. *)
| Flush : op (result IoError unit)
(** [AsyncWriteExt::shutdown], whose result the code always discards. *)
| CloseWrite : op unit
(** [getrandom::fill] of [n] bytes, or the text of the failure. *)
| Entropy (n : nat) : op (result string bytes)
(** A request to another task and its reply. *)
| Request {X : Type} (r : R X) : op X.

Inductive proc (A : Type) : Type :=
| Ret (a : A)
| Vis {X : Type} (o : op X) (k : X → proc A).
End ops.
Arguments op : clear implicits.
Arguments proc : clear implicits.
Arguments Ret {R A} _.
Arguments Vis {R A X} _ _.

Section monad.
Context {R : Type → Type}.

Fixpoint proc_bind {A B} (f : A → proc R B) (p : proc R A) : proc R B :=
  match p with
  | Ret a => f a
  | Vis o k => Vis o (λ x, proc_bind f (k x))
  end.

#[export] Instance proc_ret : MRet (proc R) := λ A a, Ret a.
#[export] Instance proc_mbind : MBind (proc R) := λ A B, proc_bind.

Definition perform {X} (o : op R X) : proc R X := Vis o Ret.
End monad.

(** The [?] operator inside an asynchronous function, with the [From]
    conversion of the error as an argument. *)
Definition try_with {R E F A B} (conv : F → E) (p : proc R (result F A))
    (k : A → proc R (result E B)) : proc R (result E B) :=
  r ← p;
  match r with Ok a => k a | Err e => Ret (Err (conv e)) end.

Notation "'let?' x ':=' p 'via' c 'in' k" := (try_with c p (λ x, k))
  (at level 10, x name, p at level 100, c at level 9, k at level 200,
   format "'[v' let?  x  :=  p  via  c  in '/' k ']'").

(** ** Running a program

    A [World] says how the [i]-th operation is answered: whether a read fails
    (otherwise it takes the bytes the peer has sent or will send, and a read
    past them finds the end of the stream), whether a write fails and how many
    bytes went out before it did, what an entropy call yields, and how requests
    are served on a state of type [S]. *)

Section run.
Context {R : Type → Type} {S : Type}.

Record World := mkWorld {
  entropy : nat → nat → result string bytes;
  read_error : nat → option IoError;
  write_error : nat → option (IoError * nat);
  serve_request : ∀ X, R X → S → X * S
}.

Record Conn := mkConn {
  inbound : bytes;
  outbound : bytes;
  served : S;
  ticks : nat
}.

Context (W : World).

Definition answer {X} (o : op R X) (c : Conn) : X * Conn :=
  let 'mkConn i w s t := c in
  match o in op _ X return X * Conn with
  | ReadExact n =>
      match read_error W t with
      | Some e => (Err e, mkConn [] w s (Datatypes.S t))
      | None =>
          if decide (n ≤ length i)
          then (Ok (take n i), mkConn (drop n i) w s (Datatypes.S t))
          else (Err UnexpectedEof, mkConn [] w s (Datatypes.S t))
      end
  | WriteAll bs =>
      match write_error W t with
      | None => (Ok (), mkConn i (w ++ bs) s (Datatypes.S t))
      | Some (e, n) => (Err e, mkConn i (w ++ take n bs) s (Datatypes.S t))
      end
  | Flush =>
      match write_error W t with
      | None => (Ok (), mkConn i w s (Datatypes.S t))
      | Some (e, _) => (Err e, mkConn i w s (Datatypes.S t))
      end
  | CloseWrite => ((), mkConn i w s (Datatypes.S t))
  | Entropy n => (entropy W t n, mkConn i w s (Datatypes.S t))
  | Request r => let '(x, s') := serve_request W _ r s in
                 (x, mkConn i w s' (Datatypes.S t))
  end.

Fixpoint run {A} (p : proc R A) (c : Conn) : A * Conn :=
  match p with
  | Ret a => (a, c)
  | Vis o k => let '(x, c') := answer o c in run (k x) c'
  end.

(** [tokio::time::timeout]: the future is polled through its first [n]
    operations and dropped if it has not finished then. *)
Fixpoint run_for {A} (n : nat) (p : proc R A) (c : Conn) : option A * Conn :=
  match p, n with
  | Ret a, _ => (Some a, c)
  | Vis _ _, O => (None, c)
  | Vis o k, Datatypes.S n => let '(x, c') := answer o c in run_for n (k x) c'
  end.

(** The requests made during a run, in order, and during a run that is cut. *)
Definition request_of {X} (o : op R X) : list {Y & R Y} :=
  match o in op _ X with
  | Request r => [existT _ r]
  | _ => []
  end.

Fixpoint requests {A} (p : proc R A) (c : Conn) : list {X & R X} :=
  match p with
  | Ret _ => []
  | Vis o k => let '(x, c') := answer o c in request_of o ++ requests (k x) c'
  end.

Fixpoint requests_for {A} (n : nat) (p : proc R A) (c : Conn) : list {X & R X} :=
  match p, n with
  | Ret _, _ | Vis _ _, O => []
  | Vis o k, Datatypes.S n =>
      let '(x, c') := answer o c in request_of o ++ requests_for n (k x) c'
  end.

(** A future that finishes in time is as good as one without a timeout, and
    one that does not has made the first of its requests. *)
Lemma run_for_Some {A} n (p : proc R A) c a c' :
  run_for n p c = (Some a, c') → run p c = (a, c').
Proof.
  revert n c. induction p as [b|X o k IH]; intros n c; simpl; [by destruct n; intros [= -> ->]|].
  destruct n as [|n]; simpl; [done|]. destruct (answer o c) as [x c1]. apply IH.
Qed.

Lemma requests_for_prefix {A} n (p : proc R A) c :
  requests_for n p c `prefix_of` requests p c.
Proof.
  revert n c. induction p as [b|X o k IH]; intros n c; simpl; [by destruct n|].
  destruct n as [|n]; simpl; [apply prefix_nil|]. destruct (answer o c) as [x c1].
  apply prefix_app, IH.
Qed.

Lemma requests_bind {A B} (p : proc R A) (f : A → proc R B) c :
  requests (p ≫= f) c = requests p c ++ let '(a, c') := run p c in requests (f a) c'.
Proof.
  revert c. induction p as [a|X o k IH]; intros c; [done|].
  simpl. destruct (answer o c). rewrite <-app_assoc. f_equal. apply IH.
Qed.

Lemma run_bind {A B} (p : proc R A) (f : A → proc R B) c :
  run (p ≫= f) c = let '(a, c') := run p c in run (f a) c'.
Proof.
  revert c. induction p as [a|X o k IH]; intros c; [done|].
  simpl. destruct (answer o c). apply IH.
Qed.

Lemma run_try {E F A B} (conv : F → E) (p : proc R (result F A))
    (k : A → proc R (result E B)) c :
  run (try_with conv p k) c =
    let '(r, c') := run p c in
    match r with Ok a => run (k a) c' | Err e => (Err (conv e), c') end.
Proof. unfold try_with. rewrite run_bind. by destruct (run p c) as [[] ?]. Qed.

Lemma requests_try {E F A B} (conv : F → E) (p : proc R (result F A))
    (k : A → proc R (result E B)) c :
  requests (try_with conv p k) c =
    requests p c ++
    let '(r, c') := run p c in
    match r with Ok a => requests (k a) c' | Err _ => [] end.
Proof.
  unfold try_with. rewrite requests_bind. f_equal. by destruct (run p c) as [[] ?].
Qed.

Lemma run_perform {X} (o : op R X) c : run (perform o) c = answer o c.
Proof. simpl. by destruct (answer o c). Qed.
End run.
Arguments World : clear implicits.
Arguments Conn : clear implicits.
Arguments mkConn {S} _ _ _ _.

#[export] Hint Rewrite @run_bind @run_try @run_perform : tunlet.
