(* ===== verification/Protocol.v ===== *)
(** * Wire protocol: [src/protocol.rs]

    Framing, message types and message bodies.  The readers and writers are
    programs over a socket ([Io]); the encoders and decoders are functions on
    byte strings.  A fixed-size array is a byte string, its size a
    well-formedness condition of the structure that holds it. *)

From Stdlib Require Import Strings.String Strings.Byte.
From S2P Require Import Prelude Errors Io.

Local Open Scope Z_scope.

(** ** Constants *)

Definition MAGIC : bytes := list_byte_of_string "TTUN".
Definition VERSION : byte := x01.
Definition MAX_PAYLOAD : nat := 1024.
Definition PREAMBLE_LEN : nat := 8.
Definition HEADER_LEN : nat := 3.

Abbreviation InstanceId := (list Byte.byte) (only parsing).
Abbreviation SessionId := (list Byte.byte) (only parsing).
Abbreviation RequestId := (list Byte.byte) (only parsing).
Abbreviation Nonce := (list Byte.byte) (only parsing).
Abbreviation Mac := (list Byte.byte) (only parsing).

(** ** Enumerations *)

Inductive Kind := Control | Data.

Definition kind_u8 (k : Kind) : byte := match k with Control => x01 | Data => x02 end.

Definition Kind_from_u8 (value : byte) : result ProtocolError Kind :=
  match value with
  | x01 => Ok Control
  | x02 => Ok Data
  | _ => Err (protocol_error "invalid connection kind")
  end.

Inductive Type_ :=
| TControlHello
| TControlChallenge
| TControlProof
| TRegistered
| TOpen
| TOpenFailed
| TPing
| TPong
| TGoodbye
| TGoodbyeAck
| TServerShutdown
| TDataHello
| TDataChallenge
| TDataProof
| TDataReady
| TError.

#[export] Instance Kind_eq_dec : EqDecision Kind.
Proof. solve_decision. Defined.
#[export] Instance Type_eq_dec : EqDecision Type_.
Proof. solve_decision. Defined.

Definition type_u8 (ty : Type_) : byte :=
  match ty with
  | TControlHello => x01
  | TControlChallenge => x02
  | TControlProof => x03
  | TRegistered => x04
  | TOpen => x05
  | TOpenFailed => x06
  | TPing => x07
  | TPong => x08
  | TGoodbye => x09
  | TGoodbyeAck => x0a
  | TServerShutdown => x0b
  | TDataHello => x20
  | TDataChallenge => x21
  | TDataProof => x22
  | TDataReady => x23
  | TError => x7f
  end.

Definition Type_from_u8 (value : byte) : result ProtocolError Type_ :=
  match value with
  | x01 => Ok TControlHello
  | x02 => Ok TControlChallenge
  | x03 => Ok TControlProof
  | x04 => Ok TRegistered
  | x05 => Ok TOpen
  | x06 => Ok TOpenFailed
  | x07 => Ok TPing
  | x08 => Ok TPong
  | x09 => Ok TGoodbye
  | x0a => Ok TGoodbyeAck
  | x0b => Ok TServerShutdown
  | x20 => Ok TDataHello
  | x21 => Ok TDataChallenge
  | x22 => Ok TDataProof
  | x23 => Ok TDataReady
  | x7f => Ok TError
  | _ => Err (protocol_error "unknown message type")
  end.

Definition payload_len (ty : Type_) : nat :=
  match ty with
  | TControlHello => 51
  | TControlChallenge => 80
  | TControlProof => 32
  | TRegistered => 38
  | TOpen => 16
  | TOpenFailed => 17
  | TPing | TPong => 8
  | TGoodbye | TGoodbyeAck | TServerShutdown | TDataReady => 0
  | TDataHello => 64
  | TDataChallenge => 64
  | TDataProof => 32
  | TError => 2
  end.

Definition is_control (ty : Type_) : bool :=
  match ty with
  | TControlHello | TControlChallenge | TControlProof | TRegistered | TOpen
  | TOpenFailed | TPing | TPong | TGoodbye | TGoodbyeAck | TServerShutdown
  | TError => true
  | _ => false
  end.

Definition is_data (ty : Type_) : bool :=
  match ty with
  | TDataHello | TDataChallenge | TDataProof | TDataReady | TError => true
  | _ => false
  end.

Inductive Mode := Fresh | Resume.

#[export] Instance Mode_eq_dec : EqDecision Mode.
Proof. solve_decision. Defined.

Definition mode_u8 (m : Mode) : byte := match m with Fresh => x00 | Resume => x01 end.

Definition Mode_from_u8 (value : byte) : result ProtocolError Mode :=
  match value with
  | x00 => Ok Fresh
  | x01 => Ok Resume
  | _ => Err (protocol_error "invalid registration mode")
  end.

Inductive OpenFailure := TargetConnect | SetupTimeout | DataAuth | LocalCapacity.

#[export] Instance OpenFailure_eq_dec : EqDecision OpenFailure.
Proof. solve_decision. Defined.

Definition open_failure_u8 (r : OpenFailure) : byte :=
  match r with
  | TargetConnect => x01
  | SetupTimeout => x02
  | DataAuth => x03
  | LocalCapacity => x04
  end.

Definition OpenFailure_from_u8 (value : byte) : result ProtocolError OpenFailure :=
  match value with
  | x01 => Ok TargetConnect
  | x02 => Ok SetupTimeout
  | x03 => Ok DataAuth
  | x04 => Ok LocalCapacity
  | _ => Err (protocol_error "invalid OPEN_FAILED reason")
  end.

Definition open_failure_message (r : OpenFailure) : string :=
  match r with
  | TargetConnect => "client could not connect to its local target"
  | SetupTimeout => "client setup timed out"
  | DataAuth => "client data connection or authentication failed"
  | LocalCapacity => "client is at capacity or shutting down"
  end.

(** ** Preamble *)

Definition encode_preamble (k : Kind) : bytes :=
  [byte_at 0 MAGIC; byte_at 1 MAGIC; byte_at 2 MAGIC; byte_at 3 MAGIC;
   VERSION; kind_u8 k; x00; x00].

Definition decode_preamble (bs : bytes) : result ProtocolError Kind :=
  if decide (slice 0 4 bs ≠ MAGIC) then Err (protocol_error "bad magic")
  else if decide (byte_at 4 bs ≠ VERSION) then
    Err (with_code UnsupportedVersion "unsupported protocol version")
  else if decide (byte_at 6 bs ≠ x00 ∨ byte_at 7 bs ≠ x00) then
    Err (protocol_error "reserved bits must be zero")
  else Kind_from_u8 (byte_at 5 bs).

(** ** Frames *)

Record Frame := mkFrame { ty : Type_; payload : bytes }.

#[export] Instance Frame_eq_dec : EqDecision Frame.
Proof. solve_decision. Defined.

Definition frame_empty (t : Type_) : Frame := mkFrame t [].

Definition frame_encode (f : Frame) : bytes :=
  type_u8 (ty f) :: to_be 2 (Z.of_nat (length (payload f))) ++ payload f.

Definition require_kind (f : Frame) (k : Kind) : result ProtocolError unit :=
  let ok := match k with
            | Control => is_control (ty f)
            | Data => is_data (ty f)
            end in
  if ok then Ok () else Err (protocol_error "message type illegal on this connection").

Definition require_type (f : Frame) (expected : Type_) : result ProtocolError unit :=
  if decide (ty f = expected) then Ok ()
  else if decide (ty f = TError) then Err (protocol_error "peer reported an error")
  else Err (protocol_error "unexpected message for this state").

Section socket.
Context {R : Type → Type}.

Definition write_preamble (k : Kind) : proc R (result AppError unit) :=
  let? _ := perform (WriteAll (encode_preamble k)) via AppIo in
  Ret (Ok ()).

Definition read_preamble : proc R (result AppError Kind) :=
  let? bs := perform (ReadExact PREAMBLE_LEN) via AppIo in
  Ret (map_err AppProtocol (decode_preamble bs)).

Definition read_frame : proc R (result AppError Frame) :=
  let? header := perform (ReadExact HEADER_LEN) via AppIo in
  let declared := Z.to_nat (from_be [byte_at 1 header; byte_at 2 header]) in
  if decide (MAX_PAYLOAD < declared)%nat then
    Ret (Err (app_protocol "payload length too large"))
  else
    let? t := Ret (Type_from_u8 (byte_at 0 header)) via AppProtocol in
    if decide (declared ≠ payload_len t) then
      Ret (Err (app_protocol "payload length does not match message type"))
    else
      let? p := perform (ReadExact declared) via AppIo in
      Ret (Ok (mkFrame t p)).

Definition write_frame (f : Frame) : proc R (result AppError unit) :=
  if decide (MAX_PAYLOAD < length (payload f))%nat then
    Ret (Err (app_protocol "payload too large"))
  else
    let? _ := perform (WriteAll (frame_encode f)) via AppIo in
    let? _ := perform Flush via AppIo in
    Ret (Ok ()).

Definition write_message (t : Type_) (p : bytes) : proc R (result AppError unit) :=
  write_frame (mkFrame t p).

Definition write_error_frame (c : ErrorCode) : proc R (result AppError unit) :=
  write_message TError (to_be 2 (as_u16 c)).
End socket.

(** ** Message bodies *)

Record ControlHello := mkControlHello {
  instance_id : InstanceId;
  hello_nonce : Nonce;
  mode : Mode;
  requested_port : Z
}.

Definition ControlHello_encode (h : ControlHello) : bytes :=
  instance_id h ++ hello_nonce h ++ [mode_u8 (mode h)] ++ to_be 2 (requested_port h).

(** The match on [(mode, requested_port)] in [ControlHello::decode]. *)
Definition check_requested_port (m : Mode) (port : Z) : result ProtocolError unit :=
  if decide (m = Resume ∧ port = 0) then
    Err (with_code InvalidPort "resume must request a specific port")
  else if decide (port ≠ 0 ∧ port < 1024) then
    Err (with_code InvalidPort "requested port must be 1024-65535")
  else Ok ().

Definition ControlHello_decode (p : bytes) : result ProtocolError ControlHello :=
  if decide (length p ≠ 51%nat) then Err (protocol_error "CONTROL_HELLO length")
  else
    m ← Mode_from_u8 (byte_at 48 p);
    let port := from_be [byte_at 49 p; byte_at 50 p] in
    _ ← check_requested_port m port;
    Ok (mkControlHello (slice 0 16 p) (slice 16 32 p) m port).

Record ControlChallenge := mkControlChallenge {
  cc_nonce : Nonce;
  cc_session_id : SessionId;
  cc_mac : Mac
}.

Definition ControlChallenge_encode (c : ControlChallenge) : bytes :=
  cc_nonce c ++ cc_session_id c ++ cc_mac c.

Definition ControlChallenge_decode (p : bytes) : result ProtocolError ControlChallenge :=
  if decide (length p ≠ 80%nat) then Err (protocol_error "CONTROL_CHALLENGE length")
  else Ok (mkControlChallenge (slice 0 32 p) (slice 32 16 p) (slice 48 32 p)).

Record Registered := mkRegistered {
  assigned_port : Z;
  max_connections : Z;
  ready_mac : Mac
}.

Definition Registered_encode (r : Registered) : bytes :=
  to_be 2 (assigned_port r) ++ to_be 4 (max_connections r) ++ ready_mac r.

Definition Registered_decode (p : bytes) : result ProtocolError Registered :=
  if decide (length p ≠ 38%nat) then Err (protocol_error "REGISTERED length")
  else
    let port := from_be [byte_at 0 p; byte_at 1 p] in
    if decide (port < 1024) then
      Err (with_code InvalidPort "assigned port must be 1024-65535")
    else
      let maximum := from_be (slice 2 4 p) in
      if decide (maximum = 0) then
        Err (protocol_error "advertised maximum must be nonzero")
      else Ok (mkRegistered port maximum (slice 6 32 p)).

Record OpenFailed := mkOpenFailed { of_request_id : RequestId; reason : OpenFailure }.

Definition OpenFailed_encode (m : OpenFailed) : bytes :=
  of_request_id m ++ [open_failure_u8 (reason m)].

Definition OpenFailed_decode (p : bytes) : result ProtocolError OpenFailed :=
  if decide (length p ≠ 17%nat) then Err (protocol_error "OPEN_FAILED length")
  else
    r ← OpenFailure_from_u8 (byte_at 16 p);
    Ok (mkOpenFailed (slice 0 16 p) r).

Record DataHello := mkDataHello {
  dh_session_id : SessionId;
  dh_request_id : RequestId;
  dh_nonce : Nonce
}.

Definition DataHello_encode (h : DataHello) : bytes :=
  dh_session_id h ++ dh_request_id h ++ dh_nonce h.

Definition DataHello_decode (p : bytes) : result ProtocolError DataHello :=
  if decide (length p ≠ 64%nat) then Err (protocol_error "DATA_HELLO length")
  else Ok (mkDataHello (slice 0 16 p) (slice 16 16 p) (slice 32 32 p)).

Record DataChallenge := mkDataChallenge { dc_nonce : Nonce; dc_mac : Mac }.

Definition DataChallenge_encode (c : DataChallenge) : bytes := dc_nonce c ++ dc_mac c.

Definition DataChallenge_decode (p : bytes) : result ProtocolError DataChallenge :=
  if decide (length p ≠ 64%nat) then Err (protocol_error "DATA_CHALLENGE length")
  else Ok (mkDataChallenge (slice 0 32 p) (slice 32 32 p)).

Definition decode_request_id (p : bytes) : result ProtocolError RequestId :=
  if decide (length p ≠ 16%nat) then Err (protocol_error "OPEN length")
  else Ok (slice 0 16 p).

Definition decode_sequence (p : bytes) : result ProtocolError Z :=
  if decide (length p ≠ 8%nat) then Err (protocol_error "PING/PONG length")
  else Ok (from_be (slice 0 8 p)).

Definition decode_error (p : bytes) : result ProtocolError ErrorCode :=
  if decide (length p ≠ 2%nat) then Err (protocol_error "ERROR length")
  else ok_or (from_u16 (from_be [byte_at 0 p; byte_at 1 p]))
         (protocol_error "unknown error code").
