(* ===== verification/ProtocolFacts.v ===== *)
(** * Properties of the wire protocol

    The codecs of [Protocol] are exact: a decoder accepts precisely the
    encodings of well-formed values, and the frame reader precisely one
    encoded frame, leaving the rest of the stream untouched. *)

From Stdlib Require Import Strings.Byte.
From S2P Require Import Prelude Errors Io Protocol.

Local Open Scope Z_scope.

(** ** Enumerations *)

Lemma Type_from_u8_u8 t : Type_from_u8 (type_u8 t) = Ok t.
Proof. by destruct t. Qed.

(** A statement about the decoding of a byte, checked on the 256 of them. *)
Ltac each_byte b := destruct b; first [exact I | reflexivity].

Lemma Type_from_u8_spec b :
  match Type_from_u8 b with
  | Ok t => type_u8 t = b
  | Err e => e = protocol_error "unknown message type"
  end.
Proof. each_byte b. Qed.

Lemma Type_u8_from_u8 b t : Type_from_u8 b = Ok t → type_u8 t = b.
Proof. intros H. pose proof (Type_from_u8_spec b) as Hs. by rewrite H in Hs. Qed.

Lemma Mode_from_u8_u8 m : Mode_from_u8 (mode_u8 m) = Ok m.
Proof. by destruct m. Qed.

Lemma Mode_from_u8_spec b :
  match Mode_from_u8 b with
  | Ok m => mode_u8 m = b
  | Err e => e = protocol_error "invalid registration mode"
  end.
Proof. each_byte b. Qed.

Lemma Mode_u8_from_u8 b m : Mode_from_u8 b = Ok m → mode_u8 m = b.
Proof. intros H. pose proof (Mode_from_u8_spec b) as Hs. by rewrite H in Hs. Qed.

Lemma OpenFailure_from_u8_u8 r : OpenFailure_from_u8 (open_failure_u8 r) = Ok r.
Proof. by destruct r. Qed.

Lemma OpenFailure_from_u8_spec b :
  match OpenFailure_from_u8 b with
  | Ok r => open_failure_u8 r = b
  | Err e => e = protocol_error "invalid OPEN_FAILED reason"
  end.
Proof. each_byte b. Qed.

Lemma OpenFailure_u8_from_u8 b r : OpenFailure_from_u8 b = Ok r → open_failure_u8 r = b.
Proof. intros H. pose proof (OpenFailure_from_u8_spec b) as Hs. by rewrite H in Hs. Qed.

Lemma Kind_from_u8_u8 k : Kind_from_u8 (kind_u8 k) = Ok k.
Proof. by destruct k. Qed.

Lemma Kind_from_u8_spec b :
  match Kind_from_u8 b with
  | Ok k => kind_u8 k = b
  | Err e => e = protocol_error "invalid connection kind"
  end.
Proof. each_byte b. Qed.

Lemma Kind_u8_from_u8 b k : Kind_from_u8 b = Ok k → kind_u8 k = b.
Proof. intros H. pose proof (Kind_from_u8_spec b) as Hs. by rewrite H in Hs. Qed.

#[export] Hint Rewrite Type_from_u8_u8 Mode_from_u8_u8 OpenFailure_from_u8_u8
  Kind_from_u8_u8 : tunlet.

Lemma payload_len_small t : (payload_len t ≤ 80)%nat.
Proof. destruct t; simpl; lia. Qed.

(** ** Two-byte fields *)

Lemma from_be_two i p :
  (i + 1 < length p)%nat → from_be [byte_at i p; byte_at (i + 1) p] = from_be (slice i 2 p).
Proof. intros. by rewrite slice_two. Qed.

Lemma to_from_be_slice i n p :
  (i + n ≤ length p)%nat → to_be n (from_be (slice i n p)) = slice i n p.
Proof. intros. apply to_from_be, length_slice. lia. Qed.

(** A byte string of known length is the concatenation of its fields. *)
Lemma slice_all p : slice 0 (length p) p = p.
Proof. by apply slice_whole. Qed.

(** ** Well-formed values: the array sizes and integer widths of the structs *)

Definition wf_hello (h : ControlHello) : Prop :=
  length (instance_id h) = 16%nat ∧ length (hello_nonce h) = 32%nat ∧
  is_u16 (requested_port h).

(** The registrations a [CONTROL_HELLO] may ask for: port zero only for a fresh
    automatic one, and otherwise an unprivileged port. *)
Definition valid_request (h : ControlHello) : Prop :=
  (requested_port h = 0 → mode h = Fresh) ∧
  (requested_port h ≠ 0 → 1024 ≤ requested_port h).

Definition wf_challenge (c : ControlChallenge) : Prop :=
  length (cc_nonce c) = 32%nat ∧ length (cc_session_id c) = 16%nat ∧
  length (cc_mac c) = 32%nat.

Definition wf_registered (r : Registered) : Prop :=
  1024 ≤ assigned_port r < 65536 ∧ 0 < max_connections r < 2 ^ 32 ∧
  length (ready_mac r) = 32%nat.

Definition wf_open_failed (m : OpenFailed) : Prop := length (of_request_id m) = 16%nat.

Definition wf_data_hello (h : DataHello) : Prop :=
  length (dh_session_id h) = 16%nat ∧ length (dh_request_id h) = 16%nat ∧
  length (dh_nonce h) = 32%nat.

Definition wf_data_challenge (c : DataChallenge) : Prop :=
  length (dc_nonce c) = 32%nat ∧ length (dc_mac c) = 32%nat.

Definition wf_frame (f : Frame) : Prop := length (payload f) = payload_len (ty f).

(** ** Message bodies *)

Lemma hello_fields p :
  length p = 51%nat →
  p = slice 0 16 p ++ slice 16 32 p ++ [byte_at 48 p] ++
      to_be 2 (from_be [byte_at 49 p; byte_at 50 p]).
Proof.
  intros Hl. rewrite (from_be_two 49), to_from_be_slice by lia.
  rewrite <-slice_byte by lia. rewrite <-!slice_cut. simpl. by rewrite <-Hl, slice_all.
Qed.

Lemma hello_encode_fields i n m q :
  length i = 16%nat → length n = 32%nat →
  let p := i ++ n ++ [m] ++ to_be 2 q in
  length p = 51%nat ∧ slice 0 16 p = i ∧ slice 16 32 p = n ∧ byte_at 48 p = m ∧
  [byte_at 49 p; byte_at 50 p] = to_be 2 q.
Proof.
  intros Hi Hn p. assert (length p = 51%nat) as Hp.
  { subst p. rewrite !length_app, length_to_be. simpl. lia. }
  rewrite <-(slice_two 49) by lia. subst p.
  repeat split; [done|..]; repeat slice_step; rewrite ?Hi, ?Hn; simpl;
    repeat slice_step; try done.
Qed.

Lemma check_requested_port_Ok m q :
  0 ≤ q →
  check_requested_port m q = Ok () ↔ (q = 0 → m = Fresh) ∧ (q ≠ 0 → 1024 ≤ q).
Proof.
  intros H0. unfold check_requested_port.
  destruct (decide (m = Resume ∧ q = 0)) as [[-> ->]|Hm];
    [split; [done|]; intros [H _]; by specialize (H eq_refl)|].
  destruct (decide (q ≠ 0 ∧ q < 1024)); [split; [done|]; lia|].
  split; [|done]. intros _. split; intros; [|lia]. destruct m; [done|]. by destruct Hm.
Qed.

(** [ControlHello::decode] accepts exactly the 51-byte encodings of
    well-formed hellos whose mode and port go together, and returns the hello
    that was encoded. *)
Lemma ControlHello_decode_exact p h :
  ControlHello_decode p = Ok h ↔
  wf_hello h ∧ valid_request h ∧ p = ControlHello_encode h.
Proof.
  unfold ControlHello_decode, wf_hello, valid_request. split.
  - intros H. case_decide as Hl; [done|].
    apply result_bind_Ok in H as (m & Hm & (u & Hc & [= <-])%result_bind_Ok).
    destruct u. apply check_requested_port_Ok in Hc; [|apply from_be_bound].
    simpl. unfold ControlHello_encode. simpl.
    rewrite (Mode_u8_from_u8 _ _ Hm). rewrite !length_slice by lia.
    split_and!; try done || apply Hc; [by apply (from_be_bits 2)|].
    by apply hello_fields.
  - intros ((Hi & Hn & Hq) & Hv & ->). unfold ControlHello_encode.
    destruct (hello_encode_fields _ _ (mode_u8 (mode h)) (requested_port h) Hi Hn)
      as (-> & -> & -> & -> & ->).
    rewrite from_to_be_id, Mode_from_u8_u8 by done.
    case_decide; [done|]. simpl.
    rewrite (proj2 (check_requested_port_Ok _ _ (proj1 Hq)) Hv). by destruct h.
Qed.

(** [Registered::decode] accepts exactly the 38-byte encodings of
    registrations with an unprivileged port and a nonzero maximum. *)
Lemma Registered_decode_exact p r :
  Registered_decode p = Ok r ↔ wf_registered r ∧ p = Registered_encode r.
Proof.
  unfold Registered_decode, wf_registered, Registered_encode. split.
  - intros H. case_decide as Hl; [done|].
    rewrite (from_be_two 0) in H by lia.
    pose proof (from_be_bits 2 (slice 0 2 p)) as Hp.
    pose proof (from_be_bits 4 (slice 2 4 p)) as Hm.
    rewrite length_slice in Hp, Hm by lia.
    specialize (Hp eq_refl). specialize (Hm eq_refl). unfold in_bits in Hp, Hm.
    do 2 (case_decide; [done|]). injection H as <-.
    cbn [assigned_port max_connections ready_mac]. rewrite !to_from_be_slice by lia.
    rewrite length_slice by lia. split; [lia|].
    rewrite <-!slice_cut. simpl. by rewrite <-Hl, slice_all.
  - intros ((Hp & Hm & Hr) & ->).
    assert (length (to_be 2 (assigned_port r) ++ to_be 4 (max_connections r) ++ ready_mac r)
            = 38%nat) as Hl by (rewrite !length_app, !length_to_be; lia).
    rewrite (from_be_two 0) by lia. case_decide; [done|].
    repeat slice_step. simpl. repeat slice_step.
    rewrite !from_to_be_id by (unfold in_bits; lia).
    repeat case_decide; [lia..|]. by destruct r.
Qed.

Lemma ControlChallenge_decode_exact p c :
  ControlChallenge_decode p = Ok c ↔ wf_challenge c ∧ p = ControlChallenge_encode c.
Proof.
  unfold ControlChallenge_decode, wf_challenge, ControlChallenge_encode. split.
  - intros H. case_decide as Hl; simplify_eq/=. rewrite !length_slice by lia.
    split; [done|]. rewrite <-!slice_cut. simpl. by rewrite <-Hl, slice_all.
  - intros ((Hn & Hs & Hm) & ->).
    case_decide as Hd; [by rewrite !length_app in Hd; lia|].
    slice_eval. by destruct c.
Qed.

Lemma OpenFailed_decode_exact p m :
  OpenFailed_decode p = Ok m ↔ wf_open_failed m ∧ p = OpenFailed_encode m.
Proof.
  unfold OpenFailed_decode, wf_open_failed, OpenFailed_encode. split.
  - intros H. case_decide as Hl; [done|].
    apply result_bind_Ok in H as (r & Hr & [= <-]). simpl.
    rewrite (OpenFailure_u8_from_u8 _ _ Hr), length_slice by lia. split; [done|].
    rewrite <-slice_byte, <-slice_cut by lia. simpl. by rewrite <-Hl, slice_all.
  - intros (Hi & ->). case_decide as Hd; [by rewrite length_app in Hd; simpl in Hd; lia|].
    repeat slice_step. rewrite Hi. simpl.
    change (byte_at 0 [?b]) with b. rewrite OpenFailure_from_u8_u8. simpl. by destruct m.
Qed.

Lemma DataHello_decode_exact p h :
  DataHello_decode p = Ok h ↔ wf_data_hello h ∧ p = DataHello_encode h.
Proof.
  unfold DataHello_decode, wf_data_hello, DataHello_encode. split.
  - intros H. case_decide as Hl; simplify_eq/=. rewrite !length_slice by lia.
    split; [done|]. rewrite <-!slice_cut. simpl. by rewrite <-Hl, slice_all.
  - intros ((Hn & Hs & Hm) & ->).
    case_decide as Hd; [by rewrite !length_app in Hd; lia|].
    slice_eval. by destruct h.
Qed.

Lemma DataChallenge_decode_exact p c :
  DataChallenge_decode p = Ok c ↔ wf_data_challenge c ∧ p = DataChallenge_encode c.
Proof.
  unfold DataChallenge_decode, wf_data_challenge, DataChallenge_encode. split.
  - intros H. case_decide as Hl; simplify_eq/=. rewrite !length_slice by lia.
    split; [done|]. rewrite <-!slice_cut. simpl. by rewrite <-Hl, slice_all.
  - intros ((Hn & Hm) & ->).
    case_decide as Hd; [by rewrite !length_app in Hd; lia|].
    slice_eval. by destruct c.
Qed.

Lemma decode_request_id_exact p r : decode_request_id p = Ok r ↔ length r = 16%nat ∧ p = r.
Proof.
  unfold decode_request_id. split.
  - intros. case_decide as Hl; simplify_eq/=. by rewrite <-Hl, slice_all.
  - intros [Hl ->]. case_decide; [done|]. by rewrite <-Hl, slice_all.
Qed.

Lemma decode_sequence_exact p n : decode_sequence p = Ok n ↔ is_u64 n ∧ p = to_be 8 n.
Proof.
  unfold decode_sequence. split.
  - intros. case_decide as Hl; simplify_eq/=. rewrite (slice_whole 0 8) by done.
    rewrite to_from_be by done. split; [|done]. by apply (from_be_bits 8).
  - intros [Hn ->]. rewrite length_to_be. simpl. slice_step. by rewrite from_to_be_id.
Qed.

Lemma decode_error_exact p c : decode_error p = Ok c ↔ p = to_be 2 (as_u16 c).
Proof.
  unfold decode_error. split.
  - intros H. case_decide as Hl; [done|]. rewrite (from_be_two 0) in H by lia.
    destruct (from_u16 _) as [c'|] eqn:E; simplify_eq/=.
    rewrite (as_from_u16 _ _ E), <-Hl at 1. rewrite Hl at 1.
    by rewrite to_from_be_slice, <-Hl, slice_all by lia.
  - intros ->. rewrite length_to_be. simpl.
    rewrite (from_be_two 0) by (rewrite length_to_be; lia). slice_step.
    rewrite from_to_be_id by apply as_u16_range. by rewrite from_as_u16.
Qed.

(** ** Preamble *)

Lemma MAGIC_length : length MAGIC = 4%nat.
Proof. reflexivity. Qed.

(** On eight bytes [decode_preamble] succeeds with a kind exactly when they
    are the preamble [encode_preamble] writes for that kind, and it answers
    [UNSUPPORTED_VERSION] exactly when the magic is right and the version is
    not. *)
Lemma decode_preamble_exact bs :
  length bs = PREAMBLE_LEN →
  (∀ k, decode_preamble bs = Ok k ↔ bs = encode_preamble k) ∧
  ((∃ e, decode_preamble bs = Err e ∧ code e = UnsupportedVersion) ↔
   slice 0 4 bs = MAGIC ∧ byte_at 4 bs ≠ VERSION).
Proof.
  unfold decode_preamble. intros Hl.
  do 8 (destruct bs as [|? bs]; [done|]). destruct bs; [|done].
  cbv [slice byte_at take drop nth]. split.
  - intros k. split.
    + intros H. do 3 (case_decide; [done|]).
      destruct (decide ([b; b0; b1; b2] = MAGIC)) as [Hm|]; [|done].
      injection Hm as -> -> -> ->.
      destruct (decide (b3 = VERSION)) as [->|]; [|done].
      destruct (decide (b5 = x00)) as [->|]; [|naive_solver].
      destruct (decide (b6 = x00)) as [->|]; [|naive_solver].
      by rewrite <-(Kind_u8_from_u8 _ _ H).
    + intros Hk. injection Hk as -> -> -> -> -> -> -> ->.
      do 3 (rewrite decide_False by (by intros [])). apply Kind_from_u8_u8.
  - split.
    + intros (e & H & Hc). repeat case_decide; simplify_eq/=; try done.
      pose proof (Kind_from_u8_spec b4) as Hs. rewrite H in Hs. by subst.
    + intros [Hm Hv]. eexists. rewrite decide_False by naive_solver.
      by rewrite decide_True by done.
Qed.

(** ** All decoders *)

(** (C17) The preamble and every message body have an exact decoder: it accepts the
    encodings of well-formed values and nothing else, and returns the value that
    was encoded.  In particular a CONTROL_HELLO passes only when its mode and port go together
    (port zero only for a fresh registration, otherwise an unprivileged port),
    and a REGISTERED only with an unprivileged port and a nonzero maximum. *)
Theorem body_decoders_exact :
  (∀ p h, ControlHello_decode p = Ok h ↔
     wf_hello h ∧ valid_request h ∧ p = ControlHello_encode h) ∧
  (∀ p c, ControlChallenge_decode p = Ok c ↔ wf_challenge c ∧ p = ControlChallenge_encode c) ∧
  (∀ p r, Registered_decode p = Ok r ↔ wf_registered r ∧ p = Registered_encode r) ∧
  (∀ p m, OpenFailed_decode p = Ok m ↔ wf_open_failed m ∧ p = OpenFailed_encode m) ∧
  (∀ p h, DataHello_decode p = Ok h ↔ wf_data_hello h ∧ p = DataHello_encode h) ∧
  (∀ p c, DataChallenge_decode p = Ok c ↔ wf_data_challenge c ∧ p = DataChallenge_encode c) ∧
  (∀ p r, decode_request_id p = Ok r ↔ length r = 16%nat ∧ p = r) ∧
  (∀ p n, decode_sequence p = Ok n ↔ is_u64 n ∧ p = to_be 8 n) ∧
  (∀ p c, decode_error p = Ok c ↔ p = to_be 2 (as_u16 c)) ∧
  (∀ p k, length p = PREAMBLE_LEN → decode_preamble p = Ok k ↔ p = encode_preamble k).
Proof.
  split_and!; [..|intros p k Hp; by apply (decode_preamble_exact p Hp)];
    eauto using ControlHello_decode_exact, Registered_decode_exact, ControlChallenge_decode_exact, OpenFailed_decode_exact,
    DataHello_decode_exact, DataChallenge_decode_exact, decode_request_id_exact,
    decode_sequence_exact, decode_error_exact.
Qed.

(** ** Frames *)

(** A world whose socket never fails: reads end only at the end of the peer's
    bytes and writes go through. *)
Definition reliable {R S} (W : World R S) : Prop :=
  (∀ t, read_error W t = None) ∧ (∀ t, write_error W t = None).

Section frames.
Context {R : Type → Type} {S : Type} (W : World R S) (HW : reliable W).

Lemma run_read_exact n c :
  run W (perform (ReadExact n)) c =
    if decide (n ≤ length (inbound c))%nat
    then (Ok (take n (inbound c)),
          mkConn (drop n (inbound c)) (outbound c) (served c) (1 + ticks c))
    else (Err UnexpectedEof, mkConn [] (outbound c) (served c) (1 + ticks c)).
Proof using HW.
  rewrite run_perform. destruct c as [i w s t]. simpl. by rewrite (proj1 HW).
Qed.

Lemma run_write_all bs c :
  run W (perform (WriteAll bs)) c =
    (Ok (), mkConn (inbound c) (outbound c ++ bs) (served c) (1 + ticks c)).
Proof using HW.
  rewrite run_perform. destruct c as [i w s t]. simpl. by rewrite (proj2 HW).
Qed.

Lemma run_flush c :
  run W (perform Flush) c =
    (Ok (), mkConn (inbound c) (outbound c) (served c) (1 + ticks c)).
Proof using HW.
  rewrite run_perform. destruct c as [i w s t]. simpl. by rewrite (proj2 HW).
Qed.

(** What the reader does, as one function of the bytes that are there. *)
Definition parse_frame (i : bytes) : result AppError Frame * bytes :=
  if decide (length i < 3)%nat then (Err (AppIo UnexpectedEof), [])
  else
    let declared := Z.to_nat (from_be (slice 1 2 i)) in
    let rest := drop 3 i in
    if decide (MAX_PAYLOAD < declared)%nat then
      (Err (app_protocol "payload length too large"), rest)
    else match Type_from_u8 (byte_at 0 i) with
    | Err e => (Err (AppProtocol e), rest)
    | Ok t =>
        if decide (declared ≠ payload_len t) then
          (Err (app_protocol "payload length does not match message type"), rest)
        else if decide (length rest < declared)%nat then (Err (AppIo UnexpectedEof), [])
        else (Ok (mkFrame t (take declared rest)), drop declared rest)
    end.

Lemma byte_at_take i n bs : (i < n)%nat → byte_at i (take n bs) = byte_at i bs.
Proof using. intros. unfold byte_at. by rewrite !nth_lookup, lookup_take_lt. Qed.

Lemma run_read_frame c :
  let '(r, rest) := parse_frame (inbound c) in
  ∃ t, run W read_frame c = (r, mkConn rest (outbound c) (served c) t).
Proof using HW.
  unfold read_frame, parse_frame. rewrite run_try, run_read_exact. simpl.
  unfold HEADER_LEN.
  destruct (decide (3 ≤ length (inbound c))%nat); [|rewrite decide_True by lia; eauto].
  rewrite decide_False, !byte_at_take by lia.
  rewrite (from_be_two 1) by lia.
  case_decide; [simpl; eauto|]. rewrite run_try. simpl.
  destruct (Type_from_u8 _) as [t|e]; [|eauto].
  case_decide; [simpl; eauto|]. rewrite run_try, run_read_exact. simpl.
  case_decide; [rewrite decide_False by lia|rewrite decide_True by lia]; simpl; eauto.
Qed.

Lemma length_frame_encode f : length (frame_encode f) = (3 + length (payload f))%nat.
Proof using. unfold frame_encode. cbn [length]. by rewrite length_app, length_to_be. Qed.

Lemma parse_frame_encode f rest :
  wf_frame f → parse_frame (frame_encode f ++ rest) = (Ok f, rest).
Proof using.
  intros Hf. pose proof (payload_len_small (ty f)) as Hs.
  unfold parse_frame, MAX_PAYLOAD.
  case_decide as Hd; [exfalso; revert Hd; rewrite length_app, length_frame_encode; lia|].
  clear Hd. unfold frame_encode. rewrite Hf. set (l := payload_len (ty f)) in *.
  assert (length (to_be 2 (Z.of_nat l)) = 2%nat) as H2 by apply length_to_be.
  change ((type_u8 (ty f) :: ?a) ++ rest) with ([type_u8 (ty f)] ++ (a ++ rest)).
  rewrite (slice_skip 1) by (simpl; lia). rewrite <-app_assoc.
  rewrite slice_here by (simpl; lia).
  rewrite from_to_be_id by (unfold in_bits; lia). rewrite Nat2Z.id.
  rewrite decide_False by lia. change (byte_at 0 _) with (type_u8 (ty f)).
  rewrite Type_from_u8_u8, decide_False by (intros []; done).
  rewrite (app_assoc [_]), drop_app_length' by (simpl; lia).
  rewrite decide_False by (rewrite length_app, Hf; lia).
  rewrite take_app_length', drop_app_length' by done. by destruct f.
Qed.

Lemma parse_frame_Ok i f rest :
  parse_frame i = (Ok f, rest) → wf_frame f ∧ i = frame_encode f ++ rest.
Proof using.
  unfold parse_frame. intros H. case_decide; [done|].
  case_decide; [done|]. destruct (Type_from_u8 _) as [t|] eqn:Ht; [|done].
  case_decide as Hd; [done|]. case_decide; [done|].
  injection H as <- <-. unfold wf_frame. cbn [ty payload].
  assert (length (take (Z.to_nat (from_be (slice 1 2 i))) (drop 3 i)) = payload_len t)
    as Hp by (rewrite length_take; lia).
  split; [done|]. unfold frame_encode. cbn [ty payload]. rewrite Hp, <-Hd.
  pose proof (from_be_bound (slice 1 2 i)). rewrite Z2Nat.id by lia.
  rewrite to_from_be_slice, (Type_u8_from_u8 _ _ Ht) by lia.
  transitivity ([byte_at 0 i] ++ slice 1 2 i ++ drop 3 i).
  - rewrite <-slice_byte, app_assoc, <-(slice_cut 0) by lia.
    unfold slice. by rewrite drop_0, take_drop.
  - cbn [app]. by rewrite <-app_assoc, take_drop.
Qed.

(** (C16) over a socket that does not fail, [read_frame] returns a frame exactly
    when the bytes waiting are the encoding of that frame with the length its
    type prescribes, followed by what is left for the next reader; nothing
    is written and nothing beyond the frame is taken from the stream. *)
Theorem read_frame_exact c f rest :
  (∃ t, run W read_frame c = (Ok f, mkConn rest (outbound c) (served c) t)) ↔
  wf_frame f ∧ inbound c = frame_encode f ++ rest.
Proof using HW.
  pose proof (run_read_frame c) as Hr. split.
  - intros [t Ht]. destruct (parse_frame (inbound c)) as [r rest'] eqn:E.
    destruct Hr as [t' Hr]. rewrite Ht in Hr. simplify_eq.
    by apply parse_frame_Ok.
  - intros [Hf Hi]. rewrite Hi, parse_frame_encode in Hr by done. done.
Qed.

(** A frame is rejected from its three header bytes alone: when the type
    is unknown, or the declared length is not the one length of the type (in
    particular when it exceeds [MAX_PAYLOAD]), the answer is a protocol error
    whatever follows the header, and only the header has been consumed. *)
Lemma read_frame_rejects_header c t0 l :
  (3 ≤ length (inbound c))%nat →
  t0 = byte_at 0 (inbound c) → l = Z.to_nat (from_be (slice 1 2 (inbound c))) →
  (∀ t, Type_from_u8 t0 = Ok t → l ≠ payload_len t) →
  ∃ d t, run W read_frame c =
    (Err (app_protocol d), mkConn (drop 3 (inbound c)) (outbound c) (served c) t).
Proof using HW.
  intros Hl -> -> Hbad. pose proof (run_read_frame c) as Hr.
  unfold parse_frame in Hr. rewrite decide_False in Hr by lia.
  case_decide; [destruct Hr; eauto|].
  destruct (Type_from_u8 _) as [t|e] eqn:E.
  - rewrite decide_True in Hr by eauto. destruct Hr; eauto.
  - destruct Hr as [t' Hr]. rewrite Hr.
    pose proof (Type_from_u8_spec (byte_at 0 (inbound c))) as Hs.
    rewrite E in Hs. subst e.
    unfold app_protocol. eauto.
Qed.

(** Writing a well-formed frame puts its encoding on the wire. *)
Lemma run_write_frame f c :
  (length (payload f) ≤ MAX_PAYLOAD)%nat →
  run W (write_frame f) c =
    (Ok (), mkConn (inbound c) (outbound c ++ frame_encode f) (served c) (2 + ticks c)).
Proof using HW.
  intros. unfold write_frame. rewrite decide_False by lia.
  by rewrite !run_try, run_write_all, run_try, run_flush.
Qed.

Lemma run_read_frame_encode f rest c :
  wf_frame f → inbound c = frame_encode f ++ rest →
  ∃ t, run W read_frame c = (Ok f, mkConn rest (outbound c) (served c) t).
Proof using HW.
  intros Hf Hi. pose proof (run_read_frame c) as Hr. by rewrite Hi, parse_frame_encode in Hr.
Qed.
End frames.
