(* ===== verification/Auth.v ===== *)
(** * Authentication: [src/auth.rs]

    HMAC-SHA-256 comes from third-party crates, so it is a parameter [hmac] of
    everything below: [hmac key message] is the digest of the concatenation of
    the [update] calls.  No property of it is assumed here; what the protocol
    relies on is stated as an explicit alternative (a collision is exhibited)
    or as a hypothesis of the theorem that needs it. *)

From Stdlib Require Import Strings.String Strings.Byte.
From S2P Require Import Prelude Errors Io Protocol ProtocolFacts.

Local Open Scope Z_scope.

Definition LABEL_CONTROL_SERVER : bytes := list_byte_of_string "tunlet/v1/control/server" ++ [x00].
Definition LABEL_CONTROL_CLIENT : bytes := list_byte_of_string "tunlet/v1/control/client" ++ [x00].
Definition LABEL_CONTROL_READY : bytes := list_byte_of_string "tunlet/v1/control/ready" ++ [x00].
Definition LABEL_DATA_SERVER : bytes := list_byte_of_string "tunlet/v1/data/server" ++ [x00].
Definition LABEL_DATA_CLIENT : bytes := list_byte_of_string "tunlet/v1/data/client" ++ [x00].

(** [auth::random::<N>()]. *)
Definition random {R} (n : nat) : proc R (result AppError bytes) :=
  o ← perform (Entropy n);
  Ret (map_err (λ e, AppRuntime ("operating-system entropy unavailable: " +:+ e)) o).

Section mac.
Context (hmac : bytes → bytes → bytes).

Definition mac (key label transcript : bytes) : bytes := hmac key (label ++ transcript).

(** [verify_slice] succeeds when the proof is the whole digest. *)
Definition verify (key label transcript proof : bytes) : bool :=
  bool_decide (mac key label transcript = proof).
End mac.

Definition control_transcript (h : ControlHello) (server_nonce : Nonce)
    (session_id : SessionId) : bytes :=
  encode_preamble Control ++ ControlHello_encode h ++ server_nonce ++ session_id.

Definition ready_transcript (transcript : bytes) (assigned maximum : Z) : bytes :=
  transcript ++ to_be 2 assigned ++ to_be 4 maximum.

Definition data_transcript (h : DataHello) (server_nonce : Nonce) : bytes :=
  encode_preamble Data ++ DataHello_encode h ++ server_nonce.

(** ** What a MAC speaks about

    The five statements the protocol authenticates, with the bytes each one
    puts under the MAC. *)

Inductive statement :=
| ControlServer (h : ControlHello) (n : Nonce) (s : SessionId)
| ControlClient (h : ControlHello) (n : Nonce) (s : SessionId)
| ControlReady (h : ControlHello) (n : Nonce) (s : SessionId) (port maximum : Z)
| DataServer (h : DataHello) (n : Nonce)
| DataClient (h : DataHello) (n : Nonce).

Definition label_of (c : statement) : bytes :=
  match c with
  | ControlServer _ _ _ => LABEL_CONTROL_SERVER
  | ControlClient _ _ _ => LABEL_CONTROL_CLIENT
  | ControlReady _ _ _ _ _ => LABEL_CONTROL_READY
  | DataServer _ _ => LABEL_DATA_SERVER
  | DataClient _ _ => LABEL_DATA_CLIENT
  end.

Definition transcript_of (c : statement) : bytes :=
  match c with
  | ControlServer h n s | ControlClient h n s => control_transcript h n s
  | ControlReady h n s p m => ready_transcript (control_transcript h n s) p m
  | DataServer h n | DataClient h n => data_transcript h n
  end.

Definition mac_input (c : statement) : bytes := label_of c ++ transcript_of c.

Definition wf_statement (c : statement) : Prop :=
  match c with
  | ControlServer h n s | ControlClient h n s =>
      wf_hello h ∧ length n = 32%nat ∧ length s = 16%nat
  | ControlReady h n s p m =>
      wf_hello h ∧ length n = 32%nat ∧ length s = 16%nat ∧ is_u16 p ∧ is_u32 m
  | DataServer h n | DataClient h n => wf_data_hello h ∧ length n = 32%nat
  end.

(** ** Injectivity *)

Lemma to_be_inj n x y :
  in_bits (8 * Z.of_nat n) x → in_bits (8 * Z.of_nat n) y → to_be n x = to_be n y → x = y.
Proof. intros Hx Hy H. by rewrite <-(from_to_be_id n x Hx), H, from_to_be_id. Qed.

(** Splits an equation of concatenations whose left parts have equal lengths. *)
Ltac split_app H :=
  apply app_inj_1 in H;
  [let E := fresh "E" in let T := fresh "T" in
   destruct H as [E T]; rename T into H | rewrite ?length_to_be; simpl; lia].

Lemma ControlHello_encode_inj h k :
  wf_hello h → wf_hello k → ControlHello_encode h = ControlHello_encode k → h = k.
Proof.
  intros (?&?&Hp) (?&?&Hq) Heq. unfold ControlHello_encode in Heq.
  do 3 split_app Heq. apply (to_be_inj 2) in Heq; [|done..].
  injection E1 as Hm. apply (f_equal Mode_from_u8) in Hm.
  rewrite !Mode_from_u8_u8 in Hm. destruct h, k; by simplify_eq/=.
Qed.

Lemma length_ControlHello_encode h : wf_hello h → length (ControlHello_encode h) = 51%nat.
Proof.
  intros (?&?&_). unfold ControlHello_encode. rewrite !length_app, length_to_be. simpl. lia.
Qed.

Lemma DataHello_encode_inj h k :
  wf_data_hello h → wf_data_hello k → DataHello_encode h = DataHello_encode k → h = k.
Proof.
  intros (?&?&?) (?&?&?) Heq. unfold DataHello_encode in Heq. do 2 split_app Heq.
  destruct h, k; by simplify_eq/=.
Qed.

Lemma length_DataHello_encode h : wf_data_hello h → length (DataHello_encode h) = 64%nat.
Proof. intros (?&?&?). unfold DataHello_encode. rewrite !length_app. lia. Qed.

Lemma control_transcript_inj h n s h' n' s' :
  wf_hello h → length n = 32%nat → length s = 16%nat →
  wf_hello h' → length n' = 32%nat → length s' = 16%nat →
  control_transcript h n s = control_transcript h' n' s' → h = h' ∧ n = n' ∧ s = s'.
Proof.
  intros Hh ?? Hh' ?? Heq. unfold control_transcript in Heq. apply app_inv_head in Heq.
  apply app_inj_1 in Heq as [E Heq]; [|by rewrite !length_ControlHello_encode].
  split_app Heq. split_and!; [by apply ControlHello_encode_inj|done..].
Qed.

Lemma length_control_transcript h n s :
  wf_hello h → length n = 32%nat → length s = 16%nat →
  length (control_transcript h n s) = 107%nat.
Proof.
  intros. unfold control_transcript. rewrite !length_app, length_ControlHello_encode by done.
  simpl. lia.
Qed.

Lemma data_transcript_inj h n h' n' :
  wf_data_hello h → wf_data_hello h' →
  data_transcript h n = data_transcript h' n' → h = h' ∧ n = n'.
Proof.
  intros Hh Hh' H. unfold data_transcript in H. apply app_inv_head in H.
  apply app_inj_1 in H as [E H]; [|by rewrite !length_DataHello_encode].
  split; [by apply DataHello_encode_inj|done].
Qed.

(** A zero byte ends a label and occurs nowhere else in it, so the label can be
    read off the front of the input. *)
Lemma zero_terminated_inj (a b x y : bytes) :
  x00 ∉ a → x00 ∉ b → (a ++ [x00]) ++ x = (b ++ [x00]) ++ y → a = b ∧ x = y.
Proof.
  revert b. induction a as [|c a IH]; intros [|d b] Ha Hb Heq; cbn [app] in Heq.
  - by injection Heq.
  - injection Heq as <- _. destruct Hb. left.
  - injection Heq as -> _. destruct Ha. left.
  - injection Heq as -> Heq. apply not_elem_of_cons in Ha as [_ Ha], Hb as [_ Hb].
    by destruct (IH b Ha Hb Heq) as [-> ->].
Qed.

Definition label_text (c : statement) : bytes :=
  match c with
  | ControlServer _ _ _ => list_byte_of_string "tunlet/v1/control/server"
  | ControlClient _ _ _ => list_byte_of_string "tunlet/v1/control/client"
  | ControlReady _ _ _ _ _ => list_byte_of_string "tunlet/v1/control/ready"
  | DataServer _ _ => list_byte_of_string "tunlet/v1/data/server"
  | DataClient _ _ => list_byte_of_string "tunlet/v1/data/client"
  end.

Lemma label_of_text c : label_of c = label_text c ++ [x00].
Proof. by destruct c. Qed.

Lemma label_text_zero c : x00 ∉ label_text c.
Proof. destruct c; apply (bool_decide_unpack _); vm_compute; exact I. Qed.

(** The bytes under a MAC determine what it authenticates: no two distinct
    well-formed statements, of the same or of different roles (server, client,
    ready; control, data), share an input. *)
Lemma mac_input_injective c d :
  wf_statement c → wf_statement d → mac_input c = mac_input d → c = d.
Proof.
  unfold mac_input. intros Hc Hd H. rewrite !label_of_text in H.
  apply zero_terminated_inj in H as [Hl Ht]; [|apply label_text_zero..].
  destruct c, d; try discriminate Hl; clear Hl; simpl in Hc, Hd; unfold transcript_of in Ht.
  1,2: destruct Hc as (?&?&?), Hd as (?&?&?);
    apply control_transcript_inj in Ht as (-> & -> & ->); done.
  - destruct Hc as (?&?&?&?&?), Hd as (?&?&?&?&?). unfold ready_transcript in Ht.
    apply app_inj_1 in Ht as [E Ht]; [|by rewrite !length_control_transcript].
    apply control_transcript_inj in E as (-> & -> & ->); [|done..]. split_app Ht.
    apply (to_be_inj 2) in E; [|done..]. by apply (to_be_inj 4) in Ht as ->; subst.
  - destruct Hc, Hd. by apply data_transcript_inj in Ht as [-> ->].
  - destruct Hc, Hd. by apply data_transcript_inj in Ht as [-> ->].
Qed.

(** (C18) A proof given in one exchange is a proof about nothing else: a verifier
    that expects the statement [c] and is shown the MAC of the statement [d]
    under the same key, of the same or of another role (server, client, ready;
    control, data), accepts only if they are the same statement, unless the two
    inputs are a collision of the keyed hash. *)
Theorem verify_binds hmac key c d :
  wf_statement c → wf_statement d →
  verify hmac key (label_of c) (transcript_of c)
    (mac hmac key (label_of d) (transcript_of d)) = true →
  c = d ∨ (mac_input c ≠ mac_input d ∧ hmac key (mac_input c) = hmac key (mac_input d)).
Proof.
  intros Hc Hd Hv. apply bool_decide_eq_true in Hv. unfold mac in Hv.
  destruct (decide (mac_input c = mac_input d)) as [E|E]; [left|by right].
  by apply mac_input_injective.
Qed.

Lemma verify_mac hmac key label t : verify hmac key label t (mac hmac key label t) = true.
Proof. by apply bool_decide_eq_true. Qed.
#[export] Hint Rewrite verify_mac : tunlet.
