(* ===== verification/Runtime.v ===== *)
(** * The asynchronous runtime, as the program relies on it

    Semaphores and bounded channels come from the [tokio] crate.  They enter
    the model as interfaces: a class of operations, which the components are
    written against, and a class of the documented laws, which the theorems
    use.  The instances at the end show that the laws can hold; nothing in the
    model of the program refers to them. *)

From S2P Require Import Prelude.

(** ** [tokio::sync::Semaphore]

    [try_acquire] takes one permit and fails only when none is left; dropping
    an owned permit gives it back ([release]). *)
Class Semaphore (S : Type) := {
  sem_new : nat → S;
  available : S → nat;
  try_acquire : S → option S;
  release : S → S
}.

Class SemaphoreLaws (S : Type) `{Semaphore S} := {
  available_new n : available (sem_new n) = n;
  try_acquire_None s : try_acquire s = None ↔ available s = 0;
  try_acquire_Some s s' : try_acquire s = Some s' → available s = 1 + available s';
  available_release s : available (release s) = 1 + available s
}.

(** ** [tokio::sync::mpsc], bounded

    [try_send] appends to the queue; it fails when the queue holds as many
    messages as the channel was made for or when the receiver is gone.  [recv]
    takes the oldest message.  Dropping the receiver closes the channel. *)
Class Channel (A C : Type) := {
  chan_new : nat → C;
  chan_queue : C → list A;
  chan_capacity : C → nat;
  chan_closed : C → bool;
  try_send : C → A → option C;
  chan_recv : C → option (A * C);
  chan_close : C → C
}.

Class ChannelLaws (A C : Type) `{Channel A C} := {
  chan_new_spec n :
    chan_queue (chan_new n) = [] ∧ chan_capacity (chan_new n) = n ∧
    chan_closed (chan_new n) = false;
  try_send_None c a :
    try_send c a = None ↔
    chan_closed c = true ∨ chan_capacity c ≤ length (chan_queue c);
  try_send_Some c a c' :
    try_send c a = Some c' →
    chan_queue c' = chan_queue c ++ [a] ∧ chan_capacity c' = chan_capacity c ∧
    chan_closed c' = false;
  chan_recv_spec c a c' :
    chan_recv c = Some (a, c') →
    chan_queue c = a :: chan_queue c' ∧ chan_capacity c' = chan_capacity c ∧
    chan_closed c' = chan_closed c;
  chan_recv_None c : chan_recv c = None ↔ chan_queue c = [];
  chan_close_spec c :
    chan_closed (chan_close c) = true ∧ ∀ a, a ∈ chan_queue (chan_close c) → a ∈ chan_queue c
}.

(** ** Instances: a counter and a list with a capacity *)

#[export] Instance nat_semaphore : Semaphore nat := {|
  sem_new n := n;
  available s := s;
  try_acquire s := match s with O => None | S n => Some n end;
  release s := S s
|}.

#[export] Instance nat_semaphore_laws : SemaphoreLaws nat.
Proof. split; intros; try done; by destruct s; simplify_eq/=. Qed.

Record queue (A : Type) := mkQueue { q_items : list A; q_cap : nat; q_closed : bool }.
Arguments mkQueue {A} _ _ _.
Arguments q_items {A} _.
Arguments q_cap {A} _.
Arguments q_closed {A} _.

#[export] Instance queue_channel {A} : Channel A (queue A) := {|
  chan_new n := mkQueue [] n false;
  chan_queue := q_items;
  chan_capacity := q_cap;
  chan_closed := q_closed;
  try_send q a :=
    if q_closed q || bool_decide (q_cap q ≤ length (q_items q)) then None
    else Some (mkQueue (q_items q ++ [a]) (q_cap q) false);
  chan_recv q :=
    match q_items q with
    | [] => None
    | a :: l => Some (a, mkQueue l (q_cap q) (q_closed q))
    end;
  chan_close q := mkQueue (q_items q) (q_cap q) true
|}.

#[export] Instance queue_channel_laws {A} : ChannelLaws A (queue A).
Proof.
  split; simpl.
  - done.
  - intros [l n []] a; simpl; [naive_solver|]. case_bool_decide; naive_solver.
  - intros [l n []] a c'; simpl; [done|]. case_bool_decide; naive_solver.
  - intros [[|x l] n b] a c'; naive_solver.
  - intros [[|x l] n b]; naive_solver.
  - done.
Qed.
