(* ===== verification/Timing.v ===== *)
(** * Timeouts: [src/timing.rs]

    A [Duration] and an [Instant] are numbers of nanoseconds. *)

From S2P Require Import Prelude.

Local Open Scope Z_scope.

Abbreviation Instant := Z (only parsing).
Abbreviation Duration := Z (only parsing).

Definition from_secs (n : Z) : Duration := n * 1000000000.
Definition from_millis (n : Z) : Duration := n * 1000000.

Record Timing := mkTiming {
  handshake : Duration;
  control_attempt : Duration;
  reconnect_delay : Duration;
  reservation : Duration;
  request_wait : Duration;
  target_connect : Duration;
  heartbeat_interval : Duration;
  heartbeat_timeout : Duration;
  write_timeout : Duration;
  shutdown_grace : Duration;
  takeover_flush : Duration;
  sweep_interval : Duration
}.

Definition Timing_default : Timing := {|
  handshake := from_secs 10;
  control_attempt := from_secs 10;
  reconnect_delay := from_secs 5;
  reservation := from_secs 300;
  request_wait := from_secs 10;
  target_connect := from_secs 10;
  heartbeat_interval := from_secs 20;
  heartbeat_timeout := from_secs 10;
  write_timeout := from_secs 10;
  shutdown_grace := from_secs 5;
  takeover_flush := from_secs 1;
  sweep_interval := from_millis 100
|}.

Definition Timing_fast : Timing := {|
  handshake := from_secs 2;
  control_attempt := from_secs 2;
  reconnect_delay := from_millis 100;
  reservation := from_millis 600;
  request_wait := from_millis 700;
  target_connect := from_millis 600;
  heartbeat_interval := from_millis 200;
  heartbeat_timeout := from_millis 300;
  write_timeout := from_secs 2;
  shutdown_grace := from_secs 2;
  takeover_flush := from_millis 100;
  sweep_interval := from_millis 20
|}.

(** What the timeouts have to be for the waits to make sense: every one that
    bounds a wait is positive. *)
Definition wf_timing (t : Timing) : Prop :=
  0 < handshake t ∧ 0 < control_attempt t ∧ 0 < reconnect_delay t ∧
  0 < reservation t ∧ 0 < request_wait t ∧ 0 < heartbeat_interval t ∧
  0 < heartbeat_timeout t ∧ 0 < takeover_flush t ∧ 0 < sweep_interval t.

Lemma Timing_default_wf : wf_timing Timing_default.
Proof. by vm_compute. Qed.

Lemma Timing_fast_wf : wf_timing Timing_fast.
Proof. by vm_compute. Qed.
