(* ===== verification/Text.v ===== *)
(** * Strings and numbers, as the standard library of the program parses them

    A Rust [str] is the string of its UTF-8 bytes.  Every separator the program
    looks for is an ASCII character, and in UTF-8 the byte of an ASCII character
    occurs nowhere else, so searching bytes is searching characters. *)

From stdpp Require Import pretty.
From Stdlib Require Import Strings.Byte Strings.Ascii Strings.String.
From S2P Require Import Prelude.

Local Open Scope Z_scope.

(** ** Splitting *)

(** [str::strip_prefix], [str::split_once], [str::rsplit_once], [str::contains],
    [str::strip_suffix] and [str::ends_with], with an ASCII character. *)
Definition strip_prefix (c : ascii) (s : string) : option string :=
  match s with
  | String a rest => if decide (a = c) then Some rest else None
  | EmptyString => None
  end.

Fixpoint split_once (c : ascii) (s : string) : option (string * string) :=
  match s with
  | EmptyString => None
  | String a rest =>
      if decide (a = c) then Some (EmptyString, rest)
      else match split_once c rest with
           | Some (x, y) => Some (String a x, y)
           | None => None
           end
  end.

Fixpoint rsplit_once (c : ascii) (s : string) : option (string * string) :=
  match s with
  | EmptyString => None
  | String a rest =>
      match rsplit_once c rest with
      | Some (x, y) => Some (String a x, y)
      | None => if decide (a = c) then Some (EmptyString, rest) else None
      end
  end.

Definition contains (c : ascii) (s : string) : bool :=
  match split_once c s with Some _ => true | None => false end.

Fixpoint strip_suffix (c : ascii) (s : string) : option string :=
  match s with
  | EmptyString => None
  | String a EmptyString => if decide (a = c) then Some EmptyString else None
  | String a rest =>
      match strip_suffix c rest with Some x => Some (String a x) | None => None end
  end.

Definition ends_with (c : ascii) (s : string) : bool :=
  match strip_suffix c s with Some _ => true | None => false end.

(** [str::split] with an ASCII character: one more piece than separators. *)
Fixpoint split (c : ascii) (s : string) : list string :=
  match s with
  | EmptyString => [EmptyString]
  | String a rest =>
      let pieces := split c rest in
      if decide (a = c) then EmptyString :: pieces
      else match pieces with
           | p :: ps => String a p :: ps
           | [] => [String a EmptyString]
           end
  end.

(** ** Characters *)

Definition continuation (a : ascii) : bool :=
  let n := Z.of_N (N_of_ascii a) in bool_decide (128 <= n <= 191).

Definition starts_continuation (s : string) : bool :=
  match s with String a _ => continuation a | EmptyString => false end.

(** The characters of a string, each as its own bytes. *)
Fixpoint units (s : string) : list string :=
  match s with
  | EmptyString => []
  | String a rest =>
      match units rest with
      | u :: us =>
          if starts_continuation u then String a u :: us else String a EmptyString :: u :: us
      | [] => [String a EmptyString]
      end
  end.

Definition char_count (s : string) : nat := List.length (units s).

Definition of_codes (l : list N) : string :=
  string_of_list_ascii (ascii_of_N <$> l).

(** The characters with the Unicode property [White_Space], in UTF-8. *)
Definition whitespace : list string :=
  of_codes <$>
    ([[9]; [10]; [11]; [12]; [13]; [32]; [194; 133]; [194; 160]; [225; 154; 128]] ++
     ((λ n, [226; 128; 128 + n]) <$> [0; 1; 2; 3; 4; 5; 6; 7; 8; 9; 10]) ++
     [[226; 128; 168]; [226; 128; 169]; [226; 128; 175]; [226; 129; 159]; [227; 128; 128]])%N.

Definition is_whitespace (u : string) : bool := bool_decide (u ∈ whitespace).

Fixpoint drop_while {A} (f : A → bool) (l : list A) : list A :=
  match l with
  | [] => []
  | a :: rest => if f a then drop_while f rest else l
  end.

Definition join (l : list string) : string := foldr String.append EmptyString l.

(** [str::trim]. *)
Definition trim (s : string) : string :=
  join (rev (drop_while is_whitespace (rev (drop_while is_whitespace (units s))))).

(** [String::from_utf8]: whether the bytes are well-formed UTF-8. *)
Definition follows (lo hi : Z) (b : byte) : bool := bool_decide (lo <= Z_of_byte b <= hi).

Fixpoint utf8_valid (l : bytes) : bool :=
  match l with
  | [] => true
  | a :: l1 =>
      let n := Z_of_byte a in
      if bool_decide (n < 128) then utf8_valid l1
      else
        match l1 with
        | [] => false
        | b :: l2 =>
            if bool_decide (194 <= n <= 223) then follows 128 191 b && utf8_valid l2
            else
              match l2 with
              | [] => false
              | c :: l3 =>
                  if bool_decide (224 <= n <= 239) then
                    follows (if decide (n = 224) then 160 else 128)
                            (if decide (n = 237) then 159 else 191) b
                    && follows 128 191 c && utf8_valid l3
                  else
                    match l3 with
                    | [] => false
                    | d :: l4 =>
                        bool_decide (240 <= n <= 244)
                        && follows (if decide (n = 240) then 144 else 128)
                                   (if decide (n = 244) then 143 else 191) b
                        && follows 128 191 c && follows 128 191 d && utf8_valid l4
                    end
              end
        end
  end.

(** ** Numbers *)

(** [char::to_digit]. *)
Definition to_digit (radix : Z) (a : ascii) : option Z :=
  let n := Z.of_N (N_of_ascii a) in
  let d := if decide (48 <= n <= 57) then n - 48
           else if decide (97 <= n <= 122) then n - 97 + 10
           else if decide (65 <= n <= 90) then n - 65 + 10 else radix in
  if decide (d < radix) then Some d else None.

Fixpoint digits (radix acc : Z) (s : string) : option Z :=
  match s with
  | EmptyString => Some acc
  | String a rest =>
      match to_digit radix a with
      | Some d => digits radix (acc * radix + d) rest
      | None => None
      end
  end.

(** [u16::from_str] and [u32::from_str]: an optional plus sign, at least one
    digit, and a value of the type. *)
Definition parse_uint (max : Z) (s : string) : option Z :=
  let s := default s (strip_prefix "+" s) in
  match s with
  | EmptyString => None
  | _ => n ← digits 10 0 s; if decide (n <= max) then Some n else None
  end.

Definition parse_u16 : string → option Z := parse_uint 65535.
Definition parse_u32 : string → option Z := parse_uint 4294967295.
