(* ===== verification/TextFacts.v ===== *)
(** * Facts about the string functions *)

From stdpp Require Import pretty.
From Stdlib Require Import Strings.Byte Strings.Ascii Strings.String.
From S2P Require Import Prelude Text.

Local Open Scope Z_scope.

(** ** Splitting *)

(** The library keeps [simpl] from unfolding concatenation. *)
Lemma append_cons x a b : String x a +:+ b = String x (a +:+ b).
Proof. done. Qed.

Lemma append_nil_r a : a +:+ EmptyString = a.
Proof. induction a as [|x a IH]; [done|]. by rewrite append_cons, IH. Qed.

Lemma append_assoc a b c : (a +:+ b) +:+ c = a +:+ (b +:+ c).
Proof. induction a as [|x a IH]; [done|]. by rewrite !append_cons, IH. Qed.

Lemma contains_cons c a s : contains c (String a s) = bool_decide (a = c) || contains c s.
Proof.
  unfold contains. simpl. case_decide as H; [by rewrite bool_decide_true|].
  rewrite bool_decide_false by done. simpl. by destruct (split_once c s) as [[]|].
Qed.

Lemma contains_app c a b : contains c (a +:+ b) = contains c a || contains c b.
Proof.
  induction a as [|x a IH]; [done|]. rewrite append_cons.
  by rewrite !contains_cons, IH, orb_assoc.
Qed.

Lemma split_once_app c a b : contains c a = false → split_once c (a +:+ String c b) = Some (a, b).
Proof.
  induction a as [|x a IH]; intros H; [by simpl; rewrite decide_True|].
  rewrite append_cons. simpl.
  rewrite contains_cons in H. apply orb_false_iff in H as [Hx Ha].
  apply bool_decide_eq_false in Hx. by rewrite decide_False, IH.
Qed.

Lemma split_once_Some c s a b :
  split_once c s = Some (a, b) → s = a +:+ String c b ∧ contains c a = false.
Proof.
  revert a. induction s as [|x s IH]; intros a H; simpl in H; [done|]. case_decide as Hx.
  - by injection H as <- <-; subst.
  - destruct (split_once c s) as [[y z]|]; [|done]. injection H as <- ->.
    destruct (IH _ eq_refl) as [-> Hy]. split; [done|].
    by rewrite contains_cons, bool_decide_false.
Qed.

Lemma rsplit_once_None c s : contains c s = false → rsplit_once c s = None.
Proof.
  induction s as [|x s IH]; intros H; [done|]. rewrite contains_cons in H.
  apply orb_false_iff in H as [Hx Hs]. apply bool_decide_eq_false in Hx. simpl.
  by rewrite IH, decide_False.
Qed.

Lemma rsplit_once_app c a b :
  contains c b = false → rsplit_once c (a +:+ String c b) = Some (a, b).
Proof.
  intros H. induction a as [|x a IH].
  - simpl. by rewrite rsplit_once_None, decide_True.
  - rewrite append_cons. simpl. by rewrite IH.
Qed.

Lemma split_nonempty c s : split c s ≠ [].
Proof. destruct s; simpl; [done|]. case_decide; [done|]. by destruct (split c s). Qed.

(** A line that has no separator, in front of the rest. *)
Lemma split_line c a b : contains c a = false → split c (a +:+ String c b) = a :: split c b.
Proof.
  induction a as [|x a IH]; intros H; [by simpl; rewrite decide_True|].
  rewrite append_cons. simpl.
  rewrite contains_cons in H. apply orb_false_iff in H as [Hx Ha].
  apply bool_decide_eq_false in Hx. by rewrite decide_False, IH.
Qed.

Lemma strip_suffix_app c s : strip_suffix c (s +:+ String c EmptyString) = Some s.
Proof.
  induction s as [|x s IH]; [by simpl; rewrite decide_True|].
  rewrite append_cons. simpl. rewrite IH. by destruct s.
Qed.

Lemma strip_suffix_other c d s :
  c ≠ d → strip_suffix c (s +:+ String d EmptyString) = None.
Proof.
  intros H. induction s as [|x s IH]; [by simpl; rewrite decide_False|].
  rewrite append_cons. simpl. rewrite IH. by destruct s.
Qed.

(** ** Trimming *)

(** A string whose first and last characters are ASCII and no white space is
    its own trim. *)
Lemma drop_while_head {A} (f : A → bool) x l : f x = false → drop_while f (x :: l) = x :: l.
Proof. simpl. by intros ->. Qed.

Lemma units_cons a s :
  starts_continuation s = false → units (String a s) = String a EmptyString :: units s.
Proof.
  intros H. simpl. destruct s as [|b s]; [done|]. simpl in *.
  destruct (units s) as [|u us]; simpl; [by rewrite H|].
  destruct (starts_continuation u); simpl; by rewrite H.
Qed.

Lemma starts_continuation_units s :
  starts_continuation (hd EmptyString (units s)) = starts_continuation s.
Proof.
  destruct s as [|a s]; [done|]. simpl. destruct (units s) as [|u us]; [done|].
  by destruct (starts_continuation u).
Qed.

Lemma units_snoc s a :
  continuation a = false → units (s +:+ String a EmptyString) = units s ++ [String a EmptyString].
Proof.
  intros Ha. induction s as [|x s IH]; [done|]. rewrite append_cons. simpl. rewrite IH.
  destruct (units s) as [|u us]; simpl; [by rewrite Ha|].
  by destruct (starts_continuation u).
Qed.

Lemma join_units s : join (units s) = s.
Proof.
  induction s as [|a s IH]; [done|]. simpl. destruct (units s) as [|u us]; simpl in *.
  - by rewrite <-IH.
  - destruct (starts_continuation u); simpl; by rewrite <-IH.
Qed.

Lemma trim_solid a s z :
  continuation a = false → continuation z = false → starts_continuation s = false →
  is_whitespace (String a EmptyString) = false →
  is_whitespace (String z EmptyString) = false →
  trim (String a (s +:+ String z EmptyString)) = String a (s +:+ String z EmptyString).
Proof.
  intros Ha Hz Hs Wa Wz.
  assert (units (String a (s +:+ String z EmptyString)) =
    String a EmptyString :: (units s ++ [String z EmptyString])) as E.
  { rewrite units_cons, units_snoc by first [done|destruct s; [exact Hz|exact Hs]]. done. }
  rewrite <-(join_units (String a (s +:+ String z EmptyString))) at 2. unfold trim.
  rewrite E, drop_while_head by done. rewrite app_comm_cons, rev_app_distr. cbn [rev app].
  rewrite drop_while_head by done. cbn [rev].
  rewrite rev_app_distr, rev_involutive. done.
Qed.

(** ** Numbers *)

Lemma to_digit_range radix a d : to_digit radix a = Some d → 0 <= d < radix.
Proof.
  unfold to_digit. intros H. case_decide as Hd; [|done]. injection H as <-.
  repeat case_decide; lia.
Qed.

Lemma digits_nonneg radix acc s v : 0 <= radix → 0 <= acc → digits radix acc s = Some v → 0 <= v.
Proof.
  intros Hr. revert acc. induction s as [|a s IH]; intros acc Ha H; simpl in H;
    [by simplify_eq|].
  destruct (to_digit radix a) as [d|] eqn:E; [|done]. apply to_digit_range in E.
  eapply IH; [|exact H]. nia.
Qed.

Lemma parse_uint_range max s n : parse_uint max s = Some n → 0 <= n <= max.
Proof.
  unfold parse_uint. destruct (default s _) as [|a r] eqn:E; [done|]. clear E.
  intros H. destruct (digits 10 0 (String a r)) as [v|] eqn:Ed; [|done].
  cbn in H. case_decide; [|done]. injection H as <-.
  split; [|done]. by eapply (digits_nonneg 10); [| |exact Ed].
Qed.

Lemma to_digit_pretty x : (x < 10)%N → to_digit 10 (pretty_N_char x) = Some (Z.of_N x).
Proof.
  intros H. assert (∀ n : nat, (n < 10)%nat →
    to_digit 10 (pretty_N_char (N.of_nat n)) = Some (Z.of_nat n)) as Hn.
  { intros n Hn. do 10 (destruct n as [|n]; [vm_compute; done|]). lia. }
  specialize (Hn (N.to_nat x)). rewrite N2Nat.id in Hn. rewrite Hn by lia. f_equal. lia.
Qed.

Lemma digits_pretty_go x s : digits 10 0 (pretty_N_go x s) = digits 10 (Z.of_N x) s.
Proof.
  revert s. induction (N.lt_wf_0 x) as [x _ IH]; intros s.
  destruct (decide (x = 0)%N) as [->|Hx]; [by rewrite pretty_N_go_0|].
  rewrite pretty_N_go_step by lia. rewrite IH by (apply N.div_lt; lia). simpl.
  rewrite to_digit_pretty by (apply N.mod_lt; lia). f_equal.
  pose proof (N.div_mod x 10). lia.
Qed.

Lemma digits_pretty n : 0 <= n → digits 10 0 (pretty n) = Some n.
Proof.
  intros H. destruct n as [|p|p]; [done| |lia].
  change (pretty (Z.pos p)) with (pretty_N_go (N.pos p) ""). by rewrite digits_pretty_go.
Qed.

Lemma digits_head radix acc s v :
  digits radix acc s = Some v → strip_prefix "+" s = None ∨ to_digit radix "+" ≠ None.
Proof.
  destruct s as [|a s]; simpl; [by left|]. intros H. case_decide; subst; [right|by left].
  by destruct (to_digit radix "+").
Qed.

Lemma parse_uint_pretty max n : 0 <= n <= max → parse_uint max (pretty n) = Some n.
Proof.
  intros Hn. pose proof (digits_pretty n (proj1 Hn)) as H. unfold parse_uint.
  destruct (digits_head _ _ _ _ H) as [E|E]; [|by destruct E].
  rewrite E. simpl. destruct (pretty n) as [|a s] eqn:Ep.
  - simpl in H. injection H as <-. done.
  - rewrite H. simpl. by rewrite decide_True by lia.
Qed.

(** A number has no separator in it. *)
Lemma digits_contains c radix acc s v :
  to_digit radix c = None → digits radix acc s = Some v → contains c s = false.
Proof.
  intros Hc. revert acc. induction s as [|a s IH]; intros acc H; [done|]. simpl in H.
  rewrite contains_cons. destruct (to_digit radix a) eqn:E; [|done].
  rewrite (IH _ H), orb_false_r. apply bool_decide_false. congruence.
Qed.

Lemma pretty_contains c n : 0 <= n → to_digit 10 c = None → contains c (pretty n) = false.
Proof. intros Hn Hc. by eapply digits_contains, digits_pretty. Qed.
