(* ===== verification/Net.v ===== *)
(** * Network addresses: [src/net.rs]

    The address types of the standard library with their parsers and texts, the
    address parsers of the program, and [dial].  The operating system's socket
    calls are answers of the environment. *)

From stdpp Require Import pretty.
From Stdlib Require Import Strings.Ascii Strings.String.
From S2P Require Import Prelude Errors Timing Text.

Local Open Scope Z_scope.

(** [std::net::IpAddr]: four octets, or eight 16-bit segments. *)
Inductive IpAddr :=
| V4 (a b c d : Z)
| V6 (a b c d e f g h : Z).

#[export] Instance IpAddr_eq_dec : EqDecision IpAddr.
Proof. solve_decision. Defined.

(** [std::net::SocketAddr]. *)
Record SocketAddr := mkSocketAddr { ip : IpAddr; port : Z }.

#[export] Instance SocketAddr_eq_dec : EqDecision SocketAddr.
Proof. solve_decision. Defined.

Record Endpoint := mkEndpoint { host : string; endpoint_port : Z }.

#[export] Instance Endpoint_eq_dec : EqDecision Endpoint.
Proof. solve_decision. Defined.

Definition is_ipv6 (a : IpAddr) : bool := match a with V4 _ _ _ _ => false | _ => true end.

(** ** [IpAddr::from_str]

    The standard library's parser: [read_number] takes a run of digits of a
    bounded length, [read_separator] a separator before every part but the
    first. *)

Fixpoint take_digits (radix : Z) (s : string) : list Z * string :=
  match s with
  | EmptyString => ([], s)
  | String a rest =>
      match to_digit radix a with
      | Some d => let '(ds, rest) := take_digits radix rest in (d :: ds, rest)
      | None => ([], s)
      end
  end.

Definition read_number (radix : Z) (max_digits : nat) (allow_zero_prefix : bool) (max : Z)
    (s : string) : option (Z * string) :=
  let '(ds, rest) := take_digits radix s in
  let value := foldl (λ acc d, acc * radix + d) 0 ds in
  if decide (List.length ds = 0%nat ∨ (max_digits < List.length ds)%nat ∨ max < value) then None
  else if negb allow_zero_prefix && bool_decide (head ds = Some 0 ∧ (1 < List.length ds)%nat)
  then None
  else Some (value, rest).

Definition read_separator {A} (sep : ascii) (index : nat) (p : string → option (A * string))
    (s : string) : option (A * string) :=
  match index with
  | O => p s
  | _ => s ← strip_prefix sep s; p s
  end.

Definition read_ipv4 (s : string) : option ((Z * Z * Z * Z) * string) :=
  let octet i := read_separator "." i (read_number 10 3 false 255) in
  '(a, s) ← octet 0%nat s;
  '(b, s) ← octet 1%nat s;
  '(c, s) ← octet 2%nat s;
  '(d, s) ← octet 3%nat s;
  Some ((a, b, c, d), s).

(** [read_groups] with [n] groups left at position [i]: the groups, and whether
    an IPv4 address was the last thing read. *)
Fixpoint read_groups (n i : nat) (s : string) : list Z * bool * string :=
  match n with
  | O => ([], false, s)
  | S m =>
      match (if decide (1 ≤ m)%nat then read_separator ":" i read_ipv4 s else None) with
      | Some ((a, b, c, d), rest) => ([a * 256 + b; c * 256 + d], true, rest)
      | None =>
          match read_separator ":" i (read_number 16 4 true 65535) s with
          | None => ([], false, s)
          | Some (g, rest) =>
              let '(gs, v4, rest) := read_groups m (S i) rest in (g :: gs, v4, rest)
          end
      end
  end.

Definition of_segments (l : list Z) : option IpAddr :=
  match l with
  | [a; b; c; d; e; f; g; h] => Some (V6 a b c d e f g h)
  | _ => None
  end.

Definition read_ipv6 (s : string) : option (IpAddr * string) :=
  let '(front, v4, s) := read_groups 8 0 s in
  if decide (List.length front = 8%nat) then a ← of_segments front; Some (a, s)
  else if (v4 : bool) then None
  else
    s ← strip_prefix ":" s;
    s ← strip_prefix ":" s;
    let '(back, _, s) := read_groups (8 - (List.length front + 1)) 0 s in
    let zeros := replicate (8 - List.length front - List.length back) 0 in
    a ← of_segments (front ++ zeros ++ back);
    Some (a, s).

Definition parse_ip (s : string) : option IpAddr :=
  '(a, rest) ← match read_ipv4 s with
               | Some ((a, b, c, d), rest) => Some (V4 a b c d, rest)
               | None => read_ipv6 s
               end;
  match rest with EmptyString => Some a | _ => None end.

(** ** [Display for IpAddr] *)

Definition ipv4_text (a b c d : Z) : string :=
  pretty a +:+ "." +:+ pretty b +:+ "." +:+ pretty c +:+ "." +:+ pretty d.

Definition hex_digit (d : Z) : ascii :=
  ascii_of_N (Z.to_N (if decide (d < 10) then 48 + d else 87 + d)).

(** [{:x}] of a 16-bit number: no leading zeros. *)
Definition hex_text (n : Z) : string :=
  let ds := [n / 4096; n / 256 mod 16; n / 16 mod 16; n mod 16] in
  let ds := match drop_while (λ d, d =? 0) ds with [] => [0] | ds => ds end in
  string_of_list_ascii (hex_digit <$> ds).

Fixpoint segments_text (l : list Z) : string :=
  match l with
  | [] => EmptyString
  | [g] => hex_text g
  | g :: rest => hex_text g +:+ ":" +:+ segments_text rest
  end.

(** The first longest run of zero segments: its start and length. *)
Fixpoint longest_zeros (l : list Z) (i : nat) (current longest : nat * nat) : nat * nat :=
  match l with
  | [] => longest
  | g :: rest =>
      if decide (g = 0) then
        let current := match current with (_, O) => (i, 1%nat) | (s, n) => (s, S n) end in
        let longest := if decide (longest.2 < current.2)%nat then current else longest in
        longest_zeros rest (S i) current longest
      else longest_zeros rest (S i) (0%nat, 0%nat) longest
  end.

Definition ip_text (a : IpAddr) : string :=
  match a with
  | V4 a b c d => ipv4_text a b c d
  | V6 0 0 0 0 0 65535 g h => "::ffff:" +:+ ipv4_text (g / 256) (g mod 256) (h / 256) (h mod 256)
  | V6 a b c d e f g h =>
      let l := [a; b; c; d; e; f; g; h] in
      let '(start, n) := longest_zeros l 0 (0%nat, 0%nat) (0%nat, 0%nat) in
      if decide (1 < n)%nat then
        segments_text (take start l) +:+ "::" +:+ segments_text (drop (start + n) l)
      else segments_text l
  end.

(** ** Texts of the program *)

(** [Display for Endpoint]. *)
Definition endpoint_text (e : Endpoint) : string :=
  if contains ":" (host e) then "[" +:+ host e +:+ "]:" +:+ pretty (endpoint_port e)
  else host e +:+ ":" +:+ pretty (endpoint_port e).

Definition display_addr (addr : SocketAddr) : string :=
  if is_ipv6 (ip addr) then "[" +:+ ip_text (ip addr) +:+ "]:" +:+ pretty (port addr)
  else ip_text (ip addr) +:+ ":" +:+ pretty (port addr).

(** ** Parsers of the program *)

Definition split_host_port (value : string) : option (string * string) :=
  match strip_prefix "[" value with
  | Some rest =>
      '(host, tail) ← split_once "]" rest;
      port ← strip_prefix ":" tail;
      Some (host, port)
  | None =>
      '(host, port) ← rsplit_once ":" value;
      if contains ":" host then None else Some (host, port)
  end.

Definition parse_port (value field : string) : result AppError Z :=
  ok_or (parse_u16 value) (AppConfig (field +:+ " must be a port number")).

Definition parse_listen (value : string) : result AppError SocketAddr :=
  '(host, port) ← match strip_prefix ":" value with
                  | Some rest => Ok ("0.0.0.0", rest)
                  | None => ok_or (split_host_port value)
                              (AppConfig "LISTEN must be ADDR:PORT or :PORT")
                  end;
  ip ← ok_or (parse_ip host) (AppConfig "LISTEN address must be an IP literal");
  port ← parse_port port "LISTEN";
  if decide (port < 1024) then Err (AppConfig "LISTEN port must be 1024-65535")
  else Ok (mkSocketAddr ip port).

Definition parse_bind_ip (value : string) : result AppError IpAddr :=
  ok_or (parse_ip value) (AppConfig "DATA_BIND must be an IP literal without a port").

Definition parse_server (value : string) : result AppError Endpoint :=
  '(host, port) ← ok_or (split_host_port value) (AppConfig "SERVER must be HOST:PORT");
  if decide (host = EmptyString) then Err (AppConfig "SERVER must include a host")
  else
    port ← parse_port port "SERVER";
    if decide (port < 1024) then Err (AppConfig "SERVER port must be 1024-65535")
    else Ok (mkEndpoint host port).

Definition parse_target (value : string) : result AppError Endpoint :=
  '(host, port) ← match strip_prefix ":" value with
                  | Some rest => Ok ("127.0.0.1", rest)
                  | None => ok_or (split_host_port value)
                              (AppConfig "TARGET must be HOST:PORT or :PORT")
                  end;
  if decide (host = EmptyString) then Err (AppConfig "TARGET must include a host")
  else
    port ← parse_port port "TARGET";
    if decide (port = 0) then Err (AppConfig "TARGET port must be 1-65535")
    else Ok (mkEndpoint host port).

Definition parse_port_range (value : string) : result AppError (Z * Z) :=
  '(min, max) ← ok_or (split_once "-" value) (AppConfig "ALLOWED_PORTS must be MIN-MAX");
  min ← parse_port (trim min) "ALLOWED_PORTS";
  max ← parse_port (trim max) "ALLOWED_PORTS";
  if decide (min < 1024 ∨ max < min) then
    Err (AppConfig "ALLOWED_PORTS must satisfy 1024 <= MIN <= MAX <= 65535")
  else Ok (min, max).

(** [is_port_taken]. *)
Definition is_port_taken (e : IoError) : bool :=
  match e with AddrInUse | PermissionDenied => true | _ => false end.

(** [loopback_for]. *)
Definition loopback_for (bind : IpAddr) : IpAddr :=
  match bind with
  | V4 _ _ _ _ => V4 127 0 0 1
  | V6 _ _ _ _ _ _ _ _ => V6 0 0 0 0 0 0 0 1
  end.

(** ** Dialing *)

Definition dial_remaining (deadline now : Instant) : result AppError Duration :=
  if decide (deadline <= now) then Err (AppRuntime "connection budget expired")
  else Ok (deadline - now).

(** What [dial] meets: the clock at its readings, the resolver, and the connect
    of the [i]-th address, each under its timeout ([None]: timed out). *)
Record DialEnv := mkDialEnv {
  de_now : nat → Instant;
  de_lookup : Duration → string → option (result IoError (list SocketAddr));
  de_connect : nat → Duration → SocketAddr → option (result IoError unit);
  de_nodelay : result IoError unit
}.

(** The name [dial] gives the resolver. *)
Definition dial_name (endpoint : Endpoint) : string :=
  if bool_decide (is_Some (parse_ip (host endpoint))) && contains ":" (host endpoint)
  then "[" +:+ host endpoint +:+ "]:" +:+ pretty (endpoint_port endpoint)
  else host endpoint +:+ ":" +:+ pretty (endpoint_port endpoint).

Section dial.
Context (io_text : IoError → string) (env : DialEnv).

(** The loop over the addresses, the [i]-th being the next; the result is the
    address of the connected stream. *)
Fixpoint dial_loop (endpoint : Endpoint) (deadline : Instant) (i : nat) (addrs : list SocketAddr)
    (last : option IoError) : result AppError SocketAddr :=
  match addrs with
  | [] =>
      Err (AppRuntime ("connecting to " +:+ endpoint_text endpoint +:+ " failed: " +:+
             match last with Some e => io_text e | None => "no address succeeded" end))
  | addr :: addrs =>
      budget_left ← dial_remaining deadline (de_now env (i + 2));
      match de_connect env i budget_left addr with
      | Some (Ok _) => _ ← map_err AppIo (de_nodelay env); Ok addr
      | Some (Err error) => dial_loop endpoint deadline (S i) addrs (Some error)
      | None => Err (AppRuntime ("connecting to " +:+ endpoint_text endpoint +:+ " timed out"))
      end
  end.

Definition dial (endpoint : Endpoint) (budget : Duration) : result AppError SocketAddr :=
  let deadline := de_now env 0 + budget in
  budget_left ← dial_remaining deadline (de_now env 1);
  match de_lookup env budget_left (dial_name endpoint) with
  | None => Err (AppRuntime ("resolving " +:+ endpoint_text endpoint +:+ " timed out"))
  | Some (Err error) =>
      Err (AppRuntime ("resolving " +:+ endpoint_text endpoint +:+ " failed: " +:+ io_text error))
  | Some (Ok []) => Err (AppRuntime (endpoint_text endpoint +:+ " resolved to no address"))
  | Some (Ok addrs) => dial_loop endpoint deadline 0 addrs None
  end.

(** [connect_addr], with the outcome of the connect under its timeout. *)
Definition connect_addr (addr : SocketAddr) (budget : Duration) : result AppError unit :=
  match de_connect env 0 budget addr with
  | None => Err (AppRuntime ("connecting to " +:+ display_addr addr +:+ " timed out"))
  | Some (Err error) => Err (AppIo error)
  | Some (Ok _) => map_err AppIo (de_nodelay env)
  end.
End dial.

(** ** Listening *)

(** The calls [bind_listener] makes on a new socket.  A call is made only when
    those before it succeeded. *)
Inductive SocketCall :=
| NewSocket (v6 : bool)
| SetOnlyV6
| SetReuseAddress
| BindTo (addr : SocketAddr)
| ListenBacklog (n : Z)
| SetNonblocking
| IntoAsync.

Definition listener_calls (addr : SocketAddr) : list SocketCall :=
  [NewSocket (is_ipv6 (ip addr))]
    ++ (if is_ipv6 (ip addr) then [SetOnlyV6] else [])
    ++ [SetReuseAddress; BindTo addr; ListenBacklog 1024; SetNonblocking; IntoAsync].

Fixpoint issue (os : SocketCall → result IoError unit) (calls : list SocketCall) :
    list SocketCall * result IoError unit :=
  match calls with
  | [] => ([], Ok ())
  | call :: calls =>
      match os call with
      | Ok _ => let '(made, r) := issue os calls in (call :: made, r)
      | Err e => ([call], Err e)
      end
  end.

(** [net::bind_listener] on Unix: the calls made, and the result. *)
Definition net_bind_listener (os : SocketCall → result IoError unit) (addr : SocketAddr) :
    list SocketCall * result IoError unit :=
  issue os (listener_calls addr).
