(* ===== verification/NetFacts.v ===== *)
(** * Facts about addresses and dialing *)

From stdpp Require Import pretty.
From Stdlib Require Import Strings.Ascii Strings.String.
From S2P Require Import Prelude Errors Timing Text TextFacts Net.

Local Open Scope Z_scope.

(** ** Ports *)

Lemma parse_port_pretty n field : 0 <= n <= 65535 → parse_port (pretty n) field = Ok n.
Proof. intros H. unfold parse_port, parse_u16. by rewrite parse_uint_pretty. Qed.

Lemma parse_port_Ok value field n : parse_port value field = Ok n → 0 <= n <= 65535.
Proof.
  unfold parse_port. destruct (parse_u16 value) as [m|] eqn:E; [|done]. intros [= <-].
  by apply parse_uint_range in E.
Qed.

Lemma ok_or_Ok {E A} (o : option A) (e : E) a : ok_or o e = Ok a → o = Some a.
Proof. destruct o; [by intros [= ->]|done]. Qed.

(** ** Endpoints *)

(** A host an endpoint text can carry: not empty, and when it has a colon (an
    IPv6 literal, written in brackets) without a closing bracket of its own,
    otherwise without an opening bracket in front. *)
Definition writable_host (h : string) : Prop :=
  h ≠ EmptyString ∧
  if contains ":" h then contains "]" h = false else strip_prefix "[" h = None.

Lemma strip_prefix_solid c h t :
  h ≠ EmptyString → strip_prefix c h = None → strip_prefix c (h +:+ t) = None.
Proof.
  destruct h as [|a h]; [done|]. rewrite append_cons. simpl. by case_decide.
Qed.

Lemma contains_strip_prefix c h : contains c h = false → strip_prefix c h = None.
Proof.
  destruct h as [|a h]; [done|]. rewrite contains_cons. intros [H _]%orb_false_iff.
  apply bool_decide_eq_false in H. simpl. by rewrite decide_False.
Qed.

Lemma split_plain h p :
  h ≠ EmptyString → contains ":" h = false → strip_prefix "[" h = None → 0 <= p →
  split_host_port (h +:+ ":" +:+ pretty p) = Some (h, pretty p).
Proof.
  intros Hne Hc Hb Hp. unfold split_host_port. rewrite strip_prefix_solid by done.
  change (":" +:+ pretty p) with (String ":" (pretty p)).
  rewrite rsplit_once_app by (by apply pretty_contains). cbn [mbind option_bind]. by rewrite Hc.
Qed.

Lemma split_endpoint_text e :
  writable_host (host e) → 0 <= endpoint_port e →
  split_host_port (endpoint_text e) = Some (host e, pretty (endpoint_port e)).
Proof.
  intros [Hne Hh] Hp. unfold endpoint_text.
  destruct (contains ":" (host e)) eqn:Ec; [|by apply split_plain].
  unfold split_host_port. change (strip_prefix "[" ("[" +:+ ?s)) with (Some s).
  cbn [mbind option_bind].
  change ("]:" +:+ pretty (endpoint_port e)) with
    (String "]" (":" +:+ pretty (endpoint_port e))).
  by rewrite split_once_app.
Qed.

Lemma endpoint_text_no_colon e :
  writable_host (host e) → strip_prefix ":" (endpoint_text e) = None.
Proof.
  intros [Hne Hh]. unfold endpoint_text. destruct (contains ":" (host e)) eqn:Ec; [done|].
  apply strip_prefix_solid; [done|]. by apply contains_strip_prefix.
Qed.

Lemma parse_server_Ok s e :
  parse_server s = Ok e → host e ≠ EmptyString ∧ 1024 <= endpoint_port e <= 65535.
Proof.
  unfold parse_server. intros ([h p] & _ & H)%result_bind_Ok. case_decide; [done|].
  apply result_bind_Ok in H as (n & Hn%parse_port_Ok & H). case_decide; [done|].
  injection H as <-. simpl. split; [done|lia].
Qed.

Lemma parse_target_Ok s e :
  parse_target s = Ok e → host e ≠ EmptyString ∧ 1 <= endpoint_port e <= 65535.
Proof.
  unfold parse_target. intros ([h p] & _ & H)%result_bind_Ok. case_decide; [done|].
  apply result_bind_Ok in H as (n & Hn%parse_port_Ok & H). case_decide; [done|].
  injection H as <-. simpl. split; [done|lia].
Qed.

Lemma parse_listen_Ok s a : parse_listen s = Ok a → 1024 <= port a <= 65535.
Proof.
  unfold parse_listen. intros ([h p] & _ & H)%result_bind_Ok.
  apply result_bind_Ok in H as (i & _ & H).
  apply result_bind_Ok in H as (n & Hn%parse_port_Ok & H). case_decide; [done|].
  injection H as <-. simpl. lia.
Qed.

Lemma parse_port_range_Ok s r :
  parse_port_range s = Ok r → 1024 <= r.1 ∧ r.1 <= r.2 ∧ r.2 <= 65535.
Proof.
  unfold parse_port_range. intros ([a b] & _ & H)%result_bind_Ok.
  apply result_bind_Ok in H as (n & Hn%parse_port_Ok & H).
  apply result_bind_Ok in H as (m & Hm%parse_port_Ok & H). case_decide as Hd; [done|].
  injection H as <-. simpl. lia.
Qed.

(** The text of an endpoint is parsed back to it, as a server when the port
    is unprivileged and as a target when it is not zero; and whatever is parsed
    has a host and such a port. *)
Lemma endpoint_roundtrip e :
  writable_host (host e) →
  (1024 <= endpoint_port e <= 65535 → parse_server (endpoint_text e) = Ok e) ∧
  (1 <= endpoint_port e <= 65535 → parse_target (endpoint_text e) = Ok e) ∧
  (∀ s e', parse_server s = Ok e' →
     host e' ≠ EmptyString ∧ 1024 <= endpoint_port e' <= 65535) ∧
  (∀ s e', parse_target s = Ok e' →
     host e' ≠ EmptyString ∧ 1 <= endpoint_port e' <= 65535).
Proof.
  intros Hw. split_and!; [| |apply parse_server_Ok|apply parse_target_Ok]; intros Hp.
  - unfold parse_server. rewrite split_endpoint_text by (done || lia). cbn.
    rewrite decide_False by apply Hw. rewrite parse_port_pretty by lia. cbn.
    rewrite decide_False by lia. by destruct e.
  - unfold parse_target. rewrite endpoint_text_no_colon by done.
    rewrite split_endpoint_text by (done || lia). cbn.
    rewrite decide_False by apply Hw. rewrite parse_port_pretty by lia. cbn.
    rewrite decide_False by lia. by destruct e.
Qed.

(** ** IPv4 literals *)

Lemma take_digits_app radix s ds rest :
  take_digits radix s = (ds, EmptyString) →
  take_digits radix rest = ([], rest) →
  take_digits radix (s +:+ rest) = (ds, rest).
Proof.
  revert ds. induction s as [|a s IH]; intros ds Hs Hr; [by injection Hs as <-|].
  rewrite append_cons. simpl in Hs |- *.
  destruct (to_digit radix a); [|done]. destruct (take_digits radix s) as [ds' r].
  injection Hs as <- ->. by rewrite (IH ds').
Qed.

Definition octet_ok (n : Z) : bool :=
  let '(ds, rest) := take_digits 10 (pretty n) in
  bool_decide (rest = EmptyString) &&
  bool_decide (read_number 10 3 false 255 (pretty n) = Some (n, EmptyString)).

Lemma octets_ok : forallb octet_ok (seqZ 0 256) = true.
Proof. vm_compute. reflexivity. Qed.

Lemma read_octet n rest :
  0 <= n <= 255 → take_digits 10 rest = ([], rest) →
  read_number 10 3 false 255 (pretty n +:+ rest) = Some (n, rest).
Proof.
  intros Hn Hr. pose proof octets_ok as H. rewrite forallb_forall in H.
  specialize (H n). unfold octet_ok in H.
  destruct (take_digits 10 (pretty n)) as [ds r] eqn:E.
  rewrite andb_true_iff, !bool_decide_eq_true in H.
  destruct H as [-> H]; [apply list_elem_of_In, elem_of_seqZ; lia|].
  unfold read_number in *. rewrite E in H. rewrite (take_digits_app _ _ _ _ E Hr).
  repeat case_match; simplify_eq/=; done.
Qed.

Lemma read_last_octet n :
  0 <= n <= 255 → read_number 10 3 false 255 (pretty n) = Some (n, EmptyString).
Proof.
  intros Hn. pose proof octets_ok as H. rewrite forallb_forall in H.
  specialize (H n). unfold octet_ok in H. destruct (take_digits 10 (pretty n)) as [ds r].
  rewrite andb_true_iff, !bool_decide_eq_true in H.
  apply H, list_elem_of_In, elem_of_seqZ. lia.
Qed.

Lemma parse_ipv4_text a b c d :
  0 <= a <= 255 → 0 <= b <= 255 → 0 <= c <= 255 → 0 <= d <= 255 →
  parse_ip (ipv4_text a b c d) = Some (V4 a b c d).
Proof.
  intros Ha Hb Hc Hd. unfold parse_ip, ipv4_text, read_ipv4. cbn [read_separator].
  do 3 (rewrite read_octet by done; cbn [mbind option_bind];
    change (strip_prefix "." ("." +:+ ?s)) with (Some s); cbn [mbind option_bind]).
  by rewrite read_last_octet.
Qed.

(** The text of an IPv4 listen address is parsed back to it. *)
Lemma listen_roundtrip a b c d p :
  0 <= a <= 255 → 0 <= b <= 255 → 0 <= c <= 255 → 0 <= d <= 255 → 1024 <= p <= 65535 →
  parse_listen (display_addr (mkSocketAddr (V4 a b c d) p)) = Ok (mkSocketAddr (V4 a b c d) p).
Proof.
  intros Ha Hb Hc Hd Hp. unfold parse_listen, display_addr. cbn [ip port is_ipv6 ip_text].
  set (t := ipv4_text a b c d).
  assert (∀ x, to_digit 10 x = None → x ≠ "."%char → contains x t = false) as Hno.
  { intros x Hx Hdot. unfold t, ipv4_text. rewrite !contains_app, !pretty_contains by (done || lia).
    rewrite (contains_cons x "."), bool_decide_false by congruence. done. }
  assert (parse_ip t = Some (V4 a b c d)) as Hip by by apply parse_ipv4_text.
  assert (t ≠ EmptyString) as Hne by by intros E; rewrite E in Hip.
  rewrite strip_prefix_solid by (try done; by apply contains_strip_prefix, Hno).
  rewrite split_plain by (try lia; auto using contains_strip_prefix).
  cbn [ok_or mbind result_bind]. rewrite Hip. cbn [ok_or mbind result_bind].
  rewrite parse_port_pretty by lia. cbn [mbind result_bind]. by rewrite decide_False by lia.
Qed.

(** ** Dialing *)

Section dial.
Context (io_text : IoError → string) (env : DialEnv).

(** The [j]-th address was tried in time, with the outcome [r]. *)
Definition tried (deadline : Instant) (j : nat) (a : SocketAddr) (r : result IoError unit) : Prop :=
  0 < deadline - de_now env (j + 2) ∧
  de_connect env j (deadline - de_now env (j + 2)) a = Some r.

Lemma dial_remaining_Ok d t n : dial_remaining d t = Ok n ↔ n = d - t ∧ 0 < d - t.
Proof. unfold dial_remaining. case_decide; split; intros; simplify_eq; naive_solver lia. Qed.

Lemma dial_loop_Ok e deadline i addrs last a :
  dial_loop io_text env e deadline i addrs last = Ok a ↔
  de_nodelay env = Ok () ∧ ∃ k, addrs !! k = Some a ∧ tried deadline (i + k) a (Ok ()) ∧
    ∀ j b, (j < k)%nat → addrs !! j = Some b → ∃ err, tried deadline (i + j) b (Err err).
Proof.
  revert i last. induction addrs as [|x addrs IH]; intros i last.
  { split; [done|]. by intros (_ & k & Hk & _). }
  cbn [dial_loop]. split.
  - intros (n & [-> Hn]%dial_remaining_Ok & H)%result_bind_Ok.
    destruct (de_connect _ _ _ _) as [[[]|err]|] eqn:E; [| |done].
    + destruct (de_nodelay env) as [[]|]; [|done]. injection H as <-. split; [done|].
      exists 0%nat. unfold tried. rewrite Nat.add_0_r. split_and!; [done..|]. lia.
    + apply IH in H as (Hd & k & Hk & Ht & Hj). split; [done|]. exists (S k).
      rewrite <-Nat.add_succ_comm. split_and!; [done..|]. intros [|j] b Hlt Hb.
      * injection Hb as <-. exists err. unfold tried. by rewrite Nat.add_0_r.
      * rewrite <-Nat.add_succ_comm. by apply Hj; [lia|].
  - intros (Hd & k & Hk & Ht & Hj). destruct k as [|k].
    + injection Hk as <-. rewrite Nat.add_0_r in Ht. destruct Ht as [Hn Hc].
      assert (dial_remaining deadline (de_now env (i + 2)) = Ok (deadline - de_now env (i + 2)))
        as -> by by apply dial_remaining_Ok.
      cbn. by rewrite Hc, Hd.
    + destruct (Hj 0%nat x) as (err & Hn & Hc); [lia|done|]. rewrite Nat.add_0_r in Hn, Hc.
      assert (dial_remaining deadline (de_now env (i + 2)) = Ok (deadline - de_now env (i + 2)))
        as -> by by apply dial_remaining_Ok.
      cbn. rewrite Hc. apply IH. split; [done|]. exists k.
      rewrite <-Nat.add_succ_comm in Ht. split_and!; [done..|].
      intros j b Hlt Hb. rewrite Nat.add_succ_comm. by apply Hj; [lia|].
Qed.

(** Dialing tries the addresses of the endpoint in the order of the resolver
    and within the budget: it succeeds with an address exactly when the name was
    resolved in time, every address before it was tried in the time that was
    left and failed, and it was tried in the time that was left and connected. *)
Lemma dial_in_order e budget a :
  let deadline := de_now env 0 + budget in
  dial io_text env e budget = Ok a ↔
  0 < deadline - de_now env 1 ∧ de_nodelay env = Ok () ∧
  ∃ addrs k, de_lookup env (deadline - de_now env 1) (dial_name e) = Some (Ok addrs) ∧
    addrs !! k = Some a ∧ tried deadline k a (Ok ()) ∧
    ∀ j b, (j < k)%nat → addrs !! j = Some b → ∃ err, tried deadline j b (Err err).
Proof.
  intros deadline. unfold dial. fold deadline. split.
  - intros (n & [-> Hn]%dial_remaining_Ok & H)%result_bind_Ok. split; [done|].
    destruct (de_lookup _ _ _) as [[[|x addrs]|]|]; [done| |done..].
    apply dial_loop_Ok in H as (Hd & k & H). split; [done|]. by exists (x :: addrs), k.
  - intros (Hn & Hd & addrs & k & Hl & H).
    assert (dial_remaining deadline (de_now env 1) = Ok (deadline - de_now env 1))
      as -> by by apply dial_remaining_Ok.
    cbn. rewrite Hl. destruct addrs as [|x addrs]; [by destruct H as [Hk _]|].
    apply dial_loop_Ok. split; [done|]. by exists k.
Qed.
End dial.
