(* ===== verification/AddrFacts.v ===== *)
(** * Addresses and their texts

    [IpAddr::from_str] reads back what [Display] writes, for every IPv4 and
    IPv6 address: the dotted quad, the eight groups, the longest run of zero
    groups written as [::], and an IPv4-mapped address with its dotted quad.
    With it the socket addresses the program writes are read back. *)

From stdpp Require Import pretty.
From Stdlib Require Import Strings.Ascii Strings.String.
From S2P Require Import Prelude Errors Timing Text TextFacts Net NetFacts.

Local Open Scope Z_scope.

(** ** Groups *)

(** The digits of a group, without leading zeros. *)
Definition hex_digits (n : Z) : list Z :=
  let ds := [n / 4096; n / 256 mod 16; n / 16 mod 16; n mod 16] in
  match drop_while (λ d, d =? 0) ds with [] => [0] | ds => ds end.

Lemma hex_text_digits n : hex_text n = string_of_list_ascii (hex_digit <$> hex_digits n).
Proof. done. Qed.

Definition is_hex (d : Z) : Prop := 0 <= d < 16.

Lemma hex_cases (P : Z → Prop) :
  (∀ n : nat, (n < 16)%nat → P (Z.of_nat n)) → ∀ d, is_hex d → P d.
Proof.
  unfold is_hex. intros H d Hd. replace d with (Z.of_nat (Z.to_nat d)) by lia. apply H. lia.
Qed.

Lemma to_digit_hex d : is_hex d → to_digit 16 (hex_digit d) = Some d.
Proof.
  revert d. apply hex_cases. intros n Hn.
  do 16 (destruct n as [|n]; [vm_compute; done|]). lia.
Qed.

Lemma hex_digit_plain d c :
  c = "."%char ∨ c = ":"%char ∨ c = "]"%char → is_hex d → hex_digit d ≠ c.
Proof.
  intros Hc Hd E. pose proof (to_digit_hex d Hd) as H. rewrite E in H.
  by destruct Hc as [->|[->| ->]].
Qed.

Lemma hex_digits_hex n : 0 <= n <= 65535 → Forall is_hex (hex_digits n).
Proof.
  intros Hn. unfold hex_digits.
  assert (Forall is_hex [n / 4096; n / 256 mod 16; n / 16 mod 16; n mod 16]) as H.
  { unfold is_hex. repeat (apply Forall_cons; split); try apply Z.mod_pos_bound; try done.
    split; [apply Z.div_pos; lia|apply Z.div_lt_upper_bound; lia]. }
  revert H. generalize [n / 4096; n / 256 mod 16; n / 16 mod 16; n mod 16]. intros l H.
  assert (Forall is_hex (drop_while (λ d, d =? 0) l)) as H'.
  { induction H as [|d l Hd Hl IH]; simpl; [done|]. destruct (d =? 0); [done|by constructor]. }
  destruct (drop_while _ l); [|done]. apply Forall_singleton. unfold is_hex. lia.
Qed.

Lemma hex_digits_length n : (1 ≤ List.length (hex_digits n) ≤ 4)%nat.
Proof.
  unfold hex_digits. simpl. destruct (n / 4096 =? 0); [|simpl; lia].
  destruct (n / 256 mod 16 =? 0); [|simpl; lia].
  destruct (n / 16 mod 16 =? 0); [|simpl; lia].
  destruct (n mod 16 =? 0); simpl; lia.
Qed.

Definition digits_value (ds : list Z) : Z := foldl (λ acc d, acc * 16 + d) 0 ds.

Lemma digits_value_drop ds : digits_value (drop_while (λ d, d =? 0) ds) = digits_value ds.
Proof.
  unfold digits_value. induction ds as [|d ds IH]; simpl; [done|].
  destruct (Z.eqb_spec d 0) as [->|]; [done|]. done.
Qed.

Lemma hex_digits_value n : 0 <= n <= 65535 → digits_value (hex_digits n) = n.
Proof.
  intros Hn. unfold hex_digits.
  set (ds := [n / 4096; n / 256 mod 16; n / 16 mod 16; n mod 16]).
  assert (digits_value (match drop_while (λ d, d =? 0) ds with [] => [0] | ds => ds end) =
    digits_value (drop_while (λ d, d =? 0) ds)) as -> by by destruct (drop_while _ ds).
  rewrite digits_value_drop. unfold digits_value, ds. simpl.
  replace (n / 4096) with (n / 16 / 16 / 16) by (rewrite !Z.div_div by lia; done).
  replace (n / 256) with (n / 16 / 16) by (rewrite !Z.div_div by lia; done).
  pose proof (Z.div_mod n 16). pose proof (Z.div_mod (n / 16) 16).
  pose proof (Z.div_mod (n / 16 / 16) 16). lia.
Qed.

Lemma take_digits_hex ds rest :
  Forall is_hex ds → take_digits 16 rest = ([], rest) →
  take_digits 16 (string_of_list_ascii (hex_digit <$> ds) +:+ rest) = (ds, rest).
Proof.
  intros H Hr. induction H as [|d ds Hd _ IH]; [done|].
  cbn [fmap list_fmap string_of_list_ascii]. rewrite append_cons. simpl.
  by rewrite to_digit_hex, IH.
Qed.

Lemma read_group g rest :
  0 <= g <= 65535 → take_digits 16 rest = ([], rest) →
  read_number 16 4 true 65535 (hex_text g +:+ rest) = Some (g, rest).
Proof.
  intros Hg Hr. unfold read_number.
  rewrite hex_text_digits, take_digits_hex by (done || by apply hex_digits_hex).
  pose proof (hex_digits_length g). pose proof (hex_digits_value g Hg) as Hv.
  unfold digits_value in Hv. rewrite Hv. by rewrite decide_False by lia.
Qed.

Lemma group_plain g c :
  c = "."%char ∨ c = ":"%char ∨ c = "]"%char → 0 <= g <= 65535 → contains c (hex_text g) = false.
Proof.
  intros Hc Hg. rewrite hex_text_digits. pose proof (hex_digits_hex g Hg) as H. revert H.
  induction 1 as [|d ds Hd _ IH]; [done|]. cbn [fmap list_fmap string_of_list_ascii].
  rewrite contains_cons, IH, orb_false_r. apply bool_decide_false.
  intros E. by apply (hex_digit_plain d c).
Qed.

(** ** Runs of groups *)

Definition is_group (g : Z) : Prop := 0 <= g <= 65535.

(** The groups from position [i] on, each but the very first after a colon. *)
Fixpoint groups_text (i : nat) (l : list Z) : string :=
  match l with
  | [] => EmptyString
  | g :: l => match i with O => hex_text g | _ => String ":" (hex_text g) end
                +:+ groups_text (S i) l
  end.

Lemma segments_groups l : segments_text l = groups_text 0 l.
Proof.
  assert (∀ l i, groups_text (S i) l =
    match l with [] => EmptyString | _ => ":" +:+ segments_text l end) as Hs.
  { clear l. induction l as [|g l IH]; intros i; [done|]. cbn [groups_text]. rewrite IH.
    destruct l; [by rewrite append_nil_r|]. by rewrite append_cons. }
  destruct l as [|g l]; [done|]. cbn [groups_text]. rewrite Hs.
  destruct l; [by rewrite append_nil_r|done].
Qed.

Lemma groups_plain i l c :
  c = "."%char ∨ c = "]"%char → Forall is_group l → contains c (groups_text i l) = false.
Proof.
  intros Hc H. revert i. induction H as [|g l Hg _ IH]; intros i; [done|]. cbn [groups_text].
  assert (contains c (hex_text g) = false) as Hx by (apply group_plain; [naive_solver|done]).
  rewrite contains_app, IH, orb_false_r. destruct i; [done|].
  rewrite contains_cons, Hx, orb_false_r. apply bool_decide_false. by destruct Hc as [->| ->].
Qed.

(** Without a dot there is no dotted quad. *)
Lemma take_digits_contains c radix s ds rest :
  take_digits radix s = (ds, rest) → contains c s = false → contains c rest = false.
Proof.
  revert ds. induction s as [|a s IH]; intros ds H; simpl in H; [by injection H as _ <-|].
  destruct (to_digit radix a); [|by injection H as _ <-].
  destruct (take_digits radix s) as [ds' r]. injection H as _ <-.
  rewrite contains_cons. intros [_ Hs]%orb_false_iff. by eapply IH.
Qed.

Lemma read_number_rest radix n zero max s v rest :
  read_number radix n zero max s = Some (v, rest) → ∃ ds, take_digits radix s = (ds, rest).
Proof.
  unfold read_number. destruct (take_digits radix s) as [ds r].
  case_decide; [done|]. case_match; [done|]. intros [= _ <-]. by exists ds.
Qed.

Lemma read_ipv4_no_dot s : contains "." s = false → read_ipv4 s = None.
Proof.
  intros Hs. unfold read_ipv4. cbn [read_separator].
  destruct (read_number 10 3 false 255 s) as [[a rest]|] eqn:E; [|done].
  apply read_number_rest in E as [ds E]. cbn [mbind option_bind].
  rewrite (contains_strip_prefix "." rest); [done|]. by eapply take_digits_contains.
Qed.

(** Where the reader of groups stops: no digit comes, also not after a colon. *)
Definition stops (rest : string) : Prop :=
  take_digits 16 rest = ([], rest) ∧ contains "." rest = false ∧
  ∀ x, strip_prefix ":" rest = Some x → take_digits 16 x = ([], x).

Lemma read_number_none radix n zero max s :
  take_digits radix s = ([], s) → read_number radix n zero max s = None.
Proof. intros H. unfold read_number. rewrite H. by rewrite decide_True by (by left). Qed.

Lemma strip_prefix_contains c d s x :
  strip_prefix d s = Some x → contains c s = false → contains c x = false.
Proof.
  destruct s as [|a s]; simpl; [done|]. case_decide; [|done]. intros [= <-].
  rewrite contains_cons. by intros [_ ?]%orb_false_iff.
Qed.

Lemma separator_no_dot i s :
  contains "." s = false → read_separator ":" i read_ipv4 s = None.
Proof.
  intros Hs. destruct i; simpl; [by apply read_ipv4_no_dot|].
  destruct (strip_prefix ":" s) as [x|] eqn:E; [|done]. cbn [mbind option_bind].
  eapply read_ipv4_no_dot, strip_prefix_contains; done.
Qed.

Lemma read_groups_text l n i rest :
  Forall is_group l → (List.length l ≤ n)%nat → stops rest →
  read_groups n i (groups_text i l +:+ rest) = (l, false, rest).
Proof.
  intros H Hn (Hr & Hd & Hc). revert n i Hn.
  induction H as [|g l Hg Hl IH]; intros n i Hn; destruct n as [|n]; simpl in Hn; try lia; [done|..].
  - cbn [groups_text read_groups]. change (EmptyString +:+ rest) with rest.
    assert ((if decide (1 ≤ n)%nat then read_separator ":" i read_ipv4 rest else None) = None)
      as -> by (case_decide; [by apply separator_no_dot|done]).
    destruct i; simpl; [by rewrite read_number_none|].
    destruct (strip_prefix ":" rest) as [x|]; [|done]. cbn [mbind option_bind].
    by rewrite read_number_none by by apply Hc.
  - cbn [groups_text read_groups].
    set (tail := groups_text (S i) l +:+ rest).
    assert (contains "." tail = false) as Ht.
    { unfold tail. rewrite contains_app, groups_plain, Hd by (done || by left). done. }
    assert (take_digits 16 tail = ([], tail)) as Htd.
    { unfold tail. destruct l; [done|]. done. }
    assert (∀ s, contains "." s = false →
      (if decide (1 ≤ n)%nat then read_separator ":" i read_ipv4 s else None) = None) as Hno
      by (intros; case_decide; [by apply separator_no_dot|done]).
    rewrite append_assoc. fold tail.
    assert (contains "." (hex_text g) = false) as Hgd by (apply group_plain; [by left|done]).
    rewrite Hno.
    + destruct i; simpl.
      * rewrite read_group by done. cbn. unfold tail. rewrite IH by lia. done.
      * rewrite append_cons. simpl. rewrite read_group by done. cbn. unfold tail.
        rewrite IH by lia. done.
    + rewrite contains_app, Ht, orb_false_r. destruct i; [done|].
      rewrite contains_cons, Hgd. done.
Qed.

(** ** The longest run of zeros *)

Definition zeros_at (l : list Z) (run : nat * nat) : Prop :=
  ∀ k, (run.1 ≤ k < run.1 + run.2)%nat → l !! k = Some 0.

Lemma longest_zeros_spec l0 l i current longest :
  drop i l0 = l → zeros_at l0 current → zeros_at l0 longest →
  (current.2 = 0%nat ∨ current.1 + current.2 = i)%nat →
  zeros_at l0 (longest_zeros l i current longest).
Proof.
  revert i current longest. induction l as [|g l IH]; intros i current longest Hl Hc Hb Hi; [done|].
  assert (l0 !! i = Some g) as Hg.
  { rewrite <-(Nat.add_0_r i), <-lookup_drop, Hl. done. }
  assert (drop (S i) l0 = l) as Hl'.
  { rewrite <-Nat.add_1_r, <-drop_drop, Hl. done. }
  cbn [longest_zeros]. case_decide as Hz.
  - subst g. set (current' := match current with (_, O) => (i, 1%nat) | (s, n) => (s, S n) end).
    assert (zeros_at l0 current' ∧ (current'.1 + current'.2 = S i)%nat) as [Hc' Hi'].
    { destruct current as [s [|n]]; unfold current', zeros_at in *; simpl in *.
      - split; [|lia]. intros k Hk. by replace k with i by lia.
      - destruct Hi as [Hi|Hi]; [lia|]. split; [|lia]. intros k Hk.
        destruct (decide (k = i)) as [->|]; [done|]. apply Hc. lia. }
    apply IH; [done|done|by case_decide|by right].
  - apply IH; [done| |done|by left]. intros k Hk. simpl in Hk. lia.
Qed.

Lemma zeros_split l run :
  zeros_at l run → (run.1 + run.2 ≤ List.length l)%nat →
  l = take run.1 l ++ replicate run.2 0 ++ drop (run.1 + run.2) l.
Proof.
  intros Hz Hl. apply list_eq. intros k. destruct (decide (k < run.1)%nat).
  - rewrite lookup_app_l by (rewrite length_take; lia). by rewrite lookup_take_lt.
  - rewrite lookup_app_r by (rewrite length_take; lia). rewrite length_take.
    replace (run.1 `min` List.length l)%nat with run.1 by lia.
    destruct (decide (k < run.1 + run.2)%nat).
    + rewrite Hz by lia. rewrite lookup_app_l by (rewrite length_replicate; lia).
      symmetry. apply lookup_replicate_2. lia.
    + rewrite lookup_app_r by (rewrite length_replicate; lia).
      rewrite length_replicate, lookup_drop. f_equal. lia.
Qed.

(** ** Parsing a text back *)

Definition wf_ip (a : IpAddr) : Prop :=
  match a with
  | V4 a b c d => Forall (λ n, 0 <= n <= 255) [a; b; c; d]
  | V6 a b c d e f g h => Forall is_group [a; b; c; d; e; f; g; h]
  end.

Lemma stops_nil : stops EmptyString.
Proof. done. Qed.

Lemma stops_gap l : Forall is_group l → stops ("::" +:+ groups_text 0 l).
Proof.
  intros H. split; [done|]. split.
  - change ("::" +:+ ?s) with (String ":" (String ":" s)).
    rewrite !contains_cons, groups_plain by (done || by left). done.
  - by intros x [= <-].
Qed.

Lemma of_segments_V6 a b c d e f g h :
  of_segments [a; b; c; d; e; f; g; h] = Some (V6 a b c d e f g h).
Proof. done. Qed.

(** Eight groups. *)
Lemma read_ipv6_full l a :
  Forall is_group l → of_segments l = Some a →
  read_ipv6 (groups_text 0 l) = Some (a, EmptyString).
Proof.
  intros Hl Ha. assert (List.length l = 8%nat) as Hlen
    by (do 8 (destruct l as [|? l]; [done|]); by destruct l).
  unfold read_ipv6. rewrite <-(append_nil_r (groups_text 0 l)).
  rewrite read_groups_text by (done || lia). rewrite decide_True by done. by rewrite Ha.
Qed.

(** Fewer groups on both sides of a gap. *)
Lemma read_ipv6_gap front n back a :
  Forall is_group front → Forall is_group back → (2 ≤ n)%nat →
  of_segments (front ++ replicate n 0 ++ back) = Some a →
  read_ipv6 (groups_text 0 front +:+ "::" +:+ groups_text 0 back) = Some (a, EmptyString).
Proof.
  intros Hf Hb Hn Ha.
  assert (List.length front + n + List.length back = 8)%nat as Hlen.
  { assert (List.length (front ++ replicate n 0 ++ back) = 8%nat) as E.
    { revert Ha. generalize (front ++ replicate n 0 ++ back). intros l Ha.
      do 8 (destruct l as [|? l]; [done|]). by destruct l. }
    rewrite !length_app, length_replicate in E. lia. }
  unfold read_ipv6. rewrite read_groups_text by (try lia; try done; by apply stops_gap).
  rewrite decide_False by lia.
  change (strip_prefix ":" ("::" +:+ ?s)) with (Some (String ":" s)). cbn [mbind option_bind].
  change (strip_prefix ":" (String ":" ?s)) with (Some s). cbn [mbind option_bind].
  rewrite <-(append_nil_r (groups_text 0 back)), read_groups_text by (done || lia).
  replace (8 - List.length front - List.length back)%nat with n by lia. by rewrite Ha.
Qed.

Lemma read_groups_none n s :
  take_digits 10 s = ([], s) → take_digits 16 s = ([], s) → read_groups n 0 s = ([], false, s).
Proof.
  intros Hd Hh. destruct n as [|n]; [done|]. cbn [read_groups read_separator].
  assert (read_ipv4 s = None) as ->
    by (unfold read_ipv4; cbn [read_separator]; by rewrite read_number_none).
  rewrite (read_number_none 16) by done. by case_decide.
Qed.

(** The dotted quad at the end of a mapped address. *)
Lemma read_ipv4_text a b c d :
  Forall (λ n, 0 <= n <= 255) [a; b; c; d] →
  read_ipv4 (ipv4_text a b c d) = Some ((a, b, c, d), EmptyString).
Proof.
  rewrite !Forall_cons. intros (Ha & Hb & Hc & Hd & _). unfold ipv4_text, read_ipv4.
  cbn [read_separator].
  do 3 (rewrite read_octet by done; cbn [mbind option_bind];
    change (strip_prefix "." ("." +:+ ?s)) with (Some s); cbn [mbind option_bind]).
  by rewrite read_last_octet.
Qed.

Lemma read_ipv6_mapped a b c d :
  Forall (λ n, 0 <= n <= 255) [a; b; c; d] →
  read_ipv6 ("::ffff:" +:+ ipv4_text a b c d) =
    Some (V6 0 0 0 0 0 65535 (a * 256 + b) (c * 256 + d), EmptyString).
Proof.
  intros H. set (t := ipv4_text a b c d).
  change ("::ffff:" +:+ t) with (String ":" (String ":" ("ffff" +:+ String ":" t))).
  unfold read_ipv6. rewrite read_groups_none by done. rewrite decide_False by done.
  change (strip_prefix ":" (String ":" ?s)) with (Some s). cbn [mbind option_bind].
  change (strip_prefix ":" (String ":" ?s)) with (Some s). cbn [mbind option_bind].
  change (8 - (List.length (@nil Z) + 1))%nat with 7%nat.
  assert (read_groups 7 0 ("ffff" +:+ String ":" t) =
    ([65535; a * 256 + b; c * 256 + d], true, EmptyString)) as ->.
  { cbn [read_groups]. rewrite decide_True by lia. cbn [read_separator].
    assert (read_ipv4 ("ffff" +:+ String ":" t) = None) as ->
      by (unfold read_ipv4; cbn [read_separator]; by rewrite read_number_none by done).
    change "ffff" with (hex_text 65535). rewrite read_group by (done || lia).
    cbn [read_groups]. rewrite decide_True by lia. cbn [read_separator].
    change (strip_prefix ":" (String ":" t)) with (Some t). cbn [mbind option_bind].
    unfold t. by rewrite read_ipv4_text. }
  done.
Qed.

(** The three shapes of an IPv6 text. *)
Lemma ip_text_V6 a b c d e f g h :
  ip_text (V6 a b c d e f g h) =
  let l := [a; b; c; d; e; f; g; h] in
  if decide ([a; b; c; d; e; f] = [0; 0; 0; 0; 0; 65535]) then
    "::ffff:" +:+ ipv4_text (g / 256) (g mod 256) (h / 256) (h mod 256)
  else
    let run := longest_zeros l 0 (0%nat, 0%nat) (0%nat, 0%nat) in
    if decide (1 < run.2)%nat then
      segments_text (take run.1 l) +:+ "::" +:+ segments_text (drop (run.1 + run.2) l)
    else segments_text l.
Proof.
  cbv zeta. case_decide as Hd; [by injection Hd as -> -> -> -> -> ->|].
  unfold ip_text. destruct (longest_zeros _ _ _ _) as [start n]. simpl fst. simpl snd.
  destruct a, b, c, d, e; try done. destruct f as [|p|]; try done.
  do 15 (destruct p as [p|p|]; try done). by destruct p.
Qed.

(** Every IP address is read back from its text. *)
Lemma parse_ip_text a : wf_ip a → parse_ip (ip_text a) = Some a.
Proof.
  destruct a as [a b c d|a b c d e f g h]; intros Hwf; simpl in Hwf.
  { unfold parse_ip. cbn [ip_text]. by rewrite read_ipv4_text. }
  rewrite ip_text_V6. cbv zeta.
  assert (of_segments [a; b; c; d; e; f; g; h] = Some (V6 a b c d e f g h)) as Hseg by done.
  revert Hseg. generalize (V6 a b c d e f g h). intros addr Hseg.
  case_decide as Hd.
  - injection Hd as -> -> -> -> -> ->. rewrite !Forall_cons in Hwf.
    destruct Hwf as (_ & _ & _ & _ & _ & _ & Hg & Hh & _). unfold is_group in *.
    assert (Forall (λ n, 0 <= n <= 255) [g / 256; g mod 256; h / 256; h mod 256]) as Hq.
    { assert (∀ x, 0 <= x <= 65535 → 0 <= x / 256 <= 255 ∧ 0 <= x mod 256 <= 255) as Hx.
      { intros x Hx. pose proof (Z.mod_pos_bound x 256). pose proof (Z.div_pos x 256).
        assert (x / 256 < 256) by (apply Z.div_lt_upper_bound; lia). lia. }
      destruct (Hx g Hg), (Hx h Hh). by rewrite !Forall_cons. }
    unfold parse_ip.
    assert (read_ipv4 ("::ffff:" +:+ ipv4_text (g / 256) (g mod 256) (h / 256) (h mod 256)) = None)
      as -> by (unfold read_ipv4; cbn [read_separator]; by rewrite read_number_none by done).
    rewrite read_ipv6_mapped by done. cbn [mbind option_bind].
    injection Hseg as <-. pose proof (Z.div_mod g 256). pose proof (Z.div_mod h 256).
    repeat f_equal; lia.
  - clear Hd. set (l := [a; b; c; d; e; f; g; h]) in *.
    assert (List.length l = 8%nat) as Hlen by done. clearbody l.
    set (run := longest_zeros l 0 (0%nat, 0%nat) (0%nat, 0%nat)).
    assert (∀ t, contains "." t = false → read_ipv6 t = Some (addr, EmptyString) →
      parse_ip t = Some addr) as Hparse.
    { intros t Ht Hr. unfold parse_ip. by rewrite read_ipv4_no_dot, Hr. }
    rewrite !segments_groups. case_decide as Hn; apply Hparse.
    + rewrite !contains_app, !groups_plain; [done|by left|by apply Forall_drop|by left|by apply Forall_take].
    + assert (zeros_at l run) as Hz.
      { apply longest_zeros_spec; [done|..|by left]; intros k Hk; simpl in Hk; lia. }
      assert (run.1 + run.2 ≤ List.length l)%nat as Hle.
      { destruct (decide (run.1 + run.2 ≤ List.length l)%nat); [done|].
        assert (l !! (run.1 + run.2 - 1)%nat = Some 0) as Hx by (apply Hz; lia).
        apply lookup_lt_Some in Hx. lia. }
      apply (read_ipv6_gap _ run.2); [by apply Forall_take|by apply Forall_drop|lia|].
      by rewrite <-zeros_split.
    + by apply groups_plain; [left|].
    + by apply read_ipv6_full.
Qed.

(** ** What is parsed is an address *)

Lemma take_digits_range radix s ds rest :
  take_digits radix s = (ds, rest) → Forall (λ d, 0 <= d < radix) ds.
Proof.
  revert ds. induction s as [|x s IH]; intros ds H; simpl in H; [by injection H as <- _|].
  destruct (to_digit radix x) as [d|] eqn:E; [|by injection H as <- _].
  destruct (take_digits radix s) as [ds' r]. injection H as <- <-.
  constructor; [by eapply to_digit_range|by eapply IH].
Qed.

Lemma read_number_range radix n zero max s v rest :
  0 <= radix → read_number radix n zero max s = Some (v, rest) → 0 <= v <= max.
Proof.
  intros Hradix. unfold read_number. destruct (take_digits radix s) as [ds r] eqn:E.
  apply take_digits_range in E. case_decide as Hd; [done|]. case_match; [done|]. intros [= <- _].
  split; [|lia]. clear Hd.
  assert (∀ acc, 0 <= acc → 0 <= foldl (λ acc d, acc * radix + d) acc ds) as Hf; [|by apply Hf].
  clear H. induction E as [|d ds [Hd _] _ IH]; intros acc Ha; [done|]. cbn [foldl].
  apply IH. pose proof (Z.mul_nonneg_nonneg acc radix Ha Hradix). lia.
Qed.

Lemma read_separator_Some {A} sep i (p : string → option (A * string)) s x :
  read_separator sep i p s = Some x → ∃ s', p s' = Some x.
Proof. destruct i; simpl; [eauto|]. intros (s' & _ & H)%bind_Some. eauto. Qed.

Lemma read_ipv4_range s a b c d rest :
  read_ipv4 s = Some ((a, b, c, d), rest) → Forall (λ n, 0 <= n <= 255) [a; b; c; d].
Proof.
  assert (∀ i t v r, read_separator "." i (read_number 10 3 false 255) t = Some (v, r) →
    0 <= v <= 255) as Ho.
  { intros i t v r [t' Ht]%read_separator_Some. by eapply read_number_range; [|exact Ht]. }
  unfold read_ipv4. intros ([x1 s1] & H1%Ho & H)%bind_Some.
  apply bind_Some in H as ([x2 s2] & H2%Ho & H). apply bind_Some in H as ([x3 s3] & H3%Ho & H).
  apply bind_Some in H as ([x4 s4] & H4%Ho & [= -> -> -> -> _]). by rewrite !Forall_cons.
Qed.

Lemma read_groups_range n i s l v4 rest :
  read_groups n i s = (l, v4, rest) → Forall is_group l.
Proof.
  revert i s l v4 rest. induction n as [|n IH]; intros i s l v4 rest H; simpl in H;
    [by injection H as <- _ _|].
  destruct (if decide (1 ≤ n)%nat then _ else None) as [[[[[a b] c] d] r]|] eqn:E.
  - injection H as <- _ _. case_decide; [|done].
    apply read_separator_Some in E as [s' Hr%read_ipv4_range]. rewrite !Forall_cons in *.
    destruct Hr as (? & ? & ? & ? & _). unfold is_group. split_and!; done || lia.
  - destruct (read_separator ":" i (read_number 16 4 true 65535) s) as [[g r]|] eqn:Eg; [|by injection H as <- _ _].
    apply read_separator_Some in Eg as [s' Hg%read_number_range]; [|done].
    destruct (read_groups n (S i) r) as [[gs b] r'] eqn:Er. injection H as <- _ _.
    constructor; [done|]. by eapply IH.
Qed.

Lemma of_segments_wf l a : of_segments l = Some a → Forall is_group l → wf_ip a.
Proof. do 8 (destruct l as [|? l]; [done|]). destruct l; [|done]. by intros [= <-]. Qed.

Lemma read_ipv6_wf s a rest : read_ipv6 s = Some (a, rest) → wf_ip a.
Proof.
  unfold read_ipv6. destruct (read_groups 8 0 s) as [[front v4] r] eqn:Ef.
  apply read_groups_range in Ef. case_decide.
  - intros (x & Hx & [= -> _])%bind_Some. by eapply of_segments_wf.
  - destruct v4; [done|]. intros (s1 & _ & H1)%bind_Some. apply bind_Some in H1 as (s2 & _ & H2).
    destruct (read_groups _ 0 s2) as [[back v4'] r'] eqn:Eb. apply read_groups_range in Eb.
    apply bind_Some in H2 as (x & Hx & [= -> _]). eapply of_segments_wf; [done|].
    apply Forall_app_2; [done|]. apply Forall_app_2; [|done].
    apply Forall_replicate. unfold is_group. lia.
Qed.

Lemma parse_ip_wf s a : parse_ip s = Some a → wf_ip a.
Proof.
  unfold parse_ip. intros ([x r] & H & Hr)%bind_Some. destruct r; [|done]. injection Hr as ->.
  destruct (read_ipv4 s) as [[[[[b c] d] e] r]|] eqn:E; [|by eapply read_ipv6_wf].
  injection H as <- _. by apply read_ipv4_range in E.
Qed.

(** ** Socket addresses *)

Lemma ip_text_V6_bracket a b c d e f g h :
  wf_ip (V6 a b c d e f g h) → contains "]" (ip_text (V6 a b c d e f g h)) = false.
Proof.
  intros Hwf. rewrite ip_text_V6. cbv zeta. simpl in Hwf. case_decide.
  - rewrite !Forall_cons in Hwf. unfold is_group in Hwf. unfold ipv4_text.
    rewrite !contains_app, !pretty_contains by
      (done || (try apply Z.div_pos; try apply Z.mod_pos_bound; lia)). done.
  - rewrite !segments_groups. case_decide.
    + rewrite !contains_app, !groups_plain;
        [done|by right|by apply Forall_drop|by right|by apply Forall_take].
    + by apply groups_plain; [right|].
Qed.

(** (C27) Addresses round-trip through their text.  Every IP address, the
    compressed and the IPv4-mapped forms of IPv6 included, is read back from
    the text it is written as, alone, as a bind address and in a socket address
    with an unprivileged port; and whatever the parser accepts is an address
    with parts in range. *)
Theorem address_roundtrip a p :
  wf_ip a → 1024 <= p <= 65535 →
  parse_ip (ip_text a) = Some a ∧
  parse_bind_ip (ip_text a) = Ok a ∧
  parse_listen (display_addr (mkSocketAddr a p)) = Ok (mkSocketAddr a p) ∧
  ∀ s b, parse_ip s = Some b → wf_ip b.
Proof.
  intros Hwf Hp. pose proof (parse_ip_text a Hwf) as Ha.
  split_and!; [done|unfold parse_bind_ip; by rewrite Ha| |apply parse_ip_wf].
  destruct a as [a b c d|a b c d e f g h].
  - simpl in Hwf. rewrite !Forall_cons in Hwf. apply listen_roundtrip; naive_solver.
  - unfold parse_listen, display_addr. cbn [ip port is_ipv6].
    set (t := ip_text (V6 a b c d e f g h)) in *.
    change (strip_prefix ":" ("[" +:+ ?s)) with (@None string).
    unfold split_host_port. change (strip_prefix "[" ("[" +:+ ?s)) with (Some s).
    cbn [mbind option_bind]. change ("]:" +:+ pretty p) with (String "]" (":" +:+ pretty p)).
    rewrite split_once_app by (by apply ip_text_V6_bracket). cbn [mbind option_bind].
    change (strip_prefix ":" (":" +:+ pretty p)) with (Some (pretty p)).
    cbn [mbind option_bind ok_or result_bind]. rewrite Ha. cbn [ok_or mbind result_bind].
    rewrite parse_port_pretty by lia. cbn [mbind result_bind]. by rewrite decide_False by lia.
Qed.

Lemma address_roundtrip_witness :
  parse_listen "[2001:db8::ff00:42:8329]:4000" =
    Ok (mkSocketAddr (V6 8193 3512 0 0 0 65280 66 33577) 4000) ∧
  parse_ip (ip_text (V6 0 0 0 0 0 65535 49152 522)) = Some (V6 0 0 0 0 0 65535 49152 522).
Proof.
  split.
  - apply (address_roundtrip (V6 8193 3512 0 0 0 65280 66 33577) 4000);
      [unfold wf_ip, is_group; rewrite !Forall_cons; split_and!; done || lia|lia].
  - apply (address_roundtrip (V6 0 0 0 0 0 65535 49152 522) 4000);
      [unfold wf_ip, is_group; rewrite !Forall_cons; split_and!; done || lia|lia].
Defined.
