(* ===== verification/Config.v ===== *)
(** * Configuration: [src/config.rs], [src/logging.rs]

    Settings are raw strings by name until they are validated.  Reading the file
    is an answer of the environment. *)

From stdpp Require Import pretty.
From Stdlib Require Import Strings.Byte Strings.Ascii Strings.String.
From S2P Require Import Prelude Errors Text Net.

Local Open Scope Z_scope.

(** ** Logging *)

(** [logging::Level]. *)
Inductive Level := LevelError | LevelInfo | LevelDebug.

#[export] Instance Level_eq_dec : EqDecision Level.
Proof. solve_decision. Defined.

Definition level_u8 (l : Level) : Z :=
  match l with LevelError => 0 | LevelInfo => 1 | LevelDebug => 2 end.

Definition Level_parse (value : string) : option Level :=
  if decide (value = "error") then Some LevelError
  else if decide (value = "info") then Some LevelInfo
  else if decide (value = "debug") then Some LevelDebug
  else None.

Definition level_label (l : Level) : string :=
  match l with LevelError => "error" | LevelInfo => "info" | LevelDebug => "debug" end.

(** The two statics, and what [log] writes to standard error. *)
Record Logger := mkLogger { lg_level : Z; lg_quiet : bool }.

Definition logger_default : Logger := mkLogger (level_u8 LevelInfo) false.

Definition logging_init (level : Level) (quiet : bool) : Logger := mkLogger (level_u8 level) quiet.

Definition enabled (lg : Logger) (level : Level) : bool :=
  negb (lg_quiet lg) && bool_decide (level_u8 level <= lg_level lg).

Definition log (lg : Logger) (level : Level) (message : string) : list string :=
  if enabled lg level then ["[" +:+ level_label level +:+ "] " +:+ message] else [].

Definition newline : ascii := ascii_of_N 10.

(** What a task prints: a line on standard output, or a message to the logger. *)
Inductive Line :=
| Out (l : string)
| Log (level : Level) (message : string).

Definition on_stdout (l : Line) : list string :=
  match l with Out l => [l +:+ String newline EmptyString] | Log _ _ => [] end.

Definition on_stderr (lg : Logger) (l : Line) : list string :=
  match l with Out _ => [] | Log level message => log lg level message end.

(** ** Raw settings *)

Definition NAMES : list string :=
  ["KEY"; "LISTEN"; "DATA_BIND"; "ALLOWED_PORTS"; "MAX_CONNECTIONS"; "SERVER"; "REMOTE_PORT";
   "TARGET"; "LOG_LEVEL"; "QUIET"].

Abbreviation RawConfig := (gmap string string) (only parsing).

(** [RawConfig::from_pairs]: a later pair replaces an earlier one. *)
Definition from_pairs (pairs : list (string * string)) : RawConfig :=
  foldl (λ m kv, <[kv.1 := kv.2]> m) ∅ pairs.

(** [env_config], on the variables of the process. *)
Definition env_config (env : string → option string) : RawConfig :=
  foldl (λ m name, match env ("TUNLET_" +:+ name) with
                   | Some value => <[name := value]> m
                   | None => m
                   end) ∅ NAMES.

(** [unquote]: the first and last character are dropped, both quotes of the same
    kind, which in UTF-8 are one byte each. *)
Definition quote_char : ascii := ascii_of_N 34.

Definition unquote (value : string) : option string :=
  match value with
  | String q rest =>
      if decide (q = quote_char ∨ q = "'"%char) then
        if bool_decide (2 ≤ char_count value)%nat && ends_with q value
        then strip_suffix q rest
        else None
      else Some value
  | EmptyString => Some value
  end.

Definition config_line_error (path : string) (line : nat) (reason : string) : AppError :=
  AppConfig (path +:+ ":" +:+ pretty line +:+ ": " +:+ reason).

Definition carriage_return : ascii := ascii_of_N 13.

(** One line of the file: [None] when it is blank or a comment. *)
Definition parse_line (path : string) (line_number : nat) (raw_line : string) :
    result AppError (option (string * string)) :=
  let line := default raw_line (strip_suffix carriage_return raw_line) in
  let trimmed := trim line in
  if decide (trimmed = EmptyString ∨ is_Some (strip_prefix "#" trimmed)) then Ok None
  else
    '(name, value) ← ok_or (split_once "=" line)
      (config_line_error path line_number "expected NAME=value");
    let name := trim name in
    if decide (name = EmptyString) then
      Err (config_line_error path line_number "empty setting name")
    else if decide (name ∉ NAMES) then
      Err (config_line_error path line_number "unknown setting name")
    else
      value ← ok_or (unquote (trim value))
        (config_line_error path line_number "unterminated quoted value");
      Ok (Some (name, value)).

(** The loop of [parse_file] over the lines that are left. *)
Fixpoint parse_lines (path : string) (line_number : nat) (lines : list string)
    (values : RawConfig) : result AppError RawConfig :=
  match lines with
  | [] => Ok values
  | line :: lines =>
      o ← parse_line path line_number line;
      parse_lines path (S line_number) lines
        (match o with Some (name, value) => <[name := value]> values | None => values end)
  end.

Definition BOM : bytes := [xef; xbb; xbf].

(** [parse_file], on what reading the file returns. *)
Definition parse_file (io_text : IoError → string) (path : string) (required : bool)
    (read : result IoError bytes) : result AppError RawConfig :=
  match read with
  | Err error =>
      if bool_decide (error = NotFound) && negb required then Ok ∅
      else Err (AppConfig (path +:+ ": cannot read configuration file: " +:+ io_text error))
  | Ok bs =>
      let bs := if decide (take 3 bs = BOM) then drop 3 bs else bs in
      if negb (utf8_valid bs) then
        Err (AppConfig (path +:+ ": configuration file is not valid UTF-8"))
      else parse_lines path 1 (split newline (string_of_list_byte bs)) ∅
  end.

(** [HashMap::insert] of every entry of [layer], in some order. *)
Definition insert_all (layer values : RawConfig) : RawConfig :=
  foldl (λ m kv, <[kv.1 := kv.2]> m) values (map_to_list layer).

Definition merge (file env cli : RawConfig) : RawConfig :=
  insert_all cli (insert_all env file).

Definition resolve (io_text : IoError → string) (path : string) (config_explicit : bool)
    (cli : RawConfig) (env : string → option string) (read : result IoError bytes) :
    result AppError RawConfig :=
  file ← parse_file io_text path config_explicit read;
  Ok (merge file (env_config env) cli).

(** ** Validated settings *)

Record ServerConfig := mkServerConfig {
  sc_key : string;
  listen : SocketAddr;
  data_bind : IpAddr;
  allowed_ports : Z * Z;
  sc_max_connections : Z;
  sc_log_level : Level;
  sc_quiet : bool
}.

Record ExposeConfig := mkExposeConfig {
  ec_key : string;
  server : Endpoint;
  remote_port : option Z;
  target : Endpoint;
  ec_log_level : Level;
  ec_quiet : bool
}.

Definition required (raw : RawConfig) (name : string) : result AppError string :=
  match raw !! name with
  | Some value =>
      if decide (value ≠ EmptyString) then Ok value
      else Err (AppConfig (name +:+ " must not be empty"))
  | None =>
      Err (AppConfig (name +:+ " is required (flag, TUNLET_" +:+ name +:+
             ", or configuration file)"))
  end.

Definition quiet (raw : RawConfig) : result AppError bool :=
  let value := default "false" (raw !! "QUIET") in
  if decide (value = "true") then Ok true
  else if decide (value = "false") then Ok false
  else Err (AppConfig "QUIET must be true or false").

Definition log_level (raw : RawConfig) : result AppError Level :=
  ok_or (Level_parse (default "info" (raw !! "LOG_LEVEL")))
    (AppConfig "LOG_LEVEL must be error, info, or debug").

(** [config::server]. *)
Definition server_config (raw : RawConfig) : result AppError ServerConfig :=
  key ← required raw "KEY";
  listen ← parse_listen (default ":4000" (raw !! "LISTEN"));
  data_bind ← parse_bind_ip (default "0.0.0.0" (raw !! "DATA_BIND"));
  allowed_ports ← parse_port_range (default "10000-65535" (raw !! "ALLOWED_PORTS"));
  max_connections ← ok_or (parse_u32 (default "256" (raw !! "MAX_CONNECTIONS")))
    (AppConfig "MAX_CONNECTIONS must be an integer 1-65535");
  if decide (max_connections = 0 ∨ 65535 < max_connections) then
    Err (AppConfig "MAX_CONNECTIONS must be an integer 1-65535")
  else
    level ← log_level raw;
    q ← quiet raw;
    Ok (mkServerConfig key listen data_bind allowed_ports max_connections level q).

(** The remote port of [config::expose]. *)
Definition parse_remote_port (o : option string) : result AppError (option Z) :=
  match o with
  | None => Ok None
  | Some value =>
      port ← ok_or (parse_u16 value)
        (AppConfig "REMOTE_PORT must be a port number 1024-65535");
      if decide (port < 1024) then
        Err (AppConfig
               "REMOTE_PORT must be 1024-65535; omit it to request automatic allocation")
      else Ok (Some port)
  end.

(** [config::expose]. *)
Definition expose_config (raw : RawConfig) : result AppError ExposeConfig :=
  key ← required raw "KEY";
  server_text ← required raw "SERVER";
  server ← parse_server server_text;
  target_text ← required raw "TARGET";
  target ← parse_target target_text;
  remote_port ← parse_remote_port (raw !! "REMOTE_PORT");
  level ← log_level raw;
  q ← quiet raw;
  Ok (mkExposeConfig key server remote_port target level q).

(** What [server_config] and [expose_config] check. *)
Definition wf_server_config (c : ServerConfig) : Prop :=
  1024 ≤ port (listen c) ≤ 65535 ∧
  1024 ≤ (allowed_ports c).1 ∧ (allowed_ports c).1 ≤ (allowed_ports c).2 ∧
  (allowed_ports c).2 ≤ 65535 ∧
  1 ≤ sc_max_connections c ≤ 65535.

Definition wf_expose_config (c : ExposeConfig) : Prop :=
  ec_key c ≠ EmptyString ∧
  host (server c) ≠ EmptyString ∧ 1024 ≤ endpoint_port (server c) ≤ 65535 ∧
  host (target c) ≠ EmptyString ∧ 1 ≤ endpoint_port (target c) ≤ 65535 ∧
  match remote_port c with Some p => 1024 ≤ p ≤ 65535 | None => True end.
