(* ===== verification/Cli.v ===== *)
(** * The command line and the start of the process: [src/cli.rs], [src/main.rs]

    Arguments are the strings [OsString::to_string_lossy] makes of them. *)

From Stdlib Require Import Strings.Byte Strings.Ascii Strings.String.
From S2P Require Import Prelude Errors Text Net Config.

Local Open Scope Z_scope.

(** [cli::Mode]. *)
Inductive RunMode := ModeServer | ModeExpose.

#[export] Instance RunMode_eq_dec : EqDecision RunMode.
Proof. solve_decision. Defined.

Definition mode_name (m : RunMode) : string :=
  match m with ModeServer => "server" | ModeExpose => "expose" end.

(** [cli::Command]. *)
Inductive CliCommand :=
| Help
| Version
| Run (mode : RunMode) (config : string) (config_explicit : bool) (cli : RawConfig).

Definition VALUE_FLAGS : list (string * string) :=
  [("--key", "KEY"); ("--listen", "LISTEN"); ("--data-bind", "DATA_BIND");
   ("--allowed-ports", "ALLOWED_PORTS"); ("--max-connections", "MAX_CONNECTIONS");
   ("--server", "SERVER"); ("--remote-port", "REMOTE_PORT"); ("--target", "TARGET");
   ("--log-level", "LOG_LEVEL")].

Definition value_flag (flag : string) : option string :=
  snd <$> List.find (λ p, bool_decide (p.1 = flag)) VALUE_FLAGS.

Definition DEFAULT_CONFIG : string := "tunlet.cfg".

(** The variables of the loop of [parse]. *)
Record CliState := mkCliState {
  cl_mode : option RunMode;
  cl_config : string;
  cl_explicit : bool;
  cl_values : RawConfig
}.

Definition cli_start : CliState := mkCliState None DEFAULT_CONFIG false ∅.

Definition set_mode (m : RunMode) (st : CliState) : CliState :=
  mkCliState (Some m) (cl_config st) (cl_explicit st) (cl_values st).
Definition set_config (path : string) (st : CliState) : CliState :=
  mkCliState (cl_mode st) path true (cl_values st).
Definition set_value (key value : string) (st : CliState) : CliState :=
  mkCliState (cl_mode st) (cl_config st) (cl_explicit st) (<[key := value]> (cl_values st)).

(** The [match arg] of the loop.  [Value k] is a flag that has a value, inline or
    in the next argument, and what to do with it. *)
Inductive Step :=
| Done (c : CliCommand)
| Next (st : CliState)
| Value (inline : option string) (missing : AppError)
    (use : string → result AppError CliState).

(** [--config]'s value. *)
Definition use_config (st : CliState) (value : string) : result AppError CliState :=
  if decide (value = EmptyString) then Err (AppCli "--config requires a path")
  else Ok (set_config value st).

(** The arm of an argument that is no subcommand, help or version flag. *)
Definition flag_step (arg : string) (st : CliState) : result AppError Step :=
  let '(flag, inline) := match split_once "=" arg with
                         | Some (flag, value) => (flag, Some value)
                         | None => (arg, None)
                         end in
  if decide (strip_prefix "-" flag = None) then
    Err (AppCli ("unexpected argument `" +:+ arg +:+ "`"))
  else if decide (flag = "--config") then
    Ok (Value inline (AppCli "--config requires a path") (use_config st))
  else if decide (cl_mode st = None) then
    Err (AppCli ("`" +:+ flag +:+ "` must follow the server or expose subcommand"))
  else if decide (flag = "--quiet") then
    let value := default "true" inline in
    if decide (value ≠ "true" ∧ value ≠ "false") then
      Err (AppCli "--quiet accepts only --quiet, --quiet=true, or --quiet=false")
    else Ok (Next (set_value "QUIET" value st))
  else
    key ← ok_or (value_flag flag) (AppCli ("unrecognized option `" +:+ flag +:+ "`"));
    Ok (Value inline (AppCli (flag +:+ " requires a value"))
          (λ value, Ok (set_value key value st))).

Definition cli_step (arg : string) (st : CliState) : result AppError Step :=
  if decide (arg = "-h" ∨ arg = "--help") then Ok (Done Help)
  else if decide (arg = "-V" ∨ arg = "--version") then Ok (Done Version)
  else if decide (arg = "server" ∨ arg = "expose") then
    match cl_mode st with
    | Some _ => Err (AppCli ("unexpected argument `" +:+ arg +:+ "`"))
    | None => Ok (Next (set_mode (if decide (arg = "server") then ModeServer else ModeExpose) st))
    end
  else flag_step arg st.

(** The [while] loop, over the arguments that are left. *)
Fixpoint parse_args (args : list string) (st : CliState) : result AppError CliCommand :=
  match args with
  | [] =>
      match cl_mode st with
      | Some m => Ok (Run m (cl_config st) (cl_explicit st) (cl_values st))
      | None =>
          Err (AppCli "expected a subcommand: `server` or `expose`. Try --help")
      end
  | arg :: rest =>
      match cli_step arg st with
      | Err e => Err e
      | Ok (Done c) => Ok c
      | Ok (Next st) => parse_args rest st
      | Ok (Value (Some value) _ use) =>
          match use value with Ok st => parse_args rest st | Err e => Err e end
      | Ok (Value None missing use) =>
          match rest with
          | [] => Err missing
          | value :: rest =>
              match use value with Ok st => parse_args rest st | Err e => Err e end
          end
      end
  end.

(** [cli::parse]: the name of the program is skipped. *)
Definition cli_parse (args : list string) : result AppError CliCommand :=
  parse_args (drop 1 args) cli_start.

(** ** [help] and [version] *)

(** [CARGO_PKG_VERSION]: the version of the package in [Cargo.toml]. *)
Definition PKG_VERSION : string := "0.1.0".

Definition help_lines : list string := [
  "tunlet " +:+ PKG_VERSION +:+ " - a small authenticated TCP tunnel";
  "";
  "Usage:";
  "  tunlet server [options]";
  "  tunlet expose [options]";
  "";
  "Common options:";
  "  -h, --help                 show this help and exit";
  "  -V, --version              show version and exit";
  "      --config PATH          configuration file (default ./" +:+ DEFAULT_CONFIG +:+ ")";
  "      --key TEXT             shared key, any non-empty text (also TUNLET_KEY)";
  "      --log-level LEVEL      error, info, or debug (default info)";
  "      --quiet[=true|false]   suppress routine logs; --quiet=false undoes an";
  "                             inherited quiet setting";
  "";
  "server options:";
  "      --listen ADDR          control and data listener, default :4000";
  "                             (`:PORT` means 0.0.0.0:PORT; ports 1024-65535)";
  "      --data-bind IP         bind address for public listeners, default 0.0.0.0";
  "      --allowed-ports MIN-MAX";
  "                             range used for automatic allocation only, default";
  "                             10000-65535. A client asking for a specific port";
  "                             outside this range is still allowed.";
  "      --max-connections N    pending plus active public connections per tunnel,";
  "                             default 256";
  "";
  "expose options:";
  "      --server HOST:PORT     public server control address (required)";
  "      --target HOST:PORT     local target to forward to (required);";
  "                             `:PORT` means 127.0.0.1:PORT";
  "      --remote-port PORT     requested public port, 1024-65535. Omit to request";
  "                             automatic allocation; the assigned port is printed";
  "                             as `remote_port=N` on stdout.";
  "";
  "Settings may come from flags, TUNLET_* environment variables, or the";
  "configuration file, in that order of precedence. Application bytes are";
  "forwarded unchanged and are not encrypted; see the README security section."
].

Definition help : string :=
  foldr (λ line text, line +:+ String newline text) EmptyString help_lines.

Definition version : string := "tunlet " +:+ PKG_VERSION.

(** ** [main] *)

(** What [run] comes to, with the logger it sets up. *)
Inductive Started :=
| PrintHelp
| PrintVersion
| StartServer (c : ServerConfig) (lg : Logger)
| StartClient (c : ExposeConfig) (lg : Logger).

Section main.
Context (io_text : IoError → string) (env : string → option string).
Context (read : string → result IoError bytes).

(** [run], up to the server or the client. *)
Definition run_command (args : list string) : result AppError Started :=
  command ← cli_parse args;
  match command with
  | Help => Ok PrintHelp
  | Version => Ok PrintVersion
  | Run m path explicit cli =>
      merged ← resolve io_text path explicit cli env (read path);
      match m with
      | ModeServer =>
          c ← server_config merged;
          Ok (StartServer c (logging_init (sc_log_level c) (sc_quiet c)))
      | ModeExpose =>
          c ← expose_config merged;
          Ok (StartClient c (logging_init (ec_log_level c) (ec_quiet c)))
      end
  end.

(** [main]: what it prints on standard output and on standard error and the
    exit code, with the start of the runtime, and with what the server or the
    client prints and its outcome ([None]: still running).  Only the lines of
    the main task are here: the tasks it spawns write their log lines to the
    same standard error in between. *)
Definition main_exit (runtime : result IoError unit)
    (server : ServerConfig → list Line * option (result AppError unit))
    (client : ExposeConfig → list Line * option (result AppError unit)) (args : list string) :
    option (list string * list string * Z) :=
  match runtime with
  | Err error =>
      Some ([], ["tunlet: cannot start the async runtime: " +:+ io_text error], 1)
  | Ok _ =>
      let ended out err r :=
        match r with
        | Ok _ => (out, err, 0)
        | Err error =>
            (out, err ++ ["tunlet: " +:+ app_error_text io_text error], exit_code error)
        end in
      let task lg (t : list Line * option (result AppError unit)) :=
        ended (t.1 ≫= on_stdout) (t.1 ≫= on_stderr lg) <$> t.2 in
      match run_command args with
      | Err error => Some (ended [] [] (Err error))
      | Ok PrintHelp => Some (ended [help] [] (Ok ()))
      | Ok PrintVersion => Some (ended [version +:+ String newline EmptyString] [] (Ok ()))
      | Ok (StartServer c lg) => task lg (server c)
      | Ok (StartClient c lg) => task lg (client c)
      end
  end.
End main.
