(* ===== verification/SettingsFacts.v ===== *)
(** * What the settings guarantee *)

From stdpp Require Import pretty.
From Stdlib Require Import Strings.Byte Strings.Ascii Strings.String.
From S2P Require Import Prelude Errors Text TextFacts Net NetFacts Config Cli.

Local Open Scope Z_scope.

(** ** UTF-8 *)

Lemma utf8_valid_app a b : utf8_valid a = true → utf8_valid b = true → utf8_valid (a ++ b) = true.
Proof.
  intros Ha Hb. revert Ha. remember (List.length a) as n eqn:E. revert a E.
  induction (Nat.lt_wf_0 n) as [n _ IH]; intros a -> Ha.
  assert (∀ l, (List.length l < List.length a)%nat → utf8_valid l = true →
    utf8_valid (l ++ b) = true) as Hstep by (intros l Hl; by apply (IH (List.length l))).
  clear IH. destruct a as [|x l]; [done|]. simpl in Ha, Hstep |- *.
  destruct (bool_decide (Z_of_byte x < 128)); [by apply Hstep; [lia|]|].
  destruct l as [|y l]; [done|]. simpl in Ha, Hstep |- *.
  destruct (bool_decide (194 <= Z_of_byte x <= 223)).
  { rewrite !andb_true_iff in *. split; [apply Ha|]. apply Hstep; [lia|apply Ha]. }
  destruct l as [|z l]; [done|]. simpl in Ha, Hstep |- *.
  destruct (bool_decide (224 <= Z_of_byte x <= 239)).
  { rewrite !andb_true_iff in *. split; [apply Ha|]. apply Hstep; [lia|apply Ha]. }
  destruct l as [|w l]; [done|]. simpl in Ha, Hstep |- *.
  rewrite !andb_true_iff in *. split; [apply Ha|]. apply Hstep; [lia|apply Ha].
Qed.

Lemma Z_of_byte_of_ascii a : Z_of_byte (byte_of_ascii a) = Z.of_N (N_of_ascii a).
Proof. by destruct a as [[] [] [] [] [] [] [] []]. Qed.

Lemma list_byte_of_string_app a b :
  list_byte_of_string (a +:+ b) = list_byte_of_string a ++ list_byte_of_string b.
Proof.
  induction a as [|x a IH]; [done|]. rewrite append_cons. unfold list_byte_of_string in *.
  simpl. by rewrite IH.
Qed.

(** A text does not start in the middle of a character. *)
Lemma utf8_starts v : utf8_valid (list_byte_of_string v) = true → starts_continuation v = false.
Proof.
  destruct v as [|a v]; [done|]. unfold list_byte_of_string. simpl.
  unfold continuation. rewrite Z_of_byte_of_ascii. intros H.
  apply bool_decide_false. intros Hn. revert H. generalize (List.map byte_of_ascii (list_ascii_of_string v)).
  intros l. set (n := Z.of_N (N_of_ascii a)) in *.
  rewrite !(bool_decide_false (n < 128)), !(bool_decide_false (194 <= n <= 223)),
    !(bool_decide_false (224 <= n <= 239)), !(bool_decide_false (240 <= n <= 244)) by lia.
  by destruct l as [|? [|? [|? ?]]].
Qed.

(** ** Layers *)

Lemma foldl_insert_lookup (l : list (string * string)) (m : RawConfig) k :
  foldl (λ m kv, <[kv.1 := kv.2]> m) m l !! k =
  match list_to_map (M := RawConfig) (reverse l) !! k with Some v => Some v | None => m !! k end.
Proof.
  revert m. induction l as [|[x v] l IH]; intros m.
  { change (reverse []) with (@nil (string * string)). simpl. by rewrite lookup_empty. }
  rewrite reverse_cons, list_to_map_app, lookup_union. cbn [foldl]. rewrite IH.
  cbn [list_to_map foldr uncurry fst snd]. rewrite !lookup_insert, lookup_empty.
  destruct (list_to_map (reverse l) !! k); by case_decide.
Qed.

Lemma insert_all_lookup (layer values : RawConfig) k :
  insert_all layer values !! k =
  match layer !! k with Some v => Some v | None => values !! k end.
Proof.
  unfold insert_all. rewrite foldl_insert_lookup.
  erewrite <-(list_to_map_proper (map_to_list layer)), list_to_map_to_list; [done| |].
  - apply NoDup_fst_map_to_list.
  - symmetry. apply reverse_Permutation.
Qed.

Lemma env_config_lookup env k :
  env_config env !! k = if decide (k ∈ NAMES) then env ("TUNLET_" +:+ k) else None.
Proof.
  unfold env_config.
  assert (∀ l (m : RawConfig), foldl (λ m name, match env ("TUNLET_" +:+ name) with
       | Some value => <[name := value]> m | None => m end) m l !! k =
     match (if decide (k ∈ l) then env ("TUNLET_" +:+ k) else None) with
     | Some v => Some v | None => m !! k end) as H.
  { induction l as [|x l IH]; intros m; simpl; [done|]. rewrite IH.
    destruct (decide (k ∈ l)) as [Hk|Hk].
    - rewrite decide_True by (by right). destruct (env ("TUNLET_" +:+ k)) eqn:E; [done|].
      destruct (env ("TUNLET_" +:+ x)) eqn:Ex; [|done]. apply lookup_insert_ne. congruence.
    - destruct (decide (k = x)) as [->|Hne].
      + rewrite decide_True by left. destruct (env ("TUNLET_" +:+ x)); [|done].
        apply lookup_insert_eq.
      + rewrite decide_False by (by rewrite elem_of_cons; naive_solver).
        destruct (env ("TUNLET_" +:+ x)); [|done]. by apply lookup_insert_ne. }
  rewrite H, lookup_empty. by destruct (decide _), (env _).
Qed.

(** Flags win over the environment, the environment over the file: every
    setting has the value of the first layer that gives it one, the
    environment being the [TUNLET_] variables of the known names. *)
Lemma settings_precedence io_text path explicit cli env read file m :
  parse_file io_text path explicit read = Ok file →
  resolve io_text path explicit cli env read = Ok m →
  ∀ name, m !! name =
    match cli !! name with
    | Some v => Some v
    | None =>
        match (if decide (name ∈ NAMES) then env ("TUNLET_" +:+ name) else None) with
        | Some v => Some v
        | None => file !! name
        end
    end.
Proof.
  unfold resolve. intros -> [= <-] name. unfold merge.
  by rewrite !insert_all_lookup, env_config_lookup.
Qed.

(** ** Validation *)

Lemma required_Ok raw name v : required raw name = Ok v → raw !! name = Some v ∧ v ≠ EmptyString.
Proof.
  unfold required. destruct (raw !! name); [|done]. case_decide; [|done]. by intros [= ->].
Qed.

Lemma server_config_Ok raw c :
  server_config raw = Ok c →
  wf_server_config c ∧ raw !! "KEY" = Some (sc_key c) ∧ sc_key c ≠ EmptyString.
Proof.
  unfold server_config. intros (key & Hk%required_Ok & H)%result_bind_Ok.
  apply result_bind_Ok in H as (l & Hl%parse_listen_Ok & H).
  apply result_bind_Ok in H as (i & _ & H).
  apply result_bind_Ok in H as (r & Hr%parse_port_range_Ok & H).
  apply result_bind_Ok in H as (n & Hn%ok_or_Ok%parse_uint_range & H).
  case_decide; [done|].
  apply result_bind_Ok in H as (lv & _ & H). apply result_bind_Ok in H as (q & _ & H).
  injection H as <-. split; [|done]. unfold wf_server_config. simpl. lia.
Qed.

Lemma parse_remote_port_Ok o p :
  parse_remote_port o = Ok p → match p with Some p => 1024 ≤ p ≤ 65535 | None => True end.
Proof.
  destruct o as [v|]; [|by intros [= <-]]. unfold parse_remote_port.
  intros (n & Hn%ok_or_Ok%parse_uint_range & H)%result_bind_Ok. case_decide; [done|].
  injection H as <-. lia.
Qed.

Lemma expose_config_Ok raw c :
  expose_config raw = Ok c → wf_expose_config c ∧ raw !! "KEY" = Some (ec_key c).
Proof.
  unfold expose_config. intros (key & [Hk Hne]%required_Ok & H)%result_bind_Ok.
  apply result_bind_Ok in H as (st & _ & H).
  apply result_bind_Ok in H as (s & [Hs1 Hs2]%parse_server_Ok & H).
  apply result_bind_Ok in H as (tt' & _ & H).
  apply result_bind_Ok in H as (t & [Ht1 Ht2]%parse_target_Ok & H).
  apply result_bind_Ok in H as (p & Hp & H).
  apply result_bind_Ok in H as (lv & _ & H). apply result_bind_Ok in H as (q & _ & H).
  injection H as <-. split; [|done]. unfold wf_expose_config. simpl.
  apply parse_remote_port_Ok in Hp. naive_solver.
Qed.

(** (C25) What starts is valid: a server's configuration has an unprivileged
    control port, a port range within 1024 to 65535 and a maximum of 1 to 65535
    connections; a client's has hosts, ports and, if given, an unprivileged
    remote port; both have a key that is not empty. *)
Theorem started_config_valid io_text env read args st :
  run_command io_text env read args = Ok st →
  match st with
  | StartServer c lg =>
      wf_server_config c ∧ sc_key c ≠ EmptyString ∧
      lg = logging_init (sc_log_level c) (sc_quiet c)
  | StartClient c lg =>
      wf_expose_config c ∧ lg = logging_init (ec_log_level c) (ec_quiet c)
  | PrintHelp | PrintVersion => True
  end.
Proof.
  unfold run_command. intros (c & _ & H)%result_bind_Ok.
  destruct c as [| |m path explicit cli]; [by injection H as <-..|].
  apply result_bind_Ok in H as (raw & _ & H). destruct m.
  - apply result_bind_Ok in H as (c & (Hw & _ & Hk)%server_config_Ok & H). by injection H as <-.
  - apply result_bind_Ok in H as (c & (Hw & _)%expose_config_Ok & H). by injection H as <-.
Qed.

(** ** The configuration file *)

Definition line_reasons : list string :=
  ["expected NAME=value"; "empty setting name"; "unknown setting name";
   "unterminated quoted value"].

Lemma result_bind_Err_inv {E A B} (m : result E A) (f : A → result E B) e :
  m ≫= f = Err e → m = Err e ∨ ∃ a, m = Ok a ∧ f a = Err e.
Proof. destruct m as [a|e']; [right; by exists a|]. intros [= ->]. by left. Qed.

Lemma parse_line_Err path n line e :
  parse_line path n line = Err e → ∃ reason, reason ∈ line_reasons ∧
    e = config_line_error path n reason.
Proof.
  unfold parse_line. intros H. case_decide; [done|].
  apply result_bind_Err_inv in H as [H|([name value] & _ & H)].
  - destruct (split_once _ _); [done|]. injection H as <-. eexists. split; [|done]. set_solver.
  - case_decide; [injection H as <-; eexists; split; [|done]; set_solver|].
    case_decide; [injection H as <-; eexists; split; [|done]; set_solver|].
    apply result_bind_Err_inv in H as [H|(v & _ & H)]; [|done].
    destruct (unquote _); [done|]. injection H as <-. eexists. split; [|done]. set_solver.
Qed.

Lemma parse_lines_Err path n lines values e :
  parse_lines path n lines values = Err e → ∃ k reason,
    (k < List.length lines)%nat ∧ reason ∈ line_reasons ∧
    e = config_line_error path (n + k) reason.
Proof.
  revert n values. induction lines as [|line lines IH]; intros n values H; [done|].
  cbn [parse_lines] in H. apply result_bind_Err_inv in H as [H|(o & _ & H)].
  - apply parse_line_Err in H as (reason & Hr & ->). exists 0%nat, reason.
    rewrite Nat.add_0_r. simpl. split_and!; [lia|done..].
  - apply IH in H as (k & reason & Hk & Hr & ->). exists (S k), reason.
    rewrite Nat.add_succ_comm. simpl. split_and!; [lia|done..].
Qed.

(** An error about the configuration file never shows a value of it: it is
    made of the path and the system's error, or of the path, the number of a
    line and one of four fixed reasons, whatever the file holds. *)
Lemma file_errors_hide_values io_text path explicit read e :
  parse_file io_text path explicit read = Err e →
  (∃ error, read = Err error ∧
     e = AppConfig (path +:+ ": cannot read configuration file: " +:+ io_text error)) ∨
  e = AppConfig (path +:+ ": configuration file is not valid UTF-8") ∨
  ∃ n reason, reason ∈ line_reasons ∧ e = config_line_error path n reason.
Proof.
  unfold parse_file. destruct read as [bs|error].
  - destruct (negb _); [intros [= <-]; auto|].
    intros (k & reason & _ & Hr & ->)%parse_lines_Err. right. right. eauto.
  - destruct (_ && _); [done|]. intros [= <-]. left. eauto.
Qed.

(** A setting as a line of the file: every value can be written in quotes. *)
Definition quoted (value : string) : string :=
  String quote_char (value +:+ String quote_char EmptyString).
Definition setting_line (kv : string * string) : string := kv.1 +:+ String "=" (quoted kv.2).

Fixpoint config_text (l : list (string * string)) : string :=
  match l with
  | [] => EmptyString
  | kv :: l => setting_line kv +:+ String newline (config_text l)
  end.

(** A known name, and a text of one line. *)
Definition writable_setting (kv : string * string) : Prop :=
  kv.1 ∈ NAMES ∧ utf8_valid (list_byte_of_string kv.2) = true ∧ contains newline kv.2 = false.

Lemma trim_quoted v : starts_continuation v = false → trim (quoted v) = quoted v.
Proof. intros H. apply trim_solid; try done; by vm_compute. Qed.

Lemma unquote_quoted v : unquote (quoted v) = Some v.
Proof.
  unfold unquote, quoted. rewrite decide_True by (by left).
  assert (char_count (String quote_char (v +:+ String quote_char EmptyString)) ≥ 2)%nat as Hc.
  { unfold char_count. rewrite <-append_cons, units_snoc, length_app by done.
    simpl. destruct (units v) as [|u us]; simpl; [lia|]. destruct (starts_continuation u); simpl; lia. }
  rewrite bool_decide_true by lia. unfold ends_with.
  rewrite <-append_cons, strip_suffix_app. simpl. apply strip_suffix_app.
Qed.

(** What a name gives a line: it starts with a letter, has no separator, and is
    its own trim. *)
Definition name_ok (name : string) : bool :=
  match name with
  | String a (String b _) =>
      negb (continuation a) && negb (is_whitespace (String a EmptyString)) &&
      negb (continuation b) && bool_decide (a ≠ "#"%char) && negb (contains "=" name) &&
      negb (contains newline name) && bool_decide (trim name = name) &&
      utf8_valid (list_byte_of_string name) && bool_decide (Z_of_byte (byte_of_ascii a) < 128)
  | _ => false
  end.

Lemma names_ok name : name ∈ NAMES → name_ok name = true.
Proof.
  intros H. assert (forallb name_ok NAMES = true) as Hall by (vm_compute; reflexivity).
  rewrite forallb_forall in Hall. by apply Hall, list_elem_of_In.
Qed.

Lemma parse_setting_line path n kv :
  writable_setting kv → parse_line path n (setting_line kv) = Ok (Some kv).
Proof.
  destruct kv as [name v]. intros (Hn & Hv & _). simpl in *.
  pose proof (names_ok _ Hn) as Hok. unfold name_ok in Hok.
  destruct name as [|a [|b name]]; [done..|].
  rewrite !andb_true_iff, !negb_true_iff, !bool_decide_eq_true in Hok.
  destruct Hok as ((((((((Ha & Wa) & Hb) & Hh) & He) & _) & Ht) & _) & _).
  unfold parse_line, setting_line. cbn [fst snd].
  set (line := String a (String b name) +:+ String "=" (quoted v)).
  assert (line = String a ((String b (name +:+ String "=" (String quote_char v)))
    +:+ String quote_char EmptyString)) as Eline.
  { unfold line, quoted. by rewrite !append_cons, append_assoc, !append_cons. }
  assert (strip_suffix carriage_return line = None) as ->.
  { rewrite Eline, <-append_cons. by apply strip_suffix_other. }
  cbn [default]. assert (trim line = line) as ->.
  { rewrite Eline. by apply trim_solid. }
  rewrite decide_False by (rewrite Eline; intros [?|[? Hs]]; [done|]; simpl in Hs; by case_decide).
  unfold line. rewrite split_once_app by done. cbn [ok_or mbind result_bind].
  rewrite Ht, decide_False by done. rewrite decide_False by (intros Hx; by apply Hx).
  rewrite trim_quoted by (by apply utf8_starts). by rewrite unquote_quoted.
Qed.

Lemma setting_line_newline kv : writable_setting kv → contains newline (setting_line kv) = false.
Proof.
  intros (Hn & _ & Hv). apply names_ok in Hn. unfold name_ok in Hn.
  destruct kv as [[|a [|b name]] v]; [done..|]. simpl in Hn, Hv.
  rewrite !andb_true_iff, !negb_true_iff in Hn.
  destruct Hn as ((((_ & Hname) & _) & _) & _).
  unfold setting_line, quoted. cbn [fst snd].
  by rewrite contains_app, Hname, !contains_cons, contains_app, Hv.
Qed.

Lemma setting_line_utf8 kv :
  writable_setting kv → utf8_valid (list_byte_of_string (setting_line kv)) = true.
Proof.
  intros (Hn & Hv & _). apply names_ok in Hn. unfold name_ok in Hn.
  destruct kv as [[|a [|b name]] v]; [done..|]. cbn [fst snd] in *.
  rewrite !andb_true_iff in Hn. destruct Hn as [[_ Hname] _].
  unfold setting_line, quoted. cbn [fst snd].
  change (String "=" (String quote_char (v +:+ String quote_char EmptyString)))
    with (("=" +:+ String quote_char EmptyString) +:+ (v +:+ String quote_char EmptyString)).
  rewrite !list_byte_of_string_app. by repeat apply utf8_valid_app.
Qed.

Lemma config_text_utf8 l :
  Forall writable_setting l → utf8_valid (list_byte_of_string (config_text l)) = true.
Proof.
  induction 1 as [|kv l Hkv _ IH]; [done|]. cbn [config_text].
  rewrite list_byte_of_string_app. apply utf8_valid_app; [by apply setting_line_utf8|].
  change (String newline (config_text l)) with (String newline EmptyString +:+ config_text l).
  rewrite list_byte_of_string_app. by apply utf8_valid_app.
Qed.

Lemma split_config_text l :
  Forall writable_setting l → split newline (config_text l) = (setting_line <$> l) ++ [EmptyString].
Proof.
  induction 1 as [|kv l Hkv _ IH]; [done|]. cbn [config_text].
  rewrite split_line by (by apply setting_line_newline). by rewrite IH.
Qed.

Lemma parse_lines_config path n l values :
  Forall writable_setting l →
  parse_lines path n ((setting_line <$> l) ++ [EmptyString]) values =
    Ok (foldl (λ m kv, <[kv.1 := kv.2]> m) values l).
Proof.
  intros H. revert n values. induction H as [|kv l Hkv _ IH]; intros n values; [done|].
  cbn [fmap list_fmap app parse_lines]. rewrite parse_setting_line by done.
  cbn [mbind result_bind]. destruct kv. apply IH.
Qed.

Lemma config_text_no_bom l :
  Forall writable_setting l → take 3 (list_byte_of_string (config_text l)) ≠ BOM.
Proof.
  intros [|kv l' (Hn & _) _]; [done|]. apply names_ok in Hn. unfold name_ok in Hn.
  destruct kv as [[|a [|b name]] v]; [done..|]. cbn [fst snd] in *.
  rewrite !andb_true_iff, !bool_decide_eq_true in Hn. destruct Hn as [_ Ha].
  cbn [config_text]. unfold setting_line. cbn [fst snd].
  rewrite !append_cons. intros H. apply (f_equal head) in H. simpl in H.
  injection H as Hb. rewrite Hb in Ha. by vm_compute in Ha.
Qed.

(** (C26) Every configuration can be written as a file: for known names and any
    one-line values, whatever quotes, comment signs, spaces or equals signs they
    hold, the file with one quoted setting per line is read back as exactly
    these settings, the last of a name counting. *)
Theorem config_file_roundtrip io_text path explicit l :
  Forall writable_setting l →
  parse_file io_text path explicit (Ok (list_byte_of_string (config_text l))) = Ok (from_pairs l).
Proof.
  intros H. unfold parse_file. rewrite decide_False by (by apply config_text_no_bom).
  rewrite config_text_utf8 by done. cbn [negb].
  rewrite string_of_list_byte_of_string, split_config_text by done. by apply parse_lines_config.
Qed.
