(* ===== verification/CliFacts.v ===== *)
(** * The command line is a grammar

    What [cli::parse] ([src/cli.rs]) accepts, as a grammar of options and
    subcommands with the settings each line stands for, and the proof that the
    parser decides exactly this grammar. *)

From Stdlib Require Import Strings.Byte Strings.Ascii Strings.String.
From S2P Require Import Prelude Errors Text TextFacts Net NetFacts Config Cli SettingsFacts.

Local Open Scope Z_scope.

(** ** Options *)

(** An option of the command line, with its value in the same argument or in the
    next one. *)
Inductive Opt :=
| OptConfig (inline : bool) (path : string)
| OptValue (inline : bool) (flag key value : string)
| OptQuiet (value : option bool).

Definition bool_text (b : bool) : string := if b then "true" else "false".

Definition opt_args (o : Opt) : list string :=
  match o with
  | OptConfig true path => ["--config=" +:+ path]
  | OptConfig false path => ["--config"; path]
  | OptValue true flag _ value => [flag +:+ String "=" value]
  | OptValue false flag _ value => [flag; value]
  | OptQuiet None => ["--quiet"]
  | OptQuiet (Some b) => ["--quiet=" +:+ bool_text b]
  end.

Definition opt_effect (st : CliState) (o : Opt) : CliState :=
  match o with
  | OptConfig _ path => set_config path st
  | OptValue _ _ key value => set_value key value st
  | OptQuiet value => set_value "QUIET" (bool_text (default true value)) st
  end.

Definition wf_opt (o : Opt) : Prop :=
  match o with
  | OptConfig _ path => path ≠ EmptyString
  | OptValue _ flag key _ => (flag, key) ∈ VALUE_FLAGS
  | OptQuiet _ => True
  end.

Definition is_config (o : Opt) : Prop := match o with OptConfig _ _ => True | _ => False end.

(** What a flag with a value is for the parser. *)
Definition flag_ok (p : string * string) : bool :=
  bool_decide (is_Some (strip_prefix "-" p.1)) && bool_decide (p.1 ≠ "--config") &&
  bool_decide (p.1 ≠ "--quiet") && bool_decide (value_flag p.1 = Some p.2) &&
  negb (contains "=" p.1) &&
  bool_decide (p.1 ∉ ["-h"; "--help"; "-V"; "--version"; "server"; "expose"]).

Lemma flags_ok p : p ∈ VALUE_FLAGS → flag_ok p = true.
Proof.
  intros H. assert (forallb flag_ok VALUE_FLAGS = true) as Hall by (vm_compute; reflexivity).
  rewrite forallb_forall in Hall. by apply Hall, list_elem_of_In.
Qed.

Lemma split_once_None c s : contains c s = false → split_once c s = None.
Proof. unfold contains. by destruct (split_once c s). Qed.

Definition fixed_words : list string := ["-h"; "--help"; "-V"; "--version"; "server"; "expose"].

Lemma cli_step_flag arg st : arg ∉ fixed_words → cli_step arg st = flag_step arg st.
Proof.
  intros H. unfold cli_step. by rewrite !decide_False by (intros [->| ->]; apply H; set_solver).
Qed.

(** An argument with an equals sign is none of the fixed words. *)
Lemma inline_not_fixed flag value : flag +:+ String "=" value ∉ fixed_words.
Proof.
  assert (∀ w, w ∈ fixed_words → contains "=" w = false) as Hw.
  { intros w Hw. assert (forallb (λ w, negb (contains "=" w)) fixed_words = true) as Hall
      by (vm_compute; reflexivity).
    rewrite forallb_forall in Hall. by apply negb_true_iff, Hall, list_elem_of_In. }
  intros H%Hw. rewrite contains_app, contains_cons in H. simpl in H. by rewrite orb_true_r in H.
Qed.

(** The flag of an argument and its inline value. *)
Definition flag_of (arg : string) : string * option string :=
  match split_once "=" arg with
  | Some (flag, value) => (flag, Some value)
  | None => (arg, None)
  end.

Lemma flag_of_inline flag value :
  contains "=" flag = false → flag_of (flag +:+ String "=" value) = (flag, Some value).
Proof. intros H. unfold flag_of. by rewrite split_once_app. Qed.

Lemma flag_of_alone flag : contains "=" flag = false → flag_of flag = (flag, None).
Proof. intros H. unfold flag_of. by rewrite split_once_None. Qed.

Lemma flag_step_config arg inline st :
  flag_of arg = ("--config", inline) →
  flag_step arg st = Ok (Value inline (AppCli "--config requires a path") (use_config st)).
Proof. intros H. unfold flag_step. fold (flag_of arg). by rewrite H. Qed.

Lemma flag_step_quiet arg inline st :
  flag_of arg = ("--quiet", inline) → cl_mode st ≠ None → default "true" inline ∈ ["true"; "false"] →
  flag_step arg st = Ok (Next (set_value "QUIET" (default "true" inline) st)).
Proof.
  intros H Hm Hv. unfold flag_step. fold (flag_of arg). rewrite H.
  rewrite (decide_False (P := strip_prefix _ _ = _)), (decide_False (P := _ = "--config")) by done.
  rewrite decide_False by done. rewrite decide_True by done.
  rewrite decide_False; [done|]. set_solver.
Qed.

Lemma flag_step_value arg flag key inline st :
  flag_of arg = (flag, inline) → (flag, key) ∈ VALUE_FLAGS → cl_mode st ≠ None →
  flag_step arg st = Ok (Value inline (AppCli (flag +:+ " requires a value"))
    (λ value, Ok (set_value key value st))).
Proof.
  intros H Hf%flags_ok Hm. unfold flag_ok in Hf. cbn [fst snd] in Hf.
  rewrite !andb_true_iff, !bool_decide_eq_true in Hf.
  destruct Hf as (((((Hd & Hc) & Hq) & Hv) & _) & _).
  unfold flag_step. fold (flag_of arg). rewrite H.
  rewrite decide_False by (intros E; rewrite E in Hd; by destruct Hd).
  rewrite !decide_False by done. by rewrite Hv.
Qed.

Lemma use_config_ok st path : path ≠ EmptyString → use_config st path = Ok (set_config path st).
Proof. intros H. unfold use_config. by rewrite decide_False. Qed.

Lemma parse_args_inline arg value missing use rest st st' :
  cli_step arg st = Ok (Value (Some value) missing use) → use value = Ok st' →
  parse_args (arg :: rest) st = parse_args rest st'.
Proof. intros H Hu. cbn [parse_args]. by rewrite H, Hu. Qed.

Lemma parse_args_next arg value missing use rest st st' :
  cli_step arg st = Ok (Value None missing use) → use value = Ok st' →
  parse_args (arg :: value :: rest) st = parse_args rest st'.
Proof. intros H Hu. cbn [parse_args]. by rewrite H, Hu. Qed.

Lemma value_flag_plain flag key :
  (flag, key) ∈ VALUE_FLAGS → contains "=" flag = false ∧ flag ∉ fixed_words.
Proof.
  intros Hf%flags_ok. unfold flag_ok in Hf. cbn [fst snd] in Hf.
  rewrite !andb_true_iff, negb_true_iff, !bool_decide_eq_true in Hf.
  split; [apply Hf|apply Hf].
Qed.

(** One option: the loop goes on after it, with its effect. *)
Lemma parse_opt o rest st :
  wf_opt o → (cl_mode st ≠ None ∨ is_config o) →
  parse_args (opt_args o ++ rest) st = parse_args rest (opt_effect st o).
Proof.
  intros Hw Hm. destruct o as [[] path|[] flag key value|[b|]];
    cbn [wf_opt is_config opt_args opt_effect app] in *.
  - change ("--config=" +:+ path) with ("--config" +:+ String "=" path).
    eapply parse_args_inline; [|by apply use_config_ok].
    rewrite cli_step_flag by apply inline_not_fixed. by apply flag_step_config, flag_of_inline.
  - eapply parse_args_next; [|by apply use_config_ok]. by apply flag_step_config.
  - destruct Hm as [Hm|[]], (value_flag_plain _ _ Hw) as [He _].
    eapply parse_args_inline.
    + rewrite cli_step_flag by apply inline_not_fixed.
      rewrite (flag_step_value _ flag key (Some value));
        [reflexivity|by apply flag_of_inline|done..].
    + reflexivity.
  - destruct Hm as [Hm|[]], (value_flag_plain _ _ Hw) as [He Hx].
    eapply parse_args_next.
    + rewrite cli_step_flag by done.
      rewrite (flag_step_value _ flag key None); [reflexivity|by apply flag_of_alone|done..].
    + reflexivity.
  - destruct Hm as [Hm|[]]. change ("--quiet=" +:+ bool_text b) with ("--quiet" +:+ String "=" (bool_text b)).
    cbn [parse_args]. rewrite cli_step_flag by apply inline_not_fixed.
    rewrite (flag_step_quiet _ (Some (bool_text b))); [done|by apply flag_of_inline|done|].
    destruct b; set_solver.
  - destruct Hm as [Hm|[]]. cbn [parse_args]. change (cli_step "--quiet" st) with (flag_step "--quiet" st).
    rewrite (flag_step_quiet _ None); [done..|]. set_solver.
Qed.

Lemma opt_effect_mode opts st : cl_mode (foldl opt_effect st opts) = cl_mode st.
Proof. revert st. induction opts as [|[] opts IH]; intros st; simpl; [done|by rewrite IH..]. Qed.

Lemma parse_opts opts rest st :
  Forall wf_opt opts → (cl_mode st ≠ None ∨ Forall is_config opts) →
  parse_args (mjoin (opt_args <$> opts) ++ rest) st = parse_args rest (foldl opt_effect st opts).
Proof.
  intros H. revert st. induction H as [|o opts Ho _ IH]; intros st Hm; [done|].
  cbn [fmap list_fmap mjoin list_join foldl]. rewrite <-app_assoc, parse_opt.
  - apply IH. destruct Hm as [Hm|[_ Hm]%Forall_cons]; [left|by right].
    by destruct o.
  - done.
  - destruct Hm as [Hm|[Hm _]%Forall_cons]; [by left|by right].
Qed.

(** The options do what they say: after the subcommand, any options in any
    order, their values inline or in the next argument, give a run of that mode
    with these settings, the last of a name counting; the configuration path may
    also be given before the subcommand. *)
Lemma cli_options program m before after :
  Forall (λ o, wf_opt o ∧ is_config o) before → Forall wf_opt after →
  cli_parse (program :: mjoin (opt_args <$> before) ++ mode_name m :: mjoin (opt_args <$> after)) =
  let st := foldl opt_effect (set_mode m (foldl opt_effect cli_start before)) after in
  Ok (Run m (cl_config st) (cl_explicit st) (cl_values st)).
Proof.
  intros Hb Ha. unfold cli_parse. change (drop 1 (program :: ?l)) with l. rewrite (parse_opts before).
  - cbn [parse_args]. set (st := foldl opt_effect cli_start before).
    assert (cl_mode st = None) as Hm by (unfold st; by rewrite opt_effect_mode).
    assert (cli_step (mode_name m) st = Ok (Next (set_mode m st))) as ->.
    { unfold cli_step. rewrite Hm. by destruct m. }
    cbn iota. rewrite <-(app_nil_r (mjoin (opt_args <$> after))), parse_opts by (try done; by left).
    cbn [parse_args]. by rewrite opt_effect_mode.
  - eapply Forall_impl; [exact Hb|]. by intros ? [? _].
  - right. eapply Forall_impl; [exact Hb|]. by intros ? [_ ?].
Qed.

(** ** The grammar *)

(** The words [l] lead the loop from [st] to [st'].  Options other than
    [--config] come after the subcommand, which is given once. *)
Inductive reads_words : CliState → list string → CliState → Prop :=
| words_none st : reads_words st [] st
| words_opt st o l st' :
    wf_opt o → (cl_mode st ≠ None ∨ is_config o) →
    reads_words (opt_effect st o) l st' → reads_words st (opt_args o ++ l) st'
| words_mode st m l st' :
    cl_mode st = None →
    reads_words (set_mode m st) l st' → reads_words st (mode_name m :: l) st'.

(** The command lines of the program: a run of a subcommand with its settings,
    or a call for help or the version, after which nothing is looked at. *)
Inductive command_line : list string → CliCommand → Prop :=
| line_run l m st :
    reads_words cli_start l st → cl_mode st = Some m →
    command_line l (Run m (cl_config st) (cl_explicit st) (cl_values st))
| line_help l st w rest :
    reads_words cli_start l st → w ∈ ["-h"; "--help"] → command_line (l ++ w :: rest) Help
| line_version l st w rest :
    reads_words cli_start l st → w ∈ ["-V"; "--version"] → command_line (l ++ w :: rest) Version.

Lemma cli_step_mode m st : cl_mode st = None → cli_step (mode_name m) st = Ok (Next (set_mode m st)).
Proof. intros Hm. unfold cli_step. rewrite Hm. by destruct m. Qed.

(** The parser follows the words. *)
Lemma parse_words st l st' rest :
  reads_words st l st' → parse_args (l ++ rest) st = parse_args rest st'.
Proof.
  induction 1 as [st|st o l st' Hw Hm _ IH|st m l st' Hm _ IH]; [done|..].
  - by rewrite <-app_assoc, parse_opt.
  - simpl. by rewrite cli_step_mode.
Qed.

(** What one argument is. *)
Lemma flag_of_spec arg flag inline :
  flag_of arg = (flag, inline) →
  arg = match inline with Some v => flag +:+ String "=" v | None => flag end.
Proof.
  unfold flag_of. destruct (split_once "=" arg) as [[a b]|] eqn:E; intros [= <- <-]; [|done].
  by apply split_once_Some in E as [-> _].
Qed.

Lemma value_flag_Some flag key : value_flag flag = Some key → (flag, key) ∈ VALUE_FLAGS.
Proof.
  unfold value_flag. intros ([f k] & H & [= ->])%fmap_Some.
  apply find_some in H as [Hin Hf]. apply bool_decide_eq_true in Hf. simpl in Hf. subst f.
  by apply list_elem_of_In.
Qed.

(** The arguments an option has when its flag has come with [inline]. *)
Definition opt_of (inline : option string) (mk : bool → string → Opt) (arg : string) : Prop :=
  match inline with
  | Some v => opt_args (mk true v) = [arg]
  | None => ∀ v, opt_args (mk false v) = [arg; v]
  end.

Lemma flag_step_inv arg st step :
  flag_step arg st = Ok step →
  (∃ o, step = Next (opt_effect st o) ∧ cl_mode st ≠ None ∧ wf_opt o ∧ opt_args o = [arg]) ∨
  ∃ inline missing use mk, step = Value inline missing use ∧ opt_of inline mk arg ∧
    ∀ v st', use v = Ok st' → ∀ b,
      wf_opt (mk b v) ∧ (cl_mode st ≠ None ∨ is_config (mk b v)) ∧ st' = opt_effect st (mk b v).
Proof.
  unfold flag_step. fold (flag_of arg). destruct (flag_of arg) as [flag inline] eqn:Hf.
  apply flag_of_spec in Hf. case_decide; [done|].
  case_decide as Hc; [intros [= <-]; right|].
  { subst flag. exists inline, (AppCli "--config requires a path"), (use_config st), OptConfig.
    split; [done|]. split; [by destruct inline; simpl; subst|].
    intros v st' Hu b. unfold use_config in Hu. case_decide; [done|]. injection Hu as <-.
    split_and!; [done|by right|done]. }
  case_decide as Hm; [done|].
  case_decide as Hq.
  - subst flag. case_decide as Hv; [done|]. intros [= <-]. left.
    destruct inline as [v|]; simpl in Hv.
    + destruct (decide (v = "true")) as [->|Ht]; [by exists (OptQuiet (Some true)); subst|].
      destruct (decide (v = "false")) as [->|Hf']; [by exists (OptQuiet (Some false)); subst|].
      by destruct Hv.
    + exists (OptQuiet None). by subst.
  - intros (key & Hk%ok_or_Ok%value_flag_Some & [= <-])%result_bind_Ok. right.
    eexists inline, _, _, (λ b v, OptValue b flag key v). split; [done|].
    split; [by destruct inline; simpl; subst|].
    intros v st' [= <-] b. split_and!; [done|by left|done].
Qed.

Lemma cli_step_inv arg st step :
  cli_step arg st = Ok step →
  match step with
  | Done c => (c = Help ∧ arg ∈ ["-h"; "--help"]) ∨ (c = Version ∧ arg ∈ ["-V"; "--version"])
  | Next st' => (∃ m, arg = mode_name m ∧ cl_mode st = None ∧ st' = set_mode m st) ∨
      ∃ o, st' = opt_effect st o ∧ cl_mode st ≠ None ∧ wf_opt o ∧ opt_args o = [arg]
  | Value inline missing use => ∃ mk, opt_of inline mk arg ∧
      ∀ v st', use v = Ok st' → ∀ b,
        wf_opt (mk b v) ∧ (cl_mode st ≠ None ∨ is_config (mk b v)) ∧ st' = opt_effect st (mk b v)
  end.
Proof.
  unfold cli_step. case_decide as Hh; [intros [= <-]; left; set_solver|].
  case_decide as Hv; [intros [= <-]; right; set_solver|].
  case_decide as Hm.
  - destruct (cl_mode st) eqn:E; [done|]. intros [= <-]. left.
    destruct Hm as [->| ->]; [by exists ModeServer|by exists ModeExpose].
  - intros [(o & -> & H)|(inline & missing & use & mk & -> & H)]%flag_step_inv; [by right; exists o|].
    by exists mk.
Qed.

(** The parser accepts nothing else. *)
Lemma parse_args_inv l st c :
  parse_args l st = Ok c →
  ∃ l1 st' l2, l = l1 ++ l2 ∧ reads_words st l1 st' ∧
    ((l2 = [] ∧ ∃ m, cl_mode st' = Some m ∧
        c = Run m (cl_config st') (cl_explicit st') (cl_values st')) ∨
     (∃ w rest, l2 = w :: rest ∧ c = Help ∧ w ∈ ["-h"; "--help"]) ∨
     (∃ w rest, l2 = w :: rest ∧ c = Version ∧ w ∈ ["-V"; "--version"])).
Proof.
  remember (List.length l) as n eqn:En. revert l En st.
  induction (Nat.lt_wf_0 n) as [n _ IH]; intros l -> st H.
  destruct l as [|arg l]; cbn [parse_args] in H.
  { destruct (cl_mode st) as [m|] eqn:Hm; [|done]. injection H as <-.
    exists [], st, []. split; [done|]. split; [constructor|]. left. split; [done|]. by exists m. }
  assert (∀ o l', wf_opt o → (cl_mode st ≠ None ∨ is_config o) → arg :: l = opt_args o ++ l' →
    (List.length l' < S (List.length l))%nat → parse_args l' (opt_effect st o) = Ok c →
    ∃ l1 st' l2, arg :: l = l1 ++ l2 ∧ reads_words st l1 st' ∧
    ((l2 = [] ∧ ∃ m, cl_mode st' = Some m ∧
        c = Run m (cl_config st') (cl_explicit st') (cl_values st')) ∨
     (∃ w rest, l2 = w :: rest ∧ c = Help ∧ w ∈ ["-h"; "--help"]) ∨
     (∃ w rest, l2 = w :: rest ∧ c = Version ∧ w ∈ ["-V"; "--version"]))) as Hopt.
  { intros o l' Hw Hm -> Hlt Hp. destruct (IH _ Hlt l' eq_refl _ Hp) as (l1 & st' & l2 & -> & H1 & H2).
    exists (opt_args o ++ l1), st', l2. rewrite app_assoc. split; [done|]. split; [|done]. by constructor. }
  destruct (cli_step arg st) as [step|] eqn:E; [|done]. apply cli_step_inv in E.
  destruct step as [c'|st1|inline missing use].
  - injection H as ->. exists [], st, (arg :: l). split; [done|]. split; [constructor|].
    right. destruct E as [[-> ?]|[-> ?]]; [left|right]; by exists arg, l.
  - destruct E as [(m & -> & Hm & ->)|(o & -> & Hm & Hw & Ho)].
    + destruct (IH (List.length l)) with (l := l) (st := set_mode m st)
        as (l1 & st' & l2 & -> & H1 & H2); [simpl; lia|done|done|].
      exists (mode_name m :: l1), st', l2. split; [done|]. split; [by constructor|done].
    + apply (Hopt o l); [done|by left|by rewrite Ho|lia|done].
  - destruct E as (mk & Hmk & Hu). destruct inline as [v|]; simpl in Hmk.
    + destruct (use v) as [st1|] eqn:Hv; [|done]. destruct (Hu _ _ Hv true) as (Hw & Hm & ->).
      apply (Hopt (mk true v) l); [done|done|by rewrite Hmk|lia|done].
    + destruct l as [|v l]; [done|].
      destruct (use v) as [st1|] eqn:Hv; [|done]. destruct (Hu _ _ Hv false) as (Hw & Hm & ->).
      apply (Hopt (mk false v) l); [done|done|by rewrite Hmk|simpl; lia|done].
Qed.

(** Every refusal is a usage error. *)
Definition usage_errors (r : result AppError Step) : Prop :=
  match r with
  | Err e => exit_code e = 2
  | Ok (Value _ missing use) => exit_code missing = 2 ∧ ∀ v e, use v = Err e → exit_code e = 2
  | Ok _ => True
  end.

Lemma cli_step_usage arg st : usage_errors (cli_step arg st).
Proof.
  unfold cli_step. case_decide; [done|]. case_decide; [done|].
  case_decide; [by destruct (cl_mode st)|]. unfold flag_step. fold (flag_of arg).
  destruct (flag_of arg) as [flag inline]. case_decide; [done|].
  case_decide.
  { split; [done|]. intros v e. unfold use_config. by case_decide; intros [= <-]. }
  case_decide; [done|]. case_decide; [by case_decide|].
  by destruct (value_flag flag).
Qed.

Lemma parse_args_usage l st e : parse_args l st = Err e → exit_code e = 2.
Proof.
  remember (List.length l) as n eqn:En. revert l En st.
  induction (Nat.lt_wf_0 n) as [n _ IH]; intros l -> st H.
  destruct l as [|arg l]; cbn [parse_args] in H; [destruct (cl_mode st); [done|by injection H as <-]|].
  pose proof (cli_step_usage arg st) as Hs.
  destruct (cli_step arg st) as [[c|st1|[v|] missing use]|e1]; simpl in Hs; [done|..].
  - eapply IH; [|reflexivity|exact H]. simpl. lia.
  - destruct Hs as [_ Hu]. destruct (use v) eqn:Hv; [|injection H as <-; by eapply Hu].
    eapply IH; [|reflexivity|exact H]. simpl. lia.
  - destruct Hs as [Hm Hu]. destruct l as [|v l]; [by injection H as <-|].
    destruct (use v) eqn:Hv; [|injection H as <-; by eapply Hu].
    eapply IH; [|reflexivity|exact H]. simpl. lia.
  - by injection H as <-.
Qed.

(** (C21) The parser of the command line decides its grammar: it returns a
    command exactly for the lines of the grammar and exactly the command the
    line stands for (the last of the settings with a name counts, values may
    be inline or in the next argument, [--config] may come before the
    subcommand, help and version end the reading), and every other line is a
    usage error. *)
Theorem cli_grammar args c :
  (cli_parse args = Ok c ↔ command_line (drop 1 args) c) ∧
  ∀ e, cli_parse args = Err e → exit_code e = 2.
Proof.
  unfold cli_parse. split; [split|].
  - intros (l1 & st & l2 & -> & H1 & H2)%parse_args_inv.
    destruct H2 as [[-> (m & Hm & ->)]|[(w & rest & -> & -> & Hw)|(w & rest & -> & -> & Hw)]].
    + rewrite app_nil_r. by constructor.
    + by econstructor.
    + by econstructor.
  - intros H. destruct H as [l m st H Hm|l st w rest H Hw|l st w rest H Hw].
    + rewrite <-(app_nil_r l), (parse_words _ _ _ _ H). cbn [parse_args]. by rewrite Hm.
    + rewrite (parse_words _ _ _ _ H). cbn [parse_args]. unfold cli_step.
      by rewrite decide_True by set_solver.
    + rewrite (parse_words _ _ _ _ H). cbn [parse_args]. unfold cli_step.
      rewrite decide_False by (apply elem_of_cons in Hw as [->|Hw%list_elem_of_singleton]; [|subst w]; by intros [|]).
      by rewrite decide_True by set_solver.
  - apply parse_args_usage.
Qed.

(** ** The help text *)

(** The options a text names: the words of letters and dashes that start with a
    dash and are not one. *)
Definition option_char (c : ascii) : bool :=
  bool_decide (c = "-"%char) ||
  let n := N_of_ascii c in
  ((65 <=? n)%N && (n <=? 90)%N) || ((97 <=? n)%N && (n <=? 122)%N).

Fixpoint option_words (s word : string) : list string :=
  match s with
  | EmptyString => [word]
  | String c s =>
      if option_char c then option_words s (word +:+ String c EmptyString)
      else word :: option_words s EmptyString
  end.

Definition option_names (s : string) : list string :=
  filter (λ w, is_Some (strip_prefix "-" w) ∧ w ≠ "-") (option_words s EmptyString).

Definition accepted_in (m : RunMode) (word : string) : bool :=
  negb (is_err (cli_step word (set_mode m cli_start))).

Lemma help_options_accepted m : forallb (accepted_in m) (option_names help) = true.
Proof. destruct m; vm_compute; reflexivity. Qed.

Definition known_words : list string :=
  ["-h"; "--help"; "-V"; "--version"; "--config"; "--quiet"] ++ VALUE_FLAGS.*1.

Lemma help_names_options :
  forallb (λ w, bool_decide (w ∈ option_names help)) known_words = true.
Proof. vm_compute. reflexivity. Qed.

Lemma known_words_value flag key : value_flag flag = Some key → flag ∈ known_words.
Proof.
  intros Hf%value_flag_Some. apply elem_of_app. right. apply list_elem_of_fmap.
  by exists (flag, key).
Qed.

Lemma accepted_known m word step :
  is_Some (strip_prefix "-" word) → contains "=" word = false →
  cli_step word (set_mode m cli_start) = Ok step → word ∈ known_words.
Proof.
  intros Hd He H. unfold cli_step in H.
  case_decide as Hh; [destruct Hh as [->| ->]; unfold known_words; set_solver|].
  case_decide as Hv; [destruct Hv as [->| ->]; unfold known_words; set_solver|].
  case_decide as Hm; [by destruct Hm as [->| ->]; destruct Hd|].
  unfold flag_step in H. fold (flag_of word) in H. rewrite (flag_of_alone _ He) in H.
  case_decide; [done|]. case_decide; [subst; unfold known_words; set_solver|].
  case_decide; [done|]. case_decide; [subst; unfold known_words; set_solver|].
  apply result_bind_Ok in H as (k & Hf%ok_or_Ok%known_words_value & _). exact Hf.
Qed.

(** Reading the help text: its words, the lines of an option (up to the next
    option or a blank line), and the word that follows "default" there. *)
Definition line_words (line : string) : list string :=
  filter (λ w, w ≠ EmptyString) (split " " line).

Definition starts_entry (line : string) : bool :=
  match line_words line with
  | w :: _ => bool_decide (is_Some (strip_prefix "-" w))
  | [] => true
  end.

Fixpoint continuation (lines : list string) : list string :=
  match lines with
  | l :: lines => if starts_entry l then [] else line_words l ++ continuation lines
  | [] => []
  end.

Fixpoint entry_words (flag : string) (lines : list string) : list string :=
  match lines with
  | l :: lines =>
      if starts_entry l && bool_decide (flag ∈ line_words l)
      then line_words l ++ continuation lines
      else entry_words flag lines
  | [] => []
  end.

(** A word without the punctuation of the sentence around it. *)
Definition bare_word (w : string) : string :=
  let w := default w (strip_prefix "(" w) in
  let w := default w (strip_suffix ";" w) in
  let w := default w (strip_suffix "." w) in
  default w (strip_suffix ")" w).

Fixpoint word_after (mark : string) (ws : list string) : option string :=
  match ws with
  | a :: ((b :: _) as rest) =>
      if decide (bare_word a = mark) then Some (bare_word b) else word_after mark rest
  | _ => None
  end.

Definition documented_default (flag text : string) : option string :=
  word_after "default" (entry_words flag (split newline text)).

Definition documented_required (flag text : string) : bool :=
  bool_decide ("required" ∈ bare_word <$> entry_words flag (split newline text)).

Lemma documented_defaults flag name :
  (flag, name) ∈ VALUE_FLAGS →
  documented_default flag help =
    snd <$> List.find (λ p, bool_decide (p.1 = name))
      [("LISTEN", ":4000"); ("DATA_BIND", "0.0.0.0"); ("ALLOWED_PORTS", "10000-65535");
       ("MAX_CONNECTIONS", "256"); ("LOG_LEVEL", "info")].
Proof.
  unfold VALUE_FLAGS. intros Hin.
  repeat (apply elem_of_cons in Hin as [[= -> ->]|Hin]; [vm_compute; reflexivity|]).
  by apply elem_of_nil in Hin.
Qed.

Lemma documented_required_options flag name :
  (flag, name) ∈ VALUE_FLAGS → documented_required flag help = true →
  name = "SERVER" ∨ name = "TARGET".
Proof.
  unfold VALUE_FLAGS. intros Hin Hr.
  repeat (apply elem_of_cons in Hin as [[= -> ->]|Hin];
    [first [by left|by right|vm_compute in Hr; discriminate Hr]|]).
  by apply elem_of_nil in Hin.
Qed.

(** Setting a value that a reader of the settings falls back to anyway. *)
Lemma server_config_default (raw : RawConfig) key d :
  raw !! key = None →
  (key, d) ∈ [("LISTEN", ":4000"); ("DATA_BIND", "0.0.0.0"); ("ALLOWED_PORTS", "10000-65535");
              ("MAX_CONNECTIONS", "256"); ("LOG_LEVEL", "info")] →
  server_config (<[key := d]> raw) = server_config raw ∧
  expose_config (<[key := d]> raw) = expose_config raw.
Proof.
  intros Hn Hin. unfold server_config, expose_config, required, log_level, quiet.
  repeat (apply elem_of_cons in Hin as [[= -> ->]|Hin];
    [rewrite ?lookup_insert_eq, ?(lookup_insert_ne raw), ?Hn by done; done|]).
  by apply elem_of_nil in Hin.
Qed.

(** (C38) The help text is true.  The options it names are exactly those the
    parser takes after a subcommand, so no option is undocumented and none is
    documented that is refused.  The default it states for an option is the
    value in effect without the option: leaving the option out is the same as
    giving that value, whatever the other settings; [--listen], [--data-bind],
    [--allowed-ports], [--max-connections] and [--log-level] are the options with
    a stated default, and the configuration file without [--config] is the one
    stated.  An option it calls required is one [expose] fails without.  And a
    server that is given nothing but a key listens on all IPv4 addresses, port
    4000, with the range 10000-65535, 256 connections, level info, not quiet. *)
Theorem help_documents m word key :
  is_Some (strip_prefix "-" word) → contains "=" word = false → key ≠ EmptyString →
  (word ∈ option_names help ↔ ∃ step, cli_step word (set_mode m cli_start) = Ok step) ∧
  (∀ flag name d (raw : RawConfig), (flag, name) ∈ VALUE_FLAGS →
     documented_default flag help = Some d → raw !! name = None →
     server_config (<[name := d]> raw) = server_config raw ∧
     expose_config (<[name := d]> raw) = expose_config raw) ∧
  (∀ flag name, (flag, name) ∈ VALUE_FLAGS →
     is_Some (documented_default flag help) ↔
     name ∈ ["LISTEN"; "DATA_BIND"; "ALLOWED_PORTS"; "MAX_CONNECTIONS"; "LOG_LEVEL"]) ∧
  documented_default "--config" help = Some ("./" +:+ cl_config cli_start) ∧
  (∀ flag name (raw : RawConfig), (flag, name) ∈ VALUE_FLAGS →
     documented_required flag help = true → raw !! name = None →
     is_err (expose_config raw) = true) ∧
  server_config {["KEY" := key]} =
    Ok (mkServerConfig key (mkSocketAddr (V4 0 0 0 0) 4000) (V4 0 0 0 0) (10000, 65535) 256
          LevelInfo false).
Proof.
  intros Hd He Hk. split_and!; [split| | | | |].
  - intros Hw. pose proof (help_options_accepted m) as H. rewrite forallb_forall in H.
    apply list_elem_of_In, H in Hw. unfold accepted_in in Hw.
    destruct (cli_step word _) as [step|]; [exists step; reflexivity|discriminate Hw].
  - intros [step H]. apply accepted_known in H; [|assumption..].
    pose proof help_names_options as Hall. rewrite forallb_forall in Hall.
    apply list_elem_of_In, Hall, bool_decide_eq_true in H. exact H.
  - intros flag name d raw Hin Hdoc Hn. apply server_config_default; [exact Hn|].
    rewrite (documented_defaults _ _ Hin) in Hdoc. clear Hin.
    apply fmap_Some in Hdoc as ([n v] & Hf & Hv). apply find_some in Hf as [Hf Hn'].
    apply bool_decide_eq_true in Hn'. simpl in Hv, Hn'. subst. by apply list_elem_of_In.
  - intros flag name Hin. rewrite (documented_defaults _ _ Hin). clear.
    rewrite fmap_is_Some. cbn [List.find fst].
    repeat (case_bool_decide; [subst; split; [set_solver|by eexists]|]).
    split; [by intros [? [=]]|]. set_solver.
  - vm_compute. reflexivity.
  - intros flag name raw Hin Hdoc Hn. unfold expose_config, required.
    destruct (documented_required_options _ _ Hin Hdoc) as [-> | ->]; rewrite Hn.
    + destruct (raw !! "KEY") as [k|]; [|done]. simpl. by destruct (decide (k ≠ EmptyString)).
    + destruct (raw !! "KEY") as [k|]; [|done]. simpl.
      destruct (decide (k ≠ EmptyString)); [|done]. simpl.
      destruct (raw !! "SERVER") as [sv|]; [|done]. simpl.
      destruct (decide (sv ≠ EmptyString)); [|done]. simpl. by destruct (parse_server sv).
  - unfold server_config, required. rewrite lookup_singleton_eq. rewrite decide_True by done.
    reflexivity.
Qed.
