(* ===== verification/SettingsWitness.v ===== *)
(** * The properties of the settings, on concrete values *)

From Stdlib Require Import Strings.String.
From S2P Require Import Prelude Errors Text TextFacts Net NetFacts Config Cli SettingsFacts CliFacts.

Local Open Scope Z_scope.

Definition no_env (name : string) : option string :=
  if decide (name = "TUNLET_KEY") then Some "from the environment" else None.
Definition error_text (e : IoError) : string := "error".
Definition no_file (path : string) : result IoError bytes := Err NotFound.

Lemma endpoint_roundtrip_witness :
  parse_server (endpoint_text (mkEndpoint "2001:db8::1" 4000)) = Ok (mkEndpoint "2001:db8::1" 4000) ∧
  parse_target (endpoint_text (mkEndpoint "localhost" 80)) = Ok (mkEndpoint "localhost" 80).
Proof.
  split.
  - apply (endpoint_roundtrip (mkEndpoint "2001:db8::1" 4000)); [by split|]. simpl. lia.
  - apply (endpoint_roundtrip (mkEndpoint "localhost" 80)); [by split|]. simpl. lia.
Defined.

(** The second address answers; the first refuses. *)
Definition two_addresses : DialEnv := {|
  de_now := λ n, Z.of_nat n;
  de_lookup := λ _ _, Some (Ok [mkSocketAddr (V4 10 0 0 1) 80; mkSocketAddr (V4 10 0 0 2) 80]);
  de_connect := λ i _ _, Some (match i with O => Err OtherIo | _ => Ok () end);
  de_nodelay := Ok ()
|}.

Lemma dial_in_order_witness :
  dial error_text two_addresses (mkEndpoint "host" 80) 100 = Ok (mkSocketAddr (V4 10 0 0 2) 80).
Proof.
  apply dial_in_order. split; [vm_compute; reflexivity|]. split; [reflexivity|].
  exists [mkSocketAddr (V4 10 0 0 1) 80; mkSocketAddr (V4 10 0 0 2) 80], 1%nat.
  split; [reflexivity|]. split; [reflexivity|]. split; [by split|].
  intros [|j] b Hj Hb; [|lia]. exists OtherIo. by split.
Defined.

(** A flag, a variable and a setting of the file. *)
Definition layered_text : string :=
  config_text [("KEY", "from the file"); ("TARGET", "a = b # c")].

Definition layered_file : gmap string string :=
  from_pairs [("KEY", "from the file"); ("TARGET", "a = b # c")].
Definition layered : gmap string string :=
  merge layered_file (env_config no_env) {[ "SERVER" := "flag" ]}.

Lemma settings_precedence_witness :
  layered !! "SERVER" = Some "flag" ∧ layered !! "KEY" = Some "from the environment" ∧
  layered !! "TARGET" = Some "a = b # c".
Proof.
  assert (parse_file error_text "tunlet.cfg" false (Ok (list_byte_of_string layered_text)) =
    Ok layered_file) as Hf by (vm_compute; reflexivity).
  assert (resolve error_text "tunlet.cfg" false {[ "SERVER" := "flag" ]} no_env
    (Ok (list_byte_of_string layered_text)) = Ok layered) as Hr
    by (unfold resolve; rewrite Hf; reflexivity).
  pose proof (settings_precedence _ _ _ _ _ _ _ _ Hf Hr) as H.
  rewrite !H. vm_compute. split; [reflexivity|]. split; reflexivity.
Defined.

Lemma started_config_valid_witness :
  ∃ c, run_command error_text no_env no_file ["tunlet"; "server"; "--listen"; ":5000"] =
    Ok (StartServer c (logging_init LevelInfo false)) ∧ wf_server_config c.
Proof.
  eexists. split; [vm_compute; reflexivity|].
  eapply (started_config_valid error_text no_env no_file ["tunlet"; "server"; "--listen"; ":5000"]
    (StartServer _ (logging_init LevelInfo false))). vm_compute. reflexivity.
Defined.

Lemma file_errors_hide_values_witness :
  ∃ n reason, reason ∈ line_reasons ∧
    config_line_error "tunlet.cfg" 1 "unterminated quoted value" =
    config_line_error "tunlet.cfg" n reason.
Proof.
  destruct (file_errors_hide_values error_text "tunlet.cfg" false
    (Ok (list_byte_of_string "KEY='my secret"))
    (config_line_error "tunlet.cfg" 1 "unterminated quoted value")) as [[e [E _]]|[E|H]].
  - vm_compute. reflexivity.
  - discriminate E.
  - discriminate E.
  - exact H.
Defined.

Lemma config_file_roundtrip_witness :
  parse_file error_text "tunlet.cfg" true (Ok (list_byte_of_string layered_text)) =
  Ok (from_pairs [("KEY", "from the file"); ("TARGET", "a = b # c")]).
Proof.
  apply config_file_roundtrip. repeat constructor; simpl; by vm_compute.
Defined.

Lemma cli_options_witness :
  cli_parse ["tunlet"; "--config"; "my.cfg"; "expose"; "--target=:8080"; "--quiet"; "--key"; "k"] =
  Ok (Run ModeExpose "my.cfg" true
        (<["KEY" := "k"]> (<["QUIET" := "true"]> {[ "TARGET" := ":8080" ]}))).
Proof.
  apply (cli_options "tunlet" ModeExpose [OptConfig false "my.cfg"]
    [OptValue true "--target" "TARGET" ":8080"; OptQuiet None; OptValue false "--key" "KEY" "k"]).
  - by repeat constructor.
  - apply Forall_forall. intros o Ho. repeat (apply elem_of_cons in Ho as [-> | Ho]);
      [| | |by apply not_elem_of_nil in Ho]; simpl; [|done|]; unfold VALUE_FLAGS;
      repeat (first [left | right]).
Defined.

Lemma cli_grammar_witness :
  command_line ["--config"; "my.cfg"; "expose"; "--quiet"; "--target=:8080"]
    (Run ModeExpose "my.cfg" true (<["TARGET" := ":8080"]> {[ "QUIET" := "true" ]})) ∧
  ¬ (∃ c, command_line ["--quiet"; "expose"] c).
Proof.
  split.
  - apply (cli_grammar ["tunlet"; "--config"; "my.cfg"; "expose"; "--quiet"; "--target=:8080"]).
    vm_compute. reflexivity.
  - intros [c H]. apply (cli_grammar ["tunlet"; "--quiet"; "expose"] c) in H.
    vm_compute in H. discriminate H.
Defined.

Lemma help_documents_witness :
  ("--listen" ∈ option_names help ↔
     ∃ step, cli_step "--listen" (set_mode ModeServer cli_start) = Ok step) ∧
  server_config (<["LISTEN" := ":4000"]> {["KEY" := "secret"]}) =
    server_config {["KEY" := "secret"]} ∧
  is_err (expose_config {["KEY" := "secret"]}) = true ∧
  server_config {["KEY" := "secret"]} =
    Ok (mkServerConfig "secret" (mkSocketAddr (V4 0 0 0 0) 4000) (V4 0 0 0 0) (10000, 65535) 256
          LevelInfo false).
Proof.
  destruct (help_documents ModeServer "--listen" "secret") as (H1 & H2 & _ & _ & H5 & H6).
  - exists "-listen". reflexivity.
  - reflexivity.
  - discriminate.
  - split; [exact H1|]. split; [|split; [|exact H6]].
    + apply (H2 "--listen" "LISTEN" ":4000" {["KEY" := "secret"]}); [right; left|vm_compute; reflexivity|reflexivity].
    + apply (H5 "--server" "SERVER" {["KEY" := "secret"]}); [do 5 right; left|vm_compute; reflexivity|reflexivity].
Defined.
