(* ===== verification/Registry.v ===== *)
(** * The registry actor: [src/server/registry.rs]

    The registry owns the port slots, the sessions and the pending requests of
    the server, and handles one command at a time.  Each handler is a function
    of the state, the command and the answers the handler gets from outside
    during that one command (the [Env]): the clock, the operating system's
    answer to a bind, the random identifiers, and whether the task behind a
    oneshot channel still listens.

    What the registry shares with other tasks is part of the state, under
    handles: the writer queues of the control connections, the semaphores of
    the sessions, the forwarding tasks it has spawned and the cancellation
    tokens it has fired.  A session's semaphore is named by the generation of
    the registration that created it. *)

From S2P Require Import Prelude Errors Protocol Runtime Timing Net Config.

Local Open Scope Z_scope.

Definition MAX_SLOTS : nat := 1024.
Definition MAX_GLOBAL_CONNECTIONS : nat := 8192.
Definition MAX_HANDSHAKES : nat := 1024.
Definition COMMAND_CAPACITY : nat := 1024.
Definition WRITER_CAPACITY : nat := 512.

(** ** Messages *)

Inductive Outbound :=
| OutFrame (f : Frame)
| CloseAfterFlush.

#[export] Instance Outbound_eq_dec : EqDecision Outbound.
Proof. solve_decision. Defined.

(** [Outbound::frame] and [Outbound::error]. *)
Definition out_frame (t : Type_) (p : bytes) : Outbound := OutFrame (mkFrame t p).
Definition out_error (c : ErrorCode) : Outbound := out_frame TError (to_be 2 (as_u16 c)).

(** Handles: writer queues, forwarding tasks, TCP sockets.  A cancellation
    token is one that came with a registration or the one made for a listener. *)
Abbreviation WriterId := nat (only parsing).
Abbreviation TaskId := nat (only parsing).
Abbreviation Socket := nat (only parsing).
Abbreviation Generation := Z (only parsing).

Inductive Token :=
| SessionToken (n : nat)
| ListenerToken (listener_id : Z).

#[export] Instance Token_eq_dec : EqDecision Token.
Proof. solve_decision. Defined.
#[export] Program Instance Token_countable : Countable Token :=
  inj_countable' (λ t, match t with SessionToken n => inl n | ListenerToken i => inr i end)
    (λ s, match s with inl n => SessionToken n | inr i => ListenerToken i end) _.
Next Obligation. by intros []. Qed.

Record RegisterRequest := mkRegisterRequest {
  rq_session_id : SessionId;
  rq_instance_id : InstanceId;
  rq_mode : Mode;
  rq_requested_port : Z;
  rq_writer : WriterId;
  rq_data_cancel : Token;
  rq_control_cancel : Token
}.

Record Registration := mkRegistration {
  rg_assigned_port : Z;
  rg_max_connections : Z;
  rg_generation : Generation
}.

Inductive ClaimOutcome :=
| Delivered
| Rejected (code : ErrorCode) (socket : option Socket).

Inductive Command :=
| CRegister (request : RegisterRequest)
| CAcceptedPublic (listener_id : Z) (port : Z) (socket : Socket) (at_ : Instant)
| CClaimData (sid : SessionId) (rid : RequestId) (socket : Socket)
| CPeekData (sid : SessionId) (rid : RequestId)
| COpenFailed (sid : SessionId) (rid : RequestId) (r : OpenFailure)
| CSessionLost (sid : SessionId) (generation : Generation)
| CGoodbye (sid : SessionId) (generation : Generation)
| CRequestFinished (sid : SessionId) (rid : RequestId)
| CShutdown.

(** What a handler sends back on the reply channel of its command. *)
Inductive Reply :=
| NoReply
| ReplyRegister (r : result ErrorCode Registration)
| ReplyPeek (b : bool)
| ReplyClaim (o : ClaimOutcome)
| ReplyUnit.

(** ** State *)

Record SessionRef := mkSessionRef {
  s_session_id : SessionId;
  s_instance_id : InstanceId;
  s_generation : Generation;
  s_port : Z;
  s_writer : WriterId;
  s_data_cancel : Token;
  s_control_cancel : Token
}.

Inductive SlotState :=
| Active (s : SessionRef)
| Reserved (inst : InstanceId) (gen : Generation) (expires_at : Instant).

Record PortSlot := mkPortSlot {
  listener_id : Z;
  listener_cancel : Token;
  slot_state : SlotState
}.

Record PendingRequest := mkPendingRequest {
  p_generation : Generation;
  p_deadline : Instant;
  p_sender : TaskId
}.

(** A spawned forwarding task: its arguments to [listener::serve_public], the
    semaphore of its session permit, and the socket its oneshot channel has
    delivered, if any. *)
Record Task := mkTask {
  t_session : SessionId;
  t_request : RequestId;
  t_permit : Generation;
  t_deadline : Instant;
  t_cancel : Token;
  t_public : Socket;
  t_data : option Socket
}.

#[export] Instance SessionRef_eq_dec : EqDecision SessionRef.
Proof. solve_decision. Defined.
#[export] Instance SlotState_eq_dec : EqDecision SlotState.
Proof. solve_decision. Defined.

Record Registry {Sem Chan : Type} := mkRegistry {
  ports : gmap Z PortSlot;
  sessions : gmap SessionId SessionRef;
  pending : gmap (SessionId * RequestId) PendingRequest;
  global_connections : Sem;
  next_generation : Z;
  next_listener_id : Z;
  permits : gmap Generation Sem;
  writers : gmap WriterId Chan;
  tasks : gmap TaskId Task;
  next_task : TaskId;
  cancelled : gset Token;
  delayed_cancels : list (Duration * Token)
}.
Arguments Registry : clear implicits.
Arguments mkRegistry {Sem Chan} _ _ _ _ _ _ _ _ _ _ _ _.

(** The owner of a slot, whether it is live or reserved. *)
Definition slot_owner (s : PortSlot) : InstanceId :=
  match slot_state s with
  | Active session => s_instance_id session
  | Reserved i _ _ => i
  end.

(** The answers of the environment during one command. *)
Record Env := mkEnv {
  now : Instant;
  bind_listener : SocketAddr → option IoError;
  random_id : nat → option RequestId;
  draws : nat;
  receiver_open : TaskId → bool
}.

(** Keys of a [BTreeMap] in iteration order. *)
Definition sorted_keys {A} (m : gmap Z A) : list Z :=
  merge_sort Z.le (elements (dom m)).

Fixpoint find_map {A B} (f : A → option B) (l : list A) : option B :=
  match l with
  | [] => None
  | a :: l => match f a with Some b => Some b | None => find_map f l end
  end.

(** ** Field updates *)

Section updates.
Context {Sem Chan : Type}.

Definition set_ports (x : gmap Z PortSlot) (r : Registry Sem Chan) : Registry Sem Chan :=
  mkRegistry x (sessions r) (pending r) (global_connections r)
    (next_generation r) (next_listener_id r) (permits r) (writers r)
    (tasks r) (next_task r) (cancelled r) (delayed_cancels r).

Definition set_sessions (x : gmap SessionId SessionRef) (r : Registry Sem Chan) : Registry Sem Chan :=
  mkRegistry (ports r) x (pending r) (global_connections r)
    (next_generation r) (next_listener_id r) (permits r) (writers r)
    (tasks r) (next_task r) (cancelled r) (delayed_cancels r).

Definition set_pending (x : gmap (SessionId * RequestId) PendingRequest) (r : Registry Sem Chan) : Registry Sem Chan :=
  mkRegistry (ports r) (sessions r) x (global_connections r)
    (next_generation r) (next_listener_id r) (permits r) (writers r)
    (tasks r) (next_task r) (cancelled r) (delayed_cancels r).

Definition set_global_connections (x : Sem) (r : Registry Sem Chan) : Registry Sem Chan :=
  mkRegistry (ports r) (sessions r) (pending r) x (next_generation
    r) (next_listener_id r) (permits r) (writers r) (tasks r)
    (next_task r) (cancelled r) (delayed_cancels r).

Definition set_next_generation (x : Z) (r : Registry Sem Chan) : Registry Sem Chan :=
  mkRegistry (ports r) (sessions r) (pending r) (global_connections
    r) x (next_listener_id r) (permits r) (writers r) (tasks r)
    (next_task r) (cancelled r) (delayed_cancels r).

Definition set_next_listener_id (x : Z) (r : Registry Sem Chan) : Registry Sem Chan :=
  mkRegistry (ports r) (sessions r) (pending r) (global_connections
    r) (next_generation r) x (permits r) (writers r) (tasks r)
    (next_task r) (cancelled r) (delayed_cancels r).

Definition set_permits (x : gmap Generation Sem) (r : Registry Sem Chan) : Registry Sem Chan :=
  mkRegistry (ports r) (sessions r) (pending r) (global_connections
    r) (next_generation r) (next_listener_id r) x (writers r) (tasks
    r) (next_task r) (cancelled r) (delayed_cancels r).

Definition set_writers (x : gmap WriterId Chan) (r : Registry Sem Chan) : Registry Sem Chan :=
  mkRegistry (ports r) (sessions r) (pending r) (global_connections
    r) (next_generation r) (next_listener_id r) (permits r) x (tasks
    r) (next_task r) (cancelled r) (delayed_cancels r).

Definition set_tasks (x : gmap TaskId Task) (r : Registry Sem Chan) : Registry Sem Chan :=
  mkRegistry (ports r) (sessions r) (pending r) (global_connections
    r) (next_generation r) (next_listener_id r) (permits r) (writers
    r) x (next_task r) (cancelled r) (delayed_cancels r).

Definition set_next_task (x : TaskId) (r : Registry Sem Chan) : Registry Sem Chan :=
  mkRegistry (ports r) (sessions r) (pending r) (global_connections
    r) (next_generation r) (next_listener_id r) (permits r) (writers
    r) (tasks r) x (cancelled r) (delayed_cancels r).

Definition set_cancelled (x : gset Token) (r : Registry Sem Chan) : Registry Sem Chan :=
  mkRegistry (ports r) (sessions r) (pending r) (global_connections
    r) (next_generation r) (next_listener_id r) (permits r) (writers
    r) (tasks r) (next_task r) x (delayed_cancels r).

Definition set_delayed_cancels (x : list (Duration * Token)) (r : Registry Sem Chan) : Registry Sem Chan :=
  mkRegistry (ports r) (sessions r) (pending r) (global_connections
    r) (next_generation r) (next_listener_id r) (permits r) (writers
    r) (tasks r) (next_task r) (cancelled r) x.
End updates.

Section registry.
Context {Sem Chan : Type} `{!Semaphore Sem, !Channel Outbound Chan}.
Context (config : ServerConfig) (timing : Timing).

Implicit Types (r : Registry Sem Chan) (env : Env).

(** [Registry::new], with the writer queues of the process. *)
Definition new (w : gmap WriterId Chan) : Registry Sem Chan := {|
  ports := ∅;
  sessions := ∅;
  pending := ∅;
  global_connections := sem_new MAX_GLOBAL_CONNECTIONS;
  next_generation := 1;
  next_listener_id := 1;
  permits := ∅;
  writers := w;
  tasks := ∅;
  next_task := 0%nat;
  cancelled := ∅;
  delayed_cancels := []
|}.

(** ** Shared objects *)

(** [CancellationToken::cancel]. *)
Definition cancel (t : Token) r : Registry Sem Chan :=
  set_cancelled ({[t]} ∪ cancelled r) r.

(** [mpsc::Sender::try_send] on a session's writer: whether it succeeded. *)
Definition writer_try_send (w : WriterId) (m : Outbound) r : bool * Registry Sem Chan :=
  match writers r !! w ≫= λ c, try_send c m with
  | Some c' => (true, set_writers (<[w := c']> (writers r)) r)
  | None => (false, r)
  end.

(** The same with the result thrown away ([let _ = ...]). *)
Definition writer_send_ignore (w : WriterId) (m : Outbound) r : Registry Sem Chan :=
  (writer_try_send w m r).2.

(** Dropping an [OwnedSemaphorePermit] of a session or of the server. *)
Definition release_session_permit (g : Generation) r : Registry Sem Chan :=
  set_permits (alter release g (permits r)) r.
Definition release_global_permit r : Registry Sem Chan :=
  set_global_connections (release (global_connections r)) r.

(** ** Helpers of the handlers *)

(** [Registry::next_generation]. *)
Definition take_generation r : outcome (Generation * Registry Sem Chan) :=
  match checked_add 64 (next_generation r) 1 with
  | Some n => Returns (next_generation r, set_next_generation n r)
  | None => Panics
  end.

Definition drop_pending_for (sid : SessionId) r : Registry Sem Chan :=
  set_pending (filter (λ kv, kv.1.1 ≠ sid) (pending r)) r.

Definition displace (previous : SessionRef) r : Registry Sem Chan :=
  let r := set_sessions (delete (s_session_id previous) (sessions r)) r in
  let r := drop_pending_for (s_session_id previous) r in
  let r := cancel (s_data_cancel previous) r in
  let r := writer_send_ignore (s_writer previous) (out_error Replaced) r in
  let r := writer_send_ignore (s_writer previous) CloseAfterFlush r in
  set_delayed_cancels
    (delayed_cancels r ++ [(takeover_flush timing, s_control_cancel previous)]) r.

Definition bind_slot env (p : Z) r : result ErrorCode Z * Registry Sem Chan :=
  match bind_listener env (mkSocketAddr (data_bind config) p) with
  | Some error =>
      (Err (if is_port_taken error then PortUnavailable else InternalError), r)
  | None =>
      let id := next_listener_id r in
      let r := set_next_listener_id (wrapping_add 64 id 1) r in
      let slot := {|
        listener_id := id;
        listener_cancel := ListenerToken id;
        slot_state := Reserved (replicate 16 Byte.x00) 0 (now env + reservation timing)
      |} in
      (Ok id, set_ports (<[p := slot]> (ports r)) r)
  end.

Definition ensure_slot env (p : Z) (exclusive_new : bool) r :
    result ErrorCode unit * Registry Sem Chan :=
  if decide (is_Some (ports r !! p)) then
    if exclusive_new then (Err Replaced, r) else (Ok (), r)
  else if decide (MAX_SLOTS ≤ size (ports r))%nat then (Err ServerBusy, r)
  else
    let '(res, r) := bind_slot env p r in
    (_ ← res; Ok (), r).

(** The [for port in min..=max] loop of [allocate_automatic]. *)
Fixpoint scan_ports env (candidates : list Z) r : result ErrorCode Z * Registry Sem Chan :=
  match candidates with
  | [] => (Err NoPortAvailable, r)
  | p :: rest =>
      if decide (p = port (listen config) ∨ is_Some (ports r !! p)) then
        scan_ports env rest r
      else
        match bind_slot env p r with
        | (Ok _, r) => (Ok p, r)
        | (Err PortUnavailable, r) => scan_ports env rest r
        | (Err code, r) => (Err code, r)
        end
  end.

Definition port_range (range : Z * Z) : list Z := seqZ range.1 (range.2 - range.1 + 1).

Definition allocate_automatic env (inst : InstanceId) r :
    result ErrorCode Z * Registry Sem Chan :=
  let mine p := match ports r !! p with
                | Some slot => if decide (slot_owner slot = inst) then Some p else None
                | None => None
                end in
  match find_map mine (sorted_keys (ports r)) with
  | Some p => (Ok p, r)
  | None =>
      if decide (MAX_SLOTS ≤ size (ports r))%nat then (Err ServerBusy, r)
      else scan_ports env (port_range (allowed_ports config)) r
  end.

(** The first half of [register]: the port the request gets. *)
Definition choose_port env (req : RegisterRequest) r :
    result ErrorCode Z * Registry Sem Chan :=
  match rq_mode req, rq_requested_port req with
  | Fresh, 0 => allocate_automatic env (rq_instance_id req) r
  | Fresh, p =>
      let '(res, r) := ensure_slot env p false r in (_ ← res; Ok p, r)
  | Resume, p =>
      match ports r !! p with
      | Some slot =>
          if decide (slot_owner slot ≠ rq_instance_id req) then (Err Replaced, r)
          else (Ok p, r)
      | None =>
          let '(res, r) := ensure_slot env p true r in (_ ← res; Ok p, r)
      end
  end.

(** The second half: the session that takes the slot over. *)
Definition install env (req : RegisterRequest) (p : Z) r :
    outcome (Registration * Registry Sem Chan) :=
  '(generation, r) ← take_generation r;
  let session := {|
    s_session_id := rq_session_id req;
    s_instance_id := rq_instance_id req;
    s_generation := generation;
    s_port := p;
    s_writer := rq_writer req;
    s_data_cancel := rq_data_cancel req;
    s_control_cancel := rq_control_cancel req
  |} in
  let r := set_permits
    (<[generation := sem_new (Z.to_nat (sc_max_connections config))]> (permits r)) r in
  match ports r !! p with
  | None => Panics
  | Some slot =>
      let slot' := mkPortSlot (listener_id slot) (listener_cancel slot) (Active session) in
      let r := set_ports (<[p := slot']> (ports r)) r in
      let r := match slot_state slot with
               | Active previous => displace previous r
               | Reserved _ _ _ => r
               end in
      let r := set_sessions (<[rq_session_id req := session]> (sessions r)) r in
      Returns (mkRegistration p (sc_max_connections config) generation, r)
  end.

Definition register env (req : RegisterRequest) r :
    outcome (result ErrorCode Registration * Registry Sem Chan) :=
  if decide (rq_requested_port req ≠ 0 ∧ rq_requested_port req = port (listen config))
  then Returns (Err InvalidPort, r)
  else
    match choose_port env req r with
    | (Err code, r) => Returns (Err code, r)
    | (Ok p, r) =>
        '(registration, r) ← install env req p r;
        Returns (Ok registration, r)
    end.

(** [Registry::session_lost]. *)
Definition holds_slot (g : Generation) (p : Z) r : bool :=
  match ports r !! p with
  | Some slot =>
      match slot_state slot with
      | Active current => bool_decide (s_generation current = g)
      | Reserved _ _ _ => false
      end
  | None => false
  end.

Definition session_lost env (sid : SessionId) (g : Generation) r : Registry Sem Chan :=
  match sessions r !! sid with
  | None => r
  | Some session =>
      if decide (s_generation session ≠ g) then r
      else
        let p := s_port session in
        let still_current := holds_slot g p r in
        let r := set_sessions (delete sid (sessions r)) r in
        let r := drop_pending_for sid r in
        let r := cancel (s_data_cancel session) r in
        let r := cancel (s_control_cancel session) r in
        if still_current then
          let expires_at := now env + reservation timing in
          set_ports
            (alter (λ slot, mkPortSlot (listener_id slot) (listener_cancel slot)
               (Reserved (s_instance_id session) g expires_at)) p (ports r)) r
        else r
  end.

Definition goodbye (sid : SessionId) (g : Generation) r : Registry Sem Chan :=
  match sessions r !! sid with
  | None => r
  | Some session =>
      if decide (s_generation session ≠ g) then r
      else
        let p := s_port session in
        let r := set_sessions (delete sid (sessions r)) r in
        let r := drop_pending_for sid r in
        let r := cancel (s_data_cancel session) r in
        if holds_slot g p r then
          match ports r !! p with
          | Some slot => cancel (listener_cancel slot) (set_ports (delete p (ports r)) r)
          | None => r
          end
        else r
  end.

(** ** Public connections *)

(** The loop that draws identifiers until one is not pending for the session.
    [Spins] means that the [fuel] draws of this run all collided. *)
Fixpoint pick_request_id env (sid : SessionId) (fuel i : nat) r :
    outcome (option RequestId) :=
  match fuel with
  | O => Spins
  | S fuel =>
      match random_id env i with
      | None => Returns None
      | Some id =>
          if decide (is_Some (pending r !! (sid, id)))
          then pick_request_id env sid fuel (S i) r
          else Returns (Some id)
      end
  end.

Definition accepted_public env (lid p : Z) (socket : Socket) (at_ : Instant) r :
    outcome (Registry Sem Chan) :=
  match ports r !! p with
  | None => Returns r
  | Some slot =>
      if decide (listener_id slot ≠ lid) then Returns r
      else
        match slot_state slot with
        | Reserved _ _ _ => Returns r
        | Active session =>
            let g := s_generation session in
            match permits r !! g ≫= try_acquire with
            | None => Returns r
            | Some sem' =>
                let r := set_permits (<[g := sem']> (permits r)) r in
                match try_acquire (global_connections r) with
                | None => Returns (release_session_permit g r)
                | Some global' =>
                    let r := set_global_connections global' r in
                    let abandon r := release_session_permit g (release_global_permit r) in
                    o ← pick_request_id env (s_session_id session) (draws env) 0 r;
                    match o with
                    | None => Returns (abandon r)
                    | Some rid =>
                        let deadline := at_ + request_wait timing in
                        let '(sent, r) :=
                          writer_try_send (s_writer session) (out_frame TOpen rid) r in
                        if negb sent then
                          Returns (abandon (session_lost env (s_session_id session) g r))
                        else
                          let id := next_task r in
                          let r := set_pending
                            (<[(s_session_id session, rid) := mkPendingRequest g deadline id]>
                               (pending r)) r in
                          let task := {|
                            t_session := s_session_id session;
                            t_request := rid;
                            t_permit := g;
                            t_deadline := deadline;
                            t_cancel := s_data_cancel session;
                            t_public := socket;
                            t_data := None
                          |} in
                          Returns (set_next_task (S id)
                                     (set_tasks (<[id := task]> (tasks r)) r))
                    end
                end
            end
        end
  end.

(** [oneshot::Sender::send]: the socket reaches the task, or comes back. *)
Definition deliver (id : TaskId) (socket : Socket) r : Registry Sem Chan :=
  set_tasks
    (alter (λ t, mkTask (t_session t) (t_request t) (t_permit t) (t_deadline t)
               (t_cancel t) (t_public t) (Some socket)) id (tasks r)) r.

Definition claim env (sid : SessionId) (rid : RequestId) (socket : Socket) r :
    ClaimOutcome * Registry Sem Chan :=
  let reject := Rejected RequestUnavailable (Some socket) in
  match sessions r !! sid with
  | None => (reject, r)
  | Some session =>
      match pending r !! (sid, rid) with
      | None => (reject, r)
      | Some entry =>
          if decide (p_generation entry ≠ s_generation session ∨ p_deadline entry <= now env)
          then (reject, r)
          else
            let r := set_pending (delete (sid, rid) (pending r)) r in
            if receiver_open env (p_sender entry)
            then (Delivered, deliver (p_sender entry) socket r)
            else (Rejected RequestUnavailable (Some socket), r)
      end
  end.

Definition peek env (sid : SessionId) (rid : RequestId) r : bool :=
  match pending r !! (sid, rid) with
  | Some entry => bool_decide (now env < p_deadline entry)
  | None => false
  end.

(** ** Sweep and shutdown *)

Definition expired (t : Instant) (slot : PortSlot) : bool :=
  match slot_state slot with
  | Reserved _ _ expires_at => bool_decide (expires_at <= t)
  | Active _ => false
  end.

Definition release_port (p : Z) r : Registry Sem Chan :=
  match ports r !! p with
  | Some slot => cancel (listener_cancel slot) (set_ports (delete p (ports r)) r)
  | None => r
  end.

Definition sweep (t : Instant) r : Registry Sem Chan :=
  let r := set_pending (filter (λ kv, t < p_deadline kv.2) (pending r)) r in
  let gone := List.filter
    (λ p, match ports r !! p with Some slot => expired t slot | None => false end)
    (sorted_keys (ports r)) in
  foldl (λ r p, release_port p r) r gone.

Definition notify_shutdown (session : SessionRef) r : Registry Sem Chan :=
  let r := writer_send_ignore (s_writer session) (out_frame TServerShutdown []) r in
  let r := writer_send_ignore (s_writer session) CloseAfterFlush r in
  cancel (s_data_cancel session) r.

Definition shutdown_all r : Registry Sem Chan :=
  let r := foldl (λ r kv, notify_shutdown kv.2 r) r (map_to_list (sessions r)) in
  let r := set_pending ∅ r in
  let listeners := (λ kv, listener_cancel kv.2) <$> map_to_list (ports r) in
  let r := set_ports ∅ r in
  let r := foldl (λ r t, cancel t r) r listeners in
  set_sessions ∅ r.

(** ** The command loop *)

(** [handle_command]: the reply, and whether the registry stops. *)
Definition handle_command env (c : Command) r :
    outcome (Reply * bool * Registry Sem Chan) :=
  match c with
  | CRegister request =>
      '(res, r) ← register env request r;
      Returns (ReplyRegister res, false, r)
  | CAcceptedPublic lid p socket at_ =>
      r ← accepted_public env lid p socket at_ r;
      Returns (NoReply, false, r)
  | CPeekData sid rid => Returns (ReplyPeek (peek env sid rid r), false, r)
  | CClaimData sid rid socket =>
      let '(o, r) := claim env sid rid socket r in
      Returns (ReplyClaim o, false, r)
  | COpenFailed sid rid _ =>
      Returns (NoReply, false, set_pending (delete (sid, rid) (pending r)) r)
  | CSessionLost sid g => Returns (NoReply, false, session_lost env sid g r)
  | CGoodbye sid g => Returns (ReplyUnit, false, goodbye sid g r)
  | CRequestFinished sid rid =>
      Returns (NoReply, false, set_pending (delete (sid, rid) (pending r)) r)
  | CShutdown => Returns (ReplyUnit, true, shutdown_all r)
  end.

(** [Registry::run]: the turns of the loop, a sweep or a command; the channel
    is closed when there is no command.  It ends in [shutdown_all], also after
    a [Shutdown] command that has just done the same. *)
Inductive RegistryTurn :=
| SweepTick (t : Instant)
| Recv (env : Env) (command : option Command).

Fixpoint run_registry (l : list RegistryTurn) r : outcome (list Reply * Registry Sem Chan) :=
  match l with
  | [] => Returns ([], r)
  | SweepTick t :: l => run_registry l (sweep t r)
  | Recv _ None :: _ => Returns ([], shutdown_all r)
  | Recv env (Some command) :: l =>
      '(reply, stop, r) ← handle_command env command r;
      if (stop : bool) then Returns ([reply], shutdown_all r)
      else
        '(replies, r) ← run_registry l r;
        Returns (reply :: replies, r)
  end.

(** The end of a forwarding task: both permits are dropped. *)
Definition finish_task (id : TaskId) r : Registry Sem Chan :=
  match tasks r !! id with
  | None => r
  | Some t =>
      release_global_permit
        (release_session_permit (t_permit t) (set_tasks (delete id (tasks r)) r))
  end.
End registry.
