(* ===== verification/RegistryOps.v ===== *)
(** * What the registry handlers do

    The effect of each handler on the state, as equations and case analyses
    that the invariant and the properties are proved from. *)

From Stdlib Require Import Strings.Byte.
From S2P Require Import Prelude Errors Protocol Runtime Timing Net Config Registry.

Local Open Scope Z_scope.

(** ** Slots *)

Definition slot_generation (s : PortSlot) : Generation :=
  match slot_state s with
  | Active session => s_generation session
  | Reserved _ g _ => g
  end.

Definition active_session (s : PortSlot) : option SessionRef :=
  match slot_state s with Active session => Some session | Reserved _ _ _ => None end.

Lemma active_session_Some s session :
  active_session s = Some session ↔ slot_state s = Active session.
Proof. unfold active_session. destruct (slot_state s); naive_solver. Qed.

(** ** Lists *)

Lemma find_map_Some {A B} (f : A → option B) l b :
  find_map f l = Some b ↔
  ∃ l1 a l2, l = l1 ++ a :: l2 ∧ f a = Some b ∧ Forall (λ x, f x = None) l1.
Proof.
  split.
  - induction l as [|x l IH]; simpl; [done|]. destruct (f x) as [b'|] eqn:E.
    + intros [= ->]. by exists [], x, l.
    + intros (l1 & a & l2 & -> & ? & ?)%IH. exists (x :: l1), a, l2. auto.
  - intros (l1 & a & l2 & -> & Ha & Hn). induction Hn as [|x l1 Hx Hn IH]; simpl.
    + by rewrite Ha.
    + by rewrite Hx.
Qed.

Lemma find_map_None {A B} (f : A → option B) l :
  find_map f l = None ↔ Forall (λ x, f x = None) l.
Proof.
  induction l as [|x l IH]; simpl; [by split|].
  rewrite Forall_cons, <-IH. destruct (f x); naive_solver.
Qed.

Lemma elem_of_sorted_keys {A} (m : gmap Z A) p : p ∈ sorted_keys m ↔ is_Some (m !! p).
Proof. unfold sorted_keys. by rewrite merge_sort_Permutation, elem_of_elements, elem_of_dom. Qed.

Lemma sorted_keys_sorted {A} (m : gmap Z A) : StronglySorted Z.le (sorted_keys m).
Proof. apply Sorted_StronglySorted, (Sorted_merge_sort Z.le). apply _. Qed.

Lemma sorted_keys_NoDup {A} (m : gmap Z A) : NoDup (sorted_keys m).
Proof. unfold sorted_keys. rewrite merge_sort_Permutation. apply NoDup_elements. Qed.

Section ops.
Context {Sem Chan : Type} `{!Semaphore Sem, !Channel Outbound Chan}.
Context (config : ServerConfig) (timing : Timing).
Implicit Types (r : Registry Sem Chan) (env : Env).

(** ** Shared objects *)

Definition queue_send (ws : gmap WriterId Chan) (w : WriterId) (m : Outbound) :
    gmap WriterId Chan :=
  match ws !! w ≫= λ c, try_send c m with
  | Some c' => <[w := c']> ws
  | None => ws
  end.

Lemma set_writers_id r : set_writers (writers r) r = r.
Proof. by destruct r. Qed.

Lemma writer_try_send_eq w m r :
  (writer_try_send w m r).2 = set_writers (queue_send (writers r) w m) r.
Proof.
  unfold writer_try_send, queue_send.
  destruct (writers r !! w ≫= _); simpl; by rewrite ?set_writers_id.
Qed.

Lemma writer_send_ignore_eq w m r :
  writer_send_ignore w m r = set_writers (queue_send (writers r) w m) r.
Proof. apply writer_try_send_eq. Qed.

(** Everything but the fields [displace] touches stays the same. *)
Lemma displace_eq q r :
  displace timing q r = {|
    ports := ports r;
    sessions := delete (s_session_id q) (sessions r);
    pending := filter (λ kv, kv.1.1 ≠ s_session_id q) (pending r);
    global_connections := global_connections r;
    next_generation := next_generation r;
    next_listener_id := next_listener_id r;
    permits := permits r;
    writers := queue_send (queue_send (writers r) (s_writer q) (out_error Replaced))
                 (s_writer q) CloseAfterFlush;
    tasks := tasks r;
    next_task := next_task r;
    cancelled := {[s_data_cancel q]} ∪ cancelled r;
    delayed_cancels := delayed_cancels r ++ [(takeover_flush timing, s_control_cancel q)]
  |}.
Proof. unfold displace. by rewrite !writer_send_ignore_eq. Qed.

(** ** Choosing a port *)

(** The slot [bind_slot] makes before the session is installed in it. *)
Definition placeholder env r : PortSlot := {|
  listener_id := next_listener_id r;
  listener_cancel := ListenerToken (next_listener_id r);
  slot_state := Reserved (replicate 16 x00) 0 (now env + reservation timing)
|}.

Definition bound env (p : Z) r : Registry Sem Chan :=
  set_ports (<[p := placeholder env r]> (ports r))
    (set_next_listener_id (wrapping_add 64 (next_listener_id r) 1) r).

Definition binds env (p : Z) : Prop :=
  bind_listener env (mkSocketAddr (data_bind config) p) = None.

Lemma bind_slot_Ok env p r id r' :
  bind_slot config timing env p r = (Ok id, r') → binds env p ∧ r' = bound env p r.
Proof. unfold bind_slot, binds. destruct (bind_listener _ _); by intros; simplify_eq. Qed.

Lemma bind_slot_Err env p r code r' :
  bind_slot config timing env p r = (Err code, r') →
  r' = r ∧ ∃ e, bind_listener env (mkSocketAddr (data_bind config) p) = Some e ∧
                code = (if is_port_taken e then PortUnavailable else InternalError).
Proof.
  unfold bind_slot. destruct (bind_listener _ _) as [e|]; intros; simplify_eq; eauto.
Qed.

(** The port is taken as it is, or a new slot was bound for it. *)
Definition chosen env (p : Z) r r' : Prop :=
  (r' = r ∧ is_Some (ports r !! p)) ∨
  (r' = bound env p r ∧ ports r !! p = None ∧ (size (ports r) < MAX_SLOTS)%nat ∧ binds env p).

Lemma ensure_slot_spec env p ex r res r' :
  ensure_slot config timing env p ex r = (res, r') →
  match res with
  | Err code =>
      r' = r ∧
      ((code = Replaced ∧ ex = true ∧ is_Some (ports r !! p)) ∨
       (code = ServerBusy ∧ ports r !! p = None ∧ (MAX_SLOTS ≤ size (ports r))%nat) ∨
       (ports r !! p = None ∧ (size (ports r) < MAX_SLOTS)%nat ∧
        ∃ e, bind_listener env (mkSocketAddr (data_bind config) p) = Some e ∧
             code = if is_port_taken e then PortUnavailable else InternalError))
  | Ok _ => (is_Some (ports r !! p) → ex = false) ∧ chosen env p r r'
  end.
Proof.
  unfold ensure_slot, chosen. intros H.
  case_decide as Hp; [destruct ex; simplify_eq; eauto 10|].
  assert (ports r !! p = None) as HN by (by apply eq_None_not_Some).
  case_decide; [simplify_eq; eauto 10|].
  destruct (bind_slot _ _ _ _ _) as [[id|code] r''] eqn:E; simplify_eq/=.
  - apply bind_slot_Ok in E as [? ->]. split; [done|right]. auto with lia.
  - apply bind_slot_Err in E as [-> He]. split; [done|]. right; right. auto with lia.
Qed.

Lemma is_port_taken_spec e : is_port_taken e = true ↔ e = AddrInUse ∨ e = PermissionDenied.
Proof. destruct e; naive_solver. Qed.

(** Why a candidate port is passed over by the scan. *)
Definition skipped env (p : Z) r : Prop :=
  p = port (listen config) ∨ is_Some (ports r !! p) ∨
  bind_listener env (mkSocketAddr (data_bind config) p) = Some AddrInUse ∨
  bind_listener env (mkSocketAddr (data_bind config) p) = Some PermissionDenied.

(** The scan stops at this port: it could be bound by its number, and binding
    it fails for another reason than being taken. *)
Definition unbindable env (p : Z) r : Prop :=
  p ≠ port (listen config) ∧ ports r !! p = None ∧
  ∃ e, bind_listener env (mkSocketAddr (data_bind config) p) = Some e ∧
       e ≠ AddrInUse ∧ e ≠ PermissionDenied.

Lemma scan_ports_spec env l r res r' :
  scan_ports config timing env l r = (res, r') →
  match res with
  | Ok p => ∃ l1 l2, l = l1 ++ p :: l2 ∧ Forall (λ q, skipped env q r) l1 ∧
      p ≠ port (listen config) ∧ ports r !! p = None ∧ binds env p ∧ r' = bound env p r
  | Err NoPortAvailable => r' = r ∧ Forall (λ q, skipped env q r) l
  | Err code => r' = r ∧ code = InternalError ∧
      ∃ l1 p l2, l = l1 ++ p :: l2 ∧ Forall (λ q, skipped env q r) l1 ∧ unbindable env p r
  end.
Proof.
  revert res. induction l as [|p l IH]; intros res H; simpl in H; [by simplify_eq|].
  assert (skipped env p r → scan_ports config timing env l r = (res, r') →
    match res with
    | Ok q => ∃ l1 l2, p :: l = l1 ++ q :: l2 ∧ Forall (λ q, skipped env q r) l1 ∧
        q ≠ port (listen config) ∧ ports r !! q = None ∧ binds env q ∧ r' = bound env q r
    | Err NoPortAvailable => r' = r ∧ Forall (λ q, skipped env q r) (p :: l)
    | Err code => r' = r ∧ code = InternalError ∧
        ∃ l1 q l2, p :: l = l1 ++ q :: l2 ∧ Forall (λ q, skipped env q r) l1 ∧ unbindable env q r
    end) as Hskip.
  { intros Hs HE. specialize (IH _ HE).
    assert (∀ l1 q l2, l = l1 ++ q :: l2 → Forall (λ q, skipped env q r) l1 →
      p :: l = (p :: l1) ++ q :: l2 ∧ Forall (λ q, skipped env q r) (p :: l1)) as Hcons.
    { intros l1 q l2 ->. auto. }
    destruct res as [q|code].
    - destruct IH as (l1 & l2 & E & H1 & ?). exists (p :: l1), l2. naive_solver.
    - destruct code; try (destruct IH as (-> & ? & l1 & q & l2 & E & H1 & ?);
        split_and!; [done..|]; exists (p :: l1), q, l2; naive_solver).
      destruct IH; auto. }
  case_decide as Hd; [apply Hskip; [|done]; unfold skipped; tauto|].
  apply Decidable.not_or in Hd as [Hlp Hnone].
  destruct (bind_slot _ _ _ _ _) as [[id|code] r''] eqn:E.
  - apply bind_slot_Ok in E as [? ->]. simplify_eq.
    exists [], l. split_and!; try done. by apply eq_None_not_Some.
  - apply bind_slot_Err in E as [-> (e & He & ->)].
    destruct (is_port_taken e) eqn:Et.
    + apply Hskip; [|done]. apply is_port_taken_spec in Et as [->| ->]; unfold skipped; auto.
    + simplify_eq. split_and!; [done..|]. exists [], p, l. split_and!; [done..|].
      split_and!; [done|by apply eq_None_not_Some|]. exists e. split; [done|].
      apply not_true_iff_false in Et. rewrite is_port_taken_spec in Et. tauto.
Qed.

(** The candidates of a range are its ports in increasing order. *)
Lemma port_range_split range l1 p l2 :
  port_range range = l1 ++ p :: l2 →
  range.1 <= p <= range.2 ∧ ∀ q, range.1 <= q < p → q ∈ l1.
Proof.
  unfold port_range. set (n := range.2 - range.1 + 1). intros H.
  assert (seqZ range.1 n !! length l1 = Some p) as Hp.
  { by rewrite H, list_lookup_middle. }
  apply lookup_seqZ in Hp as [-> Hlen]. split; [lia|].
  intros q Hq. apply list_elem_of_lookup. exists (Z.to_nat (q - range.1)).
  rewrite <-(lookup_app_l l1 ((range.1 + Z.of_nat (length l1)) :: l2)) by lia.
  rewrite <-H. apply lookup_seqZ. lia.
Qed.

Lemma elem_of_port_range range q : q ∈ port_range range ↔ range.1 <= q <= range.2.
Proof. unfold port_range. rewrite elem_of_seqZ. lia. Qed.

Definition owns (inst : InstanceId) r (p : Z) : Prop :=
  ∃ slot, ports r !! p = Some slot ∧ slot_owner slot = inst.

(** The lowest port owned by the instance. *)
Definition lowest_owned (inst : InstanceId) r (p : Z) : Prop :=
  owns inst r p ∧ ∀ q, owns inst r q → p <= q.

(** The lowest port of the range that can be bound. *)
Definition lowest_free env r (p : Z) : Prop :=
  (allowed_ports config).1 <= p <= (allowed_ports config).2 ∧
  p ≠ port (listen config) ∧ ports r !! p = None ∧ binds env p ∧
  ∀ q, (allowed_ports config).1 <= q < p → skipped env q r.

(** The first port of the range that is not passed over cannot be bound. *)
Definition scan_failed env r : Prop :=
  ∃ p, (allowed_ports config).1 <= p <= (allowed_ports config).2 ∧
    unbindable env p r ∧
    ∀ q, (allowed_ports config).1 <= q < p → skipped env q r.

Lemma allocate_automatic_spec env inst r res r' :
  allocate_automatic config timing env inst r = (res, r') →
  match res with
  | Ok p =>
      (r' = r ∧ lowest_owned inst r p) ∨
      ((∀ q, ¬ owns inst r q) ∧ (size (ports r) < MAX_SLOTS)%nat ∧
       lowest_free env r p ∧ r' = bound env p r)
  | Err code =>
      r' = r ∧ (∀ q, ¬ owns inst r q) ∧
      ((code = ServerBusy ∧ (MAX_SLOTS ≤ size (ports r))%nat) ∨
       ((size (ports r) < MAX_SLOTS)%nat ∧ code = NoPortAvailable ∧
        ∀ q, (allowed_ports config).1 <= q <= (allowed_ports config).2 → skipped env q r) ∨
       ((size (ports r) < MAX_SLOTS)%nat ∧ code = InternalError ∧ scan_failed env r))
  end.
Proof.
  unfold allocate_automatic. set (mine := λ p : Z, _). intros H.
  assert (∀ q q', mine q = Some q' ↔ q' = q ∧ owns inst r q) as Hmine.
  { intros q q'. unfold mine, owns. cbv beta.
    destruct (ports r !! q) as [sl|]; [|naive_solver].
    destruct (decide (slot_owner sl = inst)); naive_solver. }
  destruct (find_map _ _) as [p|] eqn:Hf.
  - injection H as <- <-. apply find_map_Some in Hf as (l1 & a & l2 & Hl & Ha & Hl1).
    apply Hmine in Ha as [-> Hown]. left. split; [done|]. split; [done|].
    intros q Hq. assert (q ∈ sorted_keys (ports r)) as Hin.
    { apply elem_of_sorted_keys. destruct Hq as (? & ? & _). eauto. }
    pose proof (sorted_keys_sorted (ports r)) as Hs. rewrite Hl in Hin, Hs.
    apply elem_of_app in Hin as [Hin|Hin].
    + rewrite Forall_forall in Hl1. specialize (Hl1 _ Hin).
      by rewrite (proj2 (Hmine q q)) in Hl1.
    + apply StronglySorted_app in Hs as (_ & _ & Hs).
      apply StronglySorted_inv in Hs as [_ Hs]. rewrite Forall_forall in Hs.
      apply elem_of_cons in Hin as [->|Hin]; [lia|by apply Hs].
  - apply find_map_None in Hf. rewrite Forall_forall in Hf.
    assert (∀ q, ¬ owns inst r q) as Hno.
    { intros q Hq. pose proof (proj2 (Hmine q q) (conj eq_refl Hq)) as Hs.
      rewrite Hf in Hs; [done|]. apply elem_of_sorted_keys. destruct Hq as (? & ? & _). eauto. }
    destruct (decide (MAX_SLOTS ≤ size (ports r))%nat); [injection H as <- <-; auto|].
    apply scan_ports_spec in H. destruct res as [p|code].
    + destruct H as (l1 & l2 & Hl & Hsk & ? & HN & ? & ->). right.
      apply port_range_split in Hl as [? Hlow]. rewrite Forall_forall in Hsk.
      split_and!; [done|lia| |done]. split_and!; [lia..|done|done|done|].
      intros q Hq. by apply Hsk, Hlow.
    + assert (r' = r ∧ (code = NoPortAvailable → Forall (λ q, skipped env q r)
          (port_range (allowed_ports config))) ∧
        (code ≠ NoPortAvailable → code = InternalError ∧ ∃ l1 p l2,
           port_range (allowed_ports config) = l1 ++ p :: l2 ∧
           Forall (λ q, skipped env q r) l1 ∧ unbindable env p r)) as (-> & Hn & Hi)
        by (destruct code; naive_solver).
      split; [done|]. split; [done|]. right.
      destruct (decide (code = NoPortAvailable)) as [->|Hne].
      * left. specialize (Hn eq_refl). rewrite Forall_forall in Hn. split_and!; [lia|done|].
        intros q Hq. by apply Hn, elem_of_port_range.
      * right. destruct (Hi Hne) as (-> & l1 & p & l2 & Hl & Hsk & Hu).
        apply port_range_split in Hl as [? Hlow]. rewrite Forall_forall in Hsk.
        split_and!; [lia|done|]. exists p. split_and!; [lia..|done|].
        intros q Hq. by apply Hsk, Hlow.
Qed.

Lemma chosen_old env p r slot : ports r !! p = Some slot → chosen env p r r.
Proof. intros. left. eauto. Qed.

Lemma chosen_slot env p r r' :
  chosen env p r r' →
  ∃ slot, ports r' !! p = Some slot ∧
    (ports r !! p = Some slot ∨ (ports r !! p = None ∧ active_session slot = None)).
Proof.
  intros [[-> [slot Hs]]|(-> & HN & _)]; [eauto|].
  exists (placeholder env r). simpl. rewrite lookup_insert_eq. auto.
Qed.

Lemma choose_port_spec env req r res r' :
  choose_port config timing env req r = (res, r') →
  match res with
  | Err _ => r' = r
  | Ok p =>
      chosen env p r r' ∧
      (rq_requested_port req ≠ 0 → p = rq_requested_port req) ∧
      (rq_mode req = Fresh → rq_requested_port req = 0 →
       allocate_automatic config timing env (rq_instance_id req) r = (Ok p, r')) ∧
      (rq_mode req = Resume → ∀ slot, ports r !! p = Some slot →
       slot_owner slot = rq_instance_id req)
  end.
Proof.
  unfold choose_port. intros H. destruct (rq_mode req) eqn:Hm.
  - destruct (decide (rq_requested_port req = 0)) as [E|E].
    + rewrite E in H |- *. pose proof (allocate_automatic_spec _ _ _ _ _ H) as Hs.
      destruct res as [p|]; [|by destruct Hs].
      split_and!; try done. destruct Hs as [[-> [(sl & ? & _) _]]|Hs].
      * by eapply chosen_old.
      * destruct Hs as (_ & ? & (_ & _ & ? & ? & _) & ->). right. done.
    + assert (H' : (let '(res0, r0) := ensure_slot config timing env (rq_requested_port req) false r
              in (_ ← res0; Ok (rq_requested_port req), r0)) = (res, r'))
        by (destruct (rq_requested_port req); done). clear H.
      destruct (ensure_slot _ _ _ _ _ _) as [res0 r0] eqn:He.
      apply ensure_slot_spec in He. injection H' as <- <-.
      destruct res0; simpl; [|by destruct He]. destruct He as [_ He]. split_and!; done.
  - destruct (ports r !! rq_requested_port req) as [sl|] eqn:Hp.
    + destruct (decide (slot_owner sl ≠ rq_instance_id req)) as [|Ho]; injection H as <- <-;
        [done|]. apply dec_stable in Ho.
      split_and!; try done; [by eapply chosen_old|]. intros; by simplify_eq.
    + destruct (ensure_slot _ _ _ _ _ _) as [res0 r0] eqn:He.
      apply ensure_slot_spec in He. injection H as <- <-.
      destruct res0; simpl; [|by destruct He]. destruct He as [_ He].
      split_and!; try done. intros; by simplify_eq.
Qed.

(** ** Installing a session *)

Definition new_session (req : RegisterRequest) (p : Z) (g : Generation) : SessionRef := {|
  s_session_id := rq_session_id req;
  s_instance_id := rq_instance_id req;
  s_generation := g;
  s_port := p;
  s_writer := rq_writer req;
  s_data_cancel := rq_data_cancel req;
  s_control_cancel := rq_control_cancel req
|}.

Definition displaced_writers (q : option SessionRef) (ws : gmap WriterId Chan) :=
  match q with
  | Some q => queue_send (queue_send ws (s_writer q) (out_error Replaced))
                (s_writer q) CloseAfterFlush
  | None => ws
  end.

(** The state after [install] in a slot. *)
Definition installed (req : RegisterRequest) (p : Z) (slot : PortSlot) r : Registry Sem Chan :=
  let s := new_session req p (next_generation r) in
  let q := active_session slot in {|
    ports := <[p := mkPortSlot (listener_id slot) (listener_cancel slot) (Active s)]> (ports r);
    sessions := <[rq_session_id req := s]>
      (match q with Some q => delete (s_session_id q) (sessions r) | None => sessions r end);
    pending := match q with
               | Some q => filter (λ kv, kv.1.1 ≠ s_session_id q) (pending r)
               | None => pending r
               end;
    global_connections := global_connections r;
    next_generation := next_generation r + 1;
    next_listener_id := next_listener_id r;
    permits := <[next_generation r := sem_new (Z.to_nat (sc_max_connections config))]>
      (permits r);
    writers := displaced_writers q (writers r);
    tasks := tasks r;
    next_task := next_task r;
    cancelled := match q with
                 | Some q => {[s_data_cancel q]} ∪ cancelled r
                 | None => cancelled r
                 end;
    delayed_cancels := match q with
      | Some q => delayed_cancels r ++ [(takeover_flush timing, s_control_cancel q)]
      | None => delayed_cancels r
      end
  |}.

Lemma install_spec env req p r slot :
  ports r !! p = Some slot →
  install config timing env req p r =
    if decide (next_generation r + 1 < 2 ^ 64)
    then Returns (mkRegistration p (sc_max_connections config) (next_generation r),
                  installed req p slot r)
    else Panics.
Proof.
  intros Hp. unfold install, take_generation, checked_add. case_decide; [|done].
  cbn [mbind outcome_bind]. cbn [ports set_permits set_next_generation]. rewrite Hp.
  unfold installed, active_session.
  destruct (slot_state slot); [|done]. by rewrite displace_eq.
Qed.

(** Every way [register] can end. *)
Lemma register_spec env req r :
  (∃ code, register config timing env req r = Returns (Err code, r)) ∨
  (∃ p r1 slot,
      choose_port config timing env req r = (Ok p, r1) ∧
      (rq_requested_port req ≠ 0 → p ≠ port (listen config)) ∧
      ports r1 !! p = Some slot ∧
      register config timing env req r =
        if decide (next_generation r + 1 < 2 ^ 64)
        then Returns (Ok (mkRegistration p (sc_max_connections config) (next_generation r)),
                      installed req p slot r1)
        else Panics).
Proof.
  unfold register. destruct (decide (_ ∧ _)) as [|Hn]; [left; eauto|].
  destruct (choose_port _ _ _ _ _) as [[p|code] r1] eqn:Hc.
  - right. pose proof (choose_port_spec _ _ _ _ _ Hc) as (Hch & Hreq & _ & _).
    destruct (chosen_slot _ _ _ _ Hch) as (slot & Hslot & _).
    exists p, r1, slot. split_and!; try done.
    { intros H0. rewrite (Hreq H0). intros Heq. by apply Hn. }
    rewrite (install_spec _ _ _ _ _ Hslot).
    assert (next_generation r1 = next_generation r) as ->
      by (destruct Hch as [[-> _]|(-> & _)]; done).
    by case_decide.
  - apply choose_port_spec in Hc as ->. left. eauto.
Qed.

Lemma register_Err env req r code r' :
  register config timing env req r = Returns (Err code, r') → r' = r.
Proof.
  destruct (register_spec env req r) as [[c ->]|(p & r1 & slot & _ & _ & _ & ->)];
    [by intros [= _ <-]|]. by case_decide.
Qed.

Lemma register_Ok env req r reg r' :
  register config timing env req r = Returns (Ok reg, r') →
  ∃ p r1 slot,
    choose_port config timing env req r = (Ok p, r1) ∧ chosen env p r r1 ∧
    (rq_requested_port req ≠ 0 → p ≠ port (listen config)) ∧
    ports r1 !! p = Some slot ∧ r' = installed req p slot r1 ∧
    reg = mkRegistration p (sc_max_connections config) (next_generation r) ∧
    next_generation r + 1 < 2 ^ 64.
Proof.
  destruct (register_spec env req r) as [[c ->]|(p & r1 & slot & Hc & Hl & Hs & ->)]; [done|].
  case_decide; [|done]. intros [= <- <-].
  pose proof (choose_port_spec _ _ _ _ _ Hc) as (Hch & _ & _ & _).
  exists p, r1, slot. auto 10.
Qed.

(** ** The end of a session *)

Lemma session_lost_cases env sid g r :
  session_lost timing env sid g r = r ∨
  ∃ s, sessions r !! sid = Some s ∧ s_generation s = g ∧
    let still := holds_slot g (s_port s) r in
    session_lost timing env sid g r = {|
      ports := if still
               then alter (λ slot, mkPortSlot (listener_id slot) (listener_cancel slot)
                      (Reserved (s_instance_id s) g (now env + reservation timing)))
                      (s_port s) (ports r)
               else ports r;
      sessions := delete sid (sessions r);
      pending := filter (λ kv, kv.1.1 ≠ sid) (pending r);
      global_connections := global_connections r;
      next_generation := next_generation r;
      next_listener_id := next_listener_id r;
      permits := permits r;
      writers := writers r;
      tasks := tasks r;
      next_task := next_task r;
      cancelled := {[s_control_cancel s]} ∪ ({[s_data_cancel s]} ∪ cancelled r);
      delayed_cancels := delayed_cancels r
    |}.
Proof.
  unfold session_lost. destruct (sessions r !! sid) as [s|] eqn:Hs; [|by left].
  destruct (decide (s_generation s ≠ g)) as [|Hg%dec_stable]; [by left|].
  right. exists s. split_and!; try done. simpl. by destruct (holds_slot g (s_port s) r).
Qed.

Lemma goodbye_cases sid g r :
  goodbye sid g r = r ∨
  ∃ s, sessions r !! sid = Some s ∧ s_generation s = g ∧
    let released := if holds_slot g (s_port s) r then ports r !! s_port s else None in
    goodbye sid g r = {|
      ports := match released with
               | Some _ => delete (s_port s) (ports r)
               | None => ports r
               end;
      sessions := delete sid (sessions r);
      pending := filter (λ kv, kv.1.1 ≠ sid) (pending r);
      global_connections := global_connections r;
      next_generation := next_generation r;
      next_listener_id := next_listener_id r;
      permits := permits r;
      writers := writers r;
      tasks := tasks r;
      next_task := next_task r;
      cancelled := match released with
                   | Some slot => {[listener_cancel slot]} ∪ ({[s_data_cancel s]} ∪ cancelled r)
                   | None => {[s_data_cancel s]} ∪ cancelled r
                   end;
      delayed_cancels := delayed_cancels r
    |}.
Proof.
  unfold goodbye. destruct (sessions r !! sid) as [s|] eqn:Hs; [|by left].
  destruct (decide (s_generation s ≠ g)) as [|Hg%dec_stable]; [by left|].
  right. exists s. split_and!; try done. simpl.
  change (holds_slot g (s_port s) (cancel _ _)) with (holds_slot g (s_port s) r).
  destruct (holds_slot g (s_port s) r); [|done]. by destruct (ports r !! s_port s).
Qed.

(** ** Public connections *)

Lemma pick_request_id_spec env sid fuel i r o :
  pick_request_id env sid fuel i r = Returns o →
  match o with
  | None => ∃ j, (i ≤ j < i + fuel)%nat ∧ random_id env j = None
  | Some rid => pending r !! (sid, rid) = None ∧
      ∃ j, (i ≤ j < i + fuel)%nat ∧ random_id env j = Some rid
  end.
Proof.
  revert i. induction fuel as [|fuel IH]; intros i H; simpl in H; [done|].
  destruct (random_id env i) as [id|] eqn:Hi.
  - case_decide as Hp.
    + apply IH in H. destruct o as [rid|].
      * destruct H as (? & j & ? & ?). split; [done|]. exists j. split; [lia|done].
      * destruct H as (j & ? & ?). exists j. split; [lia|done].
    + injection H as <-. split; [by apply eq_None_not_Some|]. exists i. split; [lia|done].
  - injection H as <-. exists i. split; [lia|done].
Qed.

(** Both permits taken, before the request is set up. *)
Definition acquired (g : Generation) (sem' global' : Sem) r : Registry Sem Chan :=
  set_global_connections global' (set_permits (<[g := sem']> (permits r)) r).

Definition abandoned (g : Generation) r : Registry Sem Chan :=
  release_session_permit g (release_global_permit r).

(** A public connection that got its request. *)
Definition admitted (s : SessionRef) (rid : RequestId) (deadline : Instant)
    (socket : Socket) r : Registry Sem Chan :=
  let id := next_task r in
  let task := mkTask (s_session_id s) rid (s_generation s) deadline (s_data_cancel s)
                socket None in
  set_next_task (S id) (set_tasks (<[id := task]> (tasks r))
    (set_pending (<[(s_session_id s, rid) := mkPendingRequest (s_generation s) deadline id]>
       (pending r))
    (set_writers (queue_send (writers r) (s_writer s) (out_frame TOpen rid)) r))).

Inductive accepts env (at_ : Instant) (socket : Socket) (s : SessionRef) r :
    Registry Sem Chan → Prop :=
| accept_global_full sem sem' :
    permits r !! s_generation s = Some sem → try_acquire sem = Some sem' →
    try_acquire (global_connections r) = None →
    accepts env at_ socket s r
      (release_session_permit (s_generation s)
         (set_permits (<[s_generation s := sem']> (permits r)) r))
| accept_no_entropy sem sem' global' :
    permits r !! s_generation s = Some sem → try_acquire sem = Some sem' →
    try_acquire (global_connections r) = Some global' →
    accepts env at_ socket s r
      (abandoned (s_generation s) (acquired (s_generation s) sem' global' r))
| accept_no_queue sem sem' global' :
    permits r !! s_generation s = Some sem → try_acquire sem = Some sem' →
    try_acquire (global_connections r) = Some global' →
    accepts env at_ socket s r
      (abandoned (s_generation s)
         (session_lost timing env (s_session_id s) (s_generation s)
            (acquired (s_generation s) sem' global' r)))
| accept_ok sem sem' global' rid :
    permits r !! s_generation s = Some sem → try_acquire sem = Some sem' →
    try_acquire (global_connections r) = Some global' →
    pending r !! (s_session_id s, rid) = None →
    (writer_try_send (s_writer s) (out_frame TOpen rid) r).1 = true →
    (∃ i, random_id env i = Some rid) →
    accepts env at_ socket s r
      (admitted s rid (at_ + request_wait timing) socket
         (acquired (s_generation s) sem' global' r)).

Lemma accepted_public_spec env lid p socket at_ r r' :
  accepted_public timing env lid p socket at_ r = Returns r' →
  r' = r ∨
  ∃ slot s, ports r !! p = Some slot ∧ listener_id slot = lid ∧
    slot_state slot = Active s ∧ accepts env at_ socket s r r'.
Proof.
  unfold accepted_public. intros H.
  destruct (ports r !! p) as [slot|] eqn:Hp; [|by injection H; auto].
  destruct (decide (listener_id slot ≠ lid)) as [|Hl%dec_stable]; [by injection H; auto|].
  destruct (slot_state slot) as [s|] eqn:Hst; [|by injection H; auto].
  destruct (permits r !! s_generation s) as [sem|] eqn:Hsem; simpl in H;
    [|by injection H; auto].
  destruct (try_acquire sem) as [sem'|] eqn:Ha; [|by injection H; auto].
  right. exists slot, s. split_and!; try done.
  destruct (try_acquire (global_connections r)) as [global'|] eqn:Hg;
    [|injection H as <-; by eapply accept_global_full].
  apply outcome_bind_Returns in H as (o & Ho & H).
  apply pick_request_id_spec in Ho. destruct o as [rid|];
    [|injection H as <-; by eapply accept_no_entropy].
  destruct Ho as [Hrid (i & _ & Hi)]. simpl in Hrid.
  change (set_global_connections global' _) with (acquired (s_generation s) sem' global' r) in H.
  pose proof (writer_try_send_eq (s_writer s) (out_frame TOpen rid)
    (acquired (s_generation s) sem' global' r)) as Hw.
  assert ((writer_try_send (s_writer s) (out_frame TOpen rid)
            (acquired (s_generation s) sem' global' r)).1 =
          (writer_try_send (s_writer s) (out_frame TOpen rid) r).1) as Hb.
  { unfold writer_try_send. simpl. by destruct (writers r !! _ ≫= _). }
  unfold writer_try_send in H, Hw, Hb. simpl in H, Hw, Hb.
  destruct (writers r !! s_writer s ≫= _) as [c'|] eqn:Hc; simpl in H, Hw, Hb.
  - injection H as <-. rewrite Hw. eapply accept_ok; try done.
    + unfold writer_try_send. by rewrite Hc.
    + by exists i.
  - injection H as <-. by eapply accept_no_queue.
Qed.
End ops.
