(* ===== verification/RegistryInv.v ===== *)
(** * The registry invariant

    What every reachable state of the registry satisfies: sessions and live
    slots are the same thing seen from two sides, pending requests belong to
    live sessions, generations are unique, and permits are neither lost nor
    duplicated. *)

From Stdlib Require Import Strings.Byte.
From S2P Require Import Prelude Errors Protocol Runtime Timing Net Config Registry RegistryOps.

Local Open Scope Z_scope.

(** ** Ownership *)

(** Over the four fields it speaks about, so that updates of the other fields
    leave it alone by computation. *)
Record ownership (listen_port : Z) (P : gmap Z PortSlot) (T : gmap SessionId SessionRef)
    (Q : gmap (SessionId * RequestId) PendingRequest) (next : Z) : Prop := {
  own_session : ∀ sid s, T !! sid = Some s →
    s_session_id s = sid ∧
    ∃ slot, P !! s_port s = Some slot ∧ slot_state slot = Active s;
  own_slot : ∀ p slot s, P !! p = Some slot → slot_state slot = Active s →
    s_port s = p ∧ T !! s_session_id s = Some s;
  own_pending : ∀ sid rid e, Q !! (sid, rid) = Some e →
    ∃ s, T !! sid = Some s ∧ p_generation e = s_generation s;
  own_generation : ∀ p slot, P !! p = Some slot → 1 <= slot_generation slot < next;
  own_unique : ∀ p q a b, P !! p = Some a → P !! q = Some b →
    slot_generation a = slot_generation b → p = q;
  own_ports : ∀ p, is_Some (P !! p) → 1024 <= p <= 65535 ∧ p ≠ listen_port;
  own_size : (size P ≤ MAX_SLOTS)%nat;
  own_next : 1 <= next
}.

Section ownership.
Context (lp : Z).
Implicit Types (P : gmap Z PortSlot) (T : gmap SessionId SessionRef)
  (Q : gmap (SessionId * RequestId) PendingRequest).

Lemma ownership_empty : ownership lp ∅ ∅ ∅ 1.
Proof.
  split; intros; simplify_map_eq; try done. rewrite map_size_empty. lia.
Qed.

(** Requests may go at any time. *)
Lemma ownership_fewer_pending P T Q Q' n :
  Q' ⊆ Q → ownership lp P T Q n → ownership lp P T Q' n.
Proof.
  intros HQ [? ? Hp ? ? ? ? ?]; split; try done.
  intros. by eapply Hp, lookup_weaken.
Qed.

(** A request for a live session may come. *)
Lemma ownership_more_pending P T Q n sid rid s e :
  T !! sid = Some s → p_generation e = s_generation s →
  ownership lp P T Q n → ownership lp P T (<[(sid, rid) := e]> Q) n.
Proof.
  intros Hs He [? ? Hp ? ? ? ? ?]; split; try done.
  intros sid' rid' e' [[[= <- <-] <-]|[_ H]]%lookup_insert_Some; eauto.
Qed.

(** The pending requests of other sessions. *)
Lemma filter_pending_lookup Q (sid0 : SessionId) sid rid :
  filter (λ kv, kv.1.1 ≠ sid0) Q !! (sid, rid) =
    if decide (sid = sid0) then None else Q !! (sid, rid).
Proof.
  case_decide; subst; [|rewrite map_lookup_filter].
  - apply map_lookup_filter_None. right. naive_solver.
  - destruct (Q !! (sid, rid)); simpl; [|done]. by rewrite option_guard_True.
Qed.

(** A session ends, and its slot is reserved or removed. *)
Lemma ownership_remove P T Q n sid s slot P' :
  ownership lp P T Q n →
  T !! sid = Some s → P !! s_port s = Some slot → slot_state slot = Active s →
  (∀ p, p ≠ s_port s → P' !! p = P !! p) →
  match P' !! s_port s with
  | None => True
  | Some slot' => active_session slot' = None ∧ slot_generation slot' = slot_generation slot
  end →
  (size P' ≤ size P)%nat →
  ownership lp P' (delete sid T) (filter (λ kv, kv.1.1 ≠ sid) Q) n.
Proof.
  intros [Ho1 Ho2 Hp Hg Hu Hr Hz Hn] Hs Hslot Hact Hother Hat Hsize.
  destruct (Ho1 _ _ Hs) as [Hid _].
  assert (∀ p a, P' !! p = Some a → ∃ b, P !! p = Some b ∧
            slot_generation a = slot_generation b ∧
            (p ≠ s_port s → a = b)) as Hback.
  { intros p a Ha. destruct (decide (p = s_port s)) as [->|Hne].
    - rewrite Ha in Hat. exists slot. naive_solver.
    - rewrite Hother in Ha by done. eauto. }
  split.
  - intros sid' s' [Hne H']%lookup_delete_Some. destruct (Ho1 _ _ H') as [<- (b & Hb & Hbs)].
    split; [done|]. exists b. rewrite Hother; [done|].
    intros Hpeq. rewrite Hpeq in Hb. simplify_eq. congruence.
  - intros p a s' Ha Hs'. destruct (decide (p = s_port s)) as [->|Hne].
    + rewrite Ha in Hat. destruct Hat as [Hat _]. unfold active_session in Hat.
      by rewrite Hs' in Hat.
    + rewrite Hother in Ha by done. destruct (Ho2 _ _ _ Ha Hs') as [<- Hs2]. split; [done|].
      rewrite lookup_delete_ne; [done|]. intros Heq. rewrite <-Heq in Hs2. congruence.
  - intros sid' rid e. rewrite filter_pending_lookup. case_decide; [done|].
    intros (s' & ? & ?)%Hp. exists s'. by rewrite lookup_delete_ne.
  - intros p a (b & Hb & -> & _)%Hback. eauto.
  - intros p q a b (a' & Ha & -> & _)%Hback (b' & Hb & -> & _)%Hback. eauto.
  - intros p [a (b & Hb & _)%Hback]. eauto.
  - lia.
  - done.
Qed.

(** A slot without a live session goes away. *)
Lemma ownership_drop P T Q n p :
  ownership lp P T Q n →
  (∀ slot, P !! p = Some slot → active_session slot = None) →
  ownership lp (delete p P) T Q n.
Proof.
  intros [Ho1 Ho2 Hp Hg Hu Hr Hz Hn] Hdead. split; try done.
  - intros sid s Hs. destruct (Ho1 _ _ Hs) as [? (slot & Hslot & Hact)].
    split; [done|]. exists slot. rewrite lookup_delete_ne; [done|]. intros ->.
    apply Hdead in Hslot. unfold active_session in Hslot. by rewrite Hact in Hslot.
  - intros q slot s [_ H]%lookup_delete_Some. eauto.
  - intros q slot [_ H]%lookup_delete_Some. eauto.
  - intros q q' a b [_ Ha]%lookup_delete_Some [_ Hb]%lookup_delete_Some. eauto.
  - intros q [a [_ H]%lookup_delete_Some]. eauto.
  - pose proof (map_size_delete_le P p). lia.
Qed.

(** A session takes a port no slot has, under the next generation. *)
Lemma ownership_add P T Q n p slot s :
  ownership lp P T Q n →
  P !! p = None → T !! s_session_id s = None →
  slot_state slot = Active s → s_port s = p → s_generation s = n →
  1024 <= p <= 65535 → p ≠ lp → (size P < MAX_SLOTS)%nat →
  ownership lp (<[p := slot]> P) (<[s_session_id s := s]> T) Q (n + 1).
Proof.
  intros [Ho1 Ho2 Hp Hg Hu Hr Hz Hn] HP HT Hact Hport Hgen Hrange Hlp Hsize.
  assert (slot_generation slot = n) as Hsg by (unfold slot_generation; by rewrite Hact).
  split.
  - intros sid s' [[<- <-]|[Hne H]]%lookup_insert_Some.
    + split; [done|]. exists slot. rewrite Hport, lookup_insert_eq. done.
    + destruct (Ho1 _ _ H) as [? (b & Hb & ?)]. split; [done|]. exists b.
      rewrite lookup_insert_ne; [done|]. intros ->. congruence.
  - intros q b s' [[<- <-]|[Hne H]]%lookup_insert_Some Hb.
    + simplify_eq. rewrite Hact in Hb. simplify_eq. by rewrite lookup_insert_eq.
    + destruct (Ho2 _ _ _ H Hb) as [? Hs']. split; [done|].
      rewrite lookup_insert_ne; [done|]. congruence.
  - intros sid rid e H. destruct (Hp _ _ _ H) as (s' & Hs' & ?). exists s'.
    rewrite lookup_insert_ne; [done|]. congruence.
  - intros q b [[<- <-]|[Hne H]]%lookup_insert_Some; [lia|]. specialize (Hg _ _ H). lia.
  - intros q q' a b [[<- <-]|[Hne Ha]]%lookup_insert_Some
      [[<- <-]|[Hne' Hb]]%lookup_insert_Some Heq; [done|..].
    + specialize (Hg _ _ Hb). lia.
    + specialize (Hg _ _ Ha). lia.
    + eauto.
  - intros q [b [[<- <-]|[Hne H]]%lookup_insert_Some]; eauto.
  - rewrite map_size_insert_None by done. lia.
  - lia.
Qed.

(** A session takes over the port [p], from whoever has it. *)
Lemma ownership_install P T Q n p slot s :
  ownership lp P T Q n →
  T !! s_session_id s = None →
  slot_state slot = Active s → s_port s = p → s_generation s = n →
  1024 <= p <= 65535 → p ≠ lp →
  (P !! p = None → size P < MAX_SLOTS)%nat →
  let previous := P !! p ≫= active_session in
  ownership lp (<[p := slot]> P)
    (<[s_session_id s := s]>
       (match previous with Some q => delete (s_session_id q) T | None => T end))
    (match previous with
     | Some q => filter (λ kv, kv.1.1 ≠ s_session_id q) Q
     | None => Q
     end) (n + 1).
Proof.
  intros Hown HT Hact Hport Hgen Hrange Hlp Hsize previous.
  rewrite <-(insert_delete_eq P p).
  assert (size (delete p P) < MAX_SLOTS)%nat as Hsize'.
  { pose proof (own_size _ _ _ _ _ Hown). pose proof (map_size_delete_le P p).
    destruct (P !! p) as [x|] eqn:E; [|specialize (Hsize eq_refl); lia].
    pose proof (map_size_delete_lt P p x E). lia. }
  apply ownership_add; try done.
  - destruct previous as [q|] eqn:Hq; subst previous.
    + apply bind_Some in Hq as (old & Hold & Hq%active_session_Some).
      destruct (own_slot _ _ _ _ _ Hown _ _ _ Hold Hq) as [Hpq HTq]. subst p.
      eapply ownership_remove; try done.
      * by rewrite Hpq.
      * intros. by rewrite lookup_delete_ne by congruence.
      * by rewrite Hpq, lookup_delete_eq.
      * apply map_size_delete_le.
    + apply ownership_drop; [done|]. intros old Hold. by rewrite Hold in Hq.
  - apply lookup_delete_eq.
  - destruct previous; [|done]. apply lookup_delete_None. by right.
Qed.
End ownership.

(** ** Permits

    Every permit of a semaphore is either available or held by exactly one
    forwarding task. *)

Definition holders (g : Generation) (T : gmap TaskId Task) : nat :=
  size (filter (λ kv, t_permit kv.2 = g) T).

Lemma holders_insert g T id t :
  T !! id = None →
  holders g (<[id := t]> T) = ((if decide (t_permit t = g) then 1 else 0) + holders g T)%nat.
Proof.
  intros Hid. unfold holders. rewrite map_filter_insert. simpl. case_decide.
  - rewrite map_size_insert_None; [done|]. apply map_lookup_filter_None. auto.
  - by rewrite delete_id by done.
Qed.

Lemma holders_delete g T id t :
  T !! id = Some t →
  holders g T = ((if decide (t_permit t = g) then 1 else 0) + holders g (delete id T))%nat.
Proof.
  intros Hid. rewrite <-(insert_delete_id T id t Hid) at 1.
  apply holders_insert, lookup_delete_eq.
Qed.

Lemma holders_alter g T id f :
  (∀ t, t_permit (f t) = t_permit t) → holders g (alter f id T) = holders g T.
Proof.
  intros Hf. destruct (T !! id) as [t|] eqn:Hid; [|by rewrite alter_None].
  rewrite (alter_Some _ _ _ _ Hid), holders_insert by apply lookup_delete_eq.
  by rewrite Hf, <-holders_delete.
Qed.

Record accounting {Sem} `{!Semaphore Sem} (maximum : nat) (P : gmap Z PortSlot)
    (global : Sem) (next : Z) (L : gmap Generation Sem) (T : gmap TaskId Task)
    (next_id : TaskId) : Prop := {
  acc_permits : ∀ g sem, L !! g = Some sem → (available sem + holders g T)%nat = maximum;
  acc_task : ∀ id t, T !! id = Some t → is_Some (L !! t_permit t);
  acc_global : (available global + size T)%nat = MAX_GLOBAL_CONNECTIONS;
  acc_fresh : ∀ g, is_Some (L !! g) → g < next;
  acc_next : ∀ id, is_Some (T !! id) → (id < next_id)%nat;
  acc_active : ∀ p slot s, P !! p = Some slot → slot_state slot = Active s →
    is_Some (L !! s_generation s)
}.

Section accounting.
Context {Sem : Type} `{!Semaphore Sem, !SemaphoreLaws Sem}.
Context (maximum : nat).
Implicit Types (P : gmap Z PortSlot) (L : gmap Generation Sem) (T : gmap TaskId Task).

Lemma accounting_new :
  accounting maximum ∅ (sem_new MAX_GLOBAL_CONNECTIONS : Sem) 1 ∅ ∅ 0.
Proof.
  split; intros; simplify_map_eq; try done.
  rewrite available_new, map_size_empty. lia.
Qed.

(** Slots may lose their session, or leave. *)
Lemma accounting_slots P P' G n L T k :
  (∀ p slot s, P' !! p = Some slot → slot_state slot = Active s →
    ∃ slot', P !! p = Some slot' ∧ slot_state slot' = Active s) →
  accounting maximum P G n L T k → accounting maximum P' G n L T k.
Proof.
  intros HP [? ? ? ? ? Ha]; split; try done. intros p slot s Hp Hs.
  destruct (HP _ _ _ Hp Hs) as (slot' & ? & ?). eauto.
Qed.

(** A registration makes a full semaphore under a fresh generation. *)
Lemma accounting_install P G n L T k p slot s :
  slot_state slot = Active s → s_generation s = n →
  accounting maximum P G n L T k →
  accounting maximum (<[p := slot]> P) G (n + 1) (<[n := sem_new maximum]> L) T k.
Proof.
  intros Hs Hg [Hl Ht Hgl Hf Hn Ha].
  assert (L !! n = None) as HLn.
  { apply eq_None_not_Some. intros H%Hf. lia. }
  assert (holders n T = 0)%nat as Hz.
  { unfold holders. apply map_size_empty_iff, map_empty. intros id.
    apply map_lookup_filter_None. right. intros t Ht' Heq. simpl in Heq.
    destruct (Ht _ _ Ht') as [? HL]. rewrite Heq in HL. congruence. }
  split; try done.
  - intros g sem [[<- <-]|[Hne H]]%lookup_insert_Some; [|eauto].
    rewrite available_new. lia.
  - intros id t H. rewrite lookup_insert. case_decide; [done|eauto].
  - intros g [sem [[<- <-]|[Hne H]]%lookup_insert_Some]; [lia|].
    assert (g < n) by eauto. lia.
  - intros q b s' [[<- <-]|[Hne H]]%lookup_insert_Some Hb.
    + simplify_eq. rewrite Hs in Hb. simplify_eq. by rewrite lookup_insert_eq.
    + rewrite lookup_insert. case_decide; [done|eauto].
Qed.

(** Both permits taken and given to a new task. *)
Lemma accounting_admit P G G' n L T k g sem sem' t :
  L !! g = Some sem → try_acquire sem = Some sem' → try_acquire G = Some G' →
  t_permit t = g →
  accounting maximum P G n L T k →
  accounting maximum P G' n (<[g := sem']> L) (<[k := t]> T) (S k).
Proof.
  intros HL Ha%try_acquire_Some Hg%try_acquire_Some Ht [Hl Htk Hgl Hf Hn Hac].
  assert (T !! k = None) as Hk.
  { apply eq_None_not_Some. intros H%Hn. lia. }
  split.
  - intros g' x. rewrite holders_insert, Ht by done.
    intros [[<- <-]|[Hne H]]%lookup_insert_Some.
    + specialize (Hl _ _ HL). rewrite decide_True by done. lia.
    + rewrite decide_False by done. eauto.
  - intros id x [[<- <-]|[Hne H]]%lookup_insert_Some; rewrite lookup_insert;
      case_decide; eauto; congruence.
  - rewrite map_size_insert_None by done. lia.
  - intros g' H. rewrite lookup_insert in H. case_decide; subst; eauto.
  - intros id [x [[<- <-]|[Hne H]]%lookup_insert_Some]; [lia|].
    assert (id < k)%nat by eauto. lia.
  - intros. rewrite lookup_insert. case_decide; eauto.
Qed.

(** Permits taken and given back within one handler. *)
Lemma accounting_same P G G' n L L' T k :
  available G' = available G →
  (∀ g, available <$> L' !! g = available <$> L !! g) →
  accounting maximum P G n L T k → accounting maximum P G' n L' T k.
Proof.
  intros HG HL [Hl Ht Hgl Hf Hn Ha].
  assert (∀ g, is_Some (L' !! g) ↔ is_Some (L !! g)) as Hdom.
  { intros g. specialize (HL g). destruct (L' !! g), (L !! g); simplify_eq/=; split; done. }
  split; try done.
  - intros g sem H. specialize (HL g). rewrite H in HL.
    destruct (L !! g) as [sem0|] eqn:E; simplify_eq/=. rewrite HL. eauto.
  - intros. apply Hdom. eauto.
  - lia.
  - intros g H%Hdom. eauto.
  - intros. apply Hdom. eauto.
Qed.

Lemma available_reacquired L g sem sem' :
  L !! g = Some sem → try_acquire sem = Some sem' →
  ∀ g', available <$> alter release g (<[g := sem']> L) !! g' = available <$> L !! g'.
Proof.
  intros HL Ha%try_acquire_Some g'. rewrite lookup_alter. case_decide; subst.
  - rewrite lookup_insert_eq, HL. simpl. by rewrite available_release, Ha.
  - by rewrite lookup_insert_ne.
Qed.

(** A task ends and its permits come back. *)
Lemma accounting_finish P G n L T k id t :
  T !! id = Some t →
  accounting maximum P G n L T k →
  accounting maximum P (release G) n (alter release (t_permit t) L) (delete id T) k.
Proof.
  intros Hid [Hl Ht Hgl Hf Hn Ha].
  assert (∀ g, is_Some (L !! g) → is_Some (alter release (t_permit t) L !! g)) as Hmono.
  { intros g [x Hx]. rewrite lookup_alter. case_decide; subst; rewrite Hx; eauto. }
  split.
  - intros g sem H. rewrite lookup_alter in H. case_decide as E.
    + rewrite E in H. apply fmap_Some in H as (x & HL & ->).
      specialize (Hl _ _ HL). rewrite (holders_delete _ _ _ _ Hid) in Hl.
      rewrite decide_True in Hl by done. rewrite available_release. lia.
    + specialize (Hl _ _ H). rewrite (holders_delete _ _ _ _ Hid) in Hl.
      by rewrite decide_False in Hl by done.
  - intros id' x [_ H]%lookup_delete_Some. eauto.
  - rewrite available_release.
    pose proof (map_size_delete_lt _ _ _ Hid). rewrite map_size_delete, Hid in *. lia.
  - intros g H. apply Hf. rewrite lookup_alter in H.
    case_decide; subst; [by apply fmap_is_Some in H|done].
  - intros id' [x [_ H]%lookup_delete_Some]. eauto.
  - intros. apply Hmono. eauto.
Qed.

(** A delivery changes no permit. *)
Lemma accounting_alter_task P G n L T k id f :
  (∀ t, t_permit (f t) = t_permit t) →
  accounting maximum P G n L T k → accounting maximum P G n L (alter f id T) k.
Proof.
  intros Hfp [Hl Ht Hgl Hf Hn Ha]. split; try done.
  - intros. rewrite holders_alter; eauto.
  - intros id' t H. rewrite lookup_alter in H. case_decide; [|eauto].
    apply fmap_Some in H as (x & Hx & ->). rewrite Hfp. eauto.
  - by rewrite map_size_alter.
  - intros id' H. apply Hn. rewrite lookup_alter in H.
    case_decide; subst; [by apply fmap_is_Some in H|done].
Qed.
End accounting.

(** ** Requests and tasks

    A pending request is the sending half of the channel of one task, which was
    made for it and has not received anything yet. *)

Record linkage (Q : gmap (SessionId * RequestId) PendingRequest) (T : gmap TaskId Task)
    (next_id : TaskId) : Prop := {
  lnk_fresh : ∀ k e, Q !! k = Some e → (p_sender e < next_id)%nat;
  lnk_inj : ∀ k k' e e', Q !! k = Some e → Q !! k' = Some e' →
    p_sender e = p_sender e' → k = k';
  lnk_task : ∀ sid rid e t, Q !! (sid, rid) = Some e → T !! p_sender e = Some t →
    t_session t = sid ∧ t_request t = rid ∧ t_permit t = p_generation e ∧
    t_deadline t = p_deadline e ∧ t_data t = None
}.

Section linkage.
Implicit Types (Q : gmap (SessionId * RequestId) PendingRequest) (T : gmap TaskId Task).

Lemma linkage_fewer Q Q' T T' k :
  Q' ⊆ Q → T' ⊆ T → linkage Q T k → linkage Q' T' k.
Proof.
  intros HQ HT [Hf Hi Ht]; split; intros.
  - by eapply Hf, lookup_weaken.
  - by eapply Hi; [eapply lookup_weaken..|].
  - by eapply Ht; eapply lookup_weaken.
Qed.

Lemma linkage_admit Q T k sid rid e t :
  Q !! (sid, rid) = None → p_sender e = k →
  t_session t = sid → t_request t = rid → t_permit t = p_generation e →
  t_deadline t = p_deadline e → t_data t = None →
  linkage Q T k → linkage (<[(sid, rid) := e]> Q) (<[k := t]> T) (S k).
Proof.
  intros HQ He Hts Htr Htp Htd Htn [Hf Hi Ht]; split.
  - intros k' e' [[<- <-]|[Hne H']]%lookup_insert_Some; [lia|].
    specialize (Hf _ _ H'). lia.
  - intros k1 k2 e1 e2 [[<- <-]|[Hne1 H1]]%lookup_insert_Some
      [[<- <-]|[Hne2 H2]]%lookup_insert_Some Heq; [done|..].
    + specialize (Hf _ _ H2). lia.
    + specialize (Hf _ _ H1). lia.
    + eauto.
  - intros sid' rid' e' t' [[[= <- <-] <-]|[Hne H']]%lookup_insert_Some.
    + rewrite He, lookup_insert_eq. intros [= <-]. done.
    + rewrite lookup_insert_ne; [eauto|]. specialize (Hf _ _ H'). lia.
Qed.

(** A claim consumes the request and hands its task a socket. *)
Lemma linkage_claim Q T k key e f :
  Q !! key = Some e → linkage Q T k →
  linkage (delete key Q) (alter f (p_sender e) T) k.
Proof.
  intros HQ [Hf Hi Ht]; split.
  - intros k' e' [_ H]%lookup_delete_Some. eauto.
  - intros k1 k2 e1 e2 [_ H1]%lookup_delete_Some [_ H2]%lookup_delete_Some. eauto.
  - intros sid rid e' t [Hne H]%lookup_delete_Some.
    rewrite lookup_alter_ne; [eauto|]. intros Heq. by apply Hne, (Hi _ _ _ _ HQ H).
Qed.
End linkage.

(** ** The registry as a transition system

    A step is a command, a sweep, or something another task does to the shared
    objects: a forwarding task ends, the task of a control connection moves the
    queue of its writer, a token is cancelled. *)

Section reachable.
Context {Sem Chan : Type} `{!Semaphore Sem, !Channel Outbound Chan}.
Context (config : ServerConfig) (timing : Timing).
Implicit Types (r : Registry Sem Chan) (env : Env).

(** What [server::control::serve] guarantees of a registration: the session
    identifier is fresh, and mode and port have passed
    [ControlHello::decode]. *)
Definition admissible (c : Command) r : Prop :=
  match c with
  | CRegister req =>
      sessions r !! rq_session_id req = None ∧
      is_u16 (rq_requested_port req) ∧
      (rq_requested_port req = 0 → rq_mode req = Fresh) ∧
      (rq_requested_port req ≠ 0 → 1024 <= rq_requested_port req)
  | _ => True
  end.

Inductive Event :=
| EvCommand (env : Env) (c : Command)
| EvSweep (t : Instant)
| EvFinish (id : TaskId)
| EvWriters
| EvCancel (t : Token).

Inductive fires : Event → Registry Sem Chan → Registry Sem Chan → Prop :=
| fires_command r env c reply stop r' :
    admissible c r →
    handle_command config timing env c r = Returns (reply, stop, r') →
    fires (EvCommand env c) r r'
| fires_sweep r t : fires (EvSweep t) r (sweep t r)
| fires_finish r id : fires (EvFinish id) r (finish_task id r)
| fires_writers r ws : fires EvWriters r (set_writers ws r)
| fires_cancel r t : fires (EvCancel t) r (cancel t r).

Definition step r r' : Prop := ∃ e, fires e r r'.

(** A run, with what happened in it. *)
Inductive fires_all : list Event → Registry Sem Chan → Registry Sem Chan → Prop :=
| fires_nil r : fires_all [] r r
| fires_cons e l r1 r2 r3 : fires e r1 r2 → fires_all l r2 r3 → fires_all (e :: l) r1 r3.

Definition reachable r : Prop := ∃ ws, rtc step (new ws) r.

Definition owned r : Prop :=
  ownership (port (listen config)) (ports r) (sessions r) (pending r) (next_generation r).
Definition accounted r : Prop :=
  accounting (Z.to_nat (sc_max_connections config)) (ports r) (global_connections r)
    (next_generation r) (permits r) (tasks r) (next_task r).
Definition linked r : Prop := linkage (pending r) (tasks r) (next_task r).

Record invariant r : Prop := {
  inv_owned : owned r;
  inv_accounted : accounted r;
  inv_linked : linked r
}.
End reachable.
