(* ===== verification/RegistrySafe.v ===== *)
(** * Every handler of the registry preserves the invariant *)

From S2P Require Import Prelude Errors Protocol Runtime Timing Net Config.
From S2P Require Import Registry RegistryOps RegistryInv.

Local Open Scope Z_scope.

Section safe.
Context {Sem Chan : Type} `{!Semaphore Sem, !Channel Outbound Chan}.
Context `{!SemaphoreLaws Sem}.
Context (config : ServerConfig) (timing : Timing).
Implicit Types (r : Registry Sem Chan) (env : Env).

Local Abbreviation inv := (invariant config).

(** The live slot of a session, and what the handlers read of it. *)
Lemma session_slot r sid s :
  inv r → sessions r !! sid = Some s →
  s_session_id s = sid ∧ ∃ slot, ports r !! s_port s = Some slot ∧ slot_state slot = Active s.
Proof. intros [Ho _ _]. apply Ho. Qed.

Lemma session_holds r sid s :
  inv r → sessions r !! sid = Some s → holds_slot (s_generation s) (s_port s) r = true.
Proof.
  intros Hi Hs. destruct (session_slot _ _ _ Hi Hs) as (_ & slot & Hp & Ha).
  unfold holds_slot. rewrite Hp, Ha. by apply bool_decide_eq_true.
Qed.

Lemma filter_pending_subseteq (Q : gmap (SessionId * RequestId) PendingRequest) sid :
  filter (λ kv, kv.1.1 ≠ sid) Q ⊆ Q.
Proof. apply map_filter_subseteq. Qed.

(** ** Registration *)

Lemma install_invariant env req p r r1 slot :
  inv r → admissible (CRegister req) r →
  chosen config timing env p r r1 →
  ports r1 !! p = Some slot →
  1024 <= p <= 65535 → p ≠ port (listen config) →
  inv (installed config timing req p slot r1).
Proof.
  intros [Ho Ha Hl] (Hfresh & _) Hch Hslot Hrange Hlp.
  set (s := new_session req p (next_generation r)).
  set (slot' := mkPortSlot (listener_id slot) (listener_cancel slot) (Active s)).
  assert (active_session slot = (ports r !! p ≫= active_session)) as Hprev.
  { destruct Hch as [[-> _]|(-> & HN & _)].
    - by rewrite Hslot.
    - simpl in Hslot. rewrite lookup_insert_eq in Hslot. simplify_eq. by rewrite HN. }
  assert (<[p := slot']> (ports r1) = <[p := slot']> (ports r)) as Hports.
  { destruct Hch as [[-> _]|(-> & _)]; [done|]. apply insert_insert_eq. }
  assert (sessions r1 = sessions r ∧ pending r1 = pending r ∧
    global_connections r1 = global_connections r ∧ next_generation r1 = next_generation r ∧
    permits r1 = permits r ∧ tasks r1 = tasks r ∧ next_task r1 = next_task r)
    as (E1 & E2 & E3 & E4 & E5 & E6 & E7) by (destruct Hch as [[-> _]|(-> & _)]; done).
  unfold installed. rewrite E1, E2, E3, E4, E5, E6, E7.
  fold s slot'. rewrite Hports, Hprev. split.
  - apply (ownership_install _ _ _ _ _ p slot' s); try done.
    intros HN. destruct Hch as [[-> [x Hx]]|(_ & _ & Hz & _)]; [congruence|done].
  - by apply (accounting_install _ _ _ _ _ _ _ p slot' s).
  - unfold linked. simpl. eapply linkage_fewer; [|done|apply Hl].
    destruct (_ ≫= _); [apply filter_pending_subseteq|done].
Qed.

(** The port a registration gets is in range, and it is not the control port. *)
Lemma chosen_port_range env req r p r1 :
  wf_server_config config → inv r → admissible (CRegister req) r →
  (rq_requested_port req ≠ 0 → p ≠ port (listen config)) →
  choose_port config timing env req r = (Ok p, r1) →
  1024 <= p <= 65535 ∧ p ≠ port (listen config).
Proof.
  intros Hwf [Ho _ _] (_ & Hu & Hmode & Hreq) Hlp Hc.
  apply choose_port_spec in Hc as (Hch & Heq & Hauto & _).
  destruct (decide (rq_requested_port req = 0)) as [E|E].
  - specialize (Hauto (Hmode E) E). apply allocate_automatic_spec in Hauto.
    destruct Hauto as [(-> & [(slot & Hslot & _) _])|(_ & _ & (Hr & Hne & _) & _)].
    + apply (own_ports _ _ _ _ _ Ho). eauto.
    + split; [|done]. destruct Hwf as (? & ? & ?). lia.
  - rewrite (Heq E) in *. unfold in_bits in Hu. specialize (Hreq E). split; [lia|auto].
Qed.

Lemma register_invariant env req r res r' :
  wf_server_config config → inv r → admissible (CRegister req) r →
  register config timing env req r = Returns (res, r') → inv r'.
Proof.
  intros Hwf Hi Had H. destruct res as [reg|code].
  - apply register_Ok in H as (p & r1 & slot & Hc & Hch & Hlp & Hslot & -> & _).
    destruct (chosen_port_range _ _ _ _ _ Hwf Hi Had Hlp Hc).
    by eapply install_invariant.
  - by apply register_Err in H as ->.
Qed.

(** ** The end of a session *)

Lemma session_lost_invariant env sid g r : inv r → inv (session_lost timing env sid g r).
Proof.
  intros Hi. destruct (session_lost_cases timing env sid g r) as [->|(s & Hs & <- & ->)];
    [done|]. rewrite (session_holds _ _ _ Hi Hs).
  destruct (session_slot _ _ _ Hi Hs) as (_ & slot & Hp & Hact).
  destruct Hi as [Ho Ha Hl]. split.
  - eapply ownership_remove; try done; simpl.
    + intros p Hne. by rewrite lookup_alter_ne.
    + rewrite lookup_alter_eq, Hp. simpl. unfold slot_generation. by rewrite Hact.
    + by rewrite map_size_alter.
  - eapply accounting_slots, Ha. intros p x b. simpl. rewrite lookup_alter.
    case_decide; [|eauto]. subst. rewrite Hp. by intros [= <-].
  - eapply linkage_fewer; [apply filter_pending_subseteq|done|apply Hl].
Qed.

Lemma goodbye_invariant sid g r : inv r → inv (goodbye sid g r).
Proof.
  intros Hi. destruct (goodbye_cases sid g r) as [->|(s & Hs & <- & ->)]; [done|].
  rewrite (session_holds _ _ _ Hi Hs).
  destruct (session_slot _ _ _ Hi Hs) as (_ & slot & Hp & Hact). rewrite Hp.
  destruct Hi as [Ho Ha Hl]. split.
  - eapply ownership_remove; try done; simpl.
    + intros p Hne. by rewrite lookup_delete_ne.
    + by rewrite lookup_delete_eq.
    + apply map_size_delete_le.
  - eapply accounting_slots, Ha. simpl. intros p x b [_ H]%lookup_delete_Some. eauto.
  - eapply linkage_fewer; [apply filter_pending_subseteq|done|apply Hl].
Qed.

(** ** Public connections *)

(** Permits that come back leave the invariant alone. *)
Lemma invariant_returned r G' L' :
  available G' = available (global_connections r) →
  (∀ g, available <$> L' !! g = available <$> permits r !! g) →
  inv r → inv (set_global_connections G' (set_permits L' r)).
Proof. intros HG HL [Ho Ha Hl]. split; [done| |done]. by eapply accounting_same. Qed.

(** [session_lost] neither reads nor changes the permits. *)
Lemma session_lost_permits env sid g r :
  global_connections (session_lost timing env sid g r) = global_connections r ∧
  permits (session_lost timing env sid g r) = permits r.
Proof. destruct (session_lost_cases timing env sid g r) as [->|(s & _ & _ & ->)]; done. Qed.

Lemma abandoned_lost env sid g sem' G' r :
  abandoned g (session_lost timing env sid g (acquired g sem' G' r)) =
  set_global_connections (release G')
    (set_permits (alter release g (<[g := sem']> (permits r)))
       (session_lost timing env sid g r)).
Proof.
  unfold session_lost, acquired, abandoned. simpl.
  destruct (sessions r !! sid) as [s|]; [|done]. destruct (decide _); [done|].
  change (holds_slot g (s_port s) (set_global_connections _ _))
    with (holds_slot g (s_port s) r).
  by destruct (holds_slot g (s_port s) r).
Qed.

Lemma accepts_invariant env at_ socket p slot s r r' :
  inv r → ports r !! p = Some slot → slot_state slot = Active s →
  accepts timing env at_ socket s r r' → inv r'.
Proof.
  intros Hi Hp Hact H. destruct (own_slot _ _ _ _ _ (inv_owned _ _ Hi) _ _ _ Hp Hact) as [_ HT].
  destruct H as [sem sem' HL Hacq Hg|sem sem' G' HL Hacq Hg|sem sem' G' HL Hacq Hg
                |sem sem' G' rid HL Hacq Hg HQ _].
  - change (inv (set_global_connections (global_connections r) (set_permits
      (alter release (s_generation s) (<[s_generation s := sem']> (permits r))) r))).
    apply (invariant_returned r (global_connections r)
      (alter release (s_generation s) (<[s_generation s := sem']> (permits r)))); [done| |done].
    by eapply available_reacquired.
  - change (inv (set_global_connections (release G') (set_permits
      (alter release (s_generation s) (<[s_generation s := sem']> (permits r))) r))).
    apply (invariant_returned r (release G')
      (alter release (s_generation s) (<[s_generation s := sem']> (permits r))));
      [|by eapply available_reacquired|done].
    apply try_acquire_Some in Hg. rewrite available_release. lia.
  - rewrite abandoned_lost.
    destruct (session_lost_permits env (s_session_id s) (s_generation s) r) as [EG EL].
    apply invariant_returned; [|intros g|by apply session_lost_invariant].
    + apply try_acquire_Some in Hg. rewrite available_release, EG. lia.
    + rewrite EL. by eapply available_reacquired.
  - destruct Hi as [Ho Ha Hl]. split.
    + by eapply ownership_more_pending.
    + by eapply accounting_admit.
    + by eapply linkage_admit.
Qed.

Lemma accepted_public_invariant env lid p socket at_ r r' :
  inv r → accepted_public timing env lid p socket at_ r = Returns r' → inv r'.
Proof.
  intros Hi [->|(slot & s & Hp & _ & Hact & H)]%accepted_public_spec; [done|].
  by eapply accepts_invariant.
Qed.

Lemma invariant_fewer_pending r Q :
  Q ⊆ pending r → inv r → inv (set_pending Q r).
Proof.
  intros HQ [Ho Ha Hl]. split; [|done|].
  - by eapply ownership_fewer_pending.
  - by eapply linkage_fewer.
Qed.

Lemma claim_cases env sid rid socket r :
  claim env sid rid socket r = (Rejected RequestUnavailable (Some socket), r) ∨
  ∃ s e, sessions r !! sid = Some s ∧ pending r !! (sid, rid) = Some e ∧
    p_generation e = s_generation s ∧ now env < p_deadline e ∧
    claim env sid rid socket r =
      if receiver_open env (p_sender e)
      then (Delivered, deliver (p_sender e) socket
              (set_pending (delete (sid, rid) (pending r)) r))
      else (Rejected RequestUnavailable (Some socket),
            set_pending (delete (sid, rid) (pending r)) r).
Proof.
  unfold claim. destruct (sessions r !! sid) as [s|]; [|by left].
  destruct (pending r !! (sid, rid)) as [e|]; [|by left].
  destruct (decide (_ ∨ _)) as [|Hn]; [by left|]. right. exists s, e.
  split_and!; try done; [|lia]. apply dec_stable. tauto.
Qed.

Lemma claim_invariant env sid rid socket r : inv r → inv (claim env sid rid socket r).2.
Proof.
  intros Hi. destruct (claim_cases env sid rid socket r)
    as [->|(s & e & Hs & He & Hg & Hd & ->)]; [done|].
  destruct (receiver_open env _); [|by apply invariant_fewer_pending, Hi; apply delete_subseteq].
  destruct Hi as [Ho Ha Hl]. split.
  - eapply ownership_fewer_pending, Ho. apply delete_subseteq.
  - by apply accounting_alter_task.
  - by eapply linkage_claim.
Qed.

(** ** Sweep, shutdown and the other tasks *)

Lemma release_port_invariant p r :
  (∀ slot, ports r !! p = Some slot → active_session slot = None) →
  inv r → inv (release_port p r).
Proof.
  intros Hdead Hi. unfold release_port. destruct (ports r !! p) as [slot|] eqn:Hp; [|done].
  destruct Hi as [Ho Ha Hl]. split; [apply ownership_drop; [done|]; intros x; rewrite Hp; apply Hdead| |exact Hl].
  eapply accounting_slots, Ha. simpl. intros q x b [_ H]%lookup_delete_Some. eauto.
Qed.

Lemma release_port_lookup p q r :
  ports (release_port p r) !! q = if decide (q = p) then None else ports r !! q.
Proof.
  unfold release_port. destruct (ports r !! p) as [slot|] eqn:Hp; simpl.
  - case_decide; subst; [apply lookup_delete_eq|by rewrite lookup_delete_ne].
  - case_decide; by subst.
Qed.

Lemma sweep_invariant t r : inv r → inv (sweep t r).
Proof.
  intros Hi. unfold sweep.
  assert (inv (set_pending (filter (λ kv, t < p_deadline kv.2) (pending r)) r)) as Hi'
    by (apply invariant_fewer_pending, Hi; apply map_filter_subseteq).
  revert Hi'. generalize (set_pending (filter (λ kv, t < p_deadline kv.2) (pending r)) r).
  intros r0 Hi0.
  set (gone := List.filter _ _).
  assert (∀ p slot, p ∈ gone → ports r0 !! p = Some slot → active_session slot = None) as Hg.
  { intros p slot Hin Hp. apply list_elem_of_In, filter_In in Hin as [_ Hin].
    rewrite Hp in Hin. unfold expired in Hin. unfold active_session.
    by destruct (slot_state slot). }
  clearbody gone. revert r0 Hi0 Hg. induction gone as [|p l IH]; intros r0 Hi0 Hg; [done|].
  simpl. apply IH.
  - apply release_port_invariant; [|done]. intros slot. apply Hg. constructor.
  - intros q slot Hin. rewrite release_port_lookup. case_decide; [done|].
    apply Hg. by constructor.
Qed.

Lemma foldl_cancel (l : list Token) r :
  foldl (λ r t, cancel t r) r l = set_cancelled (foldl (λ c t, {[t]} ∪ c) (cancelled r) l) r.
Proof.
  revert r. induction l as [|t l IH]; intros r; [by destruct r|].
  simpl. by rewrite IH.
Qed.

(** The two messages a writer gets at shutdown. *)
Definition shutdown_writer (ws : gmap WriterId Chan) (s : SessionRef) : gmap WriterId Chan :=
  queue_send (queue_send ws (s_writer s) (out_frame TServerShutdown []))
    (s_writer s) CloseAfterFlush.

Lemma foldl_notify (l : list (SessionId * SessionRef)) r :
  foldl (λ r kv, notify_shutdown kv.2 r) r l =
  set_cancelled (foldl (λ c kv, {[s_data_cancel kv.2]} ∪ c) (cancelled r) l)
    (set_writers (foldl (λ ws kv, shutdown_writer ws kv.2) (writers r) l) r).
Proof.
  revert r. induction l as [|[sid s] l IH]; intros r; [by destruct r|].
  simpl. rewrite IH. unfold notify_shutdown. by rewrite !writer_send_ignore_eq.
Qed.

Lemma shutdown_all_eq r :
  shutdown_all r = {|
    ports := ∅;
    sessions := ∅;
    pending := ∅;
    global_connections := global_connections r;
    next_generation := next_generation r;
    next_listener_id := next_listener_id r;
    permits := permits r;
    writers := foldl (λ ws kv, shutdown_writer ws kv.2) (writers r) (map_to_list (sessions r));
    tasks := tasks r;
    next_task := next_task r;
    cancelled :=
      foldl (λ c t, {[t]} ∪ c)
        (foldl (λ c kv, {[s_data_cancel kv.2]} ∪ c) (cancelled r) (map_to_list (sessions r)))
        ((λ kv, listener_cancel kv.2) <$> map_to_list (ports r));
    delayed_cancels := delayed_cancels r
  |}.
Proof. unfold shutdown_all. by rewrite foldl_notify, foldl_cancel. Qed.

Lemma shutdown_all_invariant r : inv r → inv (shutdown_all r).
Proof.
  intros [Ho Ha Hl]. rewrite shutdown_all_eq. split.
  - split; simpl; intros; simplify_map_eq; try done; [rewrite map_size_empty; lia|].
    apply Ho.
  - eapply accounting_slots, Ha. simpl. intros p x s H. by rewrite lookup_empty in H.
  - eapply linkage_fewer, Hl; [apply map_empty_subseteq|done].
Qed.

Lemma finish_task_invariant id r : inv r → inv (finish_task id r).
Proof.
  intros Hi. unfold finish_task. destruct (tasks r !! id) as [t|] eqn:Ht; [|done].
  destruct Hi as [Ho Ha Hl]. split; [done|by eapply accounting_finish|].
  eapply linkage_fewer, Hl; [done|]. apply delete_subseteq.
Qed.

(** ** The transition system *)

Lemma handle_command_invariant env c reply stop r r' :
  wf_server_config config → inv r → admissible c r →
  handle_command config timing env c r = Returns (reply, stop, r') → inv r'.
Proof.
  intros Hwf Hi Had H. destruct c; simpl in H.
  - apply outcome_bind_Returns in H as ([res r1] & H & [= _ _ <-]).
    by eapply register_invariant.
  - apply outcome_bind_Returns in H as (r1 & H & [= _ _ <-]).
    by eapply accepted_public_invariant.
  - destruct (claim _ _ _ _ _) as [o r1] eqn:Hc. injection H as _ _ <-.
    pose proof (claim_invariant env sid rid socket r Hi) as H. by rewrite Hc in H.
  - by injection H as _ _ <-.
  - injection H as _ _ <-. apply invariant_fewer_pending, Hi. apply delete_subseteq.
  - injection H as _ _ <-. by apply session_lost_invariant.
  - injection H as _ _ <-. by apply goodbye_invariant.
  - injection H as _ _ <-. apply invariant_fewer_pending, Hi. apply delete_subseteq.
  - injection H as _ _ <-. by apply shutdown_all_invariant.
Qed.

Lemma fires_invariant e r r' :
  wf_server_config config → inv r → fires config timing e r r' → inv r'.
Proof.
  intros Hwf Hi H. destruct H as [r env c reply stop r' Had H|r t|r id|r ws|r t].
  - by eapply handle_command_invariant.
  - by apply sweep_invariant.
  - by apply finish_task_invariant.
  - by destruct Hi.
  - by destruct Hi.
Qed.

Lemma new_invariant ws : inv (new ws : Registry Sem Chan).
Proof.
  split; [apply ownership_empty|apply accounting_new|]. by split; intros; simplify_map_eq.
Qed.

Lemma invariant_of_reachable r :
  wf_server_config config → reachable config timing r → inv r.
Proof.
  intros Hwf [ws H]. pose proof (new_invariant ws : inv (new ws : Registry Sem Chan)) as Hn. revert Hn.
  induction H as [|r1 r2 r3 [e Hs] _ IH]; [done|]. intros Hi. by eapply IH, fires_invariant.
Qed.

Lemma reachable_fires e r r' :
  reachable config timing r → fires config timing e r r' → reachable config timing r'.
Proof.
  intros [ws H] He. exists ws. eapply rtc_r; [done|]. by exists e.
Qed.

Lemma fires_all_invariant l r r' :
  wf_server_config config → inv r → fires_all config timing l r r' → inv r'.
Proof.
  intros Hwf Hi H. induction H as [|e l r1 r2 r3 He _ IH]; [done|].
  by eapply IH, fires_invariant.
Qed.
End safe.
