(* ===== verification/RegistrySpec.v ===== *)
(** * What the registry promises: who holds which public port

    The abstract specification keeps one thing only, the map from public ports
    to tunnels: the instance that holds the port, the generation of the
    registration it holds it by, and whether the tunnel is live or kept for a
    while for the instance to come back.  The registry of [Registry.v] refines
    it: every event either leaves the tunnels alone or does one deed. *)

From S2P Require Import Prelude Errors Protocol Runtime Timing Net Config.
From S2P Require Import Registry RegistryOps RegistryInv RegistrySafe.

Local Open Scope Z_scope.

(** ** The specification *)

Record Tunnel := mkTunnel {
  holder : InstanceId;
  tenure : Generation;
  kept_until : option Instant
}.

Abbreviation Tunnels := (gmap Z Tunnel).

Inductive Deed :=
| Acquire (inst : InstanceId) (mode : Mode) (requested p : Z) (g : Generation)
| Lose (p : Z) (until : Instant)
| Leave (p : Z)
| Expire (t : Instant)
| CloseAll.

Definition holds (m : Tunnels) (inst : InstanceId) (p : Z) : Prop :=
  ∃ t, m !! p = Some t ∧ holder t = inst.

(** A tunnel survives a sweep when it is live or its time has not come. *)
Definition unexpired (t : Instant) (x : Tunnel) : Prop :=
  match kept_until x with Some until => t < until | None => True end.

#[export] Instance unexpired_dec t x : Decision (unexpired t x).
Proof. unfold unexpired. destruct (kept_until x); apply _. Defined.

Inductive spec_step (listen_port : Z) : Deed → Tunnels → Tunnels → Prop :=
| spec_acquire inst mode requested p g m :
    (∀ q t, m !! q = Some t → tenure t < g) →
    1024 <= p <= 65535 → p ≠ listen_port →
    (requested ≠ 0 → p = requested) →
    (requested = 0 →
       (holds m inst p ∧ ∀ q, holds m inst q → p <= q) ∨
       ((∀ q, ¬ holds m inst q) ∧ m !! p = None)) →
    (mode = Resume → ∀ t, m !! p = Some t → holder t = inst) →
    (m !! p = None → size m < MAX_SLOTS)%nat →
    spec_step listen_port (Acquire inst mode requested p g) m
      (<[p := mkTunnel inst g None]> m)
| spec_lose p until inst g m :
    m !! p = Some (mkTunnel inst g None) →
    spec_step listen_port (Lose p until) m (<[p := mkTunnel inst g (Some until)]> m)
| spec_leave p inst g m :
    m !! p = Some (mkTunnel inst g None) →
    spec_step listen_port (Leave p) m (delete p m)
| spec_expire t m :
    spec_step listen_port (Expire t) m (filter (λ kv, unexpired t kv.2) m)
| spec_close m : spec_step listen_port CloseAll m ∅.

(** ** Consequences of the specification *)

(** A held port changes hands only by a fresh registration that names it. *)
Lemma spec_takeover lp d m m' p t t' :
  spec_step lp d m m' → m !! p = Some t → m' !! p = Some t' → holder t' ≠ holder t →
  ∃ g, p ≠ 0 ∧ d = Acquire (holder t') Fresh p p g.
Proof.
  intros H Hm Hm' Hne.
  destruct H as [inst mode requested q g m _ Hr _ Hreq Hauto Hres _|q until inst g m Hq
                |q inst g m Hq|x m|m].
  - apply lookup_insert_Some in Hm' as [[<- <-]|[_ Hm']]; [|congruence]. simpl in *.
    destruct (decide (requested = 0)) as [E|E].
    + destruct (Hauto E) as [[(y & Hy & Hh) _]|[_ HN]]; congruence.
    + rewrite <-(Hreq E). destruct mode; [|by destruct Hne; rewrite (Hres eq_refl _ Hm)].
      exists g. split; [lia|done].
  - apply lookup_insert_Some in Hm' as [[<- <-]|[_ Hm']]; simplify_eq/=.
  - apply lookup_delete_Some in Hm' as [_ Hm']. congruence.
  - apply map_lookup_filter_Some in Hm' as [Hm' _]. congruence.
  - by rewrite lookup_empty in Hm'.
Qed.

(** What can end the keeping of a port: its instance's return, by name or by an
    automatic registration; a fresh registration of another instance that names
    it; a sweep at its time or later; shutdown. *)
Definition ends_keeping (d : Deed) (inst : InstanceId) (p : Z) (until : Instant) : Prop :=
  match d with
  | Acquire i m requested _ _ =>
      (i = inst ∧ (requested = 0 ∨ requested = p)) ∨ (m = Fresh ∧ requested = p)
  | Expire t => until <= t
  | CloseAll => True
  | Lose _ _ | Leave _ => False
  end.

Lemma spec_kept lp d m m' p t until :
  spec_step lp d m m' → m !! p = Some t → kept_until t = Some until →
  ¬ ends_keeping d (holder t) p until → m' !! p = Some t.
Proof.
  intros H Hm Hk Hn.
  destruct H as [inst mode requested q g m _ Hr _ Hreq Hauto Hres _|q u inst g m Hq
                |q inst g m Hq|x m|m]; simpl in Hn.
  - rewrite lookup_insert_ne; [done|]. intros ->. apply Hn.
    destruct (decide (requested = 0)) as [E|E].
    + left. split; [|by left]. destruct (Hauto E) as [[(y & Hy & Hh) _]|[_ HN]]; congruence.
    + destruct mode; [right; split; [done|]; symmetry; auto|].
      left. split; [symmetry; by apply Hres|]. right. symmetry. auto.
  - rewrite lookup_insert_ne; [done|]. intros ->. simplify_eq/=.
  - rewrite lookup_delete_ne; [done|]. intros ->. simplify_eq/=.
  - apply map_lookup_filter_Some. split; [done|]. unfold unexpired. simpl. rewrite Hk. lia.
  - done.
Qed.

(** ** Refinement *)

Definition tunnel_of (s : PortSlot) : Tunnel :=
  mkTunnel (slot_owner s) (slot_generation s)
    (match slot_state s with Active _ => None | Reserved _ _ u => Some u end).

Section refinement.
Context {Sem Chan : Type} `{!Semaphore Sem, !Channel Outbound Chan}.
Context (config : ServerConfig) (timing : Timing).
Implicit Types (r : Registry Sem Chan) (env : Env).

Definition tunnels r : Tunnels := tunnel_of <$> ports r.

Lemma lookup_tunnels r p : tunnels r !! p = tunnel_of <$> ports r !! p.
Proof. apply lookup_fmap. Qed.

Lemma holds_owns r inst p : holds (tunnels r) inst p ↔ owns inst r p.
Proof.
  unfold holds, owns. rewrite lookup_tunnels.
  split; [intros (t & (s & Hs & ->)%fmap_Some & <-); eauto|].
  intros (s & -> & <-). simpl. eauto.
Qed.

(** Which deed an event does, if it does one. *)
Definition explains (e : Event) r (d : Deed) : Prop :=
  match e, d with
  | EvCommand _ (CRegister req), Acquire inst mode requested _ g =>
      inst = rq_instance_id req ∧ mode = rq_mode req ∧
      requested = rq_requested_port req ∧ g = next_generation r
  | EvCommand env (CSessionLost sid g), Lose p until =>
      (∃ s, sessions r !! sid = Some s ∧ s_generation s = g ∧ s_port s = p) ∧
      until = now env + reservation timing
  | EvCommand env (CAcceptedPublic _ p _ _), Lose p' until =>
      p' = p ∧ until = now env + reservation timing
  | EvCommand _ (CGoodbye sid g), Leave p =>
      ∃ s, sessions r !! sid = Some s ∧ s_generation s = g ∧ s_port s = p
  | EvSweep t, Expire t' => t' = t
  | EvCommand _ CShutdown, CloseAll => True
  | _, _ => False
  end.

Definition spec_explains (e : Event) r r' : Prop :=
  ∃ d, explains e r d ∧ spec_step (port (listen config)) d (tunnels r) (tunnels r').

Lemma tunnels_installed env req p slot r r1 :
  chosen config timing env p r r1 → next_generation r1 = next_generation r →
  tunnels (installed config timing req p slot r1) =
    <[p := mkTunnel (rq_instance_id req) (next_generation r) None]> (tunnels r).
Proof.
  intros Hch Hg. unfold tunnels, installed. simpl. rewrite fmap_insert, Hg.
  destruct Hch as [[-> _]|(-> & _)]; [done|]. simpl.
  by rewrite fmap_insert, insert_insert_eq.
Qed.

Lemma chosen_generation env p r r1 :
  chosen config timing env p r r1 → next_generation r1 = next_generation r.
Proof. by intros [[-> _]|(-> & _)]. Qed.

Lemma register_explains `{!SemaphoreLaws Sem} env req r reg r' :
  wf_server_config config → invariant config r → admissible (CRegister req) r →
  register config timing env req r = Returns (Ok reg, r') →
  spec_explains (EvCommand env (CRegister req)) r r'.
Proof.
  intros Hwf Hi Had H.
  apply register_Ok in H as (p & r1 & slot & Hc & Hch & Hlp & _ & -> & _ & _).
  destruct (chosen_port_range _ _ _ _ _ _ _ Hwf Hi Had Hlp Hc) as [Hr Hne].
  destruct Had as (_ & _ & Hmode & _).
  exists (Acquire (rq_instance_id req) (rq_mode req) (rq_requested_port req) p
            (next_generation r)). split; [done|].
  rewrite (tunnels_installed _ _ _ _ _ _ Hch (chosen_generation _ _ _ _ Hch)).
  apply choose_port_spec in Hc as (_ & Hreq & Hauto & Hres).
  pose proof (inv_owned _ _ Hi) as Ho. constructor; try done.
  - intros q t. rewrite lookup_tunnels. intros (x & Hx & ->)%fmap_Some. simpl.
    apply (own_generation _ _ _ _ _ Ho) in Hx; lia.
  - intros E. specialize (Hauto (Hmode E) E). apply allocate_automatic_spec in Hauto.
    rewrite holds_owns. setoid_rewrite holds_owns. rewrite lookup_tunnels.
    destruct Hauto as [[_ Hl]|(Hno & _ & (_ & _ & HN & _) & _)]; [by left|right].
    by rewrite HN.
  - intros E t. rewrite lookup_tunnels. intros (x & Hx & ->)%fmap_Some. by eapply Hres.
  - rewrite lookup_tunnels, fmap_None. unfold tunnels. rewrite map_size_fmap.
    intros HN. destruct Hch as [[-> [x Hx]]|(_ & _ & Hz & _)]; [congruence|done].
Qed.

Lemma lost_tunnels env sid g r s :
  invariant config r → sessions r !! sid = Some s → s_generation s = g →
  tunnels r !! s_port s = Some (mkTunnel (s_instance_id s) g None) ∧
  tunnels (session_lost timing env sid g r) =
    <[s_port s := mkTunnel (s_instance_id s) g (Some (now env + reservation timing))]>
      (tunnels r).
Proof.
  intros Hi Hs Hg. pose proof (session_holds _ _ _ _ Hi Hs) as Hh.
  destruct (session_slot _ _ _ _ Hi Hs) as (_ & slot & Hp & Hact).
  rewrite lookup_tunnels, Hp. split.
  { simpl. unfold tunnel_of, slot_owner, slot_generation. by rewrite Hact, Hg. }
  unfold session_lost. rewrite Hs, <-Hg, Hh, decide_False by naive_solver.
  apply map_eq. intros q. unfold tunnels. simpl. rewrite lookup_fmap, lookup_alter, lookup_insert.
  case_decide; subst; [by rewrite Hp|]. by rewrite lookup_fmap.
Qed.

Lemma accepts_tunnels env at_ socket s r r' :
  accepts timing env at_ socket s r r' →
  tunnels r' = tunnels r ∨
  tunnels r' = tunnels (session_lost timing env (s_session_id s) (s_generation s) r).
Proof.
  intros [sem sem' _ _ _|sem sem' G' _ _ _|sem sem' G' _ _ _|sem sem' G' rid _ _ _ _ _];
    [by left..| |by left].
  right. by rewrite abandoned_lost.
Qed.

(** The ports a sweep releases. *)
Definition gone (t : Instant) r : list Z :=
  List.filter
    (λ p, match ports r !! p with Some slot => expired t slot | None => false end)
    (sorted_keys (ports r)).

Lemma elem_of_gone t r p :
  p ∈ gone t r ↔ ∃ slot, ports r !! p = Some slot ∧ expired t slot = true.
Proof.
  unfold gone. rewrite list_elem_of_In, filter_In, <-list_elem_of_In, elem_of_sorted_keys.
  destruct (ports r !! p); naive_solver.
Qed.

Lemma gone_NoDup t r : NoDup (gone t r).
Proof. apply NoDup_ListNoDup, List.NoDup_filter, NoDup_ListNoDup, sorted_keys_NoDup. Qed.

Lemma foldl_release_eq l r :
  foldl (λ r p, release_port p r) r l =
  set_cancelled (cancelled (foldl (λ r p, release_port p r) r l))
    (set_ports (ports (foldl (λ r p, release_port p r) r l)) r).
Proof.
  revert r. induction l as [|q l IH]; intros r; simpl; [by destruct r|].
  rewrite IH at 1. unfold release_port. by destruct (ports r !! q).
Qed.

Lemma foldl_release_ports l r p :
  ports (foldl (λ r p, release_port p r) r l) !! p =
    if decide (p ∈ l) then None else ports r !! p.
Proof.
  revert r. induction l as [|q l IH]; intros r; simpl; [done|].
  rewrite IH, release_port_lookup.
  destruct (decide (p = q)) as [->|Hne]; repeat case_decide; set_solver.
Qed.

Lemma foldl_release_cancelled l r tok :
  NoDup l →
  tok ∈ cancelled (foldl (λ r p, release_port p r) r l) ↔
    tok ∈ cancelled r ∨
    ∃ p slot, p ∈ l ∧ ports r !! p = Some slot ∧ tok = listener_cancel slot.
Proof.
  revert r. induction l as [|q l IH]; intros r; simpl; [set_solver|].
  intros [Hq Hl]%NoDup_cons. rewrite IH by done. setoid_rewrite release_port_lookup.
  unfold release_port. destruct (ports r !! q) as [b|] eqn:Hb; simpl.
  - rewrite elem_of_union, elem_of_singleton. split.
    + intros [[->|?]|(p & slot & Hp & Hs & ->)]; [|by left|].
      * right. exists q, b. set_solver.
      * right. exists p, slot. case_decide; [done|]. set_solver.
    + intros [?|(p & slot & [->|Hp]%elem_of_cons & Hs & ->)]; [auto|left; left; congruence|].
      right. exists p, slot. rewrite decide_False by (by intros ->). done.
  - split; (intros [?|(p & slot & Hp & Hs & ->)]; [by left|right; exists p, slot]).
    + case_decide; [done|]. set_solver.
    + apply elem_of_cons in Hp as [->|Hp]; [congruence|].
      rewrite decide_False by (by intros ->). done.
Qed.

Lemma sweep_foldl t r :
  sweep t r = foldl (λ r p, release_port p r)
    (set_pending (filter (λ kv, t < p_deadline kv.2) (pending r)) r) (gone t r).
Proof. done. Qed.

Lemma sweep_eq t r :
  sweep t r =
  set_cancelled (cancelled (sweep t r)) (set_ports (ports (sweep t r))
    (set_pending (filter (λ kv, t < p_deadline kv.2) (pending r)) r)).
Proof. unfold sweep at 1. by rewrite foldl_release_eq. Qed.

Lemma sweep_lookup t r p :
  ports (sweep t r) !! p =
    match ports r !! p with
    | Some slot => if expired t slot then None else Some slot
    | None => None
    end.
Proof.
  rewrite sweep_foldl, foldl_release_ports. case_decide as Hin; rewrite elem_of_gone in Hin; simpl.
  - destruct Hin as (slot & -> & ->). done.
  - destruct (ports r !! p) as [slot|]; [|done]. destruct (expired t slot) eqn:E; naive_solver.
Qed.

Lemma sweep_cancelled t r tok :
  tok ∈ cancelled (sweep t r) ↔
    tok ∈ cancelled r ∨
    ∃ p slot, ports r !! p = Some slot ∧ expired t slot = true ∧ tok = listener_cancel slot.
Proof.
  rewrite sweep_foldl, foldl_release_cancelled by apply gone_NoDup.
  setoid_rewrite elem_of_gone. simpl. naive_solver.
Qed.

Lemma sweep_tunnels t r :
  tunnels (sweep t r) = filter (λ kv, unexpired t kv.2) (tunnels r).
Proof.
  apply map_eq. intros p. rewrite lookup_tunnels, sweep_lookup.
  apply option_eq. intros x. rewrite map_lookup_filter_Some, lookup_tunnels. simpl.
  destruct (ports r !! p) as [slot|]; simpl; [|naive_solver].
  unfold expired, unexpired. split.
  - intros H. destruct (slot_state slot) as [s|i g u] eqn:E; simpl in H.
    + injection H as <-. split; [done|]. unfold tunnel_of. by rewrite E.
    + case_bool_decide; [done|]. injection H as <-. split; [done|].
      unfold tunnel_of. rewrite E. simpl. lia.
  - intros [[= <-] H]. destruct (slot_state slot) as [s|i g u] eqn:E; [done|].
    unfold tunnel_of in H. rewrite E in H. simpl in H. by rewrite bool_decide_false by lia.
Qed.

Lemma command_refines `{!SemaphoreLaws Sem} env c reply stop r r' :
  wf_server_config config → invariant config r → admissible c r →
  handle_command config timing env c r = Returns (reply, stop, r') →
  tunnels r' = tunnels r ∨ spec_explains (EvCommand env c) r r'.
Proof.
  intros Hwf Hi Had H. destruct c as [req|lid p socket at_|sid rid socket|sid rid|sid rid why
                                     |sid g|sid g|sid rid|]; simpl in H.
  - apply outcome_bind_Returns in H as ([[reg|code] r1] & H & [= _ _ <-]).
    + right. by eapply register_explains.
    + left. by apply register_Err in H as ->.
  - apply outcome_bind_Returns in H as (r1 & H & [= _ _ <-]).
    apply accepted_public_spec in H as [->|(slot & s & Hp & _ & Hact & H)]; [by left|].
    apply accepts_tunnels in H as [Ht|Ht]; [by left|right].
    destruct (own_slot _ _ _ _ _ (inv_owned _ _ Hi) _ _ _ Hp Hact) as [<- HT].
    destruct (lost_tunnels env _ _ _ _ Hi HT eq_refl) as [Hl Hr].
    exists (Lose (s_port s) (now env + reservation timing)). split; [done|].
    rewrite Ht, Hr. by constructor.
  - left. destruct (claim_cases env sid rid socket r)
      as [E|(s & e & _ & _ & _ & _ & E)]; rewrite E in H; [by injection H as _ _ <-|].
    by destruct (receiver_open env (p_sender e)); injection H as _ _ <-.
  - left. by injection H as _ _ <-.
  - left. by injection H as _ _ <-.
  - injection H as _ _ <-. destruct (session_lost_cases timing env sid g r)
      as [E|(s & Hs & Hg & _)]; [left; by rewrite E|right].
    destruct (lost_tunnels env _ _ _ _ Hi Hs Hg) as [Hl Hr].
    exists (Lose (s_port s) (now env + reservation timing)). split; [simpl; eauto|].
    rewrite Hr. by constructor.
  - injection H as _ _ <-. destruct (goodbye_cases sid g r) as [->|(s & Hs & Hg & E)];
      [by left|right].
    destruct (lost_tunnels env _ _ _ _ Hi Hs Hg) as [Hl _].
    destruct (session_slot _ _ _ _ Hi Hs) as (_ & slot & Hp & _).
    exists (Leave (s_port s)). split; [simpl; eauto|].
    rewrite E. rewrite <-Hg, (session_holds _ _ _ _ Hi Hs), Hp.
    unfold tunnels. simpl. rewrite fmap_delete. by econstructor.
  - left. by injection H as _ _ <-.
  - injection H as _ _ <-. right. exists CloseAll. split; [done|].
    rewrite shutdown_all_eq. unfold tunnels. simpl. rewrite fmap_empty. constructor.
Qed.

Lemma fires_refines `{!SemaphoreLaws Sem} e r r' :
  wf_server_config config → invariant config r → fires config timing e r r' →
  tunnels r' = tunnels r ∨ spec_explains e r r'.
Proof.
  intros Hwf Hi H. destruct H as [r env c reply stop r' Had H|r t|r id|r ws|r t].
  - by eapply command_refines.
  - right. exists (Expire t). split; [done|]. rewrite sweep_tunnels. constructor.
  - left. unfold finish_task. by destruct (tasks r !! id).
  - by left.
  - by left.
Qed.

(** An event that leaves alone the port kept for an instance: no registration of
    the instance itself that names the port or asks for any, no fresh
    registration of another that names it, no sweep at its time or later, no
    shutdown. *)
Definition spares (inst : InstanceId) (p : Z) (until : Instant) (e : Event) : Prop :=
  match e with
  | EvCommand _ (CRegister req) =>
      (rq_instance_id req = inst → rq_requested_port req ≠ 0 ∧ rq_requested_port req ≠ p) ∧
      (rq_mode req = Fresh → rq_requested_port req ≠ p)
  | EvCommand _ CShutdown => False
  | EvSweep t => t < until
  | _ => True
  end.

Lemma explains_spares e r d inst p until :
  explains e r d → spares inst p until e → ¬ ends_keeping d inst p until.
Proof.
  unfold explains, spares, ends_keeping.
  destruct e as [env []| | | |], d as [i [] q' q g| | | |]; try done; try naive_solver lia.
Qed.

Lemma fires_kept `{!SemaphoreLaws Sem} e r r' p slot inst g until :
  wf_server_config config → invariant config r → fires config timing e r r' →
  ports r !! p = Some slot → slot_state slot = Reserved inst g until →
  spares inst p until e →
  ∃ slot', ports r' !! p = Some slot' ∧ slot_state slot' = Reserved inst g until.
Proof.
  intros Hwf Hi Hf Hp Hst Hsp.
  assert (tunnels r !! p = Some (mkTunnel inst g (Some until))) as Ht.
  { rewrite lookup_tunnels, Hp. simpl. unfold tunnel_of, slot_owner, slot_generation.
    by rewrite Hst. }
  assert (tunnels r' !! p = Some (mkTunnel inst g (Some until))) as Ht'.
  { destruct (fires_refines _ _ _ Hwf Hi Hf) as [->|(d & Hd & Hs)]; [done|].
    eapply spec_kept; [done|done|done|]. by eapply explains_spares. }
  rewrite lookup_tunnels in Ht'. apply fmap_Some in Ht' as (slot' & Hp' & Heq).
  exists slot'. split; [done|]. unfold tunnel_of, slot_owner, slot_generation in Heq.
  by destruct (slot_state slot'); simplify_eq/=.
Qed.

Lemma fires_all_kept `{!SemaphoreLaws Sem} l r r' p slot inst g until :
  wf_server_config config → invariant config r → fires_all config timing l r r' →
  ports r !! p = Some slot → slot_state slot = Reserved inst g until →
  Forall (spares inst p until) l →
  ∃ slot', ports r' !! p = Some slot' ∧ slot_state slot' = Reserved inst g until.
Proof.
  intros Hwf Hi Hf. revert slot Hi.
  induction Hf as [r|e l r1 r2 r3 He _ IH]; intros slot Hi Hp Hst Hl; [eauto|].
  apply Forall_cons in Hl as [Hsp Hl].
  destruct (fires_kept _ _ _ _ _ _ _ _ Hwf Hi He Hp Hst Hsp) as (slot2 & Hp2 & Hst2).
  eapply IH; [|done..]. by eapply fires_invariant.
Qed.

(** A resuming owner gets its port, whatever the system would answer to a
    bind. *)
Lemma resume_own_port env req r slot :
  ports r !! rq_requested_port req = Some slot → slot_owner slot = rq_instance_id req →
  rq_mode req = Resume → rq_requested_port req ≠ port (listen config) →
  next_generation r + 1 < 2 ^ 64 →
  register config timing env req r =
    Returns (Ok (mkRegistration (rq_requested_port req) (sc_max_connections config)
                   (next_generation r)),
             installed config timing req (rq_requested_port req) slot r).
Proof.
  intros Hp Ho Hm Hlp Hg. unfold register. rewrite decide_False by tauto.
  unfold choose_port. rewrite Hm, Hp, decide_False by naive_solver.
  rewrite (install_spec _ _ _ _ _ _ _ Hp), decide_True by done. done.
Qed.
End refinement.
