(* ===== verification/RegistryReplay.v ===== *)
(** * Replaying events

    [replay] runs a list of events from a state.  What it reaches is reachable,
    which turns concrete runs of the registry into proofs by computation. *)

From S2P Require Import Prelude Errors Protocol Runtime Timing Net Config.
From S2P Require Import Registry RegistryOps RegistryInv.

Local Open Scope Z_scope.

Section replay.
Context {Sem Chan : Type} `{!Semaphore Sem, !Channel Outbound Chan}.
Context (config : ServerConfig) (timing : Timing).
Implicit Types (r : Registry Sem Chan) (env : Env).

#[export] Instance admissible_dec c r : Decision (admissible c r).
Proof. unfold admissible. destruct c; apply _. Defined.

Definition exec (e : Event) r : option (Registry Sem Chan) :=
  match e with
  | EvCommand env c =>
      if decide (admissible c r) then
        match handle_command config timing env c r with
        | Returns (_, _, r') => Some r'
        | Panics | Spins => None
        end
      else None
  | EvSweep t => Some (sweep t r)
  | EvFinish id => Some (finish_task id r)
  | EvWriters => Some r
  | EvCancel t => Some (cancel t r)
  end.

Fixpoint replay (l : list Event) r : option (Registry Sem Chan) :=
  match l with
  | [] => Some r
  | e :: l => exec e r ≫= replay l
  end.

Lemma exec_fires e r r' : exec e r = Some r' → fires config timing e r r'.
Proof.
  destruct e; simpl; intros H; simplify_eq; try constructor.
  - case_decide; [|done].
    destruct (handle_command _ _ _ _ _) as [[[reply stop] r1]| |] eqn:E; simplify_eq.
    by econstructor.
  - replace (fires config timing EvWriters r' r')
      with (fires config timing EvWriters r' (set_writers (writers r') r')).
    + constructor.
    + by rewrite set_writers_id.
Qed.

Lemma replay_fires_all l r r' : replay l r = Some r' → fires_all config timing l r r'.
Proof.
  revert r. induction l as [|e l IH]; intros r; simpl; [intros [= ->]; constructor|].
  intros (r1 & H & ?)%bind_Some. econstructor; [by apply exec_fires|auto].
Qed.

Lemma fires_all_rtc l r r' : fires_all config timing l r r' → rtc (step config timing) r r'.
Proof. induction 1; [done|]. eapply rtc_l; [by eexists|done]. Qed.

Lemma replay_reachable l ws r : replay l (new ws) = Some r → reachable config timing r.
Proof. intros H. exists ws. by eapply fires_all_rtc, replay_fires_all. Qed.
End replay.
