(* ===== verification/RegistryDemo.v ===== *)
(** * A small server

    A server with one connection per tunnel, two instances and a handful of
    events.  The witnesses of the registry's properties are states of its runs. *)

From Stdlib Require Import Strings.Byte.
From S2P Require Import Prelude Errors Protocol Runtime Timing Net Config.
From S2P Require Import Registry RegistryOps RegistryInv RegistryReplay.

Local Open Scope Z_scope.

Definition demo_config : ServerConfig := {|
  sc_key := "secret";
  listen := mkSocketAddr (V4 0 0 0 0) 7000;
  data_bind := V4 0 0 0 0;
  allowed_ports := (20000, 20002);
  sc_max_connections := 1;
  sc_log_level := LevelInfo;
  sc_quiet := false
|}.

Lemma demo_config_wf : wf_server_config demo_config.
Proof. unfold wf_server_config. simpl. lia. Qed.

(** The clock at a time, every bind free, draws that count up from a byte. *)
Definition demo_env (t : Instant) (first : N) : Env := {|
  now := t;
  bind_listener := λ _, None;
  random_id := λ i, Some (replicate 16 (byte_of_Z (Z.of_N first + Z.of_nat i)));
  draws := 3;
  receiver_open := λ id, Nat.eqb id 0
|}.

Definition demo_session (b : byte) : SessionId := replicate 16 b.
Definition instance_a : InstanceId := replicate 16 x0a.
Definition instance_b : InstanceId := replicate 16 x0b.

Definition demo_request (b : byte) (inst : InstanceId) (m : Mode) (p : Z) (n : nat) :
    RegisterRequest := {|
  rq_session_id := demo_session b;
  rq_instance_id := inst;
  rq_mode := m;
  rq_requested_port := p;
  rq_writer := n;
  rq_data_cancel := SessionToken (2 * n);
  rq_control_cancel := SessionToken (2 * n + 1)
|}.

Definition DemoRegistry : Type := Registry nat (queue Outbound).

Definition demo_writers : gmap WriterId (queue Outbound) :=
  {[ 0%nat := mkQueue [] 8 false; 1%nat := mkQueue [] 8 false; 2%nat := mkQueue [] 0 false ]}.

Definition demo_new : DemoRegistry := new demo_writers.

Definition demo_run (l : list Event) : DemoRegistry :=
  default demo_new (replay demo_config Timing_default l demo_new).

(** Instance A registers on an automatic port, a public connection comes in,
    its data connection claims it; A's control connection is lost. *)
Definition ev_register_a : Event :=
  EvCommand (demo_env 0 0) (CRegister (demo_request x01 instance_a Fresh 0 0)).
Definition ev_accept : Event :=
  EvCommand (demo_env 10 5) (CAcceptedPublic 1 20000 77 10).
Definition ev_claim : Event :=
  EvCommand (demo_env 20 0) (CClaimData (demo_session x01) (replicate 16 x05) 88).
Definition ev_lost : Event :=
  EvCommand (demo_env 30 0) (CSessionLost (demo_session x01) 1).

(** Instance B takes the port over; or registers elsewhere, or with a queue
    that has no room. *)
Definition ev_take_b : Event :=
  EvCommand (demo_env 40 0) (CRegister (demo_request x02 instance_b Fresh 20000 1)).
Definition ev_register_b : Event :=
  EvCommand (demo_env 50 0) (CRegister (demo_request x02 instance_b Fresh 0 1)).
Definition ev_register_full : Event :=
  EvCommand (demo_env 0 0) (CRegister (demo_request x03 instance_b Fresh 0 2)).

Definition demo_registered : DemoRegistry := demo_run [ev_register_a].
Definition demo_waiting : DemoRegistry := demo_run [ev_register_a; ev_accept].
Definition demo_claimed : DemoRegistry := demo_run [ev_register_a; ev_accept; ev_claim].
Definition demo_kept : DemoRegistry := demo_run [ev_register_a; ev_lost].
Definition demo_taken : DemoRegistry := demo_run [ev_register_a; ev_take_b].
Definition demo_full : DemoRegistry := demo_run [ev_register_full].

(** A run that was replayed is a run of the transition system. *)
Lemma demo_reachable l r :
  replay demo_config Timing_default l demo_new = Some r →
  reachable demo_config Timing_default (demo_run l).
Proof. intros H. unfold demo_run. rewrite H. by eapply replay_reachable. Qed.

Ltac demo_reach := eapply demo_reachable; vm_compute; reflexivity.

Lemma demo_registered_reachable : reachable demo_config Timing_default demo_registered.
Proof. demo_reach. Qed.
Lemma demo_waiting_reachable : reachable demo_config Timing_default demo_waiting.
Proof. demo_reach. Qed.
Lemma demo_claimed_reachable : reachable demo_config Timing_default demo_claimed.
Proof. demo_reach. Qed.
Lemma demo_kept_reachable : reachable demo_config Timing_default demo_kept.
Proof. demo_reach. Qed.
Lemma demo_taken_reachable : reachable demo_config Timing_default demo_taken.
Proof. demo_reach. Qed.
Lemma demo_full_reachable : reachable demo_config Timing_default demo_full.
Proof. demo_reach. Qed.

(** The whole way of a public connection: the task has its data connection. *)
Lemma demo_claimed_task :
  tasks demo_claimed !! 0%nat =
    Some (mkTask (demo_session x01) (replicate 16 x05) 1 (10 + request_wait Timing_default)
            (SessionToken 0) 77 (Some 88%nat)).
Proof. vm_compute. reflexivity. Qed.
