(* ===== verification/RegistryProps.v ===== *)
(** * What the registry guarantees *)

From Stdlib Require Import Strings.Byte.
From S2P Require Import Prelude Errors Protocol Runtime Timing Net Config.
From S2P Require Import Registry RegistryOps RegistryInv RegistrySafe RegistrySpec.
From S2P Require Import RegistryReplay RegistryDemo.

Local Open Scope Z_scope.

Section props.
Context {Sem Chan : Type} `{!Semaphore Sem, !Channel Outbound Chan}.
Context `{!SemaphoreLaws Sem, !ChannelLaws Outbound Chan}.
Context (config : ServerConfig) (timing : Timing).
Implicit Types (r : Registry Sem Chan) (env : Env).

Local Abbreviation reach := (reachable config timing).

(** (C3) Every state the registry can reach satisfies its invariant: sessions
    and live slots correspond one to one, every pending request belongs to a
    live session and carries its generation, generations are unique and below
    the counter, public ports are between 1024 and 65535, differ from the
    control port and number at most [MAX_SLOTS]; every permit is available or
    held by exactly one forwarding task; every pending request is the channel
    of one task that has received nothing. *)
Theorem registry_invariant r :
  wf_server_config config → reach r → invariant config r.
Proof. apply invariant_of_reachable. Qed.

(** (C12) The connection limits hold in every reachable state: the forwarding
    tasks that hold a permit of one registration are at most
    [max_connections], all forwarding tasks are at most
    [MAX_GLOBAL_CONNECTIONS], and no permit is lost: a live session and the
    server have exactly the permits left that no task holds. *)
Theorem connection_limits r :
  wf_server_config config → reach r →
  (∀ id t, tasks r !! id = Some t →
     (holders (t_permit t) (tasks r) ≤ Z.to_nat (sc_max_connections config))%nat) ∧
  (size (tasks r) ≤ MAX_GLOBAL_CONNECTIONS)%nat ∧
  (available (global_connections r) = MAX_GLOBAL_CONNECTIONS - size (tasks r))%nat ∧
  (∀ sid s, sessions r !! sid = Some s →
     ∃ sem, permits r !! s_generation s = Some sem ∧
       available sem =
         (Z.to_nat (sc_max_connections config) - holders (s_generation s) (tasks r))%nat).
Proof.
  intros Hwf Hr. destruct (invariant_of_reachable _ _ _ Hwf Hr) as [Ho Ha _].
  split_and!.
  - intros id t Ht. destruct (acc_task _ _ _ _ _ _ _ Ha _ _ Ht) as [sem Hs].
    apply (acc_permits _ _ _ _ _ _ _ Ha) in Hs. lia.
  - pose proof (acc_global _ _ _ _ _ _ _ Ha). lia.
  - pose proof (acc_global _ _ _ _ _ _ _ Ha). lia.
  - intros sid s Hs. destruct (own_session _ _ _ _ _ Ho _ _ Hs) as (_ & slot & Hp & Hact).
    destruct (acc_active _ _ _ _ _ _ _ Ha _ _ _ Hp Hact) as [sem Hsem].
    exists sem. split; [done|]. apply (acc_permits _ _ _ _ _ _ _ Ha) in Hsem. lia.
Qed.

(** (C6) The registry implements the specification of public ports: every
    event leaves the tunnels as they are, or does to them exactly one deed of
    the specification, the one the event stands for. *)
Theorem registry_refines_tunnels e r r' :
  wf_server_config config → reach r → fires config timing e r r' →
  tunnels r' = tunnels r ∨ spec_explains config timing e r r'.
Proof. intros Hwf Hr. apply (fires_refines config timing e r r' Hwf). by eapply invariant_of_reachable. Qed.

(** (C4) Only a fresh registration that names the port takes a tunnel from the
    instance that holds it: no automatic allocation, no resume, no
    connection, expiry or lost connection ever hands a held port over. *)
Theorem takeover_only_by_request e r r' p slot slot' :
  wf_server_config config → reach r → fires config timing e r r' →
  ports r !! p = Some slot → ports r' !! p = Some slot' →
  slot_owner slot' ≠ slot_owner slot →
  ∃ env req, e = EvCommand env (CRegister req) ∧ rq_mode req = Fresh ∧
    rq_requested_port req = p ∧ rq_instance_id req = slot_owner slot'.
Proof.
  intros Hwf Hr Hf Hp Hp' Hne.
  assert (tunnels r !! p = Some (tunnel_of slot)) as Ht by (by rewrite lookup_tunnels, Hp).
  assert (tunnels r' !! p = Some (tunnel_of slot')) as Ht' by (by rewrite lookup_tunnels, Hp').
  pose proof (invariant_of_reachable _ _ _ Hwf Hr) as Hi.
  destruct (fires_refines _ _ _ _ _ Hwf Hi Hf) as [E|(d & Hd & Hs)].
  - rewrite E, Ht in Ht'. injection Ht' as E' _ _. by destruct Hne.
  - destruct (spec_takeover _ _ _ _ _ _ _ Hs Ht Ht' Hne) as (g & _ & ->).
    destruct e as [env []| | | |]; try done. destruct Hd as (Hi' & Hm & Hq & _).
    eexists env, _. done.
Qed.

(** (C14) A reservation is honoured: once a port is kept for an instance until
    [until], the instance that resumes gets its port back, without a new bind,
    whatever happened in between, unless it was one of the events that end a
    reservation: a fresh registration that names the port (a takeover), a
    registration of the instance itself that names the port or leaves the
    choice to the server (it gets its port then), a sweep at [until] or later,
    shutdown.  Every other registration, claim, public connection, lost
    session, goodbye, sweep and finished task leaves the reservation alone. *)
Theorem reservation_honoured l r r' p slot inst g until env req :
  wf_server_config config → reach r → fires_all config timing l r r' →
  ports r !! p = Some slot → slot_state slot = Reserved inst g until →
  Forall (spares inst p until) l →
  rq_mode req = Resume → rq_requested_port req = p → rq_instance_id req = inst →
  next_generation r' + 1 < 2 ^ 64 →
  ∃ reg r'', register config timing env req r' = Returns (Ok reg, r'') ∧
    rg_assigned_port reg = p ∧
    holds (tunnels r'') inst p.
Proof.
  intros Hwf Hr Hf Hp Hst Hsp Hm Hq Hinst Hg.
  pose proof (invariant_of_reachable _ _ _ Hwf Hr) as Hi.
  destruct (fires_all_kept _ _ _ _ _ _ _ _ _ _ Hwf Hi Hf Hp Hst Hsp) as (slot' & Hp' & Hst').
  pose proof (fires_all_invariant _ _ _ _ _ Hwf Hi Hf) as Hi'.
  destruct (own_ports _ _ _ _ _ (inv_owned _ _ Hi') p) as [_ Hlp]; [eauto|].
  subst p inst. eexists _, _. split; [|split].
  - apply resume_own_port; try done. unfold slot_owner. by rewrite Hst'.
  - done.
  - rewrite holds_owns. eexists. simpl. rewrite lookup_insert_eq. done.
Qed.

(** (C23) A registration always comes to an end, and it is all or nothing: as
    long as the generation counter can be incremented [register] returns;
    when it refuses, the registry is unchanged; when it accepts, the new
    session is installed under the next generation and its slot is live. *)
Theorem register_total env req r :
  next_generation r + 1 < 2 ^ 64 →
  ∃ res r', register config timing env req r = Returns (res, r') ∧
    match res with
    | Err _ => r' = r
    | Ok reg =>
        let p := rg_assigned_port reg in
        let s := new_session req p (next_generation r) in
        rg_generation reg = next_generation r ∧
        rg_max_connections reg = sc_max_connections config ∧
        (rq_requested_port req ≠ 0 → p = rq_requested_port req) ∧
        sessions r' !! rq_session_id req = Some s ∧
        (∃ slot, ports r' !! p = Some slot ∧ slot_state slot = Active s) ∧
        next_generation r' = next_generation r + 1
    end.
Proof.
  intros Hg. destruct (register_spec config timing env req r)
    as [[code E]|(p & r1 & slot & Hc & _ & Hs & E)]; rewrite E; [by eexists _, _|].
  rewrite decide_True by done. eexists _, _. split; [done|]. simpl.
  apply choose_port_spec in Hc as (Hch & Hreq & _).
  rewrite (chosen_generation _ _ _ _ _ _ Hch), !lookup_insert_eq.
  split_and!; try done. eexists. done.
Qed.

(** (C24) An automatic registration gets the lowest port its instance already
    holds; an instance that holds none gets the lowest port of the allowed
    range that is not the control port, has no slot and can be bound, where
    every lower port is the control port, has a slot, or cannot be bound
    because it is in use or the user may not.  It is refused with SERVER_BUSY
    only when all slots are in use, with NO_PORT_AVAILABLE only when every port
    of the range is passed over for one of those reasons, and with
    INTERNAL_ERROR only when the first port that is not passed over fails to
    bind for another reason. *)
Theorem automatic_port env req r res r' :
  rq_mode req = Fresh → rq_requested_port req = 0 →
  register config timing env req r = Returns (res, r') →
  match res with
  | Ok reg =>
      let p := rg_assigned_port reg in
      lowest_owned (rq_instance_id req) r p ∨
      ((∀ q, ¬ owns (rq_instance_id req) r q) ∧ lowest_free config env r p)
  | Err code =>
      (∀ q, ¬ owns (rq_instance_id req) r q) ∧
      ((code = ServerBusy ∧ (MAX_SLOTS ≤ size (ports r))%nat) ∨
       (code = NoPortAvailable ∧
        ∀ q, (allowed_ports config).1 <= q <= (allowed_ports config).2 →
          skipped config env q r) ∨
       (code = InternalError ∧ scan_failed config env r))
  end.
Proof.
  intros Hm H0 H. destruct res as [reg|code].
  - apply register_Ok in H as (p & r1 & slot & Hc & _ & _ & _ & _ & -> & _).
    apply choose_port_spec in Hc as (_ & _ & Hauto & _). specialize (Hauto Hm H0).
    apply allocate_automatic_spec in Hauto. simpl.
    destruct Hauto as [[_ ?]|(? & _ & ? & _)]; auto.
  - unfold register in H. rewrite decide_False in H by naive_solver.
    destruct (choose_port _ _ _ _ _) as [[p|c] r1] eqn:Hc.
    { apply outcome_bind_Returns in H as ([? ?] & _ & ?). simplify_eq. }
    simplify_eq. unfold choose_port in Hc. rewrite Hm, H0 in Hc.
    apply allocate_automatic_spec in Hc. naive_solver.
Qed.

(** What a queue holds after a message was offered to it: the message is there
    if the queue was open and had room. *)
Lemma queue_send_one (ws : gmap WriterId Chan) w c m :
  ws !! w = Some c →
  ∃ c', queue_send ws w m !! w = Some c' ∧ chan_closed c' = chan_closed c ∧
    chan_capacity c' = chan_capacity c ∧
    chan_queue c' = chan_queue c ++
      (if chan_closed c then [] else take (chan_capacity c - length (chan_queue c)) [m]).
Proof.
  intros Hw. unfold queue_send. rewrite Hw. simpl.
  destruct (try_send c m) as [c'|] eqn:E.
  - assert (chan_closed c = false ∧ (length (chan_queue c) < chan_capacity c)%nat) as [Hc Hl].
    { destruct (decide (chan_closed c = true ∨ (chan_capacity c ≤ length (chan_queue c))%nat))
        as [Hd|Hd]; [|destruct (chan_closed c); [tauto|split; [done|lia]]].
      apply try_send_None with (a := m) in Hd. congruence. }
    apply try_send_Some in E as (Q & K & C). exists c'. rewrite lookup_insert_eq, Q, K, C, Hc.
    split_and!; try done. f_equal.
    by destruct (chan_capacity c - length (chan_queue c))%nat eqn:El; [lia|destruct n].
  - apply try_send_None in E. exists c. split_and!; try done.
    destruct (chan_closed c) eqn:Ec; [by rewrite app_nil_r|].
    destruct E as [E|E]; [done|].
    replace (chan_capacity c - length (chan_queue c))%nat with 0%nat by lia.
    by rewrite app_nil_r.
Qed.

(** What becomes of the writer of a displaced session. *)
Lemma queue_send_two (ws : gmap WriterId Chan) w c a b :
  ws !! w = Some c →
  ∃ c', queue_send (queue_send ws w a) w b !! w = Some c' ∧
    chan_closed c' = chan_closed c ∧
    chan_queue c' = chan_queue c ++
      (if chan_closed c then [] else take (chan_capacity c - length (chan_queue c)) [a; b]).
Proof.
  intros Hw. destruct (queue_send_one ws w c a Hw) as (c1 & Hw1 & C1 & K1 & Q1).
  destruct (queue_send_one _ w c1 b Hw1) as (c2 & Hw2 & C2 & _ & Q2).
  exists c2. split; [done|]. split; [congruence|].
  rewrite Q2, K1, C1, Q1, <-app_assoc. f_equal.
  destruct (chan_closed c); [done|].
  rewrite length_app.
  destruct (chan_capacity c - length (chan_queue c))%nat as [|[|n]] eqn:El; cbn [take length].
  - by replace (chan_capacity c - (length (chan_queue c) + 0))%nat with 0%nat by lia.
  - by replace (chan_capacity c - (length (chan_queue c) + 1))%nat with 0%nat by lia.
  - rewrite !take_nil. cbn [length].
    replace (chan_capacity c - (length (chan_queue c) + 1))%nat with (S n) by lia.
    cbn [take app]. by rewrite !take_nil.
Qed.

Lemma queue_send_other (ws : gmap WriterId Chan) w w' m :
  w' ≠ w → queue_send ws w m !! w' = ws !! w'.
Proof.
  intros Hne. unfold queue_send. destruct (ws !! w ≫= _); [|done]. by rewrite lookup_insert_ne.
Qed.

(** (C15) A takeover displaces the previous session completely and does nothing
    else: the new session is installed in the slot, whose listener stays; the
    previous session and its pending requests are gone, and its data token is
    the one token cancelled; its control connection is offered REPLACED and
    then the order to close (each is queued if the queue is open and has room
    for it), and its cancellation is due after the flush time; the new
    generation gets its permits.  No other session, request, slot, queue,
    permit or task is touched. *)
Theorem takeover_effect env req r reg r' slot q :
  wf_server_config config → reach r → admissible (CRegister req) r →
  register config timing env req r = Returns (Ok reg, r') →
  ports r !! rg_assigned_port reg = Some slot → slot_state slot = Active q →
  let p := rg_assigned_port reg in
  let s := new_session req p (next_generation r) in
  ports r' = <[p := mkPortSlot (listener_id slot) (listener_cancel slot) (Active s)]> (ports r) ∧
  rq_session_id req ≠ s_session_id q ∧
  sessions r' = <[rq_session_id req := s]> (delete (s_session_id q) (sessions r)) ∧
  (∀ sid rid, pending r' !! (sid, rid) =
     if decide (sid = s_session_id q) then None else pending r !! (sid, rid)) ∧
  cancelled r' = {[s_data_cancel q]} ∪ cancelled r ∧
  delayed_cancels r' = delayed_cancels r ++ [(takeover_flush timing, s_control_cancel q)] ∧
  (∀ c, writers r !! s_writer q = Some c →
     ∃ c', writers r' !! s_writer q = Some c' ∧ chan_closed c' = chan_closed c ∧
       chan_queue c' = chan_queue c ++
         (if chan_closed c then []
          else take (chan_capacity c - length (chan_queue c))
                 [out_error Replaced; CloseAfterFlush])) ∧
  (∀ w, w ≠ s_writer q → writers r' !! w = writers r !! w) ∧
  permits r' = <[next_generation r := sem_new (Z.to_nat (sc_max_connections config))]>
    (permits r) ∧
  next_generation r' = next_generation r + 1 ∧ next_listener_id r' = next_listener_id r ∧
  global_connections r' = global_connections r ∧
  tasks r' = tasks r ∧ next_task r' = next_task r.
Proof.
  intros Hwf Hr (Hfresh & _) H Hp Hact. cbv zeta.
  pose proof (invariant_of_reachable _ _ _ Hwf Hr) as Hi.
  destruct (own_slot _ _ _ _ _ (inv_owned _ _ Hi) _ _ _ Hp Hact) as [_ HT].
  apply register_Ok in H as (p & r1 & slot1 & _ & Hch & _ & Hs1 & -> & -> & _). simpl in Hp |- *.
  destruct Hch as [[-> _]|(_ & HN & _)]; [|congruence].
  rewrite Hp in Hs1. injection Hs1 as <-.
  assert (active_session slot = Some q) as -> by by apply active_session_Some.
  split_and!; try done.
  - congruence.
  - intros sid rid. rewrite filter_pending_lookup. by repeat case_decide.
  - intros c Hw. by apply queue_send_two.
  - intros w Hne. simpl. by rewrite !queue_send_other.
Qed.

(** The environment answers truthfully whether the task behind a channel still
    listens: only a task that runs can. *)
Definition truthful env r : Prop :=
  ∀ id, receiver_open env id = true → is_Some (tasks r !! id).

(** (C5) A data connection is delivered only to the public connection it was
    made for, and at most once: delivery needs a live session, a pending
    request of that very generation whose deadline has not passed, and a task
    that has received nothing; it consumes the request, hands exactly that
    task the socket, and every later claim for the request gets its socket
    back.  A claim that is not delivered gives the socket back and changes no
    task. *)
Theorem claim_at_most_once env sid rid socket r o r' :
  wf_server_config config → reach r → truthful env r →
  claim env sid rid socket r = (o, r') →
  match o with
  | Delivered =>
      ∃ s e t, sessions r !! sid = Some s ∧ pending r !! (sid, rid) = Some e ∧
        p_generation e = s_generation s ∧ now env < p_deadline e ∧
        tasks r !! p_sender e = Some t ∧
        t_session t = sid ∧ t_request t = rid ∧ t_data t = None ∧
        tasks r' = <[p_sender e := mkTask sid rid (t_permit t) (t_deadline t) (t_cancel t)
                       (t_public t) (Some socket)]> (tasks r) ∧
        pending r' = delete (sid, rid) (pending r) ∧
        ∀ env' socket', claim env' sid rid socket' r' =
          (Rejected RequestUnavailable (Some socket'), r')
  | Rejected code back =>
      code = RequestUnavailable ∧ back = Some socket ∧ tasks r' = tasks r ∧
      sessions r' = sessions r ∧ ports r' = ports r ∧ pending r' ⊆ pending r
  end.
Proof.
  intros Hwf Hr Ht H. pose proof (invariant_of_reachable _ _ _ Hwf Hr) as [_ _ Hl].
  destruct (claim_cases env sid rid socket r) as [E|(s & e & Hs & He & Hg & Hd & E)];
    rewrite E in H; [by injection H as <- <-|].
  destruct (receiver_open env (p_sender e)) eqn:Ho; injection H as <- <-.
  - destruct (Ht _ Ho) as [t Htask].
    destruct (lnk_task _ _ _ Hl _ _ _ _ He Htask) as (T1 & T2 & _ & _ & T5).
    exists s, e, t. split_and!; try done.
    + simpl. apply map_eq. intros id. rewrite lookup_alter, lookup_insert.
      case_decide; subst; [by rewrite Htask|done].
    + intros env' socket'. unfold claim. simpl.
      by rewrite Hs, lookup_delete_eq.
  - split_and!; try done. apply delete_subseteq.
Qed.

(** What one event can do to a task that exists: nothing, end it, or deliver a
    socket to a task that has none. *)
Definition delivered_to (t t' : Task) : Prop :=
  t_data t = None ∧ ∃ s, t' = mkTask (t_session t) (t_request t) (t_permit t)
                                (t_deadline t) (t_cancel t) (t_public t) (Some s).

Definition tasks_kept r r' : Prop :=
  (next_task r ≤ next_task r')%nat ∧
  ∀ id t', (id < next_task r)%nat → tasks r' !! id = Some t' →
    ∃ t, tasks r !! id = Some t ∧ (t' = t ∨ delivered_to t t').

Lemma tasks_kept_same r r' :
  tasks r' = tasks r → next_task r' = next_task r → tasks_kept r r'.
Proof. intros E1 E2. unfold tasks_kept. rewrite E1, E2. split; [done|]. eauto. Qed.

Lemma lost_tasks_kept env sid g r : tasks_kept r (session_lost timing env sid g r).
Proof.
  destruct (session_lost_cases timing env sid g r) as [->|(? & _ & _ & ->)];
    by apply tasks_kept_same.
Qed.

Lemma accepted_tasks_kept env lid p socket at_ r r' :
  accepted_public timing env lid p socket at_ r = Returns r' → tasks_kept r r'.
Proof.
  intros [->|(slot & s & _ & _ & _ & H)]%accepted_public_spec; [by apply tasks_kept_same|].
  destruct H as [sem sem' _ _ _|sem sem' G' _ _ _|sem sem' G' _ _ _
                |sem sem' G' rid _ _ _ _ _]; [by apply tasks_kept_same..| |].
  - rewrite abandoned_lost. apply lost_tasks_kept.
  - split; [simpl; lia|]. intros id t' Hid. simpl. rewrite lookup_insert_ne by lia. eauto.
Qed.

Lemma claim_tasks_kept env sid rid socket r :
  invariant config r → tasks_kept r (claim env sid rid socket r).2.
Proof.
  intros Hi. destruct (claim_cases env sid rid socket r) as [->|(s & e & _ & He & _ & _ & ->)];
    [by apply tasks_kept_same|].
  destruct (receiver_open env (p_sender e)); [|by apply tasks_kept_same].
  split; [done|]. intros id t' Hid. simpl. rewrite lookup_alter. case_decide; [|eauto].
  subst id. intros (t & Ht & ->)%fmap_Some. exists t. split; [done|]. right.
  destruct (lnk_task _ _ _ (inv_linked _ _ Hi) _ _ _ _ He Ht) as (_ & _ & _ & _ & ?).
  split; eauto.
Qed.

Lemma fires_task e r r' :
  invariant config r → fires config timing e r r' → tasks_kept r r'.
Proof.
  intros Hi H. destruct H as [r env c reply stop r' Had H|r x|r id|r ws|r x];
    try by apply tasks_kept_same.
  - destruct c as [req|lid p socket at_|sid rid socket|sid rid|sid rid why
                  |sid g|sid g|sid rid|]; simpl in H.
    + apply outcome_bind_Returns in H as ([[reg|code] r1] & H & [= _ _ <-]).
      * apply register_Ok in H as (p & r2 & slot & _ & Hch & _ & _ & -> & _).
        by apply tasks_kept_same; destruct Hch as [[-> _]|(-> & _)].
      * by apply register_Err in H as ->; apply tasks_kept_same.
    + apply outcome_bind_Returns in H as (r1 & H & [= _ _ <-]).
      by eapply accepted_tasks_kept.
    + pose proof (claim_tasks_kept env sid rid socket r Hi) as Hk.
      destruct (claim env sid rid socket r). by injection H as _ _ <-.
    + injection H as _ _ <-. by apply tasks_kept_same.
    + injection H as _ _ <-. by apply tasks_kept_same.
    + injection H as _ _ <-. apply lost_tasks_kept.
    + injection H as _ _ <-. by destruct (goodbye_cases sid g r)
        as [->|(? & _ & _ & ->)]; apply tasks_kept_same.
    + injection H as _ _ <-. by apply tasks_kept_same.
    + injection H as _ _ <-. rewrite shutdown_all_eq. by apply tasks_kept_same.
  - rewrite sweep_eq. by apply tasks_kept_same.
  - unfold finish_task. destruct (tasks r !! id) as [t|] eqn:Ht; [|by apply tasks_kept_same].
    split; [done|]. simpl. intros id' t' _ [_ H]%lookup_delete_Some. eauto.
Qed.

(** A delivery is final: once a forwarding task has a data connection,
    nothing the registry does later replaces it, whatever run follows. *)
Lemma delivered_for_good r r' id t s t' :
  wf_server_config config → reach r → rtc (step config timing) r r' →
  tasks r !! id = Some t → t_data t = Some s →
  tasks r' !! id = Some t' → t' = t.
Proof.
  intros Hwf Hr Hrun Ht Hs Ht'.
  assert (invariant config r) as Hi by by eapply invariant_of_reachable.
  assert (id < next_task r)%nat as Hid by (apply (acc_next _ _ _ _ _ _ _ (inv_accounted _ _ Hi)); eauto).
  assert (∀ u, tasks r !! id = Some u → u = t) as Hu by (intros; congruence).
  clear Ht Hr. revert Hi Hid Hu Ht'.
  induction Hrun as [r|r1 r2 r3 [e He] _ IH]; intros Hi Hid Hu Ht'; [by apply Hu|].
  destruct (fires_task _ _ _ Hi He) as [Hle Htask].
  apply IH; [by eapply fires_invariant|lia| |done].
  intros u Hu2. destruct (Htask _ _ Hid Hu2) as (t0 & Ht0 & [->|(Hn & _)]); [by apply Hu|].
  rewrite (Hu _ Ht0) in Hn. congruence.
Qed.

(** A notice about another session or another generation never disturbs
    the current owner of a port: a late SESSION LOST or GOODBYE of a displaced
    or reconnected session leaves the slot, the session and its pending
    requests alone. *)
Lemma stale_notices_ignored env r p slot s sid g r' :
  wf_server_config config → reach r →
  ports r !! p = Some slot → slot_state slot = Active s →
  sid ≠ s_session_id s ∨ g ≠ s_generation s →
  r' = session_lost timing env sid g r ∨ r' = goodbye sid g r →
  ports r' !! p = Some slot ∧
  sessions r' !! s_session_id s = Some s ∧
  ∀ rid, pending r' !! (s_session_id s, rid) = pending r !! (s_session_id s, rid).
Proof.
  intros Hwf Hr Hp Hact Hst H. pose proof (invariant_of_reachable _ _ _ Hwf Hr) as Hi.
  destruct (own_slot _ _ _ _ _ (inv_owned _ _ Hi) _ _ _ Hp Hact) as [Hport HT].
  assert (∀ x, sessions r !! sid = Some x → s_generation x = g →
    sid ≠ s_session_id s ∧ s_port x ≠ p) as Hother.
  { intros x Hx Hg. assert (sid ≠ s_session_id s) as Hne by naive_solver.
    split; [done|]. intros <-.
    destruct (session_slot _ _ _ _ Hi Hx) as (? & b & Hb & Hbs).
    congruence. }
  assert (∀ rid, sid ≠ s_session_id s →
    filter (λ kv : _ * PendingRequest, kv.1.1 ≠ sid) (pending r) !! (s_session_id s, rid) =
    pending r !! (s_session_id s, rid)) as HQ.
  { intros rid Hne. rewrite filter_pending_lookup. by rewrite decide_False. }
  destruct H as [->| ->].
  - destruct (session_lost_cases timing env sid g r) as [->|(x & Hx & Hg & ->)]; [done|].
    destruct (Hother _ Hx Hg). simpl. split_and!; [|by rewrite lookup_delete_ne|auto].
    destruct (holds_slot _ _ _); [|done]. by rewrite lookup_alter_ne.
  - destruct (goodbye_cases sid g r) as [->|(x & Hx & Hg & ->)]; [done|].
    destruct (Hother _ Hx Hg). simpl. split_and!; [|by rewrite lookup_delete_ne|auto].
    destruct (if holds_slot _ _ _ then _ else _); [|done]. by rewrite lookup_delete_ne.
Qed.

(** (C28) How a session ends.  A lost control connection keeps the port for the
    instance, with its listener, until [now + reservation]; a GOODBYE frees
    the port and stops its listener.  Both drop the session and its pending
    requests and cancel its data, and touch no other port, session or
    request. *)
Theorem session_end env r sid s slot :
  wf_server_config config → reach r →
  sessions r !! sid = Some s → ports r !! s_port s = Some slot →
  let lost := session_lost timing env sid (s_generation s) r in
  let left := goodbye sid (s_generation s) r in
  ports lost = <[s_port s := mkPortSlot (listener_id slot) (listener_cancel slot)
                   (Reserved (s_instance_id s) (s_generation s)
                      (now env + reservation timing))]> (ports r) ∧
  cancelled lost = {[s_control_cancel s; s_data_cancel s]} ∪ cancelled r ∧
  ports left = delete (s_port s) (ports r) ∧
  cancelled left = {[listener_cancel slot; s_data_cancel s]} ∪ cancelled r ∧
  ∀ r', r' = lost ∨ r' = left →
    sessions r' = delete sid (sessions r) ∧ tasks r' = tasks r ∧
    ∀ sid' rid, pending r' !! (sid', rid) =
      if decide (sid' = sid) then None else pending r !! (sid', rid).
Proof.
  intros Hwf Hr Hs Hp lost left. pose proof (invariant_of_reachable _ _ _ Hwf Hr) as Hi.
  pose proof (session_holds _ _ _ _ Hi Hs) as Hh.
  assert (s_generation s = s_generation s → lost = r → False) as Hl.
  { intros _ E. assert (sessions lost !! sid = Some s) as Hx by by rewrite E.
    unfold lost, session_lost in Hx. rewrite Hs, Hh, decide_False in Hx by naive_solver.
    simpl in Hx. by rewrite lookup_delete_eq in Hx. }
  assert (left = r → False) as Hg.
  { intros E. assert (sessions left !! sid = Some s) as Hx by by rewrite E.
    unfold left, goodbye in Hx. rewrite Hs, decide_False in Hx by naive_solver.
    change (holds_slot (s_generation s) (s_port s) (cancel _ _))
      with (holds_slot (s_generation s) (s_port s) r) in Hx.
    rewrite Hh in Hx. simpl in Hx. rewrite Hp in Hx. simpl in Hx.
    by rewrite lookup_delete_eq in Hx. }
  destruct (session_lost_cases timing env sid (s_generation s) r) as [?|(x & Hx & _ & E1)];
    [by destruct Hl|].
  destruct (goodbye_cases sid (s_generation s) r) as [?|(y & Hy & _ & E2)]; [by destruct Hg|].
  rewrite Hs in Hx, Hy. injection Hx as <-. injection Hy as <-.
  rewrite Hh in E1, E2. rewrite Hp in E2. fold lost in E1. fold left in E2.
  rewrite E1, E2. simpl. split_and!; try done; try set_solver.
  - by rewrite (alter_Some _ _ _ _ Hp), insert_delete_eq.
  - intros r' [->| ->]; simpl; split_and!; try done; intros; apply filter_pending_lookup.
Qed.

(** A sweep at time [t] removes exactly the reservations whose time has
    come and the requests whose deadline has passed: live slots, running
    reservations and running requests stay, the cancelled listeners are those
    of the removed slots, and nothing else changes. *)
Lemma sweep_exact t r :
  (∀ p, ports (sweep t r) !! p =
     match ports r !! p with
     | Some slot =>
         match slot_state slot with
         | Reserved _ _ until => if decide (until <= t) then None else Some slot
         | Active _ => Some slot
         end
     | None => None
     end) ∧
  (∀ k, pending (sweep t r) !! k =
     match pending r !! k with
     | Some e => if decide (t < p_deadline e) then Some e else None
     | None => None
     end) ∧
  (∀ tok, tok ∈ cancelled (sweep t r) ↔
     tok ∈ cancelled r ∨ ∃ p slot inst g until, ports r !! p = Some slot ∧
       slot_state slot = Reserved inst g until ∧ until <= t ∧ tok = listener_cancel slot) ∧
  sessions (sweep t r) = sessions r ∧ tasks (sweep t r) = tasks r ∧
  writers (sweep t r) = writers r ∧ permits (sweep t r) = permits r.
Proof.
  split_and!; [| | |by rewrite sweep_eq..].
  - intros p. rewrite sweep_lookup. unfold expired.
    destruct (ports r !! p) as [slot|]; [|done]. destruct (slot_state slot); [done|].
    by case_bool_decide; case_decide.
  - intros k. rewrite sweep_eq. simpl. rewrite map_lookup_filter.
    destruct (pending r !! k) as [e|]; simpl; [|done]. by repeat case_decide.
  - intros tok. rewrite sweep_cancelled. apply or_iff_compat_l. unfold expired. split.
    + intros (p & slot & Hp & He & ->). destruct (slot_state slot) as [|inst g u] eqn:E; [done|].
      apply bool_decide_eq_true in He. exists p, slot, inst, g, u. done.
    + intros (p & slot & inst & g & u & Hp & E & Hu & ->). exists p, slot. rewrite E.
      split_and!; try done. by apply bool_decide_eq_true.
Qed.

Lemma pick_request_id_collides env sid fuel i r :
  pick_request_id env sid fuel i r = Spins →
  ∀ j, (i ≤ j < i + fuel)%nat →
    ∃ rid, random_id env j = Some rid ∧ is_Some (pending r !! (sid, rid)).
Proof.
  revert i. induction fuel as [|fuel IH]; intros i H j Hj; [lia|]. simpl in H.
  destruct (random_id env i) as [rid|] eqn:Hi; [|done]. case_decide as Hp; [|done].
  destruct (decide (j = i)) as [->|Hne]; [eauto|]. apply (IH _ H). lia.
Qed.

Lemma pick_request_id_no_panic env sid fuel i r :
  pick_request_id env sid fuel i r ≠ Panics.
Proof.
  revert i. induction fuel as [|fuel IH]; intros i; simpl; [done|].
  destruct (random_id env i); [|done]. case_decide; [apply IH|done].
Qed.

(** The loop that draws a request identifier terminates: one draw more
    than there are pending requests is enough when the draws are distinct, and
    what it returns is not pending for the session. *)
Lemma pick_request_id_terminates env sid r :
  (size (pending r) < draws env)%nat →
  (∀ i j, (i < draws env)%nat → (j < draws env)%nat →
     random_id env i = random_id env j → i = j) →
  ∃ o, pick_request_id env sid (draws env) 0 r = Returns o ∧
    ∀ rid, o = Some rid → pending r !! (sid, rid) = None.
Proof.
  intros Hlt Hinj. destruct (pick_request_id env sid (draws env) 0 r) as [o| |] eqn:E.
  - exists o. split; [done|]. intros rid ->. by apply pick_request_id_spec in E as [? _].
  - by apply pick_request_id_no_panic in E.
  - exfalso. pose proof (pick_request_id_collides _ _ _ _ _ E) as Hc. clear E.
    set (key := λ j, (sid, default [] (random_id env j))).
    assert (length (key <$> seq 0 (draws env)) ≤ length (elements (dom (pending r))))%nat as Hle.
    { apply submseteq_length, NoDup_submseteq.
      - apply NoDup_fmap_2_strong; [|apply NoDup_seq].
        intros i j Hi%elem_of_seq Hj%elem_of_seq [= Heq].
        destruct (Hc i) as (a & Ha & _); [lia|]. destruct (Hc j) as (b & Hb & _); [lia|].
        apply Hinj; [lia..|]. rewrite Ha, Hb in *. by simpl in Heq; subst.
      - intros k (j & -> & Hj%elem_of_seq)%list_elem_of_fmap.
        apply elem_of_elements, elem_of_dom. destruct (Hc j) as (a & Ha & Hp); [lia|].
        unfold key. by rewrite Ha. }
    rewrite length_fmap, length_seq in Hle.
    assert (length (elements (dom (pending r))) = size (pending r)) as Hs
      by (rewrite <-size_dom; done). lia.
Qed.

(** ** Public connections *)

(** Permits are there exactly when the tasks do not hold them all. *)
Lemma session_permit r p slot s :
  invariant config r → ports r !! p = Some slot → slot_state slot = Active s →
  ∃ sem, permits r !! s_generation s = Some sem ∧
    (try_acquire sem = None ↔
       (Z.to_nat (sc_max_connections config) ≤ holders (s_generation s) (tasks r))%nat).
Proof.
  intros Hi Hp Hact. destruct Hi as [_ Ha _].
  destruct (acc_active _ _ _ _ _ _ _ Ha _ _ _ Hp Hact) as [sem Hsem].
  exists sem. split; [done|]. rewrite try_acquire_None.
  apply (acc_permits _ _ _ _ _ _ _ Ha) in Hsem. lia.
Qed.

Lemma global_permit r :
  invariant config r →
  try_acquire (global_connections r) = None ↔
    (MAX_GLOBAL_CONNECTIONS ≤ size (tasks r))%nat.
Proof.
  intros [_ Ha _]. rewrite try_acquire_None.
  pose proof (acc_global _ _ _ _ _ _ _ Ha). lia.
Qed.

(** The steps of [accepted_public] when every one of them succeeds. *)
Lemma accepted_public_run env lid p socket at_ r slot s c c' sem sem' G' rid :
  ports r !! p = Some slot → listener_id slot = lid → slot_state slot = Active s →
  permits r !! s_generation s = Some sem → try_acquire sem = Some sem' →
  try_acquire (global_connections r) = Some G' →
  writers r !! s_writer s = Some c → try_send c (out_frame TOpen rid) = Some c' →
  (0 < draws env)%nat → random_id env 0 = Some rid →
  pending r !! (s_session_id s, rid) = None →
  ∃ r', accepted_public timing env lid p socket at_ r = Returns r' ∧
    writers r' = <[s_writer s := c']> (writers r) ∧
    pending r' = <[(s_session_id s, rid) :=
      mkPendingRequest (s_generation s) (at_ + request_wait timing) (next_task r)]> (pending r) ∧
    tasks r' = <[next_task r := mkTask (s_session_id s) rid (s_generation s)
      (at_ + request_wait timing) (s_data_cancel s) socket None]> (tasks r) ∧
    ports r' = ports r ∧ sessions r' = sessions r.
Proof.
  intros Hp Hl Hact Hsem E1 E2 Hw E3 Hdraws Hrid Hpend.
  destruct (draws env) as [|n] eqn:Ed; [lia|].
  eexists. split; [|split_and!].
  - unfold accepted_public. rewrite Hp, decide_False by naive_solver. rewrite Hact, Hsem.
    cbn [option_bind mbind global_connections set_permits]. rewrite E1, E2, Ed. cbn [pick_request_id]. rewrite Hrid.
    rewrite decide_False by (intros [? Hx]; simpl in Hx; congruence).
    cbn [mbind outcome_bind]. unfold writer_try_send.
    cbn [writers set_global_connections set_permits]. rewrite Hw.
    cbn [mbind option_bind]. rewrite E3. cbn. reflexivity.
  - done.
  - done.
  - done.
  - done.
  - done.
Qed.

(** (C29) A connection to a live public port is served whenever the limits
    allow it: with a permit left of the tunnel and of the server, room in the
    writer queue and a fresh identifier drawn, one OPEN with that identifier
    is appended to the queue of the session, a request with the deadline
    [at + request_wait] becomes pending, and exactly one forwarding task starts
    for it. *)
Theorem public_connection_served env lid p socket at_ r slot s c rid :
  wf_server_config config → reach r →
  ports r !! p = Some slot → listener_id slot = lid → slot_state slot = Active s →
  (holders (s_generation s) (tasks r) < Z.to_nat (sc_max_connections config))%nat →
  (size (tasks r) < MAX_GLOBAL_CONNECTIONS)%nat →
  writers r !! s_writer s = Some c → chan_closed c = false →
  (length (chan_queue c) < chan_capacity c)%nat →
  (0 < draws env)%nat → random_id env 0 = Some rid →
  pending r !! (s_session_id s, rid) = None →
  ∃ r' c', accepted_public timing env lid p socket at_ r = Returns r' ∧
    writers r' = <[s_writer s := c']> (writers r) ∧
    chan_queue c' = chan_queue c ++ [out_frame TOpen rid] ∧
    pending r' = <[(s_session_id s, rid) :=
      mkPendingRequest (s_generation s) (at_ + request_wait timing) (next_task r)]> (pending r) ∧
    tasks r' = <[next_task r := mkTask (s_session_id s) rid (s_generation s)
      (at_ + request_wait timing) (s_data_cancel s) socket None]> (tasks r) ∧
    tasks r !! next_task r = None ∧ ports r' = ports r ∧ sessions r' = sessions r.
Proof.
  intros Hwf Hr Hp Hl Hact Hh Hg Hw Hcl Hroom Hdraws Hrid Hpend.
  pose proof (invariant_of_reachable _ _ _ Hwf Hr) as Hi.
  destruct (session_permit _ _ _ _ Hi Hp Hact) as (sem & Hsem & Hacq).
  pose proof (global_permit _ Hi) as Hglob.
  destruct (try_acquire sem) as [sem'|] eqn:E1; [|destruct Hacq as [Hacq _]; specialize (Hacq eq_refl); lia].
  destruct (try_acquire (global_connections r)) as [G'|] eqn:E2;
    [|destruct Hglob as [Hglob _]; specialize (Hglob eq_refl); lia].
  destruct (try_send c (out_frame TOpen rid)) as [c'|] eqn:E3;
    [|apply try_send_None in E3 as [?|?]; [congruence|lia]].
  apply try_send_Some in E3 as Hs. destruct Hs as (Hq & _).
  destruct (accepted_public_run env lid p socket at_ r slot s c c' sem sem' G' rid)
    as (r' & Ha & H1 & H2 & H3 & H4 & H5); [done..|].
  exists r', c'. split_and!; try done.
  apply eq_None_not_Some. intros Hx.
  apply (acc_next _ _ _ _ _ _ _ (inv_accounted _ _ Hi)) in Hx. lia.
Qed.

(** A public connection is turned away, and nothing is left of it, when
    the port has no live session, the listener is not the one of the slot, or
    a limit is reached: no OPEN, no request, no task, and every permit back. *)
Lemma public_connection_refused env lid p socket at_ r r' :
  wf_server_config config → reach r →
  accepted_public timing env lid p socket at_ r = Returns r' →
  (∀ slot s, ports r !! p = Some slot → slot_state slot = Active s →
     listener_id slot ≠ lid ∨
     (Z.to_nat (sc_max_connections config) ≤ holders (s_generation s) (tasks r))%nat ∨
     (MAX_GLOBAL_CONNECTIONS ≤ size (tasks r))%nat) →
  ports r' = ports r ∧ sessions r' = sessions r ∧ pending r' = pending r ∧
  tasks r' = tasks r ∧ writers r' = writers r ∧
  available (global_connections r') = available (global_connections r) ∧
  ∀ g, available <$> permits r' !! g = available <$> permits r !! g.
Proof.
  intros Hwf Hr [->|(slot & s & Hp & Hl & Hact & H)]%accepted_public_spec Hlim; [done|].
  pose proof (invariant_of_reachable _ _ _ Hwf Hr) as Hi.
  destruct (session_permit _ _ _ _ Hi Hp Hact) as (sem0 & Hsem0 & Hacq).
  pose proof (global_permit _ Hi) as Hglob.
  assert (∀ sem sem' G', permits r !! s_generation s = Some sem →
    try_acquire sem = Some sem' → try_acquire (global_connections r) = Some G' → False) as Hno.
  { intros sem sem' G' H1 H2 H3. rewrite Hsem0 in H1. injection H1 as <-.
    rewrite H2 in Hacq. rewrite H3 in Hglob.
    destruct (Hlim _ _ Hp Hact) as [?|[Hx|Hx]]; [done|by apply Hacq in Hx|by apply Hglob in Hx]. }
  destruct H as [sem sem' H1 H2 _|sem sem' G' H1 H2 H3|sem sem' G' H1 H2 H3
                |sem sem' G' rid H1 H2 H3 _ _]; [|by destruct (Hno _ _ _ H1 H2 H3)..].
  split_and!; try done. intros g. cbn. by apply (available_reacquired _ _ _ _ H1 H2).
Qed.

(** (C30) A required OPEN is never dropped silently: when the writer queue of
    the session is full or closed, the session is failed instead.  Its port is
    kept for the instance, its requests go, and no task starts. *)
Theorem full_queue_fails_session env lid p socket at_ r r' slot s c :
  wf_server_config config → reach r →
  ports r !! p = Some slot → listener_id slot = lid → slot_state slot = Active s →
  (holders (s_generation s) (tasks r) < Z.to_nat (sc_max_connections config))%nat →
  (size (tasks r) < MAX_GLOBAL_CONNECTIONS)%nat →
  writers r !! s_writer s = Some c →
  (chan_closed c = true ∨ chan_capacity c ≤ length (chan_queue c))%nat →
  (∀ i, is_Some (random_id env i)) →
  accepted_public timing env lid p socket at_ r = Returns r' →
  tasks r' = tasks r ∧ sessions r' !! s_session_id s = None ∧
  (∀ rid, pending r' !! (s_session_id s, rid) = None) ∧
  s_data_cancel s ∈ cancelled r' ∧ s_control_cancel s ∈ cancelled r' ∧
  ∃ slot', ports r' !! p = Some slot' ∧
    slot_state slot' = Reserved (s_instance_id s) (s_generation s)
                         (now env + reservation timing).
Proof.
  intros Hwf Hr Hp Hl Hact Hh Hg Hw Hfull Hent H.
  pose proof (invariant_of_reachable _ _ _ Hwf Hr) as Hi.
  destruct (own_slot _ _ _ _ _ (inv_owned _ _ Hi) _ _ _ Hp Hact) as [Hport HT].
  assert (∀ rid, try_send c (out_frame TOpen rid) = None) as Hsend.
  { intros rid. by apply try_send_None. }
  destruct (session_permit _ _ _ _ Hi Hp Hact) as (sem & Hsem & Hacq).
  pose proof (global_permit _ Hi) as Hglob.
  unfold accepted_public in H. rewrite Hp, decide_False in H by naive_solver.
  rewrite Hact, Hsem in H. cbn [option_bind mbind global_connections set_permits] in H.
  destruct (try_acquire sem) as [sem'|]; [|destruct Hacq as [Hacq _]; specialize (Hacq eq_refl); lia].
  destruct (try_acquire (global_connections r)) as [G'|];
    [|destruct Hglob as [Hglob _]; specialize (Hglob eq_refl); lia].
  apply outcome_bind_Returns in H as ([rid|] & Ho & H).
  2: { apply pick_request_id_spec in Ho as (j & _ & Hj). destruct (Hent j). congruence. }
  unfold writer_try_send in H. cbn [writers set_global_connections set_permits] in H.
  rewrite Hw in H. cbn [mbind option_bind] in H. rewrite Hsend in H. cbn [negb] in H.
  injection H as <-. fold (acquired (s_generation s) sem' G' r).
  fold (abandoned (s_generation s) (session_lost timing env (s_session_id s) (s_generation s)
    (acquired (s_generation s) sem' G' r))). rewrite abandoned_lost. cbn.
  destruct (lost_tunnels config timing env _ _ _ _ Hi HT eq_refl) as [_ Hlt].
  unfold session_lost. rewrite HT, decide_False by naive_solver.
  rewrite (session_holds _ _ _ _ Hi HT). cbn.
  split_and!.
  - done.
  - apply lookup_delete_eq.
  - intros rid'. rewrite filter_pending_lookup. by case_decide.
  - apply elem_of_union_r, elem_of_union_l, elem_of_singleton. done.
  - apply elem_of_union_l, elem_of_singleton. done.
  - rewrite Hport, lookup_alter_eq, Hp. eexists. done.
Qed.

(** ** Shutdown *)

Lemma elem_of_foldl_union {A} (f : A → Token) (l : list A) (c : gset Token) tok :
  tok ∈ foldl (λ c x, {[f x]} ∪ c) c l ↔ tok ∈ c ∨ ∃ x, x ∈ l ∧ tok = f x.
Proof.
  revert c. induction l as [|x l IH]; intros c; simpl; [set_solver|].
  rewrite IH. set_solver.
Qed.

(** (C31) Shutdown empties the registry: no slot, session or request is left,
    every listener and the data of every session are cancelled, and nothing
    else is; the forwarding tasks keep their permits until they end. *)
Theorem shutdown_clears env r reply stop r' :
  handle_command config timing env CShutdown r = Returns (reply, stop, r') →
  stop = true ∧ reply = ReplyUnit ∧
  ports r' = ∅ ∧ sessions r' = ∅ ∧ pending r' = ∅ ∧ tasks r' = tasks r ∧
  permits r' = permits r ∧
  ∀ tok, tok ∈ cancelled r' ↔ tok ∈ cancelled r ∨
    (∃ sid s, sessions r !! sid = Some s ∧ tok = s_data_cancel s) ∨
    (∃ p slot, ports r !! p = Some slot ∧ tok = listener_cancel slot).
Proof.
  intros [= <- <- <-]. rewrite shutdown_all_eq. simpl. split_and!; try done.
  intros tok. rewrite (elem_of_foldl_union id), (elem_of_foldl_union (λ kv, s_data_cancel kv.2)).
  setoid_rewrite list_elem_of_fmap. split.
  - intros [[?|([sid s] & H%elem_of_map_to_list & ->)]|(x & ([p slot] & -> & H%elem_of_map_to_list) & ->)];
      eauto 10.
  - intros [?|[(sid & s & H & ->)|(p & slot & H & ->)]]; [auto|left; right|right].
    + exists (sid, s). by rewrite elem_of_map_to_list.
    + eexists. split; [|done]. exists (p, slot). by rewrite elem_of_map_to_list.
Qed.
End props.
