(* ===== verification/RegistryWitness.v ===== *)
(** * The registry's properties on concrete runs

    Each lemma applies a property of [RegistryProps.v] to a state of the small
    server of [RegistryDemo.v], where its hypotheses hold. *)

From Stdlib Require Import Strings.Byte.
From S2P Require Import Prelude Errors Protocol Runtime Timing Net Config.
From S2P Require Import Registry RegistryOps RegistryInv RegistrySpec RegistryReplay.
From S2P Require Import RegistryDemo RegistryProps.

Local Open Scope Z_scope.

Lemma registry_invariant_witness : invariant demo_config demo_claimed.
Proof.
  eapply registry_invariant; [apply demo_config_wf|apply demo_claimed_reachable].
Defined.

Lemma connection_limits_witness :
  (holders 1 (tasks demo_claimed) ≤ 1)%nat ∧ size (tasks demo_claimed) = 1%nat.
Proof.
  split; [|vm_compute; reflexivity].
  exact (proj1 (connection_limits _ _ _ demo_config_wf demo_claimed_reachable)
           0%nat _ demo_claimed_task).
Defined.

Lemma registry_refines_tunnels_witness :
  tunnels demo_kept = tunnels demo_registered ∨
  spec_explains demo_config Timing_default ev_lost demo_registered demo_kept.
Proof.
  apply registry_refines_tunnels; [apply demo_config_wf|apply demo_registered_reachable|].
  apply exec_fires. vm_compute. reflexivity.
Defined.

Definition demo_slot_b : PortSlot :=
  mkPortSlot 1 (ListenerToken 1)
    (Active (new_session (demo_request x02 instance_b Fresh 20000 1) 20000 2)).

Definition demo_slot_a : PortSlot :=
  mkPortSlot 1 (ListenerToken 1)
    (Active (new_session (demo_request x01 instance_a Fresh 0 0) 20000 1)).

Lemma takeover_only_by_request_witness :
  ∃ env req, ev_take_b = EvCommand env (CRegister req) ∧ rq_mode req = Fresh ∧
    rq_requested_port req = 20000 ∧ rq_instance_id req = instance_b.
Proof.
  apply (takeover_only_by_request demo_config Timing_default ev_take_b
    demo_registered demo_taken 20000 demo_slot_a demo_slot_b demo_config_wf
    demo_registered_reachable).
  - apply exec_fires. vm_compute. reflexivity.
  - vm_compute. reflexivity.
  - vm_compute. reflexivity.
  - discriminate.
Defined.

Lemma reservation_honoured_witness :
  ∃ reg r'', register demo_config Timing_default (demo_env 60 0)
      (demo_request x04 instance_a Resume 20000 0)
      (demo_run [ev_register_a; ev_lost; ev_register_b]) = Returns (Ok reg, r'') ∧
    rg_assigned_port reg = 20000 ∧ holds (tunnels r'') instance_a 20000.
Proof.
  eapply (reservation_honoured demo_config Timing_default [ev_register_b] demo_kept _
    20000 _ instance_a 1 (30 + reservation Timing_default));
    [apply demo_config_wf|apply demo_kept_reachable| | | | |reflexivity..|].
  - apply replay_fires_all. vm_compute. reflexivity.
  - vm_compute. reflexivity.
  - vm_compute. reflexivity.
  - repeat constructor; discriminate.
  - vm_compute. reflexivity.
Defined.

Lemma register_total_witness :
  ∃ res r', register demo_config Timing_default (demo_env 0 0)
      (demo_request x01 instance_a Fresh 0 0) demo_new = Returns (res, r') ∧
    match res with
    | Err _ => r' = demo_new
    | Ok reg => rg_generation reg = 1
    end.
Proof.
  destruct (register_total demo_config Timing_default (demo_env 0 0)
    (demo_request x01 instance_a Fresh 0 0) demo_new) as (res & r' & H & Hr);
    [vm_compute; reflexivity|].
  exists res, r'. split; [exact H|]. destruct res; [apply Hr|exact Hr].
Defined.

Lemma automatic_port_witness :
  lowest_owned instance_b demo_registered 20001 ∨
  ((∀ q, ¬ owns instance_b demo_registered q) ∧
   lowest_free demo_config (demo_env 50 0) demo_registered 20001).
Proof.
  apply (automatic_port demo_config Timing_default (demo_env 50 0)
    (demo_request x02 instance_b Fresh 0 1) demo_registered
    (Ok (mkRegistration 20001 1 2)) (demo_run [ev_register_a; ev_register_b]) eq_refl eq_refl).
  vm_compute. reflexivity.
Defined.

Lemma takeover_effect_witness :
  sessions demo_taken !! demo_session x01 = None ∧
  (∃ c', writers demo_taken !! 0%nat = Some c' ∧
     chan_queue c' = [out_error Replaced; CloseAfterFlush]).
Proof.
  destruct (takeover_effect demo_config Timing_default (demo_env 40 0)
    (demo_request x02 instance_b Fresh 20000 1) demo_registered (mkRegistration 20000 1 2)
    demo_taken demo_slot_a (new_session (demo_request x01 instance_a Fresh 0 0) 20000 1)
    demo_config_wf demo_registered_reachable)
    as (_ & Hne & H1 & _ & _ & _ & H5 & _).
  - refine (bool_decide_unpack _ _). vm_compute. reflexivity.
  - vm_compute. reflexivity.
  - vm_compute. reflexivity.
  - reflexivity.
  - split.
    + rewrite H1, lookup_insert_ne by exact Hne. apply lookup_delete_eq.
    + destruct (H5 (mkQueue [] 8 false)) as (c' & Hc & _ & Hq); [vm_compute; reflexivity|].
      exists c'. split; [exact Hc|exact Hq].
Defined.

Lemma claim_at_most_once_witness :
  ∃ t, tasks demo_waiting !! 0%nat = Some t ∧ t_data t = None ∧
    tasks demo_claimed = <[0%nat := mkTask (demo_session x01) (replicate 16 x05) (t_permit t)
      (t_deadline t) (t_cancel t) (t_public t) (Some 88%nat)]> (tasks demo_waiting).
Proof.
  destruct (claim_at_most_once demo_config Timing_default (demo_env 20 0) (demo_session x01)
    (replicate 16 x05) 88 demo_waiting Delivered demo_claimed demo_config_wf
    demo_waiting_reachable) as (s & e & t & _ & He & _ & _ & Ht & _ & _ & Hd & Hk & _).
  - intros [|id] H; [vm_compute; eauto|discriminate].
  - vm_compute. reflexivity.
  - assert (p_sender e = 0%nat) as E.
    { vm_compute in He. injection He as <-. reflexivity. }
    rewrite E in Ht, Hk. exists t. auto.
Defined.

Lemma delivered_for_good_witness :
  tasks (demo_run [ev_register_a; ev_accept; ev_claim; ev_lost]) !! 0%nat =
  tasks demo_claimed !! 0%nat.
Proof.
  rewrite demo_claimed_task.
  destruct (tasks (demo_run [ev_register_a; ev_accept; ev_claim; ev_lost]) !! 0%nat)
    as [t'|] eqn:E; [|vm_compute in E; discriminate].
  f_equal. eapply (delivered_for_good demo_config Timing_default demo_claimed _ 0%nat);
    [apply demo_config_wf|apply demo_claimed_reachable| |apply demo_claimed_task|reflexivity|exact E].
  eapply fires_all_rtc, (replay_fires_all _ _ [ev_lost]). vm_compute. reflexivity.
Defined.

Lemma stale_notices_ignored_witness :
  ports (session_lost Timing_default (demo_env 70 0) (demo_session x01) 1 demo_taken) !! 20000 =
    Some demo_slot_b.
Proof.
  eapply (stale_notices_ignored demo_config Timing_default (demo_env 70 0) demo_taken 20000
    demo_slot_b _ (demo_session x01) 1 _ demo_config_wf demo_taken_reachable);
    [vm_compute; reflexivity|reflexivity| |by left].
  left. discriminate.
Defined.

Lemma session_end_witness :
  ports (goodbye (demo_session x01) 1 demo_registered) = delete 20000 (ports demo_registered).
Proof.
  destruct (session_end demo_config Timing_default (demo_env 70 0) demo_registered
    (demo_session x01) (new_session (demo_request x01 instance_a Fresh 0 0) 20000 1) demo_slot_a
    demo_config_wf demo_registered_reachable) as (_ & _ & H & _);
    [vm_compute; reflexivity|vm_compute; reflexivity|exact H].
Defined.

Lemma pick_request_id_terminates_witness :
  ∃ o, pick_request_id (demo_env 10 5) (demo_session x01) 3 0 demo_waiting = Returns o ∧
    ∀ rid, o = Some rid → pending demo_waiting !! (demo_session x01, rid) = None.
Proof.
  apply (pick_request_id_terminates (demo_env 10 5)).
  - vm_compute. lia.
  - intros [|[|[|i]]] [|[|[|j]]]; simpl; intros; try lia; discriminate.
Defined.

Lemma public_connection_served_witness :
  ∃ r' c', accepted_public Timing_default (demo_env 10 5) 1 20000 77 10 demo_registered =
      Returns r' ∧ writers r' !! 0%nat = Some c' ∧
    chan_queue c' = [out_frame TOpen (replicate 16 x05)].
Proof.
  destruct (public_connection_served demo_config Timing_default (demo_env 10 5) 1 20000 77 10
    demo_registered demo_slot_a (new_session (demo_request x01 instance_a Fresh 0 0) 20000 1)
    (mkQueue [] 8 false) (replicate 16 x05) demo_config_wf demo_registered_reachable)
    as (r' & c' & H & Hw & Hq & _);
    try (vm_compute; first [reflexivity|lia]).
  exists r', c'. split; [exact H|]. split; [|exact Hq].
  rewrite Hw. apply lookup_insert_eq.
Defined.

Lemma public_connection_refused_witness :
  ∃ r', accepted_public Timing_default (demo_env 80 9) 1 20000 78 80 demo_claimed = Returns r' ∧
    tasks r' = tasks demo_claimed.
Proof.
  exists demo_claimed. split; [vm_compute; reflexivity|].
  eapply (public_connection_refused demo_config Timing_default (demo_env 80 9) 1 20000 78 80
    demo_claimed demo_claimed demo_config_wf demo_claimed_reachable).
  - vm_compute. reflexivity.
  - intros slot s Hp Hs. right. left. vm_compute in Hp. injection Hp as <-.
    injection Hs as <-. vm_compute. lia.
Defined.

Lemma full_queue_fails_session_witness :
  ∃ r', accepted_public Timing_default (demo_env 10 5) 1 20000 77 10 demo_full = Returns r' ∧
    sessions r' !! demo_session x03 = None.
Proof.
  eexists. split; [vm_compute; reflexivity|].
  eapply (full_queue_fails_session demo_config Timing_default (demo_env 10 5) 1 20000 77 10
    demo_full _ _ (new_session (demo_request x03 instance_b Fresh 0 2) 20000 1)
    (mkQueue [] 0 false) demo_config_wf demo_full_reachable);
    try (vm_compute; first [reflexivity|lia]).
  - intros i. eexists. reflexivity.
Defined.

Lemma shutdown_clears_witness :
  ∃ r', handle_command demo_config Timing_default (demo_env 90 0) CShutdown demo_registered =
      Returns (ReplyUnit, true, r') ∧ ports r' = ∅ ∧ ListenerToken 1 ∈ cancelled r'.
Proof.
  eexists. split; [reflexivity|].
  destruct (shutdown_clears demo_config Timing_default (demo_env 90 0) demo_registered
    ReplyUnit true _ eq_refl) as (_ & _ & H & _ & _ & _ & _ & Hc).
  split; [exact H|]. apply Hc. right. right. exists 20000, demo_slot_a.
  split; [vm_compute; reflexivity|reflexivity].
Defined.
