(* ===== verification/RegistryOrigin.v ===== *)
(** * Where the sessions, tasks and messages of the registry come from

    Sessions come from registrations only, the socket of a forwarding task from
    a claim for its request only, and the queues of the writers get no message
    but the four kinds the registry sends. *)

From S2P Require Import Prelude Errors Protocol Runtime Timing Net Config.
From S2P Require Import Registry RegistryOps RegistryInv RegistrySafe RegistrySpec RegistryProps.

Local Open Scope Z_scope.

Section origin.
Context {Sem Chan : Type} `{!Semaphore Sem, !Channel Outbound Chan}.
Context `{!SemaphoreLaws Sem, !ChannelLaws Outbound Chan}.
Context (config : ServerConfig) (timing : Timing).
Implicit Types (r : Registry Sem Chan) (env : Env).

(** ** Sessions *)

Lemma session_lost_sessions env sid g r : sessions (session_lost timing env sid g r) ⊆ sessions r.
Proof.
  destruct (session_lost_cases timing env sid g r) as [->|(? & _ & _ & ->)]; [done|].
  apply delete_subseteq.
Qed.

Lemma goodbye_sessions sid g r : sessions (goodbye sid g r) ⊆ sessions r.
Proof.
  destruct (goodbye_cases sid g r) as [->|(? & _ & _ & ->)]; [done|]. apply delete_subseteq.
Qed.

Lemma accepted_public_sessions env lid p socket at_ r r' :
  accepted_public timing env lid p socket at_ r = Returns r' → sessions r' ⊆ sessions r.
Proof.
  intros [->|(slot & s & _ & _ & _ & H)]%accepted_public_spec; [done|].
  destruct H; try done. rewrite abandoned_lost. apply session_lost_sessions.
Qed.

Lemma fires_session e r r' sid s :
  fires config timing e r r' → sessions r' !! sid = Some s →
  sessions r !! sid = Some s ∨
  ∃ env req p g, e = EvCommand env (CRegister req) ∧ rq_session_id req = sid ∧
    s = new_session req p g.
Proof.
  intros H Hs. destruct H as [r env c reply stop r' Had H|r x|r id|r ws|r x]; try by left.
  - destruct c as [req|lid p socket at_|sid' rid socket|sid' rid|sid' rid why
                  |sid' g|sid' g|sid' rid|]; simpl in H.
    + apply outcome_bind_Returns in H as ([[reg|code] r1] & H & [= _ _ <-]).
      * apply register_Ok in H as (p & r2 & slot & _ & Hch & _ & _ & -> & _). simpl in Hs.
        apply lookup_insert_Some in Hs as [[<- <-]|[_ Hs]]; [right; eauto 10|left].
        assert (sessions r2 = sessions r) as E by (by destruct Hch as [[-> _]|(-> & _)]).
        rewrite <-E. destruct (active_session slot); [|done].
        by apply lookup_delete_Some in Hs as [_ ?].
      * apply register_Err in H as ->. by left.
    + apply outcome_bind_Returns in H as (r1 & H & [= _ _ <-]). left.
      by eapply lookup_weaken, accepted_public_sessions.
    + left. destruct (claim_cases env sid' rid socket r) as [E|(? & e & _ & _ & _ & _ & E)];
        rewrite E in H; [by injection H as _ _ <-|].
      destruct (receiver_open env _); by injection H as _ _ <-.
    + injection H as _ _ <-. by left.
    + injection H as _ _ <-. by left.
    + injection H as _ _ <-. left. by eapply lookup_weaken, session_lost_sessions.
    + injection H as _ _ <-. left. by eapply lookup_weaken, goodbye_sessions.
    + injection H as _ _ <-. by left.
    + injection H as _ _ <-. by rewrite shutdown_all_eq in Hs.
  - rewrite sweep_eq in Hs. by left.
  - unfold finish_task in Hs. left. by destruct (tasks r !! id).
Qed.

(** ** Tasks *)

(** A task that was there, one that has just received its socket by a claim, or
    a new one. *)
Definition task_origin e r t' : Prop :=
  (∃ id, tasks r !! id = Some t') ∨
  (∃ id t env socket, tasks r !! id = Some t ∧
     e = EvCommand env (CClaimData (t_session t) (t_request t) socket) ∧
     t_session t' = t_session t ∧ t_request t' = t_request t ∧ t_data t' = Some socket) ∨
  (is_Some (sessions r !! t_session t') ∧ t_data t' = None).

Lemma claim_task env reply stop sid rid socket r r' id t' :
  invariant config r →
  handle_command config timing env (CClaimData sid rid socket) r = Returns (reply, stop, r') →
  tasks r' !! id = Some t' →
  task_origin (EvCommand env (CClaimData sid rid socket)) r t'.
Proof.
  intros Hi H Ht. simpl in H.
  destruct (claim_cases env sid rid socket r) as [E|(s & e & _ & He & _ & _ & E)];
    rewrite E in H; [injection H as _ _ <-; left; by exists id|].
  destruct (receiver_open env (p_sender e)); injection H as _ _ <-; [|left; by exists id].
  simpl in Ht. rewrite lookup_alter in Ht. case_decide as Hd; [|left; by exists id].
  apply fmap_Some in Ht as (t & Ht & ->). right. left. subst id.
  destruct (lnk_task _ _ _ (inv_linked _ _ Hi) _ _ _ _ He Ht) as (<- & <- & _).
  eexists _, t, env, socket. done.
Qed.

Lemma accepted_public_task env lid p socket at_ r r' id t' :
  invariant config r → accepted_public timing env lid p socket at_ r = Returns r' →
  tasks r' !! id = Some t' →
  tasks r !! id = Some t' ∨ (is_Some (sessions r !! t_session t') ∧ t_data t' = None).
Proof.
  intros Hi [->|(slot & s & Hp & _ & Hact & H)]%accepted_public_spec; [by left|].
  destruct (own_slot _ _ _ _ _ (inv_owned _ _ Hi) _ _ _ Hp Hact) as [_ Hs].
  destruct H as [sem sem' _ _ _|sem sem' G' _ _ _|sem sem' G' _ _ _
                |sem sem' G' rid _ _ _ _ _]; try by left.
  - rewrite abandoned_lost. simpl.
    destruct (session_lost_cases timing env (s_session_id s) (s_generation s) r)
      as [->|(? & _ & _ & ->)]; by left.
  - simpl. intros [[_ <-]|[_ Ht]]%lookup_insert_Some; [right|by left]. by split; [exists s|].
Qed.

Lemma fires_task_origin e r r' id t' :
  invariant config r → fires config timing e r r' → tasks r' !! id = Some t' →
  task_origin e r t'.
Proof.
  intros Hi H Ht. destruct H as [r env c reply stop r' Had H|r x|r id'|r ws|r x];
    try by left; exists id.
  - destruct c as [req|lid p socket at_|sid' rid socket|sid' rid|sid' rid why
                  |sid' g|sid' g|sid' rid|]; [..|]; simpl in H.
    + left. exists id. apply outcome_bind_Returns in H as ([[reg|code] r1] & H & [= _ _ <-]).
      * apply register_Ok in H as (p & r2 & slot & _ & Hch & _ & _ & -> & _).
        by destruct Hch as [[-> _]|(-> & _)].
      * by apply register_Err in H as ->.
    + apply outcome_bind_Returns in H as (r1 & H & [= _ _ <-]).
      destruct (accepted_public_task _ _ _ _ _ _ _ _ _ Hi H Ht) as [?|?];
        [left; by exists id|by right; right].
    + by eapply claim_task.
    + injection H as _ _ <-. left. by exists id.
    + injection H as _ _ <-. left. by exists id.
    + injection H as _ _ <-. left. exists id.
      by destruct (session_lost_cases timing env sid' g r) as [E|(? & _ & _ & E)]; rewrite E in Ht.
    + injection H as _ _ <-. left. exists id.
      by destruct (goodbye_cases sid' g r) as [E|(? & _ & _ & E)]; rewrite E in Ht.
    + injection H as _ _ <-. left. by exists id.
    + injection H as _ _ <-. rewrite shutdown_all_eq in Ht. left. by exists id.
  - rewrite sweep_eq in Ht. left. by exists id.
  - left. unfold finish_task in Ht. destruct (tasks r !! id'); [|by exists id].
    simpl in Ht. apply lookup_delete_Some in Ht as [_ ?]. by exists id.
Qed.

(** ** Messages *)

Definition all_queued (P : Outbound → Prop) (ws : gmap WriterId Chan) : Prop :=
  ∀ w c m, ws !! w = Some c → m ∈ chan_queue c → P m.

Lemma queue_send_queued (P : Outbound → Prop) ws w m :
  P m → all_queued P ws → all_queued P (queue_send ws w m).
Proof.
  intros Hm Hws. unfold queue_send. destruct (ws !! w ≫= _) as [c'|] eqn:E; [|done].
  apply bind_Some in E as (c & Hc & (Hq & _)%try_send_Some).
  intros w' c1 m' [[<- <-]|[_ Hw]]%lookup_insert_Some Hin; [|by eapply Hws].
  rewrite Hq in Hin. apply elem_of_app in Hin as [Hin|Hin%list_elem_of_singleton]; [|by subst].
  by eapply Hws.
Qed.

Lemma send_ignore_queued (P : Outbound → Prop) w m r :
  P m → all_queued P (writers r) → all_queued P (writers (writer_send_ignore w m r)).
Proof. intros Hm Hr. rewrite writer_send_ignore_eq. by apply queue_send_queued. Qed.

(** What the registry itself sends. *)
Record speaks (P : Outbound → Prop) : Prop := {
  speaks_open rid : length rid = 16%nat → P (out_frame TOpen rid);
  speaks_replaced : P (out_error Replaced);
  speaks_shutdown : P (out_frame TServerShutdown []);
  speaks_close : P CloseAfterFlush
}.

Lemma shutdown_queued (P : Outbound → Prop) r :
  speaks P → all_queued P (writers r) → all_queued P (writers (shutdown_all r)).
Proof.
  intros HP Hr. rewrite shutdown_all_eq. simpl. revert Hr. generalize (writers r).
  induction (map_to_list (sessions r)) as [|[sid s] l IH]; intros ws Hws; [done|].
  simpl. apply IH. by apply queue_send_queued; [apply HP|apply queue_send_queued; [apply HP|]].
Qed.

Lemma accepted_public_queued (P : Outbound → Prop) env lid p socket at_ r r' :
  speaks P → (∀ i rid, random_id env i = Some rid → length rid = 16%nat) →
  all_queued P (writers r) → accepted_public timing env lid p socket at_ r = Returns r' →
  all_queued P (writers r').
Proof.
  intros HP Henv Hr [->|(slot & s & _ & _ & _ & H)]%accepted_public_spec; [done|].
  destruct H as [sem sem' _ _ _|sem sem' G' _ _ _|sem sem' G' _ _ _
                |sem sem' G' rid _ _ _ _ _ [i Hi]]; try done.
  - rewrite abandoned_lost. simpl.
    by destruct (session_lost_cases timing env (s_session_id s) (s_generation s) r)
      as [->|(? & _ & _ & ->)].
  - apply queue_send_queued; [|done]. by eapply HP, Henv.
Qed.

Lemma handle_command_queued (P : Outbound → Prop) env c reply stop r r' :
  speaks P → (∀ i rid, random_id env i = Some rid → length rid = 16%nat) →
  all_queued P (writers r) → handle_command config timing env c r = Returns (reply, stop, r') →
  all_queued P (writers r').
Proof.
  intros HP Henv Hr H. destruct c as [req|lid p socket at_|sid' rid socket|sid' rid|sid' rid why
                  |sid' g|sid' g|sid' rid|]; simpl in H.
  - apply outcome_bind_Returns in H as ([[reg|code] r1] & H & [= _ _ <-]).
    + apply register_Ok in H as (p & r2 & slot & _ & Hch & _ & _ & -> & _). simpl.
      assert (writers r2 = writers r) as -> by (by destruct Hch as [[-> _]|(-> & _)]).
      destruct (active_session slot); [|done]. simpl.
      by apply queue_send_queued; [apply HP|apply queue_send_queued; [apply HP|]].
    + by apply register_Err in H as ->.
  - apply outcome_bind_Returns in H as (r1 & H & [= _ _ <-]).
    by eapply accepted_public_queued.
  - destruct (claim_cases env sid' rid socket r) as [E|(? & e & _ & _ & _ & _ & E)];
      rewrite E in H; [by injection H as _ _ <-|].
    destruct (receiver_open env _); by injection H as _ _ <-.
  - by injection H as _ _ <-.
  - by injection H as _ _ <-.
  - injection H as _ _ <-.
    by destruct (session_lost_cases timing env sid' g r) as [->|(? & _ & _ & ->)].
  - injection H as _ _ <-. by destruct (goodbye_cases sid' g r) as [->|(? & _ & _ & ->)].
  - by injection H as _ _ <-.
  - injection H as _ _ <-. by apply shutdown_queued.
Qed.
End origin.
