(* ===== verification/Handshake.v ===== *)
(** * The four handshakes

    The server side of a control connection ([src/server/control.rs]) and of a
    data connection ([src/server/data.rs]), and the client side of both
    ([src/client/control.rs], [src/client/data.rs]), as programs over the
    socket.  The server sides talk to the registry through its handle
    ([RegistryHandle] in [src/server/registry.rs]). *)

From Stdlib Require Import Strings.String Strings.Byte.
From S2P Require Import Prelude Errors Io Protocol Auth Runtime Timing Net Config Registry.

Local Open Scope Z_scope.

(** ** The registry handle

    A request sends one command and waits for the reply; the answer is [None]
    when the command channel is closed or the reply never comes. *)

Inductive RegistryRequest : Type → Type :=
| Send (c : Command) : RegistryRequest (option Reply).

Section handle.
Abbreviation proc := (proc RegistryRequest).

Definition send_command (c : Command) : proc (option Reply) := perform (Request (Send c)).

Definition handle_register (request : RegisterRequest) :
    proc (result ErrorCode Registration) :=
  o ← send_command (CRegister request);
  Ret (match o with Some (ReplyRegister r) => r | _ => Err InternalError end).

Definition handle_peek (sid : SessionId) (rid : RequestId) : proc bool :=
  o ← send_command (CPeekData sid rid);
  Ret (match o with Some (ReplyPeek b) => b | _ => false end).

Definition handle_claim (sid : SessionId) (rid : RequestId) (socket : Socket) :
    proc ClaimOutcome :=
  o ← send_command (CClaimData sid rid socket);
  Ret (match o with Some (ReplyClaim o) => o | _ => Rejected InternalError None end).

Definition handle_session_lost (sid : SessionId) (g : Generation) : proc unit :=
  _ ← send_command (CSessionLost sid g); Ret ().
Definition handle_goodbye (sid : SessionId) (g : Generation) : proc unit :=
  _ ← send_command (CGoodbye sid g); Ret ().
Definition handle_open_failed (sid : SessionId) (rid : RequestId) (r : OpenFailure) :
    proc unit :=
  _ ← send_command (COpenFailed sid rid r); Ret ().
Definition handle_shutdown : proc unit :=
  _ ← send_command CShutdown; Ret ().
End handle.

(** ** Server, control connection *)

Record Authenticated := mkAuthenticated {
  au_hello : ControlHello;
  au_session_id : SessionId;
  au_transcript : bytes
}.

Section handshakes.
Context (hmac : bytes → bytes → bytes).

Section sides.
Context {R : Type → Type}.

(** [server::control::handshake]. *)
Definition control_handshake (key : bytes) : proc R (result AppError Authenticated) :=
  let? frame := read_frame via id in
  let? _ := Ret (require_kind frame Control) via AppProtocol in
  let? _ := Ret (require_type frame TControlHello) via AppProtocol in
  let? hello := Ret (ControlHello_decode (payload frame)) via AppProtocol in
  let? server_nonce := random 32 via id in
  let? session_id := random 16 via id in
  let transcript := control_transcript hello server_nonce session_id in
  let server_mac := mac hmac key LABEL_CONTROL_SERVER transcript in
  let challenge := mkControlChallenge server_nonce session_id server_mac in
  let? _ := write_frame (mkFrame TControlChallenge (ControlChallenge_encode challenge))
    via id in
  let? frame := read_frame via id in
  let? _ := Ret (require_kind frame Control) via AppProtocol in
  let? _ := Ret (require_type frame TControlProof) via AppProtocol in
  if negb (verify hmac key LABEL_CONTROL_CLIENT transcript (payload frame))
  then Ret (Err AppAuth)
  else Ret (Ok (mkAuthenticated hello session_id transcript)).

(** The error code [server::control::serve] answers a failed handshake with. *)
Definition reject_code (e : AppError) : ErrorCode :=
  match e with
  | AppAuth => AuthFailed
  | AppProtocol p => code p
  | _ => InternalError
  end.

(** The first part of [server::control::serve]: the handshake under its
    timeout and, when it fails, the error frame under its own. *)
Definition serve_handshake {S} (W : World R S) (budget write_budget : nat) (key : bytes)
    (c : Conn S) : option Authenticated * Conn S :=
  match run_for W budget (control_handshake key) c with
  | (None, c) => (None, c)
  | (Some (Err error), c) =>
      let '(_, c) := run_for W write_budget (write_error_frame (reject_code error)) c in
      (None, (run W (perform CloseWrite) c).2)
  | (Some (Ok a), c) => (Some a, c)
  end.

(** The REGISTERED message [server::control::serve] queues for a registration. *)
Definition registered_frame (key : bytes) (a : Authenticated) (rg : Registration) : Frame :=
  let ready := mac hmac key LABEL_CONTROL_READY
    (ready_transcript (au_transcript a) (rg_assigned_port rg) (rg_max_connections rg)) in
  mkFrame TRegistered (Registered_encode
    (mkRegistered (rg_assigned_port rg) (rg_max_connections rg) ready)).

(** ** Client, control connection *)

(** [client::control::Failure]. *)
Inductive Failure :=
| FFatal (e : AppError)
| FRetry (m : string).

Definition classify (c : ErrorCode) : Failure :=
  if is_fatal_for_client c then FFatal (AppRegistration c) else FRetry (message c).

Record Session := mkSession {
  se_session_id : SessionId;
  se_server_addr : SocketAddr;
  se_assigned_port : Z;
  se_max_connections : Z
}.

Context (io_text : IoError → string).

(** The closure [transport] of [register]. *)
Definition transport (e : AppError) : Failure :=
  match e with AppIo inner => FRetry (io_text inner) | other => FFatal other end.

Definition fatal_protocol (e : ProtocolError) : Failure := FFatal (AppProtocol e).

(** A control frame from the server: an ERROR frame ends the exchange. *)
Definition server_refusal (frame : Frame) : option Failure :=
  if decide (ty frame = TError) then
    Some (match decode_error (payload frame) with
          | Ok c => classify c
          | Err e => fatal_protocol e
          end)
  else None.

(** [client::control::register]. *)
Definition client_register (key : bytes) (instance : InstanceId) (m : Mode)
    (requested : Z) : proc R (result Failure Session) :=
  let? _ := write_preamble Control via transport in
  let? client_nonce := random 32 via FFatal in
  let hello := mkControlHello instance client_nonce m requested in
  let? _ := write_frame (mkFrame TControlHello (ControlHello_encode hello)) via transport in
  let? frame := read_frame via transport in
  let? _ := Ret (require_kind frame Control) via fatal_protocol in
  match server_refusal frame with
  | Some failure => Ret (Err failure)
  | None =>
  let? _ := Ret (require_type frame TControlChallenge) via fatal_protocol in
  let? challenge := Ret (ControlChallenge_decode (payload frame)) via fatal_protocol in
  let transcript := control_transcript hello (cc_nonce challenge) (cc_session_id challenge) in
  if negb (verify hmac key LABEL_CONTROL_SERVER transcript (cc_mac challenge))
  then Ret (Err (FFatal AppAuth))
  else
  let proof := mac hmac key LABEL_CONTROL_CLIENT transcript in
  let? _ := write_frame (mkFrame TControlProof proof) via transport in
  let? frame := read_frame via transport in
  let? _ := Ret (require_kind frame Control) via fatal_protocol in
  match server_refusal frame with
  | Some failure => Ret (Err failure)
  | None =>
  let? _ := Ret (require_type frame TRegistered) via fatal_protocol in
  let? registered := Ret (Registered_decode (payload frame)) via fatal_protocol in
  let ready := ready_transcript transcript (assigned_port registered)
                 (max_connections registered) in
  if negb (verify hmac key LABEL_CONTROL_READY ready (ready_mac registered))
  then Ret (Err (FFatal AppAuth))
  else if decide (requested ≠ 0 ∧ assigned_port registered ≠ requested) then
    Ret (Err (FFatal (app_protocol "server assigned a different port than requested")))
  else Ret (Ok (mkSession (cc_session_id challenge) (mkSocketAddr (V4 0 0 0 0) 0)
                  (assigned_port registered) (max_connections registered)))
  end
  end.

(** [client::control::connect_and_register], with the outcomes of [net::dial]
    and of [peer_addr]. *)
Definition connect_and_register (dialed : result AppError unit)
    (peer : result IoError SocketAddr) (key : bytes) (instance : InstanceId) (m : Mode)
    (requested : Z) : proc R (result Failure Session) :=
  let? _ := Ret dialed via (λ e, FRetry (app_error_text io_text e)) in
  let? server_addr := Ret peer via (λ e, FRetry (io_text e)) in
  r ← client_register key instance m requested;
  match r with
  | Ok session =>
      Ret (Ok (mkSession (se_session_id session) server_addr (se_assigned_port session)
                 (se_max_connections session)))
  | Err failure =>
      _ ← perform CloseWrite;
      Ret (Err failure)
  end.

(** ** Client, data connection *)

(** [client::data::data_handshake]. *)
Definition client_data_handshake (key : bytes) (sid : SessionId) (rid : RequestId) :
    proc R (result AppError unit) :=
  let? _ := write_preamble Data via id in
  let? client_nonce := random 32 via id in
  let hello := mkDataHello sid rid client_nonce in
  let? _ := write_frame (mkFrame TDataHello (DataHello_encode hello)) via id in
  let? frame := read_frame via id in
  let? _ := Ret (require_kind frame Data) via AppProtocol in
  if decide (ty frame = TError) then
    let? c := Ret (decode_error (payload frame)) via AppProtocol in
    _ ← perform CloseWrite;
    Ret (Err (AppRuntime ("server refused: " +:+ message c)))
  else
  let? _ := Ret (require_type frame TDataChallenge) via AppProtocol in
  let? challenge := Ret (DataChallenge_decode (payload frame)) via AppProtocol in
  let transcript := data_transcript hello (dc_nonce challenge) in
  if negb (verify hmac key LABEL_DATA_SERVER transcript (dc_mac challenge))
  then Ret (Err AppAuth)
  else
  let proof := mac hmac key LABEL_DATA_CLIENT transcript in
  let? _ := write_frame (mkFrame TDataProof proof) via id in
  let? frame := read_frame via id in
  let? _ := Ret (require_kind frame Data) via AppProtocol in
  if decide (ty frame = TError) then
    let? c := Ret (decode_error (payload frame)) via AppProtocol in
    Ret (Err (AppRuntime ("server refused: " +:+ message c)))
  else
  let? _ := Ret (require_type frame TDataReady) via AppProtocol in
  Ret (Ok ()).
End sides.

(** ** Server, data connection *)

(** [server::data::reject]. *)
Definition reject (c : ErrorCode) : proc RegistryRequest (result AppError unit) :=
  _ ← write_error_frame c;
  _ ← perform CloseWrite;
  Ret (Ok ()).

(** [server::data::handshake]. *)
Definition data_handshake (key : bytes) (socket : Socket) :
    proc RegistryRequest (result AppError unit) :=
  let? frame := read_frame via id in
  if is_err (require_kind frame Data) || is_err (require_type frame TDataHello)
  then reject ProtocolErr
  else
  match DataHello_decode (payload frame) with
  | Err error => reject (code error)
  | Ok hello =>
  present ← handle_peek (dh_session_id hello) (dh_request_id hello);
  if negb present then reject RequestUnavailable
  else
  let? server_nonce := random 32 via id in
  let transcript := data_transcript hello server_nonce in
  let server_mac := mac hmac key LABEL_DATA_SERVER transcript in
  let? _ := write_frame (mkFrame TDataChallenge
    (DataChallenge_encode (mkDataChallenge server_nonce server_mac))) via id in
  let? frame := read_frame via id in
  if is_err (require_kind frame Data) || is_err (require_type frame TDataProof)
  then reject ProtocolErr
  else if negb (verify hmac key LABEL_DATA_CLIENT transcript (payload frame))
  then reject AuthFailed
  else
  outcome ← handle_claim (dh_session_id hello) (dh_request_id hello) socket;
  match outcome with
  | Delivered => Ret (Ok ())
  | Rejected c (Some _) => reject c
  | Rejected _ None => Ret (Err (AppRuntime "data connection lost"))
  end
  end.

(** [server::data::serve]. *)
Definition serve_data {S} (W : World RegistryRequest S) (budget : nat) (key : bytes)
    (socket : Socket) (c : Conn S) : result AppError unit * Conn S :=
  match run_for W budget (data_handshake key socket) c with
  | (None, c) => (Ok (), c)
  | (Some r, c) => (r, c)
  end.
End handshakes.
