(* ===== verification/HandshakeFacts.v ===== *)
(** * What the handshakes establish *)

From Stdlib Require Import Strings.String Strings.Byte.
From S2P Require Import Prelude Errors Io Protocol ProtocolFacts Auth Runtime Timing Net Config.
From S2P Require Import Registry Handshake.

Local Open Scope Z_scope.

(** ** Runs in any world *)

Section runs.
Context {R : Type → Type} {S : Type} (W : World R S).
Implicit Types c : Conn S.

Lemma run_try_Ok {E F A B} (conv : F → E) (p : proc R (result F A))
    (k : A → proc R (result E B)) c b c' :
  run W (try_with conv p k) c = (Ok b, c') ↔
  ∃ a c1, run W p c = (Ok a, c1) ∧ run W (k a) c1 = (Ok b, c').
Proof.
  rewrite run_try. destruct (run W p c) as [[a|e] c1]; [naive_solver|].
  split; [done|naive_solver].
Qed.

Lemma run_try_Err {E F A B} (conv : F → E) (p : proc R (result F A))
    (k : A → proc R (result E B)) c e c' :
  run W (try_with conv p k) c = (Err e, c') →
  (∃ f, run W p c = (Err f, c') ∧ e = conv f) ∨
  ∃ a c1, run W p c = (Ok a, c1) ∧ run W (k a) c1 = (Err e, c').
Proof. rewrite run_try. destruct (run W p c) as [[a|f] c1]; naive_solver. Qed.

Lemma run_Ret {A} (a : A) c r : run W (Ret a) c = r ↔ (a, c) = r.
Proof. done. Qed.

(** What a step that succeeds has done to the connection. *)
Definition wrote (bs : bytes) c c' : Prop :=
  inbound c' = inbound c ∧ outbound c' = outbound c ++ bs ∧ served c' = served c.

Definition took (bs : bytes) c c' : Prop :=
  inbound c = bs ++ inbound c' ∧ outbound c' = outbound c ∧ served c' = served c.

Lemma run_read_exact_Ok n c bs c' :
  run W (perform (ReadExact n)) c = (Ok bs, c') → length bs = n ∧ took bs c c'.
Proof.
  rewrite run_perform. destruct c as [i w s t]. simpl.
  destruct (read_error W t); [done|]. case_decide; [|done]. intros [= <- <-].
  unfold took. simpl. rewrite length_take, take_drop. split; [lia|done].
Qed.

Lemma run_write_all_Ok bs c u c' :
  run W (perform (WriteAll bs)) c = (Ok u, c') → wrote bs c c'.
Proof.
  rewrite run_perform. destruct c as [i w s t]. simpl.
  destruct (write_error W t) as [[]|]; [done|]. by intros [= <- <-].
Qed.

Lemma run_flush_Ok c u c' : run W (perform Flush) c = (Ok u, c') → wrote [] c c'.
Proof.
  rewrite run_perform. destruct c as [i w s t]. simpl.
  destruct (write_error W t) as [[]|]; [done|]. intros [= <- <-].
  unfold wrote. simpl. by rewrite app_nil_r.
Qed.

(** A frame that was read was on the wire, with the length of its type. *)
Lemma run_read_frame_Ok c f c' :
  run W read_frame c = (Ok f, c') → wf_frame f ∧ took (frame_encode f) c c'.
Proof.
  unfold read_frame. intros (h & c1 & H1 & H)%run_try_Ok.
  apply run_read_exact_Ok in H1 as [Hl (I1 & O1 & S1)]. unfold HEADER_LEN in Hl.
  case_decide; [done|]. apply run_try_Ok in H as (t & c2 & Ht & H).
  apply run_Ret in Ht. injection Ht as Ht <-. case_decide as Hd; [done|].
  apply run_try_Ok in H as (p & c3 & H3 & H). apply run_Ret in H. injection H as <- <-.
  apply run_read_exact_Ok in H3 as [Hp (I3 & O3 & S3)].
  split; [unfold wf_frame; simpl; lia|]. unfold took. rewrite I1, I3, O3, O1, S3, S1.
  split; [|done]. unfold frame_encode. simpl ty. simpl payload. rewrite Hp.
  pose proof (from_be_bound [byte_at 1 h; byte_at 2 h]). rewrite Z2Nat.id by lia.
  rewrite (to_from_be 2), (Type_u8_from_u8 _ _ Ht) by done.
  by destruct h as [|a [|b [|d []]]].
Qed.

Lemma run_write_frame_Ok f c u c' :
  run W (write_frame f) c = (Ok u, c') → wrote (frame_encode f) c c'.
Proof.
  unfold write_frame. case_decide as Hd; [done|].
  intros (u1 & c1 & H1 & H)%run_try_Ok. apply run_write_all_Ok in H1 as (I1 & O1 & S1).
  apply run_try_Ok in H as (u2 & c2 & H2 & [= _ <-]).
  apply run_flush_Ok in H2 as (I2 & O2 & S2).
  unfold wrote. by rewrite I2, I1, O2, O1, S2, S1, app_nil_r.
Qed.

Lemma run_random_Ok n c bs c' :
  run W (random n) c = (Ok bs, c') →
  entropy W (ticks c) n = Ok bs ∧ ticks c' = Datatypes.S (ticks c) ∧ wrote [] c c'.
Proof.
  unfold random. rewrite run_bind, run_perform. destruct c as [i w s t]. simpl.
  destruct (entropy W t n); intros [= <- <-]. unfold wrote. simpl. by rewrite app_nil_r.
Qed.

Lemma run_write_preamble_Ok k c u c' :
  run W (write_preamble k) c = (Ok u, c') → wrote (encode_preamble k) c c'.
Proof.
  unfold write_preamble. intros (u1 & c1 & H & [= _ <-])%run_try_Ok.
  by apply run_write_all_Ok in H.
Qed.

Lemma require_kind_Ok f k u : require_kind f k = Ok u →
  (match k with Control => is_control (ty f) | Data => is_data (ty f) end) = true.
Proof. unfold require_kind. destruct k; [by destruct (is_control _)|by destruct (is_data _)]. Qed.

Lemma require_type_Ok f t u : require_type f t = Ok u → ty f = t.
Proof. unfold require_type. by repeat case_decide. Qed.

Lemma frame_eta f t : ty f = t → f = mkFrame t (payload f).
Proof. intros <-. by destruct f. Qed.

(** Programs that make no request to the registry. *)
Fixpoint no_requests {A} (p : proc R A) : Prop :=
  match p with
  | Ret _ => True
  | Vis o k => request_of o = [] ∧ ∀ x, no_requests (k x)
  end.

Lemma no_requests_requests {A} (p : proc R A) c : no_requests p → requests W p c = [].
Proof.
  revert c. induction p as [a|X o k IH]; intros c; simpl; [done|].
  intros [Ho Hk]. destruct (answer W o c) as [x c']. rewrite Ho. by apply IH.
Qed.

Lemma no_requests_bind {A B} (p : proc R A) (f : A → proc R B) :
  no_requests p → (∀ a, no_requests (f a)) → no_requests (p ≫= f).
Proof.
  intros Hp Hf. induction p as [a|X o k IH]; [apply Hf|].
  destruct Hp as [Ho Hk]. split; [done|]. intros x. apply IH, Hk.
Qed.

Lemma no_requests_try {E F A B} (conv : F → E) (p : proc R (result F A))
    (k : A → proc R (result E B)) :
  no_requests p → (∀ a, no_requests (k a)) → no_requests (try_with conv p k).
Proof. intros Hp Hk. apply no_requests_bind; [done|]. by intros [a|e]. Qed.

Lemma no_requests_read_frame : no_requests read_frame.
Proof.
  apply no_requests_try; [done|intros h; cbv beta zeta]. case_decide; [done|].
  apply no_requests_try; [done|intros t; cbv beta zeta]. case_decide; [done|].
  by apply no_requests_try.
Qed.

Lemma no_requests_write_frame f : no_requests (write_frame f).
Proof.
  unfold write_frame. case_decide; [done|]. apply no_requests_try; [done|intros _].
  by apply no_requests_try.
Qed.

Lemma no_requests_random n : no_requests (random n).
Proof. by apply no_requests_bind. Qed.
End runs.

(** Takes the steps of a run that succeeded apart. *)
Ltac run_inv H :=
  lazymatch type of H with
  | run _ (try_with _ (Ret _) _) _ = (Ok _, _) =>
      let a := fresh "a" in let c := fresh "c" in let E := fresh "E" in
      apply run_try_Ok in H as (a & c & E & H); apply run_Ret in E; injection E as E <-
  | run _ (try_with _ _ _) _ = (Ok _, _) =>
      let a := fresh "a" in let c := fresh "c" in let E := fresh "E" in
      apply run_try_Ok in H as (a & c & E & H)
  end.

Section facts.
Context (hmac : bytes → bytes → bytes).
Context {R : Type → Type} {S : Type} (W : World R S).
Implicit Types c : Conn S.

(** What the server has seen and said when it accepts a client. *)
Definition control_exchange (key : bytes) (h : ControlHello) (n : Nonce) (s : SessionId)
    (taken written : bytes) : Prop :=
  let transcript := control_transcript h n s in
  taken = frame_encode (mkFrame TControlHello (ControlHello_encode h)) ++
          frame_encode (mkFrame TControlProof (mac hmac key LABEL_CONTROL_CLIENT transcript)) ∧
  written = frame_encode (mkFrame TControlChallenge (ControlChallenge_encode
              (mkControlChallenge n s (mac hmac key LABEL_CONTROL_SERVER transcript)))).

(** The server accepts a control connection only from a peer that proves
    the key on the transcript of this very connection: in any world, if the
    handshake succeeds, the peer sent a valid CONTROL_HELLO and then the MAC,
    under the server's key, of a transcript with the nonce and session
    identifier the server drew for this connection; the server sent its one
    challenge and took nothing beyond those two frames from the stream. *)
Lemma control_handshake_sound key c a c' :
  run W (control_handshake hmac key) c = (Ok a, c') →
  ∃ n s t taken written,
    entropy W t 32 = Ok n ∧ entropy W (Datatypes.S t) 16 = Ok s ∧
    wf_hello (au_hello a) ∧ valid_request (au_hello a) ∧
    au_session_id a = s ∧ au_transcript a = control_transcript (au_hello a) n s ∧
    inbound c = taken ++ inbound c' ∧ outbound c' = outbound c ++ written ∧
    control_exchange key (au_hello a) n s taken written.
Proof.
  unfold control_handshake. intros H. do 8 run_inv H.
  do 2 run_inv H.
  destruct (negb _) eqn:Hv; [done|]. apply run_Ret in H. injection H as <- <-. simpl.
  apply negb_false_iff, bool_decide_eq_true in Hv.
  apply run_read_frame_Ok in E as [_ (I1 & O1 & _)], E6 as [_ (I2 & O2 & _)].
  apply run_random_Ok in E3 as (N1 & T1 & J1 & P1 & _), E4 as (N2 & T2 & J2 & P2 & _).
  apply run_write_frame_Ok in E5 as (J3 & P3 & _).
  apply require_type_Ok, frame_eta in E1. apply require_type_Ok, frame_eta in E8.
  apply ControlHello_decode_exact in E2 as (Hwf & Hval & Hp).
  eexists a4, a5, (ticks c0), _, _. rewrite <-T1.
  split_and!; try done.
  - rewrite I1, <-J1, <-J2, <-J3, I2, E1, E8, Hp, <-Hv. by rewrite <-app_assoc.
  - by rewrite O2, P3, P2, P1, O1, !app_nil_r.
Qed.

Context (io_text : IoError → string).

Lemma server_refusal_None f : server_refusal f = None → ty f ≠ TError.
Proof. unfold server_refusal. by case_decide. Qed.

(** What a registration that succeeded went through. *)
Lemma client_register_run key instance m requested c se c' :
  run W (client_register hmac io_text key instance m requested) c = (Ok se, c') →
  ∃ n t ch rg,
    let h := mkControlHello instance n m requested in
    let transcript := control_transcript h (cc_nonce ch) (cc_session_id ch) in
    entropy W t 32 = Ok n ∧ wf_challenge ch ∧ wf_registered rg ∧
    cc_mac ch = mac hmac key LABEL_CONTROL_SERVER transcript ∧
    ready_mac rg = mac hmac key LABEL_CONTROL_READY
      (ready_transcript transcript (assigned_port rg) (max_connections rg)) ∧
    (requested ≠ 0 → assigned_port rg = requested) ∧
    se_session_id se = cc_session_id ch ∧ se_assigned_port se = assigned_port rg ∧
    se_max_connections se = max_connections rg ∧
    inbound c = frame_encode (mkFrame TControlChallenge (ControlChallenge_encode ch)) ++
      frame_encode (mkFrame TRegistered (Registered_encode rg)) ++ inbound c' ∧
    outbound c' = outbound c ++ encode_preamble Control ++
      frame_encode (mkFrame TControlHello (ControlHello_encode h)) ++
      frame_encode (mkFrame TControlProof (mac hmac key LABEL_CONTROL_CLIENT transcript)).
Proof.
  unfold client_register. intros H. do 5 run_inv H.
  destruct (server_refusal a2) eqn:Hr1; [done|]. do 2 run_inv H.
  destruct (negb _) eqn:Hv1; [done|]. do 3 run_inv H.
  destruct (server_refusal a7) eqn:Hr2; [done|]. do 2 run_inv H.
  destruct (negb (verify _ _ LABEL_CONTROL_READY _ _)) eqn:Hv2; [done|].
  destruct (decide (_ ∧ _)) as [|Hport]; [done|]. apply run_Ret in H. injection H as <- <-.
  apply negb_false_iff, bool_decide_eq_true in Hv1, Hv2.
  apply run_write_preamble_Ok in E as (I0 & O0 & _).
  apply run_random_Ok in E0 as (N & _ & I1 & O1 & _).
  apply run_write_frame_Ok in E1 as (I2 & O2 & _), E6 as (I4 & O4 & _).
  apply run_read_frame_Ok in E2 as [_ (I3 & O3 & _)], E7 as [_ (I5 & O5 & _)].
  apply require_type_Ok, frame_eta in E4. apply require_type_Ok, frame_eta in E9.
  apply ControlChallenge_decode_exact in E5 as [Hw1 Hp1].
  apply Registered_decode_exact in E10 as [Hw2 Hp2].
  eexists a0, _, a5, a10. split_and!; try done.
  - intros Hq. destruct (decide (assigned_port a10 = requested)); [done|]. by destruct Hport.
  - by rewrite <-I0, <-I1, <-I2, I3, <-I4, I5, E4, E9, Hp1, Hp2.
  - rewrite O5, O4, O3, O2, O1, O0, app_nil_r. by rewrite <-!app_assoc.
Qed.

(** The port of a registration that succeeded is one the server may assign, and
    the requested one if one was requested. *)
Lemma client_register_port key instance m requested c se c' :
  run W (client_register hmac io_text key instance m requested) c = (Ok se, c') →
  1024 <= se_assigned_port se <= 65535 ∧
  (requested ≠ 0 → se_assigned_port se = requested).
Proof.
  intros (n & t & ch & rg & _ & _ & (Hp & _) & _ & _ & Hr & _ & -> & _)%client_register_run.
  split; [lia|done].
Qed.

(** (C13) The client registers only with a server that proves the key, twice:
    in any world, if [register] succeeds, the server sent a challenge whose
    MAC, under the client's key, covers the client's own hello with the nonce
    just drawn, and a REGISTERED whose MAC covers that transcript with the
    assigned port and maximum; the port is unprivileged and is the requested
    one if one was requested; the client sent preamble, hello and proof and
    took nothing beyond those two frames. *)
Theorem client_register_sound key instance m requested c se c' :
  run W (client_register hmac io_text key instance m requested) c = (Ok se, c') →
  ∃ n t ch rg,
    let h := mkControlHello instance n m requested in
    let transcript := control_transcript h (cc_nonce ch) (cc_session_id ch) in
    entropy W t 32 = Ok n ∧ wf_challenge ch ∧ wf_registered rg ∧
    cc_mac ch = mac hmac key LABEL_CONTROL_SERVER transcript ∧
    ready_mac rg = mac hmac key LABEL_CONTROL_READY
      (ready_transcript transcript (assigned_port rg) (max_connections rg)) ∧
    (requested ≠ 0 → assigned_port rg = requested) ∧
    se_session_id se = cc_session_id ch ∧ se_assigned_port se = assigned_port rg ∧
    se_max_connections se = max_connections rg ∧
    inbound c = frame_encode (mkFrame TControlChallenge (ControlChallenge_encode ch)) ++
      frame_encode (mkFrame TRegistered (Registered_encode rg)) ++ inbound c' ∧
    outbound c' = outbound c ++ encode_preamble Control ++
      frame_encode (mkFrame TControlHello (ControlHello_encode h)) ++
      frame_encode (mkFrame TControlProof (mac hmac key LABEL_CONTROL_CLIENT transcript)).
Proof. apply client_register_run. Qed.

(** The client retries only when the transport failed or the server is
    busy: every other way [register] can fail (a protocol violation, a
    failed proof, a refusal with any other code, no entropy) ends the
    process. *)
Lemma client_register_retries key instance m requested c msg c' :
  run W (client_register hmac io_text key instance m requested) c = (Err (FRetry msg), c') →
  (∃ e, msg = io_text e) ∨ msg = message ServerBusy.
Proof.
  assert (∀ e msg, FRetry msg = transport io_text e → ∃ i, msg = io_text i) as Htr.
  { intros [] ? [= ->]. eauto. }
  assert (∀ f msg, server_refusal f = Some (FRetry msg) → msg = message ServerBusy) as Href.
  { intros f msg0. unfold server_refusal, classify. case_decide; [|done].
    destruct (decode_error _) as [k|]; [|done]. destruct (is_fatal_for_client k) eqn:E; [done|].
    intros [= <-]. by destruct k. }
  unfold client_register. intros H.
  repeat lazymatch type of H with
  | run _ (try_with _ _ _) _ = _ =>
      apply run_try_Err in H as [(? & _ & H)|(? & ? & _ & H)];
      [first [discriminate H|left; by eapply Htr]|]
  | run _ (match server_refusal ?f with _ => _ end) _ = _ =>
      let E := fresh "E" in destruct (server_refusal f) eqn:E;
      [apply run_Ret in H; injection H as -> _; right; by eapply Href|]
  | run _ (if negb ?b then _ else _) _ = _ => destruct (negb b); [discriminate H|]
  | run _ (if decide ?P then _ else _) _ = _ => destruct (decide P); [discriminate H|]
  | _ => discriminate H
  end.
Qed.

(** The client starts forwarding on a data connection only after a server
    that proves the key on this very request has said DATA_READY, and it
    takes not one byte more: what follows DATA_READY is application data and
    stays in the stream. *)
Lemma client_data_handshake_sound key sid rid c u c' :
  run W (client_data_handshake hmac key sid rid) c = (Ok u, c') →
  ∃ n t ch,
    let h := mkDataHello sid rid n in
    let transcript := data_transcript h (dc_nonce ch) in
    entropy W t 32 = Ok n ∧ wf_data_challenge ch ∧
    dc_mac ch = mac hmac key LABEL_DATA_SERVER transcript ∧
    inbound c = frame_encode (mkFrame TDataChallenge (DataChallenge_encode ch)) ++
      frame_encode (frame_empty TDataReady) ++ inbound c' ∧
    outbound c' = outbound c ++ encode_preamble Data ++
      frame_encode (mkFrame TDataHello (DataHello_encode h)) ++
      frame_encode (mkFrame TDataProof (mac hmac key LABEL_DATA_CLIENT transcript)).
Proof.
  unfold client_data_handshake. intros H. do 5 run_inv H.
  destruct (decide _) as [|Ht1]; [run_inv H; rewrite run_bind in H; by destruct (run W (perform CloseWrite) _)|]. do 2 run_inv H.
  destruct (negb _) eqn:Hv1; [done|]. do 3 run_inv H.
  destruct (decide _) as [|Ht2]; [by run_inv H|]. run_inv H. apply run_Ret in H.
  injection H as _ <-. apply negb_false_iff, bool_decide_eq_true in Hv1.
  apply run_write_preamble_Ok in E as (I0 & O0 & _).
  apply run_random_Ok in E0 as (N & _ & I1 & O1 & _).
  apply run_write_frame_Ok in E1 as (I2 & O2 & _), E6 as (I4 & O4 & _).
  apply run_read_frame_Ok in E2 as [_ (I3 & O3 & _)], E7 as [Hw (I5 & O5 & _)].
  apply require_type_Ok, frame_eta in E4. apply require_type_Ok in E9.
  apply DataChallenge_decode_exact in E5 as [Hw1 Hp1].
  assert (a7 = frame_empty TDataReady) as Hf.
  { unfold wf_frame in Hw. rewrite E9 in Hw. apply nil_length_inv in Hw.
    destruct a7; simpl in *; by subst. }
  eexists a0, _, a5. split_and!; try done.
  - by rewrite <-I0, <-I1, <-I2, I3, <-I4, I5, E4, Hf, Hp1.
  - rewrite O5, O4, O3, O2, O1, O0, app_nil_r. by rewrite <-!app_assoc.
Qed.
End facts.

(** ** Requests of the data handshake *)

Section data.
Context (hmac : bytes → bytes → bytes).
Context {S : Type} (W : World RegistryRequest S).
Implicit Types c : Conn S.

Definition sent (cmd : Command) : {X & RegistryRequest X} := existT _ (Send cmd).

Lemma requests_send_command cmd c :
  requests W (send_command cmd) c = [sent cmd].
Proof.
  unfold send_command. destruct c as [i w s t]. simpl.
  by destruct (serve_request W _ (Send cmd) s).
Qed.

Lemma requests_handle_peek sid rid c :
  requests W (handle_peek sid rid) c = [sent (CPeekData sid rid)].
Proof.
  unfold handle_peek. rewrite requests_bind, requests_send_command.
  match goal with |- context [run W ?p c] => by destruct (run W p c) end.
Qed.

Lemma requests_handle_claim sid rid socket c :
  requests W (handle_claim sid rid socket) c = [sent (CClaimData sid rid socket)].
Proof.
  unfold handle_claim. rewrite requests_bind, requests_send_command.
  match goal with |- context [run W ?p c] => by destruct (run W p c) end.
Qed.

(** Answering the peek takes nothing from the stream. *)
Lemma run_handle_peek sid rid c b c' :
  run W (handle_peek sid rid) c = (b, c') → inbound c' = inbound c.
Proof.
  unfold handle_peek, send_command. rewrite run_bind, run_perform.
  destruct c as [i w s t]. simpl. destruct (serve_request W _ _ s). by intros [= _ <-].
Qed.

Lemma no_requests_reject k : no_requests (reject k).
Proof.
  apply no_requests_bind; [apply no_requests_write_frame|intros _]. by apply no_requests_bind.
Qed.

Lemma requests_reject k c : requests W (reject k) c = [].
Proof. apply no_requests_requests, no_requests_reject. Qed.

(** The peer's bytes of a data handshake that passes. *)
Definition data_exchange (key : bytes) (h : DataHello) (i : bytes) : Prop :=
  ∃ n t rest, entropy W t 32 = Ok n ∧ wf_data_hello h ∧
    i = frame_encode (mkFrame TDataHello (DataHello_encode h)) ++
        frame_encode (mkFrame TDataProof
          (mac hmac key LABEL_DATA_CLIENT (data_transcript h n))) ++ rest.

Lemma is_err_false {E A} (r : result E A) : is_err r = false → ∃ a, r = Ok a.
Proof. destruct r; naive_solver. Qed.

(** All the requests the data handshake can make. *)
Lemma requests_data_handshake key socket c :
  let l := requests W (data_handshake hmac key socket) c in
  l = [] ∨ ∃ h,
    l = [sent (CPeekData (dh_session_id h) (dh_request_id h))] ∨
    (l = [sent (CPeekData (dh_session_id h) (dh_request_id h));
          sent (CClaimData (dh_session_id h) (dh_request_id h) socket)] ∧
     data_exchange key h (inbound c)).
Proof.
  unfold data_handshake. rewrite requests_try, (no_requests_requests _ _ _ no_requests_read_frame).
  destruct (run W read_frame c) as [[f|e] c1] eqn:Hf; [|by left].
  destruct (is_err _ || is_err _) eqn:Hk; [left; apply requests_reject|].
  destruct (DataHello_decode (payload f)) as [h|e] eqn:Hh; [|left; apply requests_reject].
  right. exists h. rewrite requests_bind, requests_handle_peek. cbn [app].
  destruct (run W (handle_peek (dh_session_id h) (dh_request_id h)) c1) as [b c2] eqn:Hb. cbv beta.
  destruct b; cbn [negb]; [|left; by rewrite requests_reject].
  rewrite requests_try, (no_requests_requests _ _ _ (no_requests_random 32)). cbn [app].
  destruct (run W (random 32) c2) as [[n|e] c3] eqn:Hn; [|by left].
  rewrite requests_try, (no_requests_requests _ _ _ (no_requests_write_frame _)). cbn [app].
  match goal with |- context [run W (write_frame ?x) c3] => set (ch := x) end.
  destruct (run W (write_frame ch) c3) as [[u|e] c4] eqn:Hw; [|by left].
  rewrite requests_try, (no_requests_requests _ _ _ no_requests_read_frame). cbn [app].
  destruct (run W read_frame c4) as [[g|e] c5] eqn:Hg; [|by left].
  destruct (is_err (require_kind g Data) || is_err (require_type g TDataProof)) eqn:Hk2;
    [left; by rewrite requests_reject|].
  destruct (negb (verify _ _ _ _ (payload g))) eqn:Hv; [left; by rewrite requests_reject|].
  right. split.
  - rewrite requests_bind, requests_handle_claim. cbn [app].
    destruct (run W (handle_claim (dh_session_id h) (dh_request_id h) socket) c5) as [[|k [s|]] c6]; by rewrite ?requests_reject.
  - apply orb_false_iff in Hk as [_ [? Hk]%is_err_false].
    apply orb_false_iff in Hk2 as [_ [? Hk2]%is_err_false].
    apply negb_false_iff, bool_decide_eq_true in Hv.
    apply run_read_frame_Ok in Hf as [_ (I1 & _)], Hg as [_ (I2 & _)].
    apply run_handle_peek in Hb. apply run_random_Ok in Hn as (N & _ & I3 & _).
    apply run_write_frame_Ok in Hw as (I4 & _).
    apply require_type_Ok, frame_eta in Hk, Hk2.
    apply DataHello_decode_exact in Hh as [Hwf Hp].
    exists n, (ticks c2), (inbound c5). split_and!; try done.
    rewrite I1, <-Hb, <-I3, <-I4, I2, Hk, Hk2, Hp, <-Hv. done.
Qed.

(** A pending request is claimed only for a data connection that proves
    the key on it: in any world and under any timeout, the data handshake asks
    the registry for the request named in the peer's DATA_HELLO and no other,
    at most once, handing over this very socket, and only after the peer has
    sent the MAC, under the server's key, of a transcript with that hello and
    the nonce the server drew for this connection. *)
Lemma data_claim_sound budget key socket c sid rid s :
  sent (CClaimData sid rid s) ∈ requests_for W budget (data_handshake hmac key socket) c →
  s = socket ∧
  ∃ h, dh_session_id h = sid ∧ dh_request_id h = rid ∧ data_exchange key h (inbound c) ∧
    requests_for W budget (data_handshake hmac key socket) c =
      [sent (CPeekData sid rid); sent (CClaimData sid rid socket)].
Proof.
  intros Hin. destruct (requests_for_prefix W budget (data_handshake hmac key socket) c)
    as [l Hl]. revert Hin Hl.
  generalize (requests_for W budget (data_handshake hmac key socket) c). intros l0 Hin Hl.
  destruct (requests_data_handshake key socket c) as [E|(h & [E|[E Hx]])]; rewrite E in Hl.
  - symmetry in Hl. apply app_eq_nil in Hl as [-> _]. by apply elem_of_nil in Hin.
  - destruct l0 as [|a [|b l0]]; [by apply elem_of_nil in Hin| |done].
    simpl in Hl. injection Hl as <-. apply list_elem_of_singleton in Hin. simplify_eq.
  - destruct l0 as [|a [|b l0]]; [by apply elem_of_nil in Hin| |].
    + simpl in Hl. injection Hl as <- _. apply list_elem_of_singleton in Hin. simplify_eq.
    + simpl in Hl. injection Hl as <- <- Hl. symmetry in Hl. apply app_eq_nil in Hl as [-> _].
      apply elem_of_cons in Hin as [Hin|Hin]; [simplify_eq|].
      apply list_elem_of_singleton in Hin. unfold sent in Hin. simplify_eq. eauto 10.
Qed.
End data.

(** ** Both sides together *)

Section forward.
Context {R : Type → Type} {S : Type} (W : World R S) (HW : reliable W).
Implicit Types c : Conn S.

Lemma run_read_frame_fwd c f rest :
  wf_frame f → inbound c = frame_encode f ++ rest →
  ∃ c', run W read_frame c = (Ok f, c') ∧ inbound c' = rest ∧ outbound c' = outbound c ∧
    served c' = served c.
Proof using HW.
  intros Hf Hi. destruct (run_read_frame_encode W HW f rest c Hf Hi) as [t Ht]. eauto.
Qed.

Lemma run_write_frame_fwd f c :
  wf_frame f → ∃ c', run W (write_frame f) c = (Ok (), c') ∧ wrote (frame_encode f) c c'.
Proof using HW.
  intros Hf. eexists. rewrite (run_write_frame W HW); [done|].
  unfold wf_frame in Hf. pose proof (payload_len_small (ty f)). unfold MAX_PAYLOAD. lia.
Qed.

Lemma run_random_fwd n bs c :
  (∀ t, entropy W t n = Ok bs) →
  ∃ c', run W (random n) c = (Ok bs, c') ∧ wrote [] c c'.
Proof using.
  intros He. unfold random. rewrite run_bind, run_perform. destruct c as [i w s t]. simpl.
  rewrite He. eexists. split; [done|]. unfold wrote. simpl. by rewrite app_nil_r.
Qed.

Lemma run_write_preamble_fwd k c :
  ∃ c', run W (write_preamble k) c = (Ok (), c') ∧ wrote (encode_preamble k) c c'.
Proof using HW.
  unfold write_preamble. rewrite run_try, (run_write_all W HW). eexists. done.
Qed.
End forward.

(** One step of a run forward, by a lemma that says how it goes. *)
Ltac run_fwd H :=
  let c := fresh "c" in let E := fresh "E" in
  let I := fresh "I" in let O := fresh "O" in
  destruct H as (c & E & I & O & _); rewrite run_try;
  lazymatch type of E with
  | run ?W ?p ?c0 = _ =>
      match goal with |- context [run W ?q c0] => change (run W q c0) with (run W p c0) end
  end; rewrite E; clear E; cbn beta iota.

(** The same for a step that makes no request, in a goal that also states the
    requests of the whole program. *)
Ltac ask_fwd H :=
  rewrite requests_try, no_requests_requests by
    first [apply no_requests_read_frame|apply no_requests_write_frame|apply no_requests_random];
  cbn [app]; run_fwd H.

Lemma run_try_Ret {R : Type → Type} {S} (W : World R S) {E F A B} (conv : F → E) (a : A)
    (k : A → proc R (result E B)) c :
  run W (try_with conv (Ret (Ok a)) k) c = run W (k a) c.
Proof. done. Qed.

(** The same for a step that computes. *)
Ltac run_pure H := rewrite H, run_try_Ret; cbn beta iota.

Lemma require_kind_ok f k :
  (match k with Control => is_control (ty f) | Data => is_data (ty f) end) = true →
  require_kind f k = Ok ().
Proof. unfold require_kind. by intros ->. Qed.

Lemma require_type_ok f t : ty f = t → require_type f t = Ok ().
Proof. intros. unfold require_type. by rewrite decide_True. Qed.

(** ** The frames of a control handshake *)

Section control_frames.
Context (hmac : bytes → bytes → bytes) (key : bytes).
Context (h : ControlHello) (sn : Nonce) (sid : SessionId).

Definition hello_frame : Frame := mkFrame TControlHello (ControlHello_encode h).
Definition control_challenge : ControlChallenge :=
  mkControlChallenge sn sid (mac hmac key LABEL_CONTROL_SERVER (control_transcript h sn sid)).
Definition challenge_frame : Frame :=
  mkFrame TControlChallenge (ControlChallenge_encode control_challenge).
Definition proof_frame : Frame :=
  mkFrame TControlProof (mac hmac key LABEL_CONTROL_CLIENT (control_transcript h sn sid)).
Definition accepted : Authenticated :=
  mkAuthenticated h sid (control_transcript h sn sid).

Context (Hmac : ∀ k m, length (hmac k m) = 32%nat).
Context (Hh : wf_hello h) (Hsn : length sn = 32%nat) (Hsid : length sid = 16%nat).

Lemma wf_hello_frame : wf_frame hello_frame.
Proof using Hh. by apply length_ControlHello_encode. Qed.

Lemma wf_proof_frame : wf_frame proof_frame.
Proof using Hmac. apply Hmac. Qed.

Lemma wf_control_challenge : wf_challenge control_challenge.
Proof using Hmac Hsn Hsid. split_and!; [done..|apply Hmac]. Qed.

Lemma wf_challenge_frame : wf_frame challenge_frame.
Proof using Hmac Hsn Hsid.
  destruct wf_control_challenge as (? & ? & ?).
  unfold wf_frame, challenge_frame, ControlChallenge_encode. cbn [payload].
  rewrite !length_app. simpl payload_len. lia.
Qed.

Lemma wf_registered_frame rg :
  1024 <= rg_assigned_port rg < 65536 → 0 < rg_max_connections rg < 2 ^ 32 →
  wf_frame (registered_frame hmac key accepted rg) ∧
  ∃ m, wf_registered m ∧ payload (registered_frame hmac key accepted rg) = Registered_encode m ∧
    m = mkRegistered (rg_assigned_port rg) (rg_max_connections rg)
          (mac hmac key LABEL_CONTROL_READY (ready_transcript (control_transcript h sn sid)
             (rg_assigned_port rg) (rg_max_connections rg))).
Proof using Hmac Hsn Hsid.
  intros Hp Hm. split.
  - unfold wf_frame, registered_frame, Registered_encode, mac.
    cbn [payload ty assigned_port max_connections ready_mac].
    rewrite !length_app, !length_to_be, Hmac. simpl payload_len. lia.
  - eexists. split; [|split; [reflexivity|done]].
    unfold wf_registered. cbn [assigned_port max_connections ready_mac].
    split_and!; [lia..|apply Hmac].
Qed.

(** The server's side, on what a client with the key writes. *)
Lemma control_handshake_runs {R S} (W : World R S) (HW : reliable W) c rest :
  valid_request h →
  (∀ t, entropy W t 32 = Ok sn) → (∀ t, entropy W t 16 = Ok sid) →
  inbound c = frame_encode hello_frame ++ frame_encode proof_frame ++ rest →
  ∃ c', run W (control_handshake hmac key) c = (Ok accepted, c') ∧
    inbound c' = rest ∧ outbound c' = outbound c ++ frame_encode challenge_frame.
Proof using Hmac Hh Hsn Hsid.
  intros Hv He1 He2 Hi. unfold control_handshake.
  run_fwd (run_read_frame_fwd W HW c hello_frame _ wf_hello_frame Hi).
  run_pure (require_kind_ok hello_frame Control eq_refl).
  run_pure (require_type_ok hello_frame TControlHello eq_refl).
  run_pure (proj2 (ControlHello_decode_exact (payload hello_frame) h)
    (conj Hh (conj Hv eq_refl))).
  run_fwd (run_random_fwd W 32 sn c0 He1). run_fwd (run_random_fwd W 16 sid c1 He2).
  run_fwd (run_write_frame_fwd W HW challenge_frame c2 wf_challenge_frame).
  rewrite I1, I0, I in I2.
  run_fwd (run_read_frame_fwd W HW c3 proof_frame rest wf_proof_frame I2).
  run_pure (require_kind_ok proof_frame Control eq_refl).
  run_pure (require_type_ok proof_frame TControlProof eq_refl).
  unfold verify. rewrite bool_decide_true by done. cbn [negb]. eexists. split; [done|].
  split; [done|]. by rewrite O3, O2, O1, O0, O, !app_nil_r.
Qed.

(** The client's side, on what a server with the key writes. *)
Lemma client_register_runs {R S} (W : World R S) (HW : reliable W) io_text rg c rest :
  (∀ t, entropy W t 32 = Ok (hello_nonce h)) →
  1024 <= rg_assigned_port rg < 65536 → 0 < rg_max_connections rg < 2 ^ 32 →
  (requested_port h ≠ 0 → rg_assigned_port rg = requested_port h) →
  inbound c = frame_encode challenge_frame ++
    frame_encode (registered_frame hmac key accepted rg) ++ rest →
  ∃ c', run W (client_register hmac io_text key (instance_id h) (mode h) (requested_port h)) c =
      (Ok (mkSession sid (mkSocketAddr (V4 0 0 0 0) 0) (rg_assigned_port rg)
             (rg_max_connections rg)), c') ∧
    inbound c' = rest ∧
    outbound c' = outbound c ++ encode_preamble Control ++
      frame_encode hello_frame ++ frame_encode proof_frame.
Proof using Hmac Hh Hsn Hsid.
  intros Hcn Hp Hm Hreq Hi. set (g2 := registered_frame hmac key accepted rg) in *.
  destruct (wf_registered_frame rg Hp Hm) as (W4 & m & Hrg & Epay & Em). fold g2 in W4, Epay.
  assert (mkControlHello (instance_id h) (hello_nonce h) (mode h) (requested_port h) = h)
    as Eta by by destruct h.
  unfold client_register. run_fwd (run_write_preamble_fwd W HW Control c).
  run_fwd (run_random_fwd W 32 (hello_nonce h) c0 Hcn). rewrite Eta.
  run_fwd (run_write_frame_fwd W HW hello_frame c1 wf_hello_frame).
  rewrite <-I, <-I0, <-I1 in Hi.
  run_fwd (run_read_frame_fwd W HW c2 challenge_frame _ wf_challenge_frame Hi).
  run_pure (require_kind_ok challenge_frame Control eq_refl).
  change (server_refusal challenge_frame) with (@None Failure).
  run_pure (require_type_ok challenge_frame TControlChallenge eq_refl).
  run_pure (proj2 (ControlChallenge_decode_exact (payload challenge_frame) _)
    (conj wf_control_challenge eq_refl)).
  unfold verify at 1. rewrite bool_decide_true by done. cbn [negb].
  run_fwd (run_write_frame_fwd W HW proof_frame c3 wf_proof_frame). rewrite <-I3 in I2.
  run_fwd (run_read_frame_fwd W HW c4 g2 rest W4 I2).
  run_pure (require_kind_ok g2 Control eq_refl). change (server_refusal g2) with (@None Failure).
  run_pure (require_type_ok g2 TRegistered eq_refl).
  run_pure (proj2 (Registered_decode_exact (payload g2) _) (conj Hrg Epay)).
  rewrite Em. unfold verify. rewrite bool_decide_true by done. cbn [negb].
  cbn [assigned_port max_connections]. rewrite decide_False by tauto.
  eexists. split; [done|]. split; [done|].
  rewrite O4, O3, O2, O1, O0, O, !app_nil_r. by rewrite <-!app_assoc.
Qed.
End control_frames.

(** (C19) Two sides with the same key agree.  Whatever the identifiers drawn,
    what the client writes makes the server's handshake succeed with exactly the
    client's hello, and what the server writes, followed by the REGISTERED it
    queues for a registration, makes the client's [register] succeed with the
    server's session identifier and the registration's port and maximum;
    neither side takes a byte of what comes after. *)
Theorem control_agreement hmac key h sn sid rg io_text
    {R R' : Type → Type} {S S' : Type} (Ws : World R S) (Wc : World R' S') :
  (∀ k m, length (hmac k m) = 32%nat) → reliable Ws → reliable Wc →
  wf_hello h → valid_request h → length sn = 32%nat → length sid = 16%nat →
  (∀ t, entropy Wc t 32 = Ok (hello_nonce h)) →
  (∀ t, entropy Ws t 32 = Ok sn) → (∀ t, entropy Ws t 16 = Ok sid) →
  1024 <= rg_assigned_port rg < 65536 → 0 < rg_max_connections rg < 2 ^ 32 →
  (requested_port h ≠ 0 → rg_assigned_port rg = requested_port h) →
  ∃ up down a,
    au_hello a = h ∧ au_session_id a = sid ∧
    (∀ c rest, inbound c = up ++ rest → ∃ c',
       run Ws (control_handshake hmac key) c = (Ok a, c') ∧
       inbound c' = rest ∧ outbound c' = outbound c ++ down) ∧
    (∀ c rest, inbound c = down ++ frame_encode (registered_frame hmac key a rg) ++ rest →
       ∃ c', run Wc (client_register hmac io_text key (instance_id h) (mode h)
                       (requested_port h)) c =
         (Ok (mkSession sid (mkSocketAddr (V4 0 0 0 0) 0) (rg_assigned_port rg)
                (rg_max_connections rg)), c') ∧
       inbound c' = rest ∧ outbound c' = outbound c ++ encode_preamble Control ++ up).
Proof.
  intros. exists (frame_encode (hello_frame h) ++ frame_encode (proof_frame hmac key h sn sid)),
    (frame_encode (challenge_frame hmac key h sn sid)), (accepted h sn sid).
  split_and!; [done..| |].
  - intros c rest Hi. rewrite <-app_assoc in Hi. by apply control_handshake_runs.
  - intros c rest Hi. by eapply client_register_runs.
Qed.

(** ** The frames of a data handshake *)

Section data_frames.
Context (hmac : bytes → bytes → bytes) (key : bytes) (h : DataHello) (sn : Nonce).

Definition data_hello_frame : Frame := mkFrame TDataHello (DataHello_encode h).
Definition data_challenge : DataChallenge :=
  mkDataChallenge sn (mac hmac key LABEL_DATA_SERVER (data_transcript h sn)).
Definition data_challenge_frame : Frame :=
  mkFrame TDataChallenge (DataChallenge_encode data_challenge).
Definition data_proof_frame : Frame :=
  mkFrame TDataProof (mac hmac key LABEL_DATA_CLIENT (data_transcript h sn)).

Context (Hmac : ∀ k m, length (hmac k m) = 32%nat).
Context (Hh : wf_data_hello h) (Hsn : length sn = 32%nat).

Lemma wf_data_hello_frame : wf_frame data_hello_frame.
Proof using Hh. by apply length_DataHello_encode. Qed.

Lemma wf_data_proof_frame : wf_frame data_proof_frame.
Proof using Hmac. apply Hmac. Qed.

Lemma wf_data_challenge_frame : wf_frame data_challenge_frame.
Proof using Hmac Hsn.
  unfold wf_frame, data_challenge_frame, DataChallenge_encode, mac.
  cbn [payload data_challenge dc_nonce dc_mac]. unfold mac.
  rewrite length_app, Hmac, Hsn. done.
Qed.

(** The registry answers that the request is there and takes the socket. *)
Definition grants {S} (W : World RegistryRequest S) : Prop :=
  (∀ sid rid s, (serve_request W _ (Send (CPeekData sid rid)) s).1 = Some (ReplyPeek true)) ∧
  (∀ sid rid k s, (serve_request W _ (Send (CClaimData sid rid k)) s).1 =
     Some (ReplyClaim Delivered)).

Lemma run_handle_granted {S} (W : World RegistryRequest S) sid rid k c :
  grants W →
  (∃ c', run W (handle_peek sid rid) c = (true, c') ∧
     inbound c' = inbound c ∧ outbound c' = outbound c) ∧
  (∃ c', run W (handle_claim sid rid k) c = (Delivered, c') ∧
     inbound c' = inbound c ∧ outbound c' = outbound c).
Proof using.
  intros [Hp Hc]. unfold handle_peek, handle_claim, send_command.
  rewrite !run_bind, !run_perform. destruct c as [i w s t]. simpl.
  specialize (Hp sid rid s). specialize (Hc sid rid k s).
  destruct (serve_request W _ (Send (CPeekData sid rid)) s).
  destruct (serve_request W _ (Send (CClaimData sid rid k)) s). simpl in *. subst. eauto 10.
Qed.

Lemma data_handshake_runs {S} (W : World RegistryRequest S) (HW : reliable W) socket c rest :
  grants W → (∀ t, entropy W t 32 = Ok sn) →
  inbound c = frame_encode data_hello_frame ++ frame_encode data_proof_frame ++ rest →
  ∃ c', run W (data_handshake hmac key socket) c = (Ok (), c') ∧
    requests W (data_handshake hmac key socket) c =
      [sent (CPeekData (dh_session_id h) (dh_request_id h));
       sent (CClaimData (dh_session_id h) (dh_request_id h) socket)] ∧
    inbound c' = rest ∧ outbound c' = outbound c ++ frame_encode data_challenge_frame.
Proof using Hmac Hh Hsn.
  intros Hg He Hi. unfold data_handshake.
  ask_fwd (run_read_frame_fwd W HW c data_hello_frame _ wf_data_hello_frame Hi).
  change (is_err (require_kind data_hello_frame Data) ||
    is_err (require_type data_hello_frame TDataHello)) with false. cbn iota.
  rewrite (proj2 (DataHello_decode_exact (payload data_hello_frame) h) (conj Hh eq_refl)).
  destruct (run_handle_granted W (dh_session_id h) (dh_request_id h) socket c0 Hg)
    as [(c1 & E1 & I1 & O1) _]. rewrite run_bind, requests_bind, requests_handle_peek, E1.
  cbn [negb app].
  ask_fwd (run_random_fwd W 32 sn c1 He).
  ask_fwd (run_write_frame_fwd W HW data_challenge_frame c2 wf_data_challenge_frame).
  rewrite I0, I1, I in I2.
  ask_fwd (run_read_frame_fwd W HW c3 data_proof_frame rest wf_data_proof_frame I2).
  change (is_err (require_kind data_proof_frame Data) ||
    is_err (require_type data_proof_frame TDataProof)) with false. cbn iota.
  unfold verify. rewrite bool_decide_true by done. cbn [negb].
  destruct (run_handle_granted W (dh_session_id h) (dh_request_id h) socket c4 Hg)
    as [_ (c5 & E5 & I5 & O5)]. rewrite run_bind, requests_bind, requests_handle_claim, E5.
  eexists. split; [done|]. split; [done|]. rewrite I5, O5. split; [done|].
  by rewrite O3, O2, O0, O1, O, !app_nil_r.
Qed.

Lemma client_data_handshake_runs {R S} (W : World R S) (HW : reliable W) c rest :
  (∀ t, entropy W t 32 = Ok (dh_nonce h)) →
  inbound c = frame_encode data_challenge_frame ++
    frame_encode (frame_empty TDataReady) ++ rest →
  ∃ c', run W (client_data_handshake hmac key (dh_session_id h) (dh_request_id h)) c =
      (Ok (), c') ∧ inbound c' = rest ∧
    outbound c' = outbound c ++ encode_preamble Data ++
      frame_encode data_hello_frame ++ frame_encode data_proof_frame.
Proof using Hmac Hh Hsn.
  intros Hcn Hi. unfold client_data_handshake.
  assert (mkDataHello (dh_session_id h) (dh_request_id h) (dh_nonce h) = h) as Eta
    by by destruct h.
  run_fwd (run_write_preamble_fwd W HW Data c).
  run_fwd (run_random_fwd W 32 (dh_nonce h) c0 Hcn). rewrite Eta.
  run_fwd (run_write_frame_fwd W HW data_hello_frame c1 wf_data_hello_frame).
  rewrite <-I, <-I0, <-I1 in Hi.
  run_fwd (run_read_frame_fwd W HW c2 data_challenge_frame _ wf_data_challenge_frame Hi).
  run_pure (require_kind_ok data_challenge_frame Data eq_refl).
  rewrite decide_False by done.
  run_pure (require_type_ok data_challenge_frame TDataChallenge eq_refl).
  run_pure (proj2 (DataChallenge_decode_exact (payload data_challenge_frame) data_challenge)
    (conj (conj Hsn (Hmac _ _)) eq_refl)).
  unfold verify. rewrite bool_decide_true by done. cbn [negb].
  run_fwd (run_write_frame_fwd W HW data_proof_frame c3 wf_data_proof_frame).
  rewrite <-I3 in I2.
  run_fwd (run_read_frame_fwd W HW c4 (frame_empty TDataReady) rest eq_refl I2).
  run_pure (require_kind_ok (frame_empty TDataReady) Data eq_refl).
  rewrite decide_False by done.
  run_pure (require_type_ok (frame_empty TDataReady) TDataReady eq_refl).
  eexists. split; [done|]. split; [done|].
  rewrite O4, O3, O2, O1, O0, O, !app_nil_r. by rewrite <-!app_assoc.
Qed.
End data_frames.

(** (C20) A data connection between two sides with the same key goes through:
    when the registry grants the request, what the client writes makes the
    server ask the registry for exactly two things, whether the request is
    pending and then to claim it with this very socket, and the server's
    challenge followed by DATA_READY makes the client's handshake succeed, with the
    application data behind it untouched on both sides. *)
Theorem data_agreement hmac key h sn socket
    {R : Type → Type} {S S' : Type} (Ws : World RegistryRequest S) (Wc : World R S') :
  (∀ k m, length (hmac k m) = 32%nat) → reliable Ws → reliable Wc → grants Ws →
  wf_data_hello h → length sn = 32%nat →
  (∀ t, entropy Wc t 32 = Ok (dh_nonce h)) → (∀ t, entropy Ws t 32 = Ok sn) →
  ∃ up down,
    (∀ c rest, inbound c = up ++ rest → ∃ c',
       run Ws (data_handshake hmac key socket) c = (Ok (), c') ∧
       requests Ws (data_handshake hmac key socket) c =
         [sent (CPeekData (dh_session_id h) (dh_request_id h));
          sent (CClaimData (dh_session_id h) (dh_request_id h) socket)] ∧
       inbound c' = rest ∧ outbound c' = outbound c ++ down) ∧
    (∀ c rest, inbound c = down ++ frame_encode (frame_empty TDataReady) ++ rest → ∃ c',
       run Wc (client_data_handshake hmac key (dh_session_id h) (dh_request_id h)) c =
         (Ok (), c') ∧
       inbound c' = rest ∧ outbound c' = outbound c ++ encode_preamble Data ++ up).
Proof.
  intros. exists (frame_encode (data_hello_frame h) ++ frame_encode (data_proof_frame hmac key h sn)),
    (frame_encode (data_challenge_frame hmac key h sn)). split.
  - intros c rest Hi. rewrite <-app_assoc in Hi. by apply data_handshake_runs.
  - intros c rest Hi. by apply client_data_handshake_runs.
Qed.
