(* ===== verification/Sessions.v ===== *)
(** * Established control connections

    The tasks both sides run on a control connection once it is registered: the
    writer and the reader ([writer_loop] and [read_frames] of
    [src/server/control.rs] and [src/client/control.rs], which are the same
    code on both sides), the server's [session_loop] with the end of [serve],
    and the client's [run_session] with [goodbye].

    A loop around [tokio::select! { biased; ... }] is modelled one turn at a
    time.  What is ready when a turn is taken (a cancellation, the clock, the
    ping interval, a frame) and the state of the writer queue at that moment
    come from outside; the order of the branches, what each branch does and
    what it carries over to the next turn are the program's. *)

From Stdlib Require Import Strings.String Strings.Byte.
From S2P Require Import Prelude Errors Io Protocol Auth Runtime Timing Net Config.
From S2P Require Import Registry Handshake.

Local Open Scope Z_scope.

(** ** Writer and reader *)

Section writer.
Context {R : Type → Type} {S : Type} (W : World R S).

(** [writer_loop], on the messages its queue yields until all senders are
    gone; [budget] is the write timeout of each frame. *)
Definition close_half (c : Conn S) : Conn S := (run W (perform CloseWrite) c).2.

Fixpoint writer_loop (budget : nat) (outbound : list Outbound) (c : Conn S) : Conn S :=
  match outbound with
  | [] => close_half c
  | OutFrame frame :: rest =>
      match run_for W budget (write_frame frame) c with
      | (Some (Ok _), c) => writer_loop budget rest c
      | (Some (Err _), c) | (None, c) => close_half c
      end
  | CloseAfterFlush :: _ => close_half c
  end.

(** [read_frames], for at most [fuel] frames: what it sends to the loop.  The
    kind of a frame is checked after the decision to stop, so a frame of the
    wrong kind is reported and reading goes on. *)
Fixpoint read_frames (fuel : nat) (c : Conn S) : list (result AppError Frame) * Conn S :=
  match fuel with
  | O => ([], c)
  | Datatypes.S fuel =>
      let '(frame, c) := run W read_frame c in
      let failed := is_err frame in
      let checked := frame ≫= λ frame,
        map_err AppProtocol (_ ← require_kind frame Control; Ok frame) in
      if failed then ([checked], c)
      else let '(l, c) := read_frames fuel c in (checked :: l, c)
  end.

(** The writer's task: when the loop is over it closes its half and cancels the
    token of the connection. *)
Definition writer_task (budget : nat) (outbound : list Outbound) (cancel : Token) (c : Conn S) :
    Conn S * list Token :=
  (writer_loop budget outbound c, [cancel]).

(** The client runs the same two tasks, with the token of its session. *)
Definition client_writer_task (budget : nat) (outbound : list Outbound) (session_cancel : Token)
    (c : Conn S) : Conn S * list Token :=
  writer_task budget outbound session_cancel c.

Definition client_read_frames (fuel : nat) (c : Conn S) :
    list (result AppError Frame) * Conn S :=
  read_frames fuel c.
End writer.

(** ** Loops

    The turns of a loop over what is ready: [step] takes a turn from a state,
    [next] is the state of the following turn, or [None] when the loop breaks. *)

Fixpoint turns {I St T} (step : I → St → T) (next : T → option St) (l : list I) (s : St) :
    list T :=
  match l with
  | [] => []
  | i :: l =>
      let t := step i s in
      match next t with
      | Some s => t :: turns step next l s
      | None => [t]
      end
  end.

(** ** One turn of a session loop *)

Record Heartbeat := mkHeartbeat {
  sequence : Z;
  outstanding : option (Z * Instant)
}.

Definition heartbeat_new : Heartbeat := mkHeartbeat 0 None.

Section loops.
Context {Sem Chan : Type} `{!Semaphore Sem, !Channel Outbound Chan}.
Context (timing : Timing).

(** What is ready when the turn is taken: the token of the process (client
    only), the token of the connection, the clock, the ping interval, the
    next frame ([Some None]: the reader is gone), and the writer queue. *)
Record Ready := mkReady {
  r_stop : bool;
  r_cancelled : bool;
  r_now : Instant;
  r_tick : bool;
  r_frame : option (option (result AppError Frame));
  r_writer : Chan
}.

Definition deadline_passed (rd : Ready) (hb : Heartbeat) : bool :=
  match outstanding hb with
  | Some (_, deadline) => bool_decide (deadline <= r_now rd)
  | None => false
  end.

(** [writer.try_send(..)], with the messages that went into the queue. *)
Definition push (m : Outbound) (q : Chan * list Outbound) : option (Chan * list Outbound) :=
  match try_send q.1 m with Some c => Some (c, q.2 ++ [m]) | None => None end.

(** The same with the result thrown away. *)
Definition push_ignore (m : Outbound) (q : Chan * list Outbound) : Chan * list Outbound :=
  default q (push m q).

Definition ping_frame (seq : Z) : Outbound := out_frame TPing (to_be 8 seq).
Definition pong_frame (seq : Z) : Outbound := out_frame TPong (to_be 8 seq).

(** A PONG clears the ping it answers. *)
Definition acknowledge (value : Z) (hb : Heartbeat) : Heartbeat :=
  match outstanding hb with
  | Some (expected, _) =>
      if decide (expected = value) then mkHeartbeat (sequence hb) None else hb
  | None => hb
  end.

(** The [ping.tick()] branch: [None] when the queue takes no message. *)
Definition tick (rd : Ready) (hb : Heartbeat) (q : Chan * list Outbound) :
    option (Heartbeat * (Chan * list Outbound)) :=
  match outstanding hb with
  | Some _ => Some (hb, q)
  | None =>
      let seq := wrapping_add 64 (sequence hb) 1 in
      match push (ping_frame seq) q with
      | Some q =>
          Some (mkHeartbeat seq (Some (seq, r_now rd + heartbeat_timeout timing)), q)
      | None => None
      end
  end.

(** ** Server: [session_loop] *)

Inductive ServerFlow :=
| SGoOn
| SBreak (clean : bool).

Record ServerTurn := mkServerTurn {
  st_flow : ServerFlow;
  st_beat : Heartbeat;
  st_sent : list Outbound;
  st_commands : list Command
}.

(** The [match frame.ty] of the loop. *)
Definition server_frame (sid : SessionId) (frame : Frame) (hb : Heartbeat)
    (q : Chan * list Outbound) : ServerTurn :=
  match ty frame with
  | TPing =>
      match decode_sequence (payload frame) with
      | Err _ => mkServerTurn (SBreak false) hb q.2 []
      | Ok value =>
          match push (pong_frame value) q with
          | Some q => mkServerTurn SGoOn hb q.2 []
          | None => mkServerTurn (SBreak false) hb q.2 []
          end
      end
  | TPong =>
      match decode_sequence (payload frame) with
      | Err _ => mkServerTurn (SBreak false) hb q.2 []
      | Ok value => mkServerTurn SGoOn (acknowledge value hb) q.2 []
      end
  | TOpenFailed =>
      match OpenFailed_decode (payload frame) with
      | Err _ => mkServerTurn (SBreak false) hb q.2 []
      | Ok m => mkServerTurn SGoOn hb q.2 [COpenFailed sid (of_request_id m) (reason m)]
      end
  | TGoodbye =>
      let q := push_ignore (out_frame TGoodbyeAck []) q in
      let q := push_ignore CloseAfterFlush q in
      mkServerTurn (SBreak true) hb q.2 []
  | TError => mkServerTurn (SBreak false) hb q.2 []
  | _ =>
      let q := push_ignore (out_error ProtocolErr) q in
      let q := push_ignore CloseAfterFlush q in
      mkServerTurn (SBreak false) hb q.2 []
  end.

Definition server_turn (sid : SessionId) (rd : Ready) (hb : Heartbeat) : ServerTurn :=
  let q := (r_writer rd, []) in
  if r_cancelled rd then mkServerTurn (SBreak false) hb [] []
  else if deadline_passed rd hb then mkServerTurn (SBreak false) hb [] []
  else if r_tick rd then
    match tick rd hb q with
    | Some (hb, q) => mkServerTurn SGoOn hb q.2 []
    | None => mkServerTurn (SBreak false) hb [] []
    end
  else
    match r_frame rd with
    | None => mkServerTurn SGoOn hb [] []
    | Some None => mkServerTurn (SBreak false) hb [] []
    | Some (Some (Err _)) => mkServerTurn (SBreak false) hb [] []
    | Some (Some (Ok frame)) => server_frame sid frame hb q
    end.

(** The loop: the turns it takes, up to the one that breaks it. *)
Definition server_next (t : ServerTurn) : option Heartbeat :=
  match st_flow t with SGoOn => Some (st_beat t) | SBreak _ => None end.

Definition session_loop (sid : SessionId) (l : list Ready) (hb : Heartbeat) :
    list ServerTurn :=
  turns (server_turn sid) server_next l hb.

(** Its result, once it has broken. *)
Definition session_clean (l : list ServerTurn) : option bool :=
  match last l with
  | Some t => match st_flow t with SBreak clean => Some clean | SGoOn => None end
  | None => None
  end.

(** ** Server: the rest of [serve] *)

Definition register_request (a : Authenticated) (w : WriterId) (data_cancel control_cancel : Token) :
    RegisterRequest := {|
  rq_session_id := au_session_id a;
  rq_instance_id := instance_id (au_hello a);
  rq_mode := mode (au_hello a);
  rq_requested_port := requested_port (au_hello a);
  rq_writer := w;
  rq_data_cancel := data_cancel;
  rq_control_cancel := control_cancel
|}.

(** What the task of [serve] does, one thing after the other. *)
Inductive ServeEffect :=
| Queues (m : Outbound)
| Tells (c : Command)
| Cancels (t : Token)
| AwaitsReader (budget : Duration)
| AwaitsWriter.

(** [writer.send(..).await], polled on the queue as it is each time: it waits
    while the queue is full, and fails only when the writer is gone.  [None]:
    it still waits. *)
Fixpoint send_waiting (m : Outbound) (polls : list Chan) : option (option Chan) :=
  match polls with
  | [] => None
  | w :: polls =>
      if chan_closed w then Some None
      else match try_send w m with
           | Some w => Some (Some w)
           | None => send_waiting m polls
           end
  end.

Definition turn_effects (t : ServerTurn) : list ServeEffect :=
  (Queues <$> st_sent t) ++ (Tells <$> st_commands t).

(** From the end of the loop of [session_loop] to the end of [serve]. *)
Definition serve_end (sid : SessionId) (g : Generation) (data_cancel control_cancel : Token)
    (clean : bool) : list ServeEffect :=
  [Cancels control_cancel; AwaitsReader (from_secs 1);
   Tells (if clean then CGoodbye sid g else CSessionLost sid g);
   Cancels data_cancel; Cancels control_cancel; AwaitsWriter].

(** What [serve] does with the answer of the registry: [polls] and
    [close_polls] are the queue as its sends find it, [l] what is ready at the
    turns of [session_loop].  The list stops where the task still waits. *)
Definition serve_registration (hmac : bytes → bytes → bytes) (key : bytes)
    (a : Authenticated) (data_cancel control_cancel : Token)
    (registration : result ErrorCode Registration) (polls close_polls : list Chan)
    (l : list Ready) : list ServeEffect :=
  let sid := au_session_id a in
  match registration with
  | Err c =>
      match send_waiting (out_error c) polls with
      | None => []
      | Some told =>
          (if told is Some _ then [Queues (out_error c)] else []) ++
          match send_waiting CloseAfterFlush close_polls with
          | None => []
          | Some closed =>
              (if closed is Some _ then [Queues CloseAfterFlush] else []) ++ [AwaitsWriter]
          end
      end
  | Ok rg =>
      let g := rg_generation rg in
      let registered := OutFrame (registered_frame hmac key a rg) in
      match send_waiting registered polls with
      | None => []
      | Some None => [Tells (CSessionLost sid g)]
      | Some (Some _) =>
          let ts := session_loop sid l heartbeat_new in
          Queues registered :: mjoin (turn_effects <$> ts) ++
          match session_clean ts with
          | Some clean => serve_end sid g data_cancel control_cancel clean
          | None => []
          end
      end
  end.

(** ** Client: [run_session] *)

(** [client::control::Attempt]. *)
Inductive Attempt :=
| Clean
| Fatal (e : AppError)
| Retry (m : string).

Inductive ClientFlow :=
| CGoOn
| CBreak (outcome : Attempt).

Record ClientTurn := mkClientTurn {
  ct_flow : ClientFlow;
  ct_beat : Heartbeat;
  ct_permits : Sem;
  ct_sent : list Outbound;
  ct_opened : list RequestId
}.

Context (io_text : IoError → string).

Definition attempt_of (f : Failure) : Attempt :=
  match f with FFatal e => Fatal e | FRetry m => Retry m end.

Definition client_frame (frame : Frame) (hb : Heartbeat) (permits : Sem)
    (q : Chan * list Outbound) : ClientTurn :=
  let break a := mkClientTurn (CBreak a) hb permits q.2 [] in
  match ty frame with
  | TOpen =>
      match decode_request_id (payload frame) with
      | Err _ => break (Fatal (app_protocol "malformed OPEN"))
      | Ok rid =>
          match try_acquire permits with
          | None =>
              let q := push_ignore
                (out_frame TOpenFailed (OpenFailed_encode (mkOpenFailed rid LocalCapacity))) q in
              mkClientTurn CGoOn hb permits q.2 []
          | Some permits => mkClientTurn CGoOn hb permits q.2 [rid]
          end
      end
  | TPing =>
      match decode_sequence (payload frame) with
      | Err _ => break (Fatal (app_protocol "malformed PING"))
      | Ok value =>
          match push (pong_frame value) q with
          | Some q => mkClientTurn CGoOn hb permits q.2 []
          | None => break (Retry "control queue unavailable")
          end
      end
  | TPong =>
      match decode_sequence (payload frame) with
      | Err _ => break (Fatal (app_protocol "malformed PONG"))
      | Ok value => mkClientTurn CGoOn (acknowledge value hb) permits q.2 []
      end
  | TServerShutdown => break (Retry "server is shutting down")
  | TError =>
      match decode_error (payload frame) with
      | Err _ => break (Fatal (app_protocol "malformed ERROR"))
      | Ok c => break (attempt_of (classify c))
      end
  | TGoodbyeAck => mkClientTurn CGoOn hb permits q.2 []
  | _ => break (Fatal (app_protocol "unexpected control message from the server"))
  end.

(** [goodbye]: the message.  It then waits for the acknowledgement, for the
    grace time at most, and only logs whether it came ([goodbye_acknowledged],
    on what the reader sends in that time). *)
Definition client_goodbye (q : Chan * list Outbound) : Attempt * (Chan * list Outbound) :=
  match push (out_frame TGoodbye []) q with
  | None => (Clean, q)
  | Some q => (Clean, q)
  end.

Definition goodbye_acknowledged (in_time : list (result AppError Frame)) : bool :=
  existsb (λ r, match r with Ok frame => bool_decide (ty frame = TGoodbyeAck) | Err _ => false end)
    in_time.

Definition client_turn (rd : Ready) (hb : Heartbeat) (permits : Sem) : ClientTurn :=
  let q := (r_writer rd, []) in
  let break a := mkClientTurn (CBreak a) hb permits [] [] in
  if r_stop rd then
    let '(outcome, q) := client_goodbye q in
    mkClientTurn (CBreak outcome) hb permits q.2 []
  else if r_cancelled rd then break (Retry "control connection closed")
  else if deadline_passed rd hb then break (Retry "no heartbeat reply from the server")
  else if r_tick rd then
    match tick rd hb q with
    | Some (hb, q) => mkClientTurn CGoOn hb permits q.2 []
    | None => break (Retry "control queue unavailable")
    end
  else
    match r_frame rd with
    | None => mkClientTurn CGoOn hb permits [] []
    | Some None => break (Retry "control connection closed")
    | Some (Some (Err (AppProtocol e))) => break (Fatal (AppProtocol e))
    | Some (Some (Err e)) => break (Retry (app_error_text io_text e))
    | Some (Some (Ok frame)) => client_frame frame hb permits q
    end.

(** Between two turns the tasks of some requests may end and give their
    permits back. *)
Fixpoint release_n (n : nat) (s : Sem) : Sem :=
  match n with O => s | Datatypes.S n => release (release_n n s) end.

Definition client_next (t : ClientTurn) : option (Heartbeat * Sem) :=
  match ct_flow t with
  | CGoOn => Some (ct_beat t, ct_permits t)
  | CBreak _ => None
  end.

Definition run_session (l : list (nat * Ready)) (hb : Heartbeat) (permits : Sem) :
    list ClientTurn :=
  turns (λ '(ended, rd) '(hb, permits), client_turn rd hb (release_n ended permits))
    client_next l (hb, permits).

(** [run_session] starts with a full semaphore. *)
Definition client_session (session : Session) (l : list (nat * Ready)) : list ClientTurn :=
  run_session l heartbeat_new (sem_new (Z.to_nat (se_max_connections session))).

(** What [run_session] does when its loop is over, whatever the outcome. *)
Inductive SessionEnding :=
| CancelSession
| DropWriter
| AwaitWriter (budget : Duration)
| AwaitReader (budget : Duration).

Definition session_ending : list SessionEnding :=
  [CancelSession; DropWriter; AwaitWriter (from_secs 1); AwaitReader (from_secs 1)].

Definition session_outcome (l : list ClientTurn) : option Attempt :=
  match last l with
  | Some t => match ct_flow t with CBreak a => Some a | CGoOn => None end
  | None => None
  end.
End loops.
Arguments Ready : clear implicits.
Arguments mkReady {Chan} _ _ _ _ _ _.
