(* ===== verification/SessionFacts.v ===== *)
(** * What an established control connection guarantees *)

From Stdlib Require Import Strings.String Strings.Byte.
From S2P Require Import Prelude Errors Io Protocol ProtocolFacts Auth Runtime Timing Net Config.
From S2P Require Import Registry Handshake HandshakeFacts Sessions.

Local Open Scope Z_scope.

(** ** Loops *)

Section turns.
Context {I St T : Type} (step : I → St → T) (next : T → option St).

Lemma turns_lookup l s i t :
  turns step next l s !! i = Some t → ∃ x s', l !! i = Some x ∧ t = step x s'.
Proof.
  revert s i. induction l as [|x l IH]; intros s i; simpl; [done|].
  destruct (next (step x s)) as [s'|]; (destruct i as [|i]; [intros [= <-]; eauto|]).
  - apply IH.
  - done.
Qed.

(** After a turn that goes on, the loop is the loop from there. *)
Lemma turns_after l s i t j u :
  turns step next l s !! i = Some t → turns step next l s !! (S i + j)%nat = Some u →
  ∃ s', next t = Some s' ∧ turns step next (drop (S i) l) s' !! j = Some u.
Proof.
  revert s i. induction l as [|x l IH]; intros s i; simpl; [done|].
  destruct (next (step x s)) as [s'|] eqn:E; destruct i as [|i]; try done.
  - intros [= <-] H. rewrite drop_0. eauto.
  - simpl. apply IH.
Qed.

(** The state a turn is taken from is the one the turn before left. *)
Lemma turns_state l s i t :
  turns step next l s !! i = Some t →
  ∃ x s', l !! i = Some x ∧ t = step x s' ∧
    match i with
    | O => s' = s
    | S j => ∃ u, turns step next l s !! j = Some u ∧ next u = Some s'
    end.
Proof.
  revert s i. induction l as [|x l IH]; intros s i; simpl; [done|].
  destruct (next (step x s)) as [s'|] eqn:E; destruct i as [|i]; try done;
    try (intros [= <-]; by eauto).
  intros (y & s2 & Hy & -> & Hi)%IH. exists y, s2. split_and!; [done|done|].
  destruct i as [|i]; [subst s2; eauto|done].
Qed.

(** A turn that breaks the loop is the last one. *)
Lemma turns_break l s i t :
  turns step next l s !! i = Some t → next t = None → last (turns step next l s) = Some t.
Proof.
  revert s i. induction l as [|x l IH]; intros s i; simpl; [done|].
  destruct (next (step x s)) as [s'|] eqn:E.
  - destruct i as [|i]; [intros [= <-]; by rewrite E|]. intros H Hn.
    specialize (IH _ _ H Hn). destruct (turns step next l s') eqn:Et; [done|].
    by rewrite last_cons, IH.
  - destruct i as [|i]; [by intros [= <-]|done].
Qed.
End turns.

(** ** Writer and reader *)

(** The frames a writer sends: those before the first close. *)
Fixpoint flushed (l : list Outbound) : list Frame :=
  match l with
  | OutFrame f :: l => f :: flushed l
  | CloseAfterFlush :: _ | [] => []
  end.

Section stream.
Context {R : Type → Type} {S : Type} (W : World R S) (HW : reliable W).

Lemma run_for_write_frame budget f (c : Conn S) :
  (2 ≤ budget)%nat → wf_frame f →
  ∃ c', run_for W budget (write_frame f) c = (Some (Ok ()), c') ∧
    wrote (frame_encode f) c c'.
Proof using HW.
  intros Hb Hf. unfold write_frame. rewrite decide_False.
  2: { unfold wf_frame in Hf. pose proof (payload_len_small (ty f)). unfold MAX_PAYLOAD. lia. }
  destruct budget as [|[|b]]; [lia..|]. destruct c as [i w s t]. destruct HW as [_ Hw].
  cbn. rewrite Hw. cbn. rewrite Hw. cbn. destruct b; (eexists; split; [reflexivity|done]).
Qed.

Lemma writer_loop_flushed budget l (c : Conn S) :
  (2 ≤ budget)%nat → Forall wf_frame (flushed l) →
  outbound (writer_loop W budget l c) = outbound c ++ mjoin (frame_encode <$> flushed l).
Proof using HW.
  intros Hb. revert c. induction l as [|[f|] l IH]; intros c Hl; simpl in *.
  - destruct c. simpl. by rewrite app_nil_r.
  - apply Forall_cons in Hl as [Hf Hl].
    destruct (run_for_write_frame budget f c Hb Hf) as (c' & -> & _ & Ho & _).
    by rewrite IH, Ho, <-app_assoc.
  - destruct c. simpl. by rewrite app_nil_r.
Qed.

Lemma read_frames_S n (c : Conn S) :
  read_frames W (Datatypes.S n) c =
    let '(frame, c) := run W read_frame c in
    let checked := frame ≫= λ frame,
      map_err AppProtocol (_ ← require_kind frame Control; Ok frame) in
    if is_err frame then ([checked], c)
    else let '(l, c) := read_frames W n c in (checked :: l, c).
Proof using. done. Qed.

Lemma read_frames_all l (c : Conn S) :
  Forall (λ f, wf_frame f ∧ is_control (ty f) = true) l →
  inbound c = mjoin (frame_encode <$> l) →
  (read_frames W (Datatypes.S (length l)) c).1 = (Ok <$> l) ++ [Err (AppIo UnexpectedEof)].
Proof using HW.
  revert c. induction l as [|f l IH]; intros c Hl Hi; rewrite read_frames_S.
  - pose proof (run_read_frame W HW c) as H. rewrite Hi in H.
    change (parse_frame (mjoin (frame_encode <$> [])))
      with (@Err AppError Frame (AppIo UnexpectedEof), @nil Byte.byte) in H.
    destruct H as [t ->]. done.
  - apply Forall_cons in Hl as [[Hf Hk] Hl].
    destruct (run_read_frame_fwd W HW c f _ Hf Hi) as (c' & -> & I & _).
    specialize (IH c' Hl I). cbn [is_err length mbind result_bind].
    rewrite (require_kind_ok f Control Hk). cbn [mbind result_bind map_err].
    destruct (read_frames W (Datatypes.S (length l)) c') as [l' c'']. simpl in *.
    by rewrite IH.
Qed.
End stream.

(** (C37) What one side queues is what the other side reads: a writer whose
    frames go out within their timeout puts the queued frames on the wire, in
    order and up to the first close, and a reader on the other end reports
    exactly these frames, in this order, and then the end of the stream. *)
Theorem control_stream {R R' : Type → Type} {S S' : Type} (Ww : World R S) (Wr : World R' S')
    budget queued (cw : Conn S) (cr : Conn S') :
  reliable Ww → reliable Wr → (2 ≤ budget)%nat → outbound cw = [] →
  Forall (λ f, wf_frame f ∧ is_control (ty f) = true) (flushed queued) →
  inbound cr = outbound (writer_loop Ww budget queued cw) →
  (read_frames Wr (Datatypes.S (length (flushed queued))) cr).1 =
    (Ok <$> flushed queued) ++ [Err (AppIo UnexpectedEof)].
Proof.
  intros Hw Hr Hb Ho Hl Hi. apply read_frames_all; [done..|].
  rewrite Hi, writer_loop_flushed, Ho; try done.
  eapply Forall_impl; [exact Hl|]. by intros f [? _].
Qed.

(** ** Goodbye *)

(** The acknowledgement a server queues for a GOODBYE, behind whatever was
    queued before, is what the client waits for. *)
Lemma goodbye_ack_arrives queued :
  CloseAfterFlush ∉ queued →
  goodbye_acknowledged
    (Ok <$> flushed (queued ++ [out_frame TGoodbyeAck []; CloseAfterFlush])) = true.
Proof.
  unfold goodbye_acknowledged. induction queued as [|[f|] l IH]; intros H; [done| |set_solver].
  cbn [app flushed fmap list_fmap existsb]. rewrite IH by set_solver. by rewrite orb_true_r.
Qed.

(** ** Heartbeats *)

Definition is_pong (s : Z) (f : Frame) : Prop := ty f = TPong ∧ payload f = to_be 8 s.

Lemma ping_not_pong s v : ping_frame s ≠ pong_frame v.
Proof. done. Qed.

Section heartbeat.
Context {Sem Chan : Type} `{!Semaphore Sem, !Channel Outbound Chan}.
Context (timing : Timing) (io_text : IoError → string).
Implicit Types (rd : Ready Chan) (hb : Heartbeat).

Definition answered rd (s : Z) : Prop :=
  ∃ f, r_frame rd = Some (Some (Ok f)) ∧ is_pong s f.

(** What one turn does to the heartbeat, on either side. *)
Inductive beats rd hb : list Outbound → Heartbeat → Prop :=
| beats_ping :
    let s := wrapping_add 64 (sequence hb) 1 in
    outstanding hb = None →
    beats rd hb [ping_frame s] (mkHeartbeat s (Some (s, r_now rd + heartbeat_timeout timing)))
| beats_same sent :
    (∀ s, ping_frame s ∉ sent) → beats rd hb sent hb
| beats_pong sent s d :
    (∀ s, ping_frame s ∉ sent) → outstanding hb = Some (s, d) → answered rd s →
    beats rd hb sent (mkHeartbeat (sequence hb) None).

Lemma beats_acknowledge rd hb f v sent :
  (∀ s, ping_frame s ∉ sent) → r_frame rd = Some (Some (Ok f)) → ty f = TPong →
  decode_sequence (payload f) = Ok v → beats rd hb sent (acknowledge v hb).
Proof.
  intros Hs Hf Ht [_ Hv]%decode_sequence_exact. unfold acknowledge.
  destruct (outstanding hb) as [[e d]|] eqn:Ho; [|by constructor].
  case_decide; [|by constructor]. subst e. eapply beats_pong; [done|done|].
  by exists f.
Qed.

Lemma push_Some (m : Outbound) (q q' : Chan * list Outbound) :
  push m q = Some q' → q'.2 = q.2 ++ [m].
Proof. unfold push. destruct (try_send q.1 m); [|done]. by intros [= <-]. Qed.

Lemma push_ignore_incl (m : Outbound) (q : Chan * list Outbound) x :
  x ∈ (push_ignore m q).2 → x ∈ q.2 ∨ x = m.
Proof.
  unfold push_ignore. destruct (push m q) as [q'|] eqn:E; simpl; [|by left].
  rewrite (push_Some _ _ _ E). set_solver.
Qed.

Lemma no_ping_nil s : ping_frame s ∉ ([] : list Outbound).
Proof. apply not_elem_of_nil. Qed.

Lemma tick_beats rd hb q' hb' :
  tick timing rd hb (r_writer rd, []) = Some (hb', q') → beats rd hb q'.2 hb'.
Proof.
  unfold tick. destruct (outstanding hb) eqn:Ho.
  - intros [= <- <-]. constructor. apply no_ping_nil.
  - destruct (push _ _) as [q|] eqn:E; [|done]. intros [= <- <-].
    rewrite (push_Some _ _ _ E). by constructor.
Qed.

Lemma server_turn_beats sid rd hb :
  beats rd hb (st_sent (server_turn timing sid rd hb)) (st_beat (server_turn timing sid rd hb)).
Proof.
  assert (∀ sent, (∀ s, ping_frame s ∉ sent) → beats rd hb sent hb) as Hsame by (by constructor).
  unfold server_turn. destruct (r_cancelled rd); [apply Hsame, no_ping_nil|].
  destruct (deadline_passed rd hb); [apply Hsame, no_ping_nil|].
  destruct (r_tick rd).
  { destruct (tick _ _ _ _) as [[hb' q']|] eqn:E; [by apply tick_beats in E|].
    apply Hsame, no_ping_nil. }
  destruct (r_frame rd) as [[[f|e]|]|] eqn:Hf; try (apply Hsame, no_ping_nil).
  assert (∀ m, (∀ s, ping_frame s ≠ m) → ∀ q : Chan * list Outbound,
    (∀ s, ping_frame s ∉ q.2) → ∀ s, ping_frame s ∉ (push_ignore m q).2) as Hpush.
  { intros m Hm q Hq s [?|?]%push_ignore_incl; [by eapply Hq|by eapply Hm]. }
  unfold server_frame. destruct (ty f) eqn:Ht; simpl;
    try (apply Hsame; repeat apply Hpush; intros; try done; apply no_ping_nil);
    try (apply Hsame, no_ping_nil).
  - destruct (OpenFailed_decode _); apply Hsame, no_ping_nil.
  - destruct (decode_sequence _); [|apply Hsame, no_ping_nil].
    destruct (push _ _) as [q|] eqn:E; [|apply Hsame, no_ping_nil].
    simpl. rewrite (push_Some _ _ _ E). apply Hsame. intros s. simpl.
    by rewrite list_elem_of_singleton.
  - destruct (decode_sequence _) as [v|] eqn:Hd; [|apply Hsame, no_ping_nil].
    eapply beats_acknowledge; [apply no_ping_nil|done..].
Qed.

Lemma client_turn_beats rd hb (permits : Sem) :
  beats rd hb (ct_sent (client_turn timing io_text rd hb permits))
    (ct_beat (client_turn timing io_text rd hb permits)).
Proof.
  assert (∀ sent, (∀ s, ping_frame s ∉ sent) → beats rd hb sent hb) as Hsame by (by constructor).
  assert (∀ m q', push m (r_writer rd, []) = Some q' → (∀ s, ping_frame s ≠ m) →
    ∀ s, ping_frame s ∉ q'.2) as Hpush.
  { intros m q' E Hm s. rewrite (push_Some _ _ _ E). simpl.
    rewrite list_elem_of_singleton. apply Hm. }
  unfold client_turn. destruct (r_stop rd).
  { unfold client_goodbye. destruct (push _ _) as [q|] eqn:E; simpl;
      [|apply Hsame, no_ping_nil]. apply Hsame. by eapply Hpush. }
  destruct (r_cancelled rd); [apply Hsame, no_ping_nil|].
  destruct (deadline_passed rd hb); [apply Hsame, no_ping_nil|].
  destruct (r_tick rd).
  { destruct (tick _ _ _ _) as [[hb' q']|] eqn:E; [by apply tick_beats in E|].
    apply Hsame, no_ping_nil. }
  destruct (r_frame rd) as [[[f|[]]|]|] eqn:Hf; try (apply Hsame, no_ping_nil).
  unfold client_frame. destruct (ty f) eqn:Ht; simpl; try (apply Hsame, no_ping_nil).
  - destruct (decode_request_id _); [|apply Hsame, no_ping_nil].
    destruct (try_acquire permits); [apply Hsame, no_ping_nil|]. simpl. apply Hsame.
    intros s [H|H]%push_ignore_incl; [by apply no_ping_nil in H|done].
  - destruct (decode_sequence _); [|apply Hsame, no_ping_nil].
    destruct (push _ _) as [q|] eqn:E; [|apply Hsame, no_ping_nil]. simpl. apply Hsame.
    by eapply Hpush.
  - destruct (decode_sequence _) as [v|] eqn:Hd; [|apply Hsame, no_ping_nil].
    eapply beats_acknowledge; [apply no_ping_nil|done..].
  - destruct (decode_error _); apply Hsame, no_ping_nil.
Qed.

(** ** Heartbeats over a loop *)

Section loop.
Context {I St T : Type} (step : I → St → T) (next : T → option St).
Context (ready_of : I → Ready Chan) (beat_of : St → Heartbeat).
Context (sent_of : T → list Outbound) (beat_after : T → Heartbeat).
Context (Hstep : ∀ i s, beats (ready_of i) (beat_of s) (sent_of (step i s))
                          (beat_after (step i s))).
Context (Hnext : ∀ t s, next t = Some s → beat_of s = beat_after t).

(** A ping stays outstanding until its PONG arrives. *)
Lemma waiting l s j u a d :
  outstanding (beat_of s) = Some (a, d) → turns step next l s !! j = Some u →
  (∃ k x, (k < j)%nat ∧ l !! k = Some x ∧ answered (ready_of x) a) ∨
  ∃ x s', l !! j = Some x ∧ u = step x s' ∧ outstanding (beat_of s') = Some (a, d).
Proof using Hstep Hnext.
  revert s j. induction l as [|x l IH]; intros s j Ho; [done|]. simpl.
  pose proof (Hstep x s) as Hb.
  destruct (next (step x s)) as [s'|] eqn:En.
  2: { destruct j; [|done]. intros [= <-]. right. eauto. }
  destruct j as [|j]; [intros [= <-]; right; eauto|]. simpl. intros Hu.
  rewrite <-(Hnext _ _ En) in Hb. inversion Hb as [? Hn|sent Hp E1 E2|sent a' d' Hp Hn Ha].
  - congruence.
  - rewrite E2 in Ho. destruct (IH _ _ Ho Hu) as [(k & y & Hk & Hy & ?)|Hr]; [left|by right].
    exists (S k), y. split_and!; [lia|done|done].
  - left. exists 0%nat, x. rewrite Ho in Hn. injection Hn as <- <-. split_and!; [lia|done|done].
Qed.

Lemma sent_ping x s a :
  ping_frame a ∈ sent_of (step x s) →
  outstanding (beat_of s) = None ∧
  ∃ b, to_be 8 a = to_be 8 b ∧ outstanding (beat_after (step x s)) =
    Some (b, r_now (ready_of x) + heartbeat_timeout timing).
Proof using Hstep.
  pose proof (Hstep x s) as Hb. intros Hin.
  inversion Hb as [c Hn E1 E2|sent Hp E1 E2|sent a' d' Hp Hn Ha E1 E2].
  - split; [done|]. rewrite <-E1 in Hin. apply list_elem_of_singleton in Hin.
    apply (f_equal (λ m, match m with OutFrame f => payload f | _ => [] end)) in Hin.
    exists c. done.
  - by apply Hp in Hin.
  - by apply Hp in Hin.
Qed.

Lemma answered_eq rd a b : to_be 8 a = to_be 8 b → answered rd b → answered rd a.
Proof. intros E (f & Hf & Ht & Hp). exists f. split; [done|]. split; [done|]. by rewrite Hp, E. Qed.

(** Between two turns: the second ping has to wait for the first's PONG. *)
Lemma ping_waits l s i j t u a b :
  turns step next l s !! i = Some t → turns step next l s !! j = Some u → (i < j)%nat →
  ping_frame a ∈ sent_of t → ping_frame b ∈ sent_of u →
  ∃ k x, (i < k < j)%nat ∧ l !! k = Some x ∧ answered (ready_of x) a.
Proof using Hstep Hnext.
  intros Ht Hu Hij Ha Hb. replace j with (S i + (j - S i))%nat in Hu by lia.
  destruct (turns_lookup _ _ _ _ _ _ Ht) as (x & s0 & _ & ->).
  destruct (turns_after _ _ _ _ _ _ _ _ Ht Hu) as (s1 & Hn & Hu').
  destruct (sent_ping _ _ _ Ha) as (_ & c & Hc & Ho). rewrite <-(Hnext _ _ Hn) in Ho.
  destruct (waiting _ _ _ _ _ _ Ho Hu') as [(k & y & Hk & Hy & Hans)|(y & s2 & _ & -> & Ho2)].
  - exists (S i + k)%nat, y. rewrite lookup_drop in Hy. split; [lia|]. split; [done|].
    by eapply answered_eq.
  - destruct (sent_ping _ _ _ Hb) as [Hnone _]. congruence.
Qed.

(** A ping without its PONG is still outstanding at a later turn. *)
Lemma ping_outstanding l s i j t u x a :
  turns step next l s !! i = Some t → turns step next l s !! j = Some u → (i < j)%nat →
  l !! i = Some x → ping_frame a ∈ sent_of t →
  (∀ k y, (i < k < j)%nat → l !! k = Some y → ¬ answered (ready_of y) a) →
  ∃ y s' b, l !! j = Some y ∧ u = step y s' ∧
    outstanding (beat_of s') = Some (b, r_now (ready_of x) + heartbeat_timeout timing).
Proof using Hstep Hnext.
  intros Ht Hu Hij Hx Ha Hno. replace j with (S i + (j - S i))%nat in Hu by lia.
  destruct (turns_lookup _ _ _ _ _ _ Ht) as (x' & s0 & Hx' & ->).
  rewrite Hx in Hx'. injection Hx' as <-.
  destruct (turns_after _ _ _ _ _ _ _ _ Ht Hu) as (s1 & Hn & Hu').
  destruct (sent_ping _ _ _ Ha) as (_ & c & Hc & Ho). rewrite <-(Hnext _ _ Hn) in Ho.
  destruct (waiting _ _ _ _ _ _ Ho Hu') as [(k & y & Hk & Hy & Hans)|(y & s2 & Hy & -> & Ho2)].
  - rewrite lookup_drop in Hy. exfalso. apply (Hno (S i + k)%nat y); [lia|done|].
    by eapply answered_eq.
  - rewrite lookup_drop in Hy. exists y, s2, c. split; [|done].
    by replace j with (S i + (j - S i))%nat by lia.
Qed.
End loop.

(** ** The loops of both sides *)

Lemma server_next_beat t hb : server_next t = Some hb → hb = st_beat t.
Proof. unfold server_next. destruct (st_flow t); [by intros [= <-]|done]. Qed.

Definition client_step (x : nat * Ready Chan) (s : Heartbeat * Sem) : ClientTurn :=
  client_turn timing io_text x.2 s.1 (release_n x.1 s.2).

Lemma client_step_beats x s :
  beats x.2 s.1 (ct_sent (client_step x s)) (ct_beat (client_step x s)).
Proof. apply client_turn_beats. Qed.

Lemma client_next_beat (t : ClientTurn) (s : Heartbeat * Sem) :
  client_next t = Some s → s.1 = ct_beat t.
Proof. unfold client_next. destruct (ct_flow t); [by intros [= <-]|done]. Qed.

Lemma run_session_turns (l : list (nat * Ready Chan)) hb (permits : Sem) :
  run_session timing io_text l hb permits = turns client_step client_next l (hb, permits).
Proof.
  unfold run_session. generalize (hb, permits). induction l as [|[n rd] l IH]; intros s; simpl;
    [done|]. destruct s as [h p]. unfold client_step at 1 2. simpl.
  destruct (client_next _); [|done]. by rewrite IH.
Qed.

(** (C33) At most one ping is unacknowledged at a time, on both sides: between
    two pings of a session there is a turn whose frame is the PONG with the
    first one's sequence number. *)
Theorem one_ping_at_a_time sid (l : list (Ready Chan)) (lc : list (nat * Ready Chan))
    (permits : Sem) i j a b :
  (i < j)%nat →
  (∀ t u, session_loop timing sid l heartbeat_new !! i = Some t →
     session_loop timing sid l heartbeat_new !! j = Some u →
     ping_frame a ∈ st_sent t → ping_frame b ∈ st_sent u →
     ∃ k rd, (i < k < j)%nat ∧ l !! k = Some rd ∧ answered rd a) ∧
  (∀ t u, run_session timing io_text lc heartbeat_new permits !! i = Some t →
     run_session timing io_text lc heartbeat_new permits !! j = Some u →
     ping_frame a ∈ ct_sent t → ping_frame b ∈ ct_sent u →
     ∃ k n rd, (i < k < j)%nat ∧ lc !! k = Some (n, rd) ∧ answered rd a).
Proof.
  intros Hij. split; intros t u Ht Hu Ha Hb.
  - exact (ping_waits _ server_next id id st_sent st_beat (server_turn_beats sid)
      server_next_beat _ _ _ _ _ _ _ _ Ht Hu Hij Ha Hb).
  - rewrite run_session_turns in Ht, Hu.
    destruct (ping_waits _ client_next snd fst ct_sent ct_beat client_step_beats
      client_next_beat _ _ _ _ _ _ _ _ Ht Hu Hij Ha Hb) as (k & [n rd] & ?). eauto.
Qed.

(** (C34) A peer that stops answering is noticed in time, on both sides: if the
    PONG of a ping has not come by [heartbeat_timeout] after it was sent, the
    next turn at or after that moment ends the session, uncleanly on the
    server, and with a retry on the client unless the user has stopped it. *)
Theorem missed_pong_ends_session sid (l : list (Ready Chan)) (lc : list (nat * Ready Chan))
    (permits : Sem) i j a :
  (i < j)%nat →
  (∀ t u rd rd', session_loop timing sid l heartbeat_new !! i = Some t →
     session_loop timing sid l heartbeat_new !! j = Some u →
     l !! i = Some rd → l !! j = Some rd' → ping_frame a ∈ st_sent t →
     (∀ k x, (i < k < j)%nat → l !! k = Some x → ¬ answered x a) →
     r_now rd + heartbeat_timeout timing <= r_now rd' →
     st_flow u = SBreak false) ∧
  (∀ t u n rd n' rd', run_session timing io_text lc heartbeat_new permits !! i = Some t →
     run_session timing io_text lc heartbeat_new permits !! j = Some u →
     lc !! i = Some (n, rd) → lc !! j = Some (n', rd') → ping_frame a ∈ ct_sent t →
     (∀ k x, (i < k < j)%nat → lc !! k = Some x → ¬ answered x.2 a) →
     r_now rd + heartbeat_timeout timing <= r_now rd' →
     ct_flow u = CBreak Clean ∧ r_stop rd' = true ∨ ∃ m, ct_flow u = CBreak (Retry m)).
Proof.
  intros Hij. split.
  - intros t u rd rd' Ht Hu Hi Hj Ha Hno Hnow.
    destruct (ping_outstanding _ server_next id id st_sent st_beat (server_turn_beats sid)
      server_next_beat _ _ _ _ _ _ _ _ Ht Hu Hij Hi Ha Hno) as (y & hb & b & Hy & -> & Ho).
    rewrite Hj in Hy. injection Hy as <-. unfold server_turn.
    destruct (r_cancelled rd'); [done|]. unfold deadline_passed, id in *. rewrite Ho.
    by rewrite bool_decide_true.
  - intros t u n rd n' rd' Ht Hu Hi Hj Ha Hno Hnow.
    rewrite run_session_turns in Ht, Hu.
    destruct (ping_outstanding _ client_next snd fst ct_sent ct_beat client_step_beats
      client_next_beat _ _ _ _ _ _ _ _ Ht Hu Hij Hi Ha Hno)
      as (y & [hb p] & b & Hy & -> & Ho).
    rewrite Hj in Hy. injection Hy as <-. unfold client_step, client_turn. simpl in Ho |- *.
    destruct (r_stop rd') eqn:Es.
    { left. unfold client_goodbye. by destruct (push _ _). }
    right. destruct (r_cancelled rd'); [by eexists|]. unfold deadline_passed. rewrite Ho.
    rewrite bool_decide_true by done. by eexists.
Qed.

(** ** How the server's loop ends *)

(** The heartbeat as a turn finds it. *)
Definition beat_before {T} (beat_after : T → Heartbeat) (ts : list T) (i : nat) : Heartbeat :=
  match i with
  | O => heartbeat_new
  | S j => match ts !! j with Some t => beat_after t | None => heartbeat_new end
  end.

(** The PONG of the outstanding ping is overdue. *)
Definition overdue rd hb : Prop := ∃ s d, outstanding hb = Some (s, d) ∧ d <= r_now rd.

Lemma deadline_passed_spec rd hb : deadline_passed rd hb = true ↔ overdue rd hb.
Proof.
  unfold deadline_passed, overdue. destruct (outstanding hb) as [[s d]|]; [|naive_solver].
  rewrite bool_decide_eq_true. naive_solver.
Qed.

Lemma deadline_not_passed rd hb : deadline_passed rd hb = false ↔ ¬ overdue rd hb.
Proof. rewrite <-deadline_passed_spec. by destruct (deadline_passed rd hb). Qed.

(** The turn gets to the frames, and this frame is there. *)
Definition server_reads rd hb (f : Frame) : Prop :=
  r_cancelled rd = false ∧ ¬ overdue rd hb ∧ r_tick rd = false ∧
  r_frame rd = Some (Some (Ok f)).

Lemma session_loop_turn sid (l : list (Ready Chan)) i t :
  let ts := session_loop timing sid l heartbeat_new in
  ts !! i = Some t →
  ∃ rd, l !! i = Some rd ∧ t = server_turn timing sid rd (beat_before st_beat ts i).
Proof.
  intros ts (rd & hb & Hrd & -> & Hi)%turns_state. exists rd. split; [done|]. f_equal.
  destruct i as [|i]; [done|]. destruct Hi as (u & Hu & Hn). unfold beat_before.
  change (ts !! i = Some u) in Hu. rewrite Hu. by apply server_next_beat.
Qed.

Lemma server_turn_clean sid rd hb :
  st_flow (server_turn timing sid rd hb) = SBreak true ↔
  ∃ f, server_reads rd hb f ∧ ty f = TGoodbye.
Proof.
  unfold server_reads. split.
  - unfold server_turn. destruct (r_cancelled rd); [done|].
    destruct (deadline_passed rd hb) eqn:Hd; [done|]. apply deadline_not_passed in Hd.
    destruct (r_tick rd); [by destruct (tick _ _ _ _) as [[]|]|].
    destruct (r_frame rd) as [[[f|e]|]|]; try done. unfold server_frame.
    destruct (ty f) eqn:E; try done.
    + by destruct (OpenFailed_decode _).
    + destruct (decode_sequence _); [|done]. by destruct (push _ _).
    + by destruct (decode_sequence _).
    + intros _. eauto 10.
  - intros (f & (Hc & Hd%deadline_not_passed & Ht & Hf) & E). unfold server_turn, server_frame.
    by rewrite Hc, Hd, Ht, Hf, E.
Qed.

Lemma server_turn_commands sid rd hb :
  Forall (λ c, ∃ rid why, c = COpenFailed sid rid why)
    (st_commands (server_turn timing sid rd hb)).
Proof.
  unfold server_turn. destruct (r_cancelled rd); [constructor|].
  destruct (deadline_passed rd hb); [constructor|].
  destruct (r_tick rd); [destruct (tick _ _ _ _) as [[]|]; constructor|].
  destruct (r_frame rd) as [[[f|e]|]|]; try constructor. unfold server_frame.
  destruct (ty f); try constructor.
  - destruct (OpenFailed_decode _); repeat constructor. eauto.
  - destruct (decode_sequence _); [|constructor]. destruct (push _ _); constructor.
  - destruct (decode_sequence _); constructor.
Qed.

(** The loop ended cleanly exactly when one of its turns read a GOODBYE. *)
Lemma session_clean_true sid (l : list (Ready Chan)) :
  let ts := session_loop timing sid l heartbeat_new in
  session_clean ts = Some true ↔
  ∃ i rd f, is_Some (ts !! i) ∧ l !! i = Some rd ∧
    server_reads rd (beat_before st_beat ts i) f ∧ ty f = TGoodbye.
Proof.
  intros ts. split.
  - unfold session_clean. destruct (last ts) as [t|] eqn:Et; [|done].
    rewrite last_lookup in Et. destruct (session_loop_turn _ _ _ _ Et) as (rd & Hrd & E).
    destruct (st_flow t) as [|c] eqn:Ef; [done|]. intros [= ->]. rewrite E in Ef.
    apply server_turn_clean in Ef as (f & Hr & Hf). eexists _, rd, f. eauto.
  - intros (i & rd & f & [t Ht] & Hrd & Hr & Hf).
    destruct (session_loop_turn _ _ _ _ Ht) as (rd' & Hrd' & E). simplify_eq.
    assert (st_flow (server_turn timing sid rd (beat_before st_beat ts i)) = SBreak true) as Ef
      by (apply server_turn_clean; eauto).
    unfold session_clean, ts, session_loop. erewrite turns_break; [|exact Ht|].
    + fold (session_loop timing sid l heartbeat_new). fold ts. by rewrite Ef.
    + fold (session_loop timing sid l heartbeat_new). fold ts.
      unfold server_next. by rewrite Ef.
Qed.

(** (C32) The server gives a tunnel up only when the client says GOODBYE, and
    whenever it does.  What [serve] does with an accepted registration: if the
    writer is gone it reports SESSION LOST at once, and while the writer queue
    is full it waits.  With REGISTERED queued, it queues frames and reports
    failed requests of that very session while the loop runs; when the loop
    has ended it cancels the control token and waits for the reader, then
    sends exactly one notice under the session's own identifier and
    generation, and only then cancels the data token and the control token and
    waits for the writer.  The notice is GOODBYE if one of the turns of the
    loop read a GOODBYE frame, and SESSION LOST if none did. *)
Theorem goodbye_only_on_request hmac key a data_cancel control_cancel rg
    (polls close_polls : list Chan) (l : list (Ready Chan)) :
  let sid := au_session_id a in
  let g := rg_generation rg in
  let registered := OutFrame (registered_frame hmac key a rg) in
  let ts := session_loop timing sid l heartbeat_new in
  let served := serve_registration timing hmac key a data_cancel control_cancel (Ok rg)
    polls close_polls l in
  match send_waiting registered polls with
  | None => served = []
  | Some None => served = [Tells (CSessionLost sid g)]
  | Some (Some _) => ∃ during notice,
      served = Queues registered :: during ++ notice ∧
      Forall (λ e, match e with
                   | Queues _ => True
                   | Tells c => ∃ rid why, c = COpenFailed sid rid why
                   | _ => False
                   end) during ∧
      notice = match session_clean ts with
               | None => []
               | Some clean =>
                   [Cancels control_cancel; AwaitsReader (from_secs 1);
                    Tells (if clean then CGoodbye sid g else CSessionLost sid g);
                    Cancels data_cancel; Cancels control_cancel; AwaitsWriter]
               end ∧
      (session_clean ts = Some true ↔
         ∃ i rd f, is_Some (ts !! i) ∧ l !! i = Some rd ∧
           server_reads rd (beat_before st_beat ts i) f ∧ ty f = TGoodbye)
  end.
Proof.
  intros sid g registered ts served. unfold served, serve_registration.
  fold sid g registered ts. destruct (send_waiting registered polls) as [[q|]|]; [|done..].
  eexists _, _. split_and!; [reflexivity| |by destruct (session_clean ts)|].
  - apply Forall_join, Forall_fmap, Forall_forall. intros t Ht.
    apply list_elem_of_lookup in Ht as [i Hi].
    destruct (session_loop_turn _ _ _ _ Hi) as (rd & _ & ->). unfold turn_effects. simpl.
    apply Forall_app. split; apply Forall_fmap; [by apply Forall_true|].
    eapply Forall_impl; [apply server_turn_commands|done].
  - apply session_clean_true.
Qed.

(** ** How the client's loop ends *)

(** The writer queue takes no message. *)
Definition no_room rd : Prop :=
  chan_closed (r_writer rd) = true ∨
  (chan_capacity (r_writer rd) ≤ length (chan_queue (r_writer rd)))%nat.

(** The turn gets to the frames, and this is what the reader has sent. *)
Definition client_reads rd hb (x : option (result AppError Frame)) : Prop :=
  r_stop rd = false ∧ r_cancelled rd = false ∧ ¬ overdue rd hb ∧ r_tick rd = false ∧
  r_frame rd = Some x.

(** A control frame a server must not send: of a type that is none of the
    server's at this point, or with a payload that is not one of its type. *)
Definition violation (f : Frame) : Prop :=
  match ty f with
  | TOpen => length (payload f) ≠ 16%nat
  | TPing | TPong => length (payload f) ≠ 8%nat
  | TError => ∀ c, payload f ≠ to_be 2 (as_u16 c)
  | TServerShutdown | TGoodbyeAck => False
  | _ => True
  end.

Definition error_frame (f : Frame) (c : ErrorCode) : Prop :=
  ty f = TError ∧ payload f = to_be 2 (as_u16 c).

(** What ends the process. *)
Definition fatal_cause rd hb (e : AppError) : Prop :=
  (∃ p, client_reads rd hb (Some (Err (AppProtocol p))) ∧ e = AppProtocol p) ∨
  (∃ f m, client_reads rd hb (Some (Ok f)) ∧ violation f ∧ e = app_protocol m) ∨
  (∃ f c, client_reads rd hb (Some (Ok f)) ∧ error_frame f c ∧ c ≠ ServerBusy ∧
     e = AppRegistration c).

(** What leads to a new attempt: a frame, *)
Definition gives_up rd (f : Frame) : Prop :=
  ty f = TServerShutdown ∨ error_frame f ServerBusy ∨
  (ty f = TPing ∧ length (payload f) = 8%nat ∧ no_room rd).

(** or anything else that ends a connection: its token cancelled, a missed
    heartbeat, a ping that finds no room, the reader gone or failed. *)
Definition retry_cause rd hb : Prop :=
  r_stop rd = false ∧
  (r_cancelled rd = true ∨
   (r_cancelled rd = false ∧ overdue rd hb) ∨
   (r_cancelled rd = false ∧ ¬ overdue rd hb ∧ r_tick rd = true ∧
    outstanding hb = None ∧ no_room rd) ∨
   client_reads rd hb None ∨
   (∃ e, client_reads rd hb (Some (Err e)) ∧ ∀ p, e ≠ AppProtocol p) ∨
   (∃ f, client_reads rd hb (Some (Ok f)) ∧ gives_up rd f)).

Definition caused rd hb (a : Attempt) : Prop :=
  match a with
  | Clean => r_stop rd = true
  | Fatal e => fatal_cause rd hb e
  | Retry _ => retry_cause rd hb
  end.

Lemma decode_sequence_Err p e : decode_sequence p = Err e → length p ≠ 8%nat.
Proof. unfold decode_sequence. by case_decide. Qed.

Lemma decode_request_id_Err p e : decode_request_id p = Err e → length p ≠ 16%nat.
Proof. unfold decode_request_id. by case_decide. Qed.

Lemma decode_error_Err p e c : decode_error p = Err e → p ≠ to_be 2 (as_u16 c).
Proof. intros H Hp. apply decode_error_exact in Hp. congruence. Qed.

Lemma decode_sequence_length p v : decode_sequence p = Ok v → length p = 8%nat.
Proof. by intros [_ ->]%decode_sequence_exact. Qed.

Lemma decode_request_id_length p v : decode_request_id p = Ok v → length p = 16%nat.
Proof. by intros [? ->]%decode_request_id_exact. Qed.

Lemma as_u16_two_inj c d : to_be 2 (as_u16 c) = to_be 2 (as_u16 d) → c = d.
Proof. by destruct c, d. Qed.

Section causes.
Context `{!ChannelLaws Outbound Chan}.

Lemma push_no_room (m : Outbound) rd :
  push m (r_writer rd, []) = None ↔ no_room rd.
Proof using ChannelLaws0.
  unfold push, no_room. simpl. rewrite <-(try_send_None (r_writer rd) m).
  by destruct (try_send (r_writer rd) m).
Qed.

Lemma push_room (m : Outbound) rd q : push m (r_writer rd, []) = Some q → ¬ no_room rd.
Proof using ChannelLaws0. rewrite <-(push_no_room m). congruence. Qed.

(** A frame ends the session for one of its causes, and for nothing else. *)
Lemma client_frame_flow f hb (permits : Sem) rd :
  match ct_flow (client_frame f hb permits (r_writer rd, [])) with
  | CGoOn => ¬ violation f ∧ (∀ c, ¬ error_frame f c) ∧ ¬ gives_up rd f
  | CBreak Clean => False
  | CBreak (Fatal e) =>
      (violation f ∧ ∃ m, e = app_protocol m) ∨
      ∃ c, error_frame f c ∧ c ≠ ServerBusy ∧ e = AppRegistration c
  | CBreak (Retry _) => gives_up rd f
  end.
Proof using ChannelLaws0.
  unfold client_frame, violation, gives_up, error_frame.
  destruct (ty f) eqn:Ht; simpl; try (left; eauto; done); try naive_solver.
  - destruct (decode_request_id _) as [rid|] eqn:E; simpl.
    + apply decode_request_id_length in E. destruct (try_acquire permits); simpl; naive_solver.
    + apply decode_request_id_Err in E. left. eauto.
  - destruct (decode_sequence _) as [v|] eqn:E; simpl.
    + apply decode_sequence_length in E. destruct (push _ _) eqn:Ep; simpl.
      * apply push_room in Ep. naive_solver.
      * apply push_no_room in Ep. auto.
    + apply decode_sequence_Err in E. left. eauto.
  - destruct (decode_sequence _) as [v|] eqn:E; simpl.
    + apply decode_sequence_length in E. naive_solver.
    + apply decode_sequence_Err in E. left. eauto.
  - destruct (decode_error _) as [c|] eqn:E; simpl.
    + apply decode_error_exact in E. unfold classify.
      destruct c; simpl; first [right; left; done|right; eexists; done].
    + left. split; [intros c; by eapply decode_error_Err|eauto].
Qed.
(** A turn ends the session exactly when one of the causes is there. *)
Lemma client_turn_flow rd hb (permits : Sem) :
  match ct_flow (client_turn timing io_text rd hb permits) with
  | CGoOn => r_stop rd = false ∧ (∀ e, ¬ fatal_cause rd hb e) ∧ ¬ retry_cause rd hb
  | CBreak a => caused rd hb a
  end.
Proof using ChannelLaws0.
  unfold caused, fatal_cause, retry_cause, client_turn, client_reads.
  destruct (r_stop rd) eqn:Es; [by destruct (client_goodbye _) as [a q] eqn:E;
    unfold client_goodbye in E; destruct (push _ _); simplify_eq/=|].
  destruct (r_cancelled rd) eqn:Ec; [simpl; auto|].
  destruct (deadline_passed rd hb) eqn:Ed.
  { apply deadline_passed_spec in Ed. simpl. auto. }
  apply deadline_not_passed in Ed. destruct (r_tick rd) eqn:Et.
  { unfold tick. destruct (outstanding hb) eqn:Eo; [simpl; naive_solver|].
    destruct (push _ _) as [q|] eqn:Ep; simpl.
    - apply push_room in Ep. naive_solver.
    - apply push_no_room in Ep. split; [done|]. right; right; left. done. }
  destruct (r_frame rd) as [[[f|e]|]|] eqn:Ef; simpl; [| |split; [done|]; auto 10|naive_solver].
  - pose proof (client_frame_flow f hb permits rd) as H.
    destruct (ct_flow _) as [|[|e|m]]; [naive_solver|done| |].
    + destruct H as [[Hv [m ->]]|(c & ? & ? & ->)]; [right; left|right; right]; eauto 10.
    + split; [done|]. repeat right. eauto 10.
  - destruct e; simpl; try (split; [done|]; do 4 right; left; eauto 10; naive_solver).
    left. eauto 10.
Qed.

(** The causes of the three outcomes exclude each other. *)
Lemma error_frame_inj f c d : error_frame f c → error_frame f d → c = d.
Proof using. intros [_ E1] [_ E2]. apply as_u16_two_inj. congruence. Qed.

Lemma violation_not_gives_up rd f : violation f → ¬ gives_up rd f.
Proof using.
  unfold violation, gives_up, error_frame. intros Hv [E|[[E Hp]|(E & Hl & _)]]; rewrite E in Hv;
    [done|by eapply Hv|done].
Qed.

Lemma fatal_not_retry rd hb e : fatal_cause rd hb e → ¬ retry_cause rd hb.
Proof using.
  unfold fatal_cause, retry_cause, client_reads. intros Hf (_ & Hr).
  destruct Hf as [(p & (_ & ? & ? & ? & Hx) & _)|[(f & m & (_ & ? & ? & ? & Hx) & Hv & _)
                 |(f & c & (_ & ? & ? & ? & Hx) & Hv & Hc & _)]];
  destruct Hr as [?|[[]|[(_ & _ & ? & _)|[(_ & _ & _ & _ & ?)|[(x & (_ & _ & _ & _ & ?) & ?)
                 |(f' & (_ & _ & _ & _ & ?) & Hg)]]]]]; try congruence; try naive_solver.
  - simplify_eq. by eapply violation_not_gives_up.
  - simplify_eq. destruct Hg as [E|[E|(E & _)]]; [destruct Hv; congruence| |destruct Hv; congruence].
    by destruct Hc; eapply error_frame_inj.
Qed.

Lemma fatal_not_stopped rd hb e : fatal_cause rd hb e → r_stop rd = false.
Proof using. unfold fatal_cause, client_reads. naive_solver. Qed.

Lemma client_session_turn session (l : list (nat * Ready Chan)) i t :
  let ts := client_session (Sem := Sem) timing io_text session l in
  ts !! i = Some t →
  ∃ n rd p, l !! i = Some (n, rd) ∧
    t = client_turn timing io_text rd (beat_before ct_beat ts i) p.
Proof using.
  intros ts. unfold ts, client_session. rewrite run_session_turns.
  set (s0 := (heartbeat_new, _)).
  intros ([n rd] & [hb p] & Hx & -> & Hi)%turns_state. exists n, rd, (release_n n p).
  split; [done|]. unfold client_step at 1. cbn [fst snd]. f_equal.
  destruct i as [|i]; [by injection Hi as -> _|]. destruct Hi as (u & Hu & Hn).
  unfold beat_before. rewrite Hu. apply client_next_beat in Hn. done.
Qed.

(** (C35) How the client's session ends.  A turn ends it cleanly when the user
    has stopped the client; it ends the process when the turn gets to a
    protocol error of the reader, to a frame that is a protocol violation (a
    type the server must not send, or a payload that is not one of its type)
    or to an ERROR frame with any code but SERVER_BUSY; and it leads to a new
    attempt when the connection's token is cancelled, a heartbeat is missed,
    the writer queue has no room for a PING or a PONG, the reader is gone or
    has failed otherwise, or the frame is SERVER_SHUTDOWN or an ERROR with
    SERVER_BUSY.  The session ends at the first turn where one of these causes
    is there, with the outcome that belongs to it, and never without one. *)
Theorem client_session_outcome session (l : list (nat * Ready Chan)) :
  let ts := client_session (Sem := Sem) timing io_text session l in
  let hb := beat_before ct_beat ts in
  (∀ i n rd, is_Some (ts !! i) → l !! i = Some (n, rd) →
     (r_stop rd = true → session_outcome ts = Some Clean) ∧
     (∀ e, fatal_cause rd (hb i) e → ∃ e', session_outcome ts = Some (Fatal e')) ∧
     (retry_cause rd (hb i) → ∃ m, session_outcome ts = Some (Retry m))) ∧
  (∀ a, session_outcome ts = Some a → ∃ i n rd,
     length ts = S i ∧ l !! i = Some (n, rd) ∧
     match a with
     | Clean => r_stop rd = true
     | Fatal e => fatal_cause rd (hb i) e
     | Retry _ => retry_cause rd (hb i)
     end).
Proof using ChannelLaws0.
  intros ts hb. split.
  - intros i n rd [t Ht] Hrd.
    destruct (client_session_turn _ _ _ _ Ht) as (n' & rd' & p & Hrd' & Et).
    rewrite Hrd in Hrd'. injection Hrd' as <- <-.
    assert (ct_flow t = ct_flow (client_turn timing io_text rd (hb i) p)) as Ef
      by exact (f_equal ct_flow Et).
    pose proof (client_turn_flow rd (hb i) p) as H. rewrite <-Ef in H. clear Ef Et.
    assert (∀ a, ct_flow t = CBreak a → session_outcome ts = Some a) as Hout.
    { intros a Ha. unfold session_outcome, ts, client_session. rewrite run_session_turns.
      erewrite turns_break; [by rewrite Ha| |unfold client_next; by rewrite Ha].
      unfold ts, client_session in Ht. by rewrite run_session_turns in Ht. }
    destruct (ct_flow t) as [|a]; [naive_solver congruence|]. rewrite (Hout _ eq_refl).
    destruct a as [|e|m]; simpl in H; split_and!; intros; simplify_eq; eauto.
    + by exfalso; eapply eq_true_false_abs, fatal_not_stopped.
    + destruct H0 as [? _]. congruence.
    + apply fatal_not_stopped in H. congruence.
    + by apply fatal_not_retry in H.
    + destruct H as [? _]. congruence.
    + by apply fatal_not_retry in H0.
  - intros a Ha. unfold session_outcome in Ha. destruct (last ts) as [t|] eqn:El; [|done].
    rewrite last_lookup in El.
    destruct (client_session_turn _ _ _ _ El) as (n & rd & p & Hrd & Et).
    assert (ct_flow t = ct_flow (client_turn timing io_text rd (hb (pred (length ts))) p)) as Ef
      by exact (f_equal ct_flow Et).
    pose proof (client_turn_flow rd (hb (pred (length ts))) p) as H. rewrite <-Ef in H.
    destruct (ct_flow t) as [|a']; [done|].
    injection Ha as ->. exists (pred (length ts)), n, rd. split; [|done].
    destruct ts; [done|reflexivity].
Qed.
End causes.

(** ** The client's capacity *)

Context `{!SemaphoreLaws Sem}.

Lemma available_release_n n (p : Sem) : available (release_n n p) = (n + available p)%nat.
Proof using SemaphoreLaws0.
  induction n as [|n IH]; simpl; [done|]. by rewrite available_release, IH.
Qed.

Lemma client_turn_permits rd hb (permits : Sem) :
  (available (ct_permits (client_turn timing io_text rd hb permits)) +
   length (ct_opened (client_turn timing io_text rd hb permits)) = available permits)%nat.
Proof using SemaphoreLaws0.
  unfold client_turn. destruct (r_stop rd); [destruct (client_goodbye _); simpl; lia|].
  destruct (r_cancelled rd); [simpl; lia|]. destruct (deadline_passed rd hb); [simpl; lia|].
  destruct (r_tick rd); [destruct (tick _ _ _ _) as [[]|]; simpl; lia|].
  destruct (r_frame rd) as [[[f|[]]|]|]; try (simpl; lia). unfold client_frame.
  destruct (ty f); try (simpl; lia).
  - destruct (decode_request_id _); [|simpl; lia].
    destruct (try_acquire permits) eqn:E; [|simpl; lia]. apply try_acquire_Some in E. simpl. lia.
  - destruct (decode_sequence _); [|simpl; lia]. destruct (push _ _); simpl; lia.
  - destruct (decode_sequence _); simpl; lia.
  - destruct (decode_error _); simpl; lia.
Qed.

(** The client never works on more requests at once than the maximum the
    server advertised: at every point of a session, the requests it has taken
    on so far are at most that maximum plus the requests that have ended. *)
Lemma client_capacity session (l : list (nat * Ready Chan)) i :
  (length (mjoin (ct_opened <$> take i (client_session (Sem := Sem) timing io_text session l)))
   ≤ Z.to_nat (se_max_connections session) + sum_list (fst <$> take i l))%nat.
Proof using SemaphoreLaws0.
  unfold client_session. rewrite run_session_turns.
  assert (∀ hb (p : Sem), (length (mjoin (ct_opened <$>
    take i (turns client_step client_next l (hb, p)))) ≤
    available p + sum_list (fst <$> take i l))%nat) as H.
  2: { specialize (H heartbeat_new (sem_new (Z.to_nat (se_max_connections session)))).
       by rewrite available_new in H. }
  revert i. induction l as [|[n rd] l IH]; intros i hb p; [destruct i; simpl; lia|].
  destruct i as [|i]; [simpl; lia|]. simpl.
  pose proof (client_turn_permits rd hb (release_n n p)) as Hp.
  rewrite available_release_n in Hp.
  destruct (client_next _) as [[hb' p']|] eqn:E.
  - specialize (IH i hb' p'). change (client_turn timing io_text rd hb (release_n n p))
      with (client_step (n, rd) (hb, p)) in Hp. set (t := client_step (n, rd) (hb, p)) in *.
    assert (p' = ct_permits t) as ->.
    { unfold client_next in E. destruct (ct_flow t); [by injection E|done]. }
    cbn [take fmap list_fmap mjoin list_join sum_list fst]. rewrite length_app.
    eapply Nat.le_trans; [apply Nat.add_le_mono_l, IH|].
    change (list_fmap _ _ fst (take i l)) with (fst <$> take i l). lia.
  - destruct i; simpl; rewrite app_nil_r; unfold client_step; simpl; lia.
Qed.
End heartbeat.
