(* ===== verification/Client.v ===== *)
(** * The client: [src/client/mod.rs], [src/client/control.rs]

    The attempts of the client to hold a control connection and its
    reconnection policy.  What happens inside an attempt is in [Handshake.v]
    and [Sessions.v], the handling of one OPEN in [Forwarding.v]; what the
    network and the clock answer comes from outside. *)

From Stdlib Require Import Strings.String Strings.Byte.
From stdpp Require Import pretty.
From S2P Require Import Prelude Errors Io Protocol Auth Runtime Timing Net Config.
From S2P Require Import Registry Handshake Sessions.

Local Open Scope Z_scope.

(** ** Attempts *)

Record ClientState := mkClientState {
  cs_instance_id : InstanceId;
  cs_requested_port : option Z;
  last_assigned : option Z;
  ever_registered : bool
}.

(** The registration an attempt asks for. *)
Definition attempt_mode (st : ClientState) : Mode * Z :=
  if ever_registered st then
    match last_assigned st with
    | Some p => (Resume, p)
    | None => (Fresh, default 0 (cs_requested_port st))
    end
  else (Fresh, default 0 (cs_requested_port st)).

Definition remember (p : Z) (st : ClientState) : ClientState :=
  mkClientState (cs_instance_id st) (cs_requested_port st) (Some p) true.

(** The line an attempt prints on standard output. *)
Definition ready_line (p : Z) : string := "remote_port=" +:+ pretty p.

(** What one attempt meets: whether the user stops it while it connects; the
    dial, the address of the peer, and the connection to the server, with how
    many operations on it finish within a duration; what is ready at the turns
    of the session, and what the reader sends in the grace time of a goodbye. *)
Section client.
Context {R : Type → Type} {S : Type}.
Context {Sem Chan : Type} `{!Semaphore Sem, !Channel Outbound Chan}.

Record AttemptEnv := mkAttemptEnv {
  ae_cancelled : bool;
  ae_dial : DialEnv;
  ae_peer : result IoError SocketAddr;
  ae_world : World R S;
  ae_conn : Conn S;
  ae_within : Duration → nat;
  ae_turns : list (nat * Ready Chan);
  ae_in_time : list (result AppError Frame)
}.

Context (hmac : bytes → bytes → bytes) (io_text : IoError → string).
(** How the standard library prints the seconds of a duration. *)
Context (secs_text : Duration → string).
Context (timing : Timing) (config : ExposeConfig).

(** The registration of an attempt, under its timeout ([None]: timed out). *)
Definition ae_connect (env : AttemptEnv) (inst : InstanceId) (m : Mode) (requested : Z) :
    option (result Failure Session) :=
  let budget := control_attempt timing in
  (run_for (ae_world env) (ae_within env budget)
     (connect_and_register hmac io_text
        (_ ← dial io_text (ae_dial env) (server config) budget; Ok ()) (ae_peer env)
        (list_byte_of_string (ec_key config)) inst m requested)
     (ae_conn env)).1.

(** What [goodbye] says, if the session ended with one that went out. *)
Definition goodbye_lines (ts : list (ClientTurn (Sem := Sem)))
    (in_time : list (result AppError Frame)) : list Line :=
  match last ts with
  | Some t =>
      match ct_flow t, ct_sent t with
      | CBreak Clean, _ :: _ =>
          [Log LevelDebug
             (if goodbye_acknowledged in_time then "server acknowledged the goodbye"
              else "goodbye was not acknowledged; the server will reserve the port")]
      | _, _ => []
      end
  | None => []
  end.

(** [attempt]: its outcome ([None]: the session is up), the state it leaves and
    what it prints. *)
Definition attempt (env : AttemptEnv) (st : ClientState) :
    option Attempt * ClientState * list Line :=
  let '(m, requested) := attempt_mode st in
  if ae_cancelled env then (Some Clean, st, [])
  else
    match ae_connect env (cs_instance_id st) m requested with
    | None => (Some (Retry "control connection attempt timed out"), st, [])
    | Some (Err (FFatal e)) => (Some (Fatal e), st, [])
    | Some (Err (FRetry msg)) => (Some (Retry msg), st, [])
    | Some (Ok session) =>
        let p := se_assigned_port session in
        let ts := client_session (Sem := Sem) timing io_text session (ae_turns env) in
        (session_outcome ts, remember p st,
         [Out (ready_line p);
          Log LevelInfo ("tunnel ready: " +:+ endpoint_text (server config) +:+ " public port "
            +:+ pretty p +:+ " forwards to " +:+ endpoint_text (target config))]
         ++ goodbye_lines ts (ae_in_time env))
    end.

(** ** [client::run] *)

(** One round of the loop: whether the token is cancelled before the attempt,
    after it, and during the delay. *)
Record Round := mkRound {
  rd_before : bool;
  rd_attempt : AttemptEnv;
  rd_after : bool;
  rd_delay : bool
}.

Inductive RunState :=
| Running (st : ClientState)
| InSession (st : ClientState)
| Finished (r : result AppError unit).

Definition round (rd : Round) (st : ClientState) : RunState * list Line :=
  if rd_before rd then (Finished (Ok ()), [])
  else
    let '(outcome, st, out) := attempt (rd_attempt rd) st in
    match outcome with
    | None => (InSession st, out)
    | Some Clean => (Finished (Ok ()), out)
    | Some (Fatal e) => (Finished (Err e), out)
    | Some (Retry reason) =>
        if rd_after rd then (Finished (Ok ()), out)
        else
          let out := out ++ [Log LevelInfo ("reconnecting in " +:+
            secs_text (reconnect_delay timing) +:+ " seconds: " +:+ reason)] in
          if rd_delay rd then (Finished (Ok ()), out)
          else (Running st, out ++ [Log LevelDebug "retrying the control connection"])
    end.

(** One attempt of a run: the registration it asked for, and what was printed. *)
Record Tried := mkTried {
  tr_asked : Mode * Z;
  tr_lines : list Line
}.

Fixpoint rounds (l : list Round) (st : ClientState) : list Tried * RunState :=
  match l with
  | [] => ([], Running st)
  | rd :: l =>
      let tried out := if rd_before rd then [] else [mkTried (attempt_mode st) out] in
      match round rd st with
      | (Running st', out) =>
          let '(more, final) := rounds l st' in (tried out ++ more, final)
      | (final, out) => (tried out, final)
      end
  end.

(** [run]: the identity is drawn once, before the first attempt. *)
Definition client_state (inst : InstanceId) : ClientState :=
  mkClientState inst (remote_port config) None false.

Definition run_client (drawn : result AppError InstanceId) (l : list Round) :
    list Tried * RunState :=
  match drawn with
  | Err e => ([], Finished (Err e))
  | Ok inst => rounds l (client_state inst)
  end.
End client.
Arguments AttemptEnv : clear implicits.
Arguments Round : clear implicits.
