(* ===== verification/Server.v ===== *)
(** * The server around the registry: [src/server/mod.rs], [src/server/listener.rs]

    The accept loops of the control port and of the public listeners, the
    dispatch of a connection by its preamble, and the task that serves one
    public connection.  As in [Sessions.v], what a [select!] finds ready comes
    from outside and the order of its branches is the program's. *)

From Stdlib Require Import Strings.String Strings.Byte.
From stdpp Require Import pretty.
From S2P Require Import Prelude Errors Io Protocol Auth Runtime Timing Net Config.
From S2P Require Import Registry Handshake Sessions.

Local Open Scope Z_scope.

(** ** Dispatch *)

Section dispatch.
Context {R : Type → Type} {S : Type} (W : World R S).

(** [dispatch] up to the handler: the kind of the connection, or how it ended
    without one.  Only a protocol error is answered. *)
Definition dispatch (budget : nat) (c : Conn S) : result (option AppError) Kind * Conn S :=
  match run_for W budget read_preamble c with
  | (None, c) => (Err None, c)
  | (Some (Ok kind), c) => (Ok kind, c)
  | (Some (Err error), c) =>
      match error with
      | AppProtocol e => (Err (Some error), (run W (write_error_frame (code e)) c).2)
      | _ => (Err (Some error), c)
      end
  end.
End dispatch.

(** ** The control port: [run] *)

Section accept.
Context {Sem : Type} `{!Semaphore Sem}.

(** What the loop of [run] sees: a connection and its peer, a failed accept, the
    end of one of the connection tasks (with the text of its error if it did
    not end by itself), the cancellation. *)
Inductive ServerEvent :=
| Accepted (socket : Socket) (peer : SocketAddr)
| AcceptFailed (error : IoError)
| TaskEnded (abnormally : option string)
| Stopped.

#[export] Instance ServerEvent_eq_dec : EqDecision ServerEvent.
Proof. solve_decision. Defined.

(** The loop: the permits left and the sockets handed to a task.  A permit
    belongs to a task until [dispatch] returns, so that of an established
    control connection comes back when the session ends. *)
Record AcceptState := mkAcceptState {
  handshakes : Sem;
  dispatched : list Socket;
  running : nat;
  accepting : bool
}.

Definition accept_new : AcceptState := mkAcceptState (sem_new MAX_HANDSHAKES) [] 0 true.

Definition accept_event (e : ServerEvent) (st : AcceptState) : AcceptState :=
  if negb (accepting st) then st
  else
    match e with
    | Stopped => mkAcceptState (handshakes st) (dispatched st) (running st) false
    | AcceptFailed _ => st
    | Accepted socket _ =>
        match try_acquire (handshakes st) with
        | None => st
        | Some permits =>
            mkAcceptState permits (dispatched st ++ [socket]) (Datatypes.S (running st)) true
        end
    | TaskEnded _ =>
        match running st with
        | O => st
        | Datatypes.S n => mkAcceptState (release (handshakes st)) (dispatched st) n true
        end
    end.

Definition accept_loop (l : list ServerEvent) : AcceptState :=
  foldl (λ st e, accept_event e st) accept_new l.

(** The log lines of the loop, and the one behind it. *)
Definition accept_line (io_text : IoError → string) (e : ServerEvent) (st : AcceptState) :
    list Line :=
  if negb (accepting st) then []
  else
    match e with
    | Stopped => [Log LevelInfo "shutting down"]
    | AcceptFailed error => [Log LevelDebug ("accept failed: " +:+ io_text error)]
    | Accepted _ peer =>
        match try_acquire (handshakes st) with
        | None => [Log LevelDebug "too many incomplete handshakes; closing a new connection"]
        | Some _ => [Log LevelDebug ("incoming connection from " +:+ display_addr peer)]
        end
    | TaskEnded abnormally =>
        match running st, abnormally with
        | Datatypes.S _, Some error =>
            [Log LevelDebug ("connection task ended abnormally: " +:+ error)]
        | _, _ => []
        end
    end.

Fixpoint accept_lines (io_text : IoError → string) (l : list ServerEvent) (st : AcceptState) :
    list Line :=
  match l with
  | [] => []
  | e :: l => accept_line io_text e st ++ accept_lines io_text l (accept_event e st)
  end.

(** ** [run]

    What the server does besides serving connections, in order. *)
Inductive RunAction :=
| AnnounceReady (local : SocketAddr)
| SpawnRegistry
| SpawnConnection (socket : Socket)
| RegistryShutdown
| AwaitTasks (grace : Duration)
| AbortTasks
| AwaitRegistry (budget : Duration).

(** The listener, its local address, whether a caller waits for that, and what
    the loop sees. *)
Record RunEnv := mkRunEnv {
  re_bound : result IoError unit;
  re_local : result IoError SocketAddr;
  re_ready : bool;
  re_events : list ServerEvent
}.

(** [run]: its result ([None]: still accepting), and what it has done.  After
    the loop the registry is told to shut down and the tasks get the grace time
    before they are aborted. *)
Definition server_run (io_text : IoError → string) (timing : Timing) (config : ServerConfig)
    (env : RunEnv) : option (result AppError unit) * list RunAction :=
  match re_bound env with
  | Err error =>
      (Some (Err (AppRuntime ("cannot listen on " +:+ display_addr (listen config) +:+ ": " +:+
                    io_text error))), [])
  | Ok _ =>
      match re_local env with
      | Err error => (Some (Err (AppIo error)), [])
      | Ok local =>
          let st := accept_loop (re_events env) in
          let started := (if re_ready env then [AnnounceReady local] else [])
            ++ SpawnRegistry :: (SpawnConnection <$> dispatched st) in
          if accepting st then (None, started)
          else
            (Some (Ok ()), started
              ++ [RegistryShutdown; AwaitTasks (shutdown_grace timing); AbortTasks;
                  AwaitRegistry (from_secs 1)])
      end
  end.

(** The log lines of [run]. *)
Definition server_lines (io_text : IoError → string) (config : ServerConfig) (env : RunEnv) :
    list Line :=
  match re_bound env, re_local env with
  | Ok _, Ok local =>
      [Log LevelInfo ("tunlet server listening on " +:+ display_addr local +:+
         " (control and data)");
       Log LevelInfo ("automatic port range " +:+ pretty (allowed_ports config).1 +:+ "-" +:+
         pretty (allowed_ports config).2 +:+ ", public bind address " +:+
         ip_text (data_bind config) +:+ ", " +:+ pretty (sc_max_connections config) +:+
         " connections per tunnel")]
      ++ accept_lines io_text (re_events env) accept_new
  | _, _ => []
  end.
End accept.

(** ** A public listener: [listener::spawn] *)

Section listener.
Context {Cmds : Type} `{!Channel Command Cmds}.

Inductive ListenerEvent :=
| LStopped
| LAcceptFailed
| LAccepted (socket : Socket) (at_ : Instant).

(** One turn: whether the loop goes on, and the command queue.  A full queue
    drops the socket; a closed one ends the loop. *)
Definition listener_turn (lid p : Z) (e : ListenerEvent) (q : Cmds) : bool * Cmds :=
  match e with
  | LStopped => (false, q)
  | LAcceptFailed => (true, q)
  | LAccepted socket at_ =>
      match try_send q (CAcceptedPublic lid p socket at_) with
      | Some q => (true, q)
      | None => (negb (chan_closed q), q)
      end
  end.
End listener.

(** ** One public connection: [serve_public] *)

(** What the task does to its two sockets, and its notice to the registry. *)
Inductive Action :=
| ClosePublic
| SendReady
| CloseData
| Forward
| NotifyFinished (sid : SessionId) (rid : RequestId).

(** The first [select!]: the token, the deadline, the oneshot channel (a data
    connection, or [Some None] when its sender is gone). *)
Record Waiting := mkWaiting {
  w_cancelled : bool;
  w_expired : bool;
  w_received : option (option Socket)
}.

(** The second: the token, the deadline, the write of DATA_READY. *)
Record Readying := mkReadying {
  y_cancelled : bool;
  y_expired : bool;
  y_written : option bool
}.

Definition wait_data (w : Waiting) : option (option Socket) :=
  if w_cancelled w then Some None
  else if w_expired w then Some None
  else w_received w.

Definition write_ready (y : Readying) : option bool :=
  if y_cancelled y then Some false
  else if y_expired y then Some false
  else y_written y.

(** The task, from the moment both selects have something ready ([None]: one of
    them is still waiting).  A write of DATA_READY that was cut short or failed
    is no [SendReady]. *)
Definition serve_public (w : Waiting) (y : Readying) (sid : SessionId) (rid : RequestId) :
    option (list Action) :=
  received ← wait_data w;
  match received with
  | None => Some [ClosePublic; NotifyFinished sid rid]
  | Some _ =>
      wrote ← write_ready y;
      Some ((if negb wrote then [ClosePublic; CloseData] else [SendReady; Forward])
              ++ [NotifyFinished sid rid])
  end.
