(* ===== verification/ClientFacts.v ===== *)
(** * What the client's run guarantees *)

From Stdlib Require Import Strings.String Strings.Byte.
From S2P Require Import Prelude Errors Io Protocol Auth Runtime Timing Net Config.
From S2P Require Import Registry Handshake HandshakeFacts Sessions Client.

Local Open Scope Z_scope.

Section client.
Context {R : Type → Type} {S : Type}.
Context {Sem Chan : Type} `{!Semaphore Sem, !Channel Outbound Chan}.
Context (hmac : bytes → bytes → bytes) (io_text : IoError → string).
Context (secs_text : Duration → string) (timing : Timing) (config : ExposeConfig).
Implicit Types (env : AttemptEnv R S Chan) (rd : Round R S Chan).

(** A session that was registered has a port the server may assign, and the
    requested one if one was requested. *)
Lemma ae_connect_port env inst m requested s :
  ae_connect hmac io_text timing config env inst m requested = Some (Ok s) →
  1024 <= se_assigned_port s <= 65535 ∧ (requested ≠ 0 → se_assigned_port s = requested).
Proof.
  unfold ae_connect. destruct (run_for _ _ _ _) as [[r|] c'] eqn:E; simpl; [|done].
  intros [= ->]. apply run_for_Some in E. unfold connect_and_register in E.
  do 2 run_inv E. rewrite run_bind in E.
  destruct (run _ (client_register _ _ _ _ _ _) _) as [[s'|f] c2] eqn:Er.
  - apply run_Ret in E. injection E as <- _. by apply client_register_port in Er.
  - rewrite run_bind in E. destruct (run _ (perform CloseWrite) _) as [u c3].
    by apply run_Ret in E.
Qed.

(** The lines of standard output. *)
Definition shown (l : list Line) : list string :=
  omap (λ x, match x with Out s => Some s | Log _ _ => None end) l.

Lemma shown_app l1 l2 : shown (l1 ++ l2) = shown l1 ++ shown l2.
Proof. apply omap_app. Qed.

Lemma shown_goodbye ts in_time : shown (goodbye_lines (Sem := Sem) ts in_time) = [].
Proof.
  unfold goodbye_lines. destruct (last ts) as [t|]; [|done].
  destruct (ct_flow t) as [|[]]; [done| |done..]. by destruct (ct_sent t).
Qed.

(** The port an attempt is assigned, if its registration succeeds. *)
Definition assigned (inst : InstanceId) rd (asked : Mode * Z) : option Z :=
  if ae_cancelled (rd_attempt rd) then None
  else match ae_connect hmac io_text timing config (rd_attempt rd) inst asked.1 asked.2 with
       | Some (Ok s) => Some (se_assigned_port s)
       | _ => None
       end.

Lemma assigned_range inst rd asked p :
  assigned inst rd asked = Some p → 1024 <= p <= 65535 ∧ (asked.2 ≠ 0 → p = asked.2).
Proof.
  unfold assigned. destruct (ae_cancelled _); [done|].
  destruct (ae_connect _ _ _ _ _ _ _ _) as [[s|]|] eqn:E; try done.
  intros [= <-]. by eapply ae_connect_port.
Qed.

Abbreviation attempt := (attempt (R := R) (S := S) (Sem := Sem) (Chan := Chan)
  hmac io_text timing config).
Abbreviation round := (round (R := R) (S := S) (Sem := Sem) (Chan := Chan)
  hmac io_text secs_text timing config).
Abbreviation rounds := (rounds (R := R) (S := S) (Sem := Sem) (Chan := Chan)
  hmac io_text secs_text timing config).

(** An attempt that is assigned a port remembers it and prints it. *)
Lemma attempt_assigned rd st outcome st' out :
  attempt (rd_attempt rd) st = (outcome, st', out) →
  match assigned (cs_instance_id st) rd (attempt_mode st) with
  | None => st' = st ∧ shown out = []
  | Some p => st' = remember p st ∧ shown out = [ready_line p]
  end.
Proof.
  unfold Client.attempt, assigned. destruct (attempt_mode st) as [m requested]. cbn [fst snd].
  destruct (ae_cancelled _); [by intros [= _ <- <-]|].
  destruct (ae_connect _ _ _ _ _ _ _ _) as [[s|[]]|]; intros [= _ <- <-]; try done.
  split; [done|]. cbn. f_equal. apply shown_goodbye.
Qed.

(** A round makes one attempt, or none; the next one starts from the state it
    leaves. *)
Lemma rounds_cons rd l st tried final :
  rounds (rd :: l) st = (tried, final) →
  tried = [] ∨
  ∃ t st' more, tried = t :: more ∧ tr_asked t = attempt_mode st ∧
    match assigned (cs_instance_id st) rd (attempt_mode st) with
    | None => st' = st ∧ shown (tr_lines t) = []
    | Some p => st' = remember p st ∧ shown (tr_lines t) = [ready_line p]
    end ∧
    (more = [] ∨ ∃ final', rounds l st' = (more, final')).
Proof.
  cbn [Client.rounds]. unfold Client.round.
  destruct (rd_before rd); [intros [= <- _]; by left|].
  destruct (attempt (rd_attempt rd) st) as [[outcome st'] out] eqn:E.
  apply attempt_assigned in E. intros H. right.
  destruct outcome as [[|e|reason]|];
    try (injection H as <- _; exists (mkTried (attempt_mode st) out), st', []; by eauto).
  destruct (rd_after rd);
    [injection H as <- _; exists (mkTried (attempt_mode st) out), st', []; by eauto|].
  destruct (rd_delay rd).
  - injection H as <- _. eexists (mkTried (attempt_mode st) _), st', []. split; [done|].
    split; [done|]. split; [|by left]. cbn [tr_lines]. by rewrite shown_app, app_nil_r.
  - destruct (rounds l st') as [more f'] eqn:Er. injection H as <- _.
    eexists (mkTried (attempt_mode st) _), st', more. split; [done|]. split; [done|].
    split; [|by eauto]. cbn [tr_lines]. by rewrite !shown_app, !app_nil_r.
Qed.

(** What an attempt asked for, the port it was assigned, and what it printed. *)
Definition tries (inst : InstanceId) (asked : Mode * Z) (got : option Z) rd (t : Tried) : Prop :=
  tr_asked t = asked ∧ assigned inst rd asked = got ∧
  shown (tr_lines t) = match got with Some p => [ready_line p] | None => [] end.

(** Once registered: every further attempt resumes, and prints the same port. *)
Lemma rounds_registered inst q p l tried final :
  p ≠ 0 → rounds l (mkClientState inst q (Some p) true) = (tried, final) →
  Forall2 (λ rd t, tries inst (Resume, p) None rd t ∨ tries inst (Resume, p) (Some p) rd t)
    (take (length tried) l) tried.
Proof.
  intros Hp. revert tried final. induction l as [|rd l IH]; intros tried final H.
  { injection H as <- _. constructor. }
  apply rounds_cons in H as [->|(t & st' & more & -> & Ht & Ha & Hm)]; [constructor|].
  cbn [attempt_mode ever_registered last_assigned cs_instance_id] in Ht, Ha.
  cbn [length take].
  assert (st' = mkClientState inst q (Some p) true ∧
    (tries inst (Resume, p) None rd t ∨ tries inst (Resume, p) (Some p) rd t)) as [-> Hone].
  { unfold tries. destruct (assigned inst rd (Resume, p)) as [p'|] eqn:Eq; destruct Ha as [-> Ho].
    - apply assigned_range in Eq as [_ E]. rewrite (E Hp) in *. cbn [snd] in *. auto.
    - auto. }
  constructor; [done|]. destruct Hm as [->|[f Hm]]; [constructor|by eapply IH].
Qed.

(** (C36) A client keeps its port for its whole life, whatever the servers it
    reaches answer.  Its attempts are fresh registrations, all for the port of
    the command line (0 if there is none), and print nothing on standard
    output, until one is assigned a port: an unprivileged one, and the port of
    the command line if there was one; it is printed.  Every later attempt
    resumes the very port that was assigned, and is assigned none, printing
    nothing, or this port again, printing it. *)
Theorem client_keeps_port inst (l : list (Round R S Chan)) tried final :
  let asked := (Fresh, default 0 (remote_port config)) in
  run_client (Sem := Sem) hmac io_text secs_text timing config (Ok inst) l = (tried, final) →
  ∃ before after l1 l2, tried = before ++ after ∧ l1 ++ l2 = take (length tried) l ∧
    Forall2 (λ rd t, tr_asked t = asked ∧ assigned inst rd asked = None ∧
                     shown (tr_lines t) = []) l1 before ∧
    match l2, after with
    | [], [] => True
    | rd :: l2, first :: later => ∃ p, assigned inst rd asked = Some p ∧ 1024 <= p <= 65535 ∧
        (∀ q, remote_port config = Some q → q ≠ 0 → p = q) ∧
        tr_asked first = asked ∧ shown (tr_lines first) = [ready_line p] ∧
        Forall2 (λ rd t, tr_asked t = (Resume, p) ∧
          (assigned inst rd (Resume, p) = None ∧ shown (tr_lines t) = [] ∨
           assigned inst rd (Resume, p) = Some p ∧ shown (tr_lines t) = [ready_line p])) l2 later
    | _, _ => False
    end.
Proof.
  intros asked. unfold run_client, client_state. revert tried final.
  induction l as [|rd l IH]; intros tried final H.
  { injection H as <- _. by exists [], [], [], []. }
  apply rounds_cons in H as [->|(t & st' & more & -> & Ht & Ha & Hm)];
    [by exists [], [], [], []|].
  change (attempt_mode _) with asked in Ht, Ha. cbn [cs_instance_id] in Ha. cbn [length take].
  destruct (assigned inst rd asked) as [p|] eqn:Eq; destruct Ha as [-> Ho].
  - pose proof (assigned_range _ _ _ _ Eq) as [Hr Hreq].
    exists [], (t :: more), [], (rd :: take (length more) l). split_and!; [done..|].
    exists p. split_and!; [done|lia..| |done|done|].
    + intros q Hq Hne. rewrite Hreq; unfold asked; cbn [snd]; by rewrite Hq.
    + destruct Hm as [->|[f Hm]]; [constructor|].
      eapply Forall2_impl; [eapply (rounds_registered inst _ p l more f); [lia|exact Hm]|].
      intros rd' t' [(? & ? & ?)|(? & ? & ?)]; auto.
  - destruct Hm as [->|[f Hmore]].
    + exists [t], [], [rd], []. split; [done|]. split; [done|]. split; [|done].
      by repeat constructor.
    + destruct (IH _ _ Hmore) as (b & a & l1 & l2 & -> & Hl & Hb & Hrest).
      exists (t :: b), a, (rd :: l1), l2. split; [done|]. split; [by rewrite <-Hl|].
      split; [by constructor|done].
Qed.
End client.
