(* ===== verification/ServerFacts.v ===== *)
(** * What the server around the registry guarantees *)

From Stdlib Require Import Strings.String Strings.Byte.
From S2P Require Import Prelude Errors Io Protocol ProtocolFacts Auth Runtime Timing Net Config.
From S2P Require Import Registry RegistryOps RegistryInv RegistrySafe RegistrySpec RegistryProps.
From S2P Require Import Handshake HandshakeFacts Sessions SessionFacts Server.

Local Open Scope Z_scope.

(** The task of a public connection always ends with exactly one notice to
    the registry, and it forwards only to a data connection that was delivered
    in time and told DATA_READY in time, with no cancellation seen; in every
    other case it closes the public connection without a byte to either side. *)
Lemma serve_public_ends w y sid rid acts :
  serve_public w y sid rid = Some acts →
  ∃ pre, acts = pre ++ [NotifyFinished sid rid] ∧ (NotifyFinished sid rid ∉ pre) ∧
    ((∃ s, w_cancelled w = false ∧ w_expired w = false ∧ w_received w = Some (Some s) ∧
       y_cancelled y = false ∧ y_expired y = false ∧ y_written y = Some true ∧
       pre = [SendReady; Forward]) ∨
     ((Forward ∉ pre) ∧ (SendReady ∉ pre) ∧ ClosePublic ∈ pre)).
Proof.
  unfold serve_public, wait_data, write_ready. intros H.
  destruct w as [[] [] [[s|]|]], y as [[] [] [[]|]]; simpl in H; simplify_eq/=;
    first [by exists [ClosePublic]; split_and!; [done|set_solver|right; set_solver]
          |by exists [ClosePublic; CloseData]; split_and!; [done|set_solver|right; set_solver]
          |exists [SendReady; Forward]; split_and!; [done|set_solver|left; by exists s]].
Qed.

(** ** The limit on handshakes *)

Section accept.
Context {Sem : Type} `{!Semaphore Sem, !SemaphoreLaws Sem}.

(** The permits of the accept loop belong to connection tasks, not to
    handshakes: with [MAX_HANDSHAKES] tasks running, whatever they do, no new
    connection is taken. *)
Lemma accept_loop_permits (l : list ServerEvent) :
  (available (handshakes (accept_loop (Sem := Sem) l)) + running (accept_loop (Sem := Sem) l) =
   MAX_HANDSHAKES)%nat.
Proof using SemaphoreLaws0.
  unfold accept_loop.
  assert (available (handshakes (accept_new : AcceptState)) +
    running (accept_new (Sem := Sem)) = MAX_HANDSHAKES)%nat as H0.
  { unfold accept_new. cbn [handshakes running]. rewrite available_new. lia. }
  revert H0. generalize (accept_new (Sem := Sem)). induction l as [|e l IH]; intros st H; [done|].
  simpl. apply IH. unfold accept_event. destruct (negb (accepting st)); [done|].
  destruct e as [s peer|e|o|]; cbn [handshakes running]; try done.
  - destruct (try_acquire (handshakes st)) as [p|] eqn:E; [|done]. cbn [handshakes running].
    apply try_acquire_Some in E. lia.
  - destruct (running st) eqn:E; cbn [handshakes running]; [by rewrite E|].
    rewrite available_release. lia.
Qed.

(** (C39) The accept loop runs at most [MAX_HANDSHAKES] connection tasks and
    loses no permit.  A permit belongs to a task to its end, which for a
    control connection is the end of its session: with [MAX_HANDSHAKES] tasks
    running, whether they still shake hands or not, no connection is taken;
    with fewer, every one is, until the server stops. *)
Theorem accept_limit (l : list ServerEvent) socket peer :
  let st := accept_loop (Sem := Sem) l in
  (available (handshakes st) + running st = MAX_HANDSHAKES)%nat ∧
  (running st = MAX_HANDSHAKES → accept_event (Accepted socket peer) st = st) ∧
  (accepting st = true → (running st < MAX_HANDSHAKES)%nat →
     dispatched (accept_event (Accepted socket peer) st) = dispatched st ++ [socket]).
Proof using SemaphoreLaws0.
  intros st. pose proof (accept_loop_permits l) as H. fold st in H. split; [done|].
  unfold accept_event. split.
  - intros Hr. destruct (negb (accepting st)); [done|].
    assert (try_acquire (handshakes st) = None) as -> by (apply try_acquire_None; lia). done.
  - intros -> Hr. simpl. destruct (try_acquire (handshakes st)) eqn:E; [done|].
    apply try_acquire_None in E. lia.
Qed.
End accept.

(** ** OPEN and REGISTERED

    The registry installs a session before [serve] queues REGISTERED.  When the
    public listener of the port already exists, a connection it accepts in
    between is announced first. *)

(** A client that finds the OPEN in front of its REGISTERED gives up for good. *)
Lemma client_register_early_open hmac key h sn sid {R : Type → Type} {S} (W : World R S)
    io_text rid c rest :
  (∀ k m, length (hmac k m) = 32%nat) → reliable W →
  wf_hello h → length sn = 32%nat → length sid = 16%nat → length rid = 16%nat →
  (∀ t, entropy W t 32 = Ok (hello_nonce h)) →
  inbound c = frame_encode (challenge_frame hmac key h sn sid) ++
    frame_encode (mkFrame TOpen rid) ++ rest →
  ∃ c', run W (client_register hmac io_text key (instance_id h) (mode h) (requested_port h)) c =
    (Err (FFatal (app_protocol "unexpected message for this state")), c').
Proof.
  intros Hmac HW Hh Hsn Hsid Hrid Hcn Hi.
  assert (mkControlHello (instance_id h) (hello_nonce h) (mode h) (requested_port h) = h)
    as Eta by by destruct h.
  unfold client_register. run_fwd (run_write_preamble_fwd W HW Control c).
  run_fwd (run_random_fwd W 32 (hello_nonce h) c0 Hcn). rewrite Eta.
  run_fwd (run_write_frame_fwd W HW (hello_frame h) c1 (wf_hello_frame h Hh)).
  rewrite <-I, <-I0, <-I1 in Hi.
  run_fwd (run_read_frame_fwd W HW c2 (challenge_frame hmac key h sn sid) _
    (wf_challenge_frame hmac key h sn sid Hmac Hsn Hsid) Hi).
  run_pure (require_kind_ok (challenge_frame hmac key h sn sid) Control eq_refl).
  change (server_refusal (challenge_frame hmac key h sn sid)) with (@None Failure).
  run_pure (require_type_ok (challenge_frame hmac key h sn sid) TControlChallenge eq_refl).
  run_pure (proj2 (ControlChallenge_decode_exact (payload (challenge_frame hmac key h sn sid)) _)
    (conj (wf_control_challenge hmac key h sn sid Hmac Hsn Hsid) eq_refl)).
  unfold verify at 1. rewrite bool_decide_true by done. cbn [negb].
  run_fwd (run_write_frame_fwd W HW (proof_frame hmac key h sn sid) c3
    (wf_proof_frame hmac key h sn sid Hmac)).
  rewrite <-I3 in I2.
  run_fwd (run_read_frame_fwd W HW c4 (mkFrame TOpen rid) rest Hrid I2).
  run_pure (require_kind_ok (mkFrame TOpen rid) Control eq_refl).
  change (server_refusal (mkFrame TOpen rid)) with (@None Failure). cbn iota.
  change (require_type (mkFrame TOpen rid) TRegistered)
    with (@Err ProtocolError unit (protocol_error "unexpected message for this state")).
  eexists. reflexivity.
Qed.

Section early.
Context {Sem Chan : Type} `{!Semaphore Sem, !Channel Outbound Chan}.
Context `{!SemaphoreLaws Sem, !ChannelLaws Outbound Chan}.

(** The registry's half: a reserved port resumed, then a public connection. *)
Lemma early_open config timing env env' req (r : Registry Sem Chan) slot until (q : Chan) rid
    socket at_ :
  wf_server_config config → reachable config timing r → admissible (CRegister req) r →
  rq_mode req = Resume → ports r !! rq_requested_port req = Some slot →
  (∃ g, slot_state slot = Reserved (rq_instance_id req) g until) →
  next_generation r + 1 < 2 ^ 64 →
  writers r !! rq_writer req = Some q → chan_closed q = false →
  (length (chan_queue q) < chan_capacity q)%nat →
  (size (tasks r) < MAX_GLOBAL_CONNECTIONS)%nat →
  (0 < draws env')%nat → random_id env' 0 = Some rid →
  ∃ reg r1 r2 q2,
    register config timing env req r = Returns (Ok reg, r1) ∧
    accepted_public timing env' (listener_id slot) (rq_requested_port req) socket at_ r1 =
      Returns r2 ∧
    writers r2 !! rq_writer req = Some q2 ∧ chan_closed q2 = false ∧
    chan_capacity q2 = chan_capacity q ∧ chan_queue q2 = chan_queue q ++ [out_frame TOpen rid].
Proof.
  intros Hwf Hr Had Hm Hp [g Hst] Hg Hw Hc Hcap Hsize Hd Hri. set (p := rq_requested_port req) in *.
  pose proof (invariant_of_reachable _ _ _ Hwf Hr) as Hi.
  destruct (own_ports _ _ _ _ _ (inv_owned _ _ Hi) p) as [_ Hlp]; [eauto|].
  pose proof (resume_own_port config timing env req r slot Hp
    ltac:(unfold slot_owner; by rewrite Hst) Hm Hlp Hg) as Hreg.
  set (reg := mkRegistration _ _ _) in Hreg. set (r1 := installed _ _ _ _ _ _) in Hreg.
  assert (active_session slot = None) as Hact by (unfold active_session; by rewrite Hst).
  set (s := new_session req p (next_generation r)).
  destruct (try_send q (out_frame TOpen rid)) as [q2|] eqn:E3;
    [|apply try_send_None in E3 as [?|?]; [congruence|lia]].
  apply try_send_Some in E3 as Hs2. destruct Hs2 as (Hq2 & K2 & C2).
  destruct (try_acquire (sem_new (Z.to_nat (sc_max_connections config)))) as [sem'|] eqn:E1.
  2: { apply try_acquire_None in E1. rewrite available_new in E1. destruct Hwf as (_ & _ & _ & _ & ?).
       lia. }
  destruct (try_acquire (global_connections r)) as [G'|] eqn:E2;
    [|apply (global_permit _ _ Hi) in E2; lia].
  destruct (accepted_public_run timing env' (listener_id slot) p socket at_ r1
    (mkPortSlot (listener_id slot) (listener_cancel slot) (Active s)) s q q2
    (sem_new (Z.to_nat (sc_max_connections config))) sem' G' rid) as (r2 & Hacc & Hw2 & _);
    try done.
  { by apply lookup_insert_eq. }
  { by apply lookup_insert_eq. }
  { unfold r1, installed. cbn [writers displaced_writers]. by rewrite Hact. }
  { unfold r1, installed. cbn [pending]. rewrite Hact. apply eq_None_not_Some. intros [e He].
    destruct (own_pending _ _ _ _ _ (inv_owned _ _ Hi) _ _ _ He) as (x & Hx & _).
    destruct Had as [Hfresh _]. simpl in Hx, Hfresh. congruence. }
  exists reg, r1, r2, q2. split_and!; try done. rewrite Hw2. apply lookup_insert_eq.
Qed.

(** (C40) An OPEN can be queued before REGISTERED, and the client that finds it
    there gives up for good.  In any reachable state where a port is reserved
    for an instance, let that instance resume on it with a new connection whose
    writer queue is empty.  A connection that the public listener of the port
    has accepted, and that the registry handles right after the registration,
    puts its OPEN first; [serve] then queues REGISTERED behind it; and a client
    whose connection carries the challenge and then the frames of that queue
    ends its registration with a fatal protocol error. *)
Theorem open_before_registered config timing hmac key h sn sid env env' (r : Registry Sem Chan)
    slot g until w data_cancel control_cancel (q : Chan) rid socket at_ :
  (∀ k m, length (hmac k m) = 32%nat) → wf_hello h → length sn = 32%nat →
  length sid = 16%nat → length rid = 16%nat →
  let a := mkAuthenticated h sid (control_transcript h sn sid) in
  let req := register_request a w data_cancel control_cancel in
  wf_server_config config → reachable config timing r → admissible (CRegister req) r →
  mode h = Resume → ports r !! requested_port h = Some slot →
  slot_state slot = Reserved (instance_id h) g until → next_generation r + 1 < 2 ^ 64 →
  writers r !! w = Some q → chan_queue q = [] → chan_closed q = false →
  (2 ≤ chan_capacity q)%nat → (size (tasks r) < MAX_GLOBAL_CONNECTIONS)%nat →
  (0 < draws env')%nat → random_id env' 0 = Some rid →
  ∃ reg r1 r2 q2 q3,
    register config timing env req r = Returns (Ok reg, r1) ∧
    accepted_public timing env' (listener_id slot) (requested_port h) socket at_ r1 =
      Returns r2 ∧
    writers r2 !! w = Some q2 ∧
    let registered := OutFrame (registered_frame hmac key a reg) in
    send_waiting registered [q2] = Some (Some q3) ∧
    chan_queue q3 = [out_frame TOpen rid; registered] ∧
    (∀ l, ∃ later, serve_registration timing hmac key a data_cancel control_cancel (Ok reg)
       [q2] [] l = Queues registered :: later) ∧
    ∀ (R : Type → Type) (S : Type) (W : World R S) io_text c rest,
      reliable W → (∀ t, entropy W t 32 = Ok (hello_nonce h)) →
      inbound c = frame_encode (challenge_frame hmac key h sn sid) ++
        mjoin (frame_encode <$> flushed (chan_queue q3)) ++ rest →
      ∃ c', run W (client_register hmac io_text key (instance_id h) (mode h) (requested_port h)) c =
        (Err (FFatal (app_protocol "unexpected message for this state")), c').
Proof.
  intros Hmac Hh Hsn Hsid Hrid a req Hwf Hr Had Hm Hp Hst Hg Hw Hq Hc Hcap Hsize Hd Hri.
  destruct (early_open config timing env env' req r slot until q rid socket at_)
    as (reg & r1 & r2 & q2 & Hreg & Hacc & Hw2 & C2 & K2 & Hq2);
    try done; [by exists g|rewrite Hq; simpl; lia|]. rewrite Hq in Hq2.
  set (registered := OutFrame (registered_frame hmac key a reg)).
  destruct (try_send q2 registered) as [q3|] eqn:E4;
    [|apply try_send_None in E4 as [?|E4]; [congruence|rewrite K2, Hq2 in E4; simpl in E4; lia]].
  apply try_send_Some in E4 as Hs3. destruct Hs3 as (Hq3 & _ & _). rewrite Hq2 in Hq3.
  assert (send_waiting registered [q2] = Some (Some q3)) as Hsend
    by (unfold send_waiting; by rewrite C2, E4).
  exists reg, r1, r2, q2, q3. split_and!; [exact Hreg|exact Hacc|exact Hw2|].
  cbv zeta. split_and!; [exact Hsend|done| |].
  - intros l. unfold serve_registration. fold registered. rewrite Hsend. eauto.
  - intros R S W io_text c rest HW He Hin. rewrite Hq3 in Hin.
    change (flushed _) with [mkFrame TOpen rid; registered_frame hmac key a reg] in Hin.
    cbn [fmap list_fmap mjoin list_join] in Hin. rewrite <-!app_assoc in Hin.
    by eapply (client_register_early_open hmac key h sn sid W io_text rid c _ Hmac HW Hh Hsn Hsid).
Qed.
End early.
