(* ===== verification/Process.v ===== *)
(** * The process: [src/shutdown.rs] and [src/main.rs] around the server and the client

    The task that waits for a signal, and what becomes of the process: the token
    it cancels is the one the server's loop and the client watch. *)

From Stdlib Require Import Strings.String.
From S2P Require Import Prelude Errors Io Protocol Auth Runtime Timing Text Net Config Cli.
From S2P Require Import Registry Handshake Sessions Client Server.

Local Open Scope Z_scope.

(** ** [shutdown::wait_for_signal]

    The [select!] is not biased: each poll starts with some branch and takes the
    first that is ready.  The results of the two signals are not looked at, so a
    Ctrl-C handler that cannot be installed counts as Ctrl-C. *)

Inductive SignalBranch := CtrlC | Terminated | TokenCancelled.

Record SignalPoll := mkSignalPoll {
  sp_first : nat;
  sp_ctrl_c : option (result IoError unit);
  sp_terminated : option (option unit);
  sp_cancelled : bool
}.

Definition branch_ready (p : SignalPoll) (b : SignalBranch) : bool :=
  match b with
  | CtrlC => bool_decide (is_Some (sp_ctrl_c p))
  | Terminated => bool_decide (is_Some (sp_terminated p))
  | TokenCancelled => sp_cancelled p
  end.

Fixpoint select_branch (branches : list SignalBranch) (polls : list SignalPoll) :
    option SignalBranch :=
  match polls with
  | [] => None
  | p :: polls =>
      match List.find (branch_ready p) (rotate (sp_first p) branches) with
      | Some b => Some b
      | None => select_branch branches polls
      end
  end.

(** Without a SIGTERM handler the second [select!] of the function is taken. *)
Definition signal_branches (sigterm : result IoError unit) : list SignalBranch :=
  match sigterm with
  | Ok _ => [CtrlC; Terminated; TokenCancelled]
  | Err _ => [CtrlC; TokenCancelled]
  end.

(** Whether it has returned, and whether it cancelled the token. *)
Definition wait_for_signal (sigterm : result IoError unit) (polls : list SignalPoll) :
    option bool :=
  (λ b, match b with TokenCancelled => false | _ => true end)
    <$> select_branch (signal_branches sigterm) polls.

(** ** The process *)

Section process.
Context {R : Type → Type} {S : Type}.
Context {Sem Chan : Type} `{!Semaphore Sem, !Channel Outbound Chan}.

(** The start of the runtime; the signals; the server's listener and what its
    loop sees until it is stopped; the client's identity and its rounds. *)
Record ProcessEnv := mkProcessEnv {
  pe_runtime : result IoError unit;
  pe_sigterm : result IoError unit;
  pe_signals : list SignalPoll;
  pe_bound : result IoError unit;
  pe_local : result IoError SocketAddr;
  pe_events : list ServerEvent;
  pe_drawn : result AppError InstanceId;
  pe_rounds : list (Round R S Chan)
}.

Context (hmac : bytes → bytes → bytes) (secs_text : Duration → string).
Context (io_text : IoError → string) (vars : string → option string).
Context (read : string → result IoError bytes).

(** The server of [main]: nobody waits for its address, and its loop is stopped
    once a signal has cancelled the token. *)
Definition process_run_env (env : ProcessEnv) : RunEnv :=
  mkRunEnv (pe_bound env) (pe_local env) false
    (pe_events env ++
       match wait_for_signal (pe_sigterm env) (pe_signals env) with
       | Some true => [Stopped]
       | _ => []
       end).

Definition process_server (env : ProcessEnv) (c : ServerConfig) :
    list Line * option (result AppError unit) :=
  (server_lines (Sem := Sem) io_text c (process_run_env env),
   (server_run (Sem := Sem) io_text Timing_default c (process_run_env env)).1).

Definition process_client (env : ProcessEnv) (c : ExposeConfig) :
    list Line * option (result AppError unit) :=
  let '(tried, final) :=
    run_client (Sem := Sem) hmac io_text secs_text Timing_default c (pe_drawn env)
      (pe_rounds env) in
  (tried ≫= tr_lines, match final with Finished r => Some r | _ => None end).

(** Standard output, standard error (of the main task) and the exit code, or
    [None] while the process runs. *)
Definition process (env : ProcessEnv) (args : list string) : option (list string * list string * Z) :=
  main_exit io_text vars read (pe_runtime env) (process_server env) (process_client env) args.
End process.
Arguments ProcessEnv : clear implicits.
