(* ===== verification/ProcessFacts.v ===== *)
(** * What becomes of the process

    When the signal task cancels the token, that every error of the settings is
    an error of usage, and with which code the process ends. *)

From Stdlib Require Import Strings.String.
From stdpp Require Import pretty.
From S2P Require Import Prelude Errors Io Protocol Auth Runtime Timing Text Net NetFacts Config Cli.
From S2P Require Import SettingsFacts CliFacts Registry Handshake Sessions Client Server Process.

Local Open Scope Z_scope.

(** ** Signals *)

Lemma elem_of_rotate {A} n (l : list A) x : x ∈ rotate n l ↔ x ∈ l.
Proof.
  rewrite <-(take_drop (n `mod` List.length l) l) at 2. unfold rotate. rewrite !elem_of_app. tauto.
Qed.

Lemma select_branch_None branches polls :
  select_branch branches polls = None ↔
  ∀ p b, p ∈ polls → b ∈ branches → branch_ready p b = false.
Proof.
  induction polls as [|p polls IH]; cbn [select_branch]; [set_solver|].
  destruct (List.find _ _) as [b|] eqn:E.
  - split; [done|]. intros H. apply find_some in E as [Hin Hr].
    apply list_elem_of_In, elem_of_rotate in Hin.
    rewrite (H p b) in Hr; [done|set_solver|done].
  - rewrite IH. split; [|set_solver]. intros H q b [->|Hq]%elem_of_cons Hb; [|by apply H].
    eapply find_none in E; [exact E|]. by apply list_elem_of_In, elem_of_rotate.
Qed.

Lemma select_branch_Some branches polls b :
  select_branch branches polls = Some b →
  b ∈ branches ∧ ∃ p, p ∈ polls ∧ branch_ready p b = true.
Proof.
  induction polls as [|p polls IH]; cbn [select_branch]; [done|].
  destruct (List.find _ _) as [b'|] eqn:E.
  - intros [= ->]. apply find_some in E as [Hin Hr]. apply list_elem_of_In, elem_of_rotate in Hin.
    split; [done|]. exists p. set_solver.
  - intros (Hb & q & Hq & Hr)%IH. split; [done|]. exists q. set_solver.
Qed.

(** What the task waits for: the end of the wait for Ctrl-C, or SIGTERM when its
    handler is installed.  The wait for Ctrl-C also ends, with an error nobody
    looks at, when the handler of Ctrl-C cannot be installed. *)
Definition signalled (sigterm : result IoError unit) (p : SignalPoll) : Prop :=
  is_Some (sp_ctrl_c p) ∨ (sigterm = Ok () ∧ is_Some (sp_terminated p)).

Lemma wait_for_signal_cancels sigterm polls :
  wait_for_signal sigterm polls = Some true → ∃ p, p ∈ polls ∧ signalled sigterm p.
Proof.
  unfold wait_for_signal. intros (b & Hs & Hb)%fmap_Some.
  apply select_branch_Some in Hs as (Hin & p & Hp & Hr). exists p. split; [done|].
  destruct b; cbn [branch_ready] in Hr; [..|done]; apply bool_decide_eq_true in Hr; [by left|].
  right. split; [|done]. destruct sigterm as [[]|]; [done|]. simpl in Hin. set_solver.
Qed.

(** Nobody else cancels the token: the task returns exactly when it cancels. *)
Lemma wait_for_signal_only sigterm polls :
  (∀ p, p ∈ polls → sp_cancelled p = false) →
  match wait_for_signal sigterm polls with
  | Some cancelled => cancelled = true
  | None => ∀ p, p ∈ polls → ¬ signalled sigterm p
  end.
Proof.
  intros Hc. unfold wait_for_signal. destruct (select_branch _ _) as [b|] eqn:E; simpl.
  - apply select_branch_Some in E as (_ & p & Hp & Hr). destruct b; [done..|].
    simpl in Hr. by rewrite (Hc _ Hp) in Hr.
  - rewrite select_branch_None in E. intros p Hp [Hs|[-> Hs]].
    + assert (branch_ready p CtrlC = true) as Ht by by apply bool_decide_eq_true.
      rewrite E in Ht; [done|done|]. destruct sigterm; simpl; set_solver.
    + assert (branch_ready p Terminated = true) as Ht by by apply bool_decide_eq_true.
      rewrite E in Ht; [done|done|]. simpl. set_solver.
Qed.

(** ** Errors of the settings *)

(** Every error of [r] is one of usage, with exit code 2. *)
Definition usage {A} (r : result AppError A) : Prop := ∀ e, r = Err e → exit_code e = 2.

Lemma usage_Ok {A} (a : A) : usage (Ok a).
Proof. by intros e. Qed.
Lemma usage_Err {A} m : usage (A := A) (Err (AppConfig m)).
Proof. by intros e [= <-]. Qed.
Lemma usage_ok_or {A} (o : option A) m : usage (ok_or o (AppConfig m)).
Proof. destruct o; [apply usage_Ok|apply usage_Err]. Qed.
Lemma usage_bind {A B} (r : result AppError A) (f : A → result AppError B) :
  usage r → (∀ a, usage (f a)) → usage (r ≫= f).
Proof. intros Hr Hf e [H|(a & _ & H)]%result_bind_Err_inv; [by apply Hr|by eapply Hf]. Qed.
Lemma usage_if {A} (P : Prop) `{!Decision P} (r r' : result AppError A) :
  usage r → usage r' → usage (if decide P then r else r').
Proof. intros. by case_decide. Qed.

Create HintDb usage.
#[export] Hint Resolve usage_Ok usage_Err usage_ok_or usage_bind usage_if : usage.

(** One step of the search; parsers are unfolded by hand. *)
Ltac usage :=
  repeat first
    [progress (auto with usage)
    |apply usage_bind; [|intros ?]
    |apply usage_if
    |match goal with
     | |- usage (match ?x with _ => _ end) => destruct x
     end].

Lemma usage_parse_port value field : usage (parse_port value field).
Proof. apply usage_ok_or. Qed.
Lemma usage_required raw name : usage (required raw name).
Proof. unfold required. usage. Qed.
Lemma usage_log_level raw : usage (log_level raw).
Proof. apply usage_ok_or. Qed.
Lemma usage_quiet raw : usage (quiet raw).
Proof. unfold quiet. usage. Qed.
Lemma usage_parse_bind_ip value : usage (parse_bind_ip value).
Proof. apply usage_ok_or. Qed.

#[export] Hint Resolve usage_parse_port usage_required usage_log_level usage_quiet
  usage_parse_bind_ip : usage.

Lemma usage_parse_listen value : usage (parse_listen value).
Proof. unfold parse_listen. usage. Qed.
Lemma usage_parse_server value : usage (parse_server value).
Proof. unfold parse_server. usage. Qed.
Lemma usage_parse_target value : usage (parse_target value).
Proof. unfold parse_target. usage. Qed.
Lemma usage_parse_port_range value : usage (parse_port_range value).
Proof. unfold parse_port_range. usage. Qed.
Lemma usage_parse_remote_port o : usage (parse_remote_port o).
Proof. unfold parse_remote_port. usage. Qed.

#[export] Hint Resolve usage_parse_listen usage_parse_server usage_parse_target
  usage_parse_port_range usage_parse_remote_port : usage.

Lemma usage_server_config raw : usage (server_config raw).
Proof. unfold server_config. usage. Qed.
Lemma usage_expose_config raw : usage (expose_config raw).
Proof. unfold expose_config. usage. Qed.

Lemma usage_parse_file io_text path explicit read : usage (parse_file io_text path explicit read).
Proof.
  unfold parse_file. destruct read as [bs|]; [|by destruct (_ && _); usage].
  destruct (negb _); [usage|].
  intros e (k & reason & _ & _ & ->)%parse_lines_Err. done.
Qed.

#[export] Hint Resolve usage_server_config usage_expose_config usage_parse_file : usage.

(** Whatever keeps a command from being started is an error of usage. *)
Lemma usage_run_command io_text vars read args : usage (run_command io_text vars read args).
Proof.
  unfold run_command. apply usage_bind; [intros e H; by eapply parse_args_usage|].
  intros [| |[] path explicit cli]; [usage..| |]; unfold resolve; usage.
Qed.

(** ** The server's process *)

Section process.
Context {R : Type → Type} {S : Type}.
Context {Sem Chan : Type} `{!Semaphore Sem, !Channel Outbound Chan}.

Lemma accept_event_accepting e (st : AcceptState (Sem := Sem)) :
  accepting (accept_event e st) = true ↔ accepting st = true ∧ e ≠ Stopped.
Proof.
  unfold accept_event. destruct (accepting st) eqn:E; simpl; [|by rewrite E; naive_solver].
  destruct e; simpl; try (by rewrite ?E; naive_solver).
  - by destruct (try_acquire _); simpl; rewrite ?E.
  - by destruct (running st); simpl; rewrite ?E.
Qed.

Lemma accept_loop_accepting l : accepting (accept_loop (Sem := Sem) l) = true ↔ Stopped ∉ l.
Proof.
  unfold accept_loop. enough (∀ st : AcceptState (Sem := Sem),
    accepting (foldl (λ st e, accept_event e st) st l) = true ↔
    accepting st = true ∧ Stopped ∉ l) as H by (rewrite H; naive_solver).
  induction l as [|e l IH]; intros st; simpl; [set_solver|].
  rewrite IH, accept_event_accepting, not_elem_of_cons. naive_solver.
Qed.

Context (hmac : bytes → bytes → bytes) (secs_text : Duration → string).
Context (io_text : IoError → string) (vars : string → option string).
Context (read : string → result IoError bytes).
Implicit Types env : ProcessEnv R S Chan.

(** How [run] ends, and that it told the registry to shut down if it was stopped. *)
Lemma server_run_result timing c (env : RunEnv) :
  let r := server_run (Sem := Sem) io_text timing c env in
  match re_bound env, re_local env with
  | Ok _, Ok _ =>
      if decide (Stopped ∈ re_events env)
      then r.1 = Some (Ok ()) ∧ RegistryShutdown ∈ r.2 else r.1 = None
  | Err e, _ =>
      r.1 = Some (Err (AppRuntime ("cannot listen on " +:+ display_addr (listen c)
              +:+ ": " +:+ io_text e)))
  | Ok _, Err e => r.1 = Some (Err (AppIo e))
  end.
Proof.
  unfold server_run. destruct (re_bound env); [|done]. destruct (re_local env); [|done].
  pose proof (accept_loop_accepting (re_events env)) as H.
  destruct (accepting _); simpl; case_decide; try done; [naive_solver| |naive_solver].
  split; [done|]. set_solver.
Qed.

(** Whatever the loop logs before it is stopped is for debugging. *)
Lemma accept_lines_debug lg l (st : AcceptState (Sem := Sem)) :
  Stopped ∉ l → enabled lg LevelDebug = false →
  accept_lines io_text l st ≫= on_stderr lg = [].
Proof.
  intros Hl Hd. revert st. induction l as [|e l IH]; intros st; [done|].
  apply not_elem_of_cons in Hl as [He Hl]. cbn [accept_lines]. rewrite bind_app.
  rewrite (IH Hl), app_nil_r. unfold accept_line. destruct (negb _); [done|].
  destruct e as [s p|e|o|]; [| | |done].
  - destruct (try_acquire _); cbn; unfold log; by rewrite Hd.
  - cbn. unfold log. by rewrite Hd.
  - destruct (running st), o; try done. cbn. unfold log. by rewrite Hd.
Qed.

(** Nothing of it goes to standard output. *)
Lemma accept_lines_stdout l (st : AcceptState (Sem := Sem)) :
  accept_lines io_text l st ≫= on_stdout = [].
Proof.
  revert st. induction l as [|e l IH]; intros st; [done|]. cbn [accept_lines].
  rewrite bind_app, IH, app_nil_r. unfold accept_line. destruct (negb _); [done|].
  destruct e as [s p|e|o|]; [by destruct (try_acquire _)|done| |done].
  by destruct (running st), o.
Qed.

Lemma accept_lines_stopped l (st : AcceptState (Sem := Sem)) :
  accepting st = true → Stopped ∉ l →
  accept_lines io_text (l ++ [Stopped]) st =
    accept_lines io_text l st ++ [Log LevelInfo "shutting down"].
Proof.
  revert st. induction l as [|e l IH]; intros st Ha Hl.
  - cbn. unfold accept_line. by rewrite Ha.
  - apply not_elem_of_cons in Hl as [He Hl]. cbn [app accept_lines].
    rewrite IH, app_assoc; [done| |done]. by apply accept_event_accepting.
Qed.

(** The line of [server::run] when it accepts. *)
Definition listening_line (local : SocketAddr) : string :=
  "tunlet server listening on " +:+ display_addr local +:+ " (control and data)".

Definition range_line (c : ServerConfig) : string :=
  "automatic port range " +:+ pretty (allowed_ports c).1 +:+ "-" +:+
    pretty (allowed_ports c).2 +:+ ", public bind address " +:+ ip_text (data_bind c) +:+ ", " +:+
    pretty (sc_max_connections c) +:+ " connections per tunnel".

(** (C22) How a server's process ends.  Without a runtime it ends with code 1.  A
    command line, a variable or a file with an error ends it with code 2, one
    line on standard error and nothing started.  With valid settings it ends
    with code 1 and one line on standard error when its address cannot be bound;
    otherwise it runs exactly as long as no SIGTERM has come with its handler
    installed and the wait for Ctrl-C goes on (it ends by Ctrl-C, and also when
    the handler of Ctrl-C cannot be installed), and then ends with code 0, its
    registry told to shut down.  It prints nothing on standard output; what its
    main task has written to standard error is, through the logger of the
    settings, the address it listens on, its ports and limits, lines for
    debugging, and that it shuts down. *)
Theorem process_exit env args :
  Stopped ∉ pe_events env → (∀ p, p ∈ pe_signals env → sp_cancelled p = false) →
  let result := process (Sem := Sem) (Chan := Chan) hmac secs_text io_text vars read env args in
  match pe_runtime env with
  | Err e =>
      result = Some ([], ["tunlet: cannot start the async runtime: " +:+ io_text e], 1)
  | Ok _ =>
  match run_command io_text vars read args with
  | Err e => result = Some ([], ["tunlet: " +:+ app_error_text io_text e], 2)
  | Ok (StartServer c lg) =>
      match pe_bound env, pe_local env with
      | Err e, _ =>
          result = Some ([], ["tunlet: cannot listen on " +:+ display_addr (listen c) +:+ ": " +:+
                               io_text e], 1)
      | Ok _, Err e => result = Some ([], ["tunlet: I/O error: " +:+ io_text e], 1)
      | Ok _, Ok local =>
          (result = None ↔ ∀ p, p ∈ pe_signals env → ¬ signalled (pe_sigterm env) p) ∧
          ∀ out err code, result = Some (out, err, code) →
            out = [] ∧ code = 0 ∧ (∃ p, p ∈ pe_signals env ∧ signalled (pe_sigterm env) p) ∧
            RegistryShutdown ∈ (server_run (Sem := Sem) io_text Timing_default c
                                  (process_run_env env)).2 ∧
            ∃ debug, (enabled lg LevelDebug = false → debug = []) ∧
              err = log lg LevelInfo (listening_line local) ++ log lg LevelInfo (range_line c) ++
                debug ++ log lg LevelInfo "shutting down"
      end
  | Ok _ => True
  end
  end.
Proof.
  intros Hs Hc result. subst result. unfold process, main_exit.
  destruct (pe_runtime env); [|done].
  destruct (run_command _ _ _ _) as [[| |c lg|c lg]|e] eqn:E; [done..| |done|].
  2: { by rewrite (usage_run_command _ _ _ _ _ E). }
  pose proof (server_run_result Timing_default c (process_run_env env)) as H.
  cbn [process_run_env re_bound re_local re_events] in H.
  unfold process_server, server_lines. cbn [process_run_env re_bound re_local re_events fst snd].
  destruct (pe_bound env) as [[]|e1]; [destruct (pe_local env) as [local|e2]|by rewrite H].
  2: { by rewrite H. }
  pose proof (wait_for_signal_only (pe_sigterm env) (pe_signals env) Hc) as Hw.
  destruct (wait_for_signal _ _) as [b|] eqn:Ew.
  - subst b. apply wait_for_signal_cancels in Ew as (p & Hp & Hsig).
    rewrite decide_True in H by set_solver. destruct H as [-> Hin].
    rewrite accept_lines_stopped by done. cbn [fmap option_fmap option_map].
    split; [split; [done|]; intros Hno; by destruct (Hno p Hp)|].
    intros out err code [= <- <- <-]. split; [|split_and!; [done|eauto|exact Hin|]].
    + cbn. by rewrite bind_app, accept_lines_stdout.
    + eexists (accept_lines io_text (pe_events env) accept_new ≫= on_stderr lg).
      split; [intros; by apply accept_lines_debug|].
      rewrite !bind_app. cbn. by rewrite !app_nil_r.
  - rewrite app_nil_r, decide_False in H by done. rewrite H. by split.
Qed.
End process.
