(* ===== verification/ProcessWitness.v ===== *)
(** * A server's process, on a concrete run

    A server that is given only a key in its environment, and a SIGTERM at the
    second poll of the signal task. *)

From Stdlib Require Import Strings.String.
From S2P Require Import Prelude Errors Io Protocol Auth Runtime Timing Text Net NetFacts Config Cli.
From S2P Require Import SettingsFacts CliFacts SettingsWitness Registry Handshake Sessions Client.
From S2P Require Import Server Process ProcessFacts.

Local Open Scope Z_scope.

Definition quiet_poll : SignalPoll := mkSignalPoll 1 None None false.
Definition sigterm_poll : SignalPoll := mkSignalPoll 2 None (Some (Some ())) false.

Definition demo_local : SocketAddr := mkSocketAddr (V4 0 0 0 0) 4000.

Definition demo_process (signals : list SignalPoll) :
    ProcessEnv (λ _, Empty_set) unit (queue Outbound) := {|
  pe_runtime := Ok ();
  pe_sigterm := Ok ();
  pe_signals := signals;
  pe_bound := Ok ();
  pe_local := Ok demo_local;
  pe_events := [Accepted 1 demo_local; AcceptFailed AddrInUse; TaskEnded None];
  pe_drawn := Ok [];
  pe_rounds := []
|}.

Definition demo_args : list string := ["tunlet"; "server"].

Abbreviation demo_run_of signals args :=
  (process (Sem := nat) (λ _ m, m) (λ _, "5") error_text no_env no_file
     (demo_process signals) args).

Lemma demo_process_goes_on signals : Stopped ∉ pe_events (demo_process signals).
Proof. simpl. set_solver. Qed.

Lemma demo_polls_own p : p ∈ [quiet_poll; sigterm_poll] → sp_cancelled p = false.
Proof. intros [->|[->|[]%elem_of_nil]%elem_of_cons]%elem_of_cons; done. Qed.

(** It runs until the signal, and then ends with code 0 after three lines; with
    an unknown option it ends with code 2. *)
Lemma process_exit_witness :
  demo_run_of [quiet_poll] demo_args = None ∧
  (∃ p, p ∈ [quiet_poll; sigterm_poll] ∧ signalled (Ok ()) p) ∧
  demo_run_of [] ["tunlet"; "server"; "--x"] =
    Some ([], ["tunlet: unrecognized option `--x`"], 2).
Proof.
  split; [|split].
  - pose proof (process_exit (Sem := nat) (λ _ m, m) (λ _, "5") error_text no_env no_file
      (demo_process [quiet_poll]) demo_args) as H. cbn [demo_process pe_runtime] in H.
    destruct (run_command error_text no_env no_file demo_args) as [[| |c lg|c lg]|] eqn:E;
      try (exfalso; vm_compute in E; discriminate E).
    destruct H as [H _]; [apply demo_process_goes_on|
      intros p Hp%list_elem_of_singleton; subst p; reflexivity|].
    apply (proj2 H). intros p Hp.
    apply list_elem_of_singleton in Hp as ->. intros [[? Hs]|[_ [? Hs]]]; discriminate Hs.
  - pose proof (process_exit (Sem := nat) (λ _ m, m) (λ _, "5") error_text no_env no_file
      (demo_process [quiet_poll; sigterm_poll]) demo_args) as H.
    cbn [demo_process pe_runtime] in H.
    destruct (run_command error_text no_env no_file demo_args) as [[| |c lg|c lg]|] eqn:E;
      try (exfalso; vm_compute in E; discriminate E).
    destruct H as [_ H]; [apply demo_process_goes_on|exact demo_polls_own|].
    destruct (H [] ["[info] tunlet server listening on 0.0.0.0:4000 (control and data)";
                    "[info] automatic port range 10000-65535, public bind address 0.0.0.0, 256 connections per tunnel";
                    "[info] shutting down"] 0) as (_ & _ & Hp & _); [|exact Hp].
    vm_compute. reflexivity.
  - pose proof (process_exit (Sem := nat) (λ _ m, m) (λ _, "5") error_text no_env no_file
      (demo_process []) ["tunlet"; "server"; "--x"]) as H. cbn [demo_process pe_runtime] in H.
    assert (run_command error_text no_env no_file ["tunlet"; "server"; "--x"] =
      Err (AppCli "unrecognized option `--x`")) as E by (vm_compute; reflexivity).
    rewrite E in H. apply H; [apply demo_process_goes_on|].
    intros p Hp. by apply elem_of_nil in Hp.
Defined.
