(* ===== verification/Forwarding.v ===== *)
(** * One OPEN and its forwarding: [src/client/data.rs], [src/forward.rs]

    What the client does with one request of the server: it dials the local
    target and the server, proves the key on the data connection, all under the
    deadline of the request, and then forwards, or reports why it did not.  The
    end of the file states what the outcome of a request means, independently
    of the order of the code. *)

From Stdlib Require Import Strings.String.
From S2P Require Import Prelude Errors Io Protocol Auth Runtime Timing Net Config.
From S2P Require Import Registry Handshake.

Local Open Scope Z_scope.

(** ** [forward]

    The two streams get [set_nodelay], whose result is thrown away, and are
    copied into each other by the runtime until both are closed.  One poll of
    the [select!]: what the copy has come to, and whether the token of the
    session is cancelled, which is the error [ConnectionAborted]. *)

Record ForwardPoll := mkForwardPoll {
  fp_copied : option (result IoError (Z * Z));
  fp_cancelled : bool
}.

Fixpoint forward (polls : list ForwardPoll) : option (result IoError (Z * Z)) :=
  match polls with
  | [] => None
  | p :: polls =>
      match fp_copied p with
      | Some r => Some r
      | None => if fp_cancelled p then Some (Err ConnectionAborted) else forward polls
      end
  end.

(** ** [setup] *)

(** The fields of [OpenContext] that are data; its writer queue and its token
    are in the outcome and in the environment. *)
Record OpenContext := mkOpenContext {
  oc_request_id : RequestId;
  oc_session_id : SessionId;
  oc_server_addr : SocketAddr;
  oc_target : Endpoint;
  oc_key : bytes;
  oc_timing : Timing
}.

(** [client::data::Failure]. *)
Inductive SetupFailure :=
| Cancelled
| Reported (reason : OpenFailure) (m : string).

Definition remaining (deadline now : Instant) : result SetupFailure Duration :=
  if decide (deadline <= now) then Err (Reported SetupTimeout "setup budget expired")
  else Ok (deadline - now).

(** What a request meets: the clock when it arrives and at the three readings
    of [setup]; the two dials; the socket of the data connection, and how many
    operations of the handshake finish within a duration; whether the session
    is cancelled before [setup] is done; and the polls of [forward]. *)
Section open.
Context {R : Type → Type} {S : Type} (W : World R S).

Record OpenEnv := mkOpenEnv {
  oe_start : Instant;
  oe_now1 : Instant;
  oe_now2 : Instant;
  oe_now3 : Instant;
  oe_target : DialEnv;
  oe_server : DialEnv;
  oe_conn : Conn S;
  oe_within : Duration → nat;
  oe_stopped : bool;
  oe_polls : list ForwardPoll
}.

Context (hmac : bytes → bytes → bytes) (io_text : IoError → string).

(** [setup]: the result, and the data connection as it leaves it.  The dials
    run concurrently, each under its own budget; when both fail, the target's
    failure is the one that is reported. *)
Definition setup (ctx : OpenContext) (env : OpenEnv) (deadline : Instant) :
    result SetupFailure (Conn S) :=
  left1 ← remaining deadline (oe_now1 env);
  let target_budget := Z.min (target_connect (oc_timing ctx)) left1 in
  data_budget ← remaining deadline (oe_now2 env);
  let target_dial := dial io_text (oe_target env) (oc_target ctx) target_budget in
  let data_dial := connect_addr (oe_server env) (oc_server_addr ctx) data_budget in
  match target_dial with
  | Err error =>
      Err (Reported TargetConnect ("local target " +:+ endpoint_text (oc_target ctx) +:+
             " unavailable: " +:+ app_error_text io_text error))
  | Ok _ =>
      match data_dial with
      | Err error =>
          Err (Reported DataAuth ("data connection failed: " +:+ app_error_text io_text error))
      | Ok _ =>
          budget ← remaining deadline (oe_now3 env);
          match run_for W (oe_within env budget)
            (client_data_handshake hmac (oc_key ctx) (oc_session_id ctx) (oc_request_id ctx))
            (oe_conn env) with
          | (Some (Ok _), data) => Ok data
          | (Some (Err error), _) =>
              Err (Reported DataAuth
                ("data handshake failed: " +:+ app_error_text io_text error))
          | (None, _) => Err (Reported SetupTimeout "data handshake timed out")
          end
      end
  end.

(** ** [handle_open]

    What becomes of the request: the data connection and the result of the
    forwarding ([None]: still forwarding), nothing, or a message for the writer
    queue, to which the code offers it once with [try_send]. *)
Inductive OpenOutcome :=
| Forwarded (data : Conn S) (r : option (result IoError (Z * Z)))
| Abandoned
| Refused (m : Outbound).

Definition handle_open (ctx : OpenContext) (env : OpenEnv) : OpenOutcome :=
  let deadline := oe_start env + request_wait (oc_timing ctx) in
  let result := if oe_stopped env then Err Cancelled else setup ctx env deadline in
  match result with
  | Ok data => Forwarded data (forward (oe_polls env))
  | Err Cancelled => Abandoned
  | Err (Reported reason _) =>
      Refused (out_frame TOpenFailed
        (OpenFailed_encode (mkOpenFailed (oc_request_id ctx) reason)))
  end.

(** ** What the outcome means *)

Context (ctx : OpenContext) (env : OpenEnv).

Abbreviation deadline := (oe_start env + request_wait (oc_timing ctx)).
Abbreviation target_dialed :=
  (dial io_text (oe_target env) (oc_target ctx)
     (Z.min (target_connect (oc_timing ctx)) (deadline - oe_now1 env))).
Abbreviation server_dialed :=
  (connect_addr (oe_server env) (oc_server_addr ctx) (deadline - oe_now2 env)).
Abbreviation handshaken :=
  (run_for W (oe_within env (deadline - oe_now3 env))
     (client_data_handshake hmac (oc_key ctx) (oc_session_id ctx) (oc_request_id ctx))
     (oe_conn env)).

(** The request can be forwarded: both dials and the handshake succeeded, each
    started before the deadline. *)
Definition set_up (data : Conn S) : Prop :=
  oe_now1 env < deadline ∧ oe_now2 env < deadline ∧ oe_now3 env < deadline ∧
  (∃ a, target_dialed = Ok a) ∧ server_dialed = Ok () ∧ handshaken = (Some (Ok ()), data).

(** It cannot, for this reason. *)
Inductive refused_for : OpenFailure → Prop :=
| late_dials :
    deadline <= oe_now1 env ∨ deadline <= oe_now2 env → refused_for SetupTimeout
| no_target e :
    oe_now1 env < deadline → oe_now2 env < deadline →
    target_dialed = Err e → refused_for TargetConnect
| no_server a e :
    oe_now1 env < deadline → oe_now2 env < deadline →
    target_dialed = Ok a → server_dialed = Err e → refused_for DataAuth
| late_handshake a :
    oe_now1 env < deadline → oe_now2 env < deadline →
    target_dialed = Ok a → server_dialed = Ok () →
    deadline <= oe_now3 env ∨ (oe_now3 env < deadline ∧ handshaken.1 = None) →
    refused_for SetupTimeout
| failed_handshake a e :
    oe_now1 env < deadline → oe_now2 env < deadline → oe_now3 env < deadline →
    target_dialed = Ok a → server_dialed = Ok () →
    handshaken.1 = Some (Err e) → refused_for DataAuth.
End open.
Arguments mkOpenEnv {S} _ _ _ _ _ _ _ _ _ _.
