(* ===== verification/ForwardingFacts.v ===== *)
(** * What the client does with a request, proved

    The outcome of [handle_open] against its reference reading
    ([set_up], [refused_for]); what has happened on the wire when a request is
    forwarded; and what the server makes of a refusal. *)

From Stdlib Require Import Strings.String Strings.Byte.
From S2P Require Import Prelude Errors Io Protocol ProtocolFacts Auth Runtime Timing Net Config.
From S2P Require Import Registry Handshake HandshakeFacts Sessions Forwarding.

Local Open Scope Z_scope.

(** ** The deadline *)

Lemma remaining_Ok deadline now : now < deadline → remaining deadline now = Ok (deadline - now).
Proof. intros H. unfold remaining. by rewrite decide_False by lia. Qed.

Lemma remaining_late deadline now :
  deadline <= now → remaining deadline now = Err (Reported SetupTimeout "setup budget expired").
Proof. intros H. unfold remaining. by rewrite decide_True by done. Qed.

#[export] Hint Rewrite remaining_Ok remaining_late using lia : tunlet.

(** ** [forward] *)

(** The copy's own result, unless the session is cancelled first. *)
Lemma forward_Some polls r :
  forward polls = Some r ↔
  ∃ k p, polls !! k = Some p ∧
    (fp_copied p = Some r ∨
     fp_copied p = None ∧ fp_cancelled p = true ∧ r = Err ConnectionAborted) ∧
    ∀ j q, (j < k)%nat → polls !! j = Some q → fp_copied q = None ∧ fp_cancelled q = false.
Proof.
  induction polls as [|p polls IH]; simpl; [split; [done|by intros (k & q & Hk & _)]|].
  split.
  - intros H. destruct (fp_copied p) as [r'|] eqn:Ec.
    { injection H as <-. exists 0%nat, p. split; [done|]. split; [by left|lia]. }
    destruct (fp_cancelled p) eqn:Ex.
    { injection H as <-. exists 0%nat, p. split; [done|]. split; [by right|lia]. }
    apply IH in H as (k & q & Hk & Hq & Hj). exists (S k), q. split; [done|]. split; [done|].
    intros [|j] q' Hlt; [by intros [= <-]|]. apply Hj. lia.
  - intros (k & q & Hk & Hq & Hj). destruct k as [|k].
    + injection Hk as ->. destruct Hq as [->|(-> & -> & ->)]; done.
    + destruct (Hj 0%nat p) as [-> ->]; [lia|done|]. apply IH. exists k, q.
      split; [done|]. split; [done|]. intros j q' Hlt. apply (Hj (S j)). lia.
Qed.

Lemma forward_None polls :
  forward polls = None ↔ Forall (λ p, fp_copied p = None ∧ fp_cancelled p = false) polls.
Proof.
  induction polls as [|p polls IH]; simpl; [done|]. rewrite Forall_cons, <-IH.
  destruct (fp_copied p), (fp_cancelled p); naive_solver.
Qed.

(** ** [setup] *)

Section open.
Context {R : Type → Type} {S : Type} (W : World R S).
Context (hmac : bytes → bytes → bytes) (io_text : IoError → string).
Context (ctx : OpenContext) (env : OpenEnv (S := S)).

Abbreviation deadline := (oe_start env + request_wait (oc_timing ctx)).
Abbreviation setup := (setup W hmac io_text ctx env deadline).
Abbreviation set_up := (set_up W hmac io_text ctx env).
Abbreviation refused_for := (refused_for W hmac io_text ctx env).

Lemma set_up_setup data : set_up data → setup = Ok data.
Proof.
  intros (H1 & H2 & H3 & (a & Ht) & Hs & Hh). unfold Forwarding.setup.
  rewrite (remaining_Ok _ _ H1), (remaining_Ok _ _ H2), (remaining_Ok _ _ H3).
  cbn [mbind result_bind]. by rewrite Ht, Hs, Hh.
Qed.

Lemma refused_for_setup why : refused_for why → ∃ text, setup = Err (Reported why text).
Proof.
  unfold Forwarding.setup. intros H.
  assert (oe_now1 env < deadline ∨ deadline <= oe_now1 env) as [H1|H1] by lia;
    [rewrite (remaining_Ok _ _ H1)|rewrite (remaining_late _ _ H1)]; cbn [mbind result_bind];
    [|by inversion H; subst; try lia; eexists].
  assert (oe_now2 env < deadline ∨ deadline <= oe_now2 env) as [H2|H2] by lia;
    [rewrite (remaining_Ok _ _ H2)|rewrite (remaining_late _ _ H2)]; cbn [mbind result_bind];
    [|by inversion H; subst; try lia; eexists].
  inversion H as [Hl|e _ _ Ht|a e _ _ Ht Hs|a _ _ Ht Hs Hl|a e _ _ H3 Ht Hs Hh]; subst.
  - lia.
  - rewrite Ht. by eexists.
  - rewrite Ht, Hs. by eexists.
  - rewrite Ht, Hs. destruct Hl as [Hl|[H3 Hh]].
    + rewrite (remaining_late _ _ Hl). by eexists.
    + rewrite (remaining_Ok _ _ H3). cbn [mbind result_bind].
      destruct (run_for _ _ _ _) as [o c]. simpl in Hh. subst o. by eexists.
  - rewrite Ht, Hs, (remaining_Ok _ _ H3). cbn [mbind result_bind].
    destruct (run_for _ _ _ _) as [o c]. simpl in Hh. subst o. by eexists.
Qed.

(** One of the two always holds. *)
Lemma setup_fate : (∃ data, set_up data) ∨ (∃ why, refused_for why).
Proof.
  assert (oe_now1 env < deadline ∨ deadline <= oe_now1 env) as [H1|H1] by lia;
    [|right; eexists; constructor 1; lia].
  assert (oe_now2 env < deadline ∨ deadline <= oe_now2 env) as [H2|H2] by lia;
    [|right; eexists; constructor 1; lia].
  destruct (dial io_text (oe_target env) (oc_target ctx)
    (Z.min (target_connect (oc_timing ctx)) (deadline - oe_now1 env))) as [a|e] eqn:Ht;
    [|right; eexists; by eapply no_target].
  destruct (connect_addr (oe_server env) (oc_server_addr ctx) (deadline - oe_now2 env))
    as [[]|e] eqn:Hs; [|right; eexists; by eapply no_server].
  assert (oe_now3 env < deadline ∨ deadline <= oe_now3 env) as [H3|H3] by lia;
    [|right; eexists; eapply late_handshake; eauto].
  destruct (run_for W (oe_within env (deadline - oe_now3 env))
     (client_data_handshake hmac (oc_key ctx) (oc_session_id ctx) (oc_request_id ctx))
     (oe_conn env)) as [[[[]|e]|] c] eqn:Hh.
  - left. exists c. split_and!; try done. by exists a.
  - right. eexists. eapply failed_handshake; try done. by rewrite Hh.
  - right. eexists. eapply late_handshake; try done. right. by rewrite Hh.
Qed.

Lemma setup_Ok data : setup = Ok data ↔ set_up data.
Proof.
  split; [|apply set_up_setup]. intros H. destruct setup_fate as [[d Hd]|[why Hw]].
  - pose proof (set_up_setup _ Hd). congruence.
  - destruct (refused_for_setup _ Hw). congruence.
Qed.

Lemma setup_refused why : (∃ text, setup = Err (Reported why text)) ↔ refused_for why.
Proof.
  split; [|apply refused_for_setup]. intros [t H]. destruct setup_fate as [[d Hd]|[why' Hw]].
  - pose proof (set_up_setup _ Hd). congruence.
  - destruct (refused_for_setup _ Hw). congruence.
Qed.
End open.

(** ** [handle_open] *)

Section properties.
Context {R : Type → Type} {S : Type} (W : World R S).
Context (hmac : bytes → bytes → bytes) (io_text : IoError → string).
Context (ctx : OpenContext) (env : OpenEnv (S := S)).

Definition open_failed_frame (why : OpenFailure) : Frame :=
  mkFrame TOpenFailed (OpenFailed_encode (mkOpenFailed (oc_request_id ctx) why)).

(** (C8) A request has exactly one outcome, and it is the right one.  It is
    abandoned, and nothing is said, exactly when the session is cancelled while
    it is set up.  Otherwise it is forwarded exactly when the local target and
    the server were reached and the handshake was completed, each started
    before the deadline and within what was left of it; and it is refused, with
    one OPEN_FAILED for this request, exactly for the reason that applies: the
    target before the server, the dials before the handshake, and a timeout only
    when the time was up.  The server turns the refusal into one command about
    this request with this reason, and its session goes on. *)
Theorem open_answered :
  let outcome := handle_open W hmac io_text ctx env in
  (outcome = Abandoned ↔ oe_stopped env = true) ∧
  (∀ data r, outcome = Forwarded data r ↔
     oe_stopped env = false ∧ set_up W hmac io_text ctx env data ∧ r = forward (oe_polls env)) ∧
  (∀ m, outcome = Refused m ↔
     oe_stopped env = false ∧ ∃ why, refused_for W hmac io_text ctx env why ∧
       m = OutFrame (open_failed_frame why)) ∧
  (length (oc_request_id ctx) = 16%nat →
   ∀ why Chan (HC : Channel Outbound Chan) sid hb (q : Chan * list Outbound),
     server_frame sid (open_failed_frame why) hb q =
       mkServerTurn SGoOn hb q.2 [COpenFailed sid (oc_request_id ctx) why]).
Proof.
  intros outcome. unfold outcome, handle_open. split_and!.
  - destruct (oe_stopped env); [done|]. split; [|done].
    destruct (setup_fate W hmac io_text ctx env) as [[d Hd]|[why Hw]].
    + by rewrite (set_up_setup _ _ _ _ _ _ Hd).
    + by destruct (refused_for_setup _ _ _ _ _ _ Hw) as [t ->].
  - intros data r. destruct (oe_stopped env); [naive_solver|]. split.
    + destruct (setup _ _ _ _ _ _) as [d|[]] eqn:E; try done. apply setup_Ok in E.
      by intros [= -> <-].
    + intros (_ & Hd & ->). by rewrite (set_up_setup _ _ _ _ _ _ Hd).
  - intros m. destruct (oe_stopped env); [naive_solver|]. split.
    + destruct (setup _ _ _ _ _ _) as [d|[|why t]] eqn:E; try done. intros [= <-].
      split; [done|]. exists why. split; [|done]. apply setup_refused. by exists t.
    + intros (_ & why & Hw & ->). by destruct (refused_for_setup _ _ _ _ _ _ Hw) as [t ->].
  - intros Hl why Chan Hc sid hb q. unfold server_frame, open_failed_frame. cbn [ty payload].
    by rewrite (proj2 (OpenFailed_decode_exact _ (mkOpenFailed (oc_request_id ctx) why))).
Qed.

(** (C9) What is forwarded is authenticated, and forwarding ends with the session.
    When a request is forwarded, the local target was reached, a server that
    proves the key on this very request has said DATA_READY, and not one byte
    after it was taken: it is application data and still in the stream.  The
    result is the first result of the copy; only the cancellation of the session
    cuts it short, and then it does end. *)
Theorem forwarded_authentic data r :
  handle_open W hmac io_text ctx env = Forwarded data r →
  (∃ n t ch,
     let h := mkDataHello (oc_session_id ctx) (oc_request_id ctx) n in
     let transcript := data_transcript h (dc_nonce ch) in
     entropy W t 32 = Ok n ∧ wf_data_challenge ch ∧
     dc_mac ch = mac hmac (oc_key ctx) LABEL_DATA_SERVER transcript ∧
     inbound (oe_conn env) =
       frame_encode (mkFrame TDataChallenge (DataChallenge_encode ch)) ++
       frame_encode (frame_empty TDataReady) ++ inbound data ∧
     outbound data = outbound (oe_conn env) ++ encode_preamble Data ++
       frame_encode (mkFrame TDataHello (DataHello_encode h)) ++
       frame_encode (mkFrame TDataProof (mac hmac (oc_key ctx) LABEL_DATA_CLIENT transcript))) ∧
  (∃ a budget, dial io_text (oe_target env) (oc_target ctx) budget = Ok a ∧
     budget <= target_connect (oc_timing ctx) ∧ budget <= request_wait (oc_timing ctx)
       - (oe_now1 env - oe_start env)) ∧
  (∀ res, r = Some res ↔ ∃ k p, oe_polls env !! k = Some p ∧
     (fp_copied p = Some res ∨
      fp_copied p = None ∧ fp_cancelled p = true ∧ res = Err ConnectionAborted) ∧
     ∀ j q, (j < k)%nat → oe_polls env !! j = Some q →
       fp_copied q = None ∧ fp_cancelled q = false) ∧
  (∀ p, p ∈ oe_polls env → fp_cancelled p = true → r ≠ None).
Proof.
  unfold handle_open. destruct (oe_stopped env); [done|].
  destruct (setup _ _ _ _ _ _) as [d|[]] eqn:E; try done. apply setup_Ok in E.
  intros [= -> <-]. destruct E as (H1 & H2 & H3 & (a & Ht) & _ & Hh).
  apply run_for_Some, client_data_handshake_sound in Hh. split; [exact Hh|].
  split; [|split; [intros res; apply forward_Some|]].
  - eexists a, _. split; [exact Ht|]. lia.
  - intros p Hp Hc. rewrite forward_None, Forall_forall. intros H. apply H in Hp as [_ Hf]. congruence.
Qed.
End properties.
