(* ===== verification/ClientSystem.v ===== *)
(** * A session of the client as a whole

    [run_session] ([src/client/control.rs]) with the tasks it spawns: the session
    loop, one [handle_open] ([src/client/data.rs]) per request that got a permit,
    and the writer, which share the writer queue, the permits and the token of
    the session.  A step is one turn of the loop, the end of the set-up or of the
    forwarding of one request, or an act of the writer; any order of steps is a
    run.

    Three fields are for the proofs only: the requests read so far ([k_read]),
    those that are over, with their fate and what they met ([k_ended]), and the
    messages the queue has taken ([k_said]). *)

From Stdlib Require Import Strings.String.
From S2P Require Import Prelude Errors Io Protocol Auth Runtime Timing Net Config.
From S2P Require Import Registry Handshake Sessions Forwarding.

Local Open Scope Z_scope.

(** ** Requests *)

Section requests.
Context {S : Type}.

(** A request that is set up remembers what it met. *)
Inductive Stage :=
| SettingUp
| Copying (env : OpenEnv (S := S)).

Record RequestTask := mkRequestTask { rt_request : RequestId; rt_stage : Stage }.

(** How a request is over: without a permit, with the number of requests in
    progress at that moment; with a failure of its set-up; dropped with the
    session; or copied.  [room]: the writer queue had room at that moment for the
    message about it. *)
Inductive Fate :=
| NoPermit (busy : nat) (room : bool)
| Failed (env : OpenEnv (S := S)) (why : OpenFailure) (room : bool)
| Dropped
| Copied (env : OpenEnv (S := S)) (polls : list ForwardPoll) (r : result IoError (Z * Z)).
End requests.
Arguments Stage : clear implicits.
Arguments RequestTask : clear implicits.
Arguments Fate : clear implicits.

Section system.
Context {Sem Chan : Type} `{!Semaphore Sem, !Channel Outbound Chan}.
Context {R : Type → Type} {S : Type} (W : World R S).
Context (timing : Timing) (hmac : bytes → bytes → bytes) (io_text : IoError → string).
Context (session : Session) (target : Endpoint) (key : bytes).

Record ClientSystem := mkClientSystem {
  k_beat : Heartbeat;
  k_permits : Sem;
  k_writer : Chan;
  k_tasks : gmap nat (RequestTask S);
  k_next : nat;
  k_cancelled : bool;
  k_outcome : option Attempt;
  k_read : list RequestId;
  k_ended : list (RequestId * Fate S);
  k_said : list Outbound
}.

Definition client_system_new : ClientSystem :=
  mkClientSystem heartbeat_new (sem_new (Z.to_nat (se_max_connections session)))
    (chan_new WRITER_CAPACITY) ∅ 0 false None [] [] [].

(** [OpenContext] of a request. *)
Definition open_context (rid : RequestId) : OpenContext :=
  mkOpenContext rid (se_session_id session) (se_server_addr session) target key timing.

(** The OPEN a turn of the loop gets to, if any. *)
Definition turn_open (rd : Ready Chan) (hb : Heartbeat) : option RequestId :=
  if r_stop rd || r_cancelled rd || deadline_passed rd hb || r_tick rd then None
  else
    match r_frame rd with
    | Some (Some (Ok f)) =>
        if decide (ty f = TOpen) then
          match decode_request_id (payload f) with Ok rid => Some rid | Err _ => None end
        else None
    | _ => None
    end.

Definition has_room (c : Chan) : bool :=
  negb (chan_closed c) && bool_decide (length (chan_queue c) < chan_capacity c)%nat.

(** An OPEN that got no permit, with [busy] requests in progress. *)
Definition turn_refused (busy : nat) (rd : Ready Chan) (hb : Heartbeat)
    (t : ClientTurn (Sem := Sem)) : list (RequestId * Fate S) :=
  match turn_open rd hb, ct_opened t with
  | Some rid, [] => [(rid, NoPermit busy (has_room (r_writer rd)))]
  | _, _ => []
  end.

Definition spawn_requests (first : nat) (l : list RequestId) :
    gmap nat (RequestTask S) :=
  list_to_map (imap (λ i rid, ((first + i)%nat, mkRequestTask rid SettingUp)) l).

(** [try_send] of some messages: the queue, and those it took. *)
Definition offer (c : Chan) (l : list Outbound) : Chan * list Outbound :=
  foldl (λ q m, push_ignore m q) (c, []) l.

(** One turn: its messages go into the queue and its requests are spawned. *)
Definition after_turn (rd : Ready Chan) (t : ClientTurn) (K : ClientSystem) : ClientSystem :=
  let q := offer (k_writer K) (ct_sent t) in
  mkClientSystem (ct_beat t) (ct_permits t) q.1
    (spawn_requests (k_next K) (ct_opened t) ∪ k_tasks K) (k_next K + length (ct_opened t))
    (k_cancelled K) (match ct_flow t with CGoOn => None | CBreak a => Some a end)
    (k_read K ++ option_list (turn_open rd (k_beat K)))
    (k_ended K ++ turn_refused (size (k_tasks K)) rd (k_beat K) t) (k_said K ++ q.2).

(** The task of a request is over and drops its permit. *)
Definition task_over (id : nat) (rid : RequestId) (fate : Fate S) (q : Chan * list Outbound)
    (K : ClientSystem) : ClientSystem :=
  mkClientSystem (k_beat K) (release (k_permits K)) q.1 (delete id (k_tasks K)) (k_next K)
    (k_cancelled K) (k_outcome K) (k_read K) (k_ended K ++ [(rid, fate)]) (k_said K ++ q.2).

Definition task_copies (id : nat) (rid : RequestId) (env : OpenEnv) (K : ClientSystem) :
    ClientSystem :=
  mkClientSystem (k_beat K) (k_permits K) (k_writer K)
    (<[id := mkRequestTask rid (Copying env)]> (k_tasks K)) (k_next K) (k_cancelled K)
    (k_outcome K) (k_read K) (k_ended K) (k_said K).

Definition set_writer (c : Chan) (K : ClientSystem) : ClientSystem :=
  mkClientSystem (k_beat K) (k_permits K) c (k_tasks K) (k_next K) (k_cancelled K)
    (k_outcome K) (k_read K) (k_ended K) (k_said K).

Definition cancel_session (K : ClientSystem) : ClientSystem :=
  mkClientSystem (k_beat K) (k_permits K) (k_writer K) (k_tasks K) (k_next K) true
    (k_outcome K) (k_read K) (k_ended K) (k_said K).

(** What [handle_open] comes to when its set-up is over.  Its [select!] looks at
    the token first, so a cancelled session has no other outcome. *)
Definition opened (rid : RequestId) (env : OpenEnv (S := S)) (K : ClientSystem) :
    OpenOutcome (S := S) → Prop :=
  λ outcome, oe_stopped env = k_cancelled K ∧ oe_polls env = [] ∧
    handle_open W hmac io_text (open_context rid) env = outcome.

Inductive client_step_rel : ClientSystem → ClientSystem → Prop :=
(** A turn of the loop, on the queue and the token as they are. *)
| k_turn K rd :
    k_outcome K = None → r_writer rd = k_writer K → r_cancelled rd = k_cancelled K →
    client_step_rel K
      (after_turn rd (client_turn timing io_text rd (k_beat K) (k_permits K)) K)
(** The set-up of a request is over. *)
| k_forwards K id rid env data :
    k_tasks K !! id = Some (mkRequestTask rid SettingUp) →
    opened rid env K (Forwarded data None) →
    client_step_rel K (task_copies id rid env K)
| k_abandons K id rid env :
    k_tasks K !! id = Some (mkRequestTask rid SettingUp) → opened rid env K Abandoned →
    client_step_rel K (task_over id rid Dropped (k_writer K, []) K)
| k_refuses K id rid env why :
    k_tasks K !! id = Some (mkRequestTask rid SettingUp) →
    let m := out_frame TOpenFailed (OpenFailed_encode (mkOpenFailed rid why)) in
    opened rid env K (Refused m) →
    client_step_rel K
      (task_over id rid (Failed env why (has_room (k_writer K))) (offer (k_writer K) [m]) K)
(** Its forwarding is over. *)
| k_copied K id rid env polls r :
    k_tasks K !! id = Some (mkRequestTask rid (Copying env)) → forward polls = Some r →
    (∀ p, p ∈ polls → fp_cancelled p = true → k_cancelled K = true) →
    client_step_rel K (task_over id rid (Copied env polls r) (k_writer K, []) K)
(** The writer takes a message, or ends and cancels the session. *)
| k_write K m c :
    chan_recv (k_writer K) = Some (m, c) → client_step_rel K (set_writer c K)
| k_writer_ends K :
    client_step_rel K (cancel_session (set_writer (chan_close (k_writer K)) K))
(** The end of [run_session]. *)
| k_session_ends K a :
    k_outcome K = Some a → client_step_rel K (cancel_session K).

Definition client_reachable (K : ClientSystem) : Prop :=
  rtc client_step_rel client_system_new K.
End system.
Arguments ClientSystem : clear implicits.
