(* ===== verification/ClientSystemFacts.v ===== *)
(** * What a session of the client guarantees as a whole *)

From Stdlib Require Import Strings.String.
From S2P Require Import Prelude Errors Io Protocol Auth Runtime Timing Net Config.
From S2P Require Import Registry Handshake Sessions SessionFacts Forwarding ForwardingFacts.
From S2P Require Import ClientSystem.

Local Open Scope Z_scope.

(** ** The requests of the tasks *)

Section in_progress.
Context {S : Type}.
Implicit Types m : gmap nat (RequestTask S).

Definition in_progress m : list RequestId := rt_request <$> (map_to_list m).*2.

Lemma in_progress_insert m id t :
  m !! id = None → in_progress (<[id := t]> m) ≡ₚ rt_request t :: in_progress m.
Proof. intros H. unfold in_progress. by rewrite map_to_list_insert. Qed.

Lemma in_progress_delete m id t :
  m !! id = Some t → in_progress m ≡ₚ rt_request t :: in_progress (delete id m).
Proof.
  intros H. rewrite <-(insert_delete_id m id t) at 1 by done.
  apply in_progress_insert, lookup_delete_eq.
Qed.

Lemma in_progress_stage m id rid s s' :
  m !! id = Some (mkRequestTask rid s) →
  in_progress (<[id := mkRequestTask rid s']> m) ≡ₚ in_progress m.
Proof.
  intros H. rewrite (in_progress_delete m id _ H), <-insert_delete_eq.
  by rewrite in_progress_insert by apply lookup_delete_eq.
Qed.
End in_progress.

Section facts.
Context {Sem Chan : Type} `{!Semaphore Sem, !Channel Outbound Chan}.
Context `{!SemaphoreLaws Sem, !ChannelLaws Outbound Chan}.
Context {R : Type → Type} {S : Type} (W : World R S).
Context (timing : Timing) (hmac : bytes → bytes → bytes) (io_text : IoError → string).
Context (session : Session) (target : Endpoint) (key : bytes).
Implicit Types (K : ClientSystem Sem Chan S).

Local Abbreviation kstep := (client_step_rel W timing hmac io_text session target key).

(** ** A turn *)

(** A request is spawned when the turn gets to an OPEN and there is a permit. *)
Lemma client_turn_opened rd hb (permits : Sem) :
  ct_opened (client_turn timing io_text rd hb permits) =
    match turn_open rd hb with
    | Some rid => match try_acquire permits with Some _ => [rid] | None => [] end
    | None => []
    end.
Proof.
  unfold client_turn, turn_open. destruct (r_stop rd); [by destruct (client_goodbye _)|].
  destruct (r_cancelled rd); [done|]. destruct (deadline_passed rd hb); [done|].
  destruct (r_tick rd); [by destruct (tick _ _ _ _) as [[]|]|].
  destruct (r_frame rd) as [[[f|[]]|]|]; try done. unfold client_frame. simpl.
  case_decide as Ht.
  - rewrite Ht. destruct (decode_request_id _); [|done]. by destruct (try_acquire permits).
  - destruct (ty f); try done.
    + destruct (decode_sequence _); [|done]. by destruct (push _ _).
    + by destruct (decode_sequence _).
    + by destruct (decode_error _).
Qed.

(** ** The invariant *)

Local Abbreviation context := (open_context timing session target key).

(** Whether a queue takes a message. *)
Lemma push_has_room (m : Outbound) (c : Chan) (l : list Outbound) :
  if has_room c then ∃ c', push m (c, l) = Some (c', l ++ [m]) else push m (c, l) = None.
Proof using ChannelLaws0.
  unfold has_room, push. simpl. destruct (chan_closed c) eqn:Ec; simpl.
  - by rewrite (proj2 (try_send_None c m)) by auto.
  - case_bool_decide as Hl.
    + destruct (try_send c m) as [c'|] eqn:E; [by eexists|].
      apply try_send_None in E as [?|?]; [congruence|lia].
    + by rewrite (proj2 (try_send_None c m)) by (right; lia).
Qed.

(** What the fate of a request says about what it met: its own set-up and its
    own forwarding, and for want of a permit the requests that had them all. *)
Definition fate_means (cancelled : bool) (rid : RequestId) (fate : Fate S) : Prop :=
  match fate with
  | NoPermit busy _ => busy = Z.to_nat (se_max_connections session)
  | Failed env why _ =>
      oe_stopped env = false ∧ refused_for W hmac io_text (context rid) env why
  | Dropped => cancelled = true
  | Copied env polls r =>
      oe_stopped env = false ∧ (∃ data, set_up W hmac io_text (context rid) env data) ∧
      forward polls = Some r ∧ ∀ p, p ∈ polls → fp_cancelled p = true → cancelled = true
  end.

(** The messages about failures: those in the queue, and those that are due, one
    for each request that was refused or failed when the queue had room. *)
Definition is_refusal (m : Outbound) : Prop :=
  match m with OutFrame f => ty f = TOpenFailed | CloseAfterFlush => False end.

#[export] Instance is_refusal_dec m : Decision (is_refusal m).
Proof. destruct m; apply _. Defined.

Definition refusal_of (rf : RequestId * Fate S) : option Outbound :=
  let message why := out_frame TOpenFailed (OpenFailed_encode (mkOpenFailed rf.1 why)) in
  match rf.2 with
  | NoPermit _ true => Some (message LocalCapacity)
  | Failed _ why true => Some (message why)
  | _ => None
  end.

Record client_inv K : Prop := {
  ci_permits :
    (available (k_permits K) + size (k_tasks K) = Z.to_nat (se_max_connections session))%nat;
  ci_fresh : ∀ id, is_Some (k_tasks K !! id) → (id < k_next K)%nat;
  ci_read : k_read K ≡ₚ in_progress (k_tasks K) ++ (k_ended K).*1;
  ci_copying : ∀ id rid env, k_tasks K !! id = Some (mkRequestTask rid (Copying env)) →
    oe_stopped env = false ∧ ∃ data, set_up W hmac io_text (context rid) env data;
  ci_fates : ∀ rid fate, (rid, fate) ∈ k_ended K → fate_means (k_cancelled K) rid fate;
  ci_said : filter is_refusal (k_said K) = omap refusal_of (k_ended K)
}.

Lemma task_over_inv K id rid s fate q :
  client_inv K → k_tasks K !! id = Some (mkRequestTask rid s) →
  fate_means (k_cancelled K) rid fate →
  filter is_refusal q.2 = option_list (refusal_of (rid, fate)) →
  client_inv (task_over id rid fate q K).
Proof using SemaphoreLaws0 ChannelLaws0.
  intros [Hp Hf Hr Hc He Hsaid] Ht Hfate Hq. split; simpl.
  - rewrite available_release, map_size_delete, Ht. simpl.
    assert (size (k_tasks K) ≠ 0%nat); [|lia].
    apply (map_size_ne_0_lookup_2 _ id). by eexists.
  - intros i [_ Hi]%lookup_delete_is_Some. by apply Hf.
  - rewrite Hr, (in_progress_delete _ _ _ Ht), fmap_app, app_assoc. simpl.
    by rewrite <-Permutation_cons_append.
  - intros i rid' env [_ Hi]%lookup_delete_Some. by eapply Hc.
  - intros rid' fate' [Hin|[= -> ->]%list_elem_of_singleton]%elem_of_app; [by apply He|done].
  - rewrite filter_app, Hq, omap_app, Hsaid. by f_equal.
Qed.

Lemma spawn_one n rid (m : gmap nat (RequestTask S)) :
  spawn_requests n [rid] ∪ m = <[n := mkRequestTask rid SettingUp]> m.
Proof.
  unfold spawn_requests. simpl. by rewrite Nat.add_0_r, insert_empty, <-insert_union_singleton_l.
Qed.

Lemma spawn_none n (m : gmap nat (RequestTask S)) : spawn_requests n [] ∪ m = m.
Proof. unfold spawn_requests. simpl. by rewrite (left_id_L ∅ (∪)). Qed.

(** What a turn pushed on its queue goes in. *)
Lemma offer_pushed (m : Outbound) (c : Chan) (q : Chan * list Outbound) :
  push m (c, []) = Some q → offer c q.2 = q.
Proof.
  intros H. unfold offer. rewrite (push_Some _ _ _ H). simpl. unfold push_ignore. by rewrite H.
Qed.

Lemma offer_push_ignore (m : Outbound) (c : Chan) :
  offer c (push_ignore m (c, [])).2 = push_ignore m (c, []).
Proof.
  unfold push_ignore. destruct (push m (c, [])) as [q|] eqn:E; [|done]. simpl.
  by eapply offer_pushed.
Qed.

(** The messages of a turn: they go in, and the refusals among them are due. *)
Definition turn_says busy (rd : Ready Chan) hb (t : ClientTurn (Sem := Sem)) : Prop :=
  (offer (r_writer rd) (ct_sent t)).2 = ct_sent t ∧
  filter is_refusal (ct_sent t) = omap refusal_of (turn_refused busy rd hb t).

Lemma turn_says_nothing busy (rd : Ready Chan) hb (t : ClientTurn (Sem := Sem)) :
  ct_sent t = [] → turn_refused (S := S) busy rd hb t = [] → turn_says busy rd hb t.
Proof. intros E1 E2. split; by rewrite E1, ?E2. Qed.

Lemma turn_says_one busy (rd : Ready Chan) hb (t : ClientTurn (Sem := Sem)) m q :
  push m (r_writer rd, []) = Some q → ct_sent t = q.2 → ¬ is_refusal m →
  turn_refused (S := S) busy rd hb t = [] → turn_says busy rd hb t.
Proof.
  intros Hq E Hm E2. split; [by rewrite E, (offer_pushed _ _ _ Hq)|].
  rewrite E, E2, (push_Some _ _ _ Hq). cbn [app snd]. by rewrite filter_cons_False.
Qed.

Lemma turn_refused_none busy (rd : Ready Chan) hb flow hb' (p : Sem) sent :
  turn_open rd hb = None →
  turn_refused (S := S) busy rd hb (mkClientTurn flow hb' p sent []) = [].
Proof. intros E. unfold turn_refused. by rewrite E. Qed.

(** A frame that is no OPEN. *)
Lemma client_frame_says busy (rd : Ready Chan) hb f (permits : Sem) :
  turn_open rd hb = None → ty f ≠ TOpen →
  turn_says busy rd hb (client_frame f hb permits (r_writer rd, [])).
Proof.
  intros Ho Ht. pose proof (turn_refused_none busy rd hb) as Hno. unfold client_frame.
  destruct (ty f); try (apply turn_says_nothing; [done|by apply Hno]); try done.
  - destruct (decode_sequence _); [|by apply turn_says_nothing; [|apply Hno]].
    destruct (push _ _) as [q|] eqn:E; [|by apply turn_says_nothing; [|apply Hno]].
    eapply turn_says_one; [exact E|done|done|by apply Hno].
  - destruct (decode_sequence _); by apply turn_says_nothing; [|apply Hno].
  - destruct (decode_error _); by apply turn_says_nothing; [|apply Hno].
Qed.

Lemma client_turn_says busy rd hb (permits : Sem) :
  turn_says busy rd hb (client_turn timing io_text rd hb permits).
Proof.
  pose proof (turn_refused_none busy rd hb) as Hno. unfold client_turn.
  destruct (r_stop rd) eqn:E1.
  { assert (turn_open rd hb = None) as Ht by (unfold turn_open; by rewrite E1).
    unfold client_goodbye. destruct (push _ _) as [q|] eqn:E;
      [|by apply turn_says_nothing; [|apply Hno]].
    eapply turn_says_one; [exact E|done|done|by apply Hno]. }
  destruct (r_cancelled rd) eqn:E2.
  { apply turn_says_nothing; [done|]. apply Hno. unfold turn_open. by rewrite E2, orb_true_r. }
  destruct (deadline_passed rd hb) eqn:E3.
  { apply turn_says_nothing; [done|]. apply Hno. unfold turn_open. by rewrite E3, orb_true_r. }
  destruct (r_tick rd) eqn:E4.
  { assert (turn_open rd hb = None) as Ht by (unfold turn_open; by rewrite E4, orb_true_r).
    unfold tick. destruct (outstanding hb); [by apply turn_says_nothing; [|apply Hno]|].
    destruct (push _ _) as [q|] eqn:E; [|by apply turn_says_nothing; [|apply Hno]].
    eapply turn_says_one; [exact E|done|done|by apply Hno]. }
  assert (turn_open rd hb = match r_frame rd with
    | Some (Some (Ok f)) =>
        if decide (ty f = TOpen) then
          match decode_request_id (payload f) with Ok rid => Some rid | Err _ => None end
        else None
    | _ => None end) as Ho by (unfold turn_open; by rewrite E1, E2, E3, E4).
  destruct (r_frame rd) as [[[f|[]]|]|]; try (apply turn_says_nothing; [done|by apply Hno]).
  destruct (decide (ty f = TOpen)) as [Ht|Ht]; [|by apply client_frame_says].
  unfold client_frame. rewrite Ht.
  destruct (decode_request_id _) as [rid|]; [|by apply turn_says_nothing; [|apply Hno]].
  destruct (try_acquire permits) as [p|].
  - apply turn_says_nothing; [done|]. unfold turn_refused. by rewrite Ho.
  - split; [cbn [ct_sent]; by rewrite offer_push_ignore|]. unfold turn_refused. rewrite Ho. simpl.
    unfold push_ignore.
    pose proof (push_has_room (out_frame TOpenFailed
      (OpenFailed_encode (mkOpenFailed rid LocalCapacity))) (r_writer rd) []) as Hroom.
    destruct (has_room (r_writer rd)); [destruct Hroom as [c' ->]|by rewrite Hroom].
    cbn [from_option app snd Datatypes.id]. by rewrite filter_cons_True.
Qed.

Lemma after_turn_inv K rd :
  client_inv K → r_writer rd = k_writer K →
  client_inv (after_turn rd (client_turn timing io_text rd (k_beat K) (k_permits K)) K).
Proof using SemaphoreLaws0 ChannelLaws0.
  intros [Hp Hf Hr Hc He Hsaid] Hw.
  pose proof (client_turn_permits timing io_text rd (k_beat K) (k_permits K)) as Ha.
  pose proof (client_turn_opened rd (k_beat K) (k_permits K)) as Ho.
  pose proof (client_turn_says (size (k_tasks K)) rd (k_beat K) (k_permits K)) as [Hs1 Hs2].
  set (t := client_turn timing io_text rd (k_beat K) (k_permits K)) in *.
  assert (filter is_refusal (k_said K ++ (offer (k_writer K) (ct_sent t)).2) =
    omap refusal_of (k_ended K ++ turn_refused (size (k_tasks K)) rd (k_beat K) t)) as Hsaid'.
  { by rewrite <-Hw, Hs1, filter_app, omap_app, Hsaid, Hs2. }
  unfold after_turn. revert Hsaid'. unfold turn_refused. rewrite Ho. intros Hsaid'.
  assert (k_tasks K !! k_next K = None) as Hnew.
  { apply eq_None_not_Some. intros Hi%Hf. lia. }
  destruct (turn_open rd (k_beat K)) as [rid|] eqn:E;
    [destruct (try_acquire (k_permits K)) eqn:Eacq|];
    rewrite Ho in Ha; rewrite ?spawn_one, ?spawn_none; simpl in Ha; split; simpl;
    rewrite ?app_nil_r, ?Nat.add_0_r in *; try done; try lia.
  - rewrite map_size_insert_None by done. lia.
  - intros id [->|[_ Hi]]%lookup_insert_is_Some; [lia|]. apply Hf in Hi. lia.
  - rewrite in_progress_insert, Hr by done. simpl. by rewrite <-Permutation_cons_append.
  - intros id rid' env [[_ [=]]|[_ Hi]]%lookup_insert_Some. by eapply Hc.
  - by rewrite Hr, fmap_app, app_assoc.
  - intros rid' fate [Hin|[= -> ->]%list_elem_of_singleton]%elem_of_app; [by apply He|].
    apply try_acquire_None in Eacq. simpl. lia.
Qed.

(** The outcome of a set-up, by its meaning. *)
Lemma opened_forwarded rid env K data r :
  opened W timing hmac io_text session target key rid env K (Forwarded data r) →
  oe_stopped env = false ∧ ∃ data, set_up W hmac io_text (context rid) env data.
Proof.
  intros (_ & _ & H). unfold handle_open in H. destruct (oe_stopped env); [done|].
  destruct (setup _ _ _ _ _ _) as [d|[]] eqn:E; try done. apply setup_Ok in E.
  split; [done|]. by exists d.
Qed.

Lemma opened_abandoned rid env K :
  opened W timing hmac io_text session target key rid env K Abandoned → k_cancelled K = true.
Proof.
  intros (<- & _ & H). unfold handle_open in H. destruct (oe_stopped env); [done|].
  destruct (setup_fate W hmac io_text (context rid) env) as [[d Hd]|[why Hw]].
  - by rewrite (set_up_setup _ _ _ _ _ _ Hd) in H.
  - by destruct (refused_for_setup _ _ _ _ _ _ Hw) as [t E]; rewrite E in H.
Qed.

Lemma opened_refused rid env K why :
  opened W timing hmac io_text session target key rid env K
    (Refused (out_frame TOpenFailed (OpenFailed_encode (mkOpenFailed rid why)))) →
  k_cancelled K = false ∧ oe_stopped env = false ∧
  refused_for W hmac io_text (context rid) env why.
Proof.
  intros (Hs & _ & H). rewrite <-Hs. unfold handle_open in H. destruct (oe_stopped env); [done|].
  do 2 (split; [done|]). destruct (setup _ _ _ _ _ _) as [d|[|why' t]] eqn:E; try done.
  assert (why' = why) as ->.
  { injection H as H. apply app_inv_head in H. by destruct why', why. }
  apply setup_refused. by exists t.
Qed.

Lemma fate_means_cancelled b rid fate : fate_means b rid fate → fate_means true rid fate.
Proof. destruct fate; simpl; naive_solver. Qed.

Lemma client_step_inv K K' : client_inv K → kstep K K' → client_inv K'.
Proof using SemaphoreLaws0 ChannelLaws0.
  intros Hi H. destruct H as [K rd Ho Hw Hc|K id rid env data Ht Hop|K id rid env Ht Hop
    |K id rid env why Ht m Hop|K id rid env polls r Ht Hr Hc|K m c Hc|K|K a Ho].
  - by apply after_turn_inv.
  - destruct Hi as [Hp Hf Hr Hc He Hsaid]. split; simpl; [..|done|done].
    + by rewrite map_size_insert_Some by (by eexists).
    + intros i [->|[_ Hi]]%lookup_insert_is_Some; [apply Hf; by eexists|by apply Hf].
    + by rewrite Hr, (in_progress_stage _ _ _ _ _ Ht).
    + intros i rid' env' [[_ [= -> ->]]|[_ Hi]]%lookup_insert_Some; [by eapply opened_forwarded|].
      by eapply Hc.
  - eapply task_over_inv; [done..| |done]. by eapply opened_abandoned.
  - apply opened_refused in Hop as (_ & Hop). eapply task_over_inv; [done|done|done|].
    unfold offer. cbn [foldl]. unfold push_ignore.
    pose proof (push_has_room m (k_writer K) []) as Hroom. unfold refusal_of. cbn [fst snd].
    destruct (has_room (k_writer K)); [destruct Hroom as [c' ->]|by rewrite Hroom].
    cbn [from_option app snd Datatypes.id]. by rewrite filter_cons_True.
  - eapply task_over_inv; [done..| |done]. destruct (ci_copying _ Hi _ _ _ Ht) as [Hs Hd].
    by split_and!.
  - by destruct Hi.
  - destruct Hi as [Hp Hf Hr Hc He Hsaid]. split; simpl; try done. intros rid fate Hin.
    by eapply fate_means_cancelled, He.
  - destruct Hi as [Hp Hf Hr Hc He Hsaid]. split; simpl; try done. intros rid fate Hin.
    by eapply fate_means_cancelled, He.
Qed.

Lemma client_new_inv : client_inv (client_system_new session).
Proof using SemaphoreLaws0 ChannelLaws0.
  split; simpl; [by rewrite available_new, map_size_empty|by intros id [? ?]|done|done| |done].
  by intros rid fate ?%elem_of_nil.
Qed.

Lemma client_reachable_inv K :
  client_reachable W timing hmac io_text session target key K → client_inv K.
Proof using SemaphoreLaws0 ChannelLaws0.
  unfold client_reachable. pose proof client_new_inv as Hi. intros H. revert Hi.
  induction H as [|K1 K2 K3 Hs _ IH]; [done|]. intros Hi. by eapply IH, client_step_inv.
Qed.

(** ** The end of a session *)

(** The fates of the requests a session drops. *)
Definition dropped_fate (fate : Fate S) : Prop :=
  match fate with NoPermit _ _ | Failed _ _ _ => False | _ => True end.

(** What can still happen once the token of the session is cancelled. *)
Record winds_down K K' : Prop := {
  wd_cancelled : k_cancelled K' = true;
  wd_tasks : k_tasks K' ⊆ k_tasks K;
  wd_read : k_read K' = k_read K;
  wd_ended : ∃ l, k_ended K' = k_ended K ++ l ∧ Forall (dropped_fate ∘ snd) l
}.

Lemma winds_down_same K K' :
  k_cancelled K' = true → k_tasks K' = k_tasks K → k_read K' = k_read K →
  k_ended K' = k_ended K → winds_down K K'.
Proof. intros Hc Ht Hr He. split; rewrite ?Ht; try done. exists []. by rewrite app_nil_r. Qed.

Lemma winds_down_over K id rid fate q :
  k_cancelled K = true → dropped_fate fate → winds_down K (task_over id rid fate q K).
Proof.
  intros Hc Hf. split; simpl; [done|apply delete_subseteq|done|].
  exists [(rid, fate)]. split; [done|]. by apply Forall_singleton.
Qed.

Lemma turn_open_cancelled rd hb : r_cancelled rd = true → turn_open (Chan := Chan) rd hb = None.
Proof. intros H. unfold turn_open. rewrite H. by destruct (r_stop rd). Qed.

Lemma client_step_winds_down K K' : k_cancelled K = true → kstep K K' → winds_down K K'.
Proof.
  intros Hk H. destruct H as [K rd Ho Hw Hc|K id rid env data Ht Hop|K id rid env Ht Hop
    |K id rid env why Ht m Hop|K id rid env polls r Ht Hr Hc|K m c Hc|K|K a Ho].
  - rewrite Hk in Hc. apply (turn_open_cancelled _ (k_beat K)) in Hc.
    pose proof (client_turn_opened rd (k_beat K) (k_permits K)) as Hop. rewrite Hc in Hop.
    unfold after_turn, turn_refused. rewrite Hop, Hc.
    apply winds_down_same; simpl; rewrite ?app_nil_r; [done|apply spawn_none|done..].
  - destruct Hop as (Hs & _ & H). rewrite Hk in Hs. unfold handle_open in H. by rewrite Hs in H.
  - by apply winds_down_over.
  - apply opened_refused in Hop as [Hx _]. congruence.
  - by apply winds_down_over.
  - by apply winds_down_same.
  - by apply winds_down_same.
  - by apply winds_down_same.
Qed.

Lemma client_steps_wind_down K K' : k_cancelled K = true → rtc kstep K K' → winds_down K K'.
Proof.
  intros Hk H. induction H as [K|K1 K2 K3 Hs _ IH]; [by apply winds_down_same|].
  apply client_step_winds_down in Hs as [Hc Ht Hr (l & He & Hl)]; [|done].
  destruct (IH Hc) as [Hc' Ht' Hr' (l' & He' & Hl')].
  split; [done|by etrans|congruence|]. exists (l ++ l').
  rewrite He', He, app_assoc. split; [done|]. by apply Forall_app.
Qed.

(** A task of a cancelled session can always end. *)
Lemma cancelled_task_ends `{!Inhabited S} K id t :
  k_cancelled K = true → k_tasks K !! id = Some t →
  ∃ K', kstep K K' ∧ k_tasks K' = delete id (k_tasks K).
Proof.
  intros Hk Ht. destruct t as [rid [|env]].
  - eexists. split.
    + apply (k_abandons _ _ _ _ _ _ _ K id rid
        (mkOpenEnv 0 0 0 0 (mkDialEnv (λ _, 0) (λ _ _, None) (λ _ _ _, None) (Ok ()))
           (mkDialEnv (λ _, 0) (λ _ _, None) (λ _ _ _, None) (Ok ()))
           (mkConn [] [] inhabitant 0) (λ _, 0%nat) true [])); [done|].
      by split_and!.
    + done.
  - eexists. split.
    + apply (k_copied _ _ _ _ _ _ _ K id rid env [mkForwardPoll None true] (Err ConnectionAborted));
        [done|done|]. intros p ->%list_elem_of_singleton _. done.
    + done.
Qed.

Lemma cancelled_tasks_end `{!Inhabited S} K :
  k_cancelled K = true → ∃ K', rtc kstep K K' ∧ k_tasks K' = ∅.
Proof.
  remember (size (k_tasks K)) as n eqn:En. revert K En.
  induction n as [n IH] using lt_wf_ind. intros K -> Hk.
  destruct (decide (k_tasks K = ∅)) as [|Hne]; [by exists K|].
  apply map_choose in Hne as (id & t & Ht).
  destruct (cancelled_task_ends _ _ _ Hk Ht) as (K1 & Hs & E).
  destruct (client_step_winds_down _ _ Hk Hs) as [Hk1 _ _ _].
  destruct (IH (size (k_tasks K1))) with (K := K1) as (K' & Hr & He); [|done|done|].
  - rewrite E. by eapply map_size_delete_lt.
  - exists K'. split; [by eapply rtc_l|done].
Qed.

(** ** The properties *)

(** (C10) The client loses no request and serves none twice.  In every state a
    session can reach, the requests it was asked to open are, each as often as it
    was asked, those in progress and those that are over; those in progress and
    the free permits make up the maximum the server advertised; and every one
    that is over has the fate it deserves.  It was refused for capacity only when
    as many requests as the server allows were in progress; it failed only for
    the reason that its own set-up met; it was copied only if its own dials and
    handshake were in order, with the result of its own forwarding; and it was
    dropped only with its session.  The OPEN_FAILED messages the queue has taken
    are one for each request that was refused or failed at a moment when the
    queue had room, with its identifier and its reason, in the same order. *)
Theorem client_requests_accounted K :
  client_reachable W timing hmac io_text session target key K →
  k_read K ≡ₚ in_progress (k_tasks K) ++ (k_ended K).*1 ∧
  (available (k_permits K) + size (k_tasks K) = Z.to_nat (se_max_connections session))%nat ∧
  (∀ rid fate, (rid, fate) ∈ k_ended K → fate_means (k_cancelled K) rid fate) ∧
  (∀ id rid env, k_tasks K !! id = Some (mkRequestTask rid (Copying env)) →
     ∃ data, set_up W hmac io_text (context rid) env data) ∧
  filter is_refusal (k_said K) = omap refusal_of (k_ended K).
Proof using SemaphoreLaws0 ChannelLaws0.
  intros [Hp Hf Hr Hc He Hsaid]%client_reachable_inv. split_and!; try done.
  intros id rid env Ht. by eapply Hc.
Qed.

(** (C11) A session takes its requests with it.  Once its token is cancelled, in
    every order of the steps that follow, no OPEN is read, no request is spawned
    and none begins to forward, and the ones that end were dropped or copied;
    and they can always all end, which gives every permit back. *)
Theorem client_session_winds_down `{!Inhabited S} K :
  client_reachable W timing hmac io_text session target key K → k_cancelled K = true →
  (∀ K', rtc kstep K K' → winds_down K K') ∧
  ∃ K', rtc kstep K K' ∧ k_tasks K' = ∅ ∧
    available (k_permits K') = Z.to_nat (se_max_connections session).
Proof using SemaphoreLaws0 ChannelLaws0.
  intros Hr Hk. split; [by intros K'; apply client_steps_wind_down|].
  destruct (cancelled_tasks_end _ Hk) as (K' & Hs & Ht). exists K'. split_and!; [done..|].
  assert (client_inv K') as [Hp _ _ _ _ _] 
    by (apply client_reachable_inv; unfold client_reachable in *; by etrans).
  rewrite Ht, map_size_empty in Hp. lia.
Qed.
End facts.
