(* ===== verification/Traces.v ===== *)
(** * Programs as transition systems

    [run] fixes in advance how a world answers.  When several connections share
    the registry the answers interleave, so here a program advances one
    operation at a time: an event is an operation with the answer it got, and
    [traces p h q] says that [p] goes through the events [h] to what is left of
    it, [q].  The answers are only bound by what the operation promises
    ([possible]): every schedule and every peer is covered. *)

From Stdlib Require Import Strings.Byte.
From S2P Require Import Prelude Errors Io Protocol ProtocolFacts Auth Runtime Timing Net Config.
From S2P Require Import Registry Handshake HandshakeFacts.

(** ** Events *)

Section traces.
Context {R : Type → Type}.

Inductive IoEvent :=
| Did {X : Type} (o : op R X) (x : X).

(** What an operation of the socket or of the entropy source may answer.  A
    request is not answered here. *)
Definition possible {X} (o : op R X) : X → Prop :=
  match o in op _ X return X → Prop with
  | ReadExact n | Entropy n => λ x, match x with Ok bs => length bs = n | Err _ => True end
  | WriteAll _ | Flush | CloseWrite => λ _, True
  | Request _ => λ _, False
  end.

(** One step of a program. *)
Inductive advances {A} : proc R A → IoEvent → proc R A → Prop :=
| advance X (o : op R X) (x : X) k : advances (Vis o k) (Did o x) (k x).

(** The events a program can go through, by recursion on them. *)
Fixpoint traces {A} (p : proc R A) (h : list IoEvent) (q : proc R A) {struct h} : Prop :=
  match h with
  | [] => q = p
  | e :: h =>
      match p with
      | Ret _ => False
      | Vis o k => ∃ x, e = Did o x ∧ (possible o x ∨ request_of o ≠ []) ∧ traces (k x) h q
      end
  end.

(** The bytes the peer has sent, and the random strings of [n] bytes drawn. *)
Definition event_received (e : IoEvent) : bytes :=
  let 'Did o x := e in
  match o in op _ X return X → bytes with
  | ReadExact _ => λ x, match x with Ok bs => bs | Err _ => [] end
  | _ => λ _, []
  end x.

Definition received (h : list IoEvent) : bytes := h ≫= event_received.

Definition event_drawn (n : nat) (e : IoEvent) : list bytes :=
  let 'Did o x := e in
  match o in op _ X return X → list bytes with
  | Entropy m =>
      λ x, match x with Ok bs => if decide (m = n) then [bs] else [] | Err _ => [] end
  | _ => λ _, []
  end x.

Definition drawn (n : nat) (h : list IoEvent) : list bytes := h ≫= event_drawn n.

Lemma received_app h1 h2 : received (h1 ++ h2) = received h1 ++ received h2.
Proof. apply bind_app. Qed.

Lemma drawn_app n h1 h2 : drawn n (h1 ++ h2) = drawn n h1 ++ drawn n h2.
Proof. apply bind_app. Qed.
End traces.
Arguments IoEvent : clear implicits.

(** ** Composition *)

Section facts.
Context {R : Type → Type}.
Implicit Types h : list (IoEvent R).

Lemma traces_refl {A} (p : proc R A) : traces p [] p.
Proof. done. Qed.

Lemma traces_Ret {A} (a : A) h q : traces (Ret a) h q → h = [] ∧ q = Ret a.
Proof. by destruct h. Qed.

(** A program that has come to [q] and advances has come further. *)
Lemma traces_snoc {A} (p q : proc R A) h {X} (o : op R X) (x : X) k :
  traces p h q → q = Vis o k → possible o x ∨ request_of o ≠ [] →
  traces p (h ++ [Did o x]) (k x).
Proof.
  revert p. induction h as [|e h IH]; intros p H Hq Hx; simpl in *.
  - subst q p. by exists x.
  - destruct p as [|Y o' k']; [done|]. destruct H as (y & -> & Hy & H). exists y. eauto.
Qed.

Lemma traces_bind {A B} (p : proc R A) (f : A → proc R B) h q :
  traces (p ≫= f) h q →
  (∃ q0, traces p h q0 ∧ q = q0 ≫= f) ∨
  ∃ a h1 h2, h = h1 ++ h2 ∧ traces p h1 (Ret a) ∧ traces (f a) h2 q.
Proof.
  revert h. induction p as [a|X o k IH]; intros h H; [by right; exists a, [], h|].
  destruct h as [|e h]; [by left; exists (Vis o k)|].
  destruct H as (x & -> & Hx & H). destruct (IH x h H) as [(q0 & Hq & ->)|(a & h1 & h2 & -> & H1 & H2)].
  - left. exists q0. split; [|done]. by exists x.
  - right. exists a, (Did o x :: h1), h2. split; [done|]. split; [by exists x|done].
Qed.

(** A sequence that has finished. *)
Lemma traces_bind_Ret {A B} (p : proc R A) (f : A → proc R B) h b :
  traces (p ≫= f) h (Ret b) →
  ∃ a h1 h2, h = h1 ++ h2 ∧ traces p h1 (Ret a) ∧ traces (f a) h2 (Ret b).
Proof.
  intros [(q0 & H & E)|H]%traces_bind; [|done].
  destruct q0 as [a|X o k]; [|done]. exists a, h, []. by rewrite app_nil_r.
Qed.

Lemma traces_try_Ok {E F A B} (conv : F → E) (p : proc R (result F A))
    (k : A → proc R (result E B)) h b :
  traces (try_with conv p k) h (Ret (Ok b)) →
  ∃ a h1 h2, h = h1 ++ h2 ∧ traces p h1 (Ret (Ok a)) ∧ traces (k a) h2 (Ret (Ok b)).
Proof.
  intros ([a|e] & h1 & h2 & -> & H1 & H2)%traces_bind_Ret; [eauto 10|].
  by apply traces_Ret in H2 as [_ ?].
Qed.

Lemma traces_pure_Ok {E F A B} (conv : F → E) (r : result F A)
    (k : A → proc R (result E B)) h b :
  traces (try_with conv (Ret r) k) h (Ret (Ok b)) →
  ∃ a, r = Ok a ∧ traces (k a) h (Ret (Ok b)).
Proof.
  intros (a & h1 & h2 & -> & H1 & H)%traces_try_Ok.
  apply traces_Ret in H1 as [-> [= <-]]. eauto.
Qed.

Lemma traces_perform {X} (o : op R X) h x :
  traces (perform o) h (Ret x) → h = [Did o x] ∧ (possible o x ∨ request_of o ≠ []).
Proof.
  destruct h as [|e h]; [done|]. intros (y & -> & Hy & H).
  apply traces_Ret in H as [-> [= ->]]. done.
Qed.

(** ** Frames *)

(** A step that takes [bs] from the stream and draws nothing. *)
Definition reads (bs : bytes) h : Prop := received h = bs ∧ ∀ n, drawn n h = [].

Lemma reads_app a b h1 h2 : reads a h1 → reads b h2 → reads (a ++ b) (h1 ++ h2).
Proof. intros [<- D1] [<- D2]. unfold reads. rewrite received_app. split; [done|].
  intros n. by rewrite drawn_app, D1, D2.
Qed.

Lemma traces_read_exact n h bs :
  traces (perform (ReadExact n)) h (Ret (Ok bs)) → length bs = n ∧ reads bs h.
Proof.
  intros [-> [H|H]]%traces_perform; [|done]. split; [done|].
  unfold reads, received. simpl. by rewrite app_nil_r.
Qed.

Lemma traces_write_all bs h u : traces (perform (WriteAll bs)) h (Ret u) → reads [] h.
Proof. by intros [-> _]%traces_perform. Qed.

Lemma traces_flush h u : traces (perform Flush) h (Ret u) → reads [] h.
Proof. by intros [-> _]%traces_perform. Qed.

Lemma traces_read_frame h f :
  traces read_frame h (Ret (Ok f)) → wf_frame f ∧ reads (frame_encode f) h.
Proof.
  unfold read_frame. intros (hd & h1 & h2 & -> & H1 & H)%traces_try_Ok.
  apply traces_read_exact in H1 as [Hl R1]. unfold HEADER_LEN in Hl.
  case_decide; [by apply traces_Ret in H as [_ ?]|].
  apply traces_pure_Ok in H as (t & Ht & H).
  case_decide as Hd; [by apply traces_Ret in H as [_ ?]|].
  apply traces_try_Ok in H as (p & h3 & h4 & -> & H3 & [-> [= ->]]%traces_Ret).
  apply traces_read_exact in H3 as [Hp R3].
  split; [unfold wf_frame; simpl; lia|]. rewrite app_nil_r.
  replace (frame_encode (mkFrame t p)) with (hd ++ p); [by apply reads_app|].
  unfold frame_encode. simpl ty. simpl payload. rewrite Hp.
  pose proof (from_be_bound [byte_at 1 hd; byte_at 2 hd]). rewrite Z2Nat.id by lia.
  rewrite (to_from_be 2), (Type_u8_from_u8 _ _ Ht) by done.
  by destruct hd as [|a [|b [|d []]]].
Qed.

Lemma traces_write_frame f h u : traces (write_frame f) h (Ret (Ok u)) → reads [] h.
Proof.
  unfold write_frame. intros H. case_decide; [by apply traces_Ret in H as [_ ?]|]. revert H.
  intros (u1 & h1 & h2 & -> & H1%traces_write_all & H2)%traces_try_Ok.
  apply traces_try_Ok in H2 as (u2 & h3 & h4 & -> & H3%traces_flush & [-> _]%traces_Ret).
  rewrite app_nil_r. by apply (reads_app [] []).
Qed.

Lemma traces_read_preamble h k :
  traces read_preamble h (Ret (Ok k)) → reads (encode_preamble k) h.
Proof.
  unfold read_preamble. intros (bs & h1 & h2 & -> & H1 & H)%traces_try_Ok.
  apply traces_read_exact in H1 as [Hl R1].
  apply traces_Ret in H as [-> [= Hd]]. rewrite app_nil_r.
  destruct (decode_preamble bs) as [k'|] eqn:E; simplify_eq/=.
  by apply (decode_preamble_exact bs Hl) in E as <-.
Qed.

Lemma traces_random n h bs :
  traces (random n) h (Ret (Ok bs)) → length bs = n ∧ h = [Did (Entropy n) (Ok bs)].
Proof.
  unfold random. intros (r & h1 & h2 & -> & H1 & H2)%traces_bind_Ret.
  apply traces_Ret in H2 as [-> [= H2]].
  apply traces_perform in H1 as [-> [H1|H1]]; [|done]. by destruct r; simplify_eq/=.
Qed.

End facts.

(** ** Requests

    The request a program stands at, and what it does with the answer. *)

Definition asks {A} (p : proc RegistryRequest A) :
    option (Command * (option Reply → proc RegistryRequest A)) :=
  match p with
  | Ret _ => None
  | Vis o k =>
      match o in op _ X return
        (X → proc RegistryRequest A) → option (Command * (option Reply → proc RegistryRequest A))
      with
      | Request r =>
          match r in RegistryRequest Y return
            (Y → proc RegistryRequest A) →
            option (Command * (option Reply → proc RegistryRequest A))
          with Send c => λ k, Some (c, k) end
      | _ => λ _, None
      end k
  end.

(** The events that lead a program to send a command. *)
Definition posts {A} (p : proc RegistryRequest A) (h : list (IoEvent RegistryRequest))
    (c : Command) : Prop :=
  ∃ q k, traces p h q ∧ asks q = Some (c, k).

Section posts.
Implicit Types h : list (IoEvent RegistryRequest).

Lemma no_requests_traces {R A} (p q : proc R A) (h : list (IoEvent R)) :
  no_requests p → traces p h q → no_requests q.
Proof.
  revert p. induction h as [|e h IH]; intros p Hp H; simpl in H; [by subst|].
  destruct p as [|X o k]; [done|]. destruct H as (x & _ & _ & H). by apply (IH (k x)), H; apply Hp.
Qed.

Lemma no_requests_asks {A} (p : proc RegistryRequest A) : no_requests p → asks p = None.
Proof. destruct p as [|X o k]; [done|]. intros [Ho _]. by destruct o. Qed.

Lemma posts_no_requests {A} (p : proc RegistryRequest A) h c : no_requests p → ¬ posts p h c.
Proof.
  intros Hp (q & k & Hq & Ha). by rewrite no_requests_asks in Ha by by eapply no_requests_traces.
Qed.

Lemma posts_bind {A B} (p : proc RegistryRequest A) (f : A → proc RegistryRequest B) h c :
  no_requests p → posts (p ≫= f) h c →
  ∃ a h1 h2, h = h1 ++ h2 ∧ traces p h1 (Ret a) ∧ posts (f a) h2 c.
Proof.
  intros Hp (q & k & [(q0 & Hq & ->)|(a & h1 & h2 & -> & H1 & H2)]%traces_bind & Ha).
  - destruct q0 as [a|X o k0].
    + exists a, h, []. rewrite app_nil_r. split; [done|]. split; [done|]. by exists (f a), k.
    + apply (no_requests_traces _ _ _ Hp) in Hq as [Ho _]. by destruct o.
  - exists a, h1, h2. split; [done|]. split; [done|]. by exists q, k.
Qed.

Lemma posts_try {E F A B} (conv : F → E) (p : proc RegistryRequest (result F A))
    (k : A → proc RegistryRequest (result E B)) h c :
  no_requests p → posts (try_with conv p k) h c →
  ∃ a h1 h2, h = h1 ++ h2 ∧ traces p h1 (Ret (Ok a)) ∧ posts (k a) h2 c.
Proof.
  intros Hp ([a|e] & h1 & h2 & -> & H1 & H2)%posts_bind; [eauto 10| |done].
  by apply posts_no_requests in H2.
Qed.

(** A command and what follows its reply. *)
Lemma posts_send {A} (cmd : Command) (f : option Reply → proc RegistryRequest A) h c :
  posts (send_command cmd ≫= f) h c →
  (h = [] ∧ c = cmd) ∨
  ∃ x h2, h = Did (Request (Send cmd)) x :: h2 ∧ posts (f x) h2 c.
Proof.
  intros (q & k & H & Ha). destruct h as [|e h]; simpl in H.
  - subst q. simpl in Ha. left. by simplify_eq.
  - destruct H as (x & -> & _ & H). right. exists x, h. split; [done|]. by exists q, k.
Qed.

Lemma posts_peek {A} sid rid (f : bool → proc RegistryRequest A) h c :
  posts (handle_peek sid rid ≫= f) h c →
  (h = [] ∧ c = CPeekData sid rid) ∨
  ∃ b h1 h2, h = h1 ++ h2 ∧ reads [] h1 ∧ posts (f b) h2 c.
Proof.
  intros H. apply (posts_send (CPeekData sid rid)
    (λ o, f (match o with Some (ReplyPeek b) => b | _ => false end))) in H
    as [H|(x & h2 & -> & H)]; [by left|].
  right. eexists _, [_], h2. split; [done|]. by split.
Qed.

Lemma posts_claim {A} sid rid socket (f : ClaimOutcome → proc RegistryRequest A) h c :
  (∀ o, no_requests (f o)) →
  posts (handle_claim sid rid socket ≫= f) h c → h = [] ∧ c = CClaimData sid rid socket.
Proof.
  intros Hf H. apply (posts_send (CClaimData sid rid socket)
    (λ o, f (match o with
             | Some (ReplyClaim o) => o
             | _ => Rejected InternalError None
             end))) in H as [H|(x & h2 & -> & H)]; [done|].
  by apply posts_no_requests in H.
Qed.
End posts.

(** ** The handshakes of the server *)

Section evidence.
Context (hmac : bytes → bytes → bytes) (key : bytes).

(** What a connection has shown by its events [h] (its preamble included): it
    has sent a hello, the server has then drawn a nonce, and after that the
    peer has sent the MAC, under the key, of a transcript with this hello and
    this nonce. *)
Definition control_evidence (hello : ControlHello) (sid : SessionId)
    (h : list (IoEvent RegistryRequest)) : Prop :=
  ∃ nonce h1 h2 rest, h = h1 ++ Did (Entropy 32) (Ok nonce) :: h2 ∧
    wf_hello hello ∧ valid_request hello ∧ length nonce = 32%nat ∧ length sid = 16%nat ∧ sid ∈ drawn 16 h2 ∧
    received h1 = encode_preamble Control ++
      frame_encode (mkFrame TControlHello (ControlHello_encode hello)) ∧
    received h2 = frame_encode (mkFrame TControlProof
      (mac hmac key LABEL_CONTROL_CLIENT (control_transcript hello nonce sid))) ++ rest.

Definition data_evidence (sid : SessionId) (rid : RequestId)
    (h : list (IoEvent RegistryRequest)) : Prop :=
  ∃ hello nonce h1 h2 rest, h = h1 ++ Did (Entropy 32) (Ok nonce) :: h2 ∧
    wf_data_hello hello ∧ dh_session_id hello = sid ∧ dh_request_id hello = rid ∧
    length nonce = 32%nat ∧
    received h1 = encode_preamble Data ++
      frame_encode (mkFrame TDataHello (DataHello_encode hello)) ∧
    received h2 = frame_encode (mkFrame TDataProof
      (mac hmac key LABEL_DATA_CLIENT (data_transcript hello nonce))) ++ rest.

(** Evidence is never lost. *)
Lemma control_evidence_app hello sid h h' :
  control_evidence hello sid h → control_evidence hello sid (h ++ h').
Proof.
  intros (n & h1 & h2 & rest & -> & Hw & Hv & Hn & Hs & Hd & R1 & R2).
  exists n, h1, (h2 ++ h'), (rest ++ received h'). split; [by rewrite <-app_assoc|].
  split_and!; try done.
  - rewrite drawn_app. set_solver.
  - by rewrite received_app, R2, <-app_assoc.
Qed.

Lemma data_evidence_app sid rid h h' :
  data_evidence sid rid h → data_evidence sid rid (h ++ h').
Proof.
  intros (d & n & h1 & h2 & rest & -> & Hw & Hs & Hr & Hn & R1 & R2).
  exists d, n, h1, (h2 ++ h'), (rest ++ received h'). split; [by rewrite <-app_assoc|].
  split_and!; try done. by rewrite received_app, R2, <-app_assoc.
Qed.

Lemma control_evidence_drawn hello sid h : control_evidence hello sid h → sid ∈ drawn 16 h.
Proof.
  intros (nonce & h1 & h2 & rest & -> & _ & _ & _ & _ & Hd & _).
  rewrite drawn_app. change (Did (Entropy 32) (Ok nonce) :: h2)
    with ([@Did RegistryRequest _ (Entropy 32) (Ok nonce)] ++ h2).
  rewrite drawn_app. set_solver.
Qed.

(** A control handshake that has passed. *)
Lemma traces_control_handshake h0 h a :
  reads (encode_preamble Control) h0 →
  traces (control_handshake hmac key) h (Ret (Ok a)) →
  control_evidence (au_hello a) (au_session_id a) (h0 ++ h) ∧
  drawn 16 (h0 ++ h) = [au_session_id a].
Proof.
  intros [R0 D0]. unfold control_handshake.
  intros (f & h1 & h2 & -> & [Wf [R1 D1]]%traces_read_frame & H)%traces_try_Ok.
  apply traces_pure_Ok in H as (u1 & _ & H).
  apply traces_pure_Ok in H as (u2 & Ht%require_type_Ok%frame_eta & H).
  apply traces_pure_Ok in H as (hello & (Hw & Hq & Hp)%ControlHello_decode_exact & H).
  apply traces_try_Ok in H as (nonce & h3 & h4 & -> & [Hn ->]%traces_random & H).
  apply traces_try_Ok in H as (sid & h5 & h6 & -> & [Hs ->]%traces_random & H).
  apply traces_try_Ok in H as (u3 & h7 & h8 & -> & [R7 D7]%traces_write_frame & H).
  apply traces_try_Ok in H as (g & h9 & h10 & -> & [Wg [R9 D9]]%traces_read_frame & H).
  apply traces_pure_Ok in H as (u4 & _ & H).
  apply traces_pure_Ok in H as (u5 & Hg%require_type_Ok%frame_eta & H).
  destruct (negb _) eqn:Hv; [by apply traces_Ret in H as [_ ?]|].
  apply traces_Ret in H as [-> [= ->]]. simpl.
  apply negb_false_iff, bool_decide_eq_true in Hv. split.
  - exists nonce, (h0 ++ h1), (Did (Entropy 16) (Ok sid) :: h7 ++ h9 ++ []), [].
    split; [by rewrite <-!app_assoc|]. split_and!; try done.
    + set_solver.
    + by rewrite received_app, R0, R1, <-Hp, <-Ht.
    + change (received (h7 ++ h9 ++ []) = frame_encode (mkFrame TControlProof
        (mac hmac key LABEL_CONTROL_CLIENT (control_transcript hello nonce sid))) ++ []).
      by rewrite !received_app, R7, R9, Hv, <-Hg.
  - rewrite !drawn_app, D0, D1.
    change ([sid] ++ drawn 16 (h7 ++ h9 ++ []) = [sid]). by rewrite !drawn_app, D7, D9.
Qed.

(** A data handshake that claims a request. *)
Lemma posts_data_handshake h0 h socket c :
  reads (encode_preamble Data) h0 →
  posts (data_handshake hmac key socket) h c →
  ∃ sid rid, c = CPeekData sid rid ∨
    (c = CClaimData sid rid socket ∧ data_evidence sid rid (h0 ++ h)).
Proof.
  intros [R0 D0]. unfold data_handshake.
  intros (f & h1 & h2 & -> & [Wf [R1 D1]]%traces_read_frame & H)%posts_try;
    [|apply no_requests_read_frame].
  destruct (is_err _ || is_err _) eqn:Hk; [by apply posts_no_requests in H; [|apply no_requests_reject]|].
  apply orb_false_iff in Hk as [_ [? Hf%require_type_Ok%frame_eta]%is_err_false].
  destruct (DataHello_decode (payload f)) as [hello|e] eqn:Hd;
    [|by apply posts_no_requests in H; [|apply no_requests_reject]].
  apply DataHello_decode_exact in Hd as [Hw Hp].
  exists (dh_session_id hello), (dh_request_id hello).
  apply posts_peek in H as [[-> ->]|(b & h3 & h4 & -> & [R3 D3] & H)]; [by left|]. right.
  destruct (negb b); [by apply posts_no_requests in H; [|apply no_requests_reject]|].
  apply posts_try in H as (nonce & h5 & h6 & -> & [Hn ->]%traces_random & H);
    [|apply no_requests_random].
  apply posts_try in H as (u & h7 & h8 & -> & [R7 D7]%traces_write_frame & H);
    [|apply no_requests_write_frame].
  apply posts_try in H as (g & h9 & h10 & -> & [Wg [R9 D9]]%traces_read_frame & H);
    [|apply no_requests_read_frame].
  destruct (is_err _ || is_err _) eqn:Hk; [by apply posts_no_requests in H; [|apply no_requests_reject]|].
  apply orb_false_iff in Hk as [_ [? Hg%require_type_Ok%frame_eta]%is_err_false].
  destruct (negb _) eqn:Hv; [by apply posts_no_requests in H; [|apply no_requests_reject]|].
  apply negb_false_iff, bool_decide_eq_true in Hv.
  apply posts_claim in H as [-> ->];
    [|intros [|? [|]]; [done|apply no_requests_reject|done]]. split; [done|].
  exists hello, nonce, (h0 ++ h1 ++ h3), (h7 ++ h9 ++ []), [].
  split; [by rewrite <-!app_assoc|]. split_and!; try done.
  - by rewrite !received_app, R0, R1, R3, app_nil_r, <-Hp, <-Hf.
  - by rewrite !received_app, R7, R9, Hv, <-Hg.
Qed.
End evidence.
