(* ===== verification/System.v ===== *)
(** * The server as a whole

    The connections of the control port and the registry, running side by side:
    [server::dispatch] ([src/server/mod.rs]), [control::serve], [data::serve]
    and the actor, joined by the bounded command channel, the reply channels
    and the writer queues.

    A state holds the registry, the commands that wait for it, and every
    connection with the program it still has to run.  A step is one operation
    of one connection, one turn of the registry, or something a task the model
    keeps abstract does (a listener, a forwarding task, a writer task).  Nothing
    is said about the order of the steps: every interleaving is a run.

    Two fields are for the proofs only: the session identifiers drawn so far
    and those that have been registered.  The draws of [Entropy 16] are taken to
    be fresh, which is what the 128 random bits of a session identifier are
    for. *)

From Stdlib Require Import Strings.Byte.
From S2P Require Import Prelude Errors Io Protocol ProtocolFacts Auth Runtime Timing Net Config.
From S2P Require Import Registry RegistryInv RegistryProps Handshake HandshakeFacts Sessions Traces.

Local Open Scope Z_scope.

(** ** Connections *)

(** How far a connection has come: [dispatch], then the handler of its kind.
    [Registering] waits for the answer of the registry, [Established] is in its
    session loop, [Leaving] has left it. *)
Inductive Phase :=
| Greeting (p : proc RegistryRequest (result AppError Kind))
| DataPhase (p : proc RegistryRequest (result AppError unit))
| ControlPhase (p : proc RegistryRequest (result AppError Authenticated))
| Registering (a : Authenticated) (p : proc RegistryRequest (result ErrorCode Registration))
| Established (a : Authenticated) (g : Generation) (hb : Heartbeat)
| Leaving (a : Authenticated) (g : Generation) (clean : bool)
| Gone.

(** [waiting]: the command the program stands at has been sent. *)
Record Peer := mkPeer {
  phase : Phase;
  waiting : bool;
  events : list (IoEvent RegistryRequest)
}.

(** The tokens [control::serve] makes; its writer has the number of the
    connection. *)
Definition data_token (n : Socket) : Token := SessionToken (2 * n).
Definition control_token (n : Socket) : Token := SessionToken (2 * n + 1).

Definition serve_request_of (a : Authenticated) (n : Socket) : RegisterRequest :=
  register_request a n (data_token n) (control_token n).

(** An operation on the socket or the entropy source. *)
Inductive phase_advances : Phase → IoEvent RegistryRequest → Phase → Prop :=
| greeting_advances p e p' : advances p e p' → phase_advances (Greeting p) e (Greeting p')
| data_advances p e p' : advances p e p' → phase_advances (DataPhase p) e (DataPhase p')
| control_advances p e p' :
    advances p e p' → phase_advances (ControlPhase p) e (ControlPhase p').

Definition event_possible (e : IoEvent RegistryRequest) : Prop :=
  let 'Did o x := e in possible o x.

(** A request to the registry. *)
Definition phase_asks (ph : Phase) : option (Command * (option Reply → Phase)) :=
  match ph with
  | DataPhase p => (λ ck, (ck.1, λ o, DataPhase (ck.2 o))) <$> asks p
  | Registering a p => (λ ck, (ck.1, λ o, Registering a (ck.2 o))) <$> asks p
  | _ => None
  end.

(** The reply comes, or [None] when it never will. *)
Definition answered (reply : option Reply) (pe : Peer) : Peer :=
  match phase_asks (phase pe) with
  | Some (c, k) =>
      if waiting pe then
        mkPeer (k reply) false (events pe ++ [Did (Request (Send c)) reply])
      else pe
  | None => pe
  end.

(** ** The server *)

Section system.
Context {Sem Chan : Type} `{!Semaphore Sem, !Channel Outbound Chan}.
Context (config : ServerConfig) (timing : Timing).
Context (hmac : bytes → bytes → bytes) (key : bytes).

Record System := mkSystem {
  registry : Registry Sem Chan;
  actor_running : bool;
  inbox : list (option Socket * Command);
  peers : gmap Socket Peer;
  session_ids : gset SessionId;
  registered_ids : gset SessionId
}.

Definition set_registry (r : Registry Sem Chan) (S : System) : System :=
  mkSystem r (actor_running S) (inbox S) (peers S) (session_ids S) (registered_ids S).
Definition set_inbox (l : list (option Socket * Command)) (S : System) : System :=
  mkSystem (registry S) (actor_running S) l (peers S) (session_ids S) (registered_ids S).
Definition set_peer (n : Socket) (pe : Peer) (S : System) : System :=
  mkSystem (registry S) (actor_running S) (inbox S) (<[n := pe]> (peers S)) (session_ids S)
    (registered_ids S).
Definition draw_ids (l : list SessionId) (S : System) : System :=
  mkSystem (registry S) (actor_running S) (inbox S) (peers S)
    (list_to_set l ∪ session_ids S) (registered_ids S).

Definition system_new : System := mkSystem (new ∅) true [] ∅ ∅ ∅.

(** [commands.send(..)] waits for room; it fails when the actor is gone. *)
Definition room (l : list Command) (S : System) : Prop :=
  actor_running S = true → (length (inbox S) + length l ≤ COMMAND_CAPACITY)%nat.

Definition post (who : option Socket) (l : list Command) (S : System) : System :=
  if actor_running S then set_inbox (inbox S ++ (pair who <$> l)) S else S.

(** Messages into the queue of a writer. *)
Definition send_all (w : WriterId) (l : list Outbound) (r : Registry Sem Chan) :
    Registry Sem Chan :=
  foldl (λ r m, writer_send_ignore w m r) r l.

(** The identifier a registration uses up. *)
Definition command_session (c : Command) : list SessionId :=
  match c with CRegister req => [rq_session_id req] | _ => [] end.

(** The registry takes the oldest command.  A [Shutdown] ends its loop, and the
    commands that are left are dropped. *)
Definition actor_turn (who : option Socket) (c : Command) (rest : list (option Socket * Command))
    (reply : Reply) (stop : bool) (r : Registry Sem Chan) (S : System) : System :=
  mkSystem (if stop then shutdown_all r else r) (negb stop) (if stop then [] else rest)
    (match who with Some n => alter (answered (Some reply)) n (peers S) | None => peers S end)
    (session_ids S) (list_to_set (command_session c) ∪ registered_ids S).

(** What the environment of one command may answer: request identifiers are
    sixteen bytes, and only a task that runs can listen. *)
Definition env_ok (env : Env) (r : Registry Sem Chan) : Prop :=
  truthful env r ∧ ∀ i rid, random_id env i = Some rid → length rid = 16%nat.

(** The commands of the tasks the model keeps abstract: listeners, forwarding
    tasks and the supervisor. *)
Definition foreign (c : Command) : Prop :=
  match c with
  | CAcceptedPublic _ _ _ _ | CRequestFinished _ _ | CShutdown => True
  | _ => False
  end.

(** How a refused registration ends: the code and the end of the queue. *)
Definition refusal (c : ErrorCode) : list Outbound := [out_error c; CloseAfterFlush].

(** What the end of [control::serve] sends to the registry. *)
Definition farewell (a : Authenticated) (g : Generation) (clean : bool) : Command :=
  if clean then CGoodbye (au_session_id a) g else CSessionLost (au_session_id a) g.

Inductive sys_step : System → System → Prop :=
(** A connection is accepted. *)
| sys_accept S n :
    peers S !! n = None →
    sys_step S (set_peer n (mkPeer (Greeting read_preamble) false []) S)
(** An operation of a connection is answered; a new session identifier is new. *)
| sys_io S n pe e ph :
    peers S !! n = Some pe → waiting pe = false → event_possible e →
    phase_advances (phase pe) e ph →
    (∀ sid, sid ∈ event_drawn 16 e → sid ∉ session_ids S) →
    sys_step S (draw_ids (event_drawn 16 e) (set_peer n (mkPeer ph false (events pe ++ [e])) S))
(** The preamble is there. *)
| sys_dispatch S n k ev :
    peers S !! n = Some (mkPeer (Greeting (Ret (Ok k))) false ev) →
    sys_step S (set_peer n (mkPeer (match k with
                                    | Control => ControlPhase (control_handshake hmac key)
                                    | Data => DataPhase (data_handshake hmac key n)
                                    end) false ev) S)
(** The control handshake has passed: [control::serve] makes the writer. *)
| sys_authenticated S n a ev :
    peers S !! n = Some (mkPeer (ControlPhase (Ret (Ok a))) false ev) →
    sys_step S
      (set_registry (set_writers (<[n := chan_new WRITER_CAPACITY]> (writers (registry S)))
                       (registry S))
         (set_peer n (mkPeer (Registering a (handle_register (serve_request_of a n))) false ev) S))
(** A command goes to the registry. *)
| sys_post S n pe c k :
    peers S !! n = Some pe → waiting pe = false → phase_asks (phase pe) = Some (c, k) →
    actor_running S = true → room [c] S →
    sys_step S (post (Some n) [c] (set_peer n (mkPeer (phase pe) true (events pe)) S))
(** Without a registry the answer to a command is [None], whether it was sent
    in time or not. *)
| sys_closed S n pe c k :
    peers S !! n = Some pe → phase_asks (phase pe) = Some (c, k) → actor_running S = false →
    sys_step S (set_peer n (answered None (mkPeer (phase pe) true (events pe))) S)
(** The registry takes a command, or sweeps. *)
| sys_turn S who c rest env reply stop r :
    actor_running S = true → inbox S = (who, c) :: rest → env_ok env (registry S) →
    handle_command config timing env c (registry S) = Returns (reply, stop, r) →
    sys_step S (actor_turn who c rest reply stop r S)
| sys_sweep S t :
    actor_running S = true → sys_step S (set_registry (sweep t (registry S)) S)
(** The registration is answered. *)
| sys_registered S n a rg c c' ev :
    peers S !! n = Some (mkPeer (Registering a (Ret (Ok rg))) false ev) →
    writers (registry S) !! n = Some c →
    try_send c (OutFrame (registered_frame hmac key a rg)) = Some c' →
    sys_step S
      (set_registry (set_writers (<[n := c']> (writers (registry S))) (registry S))
         (set_peer n (mkPeer (Established a (rg_generation rg) heartbeat_new) false ev) S))
| sys_unregistered S n a rg c ev :
    peers S !! n = Some (mkPeer (Registering a (Ret (Ok rg))) false ev) →
    writers (registry S) !! n = Some c → chan_closed c = true →
    room [farewell a (rg_generation rg) false] S →
    sys_step S
      (post None [farewell a (rg_generation rg) false] (set_peer n (mkPeer Gone false ev) S))
| sys_refused S n a code ev :
    peers S !! n = Some (mkPeer (Registering a (Ret (Err code))) false ev) →
    sys_step S
      (set_registry (send_all n (refusal code) (registry S)) (set_peer n (mkPeer Gone false ev) S))
(** A turn of the session loop, on the queue as it is. *)
| sys_session S n a g hb rd ev :
    peers S !! n = Some (mkPeer (Established a g hb) false ev) →
    writers (registry S) !! n = Some (r_writer rd) →
    let t := server_turn timing (au_session_id a) rd hb in
    room (st_commands t) S →
    sys_step S
      (post None (st_commands t)
         (set_registry (send_all n (st_sent t) (registry S))
            (set_peer n (mkPeer (match st_flow t with
                                 | SGoOn => Established a g (st_beat t)
                                 | SBreak clean => Leaving a g clean
                                 end) false ev) S)))
(** The end of [control::serve]; the two cancellations that follow are
    [sys_cancel]. *)
| sys_farewell S n a g clean ev :
    peers S !! n = Some (mkPeer (Leaving a g clean) false ev) →
    room [farewell a g clean] S →
    sys_step S (post None [farewell a g clean] (set_peer n (mkPeer Gone false ev) S))
(** A timeout, an error or the end of the process drops the program. *)
| sys_drop S n pe :
    peers S !! n = Some pe →
    sys_step S (set_peer n (mkPeer Gone false (events pe)) S)
(** The writer task of a connection. *)
| sys_write S n c m c' :
    writers (registry S) !! n = Some c → chan_recv c = Some (m, c') →
    sys_step S
      (set_registry (set_writers (<[n := c']> (writers (registry S))) (registry S)) S)
| sys_writer_ends S n c :
    writers (registry S) !! n = Some c →
    sys_step S
      (set_registry (set_writers (<[n := chan_close c]> (writers (registry S))) (registry S)) S)
(** Listeners, forwarding tasks, the supervisor, delayed cancellations. *)
| sys_foreign S c :
    foreign c → room [c] S → sys_step S (post None [c] S)
| sys_finish S id : sys_step S (set_registry (finish_task id (registry S)) S)
| sys_cancel S t : sys_step S (set_registry (cancel t (registry S)) S).

Definition sys_reachable (S : System) : Prop := rtc sys_step system_new S.
End system.
Arguments System : clear implicits.
