(* ===== verification/SystemInv.v ===== *)
(** * What holds in every state of the server

    The history of a connection leads its program to where it stands; a command
    that waits for the registry was sent by the program that may send it; every
    session and every delivered socket has its evidence; and no session
    identifier is registered twice. *)

From Stdlib Require Import Strings.Byte.
From S2P Require Import Prelude Errors Io Protocol ProtocolFacts Auth Runtime Timing Net Config.
From S2P Require Import Registry RegistryOps RegistryInv RegistrySafe RegistrySpec RegistryProps.
From S2P Require Import RegistryOrigin.
From S2P Require Import Handshake HandshakeFacts Sessions Traces System.

Local Open Scope Z_scope.

(** ** The program of a connection *)

Section peers.
Context (hmac : bytes → bytes → bytes) (key : bytes).
Implicit Types (n : Socket) (pe : Peer) (P : gmap Socket Peer).

(** The handshake [p0] has come to [p], after the preamble [pre]. *)
Definition midway {A} (pre : bytes) (p0 p : proc RegistryRequest A)
    (ev : list (IoEvent RegistryRequest)) : Prop :=
  ∃ h0 h, ev = h0 ++ h ∧ reads pre h0 ∧ traces p0 h p.

Definition wf_peer n pe : Prop :=
  match phase pe with
  | Greeting p => traces read_preamble (events pe) p
  | DataPhase p => midway (encode_preamble Data) (data_handshake hmac key n) p (events pe)
  | ControlPhase p => midway (encode_preamble Control) (control_handshake hmac key) p (events pe)
  | Registering a p =>
      control_evidence hmac key (au_hello a) (au_session_id a) (events pe) ∧
      (p = handle_register (serve_request_of a n) ∨ ∃ res, p = Ret res)
  | Established a _ _ | Leaving a _ _ =>
      control_evidence hmac key (au_hello a) (au_session_id a) (events pe)
  | Gone => True
  end.

(** What a connection may ask the registry for. *)
Definition entitled n (ev : list (IoEvent RegistryRequest)) (c : Command) : Prop :=
  match c with
  | CPeekData _ _ => True
  | CClaimData sid rid socket => socket = n ∧ data_evidence hmac key sid rid ev
  | CRegister req =>
      ∃ a, req = serve_request_of a n ∧
        control_evidence hmac key (au_hello a) (au_session_id a) ev
  | _ => False
  end.

Lemma wf_peer_asks n pe c k :
  wf_peer n pe → phase_asks (phase pe) = Some (c, k) → entitled n (events pe) c.
Proof.
  intros Hwf. unfold phase_asks. unfold wf_peer in Hwf.
  destruct (phase pe) as [p|p|p|a p|a g hb|a g b|]; try done.
  - intros ([c0 k0] & Ha & [= -> ->])%fmap_Some. destruct Hwf as (h0 & h & -> & R & Ht).
    destruct (posts_data_handshake hmac key h0 h n c0 R) as (sid & rid & [->|[-> He]]);
      [by exists p, k0|done|done].
  - intros ([c0 k0] & Ha & [= -> ->])%fmap_Some. destruct Hwf as [He [->|[res ->]]]; [|done].
    simpl in Ha. simplify_eq. by exists a.
Qed.

Lemma event_possible_advances n pe e ph w :
  wf_peer n pe → event_possible e → phase_advances (phase pe) e ph →
  wf_peer n (mkPeer ph w (events pe ++ [e])).
Proof.
  unfold wf_peer. intros Hwf He H. simpl.
  assert (∀ A (p0 p p' : proc RegistryRequest A) h,
    traces p0 h p → advances p e p' → traces p0 (h ++ [e]) p') as Hstep.
  { intros A p0 p p' h Ht Ha. destruct Ha as [X o x k]. apply (traces_snoc _ _ _ _ _ _ Ht eq_refl). by left. }
  assert (∀ A pre (p0 p p' : proc RegistryRequest A),
    midway pre p0 p (events pe) → advances p e p' → midway pre p0 p' (events pe ++ [e])) as Hmid.
  { intros A pre p0 p p' (h0 & h & -> & R & Ht) Ha. exists h0, (h ++ [e]).
    rewrite <-app_assoc. eauto. }
  destruct H; eauto.
Qed.

Lemma asks_snoc {A} (p0 p : proc RegistryRequest A) h c k reply :
  traces p0 h p → asks p = Some (c, k) →
  traces p0 (h ++ [Did (Request (Send c)) reply]) (k reply).
Proof.
  intros Ht Ha. destruct p as [a|X o k0]; [done|]. destruct o as [| | | | |X r]; try done.
  destruct r as [c0]. simpl in Ha. simplify_eq. apply (traces_snoc _ _ _ _ _ _ Ht eq_refl). by right.
Qed.

Lemma wf_peer_answered n pe reply : wf_peer n pe → wf_peer n (answered reply pe).
Proof.
  intros Hwf. unfold answered. destruct (phase_asks (phase pe)) as [[c k]|] eqn:Ha; [|done].
  destruct (waiting pe); [|done]. unfold phase_asks in Ha. unfold wf_peer in *.
  destruct (phase pe) as [p|p|p|a p|a g hb|a g b|]; try done; simpl in *.
  - apply fmap_Some in Ha as ([c0 k0] & Ha & [= -> ->]).
    destruct Hwf as (h0 & h & -> & R & Ht). exists h0, (h ++ [Did (Request (Send c0)) reply]).
    rewrite <-app_assoc. split_and!; [done..|]. by eapply asks_snoc.
  - apply fmap_Some in Ha as ([c0 k0] & Ha & [= -> ->]). destruct Hwf as [He [->|[res ->]]]; [|done].
    split; [by apply control_evidence_app|]. right. simpl in Ha. simplify_eq. by eexists.
Qed.

(** ** Evidence *)

Definition control_proved P (hello : ControlHello) (sid : SessionId) n : Prop :=
  ∃ pe, P !! n = Some pe ∧ control_evidence hmac key hello sid (events pe).

Definition data_proved P (sid : SessionId) (rid : RequestId) n : Prop :=
  ∃ pe, P !! n = Some pe ∧ data_evidence hmac key sid rid (events pe).

(** Connections only go on. *)
Definition extends P P' : Prop :=
  ∀ n pe, P !! n = Some pe →
    ∃ pe' h, P' !! n = Some pe' ∧ events pe' = events pe ++ h.

#[export] Instance extends_reflexive : Reflexive extends.
Proof. intros P n pe Hn. exists pe, []. by rewrite app_nil_r. Qed.

Lemma extends_insert P n pe h :
  match P !! n with Some old => events pe = events old ++ h | None => True end →
  extends P (<[n := pe]> P).
Proof.
  intros Hold m old Hm. destruct (decide (n = m)) as [->|Hne].
  - rewrite Hm in Hold. exists pe, h. by rewrite lookup_insert_eq.
  - exists old, []. rewrite lookup_insert_ne by done. by rewrite app_nil_r.
Qed.

Lemma answered_events reply pe :
  ∃ h, events (answered reply pe) = events pe ++ h ∧ drawn 16 h = [].
Proof.
  unfold answered. destruct (phase_asks (phase pe)) as [[c k]|];
    [destruct (waiting pe)|]; [by eexists|exists []; by rewrite app_nil_r..].
Qed.

Lemma extends_alter P n reply : extends P (alter (answered reply) n P).
Proof.
  intros m old Hm. rewrite lookup_alter. case_decide as Hd.
  - subst m. rewrite Hm. destruct (answered_events reply old) as (h & Hh & _). by exists (answered reply old), h.
  - exists old, []. by rewrite app_nil_r.
Qed.

Lemma control_proved_extends P P' hello sid n :
  extends P P' → control_proved P hello sid n → control_proved P' hello sid n.
Proof.
  intros HP (pe & Hn & He). destruct (HP _ _ Hn) as (pe' & h & Hn' & E). exists pe'.
  rewrite E. split; [done|]. by apply control_evidence_app.
Qed.

Lemma data_proved_extends P P' sid rid n :
  extends P P' → data_proved P sid rid n → data_proved P' sid rid n.
Proof.
  intros HP (pe & Hn & He). destruct (HP _ _ Hn) as (pe' & h & Hn' & E). exists pe'.
  rewrite E. split; [done|]. by apply data_evidence_app.
Qed.
End peers.

(** ** Session identifiers *)

(** A connection that has not used its session identifier yet. *)
Definition unposted (pe : Peer) : Prop :=
  match phase pe with
  | Greeting _ | ControlPhase _ => True
  | Registering _ p => waiting pe = false ∧ asks p ≠ None
  | _ => False
  end.

Definition inbox_ids (L : list (option Socket * Command)) : list SessionId :=
  L ≫= λ kv, command_session kv.2.

(** Identifiers are drawn by one connection, wait in the inbox at most once,
    and are registered at most once. *)
Record fresh_ids (T : gmap SessionId SessionRef) (L : list (option Socket * Command))
    (P : gmap Socket Peer) (I G : gset SessionId) : Prop := {
  fi_drawn : ∀ n pe sid, P !! n = Some pe → sid ∈ drawn 16 (events pe) → sid ∈ I;
  fi_apart : ∀ n m pe pe' sid, P !! n = Some pe → P !! m = Some pe' →
    sid ∈ drawn 16 (events pe) → sid ∈ drawn 16 (events pe') → n = m;
  fi_sessions : dom T ⊆ G;
  fi_used : G ⊆ I;
  fi_inbox : ∀ sid, sid ∈ inbox_ids L → sid ∉ G ∧ sid ∈ I;
  fi_once : NoDup (inbox_ids L);
  fi_unposted : ∀ n pe sid, P !! n = Some pe → unposted pe → sid ∈ drawn 16 (events pe) →
    sid ∉ G ∧ sid ∉ inbox_ids L
}.

Section fresh.
Implicit Types (P : gmap Socket Peer) (L : list (option Socket * Command)).

Lemma fresh_ids_new : fresh_ids ∅ [] ∅ ∅ ∅.
Proof. split; try set_solver. constructor. Qed.

(** A connection that changes without drawing. *)
Lemma fresh_set_peer T L P I G n pe' :
  match P !! n with
  | Some pe => drawn 16 (events pe') = drawn 16 (events pe) ∧ (unposted pe' → unposted pe)
  | None => drawn 16 (events pe') = []
  end →
  fresh_ids T L P I G → fresh_ids T L (<[n := pe']> P) I G.
Proof.
  intros Hn [Hd Ha Hs Hu Hi Ho Hp].
  assert (∀ m x sid, <[n := pe']> P !! m = Some x → sid ∈ drawn 16 (events x) →
    ∃ y, P !! m = Some y ∧ sid ∈ drawn 16 (events y) ∧ (unposted x → unposted y)) as Hback.
  { intros m x sid [[<- <-]|[_ Hm]]%lookup_insert_Some Hin; [|by exists x].
    destruct (P !! n) as [pe|]; [|rewrite Hn in Hin; set_solver].
    destruct Hn as [E Hup]. exists pe. by rewrite <-E. }
  split; try done.
  - intros m x sid Hm Hin. destruct (Hback _ _ _ Hm Hin) as (y & ? & ? & _). eauto.
  - intros m m' x x' sid Hm Hm' Hin Hin'.
    destruct (Hback _ _ _ Hm Hin) as (y & ? & ? & _), (Hback _ _ _ Hm' Hin') as (y' & ? & ? & _).
    eauto.
  - intros m x sid Hm Hx Hin. destruct (Hback _ _ _ Hm Hin) as (y & ? & ? & ?). eauto.
Qed.

(** An operation that may draw a new identifier. *)
Lemma fresh_draw T L P I G n pe pe' l :
  P !! n = Some pe → drawn 16 (events pe') = drawn 16 (events pe) ++ l →
  (unposted pe' → unposted pe) → (∀ sid, sid ∈ l → sid ∉ I) →
  fresh_ids T L P I G → fresh_ids T L (<[n := pe']> P) (list_to_set l ∪ I) G.
Proof.
  intros Hn Hl Hup Hnew [Hd Ha Hs Hu Hi Ho Hp].
  assert (∀ m x sid, <[n := pe']> P !! m = Some x → sid ∈ drawn 16 (events x) →
    (m = n ∧ x = pe' ∧ sid ∈ l) ∨
    ∃ y, P !! m = Some y ∧ sid ∈ drawn 16 (events y) ∧ (unposted x → unposted y)) as Hback.
  { intros m x sid [[<- <-]|[_ Hm]]%lookup_insert_Some Hin; [|right; by exists x].
    rewrite Hl in Hin. apply elem_of_app in Hin as [Hin|Hin]; [right; by exists pe|by left]. }
  split; try done.
  - intros m x sid Hm Hin. destruct (Hback _ _ _ Hm Hin) as [(_ & _ & ?)|(y & ? & ? & _)].
    + set_solver.
    + apply elem_of_union_r. eauto.
  - intros m m' x x' sid Hm Hm' Hin Hin'.
    destruct (Hback _ _ _ Hm Hin) as [(-> & _ & H1)|(y & H1 & H2 & _)],
      (Hback _ _ _ Hm' Hin') as [(-> & _ & H1')|(y' & H1' & H2' & _)]; [done|..|eauto].
    + destruct (Hnew _ H1). eauto.
    + destruct (Hnew _ H1'). eauto.
  - set_solver.
  - intros sid Hin. destruct (Hi _ Hin). set_solver.
  - intros m x sid Hm Hx Hin. destruct (Hback _ _ _ Hm Hin) as [(_ & _ & H1)|(y & ? & ? & ?)].
    + split; [set_solver|]. intros Hx'. destruct (Hi _ Hx'), (Hnew _ H1). done.
    + eauto.
Qed.

(** Commands that carry no identifier. *)
Lemma inbox_ids_app L L' : inbox_ids (L ++ L') = inbox_ids L ++ inbox_ids L'.
Proof. apply bind_app. Qed.

Lemma fresh_inbox T L L' P I G :
  inbox_ids L' = inbox_ids L → fresh_ids T L P I G → fresh_ids T L' P I G.
Proof. intros E [Hd Ha Hs Hu Hi Ho Hp]. split; try done; by rewrite E. Qed.

(** A registration goes into the inbox. *)
Lemma fresh_post T L P I G n pe who c sid :
  P !! n = Some pe → unposted pe → sid ∈ drawn 16 (events pe) → command_session c = [sid] →
  (∀ pe', P !! n = Some pe' → ¬ unposted (mkPeer (phase pe') true (events pe'))) →
  fresh_ids T L P I G →
  fresh_ids T (L ++ [(who, c)]) (<[n := mkPeer (phase pe) true (events pe)]> P) I G.
Proof.
  intros Hn Hup Hin Hc Hno [Hd Ha Hs Hu Hi Ho Hp].
  assert (inbox_ids (L ++ [(who, c)]) = inbox_ids L ++ [sid]) as E
    by (rewrite inbox_ids_app; unfold inbox_ids at 2; simpl; by rewrite Hc).
  destruct (Hp _ _ _ Hn Hup Hin) as [HG HL].
  split; try done.
  - intros m x sid' [[<- <-]|[_ Hm]]%lookup_insert_Some; eauto.
  - intros m m' x x' sid' [[<- <-]|[_ Hm]]%lookup_insert_Some
      [[<- <-]|[_ Hm']]%lookup_insert_Some; eauto.
  - rewrite E. intros sid' [?|Hx%list_elem_of_singleton]%elem_of_app; [by apply Hi|].
    subst sid'. split; [done|eauto].
  - rewrite E. apply NoDup_app. split_and!; [done|set_solver|apply NoDup_singleton].
  - rewrite E. intros m x sid' [[<- <-]|[Hne Hm]]%lookup_insert_Some Hx Hin'.
    + by apply (Hno _ Hn) in Hx.
    + destruct (Hp _ _ _ Hm Hx Hin') as [? ?]. split; [done|].
      intros [?|Hx'%list_elem_of_singleton]%elem_of_app; [done|]. subst sid'.
      by destruct Hne; eapply Ha.
Qed.

(** The registry takes a command. *)
Lemma fresh_turn T T' L P I G who c :
  dom T' ⊆ list_to_set (command_session c) ∪ dom T →
  fresh_ids T ((who, c) :: L) P I G →
  fresh_ids T' L P I (list_to_set (command_session c) ∪ G).
Proof.
  intros HT [Hd Ha Hs Hu Hi Ho Hp].
  change (inbox_ids ((who, c) :: L)) with (command_session c ++ inbox_ids L) in *.
  apply NoDup_app in Ho as (_ & Hdisj & Ho).
  split; try done.
  - set_solver.
  - intros sid [H|H]%elem_of_union; [|by apply Hu].
    apply elem_of_list_to_set in H. apply Hi, elem_of_app. by left.
  - intros sid Hin. destruct (Hi sid) as [HG HI]; [apply elem_of_app; by right|].
    split; [|done]. intros [H|H]%elem_of_union; [|done].
    apply elem_of_list_to_set in H. by apply (Hdisj sid).
  - intros n pe sid Hn Hup Hin. destruct (Hp _ _ _ Hn Hup Hin) as [HG HL].
    split; [|set_solver]. intros [H|H]%elem_of_union; [|done].
    apply elem_of_list_to_set in H. set_solver.
Qed.

Lemma fresh_sessions T T' L P I G : dom T' ⊆ dom T → fresh_ids T L P I G → fresh_ids T' L P I G.
Proof. intros HT [Hd Ha Hs Hu Hi Ho Hp]. split; try done. set_solver. Qed.

Lemma fresh_nothing_waits T L P I G : fresh_ids T L P I G → fresh_ids T [] P I G.
Proof.
  intros [Hd Ha Hs Hu Hi Ho Hp]. split; try done.
  - intros sid Hx. by apply elem_of_nil in Hx.
  - constructor.
  - intros n pe sid Hn Hup Hin. destruct (Hp _ _ _ Hn Hup Hin).
    split; [done|]. apply not_elem_of_nil.
Qed.
End fresh.

(** ** The invariant *)

Section system.
Context {Sem Chan : Type} `{!Semaphore Sem, !Channel Outbound Chan}.
Context `{!SemaphoreLaws Sem, !ChannelLaws Outbound Chan}.
Context (config : ServerConfig) (timing : Timing).
Context (hmac : bytes → bytes → bytes) (key : bytes).
Implicit Types (S : System Sem Chan) (P : gmap Socket Peer) (r : Registry Sem Chan).

(** A command that may change the registry comes with evidence. *)
Definition authorised P (c : Command) : Prop :=
  match c with
  | CClaimData sid rid n => data_proved hmac key P sid rid n
  | CRegister req =>
      ∃ n a, req = serve_request_of a n ∧
        control_proved hmac key P (au_hello a) (au_session_id a) n
  | _ => True
  end.

Definition session_proved P (s : SessionRef) : Prop :=
  ∃ hello, instance_id hello = s_instance_id s ∧
    control_proved hmac key P hello (s_session_id s) (s_writer s).

Definition task_proved P (t : Task) : Prop :=
  (∃ n hello, control_proved hmac key P hello (t_session t) n) ∧
  match t_data t with
  | Some n => data_proved hmac key P (t_session t) (t_request t) n
  | None => True
  end.

Definition registry_proved P r : Prop :=
  (∀ sid s, sessions r !! sid = Some s → s_session_id s = sid ∧ session_proved P s) ∧
  (∀ id t, tasks r !! id = Some t → task_proved P t).

Record sys_inv S : Prop := {
  si_invariant : invariant config (registry S);
  si_peers : ∀ n pe, peers S !! n = Some pe → wf_peer hmac key n pe;
  si_inbox : ∀ who c, (who, c) ∈ inbox S → authorised (peers S) c;
  si_proved : registry_proved (peers S) (registry S);
  si_fresh : fresh_ids (sessions (registry S)) (inbox S) (peers S) (session_ids S)
               (registered_ids S)
}.

Lemma authorised_extends P P' c : extends P P' → authorised P c → authorised P' c.
Proof.
  intros HP. destruct c; simpl; try done; [|by apply data_proved_extends].
  intros (n & a & -> & Ha). exists n, a. split; [done|]. by eapply control_proved_extends.
Qed.

Lemma registry_proved_extends P P' r :
  extends P P' → registry_proved P r → registry_proved P' r.
Proof.
  intros HP [Hs Ht]. split.
  - intros sid s H. destruct (Hs _ _ H) as (? & hello & ? & ?). split; [done|].
    exists hello. split; [done|]. by eapply control_proved_extends.
  - intros id t H. destruct (Ht _ _ H) as ((n & hello & ?) & ?). split.
    + exists n, hello. by eapply control_proved_extends.
    + destruct (t_data t); [|done]. by eapply data_proved_extends.
Qed.

(** One event of the registry keeps the evidence complete. *)
Lemma fires_proved P e r r' :
  invariant config r → fires config timing e r r' →
  (∀ env c, e = EvCommand env c → authorised P c) →
  registry_proved P r → registry_proved P r'.
Proof.
  intros Hi Hf Ha [Hs Ht]. split.
  - intros sid s H. destruct (fires_session _ _ _ _ _ _ _ Hf H)
      as [?|(env & req & p & g & -> & <- & ->)]; [by apply Hs|]. split; [done|].
    destruct (Ha _ _ eq_refl) as (n & a & -> & Hc). by exists (au_hello a).
  - intros id t H. destruct (fires_task_origin _ _ _ _ _ _ _ Hi Hf H)
      as [[id' ?]|[(id' & t0 & env & socket & H0 & -> & E1 & E2 & E3)|[[s H0] E]]].
    + by eapply Ht.
    + destruct (Ht _ _ H0) as [Hc _]. unfold task_proved. rewrite E1, E2, E3.
      split; [done|]. apply (Ha _ _ eq_refl).
    + destruct (Hs _ _ H0) as (E' & hello & _ & Hc). unfold task_proved. rewrite E.
      split; [|done]. rewrite <-E'. eauto.
Qed.

Lemma fires_all_proved P l r r' :
  wf_server_config config → invariant config r → fires_all config timing l r r' →
  (∀ env c, EvCommand env c ∈ l → authorised P c) →
  registry_proved P r → registry_proved P r'.
Proof.
  intros Hwf Hi H. induction H as [|e l r1 r2 r3 He _ IH]; intros Ha Hp; [done|].
  apply IH; [by eapply fires_invariant|set_solver|].
  eapply fires_proved; [done|done| |done]. intros env c ->. eapply Ha. left.
Qed.

(** What a step has to show. *)
Lemma sys_inv_step S S' l :
  wf_server_config config → sys_inv S →
  fires_all config timing l (registry S) (registry S') →
  (∀ env c, EvCommand env c ∈ l → authorised (peers S) c) →
  extends (peers S) (peers S') →
  (∀ n pe, peers S' !! n = Some pe → wf_peer hmac key n pe) →
  (∀ who c, (who, c) ∈ inbox S' → (who, c) ∈ inbox S ∨ authorised (peers S') c) →
  fresh_ids (sessions (registry S')) (inbox S') (peers S') (session_ids S') (registered_ids S') →
  sys_inv S'.
Proof.
  intros Hwf [Hi Hp Hq Hr Hf] Hl Ha He Hp' Hq' Hf'. split; try done.
  - by eapply fires_all_invariant.
  - intros who c Hin. destruct (Hq' _ _ Hin) as [H|H]; [|done].
    eapply authorised_extends, Hq; done.
  - eapply registry_proved_extends; [done|]. by eapply fires_all_proved.
Qed.

(** ** Steps that take no command *)

Definition plain (c : Command) : Prop :=
  match c with CRegister _ | CClaimData _ _ _ => False | _ => True end.

(** Events other than commands, which the tasks around the registry cause. *)
(** The commands among some events, in order. *)
Definition commands_of (l : list Event) : list Command :=
  omap (λ e, match e with EvCommand _ c => Some c | _ => None end) l.

Lemma elem_of_commands_of env c l : EvCommand env c ∈ l → c ∈ commands_of l.
Proof. intros H. apply list_elem_of_omap. by exists (EvCommand env c). Qed.

Definition no_command (l : list Event) : Prop := ∀ env c, EvCommand env c ∉ l.

Lemma set_peer_wf P n pe' :
  (∀ m pe, P !! m = Some pe → wf_peer hmac key m pe) → wf_peer hmac key n pe' →
  ∀ m pe, <[n := pe']> P !! m = Some pe → wf_peer hmac key m pe.
Proof. intros HP Hn m pe [[<- <-]|[_ Hm]]%lookup_insert_Some; [done|by apply HP]. Qed.

(** A step of the registry's surroundings and of one connection. *)
Lemma sys_inv_local S n pe' l r' :
  wf_server_config config → sys_inv S →
  fires_all config timing l (registry S) r' → no_command l →
  sessions r' ⊆ sessions (registry S) →
  match peers S !! n with
  | Some pe => (∃ h, events pe' = events pe ++ h ∧ drawn 16 h = []) ∧ (unposted pe' → unposted pe)
  | None => events pe' = []
  end →
  wf_peer hmac key n pe' →
  sys_inv (set_registry r' (set_peer n pe' S)).
Proof.
  intros Hwf Hi Hl Hno Hs Hn Hpe. eapply sys_inv_step; try done.
  - intros env c Hin. by apply Hno in Hin.
  - destruct (peers S !! n) as [pe|] eqn:E.
    + destruct Hn as [(h & Hh & _) _]. apply (extends_insert _ _ _ h). by rewrite E.
    + apply (extends_insert _ _ _ []). by rewrite E.
  - apply set_peer_wf; [|done]. apply Hi.
  - intros who c Hin. by left.
  - eapply fresh_sessions; [by apply subseteq_dom|]. apply fresh_set_peer; [|apply Hi].
    destruct (peers S !! n) as [pe|].
    + destruct Hn as [(h & -> & E) Hup]. rewrite drawn_app, E, app_nil_r. done.
    + by rewrite Hn.
Qed.

Lemma sys_inv_registry S l r' :
  wf_server_config config → sys_inv S →
  fires_all config timing l (registry S) r' → no_command l →
  sessions r' ⊆ sessions (registry S) →
  sys_inv (set_registry r' S).
Proof.
  intros Hwf Hi Hl Hno Hs. eapply sys_inv_step; try done.
  - intros env c Hin. by apply Hno in Hin.
  - apply Hi.
  - intros who c Hin. by left.
  - eapply fresh_sessions; [by apply subseteq_dom|]. apply Hi.
Qed.

Lemma plain_authorised P c : plain c → authorised P c.
Proof. by destruct c. Qed.

Lemma plain_ids (who : option Socket) l :
  Forall plain l → inbox_ids (pair who <$> l) = [].
Proof.
  induction 1 as [|c l Hc _ IH]; [done|].
  change (inbox_ids (pair who <$> c :: l))
    with (command_session c ++ inbox_ids (pair who <$> l)).
  rewrite IH. by destruct c.
Qed.

Lemma sys_inv_post S l :
  wf_server_config config → sys_inv S → Forall plain l → sys_inv (post None l S).
Proof.
  intros Hwf Hi Hl. unfold post. destruct (actor_running S); [|done].
  eapply (sys_inv_step _ _ []); try done; simpl.
  - constructor.
  - intros env c Hin. by apply elem_of_nil in Hin.
  - apply Hi.
  - intros who c [Hin|(c' & [= -> ->] & Hin)%list_elem_of_fmap]%elem_of_app; [by left|right].
    apply plain_authorised. by eapply Forall_forall.
  - eapply fresh_inbox; [|apply Hi]. by rewrite inbox_ids_app, plain_ids, app_nil_r.
Qed.

Lemma send_all_eq w (l : list Outbound) r :
  send_all w l r = set_writers (foldl (λ ws m, queue_send ws w m) (writers r) l) r.
Proof.
  unfold send_all. revert r. induction l as [|m l IH]; intros r; simpl; [by destruct r|].
  by rewrite IH, writer_send_ignore_eq.
Qed.

Lemma fires_one e r r' : fires config timing e r r' → fires_all config timing [e] r r'.
Proof. intros H. econstructor; [done|constructor]. Qed.

Lemma no_command_one e : (∀ env c, e ≠ EvCommand env c) → no_command [e].
Proof. intros H env c Hin%list_elem_of_singleton. by apply (H env c). Qed.

Lemma finish_task_sessions id r : sessions (finish_task id r) = sessions r.
Proof. unfold finish_task. by destruct (tasks r !! id). Qed.

(** ** The turn of the registry *)

(** What comes out of the control handshake is admissible: the port has been
    checked by the decoder, and no session has the fresh identifier. *)
Lemma inbox_admissible S who c rest :
  sys_inv S → inbox S = (who, c) :: rest → admissible c (registry S).
Proof.
  intros Hi E. assert ((who, c) ∈ inbox S) as Hin by (rewrite E; left).
  pose proof (si_inbox _ Hi _ _ Hin) as Ha. destruct c as [req| | | | | | | |]; try done.
  destruct Ha as (n & a & -> & pe & Hn & Hev).
  destruct Hev as (nonce & h1 & h2 & rest' & _ & (_ & _ & Hport) & [Hv1 Hv2] & _).
  split_and!; try done.
  apply not_elem_of_dom. intros Hd. apply (fi_sessions _ _ _ _ _ (si_fresh _ Hi)) in Hd.
  destruct (fi_inbox _ _ _ _ _ (si_fresh _ Hi) (au_session_id a)) as [? _]; [|done].
  rewrite E. apply elem_of_app. left. apply list_elem_of_singleton. done.
Qed.

Lemma handle_command_stop env c r reply r' :
  handle_command config timing env c r = Returns (reply, true, r') →
  c = CShutdown ∧ r' = shutdown_all r.
Proof.
  destruct c; simpl; try done.
  - intros ([? ?] & _ & ?)%outcome_bind_Returns. by simplify_eq.
  - intros (? & _ & ?)%outcome_bind_Returns. by simplify_eq.
  - destruct (claim _ _ _ _ _). by intros [= ].
  - by intros [= _ ->].
Qed.

(** The events of the registry in one turn of the actor. *)
Lemma turn_events env c r reply (stop : bool) r' :
  admissible c r → handle_command config timing env c r = Returns (reply, stop, r') →
  ∃ l, fires_all config timing l r (if stop then shutdown_all r' else r') ∧
    (if stop then c = CShutdown ∧ commands_of l = [c; CShutdown] else commands_of l = [c]) ∧
    (∀ sid, is_Some (sessions (if stop then shutdown_all r' else r') !! sid) →
       is_Some (sessions r !! sid) ∨ sid ∈ command_session c).
Proof.
  intros Had H. destruct stop.
  - destruct (handle_command_stop _ _ _ _ _ H) as [-> ->].
    exists [EvCommand env CShutdown; EvCommand env CShutdown]. split_and!.
    + econstructor; [by eapply fires_command|]. by eapply fires_one, fires_command.
    + done.
    + done.
    + intros sid. rewrite shutdown_all_eq. simpl. by rewrite lookup_empty; intros [].
  - exists [EvCommand env c]. split_and!.
    + by eapply fires_one, fires_command.
    + done.
    + intros sid [s Hs].
      destruct (fires_session config timing (EvCommand env c) r r' sid s)
        as [?|(env' & req & p & g & [= -> ->] & <- & _)]; [by econstructor|done|eauto|].
      right. left.
Qed.

Lemma unposted_answered n reply pe :
  wf_peer hmac key n pe → unposted (answered reply pe) → unposted pe.
Proof.
  unfold answered, wf_peer. destruct (phase_asks (phase pe)) as [[c k]|] eqn:Ha; [|done].
  destruct (waiting pe) eqn:Hw; [|done]. unfold unposted. unfold phase_asks in Ha.
  destruct (phase pe) as [p|p|p|a p|a g hb|a g b|]; try done.
  - by apply fmap_Some in Ha as ([c0 k0] & Ha & [= -> ->]).
  - apply fmap_Some in Ha as ([c0 k0] & Ha & [= -> ->]). intros [_ [->|[res ->]]] [_ Hx]; [|done].
    simpl in Ha. by simplify_eq.
Qed.

Lemma sys_inv_turn S who c rest env reply stop r' :
  wf_server_config config → sys_inv S →
  inbox S = (who, c) :: rest →
  handle_command config timing env c (registry S) = Returns (reply, stop, r') →
  sys_inv (actor_turn who c rest reply stop r' S).
Proof.
  intros Hwf Hi E H. pose proof (inbox_admissible _ _ _ _ Hi E) as Had.
  destruct (turn_events _ _ _ _ _ _ Had H) as (l & Hl & Hc & Hs).
  assert (authorised (peers S) c) as Hauth.
  { apply (si_inbox _ Hi who). rewrite E. left. }
  eapply sys_inv_step; [done|done|exact Hl|..]; simpl.
  - intros env' c' Hin%elem_of_commands_of. destruct stop; [destruct Hc as [-> Hc]|];
      rewrite Hc in Hin; set_solver.
  - destruct who; [apply extends_alter|done].
  - intros m pe Hm. destruct who as [n|]; [|by apply Hi].
    rewrite lookup_alter in Hm. case_decide; [|by apply Hi].
    apply fmap_Some in Hm as (old & Hold & ->). subst m.
    by apply wf_peer_answered, (si_peers _ Hi).
  - intros who' c' Hin. left. rewrite E. destruct stop; [by apply elem_of_nil in Hin|by right].
  - assert (fresh_ids (sessions (if stop then shutdown_all r' else r')) rest (peers S)
      (session_ids S) (list_to_set (command_session c) ∪ registered_ids S)) as Hf.
    { eapply fresh_turn; [|rewrite <-E; apply Hi]. intros sid Hsid%elem_of_dom.
      destruct (Hs _ Hsid) as [Hx|Hx]; [apply elem_of_union_r, elem_of_dom, Hx|set_solver]. }
    assert (fresh_ids (sessions (if stop then shutdown_all r' else r'))
      (if stop then [] else rest) (peers S) (session_ids S)
      (list_to_set (command_session c) ∪ registered_ids S)) as Hf'
      by (destruct stop; [by eapply fresh_nothing_waits|done]).
    destruct who as [n|]; [|done].
    destruct (peers S !! n) as [pe|] eqn:Hn; [|by rewrite alter_None].
    rewrite (alter_Some _ _ _ _ Hn), insert_delete_eq. apply fresh_set_peer; [|done].
    rewrite Hn. destruct (answered_events (Some reply) pe) as (h & -> & Hd).
    rewrite drawn_app, Hd, app_nil_r. split; [done|].
    by eapply unposted_answered, (si_peers _ Hi).
Qed.

(** ** A connection sends a command *)

Lemma entitled_authorised S n pe c :
  peers S !! n = Some pe → entitled hmac key n (events pe) c → authorised (peers S) c.
Proof.
  intros Hn He. destruct c; try done; simpl in *.
  - destruct He as (a & -> & Hev). exists n, a. split; [done|]. by exists pe.
  - destruct He as [-> Hev]. by exists pe.
Qed.

(** What a command in the inbox and the program that waits for it have to do
    with session identifiers. *)
Lemma asks_ids n pe c k :
  wf_peer hmac key n pe → waiting pe = false → phase_asks (phase pe) = Some (c, k) →
  command_session c = [] ∨
  ∃ sid, command_session c = [sid] ∧ sid ∈ drawn 16 (events pe) ∧ unposted pe.
Proof.
  intros Hwf Hw Ha. unfold wf_peer in Hwf. unfold phase_asks in Ha. unfold unposted.
  destruct (phase pe) as [p|p|p|a p|a g hb|a g b|]; try done.
  - left. apply fmap_Some in Ha as ([c0 k0] & Ha & [= -> ->]).
    destruct Hwf as (h0 & h & E & R & Ht).
    destruct (posts_data_handshake hmac key h0 h n c0 R) as (sid & rid & [->|[-> _]]); try done.
    by exists p, k0.
  - right. apply fmap_Some in Ha as ([c0 k0] & Ha & [= -> ->]).
    destruct Hwf as [Hev [->|[res ->]]]; [|done]. exists (au_session_id a).
    simpl in Ha. simplify_eq. split_and!; try done.
    by eapply control_evidence_drawn.
Qed.

Lemma wf_peer_waiting n pe w :
  wf_peer hmac key n pe → wf_peer hmac key n (mkPeer (phase pe) w (events pe)).
Proof. done. Qed.

Lemma sys_inv_ask S n pe c k :
  wf_server_config config → sys_inv S →
  peers S !! n = Some pe → waiting pe = false → phase_asks (phase pe) = Some (c, k) →
  actor_running S = true →
  sys_inv (post (Some n) [c] (set_peer n (mkPeer (phase pe) true (events pe)) S)).
Proof.
  intros Hwf Hi Hn Hw Ha Hrun. unfold post. simpl. rewrite Hrun.
  pose proof (si_peers _ Hi _ _ Hn) as Hpe.
  eapply (sys_inv_step _ _ []); [done|done|constructor|..]; simpl.
  - intros env c' Hin. by apply elem_of_nil in Hin.
  - apply (extends_insert _ _ _ []). rewrite Hn. by rewrite app_nil_r.
  - apply set_peer_wf; [|done]. apply Hi.
  - intros who c' [Hin|Hin%list_elem_of_singleton]%elem_of_app; [by left|right].
    simplify_eq. eapply authorised_extends;
      [|by eapply entitled_authorised, wf_peer_asks].
    apply (extends_insert _ _ _ []). rewrite Hn. by rewrite app_nil_r.
  - destruct (asks_ids _ _ _ _ Hpe Hw Ha) as [E|(sid & E & Hin & Hup)].
    + eapply fresh_inbox; [|apply fresh_set_peer, Hi].
      * rewrite inbox_ids_app. unfold inbox_ids at 2. simpl. by rewrite E, !app_nil_r.
      * rewrite Hn. split; [done|]. unfold unposted. simpl.
        destruct (phase pe); try done. by intros [? _].
    + eapply fresh_post; try done; [|apply Hi]. intros pe' Hpe'. rewrite Hn in Hpe'. injection Hpe' as <-.
      unfold unposted, phase_asks in *. simpl.
      destruct (phase pe); try done. by intros [? _].
Qed.

Lemma sys_inv_io S n pe e ph :
  wf_server_config config → sys_inv S →
  peers S !! n = Some pe → event_possible e → phase_advances (phase pe) e ph →
  (∀ sid, sid ∈ event_drawn 16 e → sid ∉ session_ids S) →
  sys_inv (draw_ids (event_drawn 16 e) (set_peer n (mkPeer ph false (events pe ++ [e])) S)).
Proof.
  intros Hwf Hi Hn He Hadv Hnew.
  eapply (sys_inv_step _ _ []); [done|done|constructor|..]; simpl.
  - intros env c' Hin. by apply elem_of_nil in Hin.
  - apply (extends_insert _ _ _ [e]). by rewrite Hn.
  - apply set_peer_wf; [apply Hi|]. by eapply event_possible_advances, Hadv; [apply Hi|].
  - intros who c Hin. by left.
  - eapply fresh_draw; [done| | |done|apply Hi]; simpl.
    + rewrite drawn_app. unfold drawn at 2. simpl. by rewrite app_nil_r.
    + unfold unposted. simpl. by destruct Hadv.
Qed.

(** ** Every step *)

(** A connection that changes its phase without an event. *)
Lemma sys_inv_quiet S n ph w ev pe' :
  wf_server_config config → sys_inv S → peers S !! n = Some (mkPeer ph w ev) →
  events pe' = ev → (unposted pe' → unposted (mkPeer ph w ev)) →
  wf_peer hmac key n pe' → sys_inv (set_peer n pe' S).
Proof.
  intros Hwf Hi Hn He Hup Hpe.
  apply (sys_inv_local _ _ _ [] (registry S)); try done;
    [constructor|by intros ? ? ?%elem_of_nil|].
  rewrite Hn. split; [|done]. exists []. by rewrite app_nil_r.
Qed.

Lemma farewell_plain a g clean : plain (farewell a g clean).
Proof. by destruct clean. Qed.

Lemma foreign_plain c : foreign c → plain c.
Proof. by destruct c. Qed.

Lemma server_turn_plain sid (rd : Ready Chan) hb :
  Forall plain (st_commands (server_turn timing sid rd hb)).
Proof.
  unfold server_turn. destruct (r_cancelled rd); [done|].
  destruct (deadline_passed rd hb); [done|].
  destruct (r_tick rd); [by destruct (tick timing rd hb _) as [[? ?]|]|].
  destruct (r_frame rd) as [[[f|]|]|]; try done. simpl. unfold server_frame.
  destruct (ty f); try done; simpl.
  - by destruct (OpenFailed_decode (payload f)); repeat constructor.
  - destruct (decode_sequence (payload f)); [|done]. by destruct (push _ _).
  - by destruct (decode_sequence (payload f)).
Qed.

Lemma sys_step_inv S S' :
  wf_server_config config → sys_inv S → sys_step config timing hmac key S S' → sys_inv S'.
Proof.
  intros Hwf Hi H.
  assert (∀ ws, fires_all config timing [EvWriters] (registry S) (set_writers ws (registry S)))
    as Hws by (intros; apply fires_one; constructor).
  assert (no_command [EvWriters]) as Hno by by apply no_command_one.
  destruct H as [S n Hn|S n pe e ph Hn Hw He Hadv Hnew|S n k ev Hn|S n a ev Hn
    |S n pe c k Hn Hw Ha Hrun Hroom|S n pe c k Hn Ha Hrun|S who c rest env reply stop r Hrun E Henv H
    |S t Hrun|S n a rg c c' ev Hn Hc Hsend|S n a rg c ev Hn Hc Hclosed Hroom|S n a code ev Hn
    |S n a g hb rd ev Hn Hc t Hroom|S n a g clean ev Hn Hroom|S n pe Hn|S n c m c' Hc Hm
    |S n c Hc|S c Hf Hroom|S id|S t].
  - apply (sys_inv_local _ _ _ [] (registry S)); try done; [constructor|by intros ? ? ?%elem_of_nil|].
    by rewrite Hn.
  - by apply sys_inv_io.
  - pose proof (si_peers _ Hi _ _ Hn) as Hpe. apply traces_read_preamble in Hpe.
    apply (sys_inv_quiet _ _ _ _ _ _ Hwf Hi Hn); [done..|by destruct k|].
    destruct k; by exists ev, []; rewrite app_nil_r.
  - destruct (si_peers _ Hi _ _ Hn) as (h0 & h & Eev & R & Ht). simpl in Eev. subst ev.
    apply (sys_inv_local _ _ _ [EvWriters]); try done; simpl.
    + rewrite Hn. split; [exists []; by rewrite app_nil_r|done].
    + split; [|by left]. by eapply traces_control_handshake.
  - by eapply sys_inv_ask.
  - pose proof (si_peers _ Hi _ _ Hn) as Hpe.
    destruct (answered_events None (mkPeer (phase pe) true (events pe))) as (h & Hh & Hd).
    apply (sys_inv_local _ _ _ [] (registry S)); try done;
      [constructor|by intros ? ? ?%elem_of_nil| |by apply wf_peer_answered].
    rewrite Hn. split; [by exists h|]. intros Hup. eapply unposted_answered in Hup; [|done].
    unfold unposted in *. simpl in Hup. destruct (phase pe); try done. by destruct Hup.
  - by eapply sys_inv_turn.
  - apply (sys_inv_registry _ [EvSweep t]); [done|done|apply fires_one; constructor|by apply no_command_one|].
    by rewrite sweep_eq.
  - pose proof (si_peers _ Hi _ _ Hn) as [Hev _].
    apply (sys_inv_local _ _ _ [EvWriters]); try done; simpl.
    rewrite Hn. split; [exists []; by rewrite app_nil_r|done].
  - apply sys_inv_post; [done| |repeat constructor; apply farewell_plain].
    pose proof (si_peers _ Hi _ _ Hn) as [Hev _]. by apply (sys_inv_quiet _ _ _ _ _ _ Hwf Hi Hn).
  - rewrite send_all_eq. apply (sys_inv_local _ _ _ [EvWriters]); try done; simpl.
    rewrite Hn. split; [exists []; by rewrite app_nil_r|done].
  - apply sys_inv_post; [done| |apply server_turn_plain]. rewrite send_all_eq.
    pose proof (si_peers _ Hi _ _ Hn) as Hev.
    apply (sys_inv_local _ _ _ [EvWriters]); try done; simpl; [|by destruct (st_flow t)].
    rewrite Hn. split; [exists []; by rewrite app_nil_r|by destruct (st_flow t)].
  - apply sys_inv_post; [done| |repeat constructor; apply farewell_plain].
    by apply (sys_inv_quiet _ _ _ _ _ _ Hwf Hi Hn).
  - destruct pe as [ph w ev]. by apply (sys_inv_quiet _ _ _ _ _ _ Hwf Hi Hn).
  - by apply (sys_inv_registry _ [EvWriters]).
  - by apply (sys_inv_registry _ [EvWriters]).
  - apply sys_inv_post; [done|done|]. repeat constructor. by apply foreign_plain.
  - apply (sys_inv_registry _ [EvFinish id]); [done|done|apply fires_one; constructor|by apply no_command_one|].
    by rewrite finish_task_sessions.
  - apply (sys_inv_registry _ [EvCancel t]); [done|done|apply fires_one; constructor|by apply no_command_one|done].
Qed.

Lemma sys_new_inv : sys_inv system_new.
Proof.
  split; try (intros; simplify_map_eq; done).
  - apply new_invariant.
  - intros who c Hin. by apply elem_of_nil in Hin.
  - apply fresh_ids_new.
Qed.

Lemma sys_reachable_inv S :
  wf_server_config config → sys_reachable config timing hmac key S → sys_inv S.
Proof.
  intros Hwf H. pose proof sys_new_inv as Hi. unfold sys_reachable in H. revert Hi.
  induction H as [|S1 S2 S3 Hs _ IH]; [done|]. intros Hi. by eapply IH, sys_step_inv.
Qed.
End system.
