(* ===== verification/SystemTypes.v ===== *)
(** * The messages of the server are well typed

    Every message that waits in the queue of a writer is a frame of the control
    protocol whose payload the client can decode, whoever queued it: the
    registry, the session loop or [control::serve]. *)

From Stdlib Require Import Strings.Byte.
From S2P Require Import Prelude Errors Io Protocol ProtocolFacts Auth Runtime Timing Net Config.
From S2P Require Import Registry RegistryOps RegistryInv RegistrySafe RegistrySpec RegistryProps.
From S2P Require Import RegistryOrigin Handshake HandshakeFacts Sessions SessionFacts Traces.
From S2P Require Import System SystemInv.

Local Open Scope Z_scope.

(** ** Well-typed messages *)

(** What the server may say on a control connection. *)
Definition wf_outbound (m : Outbound) : Prop :=
  match m with
  | CloseAfterFlush => True
  | OutFrame f =>
      wf_frame f ∧
      match ty f with
      | TRegistered => ∃ rg, Registered_decode (payload f) = Ok rg
      | TError => ∃ c, decode_error (payload f) = Ok c
      | TOpen | TPing | TPong | TGoodbyeAck | TServerShutdown => True
      | _ => False
      end
  end.

Lemma wf_out_error c : wf_outbound (out_error c).
Proof.
  split; [apply length_to_be|]. exists c. by apply decode_error_exact.
Qed.

Lemma wf_out_sequence t n : payload_len t = 8%nat → t = TPing ∨ t = TPong →
  wf_outbound (out_frame t (to_be 8 n)).
Proof. intros Hl Ht. split; [unfold wf_frame; cbn [payload ty]; by rewrite Hl, length_to_be|]. by destruct Ht as [->| ->]. Qed.

Lemma registry_speaks : speaks wf_outbound.
Proof.
  split; [by intros rid|apply wf_out_error|done|done].
Qed.

Lemma wf_out_registered hmac key a rg :
  (∀ k m, length (hmac k m) = 32%nat) →
  1024 <= rg_assigned_port rg <= 65535 → 1 <= rg_max_connections rg <= 65535 →
  wf_outbound (OutFrame (registered_frame hmac key a rg)).
Proof.
  intros Hm Hp Hmax. unfold registered_frame.
  set (r := mkRegistered _ _ _).
  assert (wf_registered r) as Hr by (split_and!; simpl; [lia..|apply Hm]).
  assert (Registered_decode (Registered_encode r) = Ok r) as Hd
    by by apply Registered_decode_exact.
  split; [|by exists r]. unfold wf_frame. cbn [payload ty payload_len].
  unfold Registered_encode. rewrite !length_app, !length_to_be. unfold r. simpl.
  unfold mac. by rewrite Hm.
Qed.

(** ** The session loop *)

Section loop.
Context {Chan : Type} `{!Channel Outbound Chan}.
Context (timing : Timing).

Lemma push_sent (P : Outbound → Prop) m (q q' : Chan * list Outbound) :
  push m q = Some q' → P m → Forall P q.2 → Forall P q'.2.
Proof.
  unfold push. destruct (try_send q.1 m); [|done]. intros [= <-] Hm Hq. simpl.
  by apply Forall_app_2; [|constructor].
Qed.

Lemma push_ignore_sent (P : Outbound → Prop) m (q : Chan * list Outbound) :
  P m → Forall P q.2 → Forall P (push_ignore m q).2.
Proof.
  intros Hm Hq. unfold push_ignore. destruct (push m q) as [q'|] eqn:E; [|done].
  by eapply push_sent.
Qed.

Lemma server_turn_sent sid (rd : Ready Chan) hb :
  Forall wf_outbound (st_sent (server_turn timing sid rd hb)).
Proof.
  assert (∀ m q', wf_outbound m → push m (r_writer rd, []) = Some q' → Forall wf_outbound q'.2)
    as Hpush by (intros; by eapply push_sent).
  assert (∀ a b, wf_outbound a → wf_outbound b →
    Forall wf_outbound (push_ignore b (push_ignore a (r_writer rd, []))).2) as Htwo
    by (intros; by repeat apply push_ignore_sent).
  unfold server_turn. destruct (r_cancelled rd); [done|].
  destruct (deadline_passed rd hb); [done|].
  destruct (r_tick rd).
  - unfold tick. destruct (outstanding hb); [done|].
    destruct (push (ping_frame _) _) as [q|] eqn:E; [|done].
    eapply Hpush, E. apply wf_out_sequence; auto.
  - destruct (r_frame rd) as [[[f|]|]|]; try done. simpl. unfold server_frame.
    destruct (ty f); try done; try by apply Htwo; [apply wf_out_error|].
    + by destruct (OpenFailed_decode (payload f)).
    + destruct (decode_sequence (payload f)) as [v|]; [|done].
      destruct (push (pong_frame v) _) as [q|] eqn:E; [|done].
      eapply Hpush, E. apply wf_out_sequence; auto.
    + by destruct (decode_sequence (payload f)).
    + by apply Htwo.
Qed.
End loop.

(** ** The queues of the server *)

Section system.
Context {Sem Chan : Type} `{!Semaphore Sem, !Channel Outbound Chan}.
Context `{!SemaphoreLaws Sem, !ChannelLaws Outbound Chan}.
Context (config : ServerConfig) (timing : Timing).
Context (hmac : bytes → bytes → bytes) (key : bytes).
Context (digest : ∀ k m, length (hmac k m) = 32%nat).
Implicit Types (S : System Sem Chan) (r : Registry Sem Chan).

Definition good_registration (rg : Registration) : Prop :=
  1024 <= rg_assigned_port rg <= 65535 ∧ rg_max_connections rg = sc_max_connections config.

Definition good_phase (ph : Phase) : Prop :=
  match ph with
  | Registering _ (Ret (Ok rg)) => good_registration rg
  | _ => True
  end.

Record sys_typed S : Prop := {
  sy_queues : all_queued wf_outbound (writers (registry S));
  sy_phases : ∀ n pe, peers S !! n = Some pe → good_phase (phase pe)
}.

Lemma reply_registration env c rg stop r r' :
  wf_server_config config → invariant config r → admissible c r →
  handle_command config timing env c r = Returns (ReplyRegister (Ok rg), stop, r') →
  good_registration rg.
Proof using SemaphoreLaws0.
  intros Hwf Hi Had H. destruct c as [req| | | | | | | |]; simpl in H; try done.
  - apply outcome_bind_Returns in H as ([res r1] & H & [= -> _ _]).
    apply register_Ok in H as (p & r2 & slot & Hc & _ & Hlp & _ & _ & -> & _).
    destruct (chosen_port_range _ _ _ _ _ _ _ Hwf Hi Had Hlp Hc). by split.
  - by apply outcome_bind_Returns in H as (? & _ & ?).
  - by destruct (claim _ _ _ _ _).
Qed.

Lemma good_answered n reply pe :
  wf_peer hmac key n pe →
  (∀ rg, reply = Some (ReplyRegister (Ok rg)) → good_registration rg) →
  good_phase (phase pe) → good_phase (phase (answered reply pe)).
Proof using.
  unfold wf_peer, answered. intros Hwf Hr Hg.
  destruct (phase_asks (phase pe)) as [[c k]|] eqn:Ha; [|done].
  destruct (waiting pe); [|done]. unfold phase_asks in Ha.
  destruct (phase pe) as [p|p|p|a p|a g hb|a g b|]; try done; simpl.
  - by apply fmap_Some in Ha as ([c0 k0] & Ha & [= -> ->]).
  - apply fmap_Some in Ha as ([c0 k0] & Ha & [= -> ->]). destruct Hwf as [_ [->|[res ->]]]; [|done].
    simpl in Ha. simplify_eq. simpl. destruct reply as [[]|]; try done.
    destruct r; [|done]. by apply Hr.
Qed.

Lemma foldl_queued (P : Outbound → Prop) (w : WriterId) (l : list Outbound) (ws : gmap WriterId Chan) :
  Forall P l → all_queued P ws → all_queued P (foldl (λ ws m, queue_send ws w m) ws l).
Proof using ChannelLaws0.
  intros Hl. revert ws. induction Hl as [|m l Hm _ IH]; intros ws Hws; [done|].
  simpl. by apply IH, queue_send_queued.
Qed.

Lemma send_all_queued n l r :
  Forall wf_outbound l → all_queued wf_outbound (writers r) →
  all_queued wf_outbound (writers (send_all n l r)).
Proof using ChannelLaws0. intros Hl Hr. rewrite send_all_eq. by apply foldl_queued. Qed.

Lemma insert_queued (P : Outbound → Prop) (ws : gmap WriterId Chan) n c' :
  (∀ m, m ∈ chan_queue c' → P m) → all_queued P ws → all_queued P (<[n := c']> ws).
Proof using.
  intros Hc Hws w c m [[_ <-]|[_ Hw]]%lookup_insert_Some Hin; [by apply Hc|by eapply Hws].
Qed.

Lemma post_typed who l S : sys_typed S → sys_typed (post who l S).
Proof using. intros [Hq Hp]. unfold post. by destruct (actor_running S). Qed.

Lemma set_peer_typed S n pe r :
  sys_typed S → good_phase (phase pe) → all_queued wf_outbound (writers r) →
  sys_typed (set_registry r (set_peer n pe S)).
Proof using.
  intros [Hq Hp] Hg Hr. split; [done|]. simpl.
  intros m x [[_ <-]|[_ Hm]]%lookup_insert_Some; [done|by eapply Hp].
Qed.

Lemma sys_step_typed S S' :
  wf_server_config config → sys_inv config hmac key S → sys_typed S →
  sys_step config timing hmac key S S' → sys_typed S'.
Proof using SemaphoreLaws0 ChannelLaws0 digest.
  intros Hwf Hi Ht H. pose proof (sy_queues _ Ht) as Hq.
  destruct H as [S n Hn|S n pe e ph Hn Hw He Hadv Hnew|S n k ev Hn|S n a ev Hn
    |S n pe c k Hn Hw Ha Hrun Hroom|S n pe c k Hn Ha Hrun|S who c rest env reply stop r Hrun E Henv H
    |S t Hrun|S n a rg c c' ev Hn Hc Hsend|S n a rg c ev Hn Hc Hclosed Hroom|S n a code ev Hn
    |S n a g hb rd ev Hn Hc t Hroom|S n a g clean ev Hn Hroom|S n pe Hn|S n c m c' Hc Hm
    |S n c Hc|S c Hf Hroom|S id|S t].
  - by apply (set_peer_typed _ _ _ (registry S)).
  - pose proof (set_peer_typed _ n (mkPeer ph false (events pe ++ [e])) (registry S) Ht) as Hx.
    destruct Hx as [Hx1 Hx2]; [by destruct Hadv|done|]. by split.
  - apply (set_peer_typed _ _ _ (registry S)); [done|by destruct k|done].
  - apply set_peer_typed; [done|done|]. apply insert_queued; [|done].
    intros m. destruct (chan_new_spec (A := Outbound) WRITER_CAPACITY) as (-> & _).
    by intros ?%elem_of_nil.
  - apply post_typed, (set_peer_typed _ _ _ (registry S)); [done| |done]. simpl.
    by eapply sy_phases, Hn.
  - apply (set_peer_typed _ _ _ (registry S)); [done| |done].
    apply (good_answered n); [exact (si_peers _ _ _ _ Hi _ _ Hn)|done|]. exact (sy_phases _ Ht _ _ Hn).
  - pose proof (inbox_admissible _ _ _ _ _ _ _ Hi E) as Had. split; simpl.
    + assert (all_queued wf_outbound (writers r)) as Hr.
      { eapply handle_command_queued; [apply registry_speaks|apply Henv|done|done]. }
      destruct stop; [by apply shutdown_queued; [apply registry_speaks|]|done].
    + intros n pe Hn. destruct who as [m|]; [|by eapply sy_phases].
      rewrite lookup_alter in Hn. case_decide; [|by eapply sy_phases].
      apply fmap_Some in Hn as (old & Hold & ->). apply (good_answered m).
      * by apply (si_peers _ _ _ _ Hi).
      * intros rg [= ->]. eapply reply_registration; [done|apply Hi|done|done].
      * by eapply sy_phases.
  - split; [|apply Ht]. simpl. by rewrite sweep_eq.
  - apply set_peer_typed; [done|done|]. apply insert_queued; [|done].
    apply try_send_Some in Hsend as (-> & _). intros m [Hin|Hin%list_elem_of_singleton]%elem_of_app.
    + by eapply Hq.
    + subst m. destruct (sy_phases _ Ht _ _ Hn) as [Hp Hmax]. destruct Hwf as (_ & _ & _ & _ & Hm).
      apply wf_out_registered; [done|done|]. by rewrite Hmax.
  - by apply post_typed, (set_peer_typed _ _ _ (registry S)).
  - apply set_peer_typed; [done|done|]. apply send_all_queued; [|done].
    repeat constructor; apply wf_out_error.
  - apply post_typed, set_peer_typed; [done|by destruct (st_flow t)|].
    apply send_all_queued; [apply server_turn_sent|done].
  - by apply post_typed, (set_peer_typed _ _ _ (registry S)).
  - by apply (set_peer_typed _ _ _ (registry S)).
  - split; [|apply Ht]. apply insert_queued; [|done]. apply chan_recv_spec in Hm as (Hm & _).
    intros x Hin. eapply Hq; [done|]. rewrite Hm. by right.
  - split; [|apply Ht]. apply insert_queued; [|done]. intros x Hin.
    eapply Hq; [done|]. by apply chan_close_spec.
  - by apply post_typed.
  - split; [|apply Ht]. simpl. unfold finish_task. by destruct (tasks (registry S) !! id).
  - split; [|apply Ht]. done.
Qed.
End system.
