(* ===== verification/SystemProps.v ===== *)
(** * What the server guarantees as a whole *)

From Stdlib Require Import Strings.String Strings.Byte.
From S2P Require Import Prelude Errors Io Protocol ProtocolFacts Auth Runtime Timing Net Config.
From S2P Require Import Registry RegistryOps RegistryInv RegistrySafe RegistrySpec RegistryProps.
From S2P Require Import RegistryReplay RegistryOrigin Handshake HandshakeFacts Sessions SessionFacts Traces.
From S2P Require Import System SystemInv SystemTypes.

Local Open Scope Z_scope.

Section props.
Context {Sem Chan : Type} `{!Semaphore Sem, !Channel Outbound Chan}.
Context `{!SemaphoreLaws Sem, !ChannelLaws Outbound Chan}.
Context (config : ServerConfig) (timing : Timing).
Context (hmac : bytes → bytes → bytes) (key : bytes).
Implicit Types (S : System Sem Chan) (r : Registry Sem Chan).

Local Abbreviation sreach := (sys_reachable config timing hmac key).

(** What a step does to the queue of commands: those that are taken were at its
    front, those that are sent go to its end, and each of the latter that is to
    be answered is the one its connection stands at.  A [Shutdown] drops the
    rest. *)
Record queue_part S S' (taken sent : list (option Socket * Command)) (stop : bool) : Prop := {
  qp_taken : ∃ rest, inbox S = taken ++ rest ∧ inbox S' = if stop then [] else rest ++ sent;
  qp_sent : ∀ n c, (Some n, c) ∈ sent →
    ∃ pe k, peers S !! n = Some pe ∧ phase_asks (phase pe) = Some (c, k);
  qp_stop : if stop then actor_running S' = false ∧ taken.*2 = [CShutdown]
            else actor_running S' = actor_running S
}.

(** The part of a step that happens in the registry: events whose commands are
    exactly those that are taken, in this order, and the shutdown that the end of
    the registry's loop repeats. *)
Definition registry_part S S' (l : list Event) : Prop :=
  fires_all config timing l (registry S) (registry S') ∧
  ∃ taken sent stop, queue_part S S' taken sent stop ∧
    commands_of l = taken.*2 ++ if (stop : bool) then [CShutdown] else [].

(** A step that takes no command. *)
Lemma registry_part_events S S' l sent :
  fires_all config timing l (registry S) (registry S') → commands_of l = [] →
  inbox S' = inbox S ++ sent → actor_running S' = actor_running S →
  (∀ n c, (Some n, c) ∈ sent →
    ∃ pe k, peers S !! n = Some pe ∧ phase_asks (phase pe) = Some (c, k)) →
  registry_part S S' l.
Proof.
  intros H Hno Hi Ha Hs. split; [done|]. exists [], sent, false. split; [|done].
  split; [by exists (inbox S)|done|done].
Qed.

Lemma registry_part_one S S' e :
  fires config timing e (registry S) (registry S') → commands_of [e] = [] →
  inbox S' = inbox S → actor_running S' = actor_running S → ∃ l, registry_part S S' l.
Proof.
  intros H Hno Hi Ha. exists [e]. apply (registry_part_events _ _ _ []); try done;
    [by apply fires_one|by rewrite app_nil_r|by intros ? ? ?%elem_of_nil].
Qed.

Lemma registry_part_none S S' :
  registry S' = registry S → inbox S' = inbox S → actor_running S' = actor_running S →
  ∃ l, registry_part S S' l.
Proof.
  intros E Hi Ha. exists []. apply (registry_part_events _ _ _ []); try done;
    [rewrite E; constructor|by rewrite app_nil_r|by intros ? ? ?%elem_of_nil].
Qed.

(** Commands that nobody waits for. *)
Lemma registry_part_posted S S' l1 cs :
  fires_all config timing l1 (registry S) (registry S') → commands_of l1 = [] →
  inbox S' = inbox S → actor_running S' = actor_running S →
  ∃ l, registry_part S (post None cs S') l.
Proof.
  intros H Hno Hi Ha. exists l1.
  apply (registry_part_events _ _ _ (if actor_running S' then pair None <$> cs else []));
    [| done | | |].
  - unfold post. destruct (actor_running S'); exact H.
  - rewrite <-Hi. unfold post. destruct (actor_running S'); simpl; by rewrite ?app_nil_r.
  - rewrite <-Ha. unfold post. by destruct (actor_running S') eqn:E.
  - intros n c Hin. destruct (actor_running S'); [|by apply elem_of_nil in Hin].
    by apply list_elem_of_fmap in Hin as (? & [=] & _).
Qed.

Lemma registry_post who l S : registry (post who l S) = registry S.
Proof. unfold post. by destruct (actor_running S). Qed.

Lemma sys_step_registry S S' :
  sys_inv config hmac key S → sys_step config timing hmac key S S' →
  ∃ l, registry_part S S' l.
Proof.
  intros Hi H.
  assert (∀ S' ws, registry S' = set_writers ws (registry S) → inbox S' = inbox S →
    actor_running S' = actor_running S → ∃ l, registry_part S S' l) as Hws.
  { intros S1 ws E. apply (registry_part_one _ _ EvWriters); [rewrite E; constructor|done]. }
  destruct H as [S n Hn|S n pe e ph Hn Hw He Hadv Hnew|S n k ev Hn|S n a ev Hn
    |S n pe c k Hn Hw Ha Hrun Hroom|S n pe c k Hn Ha Hrun|S who c rest env reply stop r Hrun E Henv H
    |S t Hrun|S n a rg c c' ev Hn Hc Hsend|S n a rg c ev Hn Hc Hclosed Hroom|S n a code ev Hn
    |S n a g hb rd ev Hn Hc t Hroom|S n a g clean ev Hn Hroom|S n pe Hn|S n c m c' Hc Hm
    |S n c Hc|S c Hf Hroom|S id|S t]; try (by apply registry_part_none); try (by eapply Hws).
  - exists []. unfold post. cbn [actor_running set_peer]. rewrite Hrun.
    apply (registry_part_events _ _ _ [(Some n, c)]); try done; [constructor|].
    intros m c' [= -> ->]%list_elem_of_singleton. by exists pe, k.
  - pose proof (inbox_admissible _ _ _ _ _ _ _ Hi E) as Had.
    destruct (turn_events _ _ _ _ _ _ _ _ Had H) as (l & Hl & Hc & _).
    exists l. split; [done|]. exists [(who, c)], [], stop.
    split; [|by destruct stop; [destruct Hc as [-> ->]|]].
    split; [exists rest; by rewrite app_nil_r|by intros ? ? ?%elem_of_nil|].
    destruct stop; [by destruct Hc as [-> _]|by rewrite Hrun].
  - apply (registry_part_one _ _ (EvSweep t)); [constructor|done..].
  - apply (registry_part_posted _ _ []); [constructor|done..].
  - eapply Hws; [|done..]. cbn [registry set_registry]. by rewrite send_all_eq.
  - apply (registry_part_posted _ _ [EvWriters]); [|done..].
    simpl. rewrite send_all_eq. apply fires_one. constructor.
  - apply (registry_part_posted _ _ []); [constructor|done..].
  - apply (registry_part_posted _ _ []); [constructor|done..].
  - apply (registry_part_one _ _ (EvFinish id)); [constructor|done..].
  - apply (registry_part_one _ _ (EvCancel t)); [constructor|done..].
Qed.

Lemma sys_reachable_registry S :
  wf_server_config config → sreach S → reachable config timing (registry S).
Proof.
  intros Hwf H. pose proof (sys_new_inv (Sem := Sem) (Chan := Chan) config hmac key) as Hi.
  assert (reachable config timing (registry (system_new : System Sem Chan))) as Hr
    by by exists ∅.
  unfold sys_reachable in H. revert Hi Hr.
  induction H as [|S1 S2 S3 Hs _ IH]; [done|]. intros Hi [ws Hr].
  apply IH; [by eapply sys_step_inv|]. exists ws.
  destruct (sys_step_registry _ _ Hi Hs) as (l & Hl & _). etrans; [done|by eapply fires_all_rtc].
Qed.

(** A connection begins to wait only by sending its question. *)
Lemma answered_waiting reply pe :
  waiting (answered reply pe) = true → waiting pe = true.
Proof.
  unfold answered. destruct (phase_asks (phase pe)) as [[c k]|]; [|done].
  destruct (waiting pe) eqn:E; [done|]. congruence.
Qed.

Lemma peers_post who l S : peers (post who l S) = peers S.
Proof. unfold post. by destruct (actor_running S). Qed.

Lemma insert_waiting (l : gmap Socket Peer) n pe m pe' :
  <[n := pe]> l !! m = Some pe' → waiting pe = false → waiting pe' = true →
  ∃ pe, l !! m = Some pe ∧ waiting pe = true.
Proof. intros [[_ <-]|[_ H]]%lookup_insert_Some; [congruence|eauto]. Qed.

Lemma sys_step_waits S S' n pe' :
  sys_step config timing hmac key S S' → peers S' !! n = Some pe' → waiting pe' = true →
  (∃ pe, peers S !! n = Some pe ∧ waiting pe = true) ∨
  ∃ c k, phase_asks (phase pe') = Some (c, k) ∧ inbox S' = inbox S ++ [(Some n, c)].
Proof.
  intros H. destruct H as [S m Hm|S m pe e ph Hm Hw He Hadv Hnew|S m k ev Hm|S m a ev Hm
    |S m pe c k Hm Hw Ha Hrun Hroom|S m pe c k Hm Ha Hrun|S who c rest env reply stop r Hrun E Henv H
    |S t Hrun|S m a rg c c' ev Hm Hc Hsend|S m a rg c ev Hm Hc Hclosed Hroom|S m a code ev Hm
    |S m a g hb rd ev Hm Hc t Hroom|S m a g clean ev Hm Hroom|S m pe Hm|S m c w c' Hc Hw
    |S m c Hc|S c Hf Hroom|S id|S t]; rewrite ?peers_post; try (simpl; intros; left; by eauto);
    try (simpl; intros Hp Hwait; left; by eapply insert_waiting).
  - unfold post. cbn [actor_running set_peer]. rewrite Hrun. simpl.
    intros [[-> <-]|[_ Hp]]%lookup_insert_Some Hwait; [right|by left; eauto].
    by exists c, k.
  - simpl. intros [[-> <-]|[_ Hp]]%lookup_insert_Some Hwait; [|by left; eauto].
    unfold answered in Hwait. simpl in Hwait. rewrite Ha in Hwait. done.
  - unfold actor_turn. cbn [peers]. intros Hp Hwait. left. destruct who as [m|]; [|eauto].
    apply lookup_alter_Some in Hp as [(-> & pe & Hp & ->)|[_ Hp]]; [|eauto].
    apply answered_waiting in Hwait. eauto.
Qed.

(** (C2) The server uses the registry as it was meant to be used: whatever the
    connections do and in whatever order, the registry only ever goes through
    states and events of its own transition system (so all that is proved of
    it holds in the running server); every registration it takes is
    admissible because it comes out of a control handshake; and commands are
    taken in the order in which they were sent: a step takes commands only from
    the front of the queue, the registry executes these and no others (but for
    the shutdown that the end of its loop repeats), and what a step sends goes to
    the end; and a connection that begins to wait for an answer has put its own
    question there. *)
Theorem server_refines_registry S S' :
  wf_server_config config → sreach S → sys_step config timing hmac key S S' →
  reachable config timing (registry S) ∧ (∃ l, registry_part S S' l) ∧
  (∀ who c rest, inbox S = (who, c) :: rest → admissible c (registry S)) ∧
  ∀ n pe', peers S' !! n = Some pe' → waiting pe' = true →
    (∃ pe, peers S !! n = Some pe ∧ waiting pe = true) ∨
    ∃ c k, phase_asks (phase pe') = Some (c, k) ∧ inbox S' = inbox S ++ [(Some n, c)].
Proof.
  intros Hwf Hr Hs. pose proof (sys_reachable_inv _ _ _ _ _ Hwf Hr) as Hi.
  split_and!; [by apply sys_reachable_registry|by apply sys_step_registry| |].
  - intros who c rest E. by eapply inbox_admissible.
  - intros n pe'. by apply sys_step_waits.
Qed.

(** (C1) End-to-end authentication.  In every state the server can reach, a
    session belongs to a connection that has proved the key on the hello it
    sent, with a nonce and a session identifier drawn for this connection; and
    a public connection is forwarded only to a data connection that has proved
    the key, with a nonce drawn for it, on the session and the request of this
    very public connection.  The proofs are in the histories of the
    connections: what the peer had sent when the nonce was drawn, and the MAC
    it sent after that. *)
Theorem end_to_end_authentication S :
  wf_server_config config → sreach S →
  (∀ sid s, sessions (registry S) !! sid = Some s →
     ∃ hello, instance_id hello = s_instance_id s ∧
       control_proved hmac key (peers S) hello sid (s_writer s)) ∧
  (∀ id t socket, tasks (registry S) !! id = Some t → t_data t = Some socket →
     data_proved hmac key (peers S) (t_session t) (t_request t) socket ∧
     ∃ n hello, control_proved hmac key (peers S) hello (t_session t) n).
Proof.
  intros Hwf Hr. destruct (si_proved _ _ _ _ (sys_reachable_inv _ _ _ _ _ Hwf Hr)) as [Hs Ht].
  split.
  - intros sid s H. destruct (Hs _ _ H) as (<- & hello & ? & ?). by exists hello.
  - intros id t socket H E. destruct (Ht _ _ H) as [(n & hello & Hc) Hd]. rewrite E in Hd.
    split; [done|]. by exists n, hello.
Qed.

(** Session identifiers are used once: two connections never register
    under the same identifier, and a registered one is never registered
    again, so a session of the registry has one control connection. *)
Lemma session_identifiers_unique S :
  wf_server_config config → sreach S →
  (∀ n m pe pe' a a', peers S !! n = Some pe → peers S !! m = Some pe' →
     (∃ hb g, phase pe = Established a g hb) → (∃ hb g, phase pe' = Established a' g hb) →
     au_session_id a = au_session_id a' → n = m) ∧
  (∀ who c sid, (who, c) ∈ inbox S → sid ∈ command_session c →
     sessions (registry S) !! sid = None).
Proof.
  intros Hwf Hr. pose proof (sys_reachable_inv _ _ _ _ _ Hwf Hr) as Hi. split.
  - intros n m pe pe' a a' Hn Hm (hb & g & E) (hb' & g' & E') Heq.
    assert (∀ k x b, peers S !! k = Some x → (∃ hb g, phase x = Established b g hb) →
      au_session_id b ∈ drawn 16 (events x)) as Hd.
    { intros k x b Hk (? & ? & Ex). pose proof (si_peers _ _ _ _ Hi _ _ Hk) as Hx.
      unfold wf_peer in Hx. rewrite Ex in Hx. by eapply control_evidence_drawn. }
    eapply (fi_apart _ _ _ _ _ (si_fresh _ _ _ _ Hi)); [done|done|eapply Hd; eauto|].
    rewrite Heq. eapply Hd; eauto.
  - intros who c sid Hin Hsid. apply not_elem_of_dom. intros Hx.
    apply (fi_sessions _ _ _ _ _ (si_fresh _ _ _ _ Hi)) in Hx.
    destruct (fi_inbox _ _ _ _ _ (si_fresh _ _ _ _ Hi) sid) as [? _]; [|done].
    apply list_elem_of_bind. exists (who, c). done.
Qed.

(** ** The client reads what the server says *)

Lemma sys_reachable_typed S :
  wf_server_config config → (∀ k m, length (hmac k m) = 32%nat) → sreach S →
  sys_typed config S.
Proof.
  intros Hwf Hm H. pose proof (sys_new_inv (Sem := Sem) (Chan := Chan) config hmac key) as Hi.
  assert (sys_typed config (system_new : System Sem Chan)) as Ht
    by (split; intros ? **; simplify_map_eq).
  unfold sys_reachable in H. revert Hi Ht.
  induction H as [|S1 S2 S3 Hs _ IH]; [done|]. intros Hi Ht.
  apply IH; [by eapply sys_step_inv|by eapply sys_step_typed].
Qed.

(** A well-typed message is no protocol violation to the client. *)
Lemma wf_outbound_accepted f hb (permits : Sem)
    (q : Chan * list Outbound) e :
  wf_outbound (OutFrame f) → ty f ≠ TRegistered →
  ct_flow (client_frame f hb permits q) ≠ CBreak (Fatal (AppProtocol e)).
Proof.
  intros [Hf Hty] Hne. unfold wf_frame in Hf. unfold client_frame.
  destruct (ty f) eqn:E; simpl in Hf; try done.
  - destruct (decode_request_id (payload f)) as [rid|] eqn:Hd; [by destruct (try_acquire permits)|].
    unfold decode_request_id in Hd. by rewrite decide_False in Hd by lia.
  - destruct (decode_sequence (payload f)) as [v|] eqn:Hd; [by destruct (push _ _)|].
    unfold decode_sequence in Hd. by rewrite decide_False in Hd by lia.
  - destruct (decode_sequence (payload f)) as [v|] eqn:Hd; [done|].
    unfold decode_sequence in Hd. by rewrite decide_False in Hd by lia.
  - destruct Hty as [c ->]. simpl. unfold classify. by destruct (is_fatal_for_client c).
Qed.

(** (C7) Well-typed messages do not go wrong.  Every frame that waits in the
    queue of a writer, in every state the server can reach, is a control frame
    of the length its type has; a REGISTERED decodes to a valid port and
    maximum; and any other one, read by a client in any state of its session
    loop, never makes it give up with a protocol error. *)
Theorem server_messages_accepted S n c f :
  wf_server_config config → (∀ k m, length (hmac k m) = 32%nat) → sreach S →
  writers (registry S) !! n = Some c → OutFrame f ∈ chan_queue c →
  wf_frame f ∧ is_control (ty f) = true ∧
  (ty f = TRegistered → ∃ rg, Registered_decode (payload f) = Ok rg) ∧
  (ty f ≠ TRegistered → ∀ hb (permits : Sem) (q : Chan * list Outbound) e,
     ct_flow (client_frame f hb permits q) ≠ CBreak (Fatal (AppProtocol e))).
Proof.
  intros Hwf Hm Hr Hn Hin.
  pose proof (sy_queues _ _ (sys_reachable_typed _ Hwf Hm Hr) _ _ _ Hn Hin) as Hf.
  destruct Hf as [Hw Hty]. split_and!; [done|by destruct (ty f)| |].
  - intros Hreg. by rewrite Hreg in Hty.
  - intros Hne hb permits q e. by apply wf_outbound_accepted.
Qed.
End props.
