(* ===== verification/Witness.v ===== *)
(** * The properties of the wire and of the tasks, on concrete runs

    Each lemma applies a property to a concrete connection, session or run at
    which its hypotheses hold.  The keyed hash is instantiated by a function on
    numbers that has the length of the real one. *)

From Stdlib Require Import Strings.String Strings.Byte.
From S2P Require Import Prelude Errors Io Protocol ProtocolFacts Auth Runtime Timing Net Config.
From S2P Require Import Registry RegistryDemo Handshake HandshakeFacts Sessions SessionFacts.
From S2P Require Import Client ClientFacts Server ServerFacts.

Local Open Scope Z_scope.

(** ** A keyed hash, two worlds and a key *)

Definition toy_hmac (key m : bytes) : bytes := to_be 32 (31 * from_be key + from_be m).

Lemma length_toy_hmac key m : length (toy_hmac key m) = 32%nat.
Proof. apply length_to_be. Qed.

Definition no_request (X : Type) : Type := Empty_set.

Definition entropy_of (e32 e16 : bytes) (n : nat) : result string bytes :=
  if Nat.eqb n 32 then Ok e32 else Ok e16.

Definition peer_world (e32 e16 : bytes) : World no_request unit := {|
  entropy := λ _, entropy_of e32 e16;
  read_error := λ _, None;
  write_error := λ _, None;
  serve_request := λ X (r : no_request X) s, match r with end
|}.

Lemma peer_world_reliable e32 e16 : reliable (peer_world e32 e16).
Proof. done. Qed.

(** A server whose requests are answered by the registry of the small server. *)
Definition serve_demo (X : Type) (r : RegistryRequest X) : DemoRegistry → X * DemoRegistry :=
  match r in RegistryRequest X return DemoRegistry → X * DemoRegistry with
  | Send c => λ s,
      match handle_command demo_config Timing_default (demo_env 20 0) c s with
      | Returns (reply, _, s') => (Some reply, s')
      | Panics | Spins => (None, s)
      end
  end.

Definition server_world (e32 : bytes) : World RegistryRequest DemoRegistry := {|
  entropy := λ _, entropy_of e32 e32;
  read_error := λ _, None;
  write_error := λ _, None;
  serve_request := serve_demo
|}.

Definition demo_key : bytes := list_byte_of_string "secret".
Definition client_nonce : Nonce := replicate 32 x11.
Definition server_nonce : Nonce := replicate 32 x22.
Definition demo_hello : ControlHello := mkControlHello instance_a client_nonce Fresh 0.

Lemma demo_hello_wf : wf_hello demo_hello.
Proof. by split_and!. Qed.
Lemma demo_hello_valid : valid_request demo_hello.
Proof. split; simpl; [done|lia]. Qed.

Definition on_wire {S} (s : S) (i : bytes) : Conn S := mkConn i [] s 0.

(** ** Frames and authentication *)

Lemma decode_preamble_exact_witness :
  decode_preamble (encode_preamble Control) = Ok Control ↔
  encode_preamble Control = encode_preamble Control.
Proof. apply (decode_preamble_exact (encode_preamble Control) eq_refl). Defined.

Definition demo_ping : Frame := mkFrame TPing (to_be 8 7).

Lemma read_frame_exact_witness :
  ∃ t, run (peer_world [] []) read_frame (on_wire () (frame_encode demo_ping ++ [x01])) =
    (Ok demo_ping, mkConn [x01] [] () t).
Proof.
  apply (read_frame_exact (peer_world [] []) (peer_world_reliable _ _)
    (on_wire () (frame_encode demo_ping ++ [x01])) demo_ping [x01]).
  split; reflexivity.
Defined.

Lemma read_frame_rejects_header_witness :
  ∃ d t, run (peer_world [] []) read_frame (on_wire () [x07; x00; x02; x00]) =
    (Err (app_protocol d), mkConn [x00] [] () t).
Proof.
  apply (read_frame_rejects_header (peer_world [] []) (peer_world_reliable _ _)
    (on_wire () [x07; x00; x02; x00]) x07 2).
  - simpl. lia.
  - reflexivity.
  - vm_compute. reflexivity.
  - intros t [= <-]. simpl. lia.
Defined.

Lemma verify_binds_witness :
  ControlClient demo_hello server_nonce (demo_session x01) =
    ControlClient demo_hello server_nonce (demo_session x01) ∨
  (mac_input (ControlClient demo_hello server_nonce (demo_session x01)) ≠
     mac_input (ControlClient demo_hello server_nonce (demo_session x01)) ∧
   toy_hmac demo_key (mac_input (ControlClient demo_hello server_nonce (demo_session x01))) =
     toy_hmac demo_key (mac_input (ControlClient demo_hello server_nonce (demo_session x01)))).
Proof.
  apply verify_binds; [by split_and!|by split_and!|vm_compute; reflexivity].
Defined.

(** ** Handshakes *)

Definition demo_up : bytes :=
  frame_encode (hello_frame demo_hello) ++
  frame_encode (proof_frame toy_hmac demo_key demo_hello server_nonce (demo_session x01)).
Definition demo_accepted : Authenticated :=
  accepted demo_hello server_nonce (demo_session x01).
Definition demo_down : bytes :=
  frame_encode (challenge_frame toy_hmac demo_key demo_hello server_nonce (demo_session x01)).
Definition demo_registration : Registration := mkRegistration 20000 4 1.

Lemma control_handshake_sound_witness :
  wf_hello (au_hello demo_accepted) ∧ au_session_id demo_accepted = demo_session x01.
Proof.
  destruct (control_handshake_sound toy_hmac (peer_world server_nonce (demo_session x01)) demo_key
    (on_wire () demo_up) demo_accepted (mkConn [] demo_down () 8))
    as (n & s & t & taken & written & _ & _ & H & _ & Hs & _).
  - vm_compute. reflexivity.
  - split; [exact H|]. reflexivity.
Defined.

Definition io_text (e : IoError) : string := "i/o error".

Definition client_inbound : bytes :=
  demo_down ++ frame_encode (registered_frame toy_hmac demo_key demo_accepted demo_registration).

Lemma client_register_sound_witness :
  ∃ rg, wf_registered rg ∧ assigned_port rg = 20000.
Proof.
  destruct (client_register_sound toy_hmac (peer_world client_nonce []) io_text demo_key
    instance_a Fresh 0 (on_wire () client_inbound)
    (mkSession (demo_session x01) (mkSocketAddr (V4 0 0 0 0) 0) 20000 4)
    (mkConn [] (encode_preamble Control ++ demo_up) () 10))
    as (n & t & ch & rg & _ & _ & Hr & _ & _ & _ & _ & Hp & _).
  - vm_compute. reflexivity.
  - exists rg. split; [exact Hr|]. symmetry. exact Hp.
Defined.

Lemma client_register_retries_witness :
  (∃ e, message ServerBusy = io_text e) ∨ message ServerBusy = message ServerBusy.
Proof.
  eapply (client_register_retries toy_hmac (peer_world client_nonce []) io_text demo_key
    instance_a Fresh 0 (on_wire () (frame_encode (mkFrame TError (to_be 2 (as_u16 ServerBusy)))))).
  vm_compute. reflexivity.
Defined.

Definition demo_data_hello : DataHello :=
  mkDataHello (demo_session x01) (replicate 16 x05) client_nonce.
Definition data_up : bytes :=
  frame_encode (data_hello_frame demo_data_hello) ++
  frame_encode (data_proof_frame toy_hmac demo_key demo_data_hello server_nonce).
Definition data_down : bytes :=
  frame_encode (data_challenge_frame toy_hmac demo_key demo_data_hello server_nonce).

Lemma client_data_handshake_sound_witness :
  ∃ ch, wf_data_challenge ch.
Proof.
  destruct (client_data_handshake_sound toy_hmac (peer_world client_nonce []) demo_key
    (demo_session x01) (replicate 16 x05)
    (on_wire () (data_down ++ frame_encode (frame_empty TDataReady) ++ [x41])) ()
    (mkConn [x41] (encode_preamble Data ++ data_up) () 10))
    as (n & t & ch & _ & H & _).
  - vm_compute. reflexivity.
  - exists ch. exact H.
Defined.

(** The data connection of [demo_waiting] claims its request. *)
Lemma data_claim_sound_witness :
  ∃ h, dh_session_id h = demo_session x01 ∧
    data_exchange toy_hmac (server_world server_nonce) demo_key h data_up.
Proof.
  destruct (data_claim_sound toy_hmac (server_world server_nonce) 100 demo_key 88
    (on_wire demo_waiting data_up) (demo_session x01) (replicate 16 x05) 88)
    as (_ & h & H1 & _ & H2 & _).
  - assert (requests_for (server_world server_nonce) 100 (data_handshake toy_hmac demo_key 88)
      (on_wire demo_waiting data_up) =
      [sent (CPeekData (demo_session x01) (replicate 16 x05));
       sent (CClaimData (demo_session x01) (replicate 16 x05) 88)]) as E
      by (vm_compute; reflexivity).
    rewrite E. right. left.
  - exists h. split; [exact H1|exact H2].
Defined.

Lemma control_agreement_witness :
  ∃ up down a, au_hello a = demo_hello ∧ au_session_id a = demo_session x01 ∧
    (∃ c', run (peer_world server_nonce (demo_session x01)) (control_handshake toy_hmac demo_key)
       (on_wire () up) = (Ok a, c') ∧ outbound c' = down) ∧
    ∃ c' s, run (peer_world client_nonce []) (client_register toy_hmac io_text demo_key
        instance_a Fresh 0)
      (on_wire () (down ++ frame_encode (registered_frame toy_hmac demo_key a demo_registration)))
      = (Ok s, c').
Proof.
  destruct (control_agreement toy_hmac demo_key demo_hello server_nonce (demo_session x01)
    demo_registration io_text (peer_world server_nonce (demo_session x01))
    (peer_world client_nonce [])) as (up & down & a & H1 & H2 & H3 & H4).
  - apply length_toy_hmac.
  - apply peer_world_reliable.
  - apply peer_world_reliable.
  - apply demo_hello_wf.
  - apply demo_hello_valid.
  - reflexivity.
  - reflexivity.
  - reflexivity.
  - reflexivity.
  - reflexivity.
  - simpl. lia.
  - simpl. lia.
  - simpl. lia.
  - exists up, down, a. split; [exact H1|]. split; [exact H2|]. split.
    + destruct (H3 (on_wire () up) []) as (c' & E & _ & O); [symmetry; apply app_nil_r|].
      exists c'. split; [exact E|exact O].
    + edestruct (H4 (on_wire () (down ++ frame_encode (registered_frame toy_hmac demo_key a
        demo_registration))) []) as (c' & E & _); [by rewrite app_nil_r|].
      eexists _, _. exact E.
Defined.

Definition granting (X : Type) (r : RegistryRequest X) : unit → X * unit :=
  match r in RegistryRequest X return unit → X * unit with
  | Send c => λ s,
      (match c with
       | CPeekData _ _ => Some (ReplyPeek true)
       | CClaimData _ _ _ => Some (ReplyClaim Delivered)
       | _ => None
       end, s)
  end.

Definition granting_world : World RegistryRequest unit := {|
  entropy := λ _, entropy_of server_nonce [];
  read_error := λ _, None;
  write_error := λ _, None;
  serve_request := granting
|}.

Lemma data_agreement_witness :
  ∃ up down, ∃ c', run granting_world (data_handshake toy_hmac demo_key 88) (on_wire () up) =
    (Ok (), c') ∧ outbound c' = down ∧
    requests granting_world (data_handshake toy_hmac demo_key 88) (on_wire () up) =
      [sent (CPeekData (dh_session_id demo_data_hello) (dh_request_id demo_data_hello));
       sent (CClaimData (dh_session_id demo_data_hello) (dh_request_id demo_data_hello) 88%nat)].
Proof.
  destruct (data_agreement toy_hmac demo_key demo_data_hello server_nonce 88 granting_world
    (peer_world client_nonce [])) as (up & down & H & _);
    [apply length_toy_hmac|done|done|by split|by split_and!|reflexivity|reflexivity|reflexivity|].
  destruct (H (on_wire () up) []) as (c' & E & Q & _ & O); [symmetry; apply app_nil_r|].
  exists up, down, c'. split; [exact E|]. split; [exact O|exact Q].
Defined.

(** ** Established connections

    A session that sends a ping, gets its PONG, pings again; then no PONG comes. *)

Definition no_text (e : IoError) : string := "i/o error".
Definition demo_queue : queue Outbound := mkQueue [] 8 false.

Definition ready (t : Instant) (tick : bool) (f : option Frame) : Ready (queue Outbound) :=
  mkReady false false t tick (match f with Some f => Some (Some (Ok f)) | None => None end)
    demo_queue.

Definition at_tick (t : Instant) := ready t true None.
Definition at_frame (t : Instant) (f : Frame) := ready t false (Some f).
Definition demo_pong (n : Z) : Frame := mkFrame TPong (to_be 8 n).

(** The next turn after the deadline of the ping sent at time 0. *)
Definition late : Instant := heartbeat_timeout Timing_default.

Definition beating : list (Ready (queue Outbound)) :=
  [at_tick 0; at_frame 1 (demo_pong 1); at_tick 2].
Definition silent : list (Ready (queue Outbound)) := [at_tick 0; ready late false None].
Definition goodbye_run : list (Ready (queue Outbound)) :=
  [at_tick 0; at_frame 1 (frame_empty TGoodbye)].

Definition demo_session_up : Session :=
  mkSession (demo_session x01) (mkSocketAddr (V4 0 0 0 0) 0) 20000 1.

Lemma control_stream_witness :
  let queued := [OutFrame demo_ping; OutFrame (demo_pong 3); CloseAfterFlush; OutFrame demo_ping] in
  (read_frames (peer_world [] []) 3
     (on_wire () (outbound (writer_loop (peer_world [] []) 5 queued (on_wire () []))))).1 =
  [Ok demo_ping; Ok (demo_pong 3); Err (AppIo UnexpectedEof)].
Proof.
  intros queued.
  apply (control_stream (peer_world [] []) (peer_world [] []) 5 queued (on_wire () [])).
  - apply peer_world_reliable.
  - apply peer_world_reliable.
  - lia.
  - reflexivity.
  - repeat constructor.
  - reflexivity.
Defined.

Lemma one_ping_at_a_time_witness :
  (∃ k rd, (0 < k < 2)%nat ∧ beating !! k = Some rd ∧ answered rd 1) ∧
  (∃ k n rd, (0 < k < 2)%nat ∧ ((λ rd, (0%nat, rd)) <$> beating) !! k = Some (n, rd) ∧
     answered rd 1).
Proof.
  destruct (one_ping_at_a_time Timing_default no_text (demo_session x01) beating
    ((λ rd, (0%nat, rd)) <$> beating) 1%nat 0 2 1 2 ltac:(lia)) as [Hs Hc].
  split.
  - eapply Hs; [vm_compute; reflexivity|vm_compute; reflexivity|left|left].
  - eapply Hc; [vm_compute; reflexivity|vm_compute; reflexivity|left|left].
Defined.

Lemma missed_pong_ends_session_witness :
  (∃ u, session_loop Timing_default (demo_session x01) silent heartbeat_new !! 1%nat = Some u ∧
     st_flow u = SBreak false) ∧
  (∃ u, run_session Timing_default no_text ((λ rd, (0%nat, rd)) <$> silent) heartbeat_new 1%nat
       !! 1%nat = Some u ∧
     (ct_flow u = CBreak Clean ∧ false = true ∨ ∃ m, ct_flow u = CBreak (Retry m))).
Proof.
  destruct (missed_pong_ends_session Timing_default no_text (demo_session x01) silent
    ((λ rd, (0%nat, rd)) <$> silent) 1%nat 0 1 1 ltac:(lia)) as [Hs Hc].
  split.
  - eexists. split; [vm_compute; reflexivity|].
    eapply Hs; [vm_compute; reflexivity..|left|intros k x; lia|vm_compute; discriminate].
  - eexists. split; [vm_compute; reflexivity|].
    eapply (Hc _ _ 0%nat (at_tick 0) 0%nat (ready late false None));
      [vm_compute; reflexivity|vm_compute; reflexivity|reflexivity|reflexivity|left
      |intros k x; lia|vm_compute; discriminate].
Defined.

(** REGISTERED waits for room once; a ping, the client's GOODBYE, and the end. *)
Lemma goodbye_only_on_request_witness :
  let served := serve_registration Timing_default toy_hmac demo_key demo_accepted
    (SessionToken 0) (SessionToken 1) (Ok demo_registration)
    [mkQueue [CloseAfterFlush] 1 false; demo_queue] [] goodbye_run in
  ∃ during, served =
    Queues (OutFrame (registered_frame toy_hmac demo_key demo_accepted demo_registration)) ::
    during ++ [Cancels (SessionToken 1); AwaitsReader (from_secs 1);
               Tells (CGoodbye (demo_session x01) 1);
               Cancels (SessionToken 0); Cancels (SessionToken 1); AwaitsWriter].
Proof.
  pose proof (goodbye_only_on_request Timing_default toy_hmac demo_key demo_accepted
    (SessionToken 0) (SessionToken 1) demo_registration
    [mkQueue [CloseAfterFlush] 1 false; demo_queue] [] goodbye_run) as H.
  assert (session_clean (session_loop Timing_default (au_session_id demo_accepted) goodbye_run
    heartbeat_new) = Some true) as Hc by (vm_compute; reflexivity).
  cbv zeta in H. rewrite Hc in H.
  set (m := OutFrame (registered_frame toy_hmac demo_key demo_accepted demo_registration)) in *.
  change (send_waiting m [mkQueue [CloseAfterFlush] 1 false; demo_queue])
    with (Some (Some (mkQueue [m] 8 false))) in H.
  destruct H as (during & notice & E & _ & -> & _). exists during. exact E.
Defined.

(** Turned away with AUTH_FAILED, and told that the server shuts down. *)
Lemma client_session_outcome_witness :
  let refused := [(0%nat, at_frame 1 (mkFrame TError (to_be 2 (as_u16 AuthFailed))))] in
  let stopping := [(0%nat, at_frame 1 (frame_empty TServerShutdown))] in
  (∃ e, session_outcome (client_session (Sem := nat) Timing_default no_text demo_session_up
     refused) = Some (Fatal e)) ∧
  ∃ m, session_outcome (client_session (Sem := nat) Timing_default no_text demo_session_up
     stopping) = Some (Retry m).
Proof.
  assert (∀ f, client_reads (at_frame 1 f) heartbeat_new (Some (Ok f))) as Hreads.
  { intros f. split_and!; try reflexivity. intros (s & d & Ho & _). discriminate Ho. }
  intros refused stopping. split.
  - destruct (client_session_outcome (Sem := nat) Timing_default no_text demo_session_up refused)
      as [H _].
    destruct (H 0%nat 0%nat (at_frame 1 (mkFrame TError (to_be 2 (as_u16 AuthFailed)))))
      as (_ & Hf & _); [eexists; vm_compute; reflexivity|reflexivity|].
    apply (Hf (AppRegistration AuthFailed)). right. right. eexists _, AuthFailed.
    split; [apply Hreads|]. split; [by split|]. split; [discriminate|reflexivity].
  - destruct (client_session_outcome (Sem := nat) Timing_default no_text demo_session_up stopping)
      as [H _].
    destruct (H 0%nat 0%nat (at_frame 1 (frame_empty TServerShutdown)))
      as (_ & _ & Hr); [eexists; vm_compute; reflexivity|reflexivity|].
    apply Hr. split; [reflexivity|]. do 5 right. eexists. split; [apply Hreads|]. by left.
Defined.

(** One request at a time: the second OPEN is refused with no task started. *)
Definition demo_opens : list (nat * Ready (queue Outbound)) :=
  [(0%nat, at_frame 1 (mkFrame TOpen (replicate 16 x05)));
   (0%nat, at_frame 2 (mkFrame TOpen (replicate 16 x06)))].

Lemma client_capacity_witness :
  mjoin (ct_opened <$> client_session (Sem := nat) Timing_default no_text demo_session_up
    demo_opens) = [replicate 16 x05] ∧
  (length (mjoin (ct_opened <$> take 2 (client_session (Sem := nat) Timing_default no_text
     demo_session_up demo_opens))) ≤ 1)%nat.
Proof.
  split; [vm_compute; reflexivity|].
  exact (client_capacity Timing_default no_text demo_session_up demo_opens 2%nat).
Defined.

(** ** The client's run and a public connection *)

(** The client asks for port 20000, reaches nobody, registers, loses the
    connection, resumes, and is stopped. *)
Definition demo_dial (up : bool) : DialEnv := {|
  de_now := λ _, 0;
  de_lookup := λ _ _, Some (Ok [mkSocketAddr (V4 10 0 0 1) 7000]);
  de_connect := λ _ _ _, Some (if up then Ok () else Err ConnectionAborted);
  de_nodelay := Ok ()
|}.

(** What the server sends to a registration of this mode for this port. *)
Definition server_bytes (m : Mode) (p : Z) : bytes :=
  let h := mkControlHello instance_a client_nonce m p in
  frame_encode (challenge_frame toy_hmac demo_key h server_nonce (demo_session x01)) ++
  frame_encode (registered_frame toy_hmac demo_key (accepted h server_nonce (demo_session x01))
    demo_registration).

Definition demo_attempt (up : bool) (i : bytes) (turns : list (nat * Ready (queue Outbound))) :
    AttemptEnv no_request unit (queue Outbound) := {|
  ae_cancelled := false;
  ae_dial := demo_dial up;
  ae_peer := Ok (mkSocketAddr (V4 10 0 0 1) 7000);
  ae_world := peer_world client_nonce [];
  ae_conn := on_wire () i;
  ae_within := λ _, 100%nat;
  ae_turns := turns;
  ae_in_time := []
|}.

Definition demo_rounds : list (Round no_request unit (queue Outbound)) :=
  let session stop := [(0%nat, mkReady stop true 0 false None demo_queue)] in
  [mkRound false (demo_attempt false [] []) false false;
   mkRound false (demo_attempt true (server_bytes Fresh 20000) (session false)) false false;
   mkRound false (demo_attempt true (server_bytes Resume 20000) (session true)) false false].

Definition demo_expose : ExposeConfig := {|
  ec_key := "secret"; server := mkEndpoint "server" 7000; remote_port := Some 20000;
  target := mkEndpoint "localhost" 8080; ec_log_level := LevelInfo; ec_quiet := false
|}.

Lemma client_keeps_port_witness :
  let ran := run_client (Sem := nat) toy_hmac io_text (λ _, "5") Timing_default demo_expose
    (Ok instance_a) demo_rounds in
  (tr_asked <$> ran.1) = [(Fresh, 20000); (Fresh, 20000); (Resume, 20000)] ∧
  ran.2 = Finished (Ok ()) ∧
  ∃ before after l1 l2, ran.1 = before ++ after ∧ l1 ++ l2 = take (length ran.1) demo_rounds ∧
    Forall2 (λ rd t, tr_asked t = (Fresh, 20000) ∧
      assigned toy_hmac io_text Timing_default demo_expose instance_a rd (Fresh, 20000) = None ∧
      shown (tr_lines t) = []) l1 before.
Proof.
  intros ran. split; [vm_compute; reflexivity|]. split; [vm_compute; reflexivity|].
  destruct (client_keeps_port (Sem := nat) toy_hmac io_text (λ _, "5") Timing_default demo_expose
    instance_a demo_rounds ran.1 ran.2) as (before & after & l1 & l2 & H1 & H2 & H3 & _).
  - apply surjective_pairing.
  - exists before, after, l1, l2. split; [exact H1|]. split; [exact H2|exact H3].
Defined.

Lemma serve_public_ends_witness :
  ∃ pre, [SendReady; Forward; NotifyFinished (demo_session x01) (replicate 16 x05)] =
    pre ++ [NotifyFinished (demo_session x01) (replicate 16 x05)] ∧ Forward ∈ pre.
Proof.
  destruct (serve_public_ends (mkWaiting false false (Some (Some 88%nat)))
    (mkReadying false false (Some true)) (demo_session x01) (replicate 16 x05)
    [SendReady; Forward; NotifyFinished (demo_session x01) (replicate 16 x05)] eq_refl)
    as (pre & E & _ & [(s & _ & _ & _ & _ & _ & _ & ->)|(Hf & _ & _)]).
  - exists [SendReady; Forward]. split; [reflexivity|]. right. left.
  - exfalso. apply Hf. change [SendReady; Forward; NotifyFinished (demo_session x01)
      (replicate 16 x05)] with ([SendReady; Forward] ++ [NotifyFinished (demo_session x01)
      (replicate 16 x05)]) in E. apply app_inj_2 in E as [<- _]; [right; left|reflexivity].
Defined.

Definition demo_peer : SocketAddr := mkSocketAddr (V4 10 0 0 2) 5000.

(** Two connections, one of which has ended: the next one is taken. *)
Lemma accept_limit_witness :
  let st := accept_loop (Sem := nat) [Accepted 1 demo_peer; Accepted 2 demo_peer; TaskEnded None] in
  (available (handshakes st) + running st = MAX_HANDSHAKES)%nat ∧
  dispatched (accept_event (Accepted 3 demo_peer) st) = [1; 2; 3]%nat.
Proof.
  intros st. destruct (accept_limit (Sem := nat) [Accepted 1 demo_peer; Accepted 2 demo_peer; TaskEnded None] 3
    demo_peer)
    as (H & _ & Ht). split; [exact H|].
  transitivity (dispatched st ++ [3%nat]); [|reflexivity]. apply Ht; [reflexivity|].
  change (running st) with 1%nat. apply Nat.ltb_lt. reflexivity.
Defined.

(** Instance A comes back to its reserved port, and a public connection is
    handled before REGISTERED is queued. *)
Lemma open_before_registered_witness :
  ∃ reg r1 r2 q2,
    register demo_config Timing_default (demo_env 40 0)
      (register_request (accepted (mkControlHello instance_a client_nonce Resume 20000)
         server_nonce (demo_session x04)) 1 (SessionToken 2) (SessionToken 3)) demo_kept =
      Returns (Ok reg, r1) ∧
    accepted_public Timing_default (demo_env 50 5) 1 20000 78 50 r1 = Returns r2 ∧
    writers r2 !! 1%nat = Some q2.
Proof.
  edestruct (open_before_registered (Sem := nat) (Chan := queue Outbound) demo_config Timing_default toy_hmac demo_key
    (mkControlHello instance_a client_nonce Resume 20000) server_nonce (demo_session x04)
    (demo_env 40 0) (demo_env 50 5) demo_kept) with (w := 1%nat) (data_cancel := SessionToken 2)
    (control_cancel := SessionToken 3) (socket := 78%nat) (at_ := 50) (rid := replicate 16 x05)
    (q := mkQueue ([] : list Outbound) 8 false)
    as (reg & r1 & r2 & q2 & q3 & H1 & H2 & H3 & _).
  - apply length_toy_hmac.
  - by split_and!.
  - reflexivity.
  - reflexivity.
  - reflexivity.
  - apply demo_config_wf.
  - apply demo_kept_reachable.
  - refine (bool_decide_unpack _ _). vm_compute. reflexivity.
  - reflexivity.
  - vm_compute. reflexivity.
  - reflexivity.
  - vm_compute. reflexivity.
  - vm_compute. reflexivity.
  - reflexivity.
  - reflexivity.
  - simpl. lia.
  - apply Nat.ltb_lt. vm_compute. reflexivity.
  - simpl. lia.
  - reflexivity.
  - exists reg, r1, r2, q2. split; [exact H1|]. split; [exact H2|exact H3].
Defined.
