(* ===== verification/ForwardingWitness.v ===== *)
(** * One request on concrete runs

    A request that is forwarded, and the same request when its target refuses
    the connection, both through the properties of [ForwardingFacts.v]. *)

From Stdlib Require Import Strings.String Strings.Byte.
From S2P Require Import Prelude Errors Io Protocol ProtocolFacts Auth Runtime Timing Net Config.
From S2P Require Import Registry RegistryDemo Handshake HandshakeFacts Sessions.
From S2P Require Import Forwarding ForwardingFacts Witness.

Local Open Scope Z_scope.

Definition reachable (ok : bool) : DialEnv := {|
  de_now := λ i, Z.of_nat i;
  de_lookup := λ _ _, Some (Ok [mkSocketAddr (V4 127 0 0 1) 8080]);
  de_connect := λ _ _ _, Some (if ok then Ok () else Err OtherIo);
  de_nodelay := Ok ()
|}.

Definition demo_open : OpenContext := {|
  oc_request_id := replicate 16 x05;
  oc_session_id := demo_session x01;
  oc_server_addr := mkSocketAddr (V4 203 0 113 7) 4000;
  oc_target := mkEndpoint "localhost" 8080;
  oc_key := demo_key;
  oc_timing := Timing_default
|}.

Definition demo_open_env (target : bool) : OpenEnv (S := unit) := {|
  oe_start := 100; oe_now1 := 101; oe_now2 := 102; oe_now3 := 200;
  oe_target := reachable target;
  oe_server := reachable true;
  oe_conn := on_wire () (data_down ++ frame_encode (frame_empty TDataReady) ++ [x41]);
  oe_within := λ _, 100%nat;
  oe_stopped := false;
  oe_polls := [mkForwardPoll None false; mkForwardPoll (Some (Ok (5, 7))) true]
|}.

Definition demo_open_end : Conn unit := mkConn [x41] (encode_preamble Data ++ data_up) () 10.

(** With its target reachable, the request is forwarded; without, it is refused
    with the reason TARGET_CONNECT, and the server is told so. *)
Lemma open_answered_witness :
  set_up (peer_world client_nonce []) toy_hmac io_text demo_open (demo_open_env true)
    demo_open_end ∧
  refused_for (peer_world client_nonce []) toy_hmac io_text demo_open (demo_open_env false)
    TargetConnect ∧
  server_frame (demo_session x02) (open_failed_frame demo_open TargetConnect) heartbeat_new
    (chan_new (C := queue Outbound) 4, []) =
  mkServerTurn SGoOn heartbeat_new []
    [COpenFailed (demo_session x02) (replicate 16 x05) TargetConnect].
Proof.
  destruct (open_answered (peer_world client_nonce []) toy_hmac io_text demo_open
    (demo_open_env true)) as (_ & H & _ & Hs).
  destruct (open_answered (peer_world client_nonce []) toy_hmac io_text demo_open
    (demo_open_env false)) as (_ & _ & Hr & _).
  split; [|split].
  - eapply (H demo_open_end (Some (Ok (5, 7)))). vm_compute. reflexivity.
  - destruct (Hr (OutFrame (open_failed_frame demo_open TargetConnect))) as [Hr' _].
    destruct Hr' as (_ & [] & Hw & E); [vm_compute; reflexivity|exact Hw|discriminate E..].
  - apply (Hs eq_refl).
Defined.

Lemma forwarded_authentic_witness :
  ∃ ch, wf_data_challenge ch ∧
    inbound (on_wire () (data_down ++ frame_encode (frame_empty TDataReady) ++ [x41])) =
      frame_encode (mkFrame TDataChallenge (DataChallenge_encode ch)) ++
      frame_encode (frame_empty TDataReady) ++ [x41].
Proof.
  destruct (forwarded_authentic (peer_world client_nonce []) toy_hmac io_text demo_open
    (demo_open_env true) demo_open_end (Some (Ok (5, 7))))
    as ((n & t & ch & _ & Hw & _ & Hi & _) & _).
  - vm_compute. reflexivity.
  - exists ch. split; [exact Hw|exact Hi].
Defined.
