(* ===== verification/ClientSystemWitness.v ===== *)
(** * A session of the client on a concrete run

    A server that allows one connection asks for two: the first request is set up
    and copied, the second is refused for want of a permit, and then the writer
    fails and the session ends. *)

From Stdlib Require Import Strings.String Strings.Byte.
From S2P Require Import Prelude Errors Io Protocol Auth Runtime Timing Net Config.
From S2P Require Import Registry RegistryDemo Handshake Sessions Forwarding ClientSystem.
From S2P Require Import ClientSystemFacts Witness ForwardingWitness.

Local Open Scope Z_scope.

Definition one_session : Session :=
  mkSession (demo_session x01) (mkSocketAddr (V4 203 0 113 7) 4000) 20000 1.

Definition one_target : Endpoint := mkEndpoint "localhost" 8080.

Abbreviation DemoClient := (ClientSystem nat (queue Outbound) unit).
Abbreviation one_step := (client_step_rel (peer_world client_nonce []) Timing_default toy_hmac
  io_text one_session one_target demo_key).

(** A turn that gets to an OPEN. *)
Definition open_turn (rid : RequestId) (K : DemoClient) : DemoClient :=
  let rd := mkReady false false 0 false (Some (Some (Ok (mkFrame TOpen rid)))) (k_writer K) in
  after_turn rd (client_turn Timing_default io_text rd (k_beat K) (k_permits K)) K.

Definition first_request : RequestId := replicate 16 x05.
Definition second_request : RequestId := replicate 16 x06.

Definition one_opened : DemoClient := open_turn first_request (client_system_new one_session).
Definition two_opened : DemoClient := open_turn second_request one_opened.
Definition one_env : OpenEnv (S := unit) :=
  mkOpenEnv 100 101 102 200 (reachable true) (reachable true)
    (oe_conn (demo_open_env true)) (λ _, 100%nat) false [].
Definition one_copies : DemoClient := task_copies 0 first_request one_env two_opened.
Definition one_cancelled : DemoClient :=
  cancel_session (set_writer (chan_close (k_writer one_copies)) one_copies).

Lemma open_turn_step rid K :
  k_outcome K = None → k_cancelled K = false → one_step K (open_turn rid K).
Proof. intros Ho Hc. by apply k_turn. Qed.

Lemma one_copies_step : one_step two_opened one_copies.
Proof.
  apply (k_forwards _ _ _ _ _ _ _ two_opened 0 first_request one_env demo_open_end).
  - vm_compute. reflexivity.
  - split; [vm_compute; reflexivity|]. split; [reflexivity|]. vm_compute. reflexivity.
Qed.

Lemma one_copies_reachable :
  client_reachable (peer_world client_nonce []) Timing_default toy_hmac io_text one_session
    one_target demo_key one_copies.
Proof.
  eapply rtc_l; [by apply (open_turn_step first_request)|].
  eapply rtc_l; [by apply (open_turn_step second_request)|].
  eapply rtc_l; [apply one_copies_step|]. apply rtc_refl.
Qed.

Lemma client_requests_accounted_witness :
  k_ended one_copies = [(second_request, NoPermit 1 true)] ∧
  filter is_refusal (k_said one_copies) =
    [out_frame TOpenFailed (OpenFailed_encode (mkOpenFailed second_request LocalCapacity))] ∧
  (∃ data, set_up (peer_world client_nonce []) toy_hmac io_text
     (open_context Timing_default one_session one_target demo_key first_request) one_env data) ∧
  k_read one_copies ≡ₚ in_progress (k_tasks one_copies) ++ (k_ended one_copies).*1.
Proof.
  destruct (client_requests_accounted (peer_world client_nonce []) Timing_default toy_hmac
    io_text one_session one_target demo_key one_copies one_copies_reachable)
    as (Hr & _ & _ & Hc & Hs).
  split; [vm_compute; reflexivity|]. split; [|split; [|exact Hr]].
  - etrans; [exact Hs|]. vm_compute. reflexivity.
  - apply (Hc 0%nat). vm_compute. reflexivity.
Defined.

Lemma client_session_winds_down_witness :
  ∃ K, rtc one_step one_cancelled K ∧ k_tasks K = ∅ ∧ k_permits K = 1%nat.
Proof.
  assert (client_reachable (peer_world client_nonce []) Timing_default toy_hmac io_text
    one_session one_target demo_key one_cancelled) as Hr.
  { eapply rtc_r; [apply one_copies_reachable|]. apply k_writer_ends. }
  destruct (client_session_winds_down (peer_world client_nonce []) Timing_default toy_hmac
    io_text one_session one_target demo_key one_cancelled Hr eq_refl) as (_ & K & H & Ht & Hp).
  exists K. split; [exact H|]. split; [exact Ht|exact Hp].
Defined.
