(* ===== verification/SystemRun.v ===== *)
(** * A run of the server

    An executable scheduler for the server, whose moves are steps, and the run
    of one client: its control connection registers, a public connection comes
    in, its data connection claims it.  The witnesses of the properties of the
    server are states of this run. *)

From Stdlib Require Import Strings.String Strings.Byte.
From S2P Require Import Prelude Errors Io Protocol ProtocolFacts Auth Runtime Timing Net Config.
From S2P Require Import Registry RegistryInv RegistryProps RegistryDemo Handshake HandshakeFacts.
From S2P Require Import Sessions Traces System SystemInv SystemTypes SystemProps Witness.

Local Open Scope Z_scope.

(** ** Moves *)

(** An operation answered with success; [bs] is what a read or a draw yields. *)
Definition feed {A} (bs : bytes) (p : proc RegistryRequest A) :
    option (IoEvent RegistryRequest * proc RegistryRequest A) :=
  match p with
  | Ret _ => None
  | Vis o k =>
      match o in op _ X return
        (X → proc RegistryRequest A) → option (IoEvent RegistryRequest * proc RegistryRequest A)
      with
      | ReadExact n => λ k,
          if decide (length bs = n) then Some (Did (ReadExact n) (Ok bs), k (Ok bs)) else None
      | Entropy n => λ k,
          if decide (length bs = n) then Some (Did (Entropy n) (Ok bs), k (Ok bs)) else None
      | WriteAll w => λ k, Some (Did (WriteAll w) (Ok ()), k (Ok ()))
      | Flush => λ k, Some (Did Flush (Ok ()), k (Ok ()))
      | CloseWrite => λ k, Some (Did CloseWrite (), k ())
      | Request _ => λ _, None
      end k
  end.

Lemma feed_sound {A} bs (p p' : proc RegistryRequest A) e :
  feed bs p = Some (e, p') → advances p e p' ∧ event_possible e.
Proof.
  destruct p as [a|X o k]; [done|]. destruct o; simpl; intros H; try done;
    try case_decide; simplify_eq/=; (split; [by apply advance|done]).
Qed.

Inductive Move :=
| MAccept (n : Socket)
| MIo (n : Socket) (bs : bytes)
| MDispatch (n : Socket)
| MAuthenticated (n : Socket)
| MPost (n : Socket)
| MTurn (t : Instant) (first : N)
| MRegistered (n : Socket)
| MPublic (listener_id port : Z) (socket : Socket) (at_ : Instant).

Section moves.
Abbreviation DemoSystem := (System nat (queue Outbound)).
Context (config : ServerConfig) (timing : Timing).
Context (hmac : bytes → bytes → bytes) (key : bytes).
Implicit Types S : DemoSystem.

(** The environment of a turn: distinct identifiers, and every task listens. *)
Definition turn_env (t : Instant) (first : N) S : Env := {|
  now := t;
  bind_listener := λ _, None;
  random_id := λ i, Some (replicate 16 (byte_of_Z (Z.of_N first + Z.of_nat i)));
  draws := 3;
  receiver_open := λ id, bool_decide (is_Some (tasks (registry S) !! id))
|}.

Lemma turn_env_ok t first S : env_ok (turn_env t first S) (registry S).
Proof.
  split.
  - intros id H. by apply bool_decide_eq_true in H.
  - intros i rid [= <-]. done.
Qed.

Definition feed_phase (bs : bytes) (ph : Phase) : option (IoEvent RegistryRequest * Phase) :=
  match ph with
  | Greeting p => prod_map id Greeting <$> feed bs p
  | DataPhase p => prod_map id DataPhase <$> feed bs p
  | ControlPhase p => prod_map id ControlPhase <$> feed bs p
  | _ => None
  end.

Lemma feed_phase_sound bs ph ph' e :
  feed_phase bs ph = Some (e, ph') → phase_advances ph e ph' ∧ event_possible e.
Proof.
  destruct ph; simpl; try done; intros ([e0 p'] & [? ?]%feed_sound & [= -> ->])%fmap_Some;
    (split; [by constructor|done]).
Qed.

Definition move (m : Move) S : option DemoSystem :=
  match m with
  | MAccept n =>
      match peers S !! n with
      | Some _ => None
      | None => Some (set_peer n (mkPeer (Greeting read_preamble) false []) S)
      end
  | MIo n bs =>
      match peers S !! n with
      | Some (mkPeer ph false ev) =>
          match feed_phase bs ph with
          | Some (e, ph) =>
              if decide (Forall (λ sid, sid ∉ session_ids S) (event_drawn 16 e))
              then Some (draw_ids (event_drawn 16 e)
                           (set_peer n (mkPeer ph false (ev ++ [e])) S))
              else None
          | None => None
          end
      | _ => None
      end
  | MDispatch n =>
      match peers S !! n with
      | Some (mkPeer (Greeting (Ret (Ok k))) false ev) =>
          Some (set_peer n (mkPeer (match k with
                                    | Control => ControlPhase (control_handshake hmac key)
                                    | Data => DataPhase (data_handshake hmac key n)
                                    end) false ev) S)
      | _ => None
      end
  | MAuthenticated n =>
      match peers S !! n with
      | Some (mkPeer (ControlPhase (Ret (Ok a))) false ev) =>
          Some (set_registry
            (set_writers (<[n := chan_new WRITER_CAPACITY]> (writers (registry S))) (registry S))
            (set_peer n (mkPeer (Registering a (handle_register (serve_request_of a n))) false ev) S))
      | _ => None
      end
  | MPost n =>
      match peers S !! n with
      | Some (mkPeer ph false ev) =>
          match phase_asks ph, actor_running S with
          | Some (c, k), true =>
              if decide (length (inbox S) + length [c] ≤ COMMAND_CAPACITY)%nat
              then Some (post (Some n) [c] (set_peer n (mkPeer ph true ev) S))
              else None
          | _, _ => None
          end
      | _ => None
      end
  | MTurn t first =>
      match actor_running S, inbox S with
      | true, (who, c) :: rest =>
          match handle_command config timing (turn_env t first S) c (registry S) with
          | Returns (reply, stop, r) => Some (actor_turn who c rest reply stop r S)
          | _ => None
          end
      | _, _ => None
      end
  | MRegistered n =>
      match peers S !! n, writers (registry S) !! n with
      | Some (mkPeer (Registering a (Ret (Ok rg))) false ev), Some c =>
          match try_send c (OutFrame (registered_frame hmac key a rg)) with
          | Some c' =>
              Some (set_registry (set_writers (<[n := c']> (writers (registry S))) (registry S))
                (set_peer n (mkPeer (Established a (rg_generation rg) heartbeat_new) false ev) S))
          | None => None
          end
      | _, _ => None
      end
  | MPublic lid p socket at_ =>
      if decide (length (inbox S) + 1 ≤ COMMAND_CAPACITY)%nat
      then Some (post None [CAcceptedPublic lid p socket at_] S)
      else None
  end.

Lemma move_sound m S S' : move m S = Some S' → sys_step config timing hmac key S S'.
Proof.
  destruct m as [n|n bs|n|n|n|t first|n|lid p socket at_]; simpl; intros H.
  - destruct (peers S !! n) eqn:Hn; [done|]. injection H as <-. by constructor.
  - destruct (peers S !! n) as [[ph [] ev]|] eqn:Hn; try done.
    destruct (feed_phase bs ph) as [[e ph']|] eqn:Hf; [|done].
    apply feed_phase_sound in Hf as [Ha He]. case_decide as Hd; [|done]. injection H as <-.
    apply (sys_io _ _ _ _ _ _ _ _ _ Hn); try done. by apply Forall_forall.
  - destruct (peers S !! n) as [[[[[k|]|]| | | | | |] [] ev]|] eqn:Hn; try done.
    injection H as <-. by constructor.
  - destruct (peers S !! n) as [[[| |[[a|]|]| | | |] [] ev]|] eqn:Hn; try done.
    injection H as <-. by constructor.
  - destruct (peers S !! n) as [[ph [] ev]|] eqn:Hn; try done.
    destruct (phase_asks ph) as [[c k]|] eqn:Ha; [|done].
    destruct (actor_running S) eqn:Hrun; [|done]. case_decide; [|done]. injection H as <-.
    exact (sys_post config timing hmac key S n (mkPeer ph false ev) c k Hn eq_refl Ha Hrun (λ _, H0)).
  - destruct (actor_running S) eqn:Hrun; [|done].
    destruct (inbox S) as [|[who c] rest] eqn:E; [done|].
    destruct (handle_command _ _ _ _ _) as [[[reply stop] r]| |] eqn:Hh; try done.
    injection H as <-. by eapply sys_turn; [..|apply turn_env_ok|].
  - destruct (peers S !! n) as [[[| | |a [[rg|]|]| | |] [] ev]|] eqn:Hn; try done.
    destruct (writers (registry S) !! n) as [c|] eqn:Hc; [|done].
    set (m := OutFrame _) in H.
    change (match try_send c m with
            | Some c' => Some (set_registry (set_writers (<[n := c']> (writers (registry S)))
                (registry S)) (set_peer n (mkPeer (Established a (rg_generation rg) heartbeat_new)
                  false ev) S))
            | None => None
            end = Some S') in H.
    destruct (try_send c m) as [c'|] eqn:Hs; [|done]. injection H as <-. by eapply sys_registered.
  - case_decide; [|done]. injection H as <-. apply sys_foreign; [done|]. by intros _.
Qed.

Definition moves (l : list Move) : option DemoSystem :=
  foldl (λ o m, o ≫= move m) (Some system_new) l.

Lemma moves_snoc l m : moves (l ++ [m]) = moves l ≫= move m.
Proof. unfold moves. by rewrite foldl_app. Qed.

Lemma moves_sound l S : moves l = Some S → sys_reachable config timing hmac key S.
Proof.
  revert S. induction l as [|m l IH] using rev_ind; intros S H.
  - injection H as <-. constructor.
  - rewrite moves_snoc in H. apply bind_Some in H as (S1 & H1 & Hm).
    eapply rtc_r; [by apply IH|by eapply move_sound].
Qed.
End moves.

(** ** The run *)

Definition header_of (f : Frame) : bytes := take 3 (frame_encode f).

(** A handshake of a peer up to its proof: the preamble, the hello, what the
    server draws in between, and the proof. *)
Definition demo_control : list Move :=
  [MAccept 0; MIo 0 (encode_preamble Control); MDispatch 0;
   MIo 0 (header_of (hello_frame demo_hello)); MIo 0 (ControlHello_encode demo_hello);
   MIo 0 server_nonce; MIo 0 (demo_session x01); MIo 0 []; MIo 0 [];
   MIo 0 (header_of (proof_frame toy_hmac demo_key demo_hello server_nonce (demo_session x01)));
   MIo 0 (mac toy_hmac demo_key LABEL_CONTROL_CLIENT
            (control_transcript demo_hello server_nonce (demo_session x01)));
   MAuthenticated 0; MPost 0; MTurn 0 0].

Definition demo_request_id : RequestId := replicate 16 x05.
Definition demo_data_hello : DataHello :=
  mkDataHello (demo_session x01) demo_request_id client_nonce.
Definition demo_data_proof : Frame :=
  mkFrame TDataProof (mac toy_hmac demo_key LABEL_DATA_CLIENT
    (data_transcript demo_data_hello server_nonce)).

Definition demo_data : list Move :=
  [MAccept 1; MIo 1 (encode_preamble Data); MDispatch 1;
   MIo 1 (header_of (mkFrame TDataHello (DataHello_encode demo_data_hello)));
   MIo 1 (DataHello_encode demo_data_hello); MPost 1; MTurn 15 0;
   MIo 1 server_nonce; MIo 1 []; MIo 1 [];
   MIo 1 (header_of demo_data_proof); MIo 1 (payload demo_data_proof); MPost 1].

Definition demo_moves : list Move :=
  demo_control ++ [MRegistered 0; MPublic 1 20000 77 10; MTurn 10 5] ++ demo_data.

Definition demo_system (l : list Move) : option (System nat (queue Outbound)) :=
  moves demo_config Timing_default toy_hmac demo_key l.

(** A property of the state a run ends in, checked by evaluation. *)
Definition ends_in (l : list Move) (check : System nat (queue Outbound) → bool) : bool :=
  match demo_system l with Some sys => check sys | None => false end.

Lemma ends_in_reachable l check :
  ends_in l check = true →
  ∃ S, sys_reachable demo_config Timing_default toy_hmac demo_key S ∧ check S = true.
Proof.
  unfold ends_in, demo_system. destruct (moves _ _ _ _ l) as [S|] eqn:E; [|done].
  intros H. exists S. split; [by eapply moves_sound|done].
Qed.

(** The session is registered and its task has its data connection. *)
Definition delivered_check (S : System nat (queue Outbound)) : bool :=
  match tasks (registry S) !! 0%nat, sessions (registry S) !! demo_session x01 with
  | Some t, Some s =>
      bool_decide (t_session t = demo_session x01 ∧ t_request t = demo_request_id ∧
                   t_data t = Some 1%nat ∧ s_instance_id s = instance_a ∧ s_writer s = 0%nat)
  | _, _ => false
  end.

Lemma demo_delivered : ends_in (demo_moves ++ [MTurn 20 0]) delivered_check = true.
Proof. vm_compute. reflexivity. Qed.

(** ** The properties of the server in this run *)

(** Two states of the run with one move between them. *)
Lemma ends_in_step l m (check : System nat (queue Outbound) → bool) :
  ends_in l check = true → ends_in (l ++ [m]) (λ _, true) = true →
  ∃ S S', sys_reachable demo_config Timing_default toy_hmac demo_key S ∧ check S = true ∧
    sys_step demo_config Timing_default toy_hmac demo_key S S'.
Proof.
  unfold ends_in, demo_system. rewrite moves_snoc.
  destruct (moves _ _ _ _ l) as [S|] eqn:E; [|done]. simpl.
  destruct (move _ _ _ _ m S) as [S'|] eqn:Em; [|done]. intros Hc _.
  exists S, S'. split_and!; [by eapply moves_sound|done|by eapply move_sound].
Qed.

Definition registering_check (S : System nat (queue Outbound)) : bool :=
  match inbox S with
  | [(Some 0%nat, CRegister req)] => bool_decide (rq_session_id req = demo_session x01)
  | _ => false
  end.

Lemma server_refines_registry_witness :
  ∃ (S : System nat (queue Outbound)) req, inbox S = [(Some 0%nat, CRegister req)] ∧
    reachable demo_config Timing_default (registry S) ∧ admissible (CRegister req) (registry S).
Proof.
  destruct (ends_in_step (take 13 demo_moves) (MTurn 0 0) registering_check)
    as (S & S' & Hr & Hc & Hs); [vm_compute; reflexivity|vm_compute; reflexivity|].
  destruct (server_refines_registry demo_config Timing_default toy_hmac demo_key S S'
    demo_config_wf Hr Hs) as (H1 & _ & H2 & _).
  unfold registering_check in Hc. destruct (inbox S) as [|[[[|]|] []] []] eqn:E; try discriminate.
  exists S, request. split; [exact E|]. split; [exact H1|]. exact (H2 _ _ _ eq_refl).
Defined.

Lemma delivered_state :
  ∃ S : System nat (queue Outbound),
    sys_reachable demo_config Timing_default toy_hmac demo_key S ∧
    ∃ t s, tasks (registry S) !! 0%nat = Some t ∧ t_session t = demo_session x01 ∧
      t_request t = demo_request_id ∧ t_data t = Some 1%nat ∧
      sessions (registry S) !! demo_session x01 = Some s ∧ s_writer s = 0%nat.
Proof.
  destruct (ends_in_reachable _ _ demo_delivered) as (S & Hr & Hc). exists S. split; [done|].
  unfold delivered_check in Hc. destruct (tasks (registry S) !! 0%nat) as [t|]; [|done].
  destruct (sessions (registry S) !! demo_session x01) as [s|]; [|done].
  apply bool_decide_eq_true in Hc. exists t, s. naive_solver.
Qed.

Lemma end_to_end_authentication_witness :
  ∃ S : System nat (queue Outbound),
    data_proved toy_hmac demo_key (peers S) (demo_session x01) demo_request_id 1 ∧
    ∃ hello, control_proved toy_hmac demo_key (peers S) hello (demo_session x01) 0.
Proof.
  destruct delivered_state as (S & Hr & t & s & Ht & Hts & Htr & Htd & Hs & Hw). exists S.
  destruct (end_to_end_authentication demo_config Timing_default toy_hmac demo_key S
    demo_config_wf Hr) as [H1 H2].
  destruct (H2 _ _ _ Ht Htd) as [Hd _]. rewrite Hts, Htr in Hd.
  destruct (H1 _ _ Hs) as (hello & _ & Hc). rewrite Hw in Hc.
  split; [exact Hd|]. exists hello. exact Hc.
Defined.

Lemma session_identifiers_unique_witness :
  ∃ (S : System nat (queue Outbound)) req, inbox S = [(Some 0%nat, CRegister req)] ∧
    sessions (registry S) !! rq_session_id req = None.
Proof.
  destruct (ends_in_reachable (take 13 demo_moves) registering_check)
    as (S & Hr & Hc); [vm_compute; reflexivity|].
  destruct (session_identifiers_unique demo_config Timing_default toy_hmac demo_key S
    demo_config_wf Hr) as [_ H].
  unfold registering_check in Hc. destruct (inbox S) as [|[[[|]|] []] []] eqn:E; try discriminate.
  exists S, request. split; [exact E|].
  apply (H (Some 0%nat) (CRegister request)); [left|left].
Defined.

(** After the REGISTERED and the OPEN of the public connection. *)
Definition queued_check (S : System nat (queue Outbound)) : bool :=
  match writers (registry S) !! 0%nat with
  | Some (mkQueue [OutFrame f; OutFrame g] _ _) =>
      bool_decide (ty f = TRegistered ∧ ty g = TOpen)
  | _ => false
  end.

Lemma server_messages_accepted_witness :
  ∃ f g, ty f = TRegistered ∧ ty g = TOpen ∧ (∃ rg, Registered_decode (payload f) = Ok rg) ∧
    ∀ e, ct_flow (client_frame g heartbeat_new 1%nat (mkQueue [] 8 false : queue Outbound, []))
           ≠ CBreak (Fatal (AppProtocol e)).
Proof.
  destruct (ends_in_reachable (take 17 demo_moves) queued_check)
    as (S & Hr & Hc); [vm_compute; reflexivity|].
  unfold queued_check in Hc. destruct (writers (registry S) !! 0%nat) as [c|] eqn:Hw; [|discriminate].
  destruct c as [[|[f|] [|[g|] []]] ? ?]; try discriminate.
  apply bool_decide_eq_true in Hc as [Hf Hg].
  destruct (server_messages_accepted demo_config Timing_default toy_hmac demo_key S 0 _ f
    demo_config_wf length_toy_hmac Hr Hw) as (_ & _ & H & _); [left|].
  destruct (server_messages_accepted demo_config Timing_default toy_hmac demo_key S 0 _ g
    demo_config_wf length_toy_hmac Hr Hw) as (_ & _ & _ & H'); [right; left|].
  exists f, g. split_and!; [exact Hf|exact Hg|exact (H Hf)|].
  intros e. apply H'. rewrite Hg. discriminate.
Defined.
